(* ===== verification/_CoqProject ===== *)
-Q . S2P
Prelude.v
GoStrings.v
GoSort.v
Lifecycle.v
GF256.v
BytePoly.v
Shamir.v
Vault.v
Sni.v
SniRouter.v
Pattern.v
Calendar.v
Cron.v
Dedup.v
Health.v
Ephemeral.v
DbProg.v
PortAlloc.v
WebrtcPorts.v
CircuitBreaker.v
Scopes.v
Jwt.v
AuthPipeline.v
AuthDb.v
Sessions.v
ApiKeys.v
Base58.v
AuthHandlers.v
CronTriggers.v
Aggregator.v
PubSubStore.v
Dispatcher.v
PubSubManager.v
ReactorPool.v
Ip.v
UrlGuard.v
Voters.v
SqlSplit.v
Migrations.v
Scanner.v
PushDevices.v
TtlCache.v
RateLimit.v
PushManager.v
PushCredentials.v
FunctionRegistry.v
ModuleCache.v
FunctionLimits.v
Engine.v
Invoker.v
Placement.v
PersistentWs.v
Transactions.v
RqliteReads.v
QueryText.v
LeaderLocality.v
