(* ===== verification/Prelude.v ===== *)
(** * Orama network: a verification library

    Orama is a network of nodes written in Go ([core/pkg]) that host
    namespaces: each namespace has a database, a cache and a gateway on some
    nodes; applications reach it over HTTP and WebSocket through the main
    gateway, run serverless functions, store secrets and open media sessions.
    This library models the parts of that program whose correctness is a
    matter of logic rather than of plumbing, function by function, and proves
    what they promise.  Paths below are relative to [core/pkg].

    ** Conventions

    - A Go function is a definition of the same name; a method takes its
      receiver's state and returns the new one.  A struct is a record, an
      enumeration an inductive type or the strings the code uses.
    - [(value, error)] is [result E A], with [let!] for the early return.
      Errors are data: the constructor, or the text where the code inspects
      the text.
    - [int] and [int64] are [Z]; where the code can overflow, the operation is
      followed by [wrap64].  Bytes are [Byte.byte] or [N].
    - Instants and durations are nanoseconds in [Z].  A clock reading, a random
      value and what a third party answers are arguments of the operation.
    - A Go map is a [gmap]; where the code visits one, the order of the visit
      is an argument and the theorems hold for every order.
    - Concurrent behaviour is a step relation whose steps are what one lock
      section or one database statement does; an invariant of all reachable
      states then covers every interleaving.

    ** Files

    - [Prelude]: results, machine integers, time, shared lemmas and tactics,
      the loop [iterate] and invariants of reachable states.
    - [GoStrings]: the functions of Go's [strings] and [strconv] packages the
      sources use; the case mapping of non-ASCII text is the interface
      [UnicodeCase].  [GoSort]: [sort.Slice].
    - [Lifecycle] ([node/lifecycle/manager.go]): the states of a node and its
      manager.  Transitions happen exactly along the table
      ([TransitionTo_spec]); a reachable manager has a known state and a
      bounded deadline only in maintenance ([lifecycle_invariant]).
    - [GF256], [BytePoly], [Shamir] ([shamir]): the field of 256 elements by log
      and exp tables, proved equal to polynomial multiplication modulo the AES
      polynomial ([Mul_polymul_mod]) and to be a field; polynomials and
      interpolation; splitting and combining of secrets, with the round trip
      for every choice of at least k shares ([Combine_Split]) and secrecy for
      fewer: as shares of any two secrets they are equally frequent
      ([Split_secrecy]).
    - [Vault] ([gateway/handlers/vault]): the push and pull handlers over a
      changing set of guardians ([vault_roundtrip],
      [vault_acknowledged_push]), the relation of the write quorum to the
      threshold, and what happens when guardians leave
      ([vault_pull_after_shrink]).
    - [Sni], [SniRouter] ([sniproxy]): the parser of TLS ClientHello records
      with its byte cursor, the peeking reader, the routing table and the
      proxying of one connection.  The parser is total and returns a slice of
      its input ([parseSNI_safe]); every well-formed hello is recognised
      however it arrives in pieces ([PeekClientHello_host]); the proxy forwards
      the client's bytes unchanged ([handle_transparent]).
    - [Pattern], [Calendar], [Cron], [Dedup] ([serverless/triggers]): topic
      patterns against their documented meaning, civil time, cron expressions
      with the exact characterisation of the next occurrence ([Next_spec]), and
      the cache that claims a dispatch at most once per window ([claim_once]).
    - [Health] ([node/health/monitor.go]): the ring of observers, the state of a
      peer, and a cluster of monitors, with clocks and time zones of their own,
      over a shared table of events.  A death
      is acted on only with a quorum ([death_needs_quorum]); whether it is
      acted on at all depends on the order of the reports
      ([quorum_depends_on_order]).
    - [Ephemeral] ([serverless/ephemeral_state.go]): the store of short-lived
      values of WebSocket clients, its index of owners, disconnects, sweeps
      and listings.
    - [DbProg]: programs over a shared database, their interleaving with
      failing, lagging and unacknowledged statements, and the rules that prove
      properties of all executions: an invariant ([upholds]), rely and guarantee
      ([keeps]), rely and guarantee with ownership by a thread ([secures]), and
      independence of part of the database ([ignores]).  [PortAlloc]
      ([namespace/port_allocator.go], [deployments/port_allocator.go]) and
      [WebrtcPorts] ([namespace/webrtc_port_allocator.go]) are clients: the
      port blocks of namespaces and the ports of deployments are exclusive
      under every interleaving ([port_blocks_exclusive],
      [deployment_ports_exclusive]); those of WebRTC services are exclusive
      only one allocation at a time ([AllocateTURNPorts_spec],
      [webrtc_ranges_overlap]).
    - [CircuitBreaker] ([gateway/circuit_breaker.go] and the proxies of
      [gateway/middleware.go]): breakers as shared objects of a registry, the
      failover of the namespace proxy and the cross-node proxy with requests in
      flight.
    - [Scopes], [Jwt], [AuthPipeline] ([gateway/auth/scopes.go],
      [gateway/auth/jwt.go], [gateway/middleware.go],
      [gateway/middleware_cache.go], [gateway/scope_policy.go]): grants of API
      keys, access tokens, and the middlewares that decide every request, with
      the hop from the main gateway to a namespace gateway.  A control-plane
      request carries an administrator's credential, and the gateway of one
      namespace takes no credential of another, except from a peer that vouches
      for the request ([pipeline_admin]); what
      the hop delivers is what was validated ([proxy_hop_faithful]); a revoked
      key is dead after the cache's time to live ([revocation_window]).

    - [AuthDb], [Sessions], [ApiKeys] ([gateway/auth/service.go],
      [gateway/auth/scoped_keys.go]): the tables of the authentication service
      and its operations as programs of [DbProg].  A refresh token succeeds at
      most twice whatever gateways do at once ([refresh_single_use]) and alone
      it follows the machine of token phases ([refresh_refines]); a scoped key
      keeps its namespace and scopes until it is revoked, and then for good
      nothing once no cache holds it ([scoped_key_faithful]).
    - [Base58], [AuthHandlers] ([gateway/handlers/auth], the signature checks of
      [gateway/auth/service.go]): addresses, login, keys, registration, refresh,
      logout and the exchange of a key for a token ([exchange_keeps_scopes]);
      what the endpoints do not check ([nonce_never_checked],
      [key_for_any_namespace]).
    - [CronTriggers] ([serverless/triggers/cron_store.go],
      [serverless/triggers/cron_scheduler.go]): the table of cron triggers and
      the schedulers of all gateways.  No trigger is invoked twice for the same
      instant ([cron_at_most_once]); what one tick does ([tick_spec]).
    - [Aggregator] ([serverless/aggregator/aggregator.go]): buffers of trigger
      events with timers that race with the lock ([aggregator_conserves],
      [shutdown_drains]).
    - [PubSubStore], [Dispatcher] ([serverless/triggers/pubsub_store.go],
      [serverless/triggers/dispatcher.go], [serverless/hostfunctions/pubsub.go]):
      the table of PubSub triggers and the dispatch of a published message by a
      cluster of nodes, through the local cache of [Dedup], a shared map and the
      aggregator: once per window while the cache has room ([dispatch_once]), and what a publish by a
      function starts ([wasm_publish_launches]).
    - [PubSubManager] ([pubsub/subscriptions.go]): subscription objects shared by
      handlers, with calls that interleave ([manager_invariant],
      [subscription_lost]).
    - [ReactorPool] ([serverless/reactor_pool.go]): the instances of functions
      that are warmed ahead of requests; each serves one caller or is closed,
      whatever warms, evictions and shutdowns interleave ([reactor_one_shot]).
    - [Ip], [UrlGuard] ([push/url_guard.go] and what it uses of Go's [net]): the
      parser of addresses, the reserved blocks, and the guard of push targets
      that tenants choose ([push_target_guarded]).
    - [Voters] ([rqlite/voter_reconciliation.go],
      [rqlite/cluster_discovery_membership.go]): which nodes of the database
      cluster vote ([voter_set_lowest]), and the reconciler that changes votes
      one node at a time over a Raft configuration that others change as well:
      what it never does ([reconcile_safe]) and what it reaches
      ([reconcile_converges]).
    - [SqlSplit], [Migrations] ([rqlite/migrations.go],
      [core/migrations/contract.go]): the splitter of SQL scripts
      ([split_roundtrip]), the runner of numbered scripts
      ([migrations_in_order]) and the check of the schema at the start of a
      gateway ([migrated_schema_accepted]).
    - [Scanner] ([rqlite/scanner.go]): which columns of a row reach which fields
      of a struct ([scan_row_spec]).
    - [PushDevices] ([push/device_store_rqlite.go], [secrets/encrypt.go],
      [gateway/handlers/push/handlers.go]): the table of devices, its statements
      and endpoints; a registration takes over its token
      ([register_exclusive]), and nobody else changes the row of a device
      ([device_isolated]).
    - [TtlCache]: the cache with a size and a time to live that dispatchers,
      credentials and limiters share, with calls that read the source between
      two lock sections and invalidations in between.  An insertion is whatever
      keeps the bound ([BoundedInsert]); the two ways of the code are instances.
    - [RateLimit] ([gateway/rate_limiter.go], [ratelimit],
      [gateway/handlers/ratelimit]): token buckets, with exact fractions
      where the code uses floating point.  What one address is granted in an
      interval is bounded ([client_rate_bounded]); the limit of a namespace
      starts afresh with every cache entry ([burst_every_ttl]); an override
      never exceeds the operator's ceiling ([ceiling_holds]).
    - [PushManager] ([push/dispatcher.go], [push/manager.go],
      [push/config_store.go], [push/credentials/manager.go], the provider
      factory of [gateway/dependencies.go], the configuration endpoints): what a
      send does to every device ([send_spec]), which servers it can reach
      ([ntfy_target_checked]), how old a cached dispatcher can be
      ([dispatchers_fresh]) and what a PUT stores ([put_config_merges]).
    - [PushCredentials] ([push/credentials], the validators of
      [push/providers], [gateway/handlers/push/credentials_handler.go],
      [SendHandler]): the credentials of namespaces and the endpoint that
      sends, over the state of a whole gateway.  A new credential takes effect
      with the next message ([rotation_effective]); what is stored and cached
      is always valid and the namespace's own ([credentials_valid]).

    - [FunctionRegistry] ([serverless/registry.go]): the tables of deployed
      functions and their environment, with the caches of a gateway.  What was
      deployed is what is read ([deploy_roundtrip]), nobody reads another's
      function ([registry_isolated]), and what switching does ([switch_row]).
    - [ModuleCache] ([serverless/cache/module_cache.go]): compiled modules,
      each cached, about to be cached or closed ([modules_accounted],
      [GetOrCompute_spec]).
    - [FunctionLimits] ([serverless/ratelimit.go]): the tiers of limits for
      functions over sharded buckets, taken by requests that interleave
      ([function_rate_bounded], [buckets_bounded]).
    - [Engine] ([serverless/engine.go], [errors.go], [invocation.go],
      [raw_http.go], [invocation_log_queue.go]): one execution of a function with its
      limits, its module, its answer and its record ([Execute_spec]).
    - [Invoker] ([serverless/invoke.go]): invocations over the registry and the
      engine: who may invoke what ([invocation_authorized]), retries
      ([executeWithRetry_spec]) and their delays ([calculateBackoff_exact]).
    - [Placement] ([deployments/home_node.go], [deployments/replica_manager.go],
      [namespace/node_selector.go]): homes of namespaces, replicas and the nodes of
      clusters, chosen by score ([home_node_spec], [replica_nodes_spec],
      [cluster_nodes_spec]) over shared tables ([placement_tables]).
    - [PersistentWs] ([serverless/persistent],
      [gateway/handlers/serverless/ws_persistent_handler.go]): functions that
      live as long as a socket: with whose identity frames run
      ([session_identity]) and how many sockets there can be
      ([slots_conserved]).
    - [Transactions] ([rqlite/batch.go], [serverless/hostfunctions/database.go]):
      statements of functions in one transaction ([transaction_atomic]) and the
      numbered commit with its announcement ([exec_and_publish_spec]).
    - [RqliteReads] ([rqlite/freshness.go], [rqlite/freshness_read.go],
      [rqlite/batch.go], [rqlite/client.go]): where batched reads go
      ([local_reads_fresh]) and what they answer ([batch_reads_bounded]).
    - [QueryText] ([rqlite/query_builder.go], [rqlite/repository.go]): the texts
      of queries and statements and their arguments ([Build_binds],
      [saveEntity_binds]).
    - [LeaderLocality] ([namespace/leader_locality.go]): when and to whom a
      far leader hands its role, over nodes that tick, restart and see the
      cluster change ([leader_locality]).

    [AuthPipeline] builds on [Scopes] and [Jwt], [Vault] on [Shamir], [Shamir]
    on [BytePoly] and [GF256], [SniRouter] on [Sni], [Cron] on [Calendar]; the
    allocators, [AuthDb], [CronTriggers] and [PubSubStore] on [DbProg];
    [Sessions] and [ApiKeys] on [AuthDb], [AuthHandlers] on both, on [Base58]
    and on [AuthPipeline]; [CronTriggers] on [Cron]; [Dispatcher] on [Pattern],
    [Dedup], [Aggregator] and [PubSubStore]; [UrlGuard] and [Voters] on [Ip];
    [Voters] and [Migrations] on [DbProg] and [GoSort], [Migrations] on
    [SqlSplit]; [PushDevices] on [Scanner], [DbProg] and [AuthPipeline];
    [RateLimit] on [TtlCache], [Ip] and [DbProg]; [PushManager] on [TtlCache],
    [UrlGuard] and [PushDevices], [PushCredentials] on [PushManager]; [FunctionRegistry], [Placement] and
    [Transactions] on [DbProg], [RqliteReads] on [Transactions];
    [FunctionLimits] on the buckets of [RateLimit]; [Engine] on
    [FunctionRegistry], [ModuleCache] and [FunctionLimits], [Invoker] on [Engine],
    [PersistentWs] on [Engine] and [Jwt]; the others stand on [Prelude] and [GoStrings].

    ** Interfaces

    Code outside the repository enters as a type class or an argument:
    [UnicodeCase] (case mapping), the codecs and signature schemes of [Jwt]
    with their laws (decoding what was encoded from valid UTF-8, verifying what
    was signed), the claims codec of [AuthPipeline] (likewise), JSON and base64 in [Vault] (decoding undoes
    encoding), the hashes and signatures of [Sessions], [ApiKeys] and
    [AuthHandlers], the provisioner of clusters, the serverless engine of
    [CronTriggers], the shared map [DMap] of [Dispatcher] (a write with NX and
    EX), SQLite's GLOB, the Raft interface of rqlite [RaftApi] in [Voters], the
    parser of URLs and the resolver in [UrlGuard], what a statement of a script
    does in [Migrations] ([MigrationDb]), the cipher and the keyed hash of
    [PushDevices] ([TokenCrypto]: opening what was sealed), what a push provider
    answers in [PushManager] and the decoding of credentials in
    [PushCredentials], the storage of code and the WebAssembly runtime in
    [Engine] (functions of the module, the input and the context), the verifier of tokens in
    [PersistentWs], what SQLite makes of the texts of functions in
    [Transactions], the driver, HTTP and the status of a server in [RqliteReads],
    and the status, the listing and the times of connections in [LeaderLocality].  Each property that uses such a law has a witness with a
    concrete instance.  SQL statements are functions on lists of rows with the
    keys of the migrations under [core/migrations]; foreign keys are not
    enforced by the database as it is started, a UUID is not issued twice, and
    namespaces are not deleted.

    ** Bounds

    Loops that are not structural carry fuel, and the theorems say that it is
    enough.  The cron search runs at most [2 ^ 28] rounds ([next_bound]), more
    than the seconds of its five-year horizon, and [Next_spec] shows it always
    ends with the first occurrence or none.  The loop that fills a cron field
    has 128 turns ([range_fuel]), twice what a mask of 64 bits needs, because
    a step can wrap around.  The glob matcher's fuel is a product of the
    lengths of pattern and topic, the SNI loops' fuel is the length of the
    input ([parseSNI_safe]: the fuel error never occurs), and the search for a
    free port has one turn per port of its range.

    The search for the leader's nearest voter, the retries and the filling of
    placeholders are structural; [ParseDuration] has as much fuel as its text is long.

    ** Not modelled

    The WebAssembly runtime and the host functions other than those of the
    database and of publishing, the gossip network, the SFU and TURN servers,
    the DNS plugin, storage and cache clients, push providers, the installer
    and command line drive external libraries or the operating system.  The
    orchestration of namespace clusters ([namespace/cluster_manager.go],
    [cluster_recovery.go]) is a long sequence of calls to systemd and other
    nodes.  Of the authentication service the listing of keys, the Phantom
    sessions and the check for a missing service are left out; of the registry
    the log tables; of the persistent sockets the upgrade, the keepalive and what the module
    computes; of the client of the database single statements and
    reflection.  Floating point is replaced by exact fractions in the limiters, in the scores of
    nodes and in the fractions of durations. *)

From Stdlib Require Import ZArith Lia.
From stdpp Require Import base tactics relations list gmap fin_maps sorting strings.

(** ** Results

    Go's [(value, error)] pairs become [result E A]: [Ok a] is [(a, nil)] and
    [Err e] is [(zero, e)] with the error value kept as data. *)

Inductive result (E A : Type) : Type :=
| Ok (a : A)
| Err (e : E).
Arguments Ok {E A} a.
Arguments Err {E A} e.

Definition result_bind {E A B : Type} (r : result E A) (k : A → result E B) : result E B :=
  match r with
  | Ok a => k a
  | Err e => Err e
  end.

Declare Scope go_scope.
Delimit Scope go_scope with go.
Notation "'let!' x := r 'in' k" := (result_bind r (λ x, k))
  (at level 10, x name, r at level 100, k at level 200) : go_scope.
Notation "'let!' ' p := r 'in' k" := (result_bind r (λ x, match x with p => k end))
  (at level 10, p pattern, r at level 100, k at level 200) : go_scope.

Definition is_ok {E A : Type} (r : result E A) : bool :=
  match r with Ok _ => true | Err _ => false end.

Lemma result_bind_Ok {E A B : Type} (r : result E A) (k : A → result E B) (b : B) :
  result_bind r k = Ok b ↔ ∃ a, r = Ok a ∧ k a = Ok b.
Proof. destruct r; naive_solver. Qed.

(** ** Machine integers

    Go's [int] and [int64] are 64-bit two's complement on every platform the
    project ships; [wrap64] is the value an operation keeps.  [u16] and [u8]
    are the truncations to [uint16] and [byte]. *)

Definition wrap64 (z : Z) : Z := ((z + 2 ^ 63) mod 2 ^ 64 - 2 ^ 63)%Z.
Definition in_int64 (z : Z) : Prop := (- 2 ^ 63 ≤ z < 2 ^ 63)%Z.
Definition maxInt64 : Z := (2 ^ 63 - 1)%Z.
Definition minInt64 : Z := (- 2 ^ 63)%Z.

Lemma wrap64_id z : in_int64 z → wrap64 z = z.
Proof. unfold wrap64, in_int64. intros H. rewrite Z.mod_small; lia. Qed.

Lemma wrap64_range z : in_int64 (wrap64 z).
Proof.
  unfold wrap64, in_int64.
  pose proof (Z.mod_pos_bound (z + 2 ^ 63) (2 ^ 64) eq_refl). lia.
Qed.

(** ** Time

    A [time.Time] is the number of nanoseconds since 0001-01-01T00:00:00 UTC,
    so that Go's zero value [time.Time{}] is [0] and [IsZero] is a comparison
    with it; a [time.Duration] is a number of nanoseconds.  Every operation
    that calls [time.Now()] takes the instants it reads as arguments. *)

Abbreviation time := Z (only parsing).
Abbreviation duration := Z (only parsing).

Definition time_zero : time := 0%Z.
Definition IsZero (t : time) : bool := (t =? time_zero)%Z.
Definition Before (t u : time) : bool := (t <? u)%Z.
Definition After (t u : time) : bool := (u <? t)%Z.
Definition Since (now t : time) : duration := (now - t)%Z.
Definition Nanosecond : duration := 1%Z.
Definition Millisecond : duration := 1000000%Z.
Definition Second : duration := 1000000000%Z.
Definition Minute : duration := (60 * Second)%Z.
Definition Hour : duration := (60 * Minute)%Z.

(** ** Automation *)

Create HintDb orama.

(** Turn every boolean comparison of the context into the proposition it
    decides, splitting the ones that stand in the goal. *)
Ltac zbool :=
  repeat match goal with
  | H : (_ <? _)%Z = true |- _ => apply Z.ltb_lt in H
  | H : (_ <? _)%Z = false |- _ => apply Z.ltb_ge in H
  | H : (_ <=? _)%Z = true |- _ => apply Z.leb_le in H
  | H : (_ <=? _)%Z = false |- _ => apply Z.leb_gt in H
  | H : (_ =? _)%Z = true |- _ => apply Z.eqb_eq in H
  | H : (_ =? _)%Z = false |- _ => apply Z.eqb_neq in H
  | H : (_ && _)%bool = true |- _ => apply andb_true_iff in H; destruct H
  | H : (_ || _)%bool = false |- _ => apply orb_false_iff in H; destruct H
  | H : negb _ = true |- _ => apply negb_true_iff in H
  | H : negb _ = false |- _ => apply negb_false_iff in H
  | H : bool_decide _ = true |- _ => apply bool_decide_eq_true in H
  | H : bool_decide _ = false |- _ => apply bool_decide_eq_false in H
  end.

(** Split on the scrutinee of the next [match] or [if] of the goal. *)
Ltac split_match :=
  match goal with
  | |- context [match ?x with _ => _ end] =>
      lazymatch x with
      | context [match _ with _ => _ end] => fail
      | _ => destruct x eqn:?
      end
  end.

Ltac split_match_in H :=
  match type of H with
  | context [match ?x with _ => _ end] =>
      lazymatch x with
      | context [match _ with _ => _ end] => fail
      | _ => destruct x eqn:?
      end
  end.

(** ** Keys

    Rows with a primary key: the key determines the row. *)
Lemma NoDup_fmap_elem {A B : Type} (f : A → B) (l : list A) x y :
  NoDup (f <$> l) → x ∈ l → y ∈ l → f x = f y → x = y.
Proof.
  intros Hnd Hx Hy E. apply list_elem_of_lookup in Hx as [i Hi]. apply list_elem_of_lookup in Hy as [j Hj].
  assert (i = j) as ->; [| congruence].
  eapply NoDup_lookup; [exact Hnd | by rewrite list_lookup_fmap, Hi |]. rewrite list_lookup_fmap, Hj. cbn. by rewrite E.
Qed.

(** Taking out one element leaves the others. *)
Lemma elem_of_delete_other {A : Type} (l : list A) i x y :
  l !! i = Some x → y ∈ l → y ≠ x → y ∈ delete i l.
Proof.
  intros Hi Hy Hne. apply list_elem_of_lookup in Hy as [j Hj].
  assert (j ≠ i) by (intros ->; rewrite Hi in Hj; congruence).
  apply list_elem_of_lookup. destruct (decide (j < i)).
  - exists j. by rewrite list_lookup_delete_lt.
  - exists (pred j). rewrite list_lookup_delete_ge by lia. by replace (S (pred j)) with j by lia.
Qed.

(** ** Invariants of reachable states *)

Section Reachability.
Context {S : Type} (step : S → S → Prop).

(** An invariant of the initial state that every step preserves holds in
    every reachable state. *)
Lemma invariant_rtc (Inv : S → Prop) :
  (∀ s s', Inv s → step s s' → Inv s') →
  ∀ s s', rtc step s s' → Inv s → Inv s'.
Proof. intros Hstep s s' Hrtc. induction Hrtc; eauto. Qed.

End Reachability.

(** ** Loops with a binary bound

    [iterate n step s] runs the loop body [step] until it returns, at most
    [2 ^ n] times.  A loop whose measure starts below [2 ^ n] and goes down
    with every round returns, and its result satisfies what its invariant
    guarantees at the exit. *)
Section Iterate.
Context {S R : Type} (step : S → S + R).

Fixpoint iterate (n : nat) (s : S) : S + R :=
  match n with
  | O => step s
  | Datatypes.S n' =>
      match iterate n' s with
      | inl s' => iterate n' s'
      | inr r => inr r
      end
  end.

Context (Inv : S → Prop) (measure : S → Z) (Post : R → Prop).
Hypothesis Hstep : ∀ s, Inv s →
  match step s with
  | inl s' => Inv s' ∧ (measure s' < measure s)%Z ∧ (0 ≤ measure s)%Z
  | inr r => Post r
  end.

Lemma iterate_progress n s :
  Inv s →
  match iterate n s with
  | inl s' => Inv s' ∧ (measure s' ≤ measure s - 2 ^ Z.of_nat n)%Z
              ∧ (2 ^ Z.of_nat n ≤ measure s + 1)%Z
  | inr r => Post r
  end.
Proof using Hstep.
  revert s. induction n as [| n IH]; intros s Hs.
  - simpl. specialize (Hstep s Hs). destruct (step s); [| done]. naive_solver lia.
  - cbn [iterate]. pose proof (IH s Hs) as H. destruct (iterate n s) as [s1 | r]; [| done].
    destruct H as (Hs1 & Hm1 & Hm1'). pose proof (IH s1 Hs1) as H.
    destruct (iterate n s1) as [s2 | r]; [| done]. destruct H as (Hs2 & Hm2 & Hm2').
    rewrite Nat2Z.inj_succ, Z.pow_succ_r by lia. split; [done | lia].
Qed.

Lemma iterate_returns n s :
  Inv s → (measure s + 1 < 2 ^ Z.of_nat n)%Z → ∃ r, iterate n s = inr r ∧ Post r.
Proof using Hstep.
  intros Hs Hm. pose proof (iterate_progress n s Hs) as H.
  destruct (iterate n s) as [s' | r]; [lia | eauto].
Qed.

End Iterate.
