(* ===== verification/GoStrings.v ===== *)
(** * Go strings

    A Go string is a sequence of bytes; here it is a [string], whose
    characters are the 256 byte values.  This file models what the sources
    use of Go's [strings] and [strconv] packages.  The only part left open is
    the case mapping of non-ASCII text, which in Go is a table of the Unicode
    database: it is the interface [UnicodeCase], and every function that needs
    it takes an instance. *)

From S2P Require Import Prelude.
From Stdlib Require Import ZArith Lia Ascii String.
From stdpp Require Import base tactics list gmap sorting strings.

#[global] Arguments String.append !_ _ : simpl nomatch.

Fixpoint str_len (s : string) : nat :=
  match s with
  | EmptyString => 0
  | String _ s' => S (str_len s')
  end.

(** [s[:n]] and [s[n:]] for [n <= len(s)]. *)
Fixpoint str_take (n : nat) (s : string) : string :=
  match n, s with
  | S n', String a s' => String a (str_take n' s')
  | _, _ => EmptyString
  end.

Fixpoint str_drop (n : nat) (s : string) : string :=
  match n, s with
  | S n', String _ s' => str_drop n' s'
  | _, _ => s
  end.

Definition str_single (a : ascii) : string := String a EmptyString.

Fixpoint str_rev (s : string) : string :=
  match s with
  | EmptyString => EmptyString
  | String a s' => str_rev s' +:+ str_single a
  end.

Definition str_of_bytes (l : list N) : string :=
  foldr (λ n s, String (ascii_of_N n) s) EmptyString l.

(** [strings.HasPrefix] and [strings.HasSuffix]. *)
Fixpoint HasPrefix (s p : string) {struct p} : bool :=
  match p, s with
  | EmptyString, _ => true
  | String a p', String b s' => Ascii.eqb a b && HasPrefix s' p'
  | String _ _, EmptyString => false
  end.

Fixpoint HasSuffix (s suf : string) : bool :=
  String.eqb s suf ||
  match s with
  | EmptyString => false
  | String _ s' => HasSuffix s' suf
  end.

(** [strings.Contains]. *)
Fixpoint Contains (s sub : string) : bool :=
  HasPrefix s sub ||
  match s with
  | EmptyString => false
  | String _ s' => Contains s' sub
  end.

(** [strings.Count(s, sep)] for a one-byte separator. *)
Fixpoint count_byte (a : ascii) (s : string) : nat :=
  match s with
  | EmptyString => 0
  | String c s' => (if Ascii.eqb c a then 1 else 0) + count_byte a s'
  end.

(** A byte occurs in the string; [strings.ContainsAny] with an ASCII set. *)
Fixpoint str_mem (a : ascii) (s : string) : bool :=
  match s with
  | EmptyString => false
  | String b s' => Ascii.eqb a b || str_mem a s'
  end.

Fixpoint ContainsAny (s chars : string) : bool :=
  match s with
  | EmptyString => false
  | String a s' => str_mem a chars || ContainsAny s' chars
  end.

(** [strings.IndexByte] ([None] is Go's [-1]). *)
Fixpoint IndexByte (s : string) (c : ascii) : option nat :=
  match s with
  | EmptyString => None
  | String a s' => if Ascii.eqb a c then Some 0 else S <$> IndexByte s' c
  end.

(** [strings.Split(s, sep)] for a one-byte separator: never empty. *)
Fixpoint Split (s : string) (sep : ascii) : list string :=
  match s with
  | EmptyString => [EmptyString]
  | String a s' =>
      if Ascii.eqb a sep then EmptyString :: Split s' sep
      else match Split s' sep with
           | w :: ws => String a w :: ws
           | [] => [str_single a]
           end
  end.

(** [strings.SplitN(s, sep, 2)] when the separator occurs. *)
Definition SplitN2 (s : string) (sep : ascii) : option (string * string) :=
  match IndexByte s sep with
  | Some i => Some (str_take i s, str_drop (S i) s)
  | None => None
  end.

(** [strings.Join]. *)
Fixpoint Join (l : list string) (sep : string) : string :=
  match l with
  | [] => EmptyString
  | [w] => w
  | w :: ws => w +:+ sep +:+ Join ws sep
  end.

(** [strings.FieldsFunc] for a predicate on ASCII characters: maximal runs of
    bytes that do not satisfy it. *)
Fixpoint fields_by (sep : ascii → bool) (cur : string) (s : string) : list string :=
  match s with
  | EmptyString => if String.eqb cur EmptyString then [] else [cur]
  | String a s' =>
      if sep a
      then (if String.eqb cur EmptyString then fields_by sep EmptyString s'
            else cur :: fields_by sep EmptyString s')
      else fields_by sep (cur +:+ str_single a) s'
  end.

Definition FieldsFunc (sep : ascii → bool) (s : string) : list string :=
  fields_by sep EmptyString s.

(** ** White space

    [unicode.IsSpace], as the UTF-8 encodings of the 25 code points it holds
    of.  UTF-8 is self-synchronising, so a space is recognised at a byte
    position, from the left or from the right, exactly when one of these
    encodings stands there. *)
Definition space_encodings : list string :=
  str_of_bytes <$>
    [ [9]; [10]; [11]; [12]; [13]; [32]; [194; 133]; [194; 160]; [225; 154; 128];
      [226; 128; 128]; [226; 128; 129]; [226; 128; 130]; [226; 128; 131]; [226; 128; 132];
      [226; 128; 133]; [226; 128; 134]; [226; 128; 135]; [226; 128; 136]; [226; 128; 137];
      [226; 128; 138]; [226; 128; 168]; [226; 128; 169]; [226; 128; 175]; [226; 129; 159];
      [227; 128; 128] ]%N.

(** Remove one encoding of the list from the front of the string. *)
Fixpoint strip_one (encs : list string) (s : string) : option string :=
  match encs with
  | [] => None
  | e :: encs' => if HasPrefix s e then Some (str_drop (str_len e) s) else strip_one encs' s
  end.

Fixpoint strip_all (encs : list string) (fuel : nat) (s : string) : string :=
  match fuel with
  | O => s
  | S fuel' => match strip_one encs s with
               | Some s' => strip_all encs fuel' s'
               | None => s
               end
  end.

Definition TrimLeftSpace (s : string) : string := strip_all space_encodings (str_len s) s.
Definition TrimRightSpace (s : string) : string :=
  str_rev (strip_all (str_rev <$> space_encodings) (str_len s) (str_rev s)).

(** [strings.TrimSpace]. *)
Definition TrimSpace (s : string) : string := TrimRightSpace (TrimLeftSpace s).

(** [strings.Fields]: maximal runs between white space. *)
Fixpoint fields_go (fuel : nat) (cur s : string) : list string :=
  match fuel with
  | O => []
  | S fuel' =>
      match strip_one space_encodings s with
      | Some s' =>
          if String.eqb cur EmptyString then fields_go fuel' EmptyString s'
          else cur :: fields_go fuel' EmptyString s'
      | None =>
          match s with
          | EmptyString => if String.eqb cur EmptyString then [] else [cur]
          | String a s' => fields_go fuel' (cur +:+ str_single a) s'
          end
      end
  end.

Definition Fields (s : string) : list string := fields_go (S (str_len s)) EmptyString s.

(** ** Case *)

Definition is_ascii_byte (a : ascii) : bool := (N_of_ascii a <? 128)%N.

Fixpoint is_ascii (s : string) : bool :=
  match s with
  | EmptyString => true
  | String a s' => is_ascii_byte a && is_ascii s'
  end.

Definition lower_byte (a : ascii) : ascii :=
  let n := N_of_ascii a in
  if (65 <=? n)%N && (n <=? 90)%N then ascii_of_N (n + 32) else a.

Definition upper_byte (a : ascii) : ascii :=
  let n := N_of_ascii a in
  if (97 <=? n)%N && (n <=? 122)%N then ascii_of_N (n - 32) else a.

Fixpoint str_map (f : ascii → ascii) (s : string) : string :=
  match s with
  | EmptyString => EmptyString
  | String a s' => String (f a) (str_map f s')
  end.

(** The case mapping of strings that hold a non-ASCII byte. *)
Class UnicodeCase := {
  unicode_ToLower : string → string;
  unicode_ToUpper : string → string
}.

(** [strings.ToLower] and [strings.ToUpper], with their ASCII fast path. *)
Definition ToLower `{UnicodeCase} (s : string) : string :=
  if is_ascii s then str_map lower_byte s else unicode_ToLower s.

Definition ToUpper `{UnicodeCase} (s : string) : string :=
  if is_ascii s then str_map upper_byte s else unicode_ToUpper s.

(** The instance for programs that only meet ASCII text. *)
#[export] Instance ascii_case : UnicodeCase :=
  {| unicode_ToLower := str_map lower_byte; unicode_ToUpper := str_map upper_byte |}.

(** [strings.EqualFold(s, t)] for an ASCII [t] without the letters k and s,
    the only ones with a non-ASCII fold. *)
Definition EqualFoldAscii (s t : string) : bool :=
  String.eqb (str_map lower_byte s) (str_map lower_byte t).

(** ** Numbers *)

Definition digit_value (a : ascii) : option Z :=
  let n := N_of_ascii a in
  if (48 <=? n)%N && (n <=? 57)%N then Some (Z.of_N n - 48)%Z else None.

Fixpoint digits_value (acc : Z) (s : string) : option Z :=
  match s with
  | EmptyString => Some acc
  | String a s' =>
      match digit_value a with
      | Some d => digits_value (acc * 10 + d)%Z s'
      | None => None
      end
  end.

Definition unsigned_value (s : string) : option Z :=
  match s with
  | EmptyString => None
  | String _ _ => digits_value 0 s
  end.

(** [strconv.Atoi]: an optional sign, then decimal digits, in the range of a
    64-bit [int]. *)
Definition Atoi (s : string) : option Z :=
  let r := match s with
           | String "+" s' => unsigned_value s'
           | String "-" s' => Z.opp <$> unsigned_value s'
           | _ => unsigned_value s
           end in
  match r with
  | Some z => if (minInt64 <=? z)%Z && (z <=? maxInt64)%Z then Some z else None
  | None => None
  end.

(** [sort.Strings]. *)
Definition SortStrings (l : list string) : list string := merge_sort String.le l.

(** ** Lemmas *)

Lemma str_app_nil_r s : s +:+ "" = s.
Proof. induction s as [| a s IH]; simpl; [done |]. by rewrite IH. Qed.

Lemma str_app_assoc s t u : s +:+ t +:+ u = (s +:+ t) +:+ u.
Proof. induction s as [| a s IH]; simpl; [done |]. by rewrite IH. Qed.

Lemma str_len_app s t : str_len (s +:+ t) = str_len s + str_len t.
Proof. induction s as [| a s IH]; simpl; [done |]. by rewrite IH. Qed.

Lemma str_take_app s t : str_take (str_len s) (s +:+ t) = s.
Proof. induction s as [| a s IH]; simpl; [by destruct t | by rewrite IH]. Qed.

Lemma str_drop_app s t : str_drop (str_len s) (s +:+ t) = t.
Proof. induction s as [| a s IH]; simpl; [by destruct t | done]. Qed.

Lemma str_take_drop n s : str_take n s +:+ str_drop n s = s.
Proof.
  revert s. induction n as [| n IH]; intros [| a s]; simpl; try done.
  by rewrite IH.
Qed.

Lemma str_len_drop n s : str_len (str_drop n s) = str_len s - n.
Proof. revert s. induction n as [| n IH]; intros [| a s]; simpl; auto. Qed.

Lemma str_len_take n s : str_len (str_take n s) = n `min` str_len s.
Proof. revert s. induction n as [| n IH]; intros [| a s]; simpl; auto. Qed.

Lemma HasPrefix_spec s p : HasPrefix s p = true ↔ ∃ r, s = p +:+ r.
Proof.
  revert s. induction p as [| a p IH]; intros s; simpl.
  { split; [intros _; by exists s | done]. }
  destruct s as [| b s].
  { split; [done | by intros [r Hr]]. }
  rewrite andb_true_iff, Ascii.eqb_eq, IH. split.
  - intros [-> [r ->]]. by exists r.
  - intros [r Hr]. simplify_eq/=. eauto.
Qed.

Lemma HasSuffix_spec s suf : HasSuffix s suf = true ↔ ∃ r, s = r +:+ suf.
Proof.
  induction s as [| a s IH]; cbn [HasSuffix]; rewrite orb_true_iff, String.eqb_eq.
  - split; [intros [<- | ?]; [by exists "" | done] |].
    intros [[|] Hr]; simpl in Hr; [by left | done].
  - rewrite IH. split.
    + intros [<- | [r ->]]; [by exists "" | by exists (String a r)].
    + intros [[| b r] Hr]; simpl in Hr; [by left |].
      right. simplify_eq. by exists r.
Qed.

Lemma Contains_spec s sub : Contains s sub = true ↔ ∃ a b, s = a +:+ sub +:+ b.
Proof.
  induction s as [| c s IH].
  - change (Contains "" sub) with (HasPrefix "" sub || false).
    rewrite orb_false_r, HasPrefix_spec. split.
    + intros [r Hr]. by exists "", r.
    + intros ([|] & b & Hr); simpl in Hr; [by exists b | done].
  - change (Contains (String c s) sub) with (HasPrefix (String c s) sub || Contains s sub).
    rewrite orb_true_iff, HasPrefix_spec, IH. split.
    + intros [[r Hr] | (a & b & ->)]; [by exists "", r | by exists (String c a), b].
    + intros ([| d a] & b & Hr); simpl in Hr; [left; by exists b |].
      right. simplify_eq. by exists a, b.
Qed.

Lemma str_mem_app a s t : str_mem a (s +:+ t) = str_mem a s || str_mem a t.
Proof. induction s as [| b s IH]; simpl; [done |]. by rewrite IH, orb_assoc. Qed.

Lemma Contains_single s a : Contains s (str_single a) = str_mem a s.
Proof.
  induction s as [| b s IH]; [done |].
  change (Contains (String b s) (str_single a))
    with ((Ascii.eqb a b && HasPrefix s "") || Contains s (str_single a)).
  rewrite IH. simpl. destruct s; by rewrite andb_true_r.
Qed.

Lemma IndexByte_Some s c i :
  IndexByte s c = Some i →
  ∃ t u, s = t +:+ String c u ∧ str_len t = i ∧ str_mem c t = false.
Proof.
  revert i. induction s as [| a s IH]; intros i; simpl; [done |].
  destruct (Ascii.eqb_spec a c) as [-> | Hne].
  - intros [= <-]. by exists "", s.
  - destruct (IndexByte s c) as [j |]; simpl; [| done]. intros [= <-].
    destruct (IH j eq_refl) as (t & u & -> & <- & Ht).
    exists (String a t), u. simpl. rewrite Ht.
    assert (Ascii.eqb c a = false) as -> by (apply Ascii.eqb_neq; congruence). done.
Qed.

Lemma IndexByte_None s c : IndexByte s c = None ↔ str_mem c s = false.
Proof.
  induction s as [| a s IH]; simpl; [done |].
  destruct (Ascii.eqb_spec a c) as [-> | Hne].
  - rewrite Ascii.eqb_refl. done.
  - assert (Ascii.eqb c a = false) as -> by (apply Ascii.eqb_neq; congruence).
    simpl. rewrite <- IH. destruct (IndexByte s c); simpl; naive_solver.
Qed.

Lemma Split_nonempty s sep : Split s sep ≠ [].
Proof.
  destruct s as [| a s]; simpl; [done |].
  destruct (Ascii.eqb a sep); [done |]. by destruct (Split s sep).
Qed.

Lemma Split_nosep s sep : str_mem sep s = false → Split s sep = [s].
Proof.
  induction s as [| a s IH]; simpl; [done |].
  intros [H1 H2]%orb_false_iff.
  assert (Ascii.eqb a sep = false) as ->.
  { apply Ascii.eqb_neq. apply Ascii.eqb_neq in H1. congruence. }
  by rewrite IH.
Qed.

Lemma Split_app w s sep :
  str_mem sep w = false → Split (w +:+ String sep s) sep = w :: Split s sep.
Proof.
  induction w as [| a w IH]; simpl; intros Hw.
  - by rewrite Ascii.eqb_refl.
  - apply orb_false_iff in Hw as [H1 H2].
    assert (Ascii.eqb a sep = false) as ->.
    { apply Ascii.eqb_neq. apply Ascii.eqb_neq in H1. congruence. }
    by rewrite IH.
Qed.

(** Splitting what was joined gives the parts back. *)
Lemma Split_Join l sep :
  l ≠ [] → Forall (λ w, str_mem sep w = false) l →
  Split (Join l (str_single sep)) sep = l.
Proof.
  intros Hne Hl. induction Hl as [| w ws Hw Hws IH]; [done |].
  destruct ws as [| w' ws]; [by apply Split_nosep |].
  change (Join (w :: w' :: ws) (str_single sep))
    with (w +:+ str_single sep +:+ Join (w' :: ws) (str_single sep)).
  simpl str_single. unfold str_single at 1. simpl.
  rewrite Split_app by done. f_equal. by apply IH.
Qed.

Lemma is_ascii_app s t : is_ascii (s +:+ t) = is_ascii s && is_ascii t.
Proof. induction s as [| a s IH]; simpl; [done |]. by rewrite IH, andb_assoc. Qed.

Lemma ToLower_ascii `{UnicodeCase} s : is_ascii s = true → ToLower s = str_map lower_byte s.
Proof. unfold ToLower. by intros ->. Qed.

Lemma lower_byte_ascii a : is_ascii_byte a = true → is_ascii_byte (lower_byte a) = true.
Proof. destruct a as [[] [] [] [] [] [] [] []]; done. Qed.

Lemma lower_byte_idemp a : lower_byte (lower_byte a) = lower_byte a.
Proof. destruct a as [[] [] [] [] [] [] [] []]; done. Qed.

Lemma lower_is_ascii s : is_ascii s = true → is_ascii (str_map lower_byte s) = true.
Proof.
  induction s as [| a s IH]; simpl; [done |]. intros [Ha Hs]%andb_true_iff.
  by rewrite lower_byte_ascii, IH.
Qed.

Lemma lower_idemp s : str_map lower_byte (str_map lower_byte s) = str_map lower_byte s.
Proof. induction s as [| a s IH]; simpl; [done |]. by rewrite lower_byte_idemp, IH. Qed.

Lemma ToLower_idemp `{UnicodeCase} s :
  is_ascii s = true → ToLower (ToLower s) = ToLower s.
Proof.
  intros Hs. rewrite !ToLower_ascii; rewrite ?ToLower_ascii by done;
    auto using lower_is_ascii. apply lower_idemp.
Qed.

(** ** Trimming *)

Lemma str_rev_mem a s : str_mem a (str_rev s) = str_mem a s.
Proof.
  induction s as [| b s IH]; simpl; [done |].
  rewrite str_mem_app, IH. simpl. by rewrite orb_false_r, orb_comm.
Qed.

(** A byte that no space encoding holds survives trimming. *)
Lemma strip_one_mem encs a s s' :
  Forall (λ e, str_mem a e = false) encs → strip_one encs s = Some s' → str_mem a s' = str_mem a s.
Proof.
  induction 1 as [| e encs He _ IH]; simpl; [done |].
  destruct (HasPrefix s e) eqn:Hp; [| done]. intros [= <-].
  apply HasPrefix_spec in Hp as [r ->]. by rewrite str_drop_app, str_mem_app, He.
Qed.

Lemma strip_all_mem encs a n s :
  Forall (λ e, str_mem a e = false) encs → str_mem a (strip_all encs n s) = str_mem a s.
Proof.
  intros He. revert s. induction n as [| n IH]; intros s; [done |]. cbn [strip_all].
  destruct (strip_one encs s) as [s' |] eqn:Hs; [| done].
  rewrite IH. by eapply strip_one_mem.
Qed.

Lemma TrimSpace_mem a s :
  Forall (λ e, str_mem a e = false) space_encodings → str_mem a (TrimSpace s) = str_mem a s.
Proof.
  intros Ha. unfold TrimSpace, TrimRightSpace, TrimLeftSpace.
  rewrite str_rev_mem, strip_all_mem, str_rev_mem, strip_all_mem; [done | done |].
  apply Forall_fmap. eapply Forall_impl; [exact Ha |]. intros e He. simpl. by rewrite str_rev_mem.
Qed.

Lemma str_rev_app s t : str_rev (s +:+ t) = str_rev t +:+ str_rev s.
Proof.
  induction s as [| a s IH]; simpl; [by rewrite str_app_nil_r |].
  by rewrite IH, str_app_assoc.
Qed.

Lemma str_rev_involutive s : str_rev (str_rev s) = s.
Proof. induction s as [| a s IH]; simpl; [done |]. by rewrite str_rev_app, IH. Qed.

Lemma str_len_rev s : str_len (str_rev s) = str_len s.
Proof. induction s as [| a s IH]; simpl; [done |]. rewrite str_len_app, IH. simpl. lia. Qed.

(** Stripping stops at a string with nothing to strip. *)
Lemma strip_one_prefix encs s t :
  strip_one encs (s +:+ t) = None → strip_one encs s = None.
Proof.
  induction encs as [| e encs IH]; simpl; [done |].
  destruct (HasPrefix s e) eqn:He.
  - apply HasPrefix_spec in He as [r ->].
    assert (HasPrefix ((e +:+ r) +:+ t) e = true) as ->; [| done].
    apply HasPrefix_spec. exists (r +:+ t). by rewrite str_app_assoc.
  - destruct (HasPrefix (s +:+ t) e); [done | auto].
Qed.

Lemma strip_one_Some encs s s' :
  Forall (λ e, e ≠ EmptyString) encs → strip_one encs s = Some s' →
  ∃ p, s = p +:+ s' ∧ str_len s' < str_len s.
Proof.
  induction 1 as [| e encs He _ IH]; simpl; [done |].
  destruct (HasPrefix s e) eqn:Hp; [| done]. intros [= <-].
  apply HasPrefix_spec in Hp as [r ->]. exists e. rewrite str_drop_app. split; [done |].
  rewrite str_len_app. destruct e; [done |]. simpl. lia.
Qed.

Lemma strip_all_spec encs n s :
  Forall (λ e, e ≠ EmptyString) encs → str_len s ≤ n →
  strip_one encs (strip_all encs n s) = None ∧ ∃ p, s = p +:+ strip_all encs n s.
Proof.
  intros He. revert s. induction n as [| n IH]; intros s Hn.
  - destruct s; [| simpl in Hn; lia]. simpl. split; [| by exists EmptyString].
    clear Hn. induction He as [| e encs He _ IHe]; simpl; [done |]. by destruct e.
  - cbn [strip_all]. destruct (strip_one encs s) as [s' |] eqn:Hs; [| split; [done | by exists EmptyString]].
    apply strip_one_Some in Hs as (p & -> & Hlt); [| done].
    destruct (IH s') as [H1 [q Hq]]; [lia |]. split; [done |].
    exists (p +:+ q). rewrite Hq at 1. by rewrite str_app_assoc.
Qed.

Lemma strip_all_None encs n s : strip_one encs s = None → strip_all encs n s = s.
Proof. intros Hs. destruct n; [done |]. cbn [strip_all]. by rewrite Hs. Qed.

Lemma space_encodings_nonempty : Forall (λ e, e ≠ EmptyString) space_encodings.
Proof. repeat constructor; done. Qed.

Lemma space_encodings_rev_nonempty : Forall (λ e, e ≠ EmptyString) (str_rev <$> space_encodings).
Proof. repeat constructor; done. Qed.

Lemma TrimSpace_idemp s : TrimSpace (TrimSpace s) = TrimSpace s.
Proof.
  unfold TrimSpace at 2 3. set (l := TrimLeftSpace s).
  assert (strip_one space_encodings l = None) as Hl
    by (apply strip_all_spec; [apply space_encodings_nonempty | done]).
  set (q := strip_all (str_rev <$> space_encodings) (str_len l) (str_rev l)).
  destruct (strip_all_spec (str_rev <$> space_encodings) (str_len l) (str_rev l)) as [Hq [p Hp]];
    [apply space_encodings_rev_nonempty | by rewrite str_len_rev |].
  fold q in Hq, Hp. change (TrimRightSpace l) with (str_rev q).
  assert (l = str_rev q +:+ str_rev p) as Hlq.
  { rewrite <- str_rev_app, <- Hp. by rewrite str_rev_involutive. }
  unfold TrimSpace. assert (TrimLeftSpace (str_rev q) = str_rev q) as ->.
  { apply strip_all_None. rewrite Hlq in Hl. by eapply strip_one_prefix. }
  unfold TrimRightSpace. rewrite str_rev_involutive. by rewrite strip_all_None.
Qed.

(** A string without a byte of any white space is its own trimming. *)
Fixpoint plain_text (s : string) : bool :=
  match s with
  | EmptyString => true
  | String a s' => forallb (λ e, negb (str_mem a e)) space_encodings && plain_text s'
  end.

Lemma plain_text_app s t : plain_text (s +:+ t) = plain_text s && plain_text t.
Proof. induction s as [| a s IH]; cbn [plain_text String.append]; [done |]. by rewrite IH, andb_assoc. Qed.

Lemma plain_text_rev s : plain_text (str_rev s) = plain_text s.
Proof.
  induction s as [| a s IH]; [done |]. cbn [str_rev]. rewrite plain_text_app, IH.
  cbn [plain_text]. unfold str_single. cbn [plain_text]. by rewrite andb_true_r, andb_comm.
Qed.

Lemma strip_one_plain encs a s :
  Forall (λ e, e ≠ EmptyString ∧ str_mem a e = false) encs → strip_one encs (String a s) = None.
Proof.
  induction 1 as [| e encs [Hne Ha] _ IH]; simpl; [done |].
  destruct e as [| b e]; [done |]. simpl in Ha |- *. apply orb_false_iff in Ha as [Hab _].
  destruct (Ascii.eqb_spec a b) as [| Hn]; [done |]. apply not_eq_sym, Ascii.eqb_neq in Hn. rewrite Hn. exact IH.
Qed.

Lemma TrimSpace_plain s : plain_text s = true → TrimSpace s = s.
Proof.
  intros Hs. assert (∀ encs u, plain_text u = true →
    (∀ a, forallb (λ e, negb (str_mem a e)) space_encodings = true →
          Forall (λ e, e ≠ EmptyString ∧ str_mem a e = false) encs) →
    strip_all encs (str_len u) u = u) as Hstrip.
  { intros encs u Hu Henc. destruct u as [| a u]; [done |]. apply strip_all_None.
    apply strip_one_plain, Henc. cbn [plain_text] in Hu. by apply andb_true_iff in Hu as [Hu _]. }
  assert (∀ a, forallb (λ e, negb (str_mem a e)) space_encodings = true →
    Forall (λ e, str_mem a e = false) space_encodings) as Hmem.
  { intros a Ha. apply Is_true_true_2, forallb_True in Ha. eapply Forall_impl; [exact Ha |].
    intros e He. cbn beta in *. destruct (str_mem a e); [by destruct He | done]. }
  unfold TrimSpace. assert (TrimLeftSpace s = s) as ->.
  { apply Hstrip; [done |]. intros a Ha. apply Forall_and. split; [apply space_encodings_nonempty | auto]. }
  unfold TrimRightSpace. rewrite <- (str_len_rev s) at 1. rewrite Hstrip, str_rev_involutive; [done | by rewrite plain_text_rev |].
  intros a Ha. apply Forall_and. split; [apply space_encodings_rev_nonempty |].
  apply Forall_fmap. eapply Forall_impl; [exact (Hmem a Ha) |]. intros e He. simpl. by rewrite str_rev_mem.
Qed.

Lemma Join_mem a w l sep : w ∈ l → str_mem a w = true → str_mem a (Join l sep) = true.
Proof.
  intros Hw Ha. induction l as [| x l IH]; [by apply not_elem_of_nil in Hw |].
  destruct l as [| y l].
  - apply list_elem_of_singleton in Hw as ->. done.
  - change (Join (x :: y :: l) sep) with (x +:+ sep +:+ Join (y :: l) sep).
    rewrite !str_mem_app. apply elem_of_cons in Hw as [-> | Hw]; [by rewrite Ha |].
    rewrite IH by done. by rewrite !orb_true_r.
Qed.

(** ** UTF-8

    [utf8.ValidString]: the well-formed byte sequences of RFC 3629. *)
Definition byte_in (lo hi : N) (a : ascii) : bool := ((lo <=? N_of_ascii a) && (N_of_ascii a <=? hi))%N.
Definition cont_byte : ascii → bool := byte_in 128 191.

Fixpoint utf8_valid (s : string) : bool :=
  match s with
  | EmptyString => true
  | String a s1 =>
      if is_ascii_byte a then utf8_valid s1
      else match s1 with
      | EmptyString => false
      | String b s2 =>
          if byte_in 194 223 a then cont_byte b && utf8_valid s2
          else match s2 with
          | EmptyString => false
          | String c s3 =>
              if byte_in 224 239 a
              then byte_in (if Ascii.eqb a "224" then 160 else 128) (if Ascii.eqb a "237" then 159 else 191) b
                   && cont_byte c && utf8_valid s3
              else match s3 with
              | EmptyString => false
              | String d s4 =>
                  byte_in 240 244 a
                  && byte_in (if Ascii.eqb a "240" then 144 else 128) (if Ascii.eqb a "244" then 143 else 191) b
                  && cont_byte c && cont_byte d && utf8_valid s4
              end
          end
      end
  end.

Example utf8_examples :
  utf8_valid (str_of_bytes [104; 195; 169; 226; 130; 172; 240; 159; 152; 128]%N) = true ∧
  utf8_valid (str_of_bytes [237; 160; 128]%N) = false ∧ utf8_valid (str_of_bytes [192; 128]%N) = false ∧
  utf8_valid (str_of_bytes [244; 144; 128; 128]%N) = false.
Proof. vm_compute. done. Qed.

(** A map of texts, as a JSON object holds it. *)
Definition utf8_map (m : gmap string string) : Prop :=
  map_Forall (λ k v, utf8_valid k = true ∧ utf8_valid v = true) m.

#[export] Instance utf8_map_dec m : Decision (utf8_map m).
Proof. unfold utf8_map. apply _. Defined.

Lemma ascii_utf8 s : is_ascii s = true → utf8_valid s = true.
Proof.
  induction s as [| a s IH]; [done |]. cbn [is_ascii utf8_valid]. intros [Ha Hs]%andb_true_iff. rewrite Ha. by apply IH.
Qed.

(** ** Hexadecimal text: [hex.EncodeToString] *)
Definition hex_char (n : N) : ascii := ascii_of_N (if (n <? 10)%N then n + 48 else n + 87).

Fixpoint hex_encode (s : string) : string :=
  match s with
  | EmptyString => EmptyString
  | String a s' => String (hex_char (N_of_ascii a / 16)) (String (hex_char (N_of_ascii a mod 16)) (hex_encode s'))
  end.

Lemma hex_chars a :
  let hi := hex_char (N_of_ascii a / 16) in let lo := hex_char (N_of_ascii a mod 16) in
  (is_ascii_byte hi && is_ascii_byte lo && negb (Ascii.eqb hi "_") && negb (Ascii.eqb lo "_"))%bool = true.
Proof. destruct a as [[] [] [] [] [] [] [] []]; vm_compute; reflexivity. Qed.

Lemma hex_encode_ascii s : is_ascii (hex_encode s) = true.
Proof.
  induction s as [| a s IH]; [done |]. pose proof (hex_chars a) as H. cbv zeta in H.
  repeat (apply andb_true_iff in H as [H ?]). cbn [hex_encode is_ascii]. by rewrite IH, H, H2.
Qed.

Lemma hex_encode_no_underscore s t : hex_encode s ≠ ("ed_" +:+ t)%string.
Proof.
  destruct s as [| a [| b s]]; [done | done |]. cbn [hex_encode]. pose proof (hex_chars b) as H. cbv zeta in H.
  repeat (apply andb_true_iff in H as [H ?]). intros [= _ _ E _]. rewrite E in *. done.
Qed.

#[export] Hint Resolve Split_nonempty lower_is_ascii : orama.
