(* ===== verification/GoSort.v ===== *)
(** * Sorting with a comparison function

    Go's [sort.Slice] and what it returns when the comparison is that of
    integer keys: the place of an element is the number of smaller keys. *)

From Stdlib Require Import ZArith Lia.
From stdpp Require Import base tactics numbers list sets sorting.
From S2P Require Import Prelude.

(** [sort.Slice]: an insertion sort, which is what it is up to twelve
    elements.  [rev_prefix] is the sorted part, the last element first.  For
    longer lists only the order of equal elements can differ. *)
Fixpoint insert_left {A} (less : A → A → bool) (x : A) (rev_prefix : list A) : list A :=
  match rev_prefix with
  | [] => [x]
  | y :: l => if less x y then y :: insert_left less x l else x :: y :: l
  end.

Definition sort_Slice {A} (less : A → A → bool) (l : list A) : list A :=
  reverse (foldl (λ acc x, insert_left less x acc) [] l).

Section Sorting.
Context {A : Type} (less : A → A → bool) (v : A → Z).

(** [less] compares the keys [v] of the elements of [l]. *)
Definition by_key (l : list A) : Prop := ∀ a b, a ∈ l → b ∈ l → less a b = (v a <? v b)%Z.

Lemma insert_left_perm x l : insert_left less x l ≡ₚ x :: l.
Proof. induction l as [| y l IH]; cbn; [done |]. destruct (less x y); [rewrite IH; constructor | done]. Qed.

Lemma insert_left_sorted x l :
  by_key (x :: l) → v x ∉ v <$> l → StronglySorted (λ a b, (v b < v a)%Z) l →
  StronglySorted (λ a b, (v b < v a)%Z) (insert_left less x l).
Proof.
  induction l as [| y l IH]; intros Hk Hn Hs; cbn [insert_left]; [by repeat constructor |].
  apply StronglySorted_cons in Hs as [Hy Hs]. rewrite fmap_cons, not_elem_of_cons in Hn. destruct Hn as [Hne Hn].
  rewrite Hk by set_solver. destruct (Z.ltb_spec (v x) (v y)) as [Hlt | Hge].
  - constructor; [apply IH; [| done | done] |].
    + intros a b Ha Hb. apply Hk; set_solver.
    + rewrite insert_left_perm. by constructor.
  - constructor; [by constructor |]. constructor; [lia |]. eapply Forall_impl; [exact Hy |]. cbn. lia.
Qed.

Lemma sort_Slice_perm l : sort_Slice less l ≡ₚ l.
Proof.
  unfold sort_Slice. rewrite reverse_Permutation.
  assert (∀ acc, foldl (λ acc x, insert_left less x acc) acc l ≡ₚ l ++ acc) as H; [| by rewrite H, app_nil_r].
  induction l as [| x l IH]; intros acc; cbn; [done |]. rewrite IH, insert_left_perm.
  symmetry. apply Permutation_middle.
Qed.

Lemma sort_Slice_sorted l :
  by_key l → NoDup (v <$> l) → StronglySorted (λ a b, (v b < v a)%Z) (reverse (sort_Slice less l)).
Proof.
  intros Hk Hnd. unfold sort_Slice. rewrite reverse_involutive.
  assert (∀ acc, by_key (l ++ acc) → NoDup (v <$> l ++ acc) → StronglySorted (λ a b, (v b < v a)%Z) acc →
    StronglySorted (λ a b, (v b < v a)%Z) (foldl (λ acc x, insert_left less x acc) acc l)) as H.
  { clear Hk Hnd. induction l as [| x l IH]; intros acc Hk Hnd Hs; cbn [foldl]; [done |].
    assert (l ++ insert_left less x acc ≡ₚ (x :: l) ++ acc) as Hp
      by (rewrite insert_left_perm; symmetry; apply Permutation_middle).
    apply IH.
    - intros a b Ha Hb. rewrite Hp in Ha, Hb. by apply Hk.
    - by rewrite Hp.
    - apply insert_left_sorted; [intros a b Ha Hb; apply Hk; set_solver | | done].
      cbn in Hnd. apply NoDup_cons in Hnd as [Hx _]. rewrite fmap_app in Hx. set_solver. }
  apply H; [by rewrite app_nil_r | by rewrite app_nil_r | constructor].
Qed.

(** The place of an element is the number of smaller ones. *)
Lemma sorted_rank (s : list A) i a :
  StronglySorted (λ a b, (v b < v a)%Z) (reverse s) → s !! i = Some a →
  length (filter (λ b, (v b < v a)%Z) s) = i.
Proof.
  revert i. induction s as [| x s IH] using rev_ind; intros i Hs Ha; [done |].
  rewrite reverse_snoc in Hs. apply StronglySorted_cons in Hs as [Hx Hs].
  rewrite list.filter_app, length_app, filter_cons, filter_nil.
  apply lookup_app_Some in Ha as [Ha | [Hge Ha]].
  - assert (v a < v x)%Z as Hlt.
    { rewrite Forall_forall in Hx. apply Hx, elem_of_reverse. by eapply list_elem_of_lookup_2. }
    rewrite decide_False by lia. rewrite (IH _ Hs Ha). cbn. lia.
  - apply list_lookup_singleton_Some in Ha as [Hi <-]. rewrite decide_False by lia. cbn. rewrite Nat.add_0_r.
    assert (length s = i) as <- by lia. clear Hi Hge IH. f_equal.
    assert (∀ b, b ∈ s → (v b < v x)%Z) as Hall
      by (intros b Hb; rewrite Forall_forall in Hx; by apply Hx, elem_of_reverse).
    clear Hx Hs. induction s as [| y s IH]; [done |]. rewrite filter_cons, decide_True by (apply Hall; left).
    f_equal. apply IH. intros b Hb. apply Hall. by right.
Qed.

Lemma sort_Slice_rank l k a :
  by_key l → NoDup (v <$> l) →
  a ∈ take k (sort_Slice less l) ↔ a ∈ l ∧ length (filter (λ b, (v b < v a)%Z) l) < k.
Proof.
  intros Hk Hnd. pose proof (sort_Slice_sorted l Hk Hnd) as Hs. set (s := sort_Slice less l) in *.
  assert (s ≡ₚ l) as Hp by apply sort_Slice_perm.
  assert (length (filter (λ b, (v b < v a)%Z) l) = length (filter (λ b, (v b < v a)%Z) s)) as ->
    by (by rewrite Hp).
  rewrite <- Hp. rewrite !list_elem_of_lookup. split.
  - intros [i Hi]. apply lookup_take_Some in Hi as [Hi Hlt]. split; [by exists i |]. by rewrite (sorted_rank s i a Hs Hi).
  - intros [[i Hi] Hlt]. exists i. apply lookup_take_Some. split; [done |]. by rewrite (sorted_rank s i a Hs Hi) in Hlt.
Qed.

End Sorting.

Lemma filter_length_le {A} (P Q : A → Prop) `{∀ x, Decision (P x), ∀ x, Decision (Q x)} l :
  (∀ x, x ∈ l → P x → Q x) → length (filter P l) ≤ length (filter Q l).
Proof.
  induction l as [| x l IH]; intros HPQ; [done |]. specialize (IH (λ y H, HPQ y (list_elem_of_further _ _ _ H))).
  rewrite !filter_cons. pose proof (HPQ x (list_elem_of_here _ _)). repeat case_decide; cbn; (lia || tauto).
Qed.

(** Different keys: the result is strictly ascending. *)
Lemma sort_Slice_ascending {A} (less : A → A → bool) (v : A → Z) l i j a b :
  by_key less v l → NoDup (v <$> l) → i < j →
  sort_Slice less l !! i = Some a → sort_Slice less l !! j = Some b → (v a < v b)%Z.
Proof.
  intros Hk Hnd Hij Ha Hb. pose proof (sort_Slice_sorted less v l Hk Hnd) as Hs.
  pose proof (sorted_rank v _ i a Hs Ha) as Ri. pose proof (sorted_rank v _ j b Hs Hb) as Rj.
  destruct (Z.lt_ge_cases (v a) (v b)) as [| Hge]; [done |].
  pose proof (filter_length_le (λ x, (v x < v b)%Z) (λ x, (v x < v a)%Z) (sort_Slice less l)) as Hle.
  assert (j ≤ i); [| lia]. rewrite <- Ri, <- Rj at 1. apply Hle. intros x _. lia.
Qed.
