(* ===== verification/Lifecycle.v ===== *)
(** * Node lifecycle state machine ([core/pkg/node/lifecycle/manager.go])

    The manager of a node's lifecycle: joining, active, draining,
    maintenance.  A Go [State] is a string, so every operation accepts any
    string; the transition table decides.  Callbacks are identified by a
    number and the calls an operation makes are returned in order. *)

From S2P Require Import Prelude.
From stdpp Require Import base tactics relations list gmap fin_maps strings.
From Stdlib Require Import ZArith Lia.
Local Open Scope Z_scope.

Definition StateJoining : string := "joining".
Definition StateActive : string := "active".
Definition StateDraining : string := "draining".
Definition StateMaintenance : string := "maintenance".

Definition MaxMaintenanceTTL : duration := 15 * Minute.

Definition validTransitions : gmap string (gmap string bool) :=
  {[ StateJoining := {[ StateActive := true ]};
     StateActive := {[ StateDraining := true; StateMaintenance := true ]};
     StateDraining := {[ StateMaintenance := true ]};
     StateMaintenance := {[ StateActive := true ]} ]}.

(** A registered callback, by the order of its registration. *)
Abbreviation StateChangeCallback := nat (only parsing).

Record Manager := mkManager {
  state : string;
  maintenanceTTL : time;
  enterTime : time;
  onStateChange : list StateChangeCallback
}.

(** The error of a refused transition, with the two states it names. *)
Inductive LifecycleError :=
| ErrInvalidTransition (old new : string).

(** One call of a callback with its arguments. *)
Record CallbackCall := mkCall { cb : StateChangeCallback; cb_old : string; cb_new : string }.

Definition NewManager (now : time) : Manager :=
  mkManager StateJoining time_zero now [].

(** [exists && allowed[newState]]: a missing row or column reads as false. *)
Definition transitionAllowed (old new : string) : bool :=
  match validTransitions !! old with
  | Some allowed => default false (allowed !! new)
  | None => false
  end.

Definition OnStateChange (c : StateChangeCallback) (m : Manager) : Manager :=
  mkManager m.(state) m.(maintenanceTTL) m.(enterTime) (m.(onStateChange) ++ [c]).

Definition TransitionTo (now : time) (newState : string) (m : Manager) :
    result LifecycleError (Manager * list CallbackCall) :=
  let old := m.(state) in
  if negb (transitionAllowed old newState) then Err (ErrInvalidTransition old newState)
  else
    let ttl := if negb (String.eqb newState StateMaintenance) then time_zero
               else m.(maintenanceTTL) in
    Ok (mkManager newState ttl now m.(onStateChange),
        (λ c, mkCall c old newState) <$> m.(onStateChange)).

(** The clamp at the top of [EnterMaintenance]. *)
Definition clampTTL (ttl : duration) : duration :=
  let ttl := if ttl <=? 0 then MaxMaintenanceTTL else ttl in
  if MaxMaintenanceTTL <? ttl then MaxMaintenanceTTL else ttl.

(** [now1] and [now2] are the two readings of the clock, in program order. *)
Definition EnterMaintenance (now1 now2 : time) (ttl : duration) (m : Manager) :
    result LifecycleError (Manager * list CallbackCall) :=
  let ttl := clampTTL ttl in
  let old := m.(state) in
  if negb (transitionAllowed old StateMaintenance)
  then Err (ErrInvalidTransition old StateMaintenance)
  else
    Ok (mkManager StateMaintenance (now1 + ttl) now2 m.(onStateChange),
        (λ c, mkCall c old StateMaintenance) <$> m.(onStateChange)).

Definition IsMaintenanceExpired (now : time) (m : Manager) : bool :=
  if negb (String.eqb m.(state) StateMaintenance) then false
  else negb (IsZero m.(maintenanceTTL)) && After now m.(maintenanceTTL).

Definition IsAvailable (m : Manager) : bool := String.eqb m.(state) StateActive.
Definition IsInMaintenance (m : Manager) : bool := String.eqb m.(state) StateMaintenance.
Definition Snapshot (m : Manager) : string * time := (m.(state), m.(maintenanceTTL)).

(** ** The state machine the operations implement *)

Inductive lifecycle_edge : string → string → Prop :=
| edge_join : lifecycle_edge StateJoining StateActive
| edge_drain : lifecycle_edge StateActive StateDraining
| edge_maintain : lifecycle_edge StateActive StateMaintenance
| edge_drained : lifecycle_edge StateDraining StateMaintenance
| edge_resume : lifecycle_edge StateMaintenance StateActive.

(** A node over time: its manager and the wall clock, which never runs
    backwards.  Each step is one operation, whatever its outcome. *)
Record node := mkNode { mgr : Manager; clock : time }.

Inductive node_step : node → node → Prop :=
| step_tick m t t' : t ≤ t' → node_step (mkNode m t) (mkNode m t')
| step_register c m t : node_step (mkNode m t) (mkNode (OnStateChange c m) t)
| step_transition m t s m' calls :
    TransitionTo t s m = Ok (m', calls) → node_step (mkNode m t) (mkNode m' t)
| step_maintenance m t t' ttl m' calls :
    t ≤ t' → EnterMaintenance t t' ttl m = Ok (m', calls) →
    node_step (mkNode m t) (mkNode m' t').

Definition node_reachable (t0 : time) (n : node) : Prop :=
  rtc node_step (mkNode (NewManager t0) t0) n.

Definition lifecycle_inv (t0 : time) (n : node) : Prop :=
  (n.(mgr).(state) = StateJoining ∨ n.(mgr).(state) = StateActive ∨
   n.(mgr).(state) = StateDraining ∨ n.(mgr).(state) = StateMaintenance) ∧
  t0 ≤ n.(mgr).(enterTime) ≤ n.(clock) ∧
  (n.(mgr).(maintenanceTTL) ≠ time_zero → n.(mgr).(state) = StateMaintenance) ∧
  n.(mgr).(maintenanceTTL) ≤ n.(mgr).(enterTime) + MaxMaintenanceTTL.

(** ** Lemmas *)

Lemma transitionAllowed_edge old new :
  transitionAllowed old new = true ↔ lifecycle_edge old new.
Proof.
  split.
  - unfold transitionAllowed, validTransitions.
    rewrite !lookup_insert, lookup_singleton.
    repeat case_decide; subst; simpl; try done.
    all: rewrite ?lookup_insert, ?lookup_singleton.
    all: repeat case_decide; subst; simpl; try done; intros _; constructor.
  - destruct 1; reflexivity.
Qed.

Lemma clampTTL_bounds ttl : 0 < clampTTL ttl ≤ MaxMaintenanceTTL.
Proof.
  unfold clampTTL, MaxMaintenanceTTL, Minute, Second.
  repeat split_match; zbool; lia.
Qed.

Lemma clampTTL_id ttl : 0 < ttl ≤ MaxMaintenanceTTL → clampTTL ttl = ttl.
Proof.
  unfold clampTTL, MaxMaintenanceTTL, Minute, Second.
  intros; repeat split_match; zbool; lia.
Qed.

Lemma lifecycle_edge_target old new :
  lifecycle_edge old new →
  new = StateActive ∨ new = StateDraining ∨ new = StateMaintenance.
Proof. destruct 1; auto. Qed.

Lemma lifecycle_inv_step t0 n n' :
  0 ≤ t0 → lifecycle_inv t0 n → node_step n n' → lifecycle_inv t0 n'.
Proof.
  intros Ht0 (Hst & Hcl & Httl & Hmax) Hstep. unfold lifecycle_inv.
  destruct Hstep as [m t t' Ht | c m t | m t s m' calls Htr | m t t' ttl m' calls Ht Hen];
    simpl in *.
  - repeat split; [done | lia | lia | done | done].
  - repeat split; [done | lia | lia | done | done].
  - unfold TransitionTo in Htr.
    destruct (transitionAllowed _ _) eqn:Ha; simplify_eq/=.
    apply transitionAllowed_edge, lifecycle_edge_target in Ha.
    unfold time_zero, MaxMaintenanceTTL, Minute, Second in *.
    destruct (String.eqb_spec s StateMaintenance); simpl;
      (split; [naive_solver | split; [lia | split; [done | lia]]]).
  - unfold EnterMaintenance in Hen.
    destruct (transitionAllowed _ _) eqn:Ha; simplify_eq/=.
    pose proof (clampTTL_bounds ttl).
    split; [naive_solver | split; [lia | split; [done | lia]]].
Qed.

(** ** Properties *)

(** [TransitionTo] moves exactly along the edges of the lifecycle graph:
    it succeeds if and only if the edge exists, and then enters the requested
    state at the current instant, clears the maintenance deadline unless the
    target is maintenance, and calls every registered callback once, in
    registration order, with the old and the new state; otherwise it returns
    the invalid-transition error and nothing changes. *)
Theorem TransitionTo_spec now s m :
  (lifecycle_edge m.(state) s ∧
   ∃ m' calls, TransitionTo now s m = Ok (m', calls) ∧
     m'.(state) = s ∧ m'.(enterTime) = now ∧
     m'.(onStateChange) = m.(onStateChange) ∧
     (s ≠ StateMaintenance → m'.(maintenanceTTL) = time_zero) ∧
     (s = StateMaintenance → m'.(maintenanceTTL) = m.(maintenanceTTL)) ∧
     cb <$> calls = m.(onStateChange) ∧
     Forall (λ c, cb_old c = m.(state) ∧ cb_new c = s) calls) ∨
  (¬ lifecycle_edge m.(state) s ∧
   TransitionTo now s m = Err (ErrInvalidTransition m.(state) s)).
Proof.
  unfold TransitionTo.
  destruct (transitionAllowed (state m) s) eqn:Ha; simpl.
  - left. split; [by apply transitionAllowed_edge |].
    eexists _, _. split; [done |]. simpl.
    split_and!; try done.
    + intros Hs. apply String.eqb_neq in Hs. by rewrite Hs.
    + intros ->. done.
    + rewrite <- list_fmap_compose. apply list_fmap_id.
    + apply Forall_forall. intros c (cb0 & -> & _)%list_elem_of_fmap. done.
  - right. split; [| done]. rewrite <- transitionAllowed_edge. by rewrite Ha.
Qed.

(** In every state a node reaches, the lifecycle state is one of the four,
    a maintenance deadline is set only while the node is in maintenance, and
    the deadline is never more than fifteen minutes after the state was
    entered. *)
Theorem lifecycle_invariant t0 n :
  0 ≤ t0 → node_reachable t0 n → lifecycle_inv t0 n.
Proof.
  intros Ht0 Hr. eapply (invariant_rtc node_step); [| exact Hr |].
  - intros s s' Hs Hst. by eapply lifecycle_inv_step.
  - unfold lifecycle_inv, NewManager, time_zero, MaxMaintenanceTTL, Minute, Second; simpl.
    split; [auto | split; [lia | split; [done | lia]]].
Qed.

Lemma lifecycle_invariant_witness :
  lifecycle_inv 5 (mkNode (mkManager StateActive 0 5 []) 9).
Proof.
  apply (lifecycle_invariant 5); [lia |].
  apply rtc_l with (mkNode (mkManager StateActive 0 5 []) 5).
  - by apply step_transition with StateActive [].
  - apply rtc_once. apply step_tick. lia.
Defined.
