(* ===== verification/GF256.v ===== *)
(** * The field GF(2^8) of the secret-sharing package ([core/pkg/shamir/field.go])

    Log/exp tables for the AES polynomial 0x11B with generator 3, built by
    the loop of the package's [init], and the four operations read off them.
    The tables are proved to make [byte] a field: the ring laws are registered
    with [ring] for the files that build on this one. *)

From S2P Require Import Prelude.
From Stdlib Require Import NArith ZArith Lia Ring Strings.Byte.
From stdpp Require Import base tactics list.

Definition b2n (b : byte) : N := Byte.to_N b.
(** The conversion [byte(x)] of an unsigned integer. *)
Definition n2b (n : N) : byte := default x00 (Byte.of_N (n mod 256)).

Definition irreducible : N := 0x11B.

(** The state of the loop in [init]: the running power [x] (a [uint16]) and
    the two tables. *)
Record tables := mkTables { tx : N; texp : list byte; tlog : list byte }.

(** [t[i]] for an index the callers keep in range. *)
Definition at_ (t : list byte) (i : N) : byte := default x00 (t !! N.to_nat i).

Definition init_step (t : tables) (i : nat) : tables :=
  let x := t.(tx) in
  let xb := n2b x in
  let exp := if i <? 256 then <[i := xb]> t.(texp)
             else <[i := at_ t.(texp) (N.of_nat (i - 255))]> t.(texp) in
  let log := if i <? 256 then <[N.to_nat (b2n xb) := n2b (N.of_nat i)]> t.(tlog)
             else t.(tlog) in
  let x' := if i <? 255 then
              let x2 := (N.shiftl x 1 mod 2 ^ 16)%N in
              let x3 := N.lxor x2 x in
              if negb (N.land x3 0x100 =? 0)%N then N.lxor x3 irreducible else x3
            else x in
  mkTables x' exp log.

Definition init_tables : tables :=
  foldl init_step (mkTables 1 (replicate 512 x00) (replicate 256 x00)) (seq 0 512).

(** The tables after [init], evaluated once. *)
Definition expTable : list byte := Eval vm_compute in texp init_tables.
Definition logTable : list byte := Eval vm_compute in tlog init_tables.

Inductive FieldError := ErrDivisionByZero.

Definition byte_eqb (a b : byte) : bool := Byte.eqb a b.

Definition Add (a b : byte) : byte := n2b (N.lxor (b2n a) (b2n b)).

Definition Mul (a b : byte) : byte :=
  if byte_eqb a x00 || byte_eqb b x00 then x00
  else
    let logSum := ((b2n (at_ logTable (b2n a)) + b2n (at_ logTable (b2n b))) mod 2 ^ 16)%N in
    at_ expTable logSum.

Definition Inv (a : byte) : result FieldError byte :=
  if byte_eqb a x00 then Err ErrDivisionByZero
  else Ok (at_ expTable ((2 ^ 16 + 255 - b2n (at_ logTable (b2n a))) mod 2 ^ 16)%N).

Definition Div (a b : byte) : result FieldError byte :=
  if byte_eqb b x00 then Err ErrDivisionByZero
  else if byte_eqb a x00 then Ok x00
  else
    let logDiff := ((b2n (at_ logTable (b2n a)) + 255 + 2 ^ 16 - b2n (at_ logTable (b2n b)))
                    mod 2 ^ 16)%N in
    Ok (at_ expTable logDiff).

(** ** Deciding statements about all bytes *)

Definition all_bytes : list byte := (λ n, n2b (N.of_nat n)) <$> seq 0 256.

Lemma b2n_range b : (b2n b < 256)%N.
Proof. pose proof (Byte.to_N_bounded b). unfold b2n. lia. Qed.

Lemma n2b_b2n b : n2b (b2n b) = b.
Proof.
  unfold n2b. rewrite N.mod_small by apply b2n_range.
  unfold b2n. by rewrite Byte.of_to_N.
Qed.

Lemma b2n_n2b n : (n < 256)%N → b2n (n2b n) = n.
Proof.
  intros H. unfold n2b, b2n. rewrite N.mod_small by done.
  destruct (Byte.of_N n) as [b |] eqn:E; simpl; [by apply Byte.to_of_N |].
  apply Byte.of_N_None_iff in E. lia.
Qed.

Lemma all_bytes_complete b : b ∈ all_bytes.
Proof.
  apply list_elem_of_fmap. exists (N.to_nat (b2n b)).
  rewrite N2Nat.id, n2b_b2n. split; [done |].
  apply elem_of_seq. pose proof (b2n_range b). lia.
Qed.

Lemma forall_byte (P : byte → bool) :
  forallb P all_bytes = true → ∀ b, P b = true.
Proof.
  intros H b. rewrite forallb_forall in H. apply H.
  apply list_elem_of_In, all_bytes_complete.
Qed.

Lemma forall_byte2 (P : byte → byte → bool) :
  forallb (λ a, forallb (P a) all_bytes) all_bytes = true → ∀ a b, P a b = true.
Proof. intros H a. apply forall_byte. exact (forall_byte _ H a). Qed.

Lemma byte_eqb_eq a b : byte_eqb a b = true ↔ a = b.
Proof. split; [apply Byte.byte_dec_bl | apply Byte.byte_dec_lb]. Qed.

Lemma byte_eqb_neq a b : byte_eqb a b = false ↔ a ≠ b.
Proof. rewrite <- byte_eqb_eq. by destruct (byte_eqb a b). Qed.

#[export] Instance byte_eq_decision : EqDecision byte := Byte.byte_eq_dec.

(** ** Addition *)

Lemma lxor_range a b : (N.lxor (b2n a) (b2n b) < 256)%N.
Proof.
  pose proof (b2n_range a) as Ha. pose proof (b2n_range b) as Hb.
  assert (∀ n, (n < 256)%N ↔ N.shiftr n 8 = 0%N) as Hsh.
  { intros n. rewrite N.shiftr_div_pow2, N.div_small_iff by done. done. }
  rewrite Hsh in *. by rewrite N.shiftr_lxor, Ha, Hb.
Qed.

Lemma b2n_Add a b : b2n (Add a b) = N.lxor (b2n a) (b2n b).
Proof. apply b2n_n2b, lxor_range. Qed.

Lemma b2n_inj a b : b2n a = b2n b → a = b.
Proof. intros H. by rewrite <- (n2b_b2n a), H, n2b_b2n. Qed.

Lemma Add_comm a b : Add a b = Add b a.
Proof. apply b2n_inj. rewrite !b2n_Add. apply N.lxor_comm. Qed.
Lemma Add_assoc a b c : Add a (Add b c) = Add (Add a b) c.
Proof. apply b2n_inj. rewrite !b2n_Add. by rewrite N.lxor_assoc. Qed.
Lemma Add_0_l a : Add x00 a = a.
Proof. apply b2n_inj. rewrite b2n_Add. done. Qed.
Lemma Add_0_r a : Add a x00 = a.
Proof. by rewrite Add_comm, Add_0_l. Qed.
Lemma Add_self a : Add a a = x00.
Proof. apply b2n_inj. rewrite b2n_Add. apply N.lxor_nilpotent. Qed.
Lemma Add_eq_0 a b : Add a b = x00 ↔ a = b.
Proof.
  split; [| intros ->; apply Add_self]. intros H.
  apply b2n_inj, N.lxor_eq. by rewrite <- b2n_Add, H.
Qed.

(** ** Logarithms

    [E n] is the [n]-th power of the generator; on a non-zero byte [L] is its
    discrete logarithm, in the range the table has it. *)

Definition E (n : N) : byte := at_ expTable (n mod 255).
Definition L (a : byte) : N := b2n (at_ logTable (b2n a)).

Lemma expTable_E n : (n < 512)%N → at_ expTable n = E n.
Proof.
  intros H.
  assert (forallb (λ i, byte_eqb (at_ expTable (N.of_nat i)) (E (N.of_nat i))) (seq 0 512)
          = true) as Hall by (vm_compute; reflexivity).
  rewrite forallb_forall in Hall.
  specialize (Hall (N.to_nat n)). rewrite N2Nat.id in Hall.
  apply byte_eqb_eq, Hall, in_seq. lia.
Qed.

Lemma L_range a : (L a ≤ 255)%N.
Proof. pose proof (b2n_range (at_ logTable (b2n a))). unfold L. lia. Qed.

Lemma E_L a : a ≠ x00 → E (L a) = a.
Proof.
  intros Ha. apply byte_eqb_neq in Ha.
  pose proof (forall_byte (λ a, byte_eqb a x00 || byte_eqb (E (L a)) a)
    ltac:(vm_compute; reflexivity) a) as H.
  simpl in H. rewrite Ha in H. by apply byte_eqb_eq.
Qed.

Lemma E_mod n : E (n mod 255) = E n.
Proof. unfold E. by rewrite N.Div0.mod_mod. Qed.

Lemma E_cong n m : (n mod 255 = m mod 255)%N → E n = E m.
Proof. unfold E. by intros ->. Qed.

Lemma E_facts n : (n < 255)%N → E n ≠ x00 ∧ (L (E n) mod 255 = n)%N.
Proof.
  intros H.
  assert (forallb (λ i, negb (byte_eqb (E (N.of_nat i)) x00) &&
                        (L (E (N.of_nat i)) mod 255 =? N.of_nat i)%N) (seq 0 255)
          = true) as Hall by (vm_compute; reflexivity).
  rewrite forallb_forall in Hall.
  specialize (Hall (N.to_nat n)). rewrite N2Nat.id in Hall.
  rewrite in_seq in Hall. specialize (Hall ltac:(lia)).
  apply andb_true_iff in Hall as [H1 H2]. split.
  - apply byte_eqb_neq. by apply negb_true_iff.
  - by apply N.eqb_eq.
Qed.

Lemma E_nonzero n : E n ≠ x00.
Proof. rewrite <- E_mod. apply E_facts, N.mod_lt. done. Qed.

Lemma L_E n : (L (E n) mod 255 = n mod 255)%N.
Proof. rewrite <- (E_mod n). apply E_facts, N.mod_lt. done. Qed.

(** The product of non-zero bytes adds logarithms: the extended table makes
    the reduction modulo 255 unnecessary. *)
Lemma Mul_E a b : a ≠ x00 → b ≠ x00 → Mul a b = E (L a + L b).
Proof.
  intros Ha%byte_eqb_neq Hb%byte_eqb_neq. unfold Mul. rewrite Ha, Hb. simpl.
  pose proof (L_range a). pose proof (L_range b). unfold L in *.
  rewrite N.mod_small by lia. apply expTable_E. lia.
Qed.

Lemma Mul_0_l a : Mul x00 a = x00.
Proof. done. Qed.
Lemma Mul_0_r a : Mul a x00 = x00.
Proof. unfold Mul. by rewrite orb_true_r. Qed.

Lemma Mul_comm a b : Mul a b = Mul b a.
Proof. unfold Mul. by rewrite orb_comm, (N.add_comm (b2n (at_ logTable (b2n b)))). Qed.

Lemma Mul_nonzero a b : a ≠ x00 → b ≠ x00 → Mul a b ≠ x00.
Proof. intros. rewrite Mul_E by done. apply E_nonzero. Qed.

Lemma byte_dec (a b : byte) : a = b ∨ a ≠ b.
Proof.
  destruct (byte_eqb a b) eqn:H.
  - left. by apply byte_eqb_eq.
  - right. by apply byte_eqb_neq.
Qed.

Lemma Mul_assoc a b c : Mul a (Mul b c) = Mul (Mul a b) c.
Proof.
  destruct (byte_dec a x00) as [-> | Ha]; [done |].
  destruct (byte_dec b x00) as [-> | Hb]; [by rewrite (Mul_0_l c), (Mul_0_r a) |].
  destruct (byte_dec c x00) as [-> | Hc]; [by rewrite !Mul_0_r |].
  rewrite (Mul_E b c), (Mul_E a b), (Mul_E a), (Mul_E _ c) by auto using E_nonzero.
  apply E_cong.
  rewrite N.Div0.add_mod, L_E, <- N.Div0.add_mod.
  rewrite (N.Div0.add_mod (L (E _))), L_E, <- N.Div0.add_mod. f_equal. lia.
Qed.

Lemma Mul_1_l a : Mul x01 a = a.
Proof.
  apply byte_eqb_eq. revert a.
  apply (forall_byte (λ a, byte_eqb (Mul x01 a) a)). vm_compute. reflexivity.
Qed.

(** ** Distributivity: multiplication by a power of the generator iterates a
    linear map. *)

(** The loop body of [init] as a function of the running power. *)
Definition gen_step (n : N) : N :=
  let x3 := N.lxor (N.shiftl n 1) n in
  N.lxor x3 (if N.testbit x3 8 then irreducible else 0%N).

Lemma gen_step_linear m n :
  gen_step (N.lxor m n) = N.lxor (gen_step m) (gen_step n).
Proof.
  unfold gen_step. rewrite N.shiftl_lxor.
  set (a := N.shiftl m 1). set (b := N.shiftl n 1).
  replace (N.lxor (N.lxor a b) (N.lxor m n))
    with (N.lxor (N.lxor a m) (N.lxor b n)).
  2: { rewrite !N.lxor_assoc. f_equal. rewrite <- !N.lxor_assoc. f_equal. apply N.lxor_comm. }
  set (u := N.lxor a m). set (v := N.lxor b n). rewrite N.lxor_spec.
  assert (∀ p q, N.lxor (N.lxor u v) (N.lxor p q) = N.lxor (N.lxor u p) (N.lxor v q)) as Hx.
  { intros p q. rewrite !N.lxor_assoc. f_equal. rewrite <- !N.lxor_assoc.
    f_equal. apply N.lxor_comm. }
  rewrite <- Hx. f_equal.
  by destruct (N.testbit u 8), (N.testbit v 8).
Qed.

Lemma mulg_gen_step b : b2n (Mul x03 b) = gen_step (b2n b).
Proof.
  apply N.eqb_eq. revert b.
  apply (forall_byte (λ b, b2n (Mul x03 b) =? gen_step (b2n b))%N). vm_compute. reflexivity.
Qed.

Lemma mulg_linear b c : Mul x03 (Add b c) = Add (Mul x03 b) (Mul x03 c).
Proof. apply b2n_inj. by rewrite b2n_Add, !mulg_gen_step, b2n_Add, gen_step_linear. Qed.

Lemma E_succ n : E (N.succ n) = Mul x03 (E n).
Proof.
  rewrite Mul_E; [| done | apply E_nonzero]. apply E_cong.
  assert (L x03 = 1%N) as -> by (vm_compute; reflexivity).
  rewrite (N.Div0.add_mod 1), L_E, <- N.Div0.add_mod. f_equal. lia.
Qed.

Lemma Mul_power_linear n b c : Mul (E n) (Add b c) = Add (Mul (E n) b) (Mul (E n) c).
Proof.
  induction n as [| n IH] using N.peano_ind.
  - assert (E 0 = x01) as -> by (vm_compute; reflexivity). by rewrite !Mul_1_l.
  - rewrite E_succ, <- !Mul_assoc, IH. apply mulg_linear.
Qed.

Lemma Mul_add_distr_l a b c : Mul a (Add b c) = Add (Mul a b) (Mul a c).
Proof.
  destruct (byte_dec a x00) as [-> | Ha]; [done |].
  rewrite <- (E_L a Ha). apply Mul_power_linear.
Qed.

(** In characteristic two subtraction is addition; the two names let [ring]
    prove identities that hold in every commutative ring. *)
Definition Sub (a b : byte) : byte := Add a b.
Definition Opp (a : byte) : byte := a.

Lemma Sub_Add a b : Sub a b = Add a b.
Proof. done. Qed.

Lemma byte_ring_theory : ring_theory x00 x01 Add Mul Sub Opp (@eq byte).
Proof.
  constructor.
  - exact Add_0_l.
  - exact Add_comm.
  - exact Add_assoc.
  - exact Mul_1_l.
  - exact Mul_comm.
  - exact Mul_assoc.
  - intros. by rewrite Mul_comm, Mul_add_distr_l, (Mul_comm z x), (Mul_comm z y).
  - done.
  - exact Add_self.
Qed.

Add Ring byte_ring : byte_ring_theory.

(** ** Inverse and division *)

(** The inverse as a total function; [Inv] refuses zero. *)
Definition inv (a : byte) : byte := match Inv a with Ok b => b | Err _ => x00 end.

Lemma Mul_inv_r a : a ≠ x00 → Mul a (inv a) = x01.
Proof.
  intros Ha. apply byte_eqb_neq in Ha.
  pose proof (forall_byte (λ a, byte_eqb a x00 || byte_eqb (Mul a (inv a)) x01)
    ltac:(vm_compute; reflexivity) a) as H.
  simpl in H. rewrite Ha in H. by apply byte_eqb_eq.
Qed.

Lemma inv_E b : b ≠ x00 → inv b = E (255 - L b).
Proof.
  intros Hb%byte_eqb_neq. unfold inv, Inv. rewrite Hb.
  pose proof (L_range b). unfold L in *.
  replace (2 ^ 16 + 255 - b2n (at_ logTable (b2n b)))%N
    with ((255 - b2n (at_ logTable (b2n b))) + 1 * 2 ^ 16)%N by lia.
  rewrite N.Div0.mod_add, N.mod_small by lia. apply expTable_E. lia.
Qed.

Lemma Div_spec a b : b ≠ x00 → Div a b = Ok (Mul a (inv b)).
Proof.
  intros Hb. unfold Div. rewrite (proj2 (byte_eqb_neq b x00) Hb).
  destruct (byte_eqb a x00) eqn:Ha; [by apply byte_eqb_eq in Ha as -> |].
  apply byte_eqb_neq in Ha. f_equal.
  rewrite inv_E, Mul_E by auto using E_nonzero.
  pose proof (L_range a). pose proof (L_range b). unfold L in *.
  set (la := b2n (at_ logTable (b2n a))) in *. set (lb := b2n (at_ logTable (b2n b))) in *.
  replace (la + 255 + 2 ^ 16 - lb)%N with ((la + 255 - lb) + 1 * 2 ^ 16)%N by lia.
  rewrite N.Div0.mod_add, N.mod_small, expTable_E by lia.
  apply E_cong. fold (L (E (255 - lb))).
  rewrite (N.Div0.add_mod la), L_E, <- N.Div0.add_mod. f_equal. lia.
Qed.

Lemma Mul_eq_0 a b : Mul a b = x00 → a = x00 ∨ b = x00.
Proof.
  intros H. destruct (byte_dec a x00); [by left |].
  destruct (byte_dec b x00); [by right |]. by apply Mul_nonzero in H.
Qed.

(** ** Reference multiplication

    The product of two polynomials over GF(2) reduced modulo the irreducible
    polynomial, by shifting and adding: independent of the tables. *)

(** Multiplication by the polynomial [x]. *)
Definition xtime (a : byte) : byte :=
  let m := N.shiftl (b2n a) 1 in
  n2b (if N.testbit m 8 then N.lxor m irreducible else m).

Definition shift_add (a b : byte) (bits : list nat) : byte :=
  foldr (λ i acc, Add (if N.testbit (b2n b) (N.of_nat i) then Nat.iter i xtime a else x00) acc)
    x00 bits.

Definition polymul_mod (a b : byte) : byte := shift_add a b (seq 0 8).

Lemma xtime_Mul a : xtime a = Mul x02 a.
Proof.
  apply byte_eqb_eq. revert a.
  apply (forall_byte (λ a, byte_eqb (xtime a) (Mul x02 a))). vm_compute. reflexivity.
Qed.

Lemma iter_xtime i a : Nat.iter i xtime a = Mul a (Nat.iter i xtime x01).
Proof.
  induction i as [| i IH]; simpl; [ring |]. rewrite IH, !xtime_Mul. ring.
Qed.

Lemma shift_add_Mul a b bits : shift_add a b bits = Mul a (shift_add x01 b bits).
Proof.
  induction bits as [| i bits IH]; simpl; [by rewrite Mul_0_r |].
  rewrite IH, Mul_add_distr_l. f_equal.
  destruct (N.testbit _ _); [apply iter_xtime | by rewrite Mul_0_r].
Qed.

Lemma shift_add_1 b : shift_add x01 b (seq 0 8) = b.
Proof.
  apply byte_eqb_eq. revert b.
  apply (forall_byte (λ b, byte_eqb (shift_add x01 b (seq 0 8)) b)). vm_compute. reflexivity.
Qed.

(** ** Properties *)

(** C35: the table-driven product is multiplication of polynomials over GF(2)
    modulo x^8 + x^4 + x^3 + x + 1. *)
Theorem Mul_polymul_mod a b : Mul a b = polymul_mod a b.
Proof. unfold polymul_mod. by rewrite shift_add_Mul, shift_add_1. Qed.

(** With these operations the bytes are a field: multiplication is
    commutative, associative, has unit 1 and distributes over addition;
    [Inv] fails exactly on zero and otherwise gives the inverse; [Div] fails
    exactly on a zero divisor and otherwise undoes multiplication. *)
Theorem field_operations a b c :
  Mul a b = Mul b a ∧ Mul a (Mul b c) = Mul (Mul a b) c ∧ Mul x01 a = a ∧
  Mul a (Add b c) = Add (Mul a b) (Mul a c) ∧
  (if byte_eqb a x00 then Inv a = Err ErrDivisionByZero
   else ∃ i, Inv a = Ok i ∧ Mul a i = x01) ∧
  (if byte_eqb b x00 then Div a b = Err ErrDivisionByZero
   else Div (Mul a b) b = Ok a).
Proof.
  split; [apply Mul_comm |]. split; [apply Mul_assoc |]. split; [apply Mul_1_l |].
  split; [apply Mul_add_distr_l |]. split.
  - destruct (byte_eqb a x00) eqn:Ha; [unfold Inv; by rewrite Ha |].
    exists (inv a). split; [| apply Mul_inv_r; by apply byte_eqb_neq].
    unfold inv, Inv. by rewrite Ha.
  - destruct (byte_eqb b x00) eqn:Hb; [unfold Div; by rewrite Hb |].
    apply byte_eqb_neq in Hb. rewrite Div_spec, <- Mul_assoc, Mul_inv_r by done.
    f_equal. ring.
Qed.
