(* ===== verification/BytePoly.v ===== *)
(** * Polynomials over GF(2^8)

    Coefficient lists, low degree first, and the facts of interpolation the
    sharing scheme rests on: evaluation is linear, a polynomial of length [n]
    with [n] distinct roots is zero, and [n] points with distinct abscissae
    lie on the graph of a polynomial of length [n]. *)

From Stdlib Require Import NArith Lia Ring Strings.Byte.
From stdpp Require Import base tactics list sets.
From S2P Require Import Prelude GF256.

(** Horner evaluation: the loop of [evaluatePolynomial] runs from the last
    coefficient to the first. *)
Definition peval (p : list byte) (x : byte) : byte :=
  foldr (λ c acc, Add (Mul acc x) c) x00 p.

Fixpoint padd (p q : list byte) : list byte :=
  match p, q with
  | [], _ => q
  | _, [] => p
  | a :: p', b :: q' => Add a b :: padd p' q'
  end.

Definition pscale (c : byte) (p : list byte) : list byte := Mul c <$> p.

(** Multiplication by [X - r]. *)
Definition pmulx (r : byte) (p : list byte) : list byte := padd (x00 :: p) (pscale (Opp r) p).

(** Synthetic division by [X - r]: the quotient; the remainder is [peval p r]. *)
Fixpoint pdiv (r : byte) (p : list byte) : list byte :=
  match p with
  | [] => []
  | [_] => []
  | _ :: p' => peval p' r :: pdiv r p'
  end.

Definition pzero (p : list byte) : Prop := Forall (λ c, c = x00) p.

(** The polynomial that is [1] at [x] and [0] at every point of [others]. *)
Definition pbasis (x : byte) (others : list byte) : list byte :=
  foldr (λ a p, pscale (inv (Sub x a)) (pmulx a p)) [x01] others.

(** The interpolating polynomial of a list of points; [pre] are the abscissae
    already passed. *)
Fixpoint pinterp (pre : list byte) (pts : list (byte * byte)) : list byte :=
  match pts with
  | [] => []
  | (x, y) :: pts' =>
      padd (pscale y (pbasis x (pre ++ pts'.*1))) (pinterp (pre ++ [x]) pts')
  end.

(** ** Evaluation *)

Lemma peval_cons c p x : peval (c :: p) x = Add (Mul (peval p x) x) c.
Proof. done. Qed.

Lemma peval_padd p q x : peval (padd p q) x = Add (peval p x) (peval q x).
Proof.
  revert q. induction p as [| a p IH]; intros [| b q]; simpl padd; rewrite ?peval_cons.
  - done.
  - change (peval [] x) with x00. by rewrite Add_0_l.
  - change (peval [] x) with x00. by rewrite Add_0_r.
  - rewrite IH. ring.
Qed.

Lemma peval_pscale c p x : peval (pscale c p) x = Mul c (peval p x).
Proof.
  induction p as [| a p IH]; [by rewrite Mul_0_r |].
  change (pscale c (a :: p)) with (Mul c a :: pscale c p).
  rewrite !peval_cons, IH. ring.
Qed.

Lemma peval_pmulx r p x : peval (pmulx r p) x = Mul (Sub x r) (peval p x).
Proof. unfold pmulx. rewrite peval_padd, peval_pscale, peval_cons. ring. Qed.

Lemma peval_0 p : peval p x00 = default x00 (head p).
Proof. destruct p as [| c p]; [done |]. rewrite peval_cons, Mul_0_r. apply Add_0_l. Qed.

Lemma peval_zero p x : pzero p → peval p x = x00.
Proof.
  induction 1 as [| c p -> _ IH]; [done |]. rewrite peval_cons, IH. by rewrite Add_0_r.
Qed.

(** ** Lengths *)

Lemma length_padd p q : length (padd p q) = length p `max` length q.
Proof. revert q. induction p as [| a p IH]; intros [| b q]; simpl; auto. Qed.

Lemma length_pscale c p : length (pscale c p) = length p.
Proof. apply length_fmap. Qed.

Lemma length_pmulx r p : length (pmulx r p) = S (length p).
Proof. unfold pmulx. rewrite length_padd, length_pscale. simpl. lia. Qed.

Lemma length_pbasis x others : length (pbasis x others) = S (length others).
Proof.
  induction others as [| a others IH]; [done |]. simpl.
  by rewrite length_pscale, length_pmulx, IH.
Qed.

Lemma length_pinterp pre pts :
  length (pinterp pre pts) = match pts with [] => 0 | _ => length pre + length pts end.
Proof.
  revert pre. induction pts as [| [x y] pts IH]; intros pre; [done |]. simpl.
  rewrite length_padd, length_pscale, length_pbasis, IH, !length_app, length_fmap.
  destruct pts; simpl; lia.
Qed.

Lemma length_pdiv r p : length (pdiv r p) = length p - 1.
Proof.
  induction p as [| a p IH]; [done |].
  destruct p as [| b p]; [done |].
  change (pdiv r (a :: b :: p)) with (peval (b :: p) r :: pdiv r (b :: p)).
  rewrite length_cons, IH. simpl. lia.
Qed.

(** ** Roots *)

Lemma peval_pdiv r p x :
  peval p x = Add (Mul (Sub x r) (peval (pdiv r p) x)) (peval p r).
Proof.
  induction p as [| a p IH]; [by rewrite Mul_0_r |].
  destruct p as [| b p].
  - change (pdiv r [a]) with (@nil byte). rewrite !peval_cons.
    change (peval [] x) with x00. change (peval [] r) with x00. ring.
  - change (pdiv r (a :: b :: p)) with (peval (b :: p) r :: pdiv r (b :: p)).
    rewrite (peval_cons a (b :: p) x), IH, (peval_cons _ (pdiv r (b :: p))),
      (peval_cons a (b :: p) r). ring.
Qed.

(** The quotient determines the polynomial: no root can hide a non-zero
    coefficient. *)
Lemma pdiv_pzero r p : peval p r = x00 → pzero (pdiv r p) → pzero p.
Proof.
  revert r. induction p as [| a p IH]; intros r Hr Hz; [constructor |].
  destruct p as [| b p].
  - rewrite peval_cons in Hr. change (peval [] r) with x00 in Hr.
    rewrite Mul_0_l, Add_0_l in Hr. by repeat constructor.
  - change (pdiv r (a :: b :: p)) with (peval (b :: p) r :: pdiv r (b :: p)) in Hz.
    apply Forall_cons in Hz as [Hb Hz].
    rewrite peval_cons, Hb, Mul_0_l, Add_0_l in Hr.
    constructor; [done |]. by apply (IH r).
Qed.

Lemma Sub_eq_0 a b : Sub a b = x00 ↔ a = b.
Proof. apply Add_eq_0. Qed.

(** A polynomial with as many distinct roots as coefficients is zero. *)
Lemma roots_pzero (xs p : list byte) :
  NoDup xs → Forall (λ x, peval p x = x00) xs → length p ≤ length xs → pzero p.
Proof.
  intros Hnd. revert p. induction Hnd as [| r xs Hr Hnd IH]; intros p Hroots Hlen.
  - destruct p; [constructor | simpl in Hlen; lia].
  - apply Forall_cons in Hroots as [Hpr Hroots]. apply (pdiv_pzero r); [done |].
    apply IH; [| rewrite length_pdiv; simpl in Hlen; lia].
    rewrite Forall_forall in Hroots |- *. intros x Hx.
    pose proof (Hroots x Hx) as Hpx. rewrite (peval_pdiv r p x), Hpr, Add_0_r in Hpx.
    apply Mul_eq_0 in Hpx as [Hpx | Hpx]; [| done].
    apply Sub_eq_0 in Hpx as ->. done.
Qed.

(** Two polynomials that agree on enough distinct points have the same value
    everywhere. *)
Lemma peval_agree (xs p q : list byte) (z : byte) :
  NoDup xs → Forall (λ x, peval p x = peval q x) xs →
  length p ≤ length xs → length q ≤ length xs → peval p z = peval q z.
Proof.
  intros Hnd Hag Hp Hq.
  apply Add_eq_0. rewrite <- peval_padd. apply peval_zero, (roots_pzero xs); [done | |].
  - eapply Forall_impl; [exact Hag |]. intros x Hx. simpl in Hx.
    rewrite peval_padd, Hx. apply Add_self.
  - rewrite length_padd. lia.
Qed.

(** ... and the same coefficients, when they have the same length. *)
Lemma coeffs_agree (xs p q : list byte) :
  NoDup xs → Forall (λ x, peval p x = peval q x) xs →
  length p = length xs → length q = length xs → p = q.
Proof.
  intros Hnd Hag Hp Hq.
  assert (pzero (padd p q)) as Hz.
  { apply (roots_pzero xs); [done | | rewrite length_padd; lia].
    eapply Forall_impl; [exact Hag |]. intros x Hx. simpl in Hx.
    rewrite peval_padd, Hx. apply Add_self. }
  assert (length p = length q) as Hlen by congruence. clear -Hz Hlen.
  revert q Hz Hlen. induction p as [| a p IH]; intros [| b q] Hz Hlen; try done.
  apply Forall_cons in Hz as [Hab Hz]. apply Add_eq_0 in Hab as ->.
  f_equal. apply IH; [done | by injection Hlen].
Qed.

(** ** Interpolation *)

Lemma pbasis_self x others : x ∉ others → peval (pbasis x others) x = x01.
Proof.
  induction others as [| a others IH]; intros Hx; [by vm_compute |].
  apply not_elem_of_cons in Hx as [Hxa Hx]. simpl.
  rewrite peval_pscale, peval_pmulx, IH by done.
  assert (Sub x a ≠ x00) as Hne by (by rewrite Sub_eq_0).
  transitivity (Mul (Sub x a) (inv (Sub x a))); [ring | by apply Mul_inv_r].
Qed.

Lemma pbasis_other x others a : a ∈ others → peval (pbasis x others) a = x00.
Proof.
  induction others as [| b others IH]; intros Ha; [by apply not_elem_of_nil in Ha |].
  simpl. rewrite peval_pscale, peval_pmulx.
  apply elem_of_cons in Ha as [-> | Ha].
  - rewrite (proj2 (Sub_eq_0 b b) eq_refl), Mul_0_l. by rewrite Mul_0_r.
  - rewrite IH, !Mul_0_r by done. done.
Qed.

Lemma pinterp_pre pre pts a :
  a ∈ pre → peval (pinterp pre pts) a = x00.
Proof.
  revert pre. induction pts as [| [x y] pts IH]; intros pre Ha; [done |]. simpl.
  rewrite peval_padd, peval_pscale, pbasis_other by set_solver.
  rewrite IH by set_solver. by rewrite Mul_0_r, Add_0_r.
Qed.

Lemma pinterp_spec pre pts :
  NoDup (pre ++ pts.*1) →
  Forall (λ pt, peval (pinterp pre pts) pt.1 = pt.2) pts.
Proof.
  revert pre. induction pts as [| [x y] pts IH]; intros pre Hnd; [constructor |].
  simpl in Hnd. simpl pinterp.
  assert (x ∉ pre ++ pts.*1) as Hx.
  { apply NoDup_app in Hnd as (_ & Hdis & Hnd'). apply NoDup_cons in Hnd' as [Hx _].
    rewrite not_elem_of_app. split; [| done]. intros Hin. apply (Hdis x Hin). set_solver. }
  constructor; simpl.
  - rewrite peval_padd, peval_pscale, pbasis_self, pinterp_pre by set_solver.
    rewrite Add_0_r. ring.
  - assert (NoDup ((pre ++ [x]) ++ pts.*1)) as Hnd' by (by rewrite <- app_assoc).
    specialize (IH (pre ++ [x]) Hnd'). rewrite Forall_forall in IH |- *.
    intros pt Hpt. rewrite peval_padd, peval_pscale, IH by done.
    rewrite pbasis_other; [by rewrite Mul_0_r, Add_0_l |].
    apply elem_of_app. right. by apply list_elem_of_fmap_2.
Qed.
