(* ===== verification/Shamir.v ===== *)
(** * Shamir secret sharing ([core/pkg/shamir/shamir.go])

    [Split], [Combine] and the quorum functions.  The random source is an
    argument: [rand i] is the outcome of the [i]-th call of [rand.Read], either
    an error or the bytes it writes, by buffer position. *)

From Stdlib Require Import NArith ZArith Lia Ring Strings.Byte.
From stdpp Require Import base tactics list sets.
From S2P Require Import Prelude GF256 BytePoly.

Inductive ShamirError :=
| ErrThresholdTooSmall
| ErrShareCountTooSmall
| ErrTooManyShares
| ErrEmptySecret
| ErrNotEnoughShares
| ErrMismatchedShareLen
| ErrZeroShareIndex
| ErrDuplicateShareIndex
| ErrRandom
| ErrField (e : FieldError).

Record Share := mkShare { X : byte; Y : list byte }.

#[export] Instance Share_eq_decision : EqDecision Share.
Proof. solve_decision. Defined.

Definition evaluatePolynomial (coeffs : list byte) (x : byte) : byte :=
  foldr (λ c result, Add (Mul result x) c) x00 coeffs.

(** One turn of the loop over the bytes of the secret, which writes column
    [byteIdx] of every share. *)
Definition write_column (coeffs : list byte) (byteIdx : nat) (s : Share) : Share :=
  mkShare s.(X) (<[byteIdx := evaluatePolynomial coeffs s.(X)]> s.(Y)).

Fixpoint split_loop (rand : nat → option (nat → byte)) (k : nat) (secret : list byte)
    (byteIdx : nat) (shares : list Share) : result ShamirError (list Share) :=
  match secret with
  | [] => Ok shares
  | b :: secret' =>
      match rand byteIdx with
      | None => Err ErrRandom
      | Some bytes =>
          let coeffs := b :: (bytes <$> seq 0 (k - 1)) in
          split_loop rand k secret' (S byteIdx) (write_column coeffs byteIdx <$> shares)
      end
  end.

Definition blank_share (len i : nat) : Share :=
  mkShare (n2b (N.of_nat (i + 1))) (replicate len x00).

Definition Split (rand : nat → option (nat → byte)) (secret : list byte) (n k : Z) :
    result ShamirError (list Share) :=
  if (k <? 2)%Z then Err ErrThresholdTooSmall
  else if (n <? k)%Z then Err ErrShareCountTooSmall
  else if (255 <? n)%Z then Err ErrTooManyShares
  else if (length secret =? 0) then Err ErrEmptySecret
  else
    let shares := blank_share (length secret) <$> seq 0 (Z.to_nat n) in
    split_loop rand (Z.to_nat k) secret 0 shares.

(** The validation loop of [Combine]; [seen] holds the indices met so far. *)
Fixpoint check_shares (secretLen : nat) (seen : list byte) (shares : list Share) :
    option ShamirError :=
  match shares with
  | [] => None
  | s :: shares' =>
      if byte_eqb s.(X) x00 then Some ErrZeroShareIndex
      else if negb (length s.(Y) =? secretLen) then Some ErrMismatchedShareLen
      else if existsb (byte_eqb s.(X)) seen then Some ErrDuplicateShareIndex
      else check_shares secretLen (s.(X) :: seen) shares'
  end.

(** The Lagrange basis polynomial of share [i] at zero; [js] are the shares
    with their positions. *)
Fixpoint basis_loop (i : nat) (si : Share) (js : list (nat * Share)) (basis : byte) :
    result ShamirError byte :=
  match js with
  | [] => Ok basis
  | (j, sj) :: js' =>
      if i =? j then basis_loop i si js' basis
      else
        let num := sj.(X) in
        let den := Add si.(X) sj.(X) in
        match Div num den with
        | Err e => Err (ErrField e)
        | Ok d => basis_loop i si js' (Mul basis d)
        end
  end.

Fixpoint value_loop (all : list (nat * Share)) (todo : list (nat * Share)) (byteIdx : nat)
    (value : byte) : result ShamirError byte :=
  match todo with
  | [] => Ok value
  | (i, si) :: todo' =>
      match basis_loop i si all x01 with
      | Err e => Err e
      | Ok basis =>
          value_loop all todo' byteIdx
            (Add value (Mul (default x00 (si.(Y) !! byteIdx)) basis))
      end
  end.

Fixpoint combine_loop (all : list (nat * Share)) (idxs : list nat) :
    result ShamirError (list byte) :=
  match idxs with
  | [] => Ok []
  | byteIdx :: idxs' =>
      match value_loop all all byteIdx x00 with
      | Err e => Err e
      | Ok value =>
          match combine_loop all idxs' with
          | Err e => Err e
          | Ok rest => Ok (value :: rest)
          end
      end
  end.

Definition indexed (shares : list Share) : list (nat * Share) :=
  zip (seq 0 (length shares)) shares.

Definition Combine (shares : list Share) : result ShamirError (list byte) :=
  if (length shares <? 2) then Err ErrNotEnoughShares
  else
    let secretLen := match shares with s :: _ => length s.(Y) | [] => 0 end in
    match check_shares secretLen [] shares with
    | Some e => Err e
    | None => combine_loop (indexed shares) (seq 0 secretLen)
    end.

Definition AdaptiveThreshold (n : Z) : Z :=
  let t := Z.quot n 3 in
  if (t <? 3)%Z then 3%Z else t.

Definition WriteQuorum (n : Z) : Z :=
  if (n =? 0)%Z then 0%Z
  else if (n <=? 2)%Z then n
  else Z.quot (2 * n + 2) 3.

(** ** The polynomial view *)

Lemma evaluatePolynomial_peval coeffs x : evaluatePolynomial coeffs x = peval coeffs x.
Proof. done. Qed.

(** The random tail of byte [i]'s polynomial. *)
Definition random_tail (bytes : nat → byte) (k : nat) : list byte := bytes <$> seq 0 (k - 1).

(** The polynomials of the secret's bytes, when every read succeeds. *)
Fixpoint secret_polys (rand : nat → option (nat → byte)) (k : nat) (secret : list byte)
    (byteIdx : nat) : option (list (list byte)) :=
  match secret with
  | [] => Some []
  | b :: secret' =>
      match rand byteIdx, secret_polys rand k secret' (S byteIdx) with
      | Some bytes, Some ps => Some ((b :: random_tail bytes k) :: ps)
      | _, _ => None
      end
  end.

Lemma secret_polys_spec rand k secret i ps :
  secret_polys rand k secret i = Some ps →
  ((λ p, peval p x00) <$> ps) = secret ∧ Forall (λ p, length p = S (k - 1)) ps.
Proof.
  revert i ps. induction secret as [| b secret IH]; intros i ps; simpl.
  { intros [= <-]. by split. }
  destruct (rand i) as [bytes |]; [| done].
  destruct (secret_polys _ _ _ _) as [ps' |] eqn:Hps; [| done]. intros [= <-].
  destruct (IH _ _ Hps) as [<- Hlen]. split.
  - rewrite fmap_cons, peval_0. done.
  - constructor; [| done]. simpl. unfold random_tail. by rewrite length_fmap, length_seq.
Qed.

(** The loop fills the shares column by column. *)
Lemma split_loop_spec rand k secret i shares :
  Forall (λ s, length s.(Y) = i + length secret) shares →
  split_loop rand k secret i shares =
  match secret_polys rand k secret i with
  | Some ps => Ok ((λ s, mkShare s.(X) (take i s.(Y) ++ ((λ p, peval p s.(X)) <$> ps))) <$> shares)
  | None => Err ErrRandom
  end.
Proof.
  revert i shares. induction secret as [| b secret IH]; intros i shares Hlen; simpl.
  - f_equal. symmetry. rewrite <- (list_fmap_id shares) at 2.
    apply list_fmap_ext. intros j [x y] Hs. simpl. f_equal.
    rewrite Forall_forall in Hlen. specialize (Hlen _ (list_elem_of_lookup_2 _ _ _ Hs)).
    simpl in Hlen. rewrite app_nil_r. apply take_ge. lia.
  - destruct (rand i) as [bytes |]; [| done]. rewrite IH.
    2: { apply Forall_fmap. eapply Forall_impl; [exact Hlen |]. intros [x y] Hy.
         simpl in *. rewrite length_insert. lia. }
    destruct (secret_polys rand k secret (S i)) as [ps |]; [| done].
    f_equal. rewrite <- list_fmap_compose.
    apply list_fmap_ext. intros j [x y] Hs. simpl. f_equal.
    rewrite Forall_forall in Hlen. specialize (Hlen _ (list_elem_of_lookup_2 _ _ _ Hs)).
    simpl in Hlen.
    rewrite (take_S_r _ _ (peval (b :: random_tail bytes k) x)).
    + rewrite take_insert_ge by lia. by rewrite <- app_assoc.
    + rewrite list_lookup_insert_eq by lia. done.
Qed.

Lemma Split_Ok rand secret n k shares :
  Split rand secret n k = Ok shares →
  (2 ≤ k ≤ n ∧ n ≤ 255)%Z ∧ secret ≠ [] ∧
  ∃ ps, secret_polys rand (Z.to_nat k) secret 0 = Some ps ∧
    shares = (λ i, let x := n2b (N.of_nat (i + 1)) in
                   mkShare x ((λ p, peval p x) <$> ps)) <$> seq 0 (Z.to_nat n).
Proof.
  unfold Split.
  destruct (k <? 2)%Z eqn:?, (n <? k)%Z eqn:?, (255 <? n)%Z eqn:?; try done.
  destruct (length secret =? 0) eqn:Hs; [done |]. apply Nat.eqb_neq in Hs. zbool.
  rewrite split_loop_spec.
  2: { apply Forall_fmap, Forall_true. intros i. simpl. by rewrite length_replicate. }
  destruct (secret_polys _ _ _ _) as [ps |]; [| done]. intros [= <-].
  split_and!; try lia; [by destruct secret |].
  exists ps. split; [done |]. rewrite <- list_fmap_compose. done.
Qed.

(** ** Validation *)

Definition share_ok (len : nat) (s : Share) : Prop := s.(X) ≠ x00 ∧ length s.(Y) = len.

Lemma existsb_byte x l : existsb (byte_eqb x) l = true ↔ x ∈ l.
Proof.
  rewrite existsb_exists. setoid_rewrite byte_eqb_eq.
  setoid_rewrite list_elem_of_In. naive_solver.
Qed.

Lemma check_shares_None len seen shares :
  check_shares len seen shares = None ↔
  Forall (share_ok len) shares ∧ NoDup (X <$> shares) ∧ Forall (λ s, s.(X) ∉ seen) shares.
Proof.
  revert seen. induction shares as [| s shares IH]; intros seen; simpl.
  { split; [intros _; repeat constructor | done]. }
  destruct (byte_eqb (X s) x00) eqn:Hx.
  { apply byte_eqb_eq in Hx. rewrite Forall_cons. unfold share_ok. naive_solver. }
  apply byte_eqb_neq in Hx.
  destruct (length (Y s) =? len) eqn:Hl; simpl.
  2: { apply Nat.eqb_neq in Hl. rewrite Forall_cons. unfold share_ok at 1. naive_solver. }
  apply Nat.eqb_eq in Hl.
  destruct (existsb (byte_eqb (X s)) seen) eqn:He.
  { apply existsb_byte in He. rewrite (Forall_cons (λ _, _ ∉ seen)). naive_solver. }
  assert (X s ∉ seen) as Hns by (rewrite <- existsb_byte; by rewrite He).
  rewrite IH, NoDup_cons, !Forall_cons.
  assert (Forall (λ s0, X s0 ∉ X s :: seen) shares ↔
          (X s ∉ (X <$> shares)) ∧ Forall (λ s0, X s0 ∉ seen) shares) as ->.
  { rewrite !Forall_forall. split.
    - intros H. split.
      + intros (s' & Heq & Hin)%list_elem_of_fmap. apply (H s' Hin). rewrite Heq. left.
      + intros s' Hin Hs'. apply (H s' Hin). by right.
    - intros [H1 H2] s' Hin [Heq | Hs']%elem_of_cons; [| by apply (H2 s')].
      apply H1. rewrite <- Heq. by apply list_elem_of_fmap_2. }
  assert (share_ok len s) by done. tauto.
Qed.

Lemma check_shares_error len seen shares e :
  check_shares len seen shares = Some e →
  e = ErrZeroShareIndex ∨ e = ErrMismatchedShareLen ∨ e = ErrDuplicateShareIndex.
Proof.
  revert seen. induction shares as [| s shares IH]; intros seen; simpl; [done |].
  destruct (byte_eqb (X s) x00), (length (Y s) =? len), (existsb (byte_eqb (X s)) seen);
    naive_solver.
Qed.

(** ** The Lagrange loops compute an interpolating polynomial at zero *)

(** The product the inner loop accumulates. *)
Definition lagrange_prod (x : byte) (others : list byte) : byte :=
  foldr (λ a acc, Mul (Mul a (inv (Add x a))) acc) x01 others.

Lemma lagrange_prod_cons x a others :
  lagrange_prod x (a :: others) = Mul (Mul a (inv (Add x a))) (lagrange_prod x others).
Proof. done. Qed.

Lemma pbasis_0 x others : peval (pbasis x others) x00 = lagrange_prod x others.
Proof.
  induction others as [| a others IH]; [by vm_compute |]. simpl.
  rewrite peval_pscale, peval_pmulx, IH, !Sub_Add, Add_0_l. ring.
Qed.

Lemma basis_loop_skip i si js tl basis :
  Forall (λ p, p.1 ≠ i ∧ X p.2 ≠ X si) js →
  basis_loop i si (js ++ tl) basis =
  basis_loop i si tl (Mul basis (lagrange_prod (X si) ((λ p, X p.2) <$> js))).
Proof.
  intros Hjs. revert basis. induction Hjs as [| [j sj] js [Hj Hx] _ IH]; intros basis.
  { apply (f_equal (basis_loop i si tl)). simpl. ring. }
  rewrite fmap_cons, lagrange_prod_cons. cbn [app basis_loop snd].
  assert ((i =? j) = false) as -> by (apply Nat.eqb_neq; simpl in Hj; lia).
  rewrite Div_spec; [| rewrite Add_eq_0; simpl in Hx; congruence].
  rewrite IH. apply (f_equal (basis_loop i si tl)).
  ring.
Qed.

Lemma indexed_elem o (l : list Share) j s :
  (j, s) ∈ zip (seq o (length l)) l → o ≤ j < o + length l ∧ s ∈ l.
Proof.
  revert o. induction l as [| a l IH]; intros o; simpl; [by intros ?%elem_of_nil |].
  intros [Heq | Hin]%elem_of_cons.
  - simplify_eq. split; [lia | left].
  - apply IH in Hin as [? ?]. split; [lia | by right].
Qed.

Lemma indexed_X o (l : list Share) :
  ((λ p, X p.2) <$> zip (seq o (length l)) l) = X <$> l.
Proof. revert o. induction l as [| a l IH]; intros o; simpl; [done |]. by rewrite IH. Qed.

Lemma indexed_app o (l r : list Share) :
  zip (seq o (length (l ++ r))) (l ++ r) =
  zip (seq o (length l)) l ++ zip (seq (o + length l) (length r)) r.
Proof.
  revert o. induction l as [| a l IH]; intros o; simpl.
  - by rewrite Nat.add_0_r.
  - rewrite IH. by replace (S o + length l) with (o + S (length l)) by lia.
Qed.

Lemma basis_loop_spec pre si post :
  NoDup (X <$> pre ++ si :: post) →
  basis_loop (length pre) si (indexed (pre ++ si :: post)) x01 =
  Ok (peval (pbasis (X si) ((X <$> pre) ++ (X <$> post))) x00).
Proof.
  intros Hnd. rewrite fmap_app, fmap_cons in Hnd.
  assert (X si ∉ (X <$> pre) ++ (X <$> post)) as Hni.
  { apply NoDup_app in Hnd as (_ & Hdis & Hnd'). apply NoDup_cons in Hnd' as [Hx _].
    rewrite not_elem_of_app. split; [| done]. intros Hin. apply (Hdis _ Hin). left. }
  unfold indexed. rewrite indexed_app. rewrite basis_loop_skip.
  2: { rewrite Forall_forall. intros [j s] [? Hs]%indexed_elem. simpl. split; [lia |].
       intros Heq. apply Hni, elem_of_app. left. rewrite <- Heq. by apply list_elem_of_fmap_2. }
  simpl. rewrite Nat.eqb_refl, <- (app_nil_r (zip _ post)), basis_loop_skip.
  2: { rewrite Forall_forall. intros [j s] [? Hs]%indexed_elem. simpl. split; [lia |].
       intros Heq. apply Hni, elem_of_app. right. rewrite <- Heq. by apply list_elem_of_fmap_2. }
  simpl. rewrite !indexed_X, pbasis_0. f_equal.
  assert (∀ x l r, lagrange_prod x (l ++ r) = Mul (lagrange_prod x l) (lagrange_prod x r)) as Happ.
  { intros x l r. induction l as [| a l IH]; simpl; [ring |]. rewrite IH. ring. }
  rewrite Happ. ring.
Qed.

(** The points the shares give for one byte of the secret. *)
Definition points (idx : nat) (shares : list Share) : list (byte * byte) :=
  (λ s, (s.(X), default x00 (s.(Y) !! idx))) <$> shares.

Lemma points_fst idx shares : (points idx shares).*1 = X <$> shares.
Proof. unfold points. by rewrite <- list_fmap_compose. Qed.

Lemma value_loop_spec pre post idx value :
  NoDup (X <$> pre ++ post) →
  value_loop (indexed (pre ++ post)) (zip (seq (length pre) (length post)) post) idx value =
  Ok (Add value (peval (pinterp (X <$> pre) (points idx post)) x00)).
Proof.
  revert pre value. induction post as [| si post IH]; intros pre value Hnd; simpl.
  { by rewrite Add_0_r. }
  rewrite basis_loop_spec by done.
  specialize (IH (pre ++ [si])). rewrite <- app_assoc in IH. simpl in IH.
  rewrite length_app in IH. simpl in IH. rewrite Nat.add_1_r in IH.
  rewrite IH by done. f_equal.
  rewrite fmap_app, peval_padd, peval_pscale, points_fst. simpl. ring.
Qed.

Lemma combine_loop_spec shares idxs :
  NoDup (X <$> shares) →
  combine_loop (indexed shares) idxs =
  Ok ((λ idx, peval (pinterp [] (points idx shares)) x00) <$> idxs).
Proof.
  intros Hnd. induction idxs as [| idx idxs IH]; simpl; [done |].
  pose proof (value_loop_spec [] shares idx x00 Hnd) as Hv. simpl in Hv.
  change (zip (seq 0 (length shares)) shares) with (indexed shares) in Hv.
  rewrite Hv, IH, Add_0_l. done.
Qed.

(** What [Combine] accepts. *)
Definition combinable (shares : list Share) : Prop :=
  2 ≤ length shares ∧ NoDup (X <$> shares) ∧ ∃ len, Forall (share_ok len) shares.

Lemma Combine_combinable shares len :
  2 ≤ length shares → NoDup (X <$> shares) → Forall (share_ok len) shares →
  Combine shares = Ok ((λ idx, peval (pinterp [] (points idx shares)) x00) <$> seq 0 len).
Proof.
  intros Hlen Hnd Hok. unfold Combine.
  destruct (length shares <? 2) eqn:H2; [apply Nat.ltb_lt in H2; lia |].
  destruct shares as [| s shares]; [simpl in Hlen; lia |].
  assert (length (Y s) = len) as -> by (apply Forall_cons in Hok as [[_ ?] _]; done).
  assert (check_shares len [] (s :: shares) = None) as ->.
  { apply check_shares_None. split_and!; [done | done |].
    apply Forall_forall. intros ? _. apply not_elem_of_nil. }
  by apply combine_loop_spec.
Qed.

(** ** Shares of a split *)

Lemma share_index_nonzero i : (i < 255) → n2b (N.of_nat (i + 1)) ≠ x00.
Proof.
  intros Hi H. apply (f_equal b2n) in H. rewrite b2n_n2b in H by lia.
  change (b2n x00) with 0%N in H. lia.
Qed.

Lemma share_index_inj i j :
  i < 255 → j < 255 → n2b (N.of_nat (i + 1)) = n2b (N.of_nat (j + 1)) → i = j.
Proof. intros Hi Hj H. apply (f_equal b2n) in H. rewrite !b2n_n2b in H by lia. lia. Qed.

(** A share is determined by its index, which is never zero. *)
Definition share_of (ps : list (list byte)) (x : byte) : Share :=
  mkShare x ((λ p, peval p x) <$> ps).

Lemma Split_elem rand secret n k shares s :
  Split rand secret n k = Ok shares → s ∈ shares →
  ∃ ps, secret_polys rand (Z.to_nat k) secret 0 = Some ps ∧
    s = share_of ps s.(X) ∧ s.(X) ≠ x00.
Proof.
  intros (Hk & _ & ps & Hps & ->)%Split_Ok (i & -> & Hi)%list_elem_of_fmap.
  apply elem_of_seq in Hi. exists ps. split_and!; [done | done |].
  apply share_index_nonzero. lia.
Qed.

Lemma points_agree idx ps chosen p :
  ps !! idx = Some p → Forall (λ s, s = share_of ps s.(X)) chosen →
  NoDup (X <$> chosen) →
  Forall (λ x, peval p x = peval (pinterp [] (points idx chosen)) x) (X <$> chosen).
Proof.
  intros Hp Hch Hnd.
  assert (NoDup ([] ++ (points idx chosen).*1)) as Hnd' by (by rewrite points_fst).
  pose proof (proj1 (Forall_forall _ _) (pinterp_spec [] _ Hnd')) as Hsp.
  apply Forall_fmap, Forall_forall. rewrite Forall_forall in Hch.
  intros s Hs. simpl.
  specialize (Hsp (s.(X), default x00 (s.(Y) !! idx))).
  rewrite Hsp; simpl.
  - rewrite (Hch s Hs). simpl. by rewrite list_lookup_fmap, Hp.
  - apply list_elem_of_fmap. by exists s.
Qed.

(** Interpolating enough shares of the same polynomials gives their values at
    zero. *)
Lemma Combine_share_of ps chosen k :
  Forall (λ p, length p ≤ k) ps → 2 ≤ length chosen → k ≤ length chosen →
  NoDup chosen → Forall (λ s, s = share_of ps s.(X) ∧ s.(X) ≠ x00) chosen →
  Combine chosen = Ok ((λ p, peval p x00) <$> ps).
Proof.
  intros Hps H2 Hk Hnd Hch.
  assert (Forall (λ s, s = share_of ps s.(X)) chosen) as Hsh
    by (eapply Forall_impl; [exact Hch |]; naive_solver).
  assert (NoDup (X <$> chosen)) as HndX.
  { apply NoDup_fmap_2_strong; [| done]. rewrite Forall_forall in Hsh.
    intros s s' Hs Hs' Heq. by rewrite (Hsh s Hs), (Hsh s' Hs'), Heq. }
  rewrite (Combine_combinable chosen (length ps)); [| done | done |].
  - f_equal. apply list_eq. intros idx. rewrite !list_lookup_fmap.
    destruct (ps !! idx) as [p |] eqn:Hp; simpl.
    + rewrite lookup_seq_lt by (by eapply lookup_lt_Some). simpl. f_equal.
      symmetry. apply (peval_agree (X <$> chosen)); [done | by apply (points_agree _ ps) | |].
      * rewrite length_fmap. rewrite Forall_forall in Hps.
        specialize (Hps p (list_elem_of_lookup_2 _ _ _ Hp)). simpl in Hps. lia.
      * rewrite length_pinterp. unfold points. destruct chosen; simpl;
          rewrite ?length_fmap; lia.
    + rewrite lookup_seq_ge; [done | by apply lookup_ge_None].
  - eapply Forall_impl; [exact Hch |]. intros s [Heq Hx]. split; [done |].
    rewrite Heq. simpl. apply length_fmap.
Qed.

Lemma Combine_selection rand secret n k shares chosen :
  Split rand secret n k = Ok shares →
  NoDup chosen → chosen ⊆ shares → (k ≤ Z.of_nat (length chosen))%Z →
  Combine chosen = Ok secret.
Proof.
  intros Hs Hnd Hsub Hk. pose proof (Split_Ok _ _ _ _ _ Hs) as (Hkn & _ & ps & Hps & _).
  pose proof (secret_polys_spec _ _ _ _ _ Hps) as [<- Hlen].
  apply (Combine_share_of ps chosen (Z.to_nat k)); [| lia | lia | done |].
  - eapply Forall_impl; [exact Hlen |]. intros p ->. lia.
  - apply Forall_forall. intros s Hin.
    destruct (Split_elem _ _ _ _ _ s Hs (Hsub _ Hin)) as (ps' & Hps' & ? & ?).
    rewrite Hps in Hps'. by simplify_eq.
Qed.

Lemma secret_polys_total rand k secret i :
  (∀ j, i ≤ j < i + length secret → is_Some (rand j)) →
  is_Some (secret_polys rand k secret i).
Proof.
  revert i. induction secret as [| b secret IH]; intros i Hr; simpl; [done |].
  destruct (Hr i) as [bytes ->]; [simpl; lia |].
  destruct (IH (S i)) as [ps ->]; [intros j Hj; apply Hr; simpl; lia |]. done.
Qed.

Lemma Split_total rand secret n k :
  (2 ≤ k ≤ n ∧ n ≤ 255)%Z → secret ≠ [] →
  (∀ j, j < length secret → is_Some (rand j)) →
  ∃ shares, Split rand secret n k = Ok shares ∧ length shares = Z.to_nat n.
Proof.
  intros Hk Hne Hr. unfold Split.
  destruct (k <? 2)%Z eqn:?, (n <? k)%Z eqn:?, (255 <? n)%Z eqn:?; zbool; try lia.
  destruct (length secret =? 0) eqn:Hs; [by destruct secret |].
  rewrite split_loop_spec.
  2: { apply Forall_fmap, Forall_true. intros i. simpl. by rewrite length_replicate. }
  destruct (secret_polys_total rand (Z.to_nat k) secret 0) as [ps ->].
  { intros j Hj. apply Hr. lia. }
  eexists. split; [done |]. by rewrite !length_fmap, length_seq.
Qed.

(** ** Properties *)

(** C29: for a non-empty secret, a threshold and a share count in range, and a
    random source that does not fail, [Split] produces [n] shares, and any [k]
    or more distinct ones among them, in any order, make [Combine] return
    exactly the secret. *)
Theorem Combine_Split rand secret n k :
  (2 ≤ k ≤ n ∧ n ≤ 255)%Z → secret ≠ [] →
  (∀ j, j < length secret → is_Some (rand j)) →
  ∃ shares, Split rand secret n k = Ok shares ∧ length shares = Z.to_nat n ∧
    ∀ chosen, NoDup chosen → chosen ⊆ shares → (k ≤ Z.of_nat (length chosen))%Z →
      Combine chosen = Ok secret.
Proof.
  intros Hk Hne Hr. destruct (Split_total rand secret n k Hk Hne Hr) as (shares & Hs & Hlen).
  exists shares. split_and!; [done | done |]. intros chosen. by apply Combine_selection with rand n.
Qed.

Lemma Combine_Split_witness :
  ∃ shares, Split (λ i, Some (λ j, x07)) [x41; x42] 5 3 = Ok shares ∧ length shares = 5 ∧
    ∀ chosen, NoDup chosen → chosen ⊆ shares → (3 ≤ Z.of_nat (length chosen))%Z →
      Combine chosen = Ok [x41; x42].
Proof.
  apply (Combine_Split (λ i, Some (λ j, x07)) [x41; x42] 5 3); [lia | done | done].
Defined.

(** ** Secrecy

    The random bytes of a run of [Split] as a table: row [i] is what the [i]-th
    call of [rand.Read] writes into [coeffs[1:]]. *)

Definition source (tape : list (list byte)) (i : nat) : option (nat → byte) :=
  (λ row j, default x00 (row !! j)) <$> tape !! i.

Definition tape_for (k : nat) (secret : list byte) (tape : list (list byte)) : Prop :=
  length tape = length secret ∧ Forall (λ row, length row = k - 1) tape.

Lemma secret_polys_source k secret tape i :
  length tape = i + length secret → Forall (λ row, length row = k - 1) tape →
  secret_polys (source tape) k secret i = Some (zip_with cons secret (drop i tape)).
Proof.
  revert i. induction secret as [| b secret IH]; intros i Hlen Hrows; [done |]. cbn [secret_polys length] in *.
  destruct (lookup_lt_is_Some_2 tape i) as [row Hrow]; [lia |].
  unfold source at 1. rewrite Hrow. cbn [fmap option_fmap option_map]. rewrite IH by (done || lia).
  rewrite (drop_S _ _ _ Hrow). cbn [zip_with]. do 3 f_equal.
  pose proof (proj1 (Forall_lookup _ _) Hrows _ _ Hrow) as Hl. cbn in Hl.
  unfold random_tail. rewrite <- Hl. apply list_eq. intros j. rewrite list_lookup_fmap.
  destruct (row !! j) as [y |] eqn:Hy.
  - rewrite lookup_seq_lt by (by eapply lookup_lt_Some). cbn. by rewrite Hy.
  - rewrite lookup_seq_ge by (by apply lookup_ge_None). done.
Qed.

(** The coefficients that make a polynomial with the constant [s'] agree at
    [xs] with the one of the constant [s] and the coefficients [tail]. *)
Definition shift (xs : list byte) (s s' : byte) (tail : list byte) : list byte :=
  tl (pinterp [] ((x00, s') :: zip xs (peval (s :: tail) <$> xs))).

Section Shift.
Context (xs : list byte) (xs_nodup : NoDup xs) (xs_nonzero : x00 ∉ xs).

Lemma shift_spec s s' tail :
  length (shift xs s s' tail) = length xs ∧
  Forall (λ x, peval (s' :: shift xs s s' tail) x = peval (s :: tail) x) xs.
Proof.
  unfold shift. set (pts := (x00, s') :: zip xs (peval (s :: tail) <$> xs)).
  assert (pts.*1 = x00 :: xs) as Hfst by (unfold pts; cbn; f_equal; apply fst_zip; by rewrite length_fmap).
  assert (NoDup ([] ++ pts.*1)) as Hnd by (rewrite Hfst; by apply NoDup_cons).
  pose proof (pinterp_spec [] pts Hnd) as Hsp.
  assert (length (pinterp [] pts) = S (length xs)) as HL.
  { rewrite length_pinterp. cbn. rewrite length_zip_with, length_fmap. lia. }
  destruct (pinterp [] pts) as [| c t]; [done |]. cbn [tl].
  apply Forall_cons in Hsp as [Hs Hsp]. unfold fst, snd in Hs. rewrite peval_0 in Hs. cbn in Hs. subst c.
  split; [cbn in HL; lia |]. apply Forall_lookup. intros i x Hx. rewrite Forall_lookup in Hsp.
  apply (Hsp i (x, peval (s :: tail) x)), lookup_zip_with_Some. exists x, (peval (s :: tail) x).
  by rewrite list_lookup_fmap, Hx.
Qed.

(** Going to another constant and back gives the coefficients again. *)
Lemma shift_back s s' tail : length tail = length xs → shift xs s' s (shift xs s s' tail) = tail.
Proof.
  intros Hlen. destruct (shift_spec s s' tail) as [Hl1 He1]. destruct (shift_spec s' s (shift xs s s' tail)) as [Hl2 He2].
  assert (s :: shift xs s' s (shift xs s s' tail) = s :: tail) as [=]; [| done].
  apply (coeffs_agree (x00 :: xs)); [by apply NoDup_cons | | cbn in *; lia | cbn in *; lia].
  constructor; [by rewrite !peval_0 |]. apply Forall_lookup. intros i x Hx. rewrite Forall_lookup in He1, He2.
  by rewrite (He2 i x Hx), (He1 i x Hx).
Qed.

(** The same for a whole table, row by row. *)
Definition shift_tape (secret secret' : list byte) (tape : list (list byte)) : list (list byte) :=
  zip_with (λ '(s, s') row, shift xs s s' row) (zip secret secret') tape.

Lemma shift_tape_for k secret secret' tape :
  length xs = k - 1 → length secret' = length secret → tape_for k secret tape →
  tape_for k secret (shift_tape secret secret' tape).
Proof.
  intros Hxs Hlen [Hl _]. split; [unfold shift_tape; rewrite !length_zip_with; lia |].
  apply Forall_lookup. intros i row ([s s'] & r & -> & _)%lookup_zip_with_Some. rewrite <- Hxs. apply shift_spec.
Qed.

Lemma shift_tape_back k secret secret' tape :
  length xs = k - 1 → length secret' = length secret → tape_for k secret tape →
  shift_tape secret' secret (shift_tape secret secret' tape) = tape.
Proof.
  intros Hxs Hlen [Hl Hrows]. revert secret secret' Hl Hlen.
  induction Hrows as [| row tape Hrow _ IH]; intros [| s secret] [| s' secret'] Hl Hlen; try done.
  unfold shift_tape in *. cbn in *. rewrite IH by lia. f_equal. apply shift_back. lia.
Qed.

Lemma shift_tape_evals secret secret' tape x :
  length secret' = length secret → length tape = length secret → x ∈ xs →
  ((λ p, peval p x) <$> zip_with cons secret' (shift_tape secret secret' tape))
  = ((λ p, peval p x) <$> zip_with cons secret tape).
Proof.
  intros Hlen Hl Hx. revert secret secret' Hl Hlen.
  induction tape as [| row tape IH]; intros [| s secret] [| s' secret'] Hl Hlen; try done.
  unfold shift_tape in *. cbn [zip zip_with] in *. rewrite !fmap_cons. cbn in Hl, Hlen. rewrite IH by lia. f_equal.
  destruct (shift_spec s s' row) as [_ He]. rewrite Forall_forall in He. by apply He.
Qed.
End Shift.

(** Fewer than [k] positions are among some [k - 1] of the [n]. *)
Lemma coalition_extends (n k : nat) (coalition : list nat) :
  1 ≤ k ≤ n → length coalition < k →
  ∃ pos, NoDup pos ∧ length pos = k - 1 ∧ (∀ i, i ∈ pos → i < n) ∧ ∀ i, i ∈ coalition → i < n → i ∈ pos.
Proof.
  intros Hk Hc. set (A := filter (λ i, i ∈ coalition) (seq 0 n)). set (B := filter (λ i, i ∉ coalition) (seq 0 n)).
  assert (NoDup (seq 0 n)) as Hnd by apply NoDup_seq.
  assert (A ++ B ≡ₚ seq 0 n) as HP.
  { unfold A, B. clear. induction (seq 0 n) as [| i l IH]; [done |]. rewrite !filter_cons.
    destruct (decide (i ∈ coalition)), (decide (i ∉ coalition)); try tauto; cbn.
    - by rewrite IH.
    - by rewrite <- Permutation_middle, IH. }
  assert (length A ≤ length coalition) as HA.
  { apply submseteq_length, NoDup_submseteq; [by apply NoDup_filter |]. by intros i [? _]%list_elem_of_filter. }
  pose proof (Permutation_length HP) as HL. rewrite length_seq in HL.
  exists (take (k - 1) (A ++ B)). split; [| split; [| split]].
  - apply (sublist_NoDup _ (A ++ B)); [by rewrite HP | apply sublist_take].
  - rewrite length_take. lia.
  - intros i Hi%(subseteq_take (k - 1)). rewrite HP in Hi. apply elem_of_seq in Hi. lia.
  - intros i Hi Hlt. rewrite take_app_ge by lia. apply elem_of_app. left.
    apply list_elem_of_filter. split; [done |]. apply elem_of_seq. lia.
Qed.

Lemma Split_source tape secret n k :
  (2 ≤ k ≤ n ∧ n ≤ 255)%Z → secret ≠ [] → tape_for (Z.to_nat k) secret tape →
  Split (source tape) secret n k
  = Ok ((λ i, share_of (zip_with cons secret tape) (n2b (N.of_nat (i + 1)))) <$> seq 0 (Z.to_nat n)).
Proof.
  intros Hk Hne [Hl Hrows]. destruct (Split_total (source tape) secret n k) as (shares & Hs & _); [done | done | |].
  { intros j Hj. unfold source. destruct (lookup_lt_is_Some_2 tape j) as [row ->]; [lia | done]. }
  rewrite Hs. apply Split_Ok in Hs as (_ & _ & ps & Hps & ->).
  rewrite secret_polys_source in Hps by done. rewrite drop_0 in Hps. by injection Hps as <-.
Qed.

(** C34: fewer than [k] shares of [Split] say nothing about the secret.  For
    any two secrets of the same length and any fewer than [k] positions there
    is a bijection of the tables of random bytes such that the shares at these
    positions, cut from the first secret with one table, are those cut from the
    second secret with the table it is mapped to: under uniform random bytes
    both secrets give the same shares equally often. *)
Theorem Split_secrecy secret secret' n k coalition :
  (2 ≤ k ≤ n ∧ n ≤ 255)%Z → secret ≠ [] → length secret' = length secret → (Z.of_nat (length coalition) < k)%Z →
  ∃ to from : list (list byte) → list (list byte), ∀ tape, tape_for (Z.to_nat k) secret tape →
    tape_for (Z.to_nat k) secret (to tape) ∧ tape_for (Z.to_nat k) secret (from tape) ∧
    from (to tape) = tape ∧ to (from tape) = tape ∧
    ∃ shares shares', Split (source tape) secret n k = Ok shares ∧ Split (source (to tape)) secret' n k = Ok shares' ∧
      ∀ i, i ∈ coalition → shares !! i = shares' !! i.
Proof.
  intros Hk Hne Hlen Hc. destruct (coalition_extends (Z.to_nat n) (Z.to_nat k) coalition) as (pos & Hnd & Hpl & Hlt & Hcov); [lia.. |].
  set (xs := (λ i, n2b (N.of_nat (i + 1))) <$> pos).
  assert (NoDup xs) as Hx1.
  { apply NoDup_fmap_2_strong; [| done]. intros i j Hi%Hlt Hj%Hlt. apply share_index_inj; lia. }
  assert (x00 ∉ xs) as Hx2.
  { intros (i & E & Hi%Hlt)%list_elem_of_fmap. symmetry in E. revert E. apply share_index_nonzero. lia. }
  assert (length xs = Z.to_nat k - 1) as Hx3 by (unfold xs; by rewrite length_fmap).
  assert (∀ t, tape_for (Z.to_nat k) secret t ↔ tape_for (Z.to_nat k) secret' t) as Heq by (intros t; unfold tape_for; by rewrite Hlen).
  exists (shift_tape xs secret secret'), (shift_tape xs secret' secret). intros tape Ht.
  pose proof (shift_tape_for xs Hx1 Hx2 _ secret secret' tape Hx3 Hlen Ht) as Ht1.
  split; [done |]. split; [apply Heq, shift_tape_for; try done; by apply Heq |].
  split; [by eapply shift_tape_back |]. split; [eapply shift_tape_back; try done; by apply Heq |].
  eexists _, _. split; [by apply Split_source |]. split; [apply Split_source; [done | by destruct secret', secret | by apply Heq] |].
  intros i Hi. rewrite !list_lookup_fmap. destruct (decide (i < Z.to_nat n)) as [Hin | Hin].
  - rewrite lookup_seq_lt by lia. cbn [fmap option_fmap option_map]. unfold share_of. do 2 f_equal. symmetry.
    apply shift_tape_evals; [done | done | done | by destruct Ht |].
    apply list_elem_of_fmap. exists i. split; [done | by apply Hcov].
  - rewrite lookup_seq_ge by lia. done.
Qed.

(** Two shares of a 3-of-5 split: the same with another secret. *)
Lemma Split_secrecy_witness :
  ∃ tape shares shares', Split (source [[x07; x09]; [x01; x02]]) [x41; x42] 5 3 = Ok shares ∧
    Split (source tape) [x58; x59] 5 3 = Ok shares' ∧ shares !! 0 = shares' !! 0 ∧ shares !! 3 = shares' !! 3.
Proof.
  destruct (Split_secrecy [x41; x42] [x58; x59] 5 3 [0; 3]) as (to & from & H); [lia | done | done | done |].
  destruct (H [[x07; x09]; [x01; x02]]) as (_ & _ & _ & _ & shares & shares' & H1 & H2 & H3).
  { split; [done |]. repeat constructor. }
  exists (to [[x07; x09]; [x01; x02]]), shares, shares'. split; [exact H1 |]. split; [exact H2 |].
  split; apply H3; [left | right; left].
Defined.

(** [Combine] succeeds exactly on two or more shares with non-zero,
    pairwise distinct indices and equally long data, and otherwise reports one
    of its four validation errors: the division error of the field never
    surfaces. *)
Theorem Combine_validation shares :
  (combinable shares ∧ is_ok (Combine shares) = true) ∨
  (¬ combinable shares ∧
   (Combine shares = Err ErrNotEnoughShares ∨ Combine shares = Err ErrZeroShareIndex ∨
    Combine shares = Err ErrMismatchedShareLen ∨ Combine shares = Err ErrDuplicateShareIndex)).
Proof.
  destruct (length shares <? 2) eqn:H2.
  { right. split.
    - intros (Hlen & _). apply Nat.ltb_lt in H2. lia.
    - unfold Combine. rewrite H2. auto. }
  set (len := match shares with s :: _ => length s.(Y) | [] => 0 end).
  destruct (check_shares len [] shares) as [e |] eqn:Hc.
  - right. split.
    + intros (_ & Hnd & len' & Hok).
      assert (check_shares len [] shares = None) as Hn; [| congruence].
      apply check_shares_None. split_and!; [| done |].
      * unfold len. destruct shares as [| s shares]; [done |].
        apply Forall_cons in Hok as [[Hx Hl] Hok]. rewrite Hl. by constructor.
      * apply Forall_forall. intros ? _. apply not_elem_of_nil.
    + unfold Combine. rewrite H2. fold len. rewrite Hc.
      apply check_shares_error in Hc. naive_solver.
  - left. apply Nat.ltb_ge in H2.
    pose proof (proj1 (check_shares_None _ _ _) Hc) as (Hok & Hnd & _).
    split; [split_and!; eauto |]. by rewrite (Combine_combinable _ len).
Qed.

(** ** Quorums *)

Lemma quorum_bounds n :
  (0 ≤ n)%Z →
  (3 ≤ AdaptiveThreshold n ∧ WriteQuorum n ≤ n ∧ 2 * n ≤ 3 * WriteQuorum n ∧
   (4 ≤ n → AdaptiveThreshold n ≤ WriteQuorum n) ∧
   (n ≤ 3 → WriteQuorum n < AdaptiveThreshold n))%Z.
Proof.
  intros Hn. unfold AdaptiveThreshold, WriteQuorum.
  destruct (Z.quot n 3 <? 3)%Z eqn:H1, (n =? 0)%Z eqn:H2, (n <=? 2)%Z eqn:H3; zbool;
    rewrite ?Z.quot_div_nonneg in * by lia; Z.div_mod_to_equations; lia.
Qed.

(** The write quorum is the least number of guardians that is at least two
    thirds of them, and it reaches the reconstruction threshold exactly from
    four guardians on: with three guardians a push can be acknowledged by two
    while a pull needs three shares. *)
Theorem write_quorum_vs_threshold n :
  (1 ≤ n)%Z →
  (2 * n ≤ 3 * WriteQuorum n ∧ 3 * (WriteQuorum n - 1) < 2 * n ∧ WriteQuorum n ≤ n ∧
   (AdaptiveThreshold n ≤ WriteQuorum n ↔ 4 ≤ n))%Z.
Proof.
  intros Hn. destruct (quorum_bounds n) as (_ & Hle & Hge & H4 & H3); [lia |].
  split; [done |]. split; [| split; [done | split; lia]].
  unfold WriteQuorum. destruct (n =? 0)%Z eqn:H0, (n <=? 2)%Z eqn:H2; zbool;
    rewrite ?Z.quot_div_nonneg by lia; Z.div_mod_to_equations; lia.
Qed.

Lemma write_quorum_vs_threshold_witness :
  (WriteQuorum 7 = 5 ∧ AdaptiveThreshold 7 ≤ WriteQuorum 7)%Z.
Proof.
  split; [reflexivity |]. apply (write_quorum_vs_threshold 7); lia.
Defined.
