(* ===== verification/Vault.v ===== *)
(** * Vault proxy handlers ([core/pkg/gateway/handlers/vault])

    [HandlePush] splits an envelope over the guardians of the cluster and
    [HandlePull] reconstructs it.  JSON and base64 are Go library codecs and
    stand as parameters; so does the verdict of the per-identity rate limiter
    and what each guardian answers.  A handler returns its HTTP reply and, for
    a push, the requests it sent, in guardian order. *)

From Stdlib Require Import NArith ZArith Lia Strings.Byte Ascii String.
From stdpp Require Import base tactics list sets strings.
From S2P Require Import Prelude GoStrings GF256 BytePoly Shamir.

Definition MethodPost : string := "POST".
Definition maxPushBodySize : nat := 1024 * 1024.
Definition maxPullBodySize : nat := 4 * 1024.
Definition VaultGuardianPort : Z := 7500.

Record PushRequest := mkPushRequest {
  push_Identity : string; push_Envelope : string; push_Version : Z }.
Record PullRequest := mkPullRequest { pull_Identity : string }.

Record PushResponse := mkPushResponse {
  Status : string; AckCount : Z; Total : Z; Quorum : Z; Threshold : Z }.
Record PullResponse := mkPullResponse {
  Envelope : string; Collected : Z; pull_Threshold : Z }.

Record guardian := mkGuardian { IP : string; Port : Z }.

(** The request one guardian receives on a push. *)
Record guardianPushRequest := mkGuardianPush {
  gp_Identity : string; gp_Share : string; gp_Version : Z }.

Inductive vault_reply :=
| ReplyError (status : Z) (message : string)
| ReplyPush (r : PushResponse)
| ReplyPull (r : PullResponse).

Inductive DiscoverError := ErrGuardianQuery | ErrNoActiveGuardians | ErrNoGuardianIPs.

(** A column value of a row: a Go [interface{}] that is a string or not. *)
Definition getString (v : option string) : string := default EmptyString v.

(** [rows] is the outcome of the guardian query: [None] for an error. *)
Definition discoverGuardians (rows : option (list (list (option string)))) :
    result DiscoverError (list guardian) :=
  match rows with
  | None => Err ErrGuardianQuery
  | Some rows =>
      if length rows =? 0 then Err ErrNoActiveGuardians
      else
        let guardians := omap (λ row,
          match row with
          | [] => None
          | v :: _ => let ip := getString v in
                      if String.eqb ip EmptyString then None
                      else Some (mkGuardian ip VaultGuardianPort)
          end) rows in
        if length guardians =? 0 then Err ErrNoGuardianIPs else Ok guardians
  end.

Definition is_hex_digit (a : ascii) : bool :=
  let c := N_of_ascii a in
  ((48 <=? c) && (c <=? 57) || (97 <=? c) && (c <=? 102) || (65 <=? c) && (c <=? 70))%N.

Fixpoint all_chars (f : ascii → bool) (s : string) : bool :=
  match s with
  | EmptyString => true
  | String a s' => f a && all_chars f s'
  end.

Definition isValidIdentity (identity : string) : bool :=
  if negb (str_len identity =? 64) then false else all_chars is_hex_digit identity.

(** [x:1byte][y:rest], the bytes a guardian stores. *)
Definition shareBytes (s : Share) : list byte := s.(X) :: s.(Y).

(** An HTTP status a guardian answers with; [None] is a transport error. *)
Definition acknowledged (status : option Z) : bool :=
  match status with
  | Some code => (200 <=? code)%Z && (code <? 300)%Z
  | None => false
  end.

Section Handlers.
Context (json_push : list byte → option PushRequest).
Context (json_pull : list byte → option PullRequest).
Context (base64_encode : list byte → string) (base64_decode : string → option (list byte)).

(** [acks i] is the status of guardian [i]'s answer. *)
Definition HandlePush (rand : nat → option (nat → byte)) (method : string)
    (body : option (list byte)) (allowPush : string → bool)
    (rows : option (list (list (option string)))) (acks : nat → option Z) :
    vault_reply * list (guardian * guardianPushRequest) :=
  if negb (String.eqb method MethodPost) then (ReplyError 405 "method not allowed", [])
  else match body with
  | None => (ReplyError 400 "failed to read request body", [])
  | Some body =>
  match json_push (take maxPushBodySize body) with
  | None => (ReplyError 400 "invalid JSON", [])
  | Some req =>
  if negb (isValidIdentity req.(push_Identity))
  then (ReplyError 400 "identity must be 64 hex characters", [])
  else match base64_decode req.(push_Envelope) with
  | None => (ReplyError 400 "invalid base64 envelope", [])
  | Some envelopeBytes =>
  if length envelopeBytes =? 0 then (ReplyError 400 "envelope must not be empty", [])
  else if negb (allowPush req.(push_Identity))
  then (ReplyError 429 "push rate limit exceeded for this identity", [])
  else match discoverGuardians rows with
  | Err _ => (ReplyError 503 "no guardian nodes available", [])
  | Ok guardians =>
  let n := Z.of_nat (length guardians) in
  let k := AdaptiveThreshold n in
  let quorum := WriteQuorum n in
  match Split rand envelopeBytes n k with
  | Err _ => (ReplyError 500 "failed to split envelope", [])
  | Ok shares =>
  let sent := zip_with (λ g share,
      (g, mkGuardianPush req.(push_Identity) (base64_encode (shareBytes share))
            req.(push_Version))) guardians shares in
  let ack := Z.of_nat (length (List.filter (λ i, acknowledged (acks i))
                                 (seq 0 (length guardians)))) in
  let status := if (ack <? quorum)%Z then "partial" else "ok" in
  (ReplyPush (mkPushResponse status ack n quorum k), sent)
  end end end end end.

(** A guardian's answer to a pull: a status and, when the body is the expected
    JSON, its share field. *)
Definition pull_answer : Type := option (Z * option string).

Definition collect_share (a : pull_answer) : option Share :=
  match a with
  | None => None
  | Some (code, decoded) =>
      if (code <? 200)%Z || (300 <=? code)%Z then None
      else match decoded with
      | None => None
      | Some s =>
          match base64_decode s with
          | None => None
          | Some bytes =>
              if length bytes <? 2 then None
              else match bytes with
                   | x :: y => Some (mkShare x y)
                   | [] => None
                   end
          end
      end
  end.

Definition HandlePull (method : string) (body : option (list byte))
    (allowPull : string → bool) (rows : option (list (list (option string))))
    (answers : nat → pull_answer) : vault_reply :=
  if negb (String.eqb method MethodPost) then ReplyError 405 "method not allowed"
  else match body with
  | None => ReplyError 400 "failed to read request body"
  | Some body =>
  match json_pull (take maxPullBodySize body) with
  | None => ReplyError 400 "invalid JSON"
  | Some req =>
  if negb (isValidIdentity req.(pull_Identity))
  then ReplyError 400 "identity must be 64 hex characters"
  else if negb (allowPull req.(pull_Identity))
  then ReplyError 429 "pull rate limit exceeded for this identity"
  else match discoverGuardians rows with
  | Err _ => ReplyError 503 "no guardian nodes available"
  | Ok guardians =>
  let n := length guardians in
  let k := AdaptiveThreshold (Z.of_nat n) in
  let shares := omap (λ i, collect_share (answers i)) (seq 0 n) in
  if (Z.of_nat (length shares) <? k)%Z then ReplyError 503 "not enough shares"
  else match Combine (take (Z.to_nat k) shares) with
  | Err _ => ReplyError 500 "failed to reconstruct envelope"
  | Ok envelope =>
      ReplyPull (mkPullResponse (base64_encode envelope) (Z.of_nat (length shares)) k)
  end end end end.

(** ** Lemmas *)

(** What a successful push did. *)
Lemma HandlePush_reply rand method body allowPush rows acks r sent :
  HandlePush rand method body allowPush rows acks = (ReplyPush r, sent) →
  ∃ req env guardians shares,
    (∃ b, body = Some b ∧ json_push (take maxPushBodySize b) = Some req) ∧
    base64_decode req.(push_Envelope) = Some env ∧
    discoverGuardians rows = Ok guardians ∧
    Split rand env (Z.of_nat (length guardians))
      (AdaptiveThreshold (Z.of_nat (length guardians))) = Ok shares ∧
    r = mkPushResponse
          (if (AckCount r <? WriteQuorum (Z.of_nat (length guardians)))%Z
           then "partial" else "ok")
          (Z.of_nat (length (List.filter (λ i, acknowledged (acks i))
                               (seq 0 (length guardians)))))
          (Z.of_nat (length guardians)) (WriteQuorum (Z.of_nat (length guardians)))
          (AdaptiveThreshold (Z.of_nat (length guardians))) ∧
    (gp_Share ∘ snd) <$> sent = (base64_encode ∘ shareBytes) <$> shares ∧
    length shares = length guardians.
Proof.
  unfold HandlePush. intros H.
  destruct (negb (String.eqb method MethodPost)); [done |].
  destruct body as [b |]; [| done].
  destruct (json_push _) as [req |] eqn:Hreq; [| done].
  destruct (negb (isValidIdentity _)); [done |].
  destruct (base64_decode _) as [env |] eqn:Henv; [| done].
  destruct (length env =? 0); [done |].
  destruct (negb (allowPush _)); [done |].
  destruct (discoverGuardians rows) as [gs |] eqn:Hgs; [| done].
  destruct (Split _ _ _ _) as [shares |] eqn:Hs; [| done].
  injection H as <- <-.
  assert (length shares = length gs) as Hlen.
  { apply Split_Ok in Hs as (_ & _ & ps & _ & ->).
    by rewrite length_fmap, length_seq, Nat2Z.id. }
  exists req, env, gs, shares. split_and!; try done; [by exists b |].
  clear -Hlen. revert gs Hlen. induction shares as [| s shares IH]; intros [| g gs]; try done.
  intros [= Hlen]. simpl. f_equal. by apply IH.
Qed.

Hypothesis base64_roundtrip : ∀ bytes, base64_decode (base64_encode bytes) = Some bytes.

Lemma collect_share_sent (s : Share) code :
  s.(Y) ≠ [] → (200 ≤ code < 300)%Z →
  collect_share (Some (code, Some (base64_encode (shareBytes s)))) = Some s.
Proof.
  intros Hy Hc. simpl.
  destruct ((code <? 200)%Z || (300 <=? code)%Z) eqn:Hb.
  { apply orb_true_iff in Hb as [?%Z.ltb_lt | ?%Z.leb_le]; lia. }
  rewrite base64_roundtrip. destruct s as [x [| y ys]]; done.
Qed.

End Handlers.

(** ** Admission and honest guardians *)

Definition pull_admitted (json_pull : list byte → option PullRequest) (method : string)
    (body : option (list byte)) (allowPull : string → bool) : Prop :=
  method = MethodPost ∧ ∃ b req, body = Some b ∧
    json_pull (take maxPullBodySize b) = Some req ∧
    isValidIdentity req.(pull_Identity) = true ∧ allowPull req.(pull_Identity) = true.

(** Guardian [i] fails, or answers with the share it was sent. *)
Definition honest_answers (sent : list (guardian * guardianPushRequest))
    (answers : nat → pull_answer) : Prop :=
  ∀ i g req, sent !! i = Some (g, req) →
    answers i = None ∨
    ∃ code payload, answers i = Some (code, payload) ∧
      (payload = None ∨ payload = Some req.(gp_Share)).

(** Guardian [i] answers with a share. *)
Definition answers_share (a : pull_answer) : bool :=
  match a with
  | Some (code, Some _) => acknowledged (Some code)
  | _ => false
  end.

Lemma omap_seq_sublist {A : Type} (f : nat → option A) (l : list A) (o : nat) :
  (∀ i x, l !! i = Some x → f (o + i) = None ∨ f (o + i) = Some x) →
  omap f (seq o (length l)) `sublist_of` l.
Proof.
  revert o. induction l as [| x l IH]; intros o Hf; simpl; [constructor |].
  assert (omap f (seq (S o) (length l)) `sublist_of` l) as Hs.
  { apply IH. intros i y Hy. replace (S o + i) with (o + S i) by lia. by apply Hf. }
  destruct (Hf 0 x eq_refl) as [H | H]; rewrite Nat.add_0_r in H; rewrite H.
  - by constructor.
  - by constructor.
Qed.

Lemma omap_seq_length {A : Type} (f : nat → option A) (P : nat → bool) (l : list nat) :
  (∀ i, i ∈ l → P i = true → is_Some (f i)) →
  length (List.filter P l) ≤ length (omap f l).
Proof.
  induction l as [| i l IH]; intros Hf; [done |].
  change (omap f (i :: l))
    with (match f i with Some y => y :: omap f l | None => omap f l end).
  assert (length (List.filter P l) ≤ length (omap f l)) as Hl by (apply IH; set_solver).
  simpl List.filter. destruct (P i) eqn:HP.
  - destruct (Hf i ltac:(left) HP) as [y ->]. simpl. lia.
  - destruct (f i); simpl; lia.
Qed.

Lemma filter_length_mono (P Q : nat → bool) (l : list nat) :
  (∀ i, P i = true → Q i = true) →
  length (List.filter P l) ≤ length (List.filter Q l).
Proof.
  intros H. induction l as [| i l IH]; simpl; [done |].
  specialize (H i). destruct (P i), (Q i); simpl; lia.
Qed.

Lemma Split_NoDup rand secret n k shares :
  Split rand secret n k = Ok shares → NoDup shares.
Proof.
  intros (Hk & _ & ps & _ & ->)%Split_Ok.
  apply NoDup_fmap_2_strong; [| apply NoDup_seq].
  intros i j Hi%elem_of_seq Hj%elem_of_seq [= Hij _].
  apply share_index_inj; [lia | lia | done].
Qed.

Lemma Split_data rand secret n k shares :
  Split rand secret n k = Ok shares → Forall (λ s, s.(Y) ≠ []) shares.
Proof.
  intros Hs. apply Split_Ok in Hs as (_ & Hne & ps & Hps & ->).
  pose proof (secret_polys_spec _ _ _ _ _ Hps) as [<- _].
  apply Forall_fmap, Forall_true. intros i. simpl. by destruct ps.
Qed.

(** Collecting honest answers yields a selection of the shares, one for each
    guardian that answers with one. *)
Lemma collect_honest b64 b64d (shares : list Share) sent answers :
  (∀ bytes, b64d (b64 bytes) = Some bytes) →
  Forall (λ s, s.(Y) ≠ []) shares →
  (gp_Share ∘ snd) <$> sent = (b64 ∘ shareBytes) <$> shares →
  honest_answers sent answers →
  let got := omap (λ i, collect_share b64d (answers i)) (seq 0 (length shares)) in
  got `sublist_of` shares ∧
  length (List.filter (λ i, answers_share (answers i)) (seq 0 (length shares))) ≤ length got.
Proof.
  intros Hrt Hy Hsent Hhon got.
  assert (∀ i s, shares !! i = Some s →
    (answers_share (answers i) = false ∧ collect_share b64d (answers i) = None) ∨
    collect_share b64d (answers i) = Some s) as Hone.
  { intros i s Hs.
    assert (((gp_Share ∘ snd) <$> sent) !! i = Some (b64 (shareBytes s))) as Hi
      by (by rewrite Hsent, list_lookup_fmap, Hs).
    rewrite list_lookup_fmap in Hi.
    destruct (sent !! i) as [[g req] |] eqn:Hg; [| done]. simpl in Hi.
    injection Hi as Hi. rewrite Forall_lookup in Hy.
    destruct (Hhon i g req Hg) as [-> | (code & payload & -> & [-> | ->])];
      [by left | left; simpl; by destruct (_ || _) |].
    rewrite Hi. simpl.
    destruct ((code <? 200)%Z || (300 <=? code)%Z) eqn:Hc.
    - left. split; [| done]. destruct (200 <=? code)%Z eqn:?, (code <? 300)%Z eqn:?; zbool;
        apply orb_true_iff in Hc as [Hc | Hc]; zbool; try lia; done.
    - right. rewrite Hrt. specialize (Hy i s Hs). by destruct s as [x [| y ys]]. }
  split.
  - apply omap_seq_sublist. intros i s Hs. destruct (Hone i s Hs) as [[_ ?] | ?]; auto.
  - apply omap_seq_length. intros i Hi%elem_of_seq Ha.
    destruct (lookup_lt_is_Some_2 shares i ltac:(lia)) as [s Hs].
    destruct (Hone i s Hs) as [[? _] | ->]; [congruence | done].
Qed.

(** The reply of a pull whose guardians are honest and numerous enough. *)
Lemma HandlePull_honest json_push json_pull b64 b64d rand
    method body allowPush rows acks r sent method' body' allowPull rows' answers guardians' :
  (∀ bytes, b64d (b64 bytes) = Some bytes) →
  HandlePush json_push b64 b64d rand method body allowPush rows acks = (ReplyPush r, sent) →
  pull_admitted json_pull method' body' allowPull →
  discoverGuardians rows' = Ok guardians' →
  Z.of_nat (length guardians') = Total r →
  honest_answers sent answers →
  (Threshold r ≤ Z.of_nat (length (List.filter (λ i, answers_share (answers i))
                                     (seq 0 (length guardians')))))%Z →
  ∃ req env collected,
    (∃ b, body = Some b ∧ json_push (take maxPushBodySize b) = Some req) ∧
    b64d req.(push_Envelope) = Some env ∧
    HandlePull json_pull b64 b64d method' body' allowPull rows' answers =
    ReplyPull (mkPullResponse (b64 env) collected (Threshold r)).
Proof.
  intros Hrt Hpush (-> & b' & req' & -> & Hj & Hid & Hal) Hg Htot Hhon Hthr.
  apply HandlePush_reply in Hpush as
    (req & env & gs & shares & Hb & Henv & _ & Hs & Hr & Hsent & Hlen).
  rewrite Hr in Htot, Hthr. simpl in Htot, Hthr. apply Nat2Z.inj in Htot.
  exists req, env. unfold HandlePull. simpl. rewrite Hj, Hid, Hal, Hg. simpl.
  rewrite Htot in Hthr |- *. rewrite <- Hlen in Hthr |- *.
  pose proof (collect_honest b64 b64d shares sent answers Hrt (Split_data _ _ _ _ _ Hs)
    Hsent Hhon) as [Hsub Hcount].
  set (got := omap _ _) in *. exists (Z.of_nat (length got)).
  split; [done |]. split; [done |].
  rewrite Hlen in Hthr, Hcount |- *. set (k := AdaptiveThreshold (Z.of_nat (length gs))) in *.
  assert ((Z.of_nat (length got) <? k)%Z = false) as -> by (apply Z.ltb_ge; lia).
  assert (take (Z.to_nat k) got `sublist_of` shares) as Htk
    by (etrans; [apply sublist_take | done]).
  rewrite (Combine_selection rand env (Z.of_nat (length gs)) k shares).
  - by rewrite Hr.
  - done.
  - eapply sublist_NoDup; [| exact Htk]. by eapply Split_NoDup.
  - intros s Hin. by eapply elem_of_sublist.
  - rewrite length_take. apply Split_Ok in Hs as ((? & ?) & _). lia.
Qed.

(** A concrete codec and a concrete cluster, for the examples below. *)
Definition demo_b64 (l : list byte) : string := string_of_list_byte l.
Definition demo_b64d (s : string) : option (list byte) := Some (list_byte_of_string s).
Definition demo_identity : string :=
  "00112233445566778899aabbccddeeff00112233445566778899AABBCCDDEEFF".
Definition demo_json_push (b : list byte) : option PushRequest :=
  Some (mkPushRequest demo_identity "an envelope" 1).
Definition demo_json_pull (b : list byte) : option PullRequest :=
  Some (mkPullRequest demo_identity).
Definition demo_rand (i : nat) : option (nat → byte) :=
  Some (λ j, n2b (N.of_nat (17 * i + 31 * j + 5))).
Definition demo_rows (n : nat) : option (list (list (option string))) :=
  Some (replicate n [Some "10.0.0.1"]).

Definition demo_push (n : nat) (acks : nat → option Z) :
    vault_reply * list (guardian * guardianPushRequest) :=
  HandlePush demo_json_push demo_b64 demo_b64d demo_rand MethodPost (Some []) (λ _, true)
    (demo_rows n) acks.
(** The first [m] guardians hand back what they were sent. *)
Definition demo_answers (n m i : nat) : pull_answer :=
  if i <? m then
    match (demo_push n (λ _, Some 200%Z)).2 !! i with
    | Some (_, req) => Some (200%Z, Some req.(gp_Share))
    | None => None
    end
  else None.
Definition demo_pull (n : nat) (answers : nat → pull_answer) : vault_reply :=
  HandlePull demo_json_pull demo_b64 demo_b64d MethodPost (Some []) (λ _, true)
    (demo_rows n) answers.

Lemma demo_b64_roundtrip bytes : demo_b64d (demo_b64 bytes) = Some bytes.
Proof. unfold demo_b64d, demo_b64. by rewrite list_byte_of_string_of_list_byte. Qed.

Lemma demo_pull_admitted : pull_admitted demo_json_pull MethodPost (Some []) (λ _, true).
Proof. split; [done |]. by exists [], (mkPullRequest demo_identity). Qed.

Lemma demo_answers_honest n m acks :
  honest_answers (demo_push n acks).2 (demo_answers n m).
Proof.
  assert ((demo_push n acks).2 = (demo_push n (λ _, Some 200%Z)).2) as ->.
  { unfold demo_push, HandlePush. simpl. by repeat case_match. }
  intros i g req H. unfold demo_answers. rewrite H.
  destruct (i <? m); [right | by left]. eauto 10.
Qed.

(** ** Properties *)

(** C33: an envelope survives the vault: after a push over [n] guardians, a
    pull over the same number of guardians, each of which fails or returns
    what it was sent, answers with the pushed envelope as soon as at least the
    threshold of them answer with a share. *)
Theorem vault_roundtrip json_push json_pull b64 b64d rand
    method body allowPush rows acks r sent method' body' allowPull rows' answers guardians' :
  (∀ bytes, b64d (b64 bytes) = Some bytes) →
  HandlePush json_push b64 b64d rand method body allowPush rows acks = (ReplyPush r, sent) →
  pull_admitted json_pull method' body' allowPull →
  discoverGuardians rows' = Ok guardians' →
  Z.of_nat (length guardians') = Total r →
  honest_answers sent answers →
  (Threshold r ≤ Z.of_nat (length (List.filter (λ i, answers_share (answers i))
                                     (seq 0 (length guardians')))))%Z →
  ∃ req env collected,
    (∃ b, body = Some b ∧ json_push (take maxPushBodySize b) = Some req) ∧
    b64d req.(push_Envelope) = Some env ∧
    HandlePull json_pull b64 b64d method' body' allowPull rows' answers =
    ReplyPull (mkPullResponse (b64 env) collected (Threshold r)).
Proof. intros. by eapply HandlePull_honest. Qed.

Lemma vault_roundtrip_witness :
  ∃ collected, demo_pull 5 (demo_answers 5 3) =
    ReplyPull (mkPullResponse "an envelope" collected 3).
Proof.
  destruct (vault_roundtrip demo_json_push demo_json_pull demo_b64 demo_b64d demo_rand
    MethodPost (Some []) (λ _, true) (demo_rows 5) (λ _, Some 200%Z)
    (mkPushResponse "ok" 5 5 4 3) (demo_push 5 (λ _, Some 200%Z)).2
    MethodPost (Some []) (λ _, true) (demo_rows 5) (demo_answers 5 3)
    (replicate 5 (mkGuardian "10.0.0.1" 7500)))
    as (req & env & c & (b & Hb & Hreq) & Henv & Hpull).
  - apply demo_b64_roundtrip.
  - vm_compute. reflexivity.
  - apply demo_pull_admitted.
  - reflexivity.
  - reflexivity.
  - apply demo_answers_honest.
  - vm_compute. done.
  - exists c. unfold demo_pull. rewrite Hpull.
    unfold demo_json_push in Hreq. injection Hreq as <-. injection Henv as <-. reflexivity.
Defined.

(** With four or more guardians a push answered with status "ok" is
    durable: if every guardian that acknowledged it later returns what it was
    sent, a pull over the same number of guardians answers with the pushed
    envelope. *)
Theorem vault_acknowledged_push json_push json_pull b64 b64d rand
    method body allowPush rows acks r sent method' body' allowPull rows' answers guardians' :
  (∀ bytes, b64d (b64 bytes) = Some bytes) →
  HandlePush json_push b64 b64d rand method body allowPush rows acks = (ReplyPush r, sent) →
  Status r = "ok" → (4 ≤ Total r)%Z →
  pull_admitted json_pull method' body' allowPull →
  discoverGuardians rows' = Ok guardians' →
  Z.of_nat (length guardians') = Total r →
  honest_answers sent answers →
  (∀ i, acknowledged (acks i) = true → answers_share (answers i) = true) →
  ∃ req env collected,
    (∃ b, body = Some b ∧ json_push (take maxPushBodySize b) = Some req) ∧
    b64d req.(push_Envelope) = Some env ∧
    HandlePull json_pull b64 b64d method' body' allowPull rows' answers =
    ReplyPull (mkPullResponse (b64 env) collected (Threshold r)).
Proof.
  intros Hrt Hpush Hst H4 Hadm Hg Htot Hhon Hacked.
  eapply HandlePull_honest; try done.
  apply HandlePush_reply in Hpush as (_ & _ & gs & _ & _ & _ & _ & _ & Hr & _ & _).
  rewrite Hr in Htot, Hst, H4 |- *. simpl in Htot, Hst, H4 |- *. apply Nat2Z.inj in Htot.
  rewrite Hr in Hst. simpl in Hst.
  destruct (_ <? _)%Z eqn:Hq in Hst; [done |]. zbool.
  destruct (quorum_bounds (Z.of_nat (length gs))) as (_ & _ & _ & Hkq & _); [lia |].
  rewrite Htot. etrans; [by apply Hkq |]. etrans; [exact Hq |].
  apply inj_le. apply filter_length_mono. done.
Qed.

Lemma vault_acknowledged_push_witness :
  ∃ collected, demo_pull 6 (demo_answers 6 4) =
    ReplyPull (mkPullResponse "an envelope" collected 3).
Proof.
  destruct (vault_acknowledged_push demo_json_push demo_json_pull demo_b64 demo_b64d demo_rand
    MethodPost (Some []) (λ _, true) (demo_rows 6)
    (λ i, if i <? 4 then Some 200%Z else None)
    (mkPushResponse "ok" 4 6 4 3) (demo_push 6 (λ i, if i <? 4 then Some 200%Z else None)).2
    MethodPost (Some []) (λ _, true) (demo_rows 6) (demo_answers 6 4)
    (replicate 6 (mkGuardian "10.0.0.1" 7500)))
    as (req & env & c & (b & Hb & Hreq) & Henv & Hpull).
  - apply demo_b64_roundtrip.
  - vm_compute. reflexivity.
  - reflexivity.
  - done.
  - apply demo_pull_admitted.
  - reflexivity.
  - reflexivity.
  - apply demo_answers_honest.
  - intros i. destruct (i <? 4) eqn:Hi; [| done]. intros _.
    do 4 (destruct i as [| i]; [vm_compute; reflexivity |]). done.
  - exists c. unfold demo_pull. rewrite Hpull.
    unfold demo_json_push in Hreq. injection Hreq as <-. injection Henv as <-. reflexivity.
Defined.

(** The threshold of a pull follows the current number of guardians, not
    the one of the push: after a fully acknowledged push over twelve guardians
    (threshold four), a pull over nine of them (threshold three), all of which
    return exactly what they were sent, succeeds with a different envelope. *)
Theorem vault_pull_after_shrink :
  ∃ r pulled,
    (demo_push 12 (λ _, Some 200%Z)).1 = ReplyPush r ∧ Status r = "ok" ∧
    honest_answers (demo_push 12 (λ _, Some 200%Z)).2 (demo_answers 12 9) ∧
    demo_pull 9 (demo_answers 12 9) = ReplyPull pulled ∧
    Collected pulled = 9%Z ∧ Envelope pulled ≠ "an envelope".
Proof.
  eexists _, _. split; [vm_compute; reflexivity |]. split; [done |].
  split; [apply demo_answers_honest |].
  split; [vm_compute; reflexivity |]. split; [done |]. vm_compute. done.
Qed.
