(* ===== verification/Sni.v ===== *)
(** * TLS ClientHello peeking and SNI extraction ([core/pkg/sniproxy/sni.go])

    The byte cursor, the two parsers and [PeekClientHello] with its buffered
    reader.  A connection is the list of chunks its successive [Read] calls
    return, followed by an error (end of stream or deadline). *)

From Stdlib Require Import NArith ZArith Lia Strings.Byte Ascii String.
From stdpp Require Import base tactics list sets strings.
From S2P Require Import Prelude GoStrings GF256.
Local Open Scope go_scope.

Inductive SniError :=
| ErrUnexpectedEOF
| ErrNoSNI
| ErrNotClientHello (hsType : byte)
| ErrExtensionsTruncated
| ErrServerNameListTruncated
| ErrReadHeader
| ErrNotHandshake (contentType : byte)
| ErrInvalidRecordLength (recLen : nat)
| ErrReadBody
| ErrOutOfFuel.

Definition MaxClientHelloBytes : nat := 16 * 1024.
#[global] Arguments MaxClientHelloBytes : simpl never.

(** [binary.BigEndian.Uint16] of two bytes. *)
Definition be16 (hi lo : byte) : nat := 256 * N.to_nat (b2n hi) + N.to_nat (b2n lo).

(** ** The cursor *)

Record reader := mkReader { buf : list byte; pos : nat }.

Definition newReader (b : list byte) : reader := mkReader b 0.

Definition remaining (r : reader) : nat := length r.(buf) - r.(pos).

Definition readByte (r : reader) : result SniError (byte * reader) :=
  if length r.(buf) <=? r.(pos) then Err ErrUnexpectedEOF
  else match r.(buf) !! r.(pos) with
       | Some b => Ok (b, mkReader r.(buf) (r.(pos) + 1))
       | None => Err ErrUnexpectedEOF
       end.

Definition readUint16 (r : reader) : result SniError (nat * reader) :=
  if length r.(buf) <? r.(pos) + 2 then Err ErrUnexpectedEOF
  else match r.(buf) !! r.(pos), r.(buf) !! (r.(pos) + 1) with
       | Some hi, Some lo => Ok (be16 hi lo, mkReader r.(buf) (r.(pos) + 2))
       | _, _ => Err ErrUnexpectedEOF
       end.

Definition readBytes (n : nat) (r : reader) : result SniError (list byte * reader) :=
  if length r.(buf) <? r.(pos) + n then Err ErrUnexpectedEOF
  else Ok (take n (drop r.(pos) r.(buf)), mkReader r.(buf) (r.(pos) + n)).

(** ** The parsers *)

Section Parsers.
Context `{UnicodeCase}.

Fixpoint server_name_loop (fuel endp : nat) (r : reader) : result SniError string :=
  match fuel with
  | O => Err ErrOutOfFuel
  | S fuel' =>
      if endp <=? r.(pos) then Err ErrNoSNI
      else
        let! '(nameType, r) := readByte r in
        let! '(nameLen, r) := readUint16 r in
        let! '(nameBytes, r) := readBytes nameLen r in
        if byte_eqb nameType x00 then Ok (ToLower (string_of_list_byte nameBytes))
        else server_name_loop fuel' endp r
  end.

Definition parseServerName (data : list byte) : result SniError string :=
  let r := newReader data in
  let! '(listLen, r) := readUint16 r in
  if remaining r <? listLen then Err ErrServerNameListTruncated
  else server_name_loop (S (length data)) (r.(pos) + listLen) r.

Fixpoint extensions_loop (fuel endp : nat) (r : reader) : result SniError string :=
  match fuel with
  | O => Err ErrOutOfFuel
  | S fuel' =>
      if endp <=? r.(pos) then Err ErrNoSNI
      else
        let! '(extType, r) := readUint16 r in
        let! '(extLen, r) := readUint16 r in
        let! '(extData, r) := readBytes extLen r in
        if negb (extType =? 0) then extensions_loop fuel' endp r
        else parseServerName extData
  end.

Definition parseSNI (body : list byte) : result SniError string :=
  let r := newReader body in
  let! '(hsType, r) := readByte r in
  if negb (byte_eqb hsType x01) then Err (ErrNotClientHello hsType)
  else
    let! '(_, r) := readBytes 3 r in
    let! '(_, r) := readBytes (2 + 32) r in
    let! '(sidLen, r) := readByte r in
    let! '(_, r) := readBytes (N.to_nat (b2n sidLen)) r in
    let! '(csLen, r) := readUint16 r in
    let! '(_, r) := readBytes csLen r in
    let! '(cmLen, r) := readByte r in
    let! '(_, r) := readBytes (N.to_nat (b2n cmLen)) r in
    if remaining r <? 2 then Err ErrNoSNI
    else
      let! '(extTotalLen, r) := readUint16 r in
      if remaining r <? extTotalLen then Err ErrExtensionsTruncated
      else extensions_loop (S (length body)) (r.(pos) + extTotalLen) r.

(** ** The buffered reader

    [fill_until n] is [bufio.Reader.Peek(n)] on a reader of
    [MaxClientHelloBytes] bytes that nothing was consumed from: it reads
    chunks into the free space until [n] bytes are buffered, and returns the
    buffer and what the connection has left. *)
Fixpoint fill_until (n : nat) (buffered : list byte) (chunks : list (list byte)) :
    option (list byte * list (list byte)) :=
  if n <=? length buffered then Some (buffered, chunks)
  else match chunks with
  | [] => None
  | c :: chunks' =>
      let space := MaxClientHelloBytes - length buffered in
      match drop space c with
      | [] => fill_until n (buffered ++ c) chunks'
      | rest => if n <=? length (buffered ++ take space c)
                then Some (buffered ++ take space c, rest :: chunks')
                else None
      end
  end.

(** The host name, the bytes to replay, and what the connection has left. *)
Definition PeekClientHello (chunks : list (list byte)) :
    result SniError (string * list byte * list (list byte)) :=
  match fill_until 5 [] chunks with
  | None => Err ErrReadHeader
  | Some (header, chunks) =>
  match header with
  | t :: _ :: _ :: l1 :: l2 :: _ =>
      if negb (byte_eqb t x16) then Err (ErrNotHandshake t)
      else
        let recLen := be16 l1 l2 in
        if (recLen =? 0) || (MaxClientHelloBytes <? 5 + recLen)
        then Err (ErrInvalidRecordLength recLen)
        else match fill_until (5 + recLen) header chunks with
        | None => Err ErrReadBody
        | Some (buffered, chunks) =>
            let full := take (5 + recLen) buffered in
            let! sni := parseSNI (drop 5 full) in
            Ok (sni, buffered, chunks)
        end
  | _ => Err ErrReadHeader
  end
  end.

End Parsers.

(** ** Reading what was written *)

(** [at_suffix r s]: the cursor stands before the bytes [s]. *)
Definition at_suffix (r : reader) (s : list byte) : Prop := drop r.(pos) r.(buf) = s ∧ r.(pos) ≤ length r.(buf).

Lemma at_suffix_new b : at_suffix (newReader b) b.
Proof. split; [done | simpl; lia]. Qed.

Lemma at_suffix_remaining r s : at_suffix r s → remaining r = length s.
Proof. intros [<- ?]. unfold remaining. by rewrite length_drop. Qed.

Lemma at_suffix_lookup r s i : at_suffix r s → r.(buf) !! (r.(pos) + i) = s !! i.
Proof. intros [<- _]. by rewrite lookup_drop. Qed.

Lemma at_suffix_drop r s n :
  at_suffix r s → n ≤ length s → at_suffix (mkReader r.(buf) (r.(pos) + n)) (drop n s).
Proof.
  intros [<- ?] Hn. rewrite length_drop in Hn. split; simpl; [| lia].
  by rewrite drop_drop.
Qed.

Lemma readByte_spec r s :
  at_suffix r s →
  match s with
  | b :: s' => ∃ r', readByte r = Ok (b, r') ∧ at_suffix r' s' ∧ r'.(pos) = r.(pos) + 1
  | [] => readByte r = Err ErrUnexpectedEOF
  end.
Proof.
  intros Hr. pose proof (at_suffix_remaining _ _ Hr) as Hrem. unfold remaining in Hrem.
  destruct Hr as [Hd Hp] eqn:?. unfold readByte. destruct s as [| b s]; simpl in Hrem.
  - by rewrite (proj2 (Nat.leb_le _ _)) by lia.
  - rewrite (proj2 (Nat.leb_gt _ _)) by lia.
    pose proof (at_suffix_lookup _ _ 0 Hr) as Hl. rewrite Nat.add_0_r in Hl. rewrite Hl. simpl.
    eexists. split; [done |]. split; [| done].
    apply (at_suffix_drop _ _ 1 Hr). simpl. lia.
Qed.

Lemma readUint16_spec r s :
  at_suffix r s →
  match s with
  | hi :: lo :: s' =>
      ∃ r', readUint16 r = Ok (be16 hi lo, r') ∧ at_suffix r' s' ∧ r'.(pos) = r.(pos) + 2
  | _ => readUint16 r = Err ErrUnexpectedEOF
  end.
Proof.
  intros Hr. pose proof (at_suffix_remaining _ _ Hr) as Hrem. unfold remaining in Hrem.
  pose proof (proj2 Hr) as Hp. unfold readUint16.
  pose proof (at_suffix_lookup _ _ 0 Hr) as H0. rewrite Nat.add_0_r in H0.
  pose proof (at_suffix_lookup _ _ 1 Hr) as H1. rewrite H0, H1.
  destruct s as [| hi [| lo s]]; simpl in *.
  - by rewrite (proj2 (Nat.ltb_lt _ _)) by lia.
  - by rewrite (proj2 (Nat.ltb_lt _ _)) by lia.
  - rewrite (proj2 (Nat.ltb_ge _ _)) by lia.
    eexists. split; [done |]. split; [| done].
    apply (at_suffix_drop _ _ 2 Hr). simpl. lia.
Qed.

Lemma readBytes_spec n r s :
  at_suffix r s →
  if n <=? length s
  then ∃ r', readBytes n r = Ok (take n s, r') ∧ at_suffix r' (drop n s) ∧
       r'.(pos) = r.(pos) + n
  else readBytes n r = Err ErrUnexpectedEOF.
Proof.
  intros Hr. pose proof (at_suffix_remaining _ _ Hr) as Hrem. unfold remaining in Hrem.
  pose proof (proj2 Hr) as Hp. unfold readBytes.
  destruct (n <=? length s) eqn:Hn.
  - apply Nat.leb_le in Hn. rewrite (proj2 (Nat.ltb_ge _ _)) by lia.
    eexists. rewrite (proj1 Hr). split; [done |]. split; [| done].
    by apply at_suffix_drop.
  - apply Nat.leb_gt in Hn. by rewrite (proj2 (Nat.ltb_lt _ _)) by lia.
Qed.

(** ** Writing a ClientHello *)

Definition enc16 (n : nat) : list byte :=
  [n2b (N.of_nat (n / 256)); n2b (N.of_nat (n mod 256))].

Definition enc_name (e : byte * list byte) : list byte :=
  e.1 :: enc16 (length e.2) ++ e.2.

Definition enc_ext (e : nat * list byte) : list byte :=
  enc16 e.1 ++ enc16 (length e.2) ++ e.2.

(** A ClientHello that carries a host name: [ch_names] and [ch_exts] precede
    the host name and the server_name extension; the bytes that follow them
    are arbitrary. *)
Record client_hello := mkClientHello {
  ch_length : list byte;
  ch_version_random : list byte;
  ch_session : list byte;
  ch_ciphers : list byte;
  ch_compression : list byte;
  ch_exts : list (nat * list byte);
  ch_names : list (byte * list byte);
  ch_host : list byte;
  ch_names_after : list byte;
  ch_exts_after : list byte;
  ch_trailing : list byte
}.

Definition enc_name_list (c : client_hello) : list byte :=
  mjoin (enc_name <$> c.(ch_names)) ++ enc_name (x00, c.(ch_host)) ++ c.(ch_names_after).

Definition enc_server_name (c : client_hello) : list byte :=
  enc16 (length (enc_name_list c)) ++ enc_name_list c.

Definition enc_exts (c : client_hello) : list byte :=
  mjoin (enc_ext <$> c.(ch_exts)) ++ enc_ext (0, enc_server_name c) ++ c.(ch_exts_after).

Definition enc8 (l : list byte) : list byte := n2b (N.of_nat (length l)) :: l.

Definition encode_client_hello (c : client_hello) : list byte :=
  x01 :: c.(ch_length) ++ c.(ch_version_random) ++ enc8 c.(ch_session) ++
  enc16 (length c.(ch_ciphers)) ++ c.(ch_ciphers) ++ enc8 c.(ch_compression) ++
  enc16 (length (enc_exts c)) ++ enc_exts c ++ c.(ch_trailing).

Record client_hello_wf (c : client_hello) : Prop := {
  wf_length : length c.(ch_length) = 3;
  wf_version_random : length c.(ch_version_random) = 34;
  wf_session : length c.(ch_session) < 256;
  wf_ciphers : length c.(ch_ciphers) < 256 * 256;
  wf_compression : length c.(ch_compression) < 256;
  wf_ext : Forall (λ e, e.1 ≠ 0 ∧ e.1 < 256 * 256 ∧ length e.2 < 256 * 256) c.(ch_exts);
  wf_names : Forall (λ e, e.1 ≠ x00 ∧ length e.2 < 256 * 256) c.(ch_names);
  wf_host : length c.(ch_host) < 256 * 256;
  wf_name_list : length (enc_name_list c) < 256 * 256 - 2;
  wf_exts : length (enc_exts c) < 256 * 256
}.

Lemma be16_enc n : n < 256 * 256 →
  be16 (n2b (N.of_nat (n / 256))) (n2b (N.of_nat (n mod 256))) = n.
Proof.
  intros Hn. unfold be16.
  assert (n / 256 < 256) by (apply Nat.Div0.div_lt_upper_bound; lia).
  pose proof (Nat.mod_upper_bound n 256 ltac:(lia)).
  rewrite !b2n_n2b by lia. rewrite !Nat2N.id.
  pose proof (Nat.div_mod_eq n 256). lia.
Qed.

Lemma readByte_cons r b s :
  at_suffix r (b :: s) →
  ∃ r', readByte r = Ok (b, r') ∧ at_suffix r' s ∧ r'.(pos) = r.(pos) + 1.
Proof. apply (readByte_spec r (b :: s)). Qed.

Lemma readUint16_enc r n s :
  n < 256 * 256 → at_suffix r (enc16 n ++ s) →
  ∃ r', readUint16 r = Ok (n, r') ∧ at_suffix r' s ∧ r'.(pos) = r.(pos) + 2.
Proof.
  intros Hn Hr. destruct (readUint16_spec _ _ Hr) as (r' & H1 & H2 & H3).
  rewrite be16_enc in H1 by done. eauto.
Qed.

Lemma readBytes_app r a s :
  at_suffix r (a ++ s) →
  ∃ r', readBytes (length a) r = Ok (a, r') ∧ at_suffix r' s ∧ r'.(pos) = r.(pos) + length a.
Proof.
  intros Hr. apply (readBytes_spec (length a)) in Hr.
  rewrite (proj2 (Nat.leb_le _ _)) in Hr by (rewrite length_app; lia).
  by rewrite take_app_length, drop_app_length in Hr.
Qed.

Lemma readByte_enc8 r l s :
  length l < 256 → at_suffix r (enc8 l ++ s) →
  ∃ b r', readByte r = Ok (b, r') ∧ N.to_nat (b2n b) = length l ∧ at_suffix r' (l ++ s) ∧
    r'.(pos) = r.(pos) + 1.
Proof.
  intros Hl Hr. apply readByte_cons in Hr as (r' & H1 & H2 & H3).
  exists (n2b (N.of_nat (length l))), r'. split_and!; try done.
  rewrite b2n_n2b by lia. by rewrite Nat2N.id.
Qed.

Lemma enc_name_app e s : enc_name e ++ s = e.1 :: enc16 (length e.2) ++ e.2 ++ s.
Proof. unfold enc_name. simpl. done. Qed.

Lemma enc_ext_app e s : enc_ext e ++ s = enc16 e.1 ++ enc16 (length e.2) ++ e.2 ++ s.
Proof. unfold enc_ext. by rewrite <- !app_assoc. Qed.

Lemma mjoin_fmap_cons {A : Type} (f : A → list byte) a l s :
  mjoin (f <$> a :: l) ++ s = f a ++ mjoin (f <$> l) ++ s.
Proof. rewrite fmap_cons. simpl. by rewrite <- app_assoc. Qed.

Lemma length_mjoin_cons {A : Type} (f : A → list byte) a l :
  length (mjoin (f <$> a :: l)) = length (f a) + length (mjoin (f <$> l)).
Proof. rewrite fmap_cons. simpl. apply length_app. Qed.

Lemma length_enc16 n : length (enc16 n) = 2.
Proof. done. Qed.

Lemma length_enc_name e : length (enc_name e) = 3 + length e.2.
Proof. done. Qed.

Lemma length_enc_ext e : length (enc_ext e) = 4 + length e.2.
Proof. done. Qed.

(** Consume the next field of the input: one reader operation. *)
Ltac read_field H r' :=
  first
    [ eapply readUint16_enc in H as (r' & -> & H & ?); [| try lia]
    | eapply readByte_cons in H as (r' & -> & H & ?)
    | eapply readBytes_app in H as (r' & -> & H & ?) ];
  cbn [result_bind].

Section RoundTrip.
Context `{UnicodeCase}.

Lemma server_name_loop_encoded names host rest fuel endp r :
  Forall (λ e, e.1 ≠ x00 ∧ length e.2 < 256 * 256) names → length host < 256 * 256 →
  at_suffix r (mjoin (enc_name <$> names) ++ enc_name (x00, host) ++ rest) →
  r.(pos) + length (mjoin (enc_name <$> names)) < endp → length names < fuel →
  server_name_loop fuel endp r = Ok (ToLower (string_of_list_byte host)).
Proof.
  intros Hn Hh. revert fuel r.
  induction Hn as [| [t d] names [Ht Hd] _ IH]; intros [| fuel] r Hr He Hf;
    try (simpl in Hf; lia); simpl server_name_loop.
  - rewrite enc_name_app in Hr. simpl in He. rewrite (proj2 (Nat.leb_gt _ _)) by lia.
    cbn [fmap list_fmap mjoin list_join app fst snd] in Hr.
    read_field Hr r1. read_field Hr r2. read_field Hr r3. done.
  - rewrite mjoin_fmap_cons, enc_name_app in Hr. cbn [fst snd] in Hr, Hd, Ht.
    rewrite length_mjoin_cons, length_enc_name in He. cbn [snd] in He.
    rewrite (proj2 (Nat.leb_gt _ _)) by lia.
    read_field Hr r1. read_field Hr r2. read_field Hr r3.
    rewrite (proj2 (byte_eqb_neq _ _)) by done.
    apply IH; [done | lia | simpl in Hf; lia].
Qed.

Lemma parseServerName_encoded c :
  client_hello_wf c →
  parseServerName (enc_server_name c) = Ok (ToLower (string_of_list_byte c.(ch_host))).
Proof.
  intros Hc. unfold parseServerName.
  pose proof (at_suffix_new (enc_server_name c)) as Hr. unfold enc_server_name at 2 in Hr.
  pose proof (wf_name_list c Hc) as Hl.
  read_field Hr r1. rewrite (at_suffix_remaining _ _ Hr).
  rewrite (proj2 (Nat.ltb_ge _ _)) by lia.
  unfold enc_name_list in Hr at 1.
  eapply server_name_loop_encoded; [apply Hc | apply Hc | exact Hr | |].
  - unfold enc_name_list. rewrite !length_app, length_enc_name. simpl. lia.
  - unfold enc_server_name, enc_name_list. rewrite !length_app, length_enc_name.
    assert (length (ch_names c) ≤ length (mjoin (enc_name <$> ch_names c))) as Hle.
    { clear. induction (ch_names c) as [| e l IH]; [done |].
      rewrite length_mjoin_cons, length_enc_name. simpl. lia. }
    simpl. lia.
Qed.

Lemma extensions_loop_encoded c exts rest fuel endp r :
  client_hello_wf c →
  Forall (λ e, e.1 ≠ 0 ∧ e.1 < 256 * 256 ∧ length e.2 < 256 * 256) exts →
  at_suffix r (mjoin (enc_ext <$> exts) ++ enc_ext (0, enc_server_name c) ++ rest) →
  r.(pos) + length (mjoin (enc_ext <$> exts)) < endp → length exts < fuel →
  extensions_loop fuel endp r = Ok (ToLower (string_of_list_byte c.(ch_host))).
Proof.
  intros Hc He. revert fuel r.
  induction He as [| [t d] exts (Ht & Ht' & Hd) _ IH]; intros [| fuel] r Hr Hend Hf;
    try (simpl in Hf; lia); simpl extensions_loop.
  - rewrite enc_ext_app in Hr. simpl in Hend. rewrite (proj2 (Nat.leb_gt _ _)) by lia.
    cbn [fst snd] in Hr. change (mjoin (enc_ext <$> [])) with (@nil byte) in Hr.
    cbn [app] in Hr.
    assert (length (enc_server_name c) < 256 * 256) as Hl.
    { pose proof (wf_name_list c Hc). unfold enc_server_name.
      rewrite length_app, length_enc16. lia. }
    read_field Hr r1. read_field Hr r2. read_field Hr r3.
    by apply parseServerName_encoded.
  - rewrite mjoin_fmap_cons, enc_ext_app in Hr. cbn [fst snd] in Hr, Hd, Ht, Ht'.
    rewrite length_mjoin_cons, length_enc_ext in Hend. cbn [snd] in Hend.
    rewrite (proj2 (Nat.leb_gt _ _)) by lia.
    read_field Hr r1. read_field Hr r2. read_field Hr r3.
    rewrite (proj2 (Nat.eqb_neq _ _)) by done. simpl negb. cbn iota.
    apply IH; [done | lia | simpl in Hf; lia].
Qed.

Lemma parseSNI_encoded c :
  client_hello_wf c →
  parseSNI (encode_client_hello c) = Ok (ToLower (string_of_list_byte c.(ch_host))).
Proof.
  intros Hc. unfold parseSNI.
  pose proof (at_suffix_new (encode_client_hello c)) as Hr.
  unfold encode_client_hello in Hr at 2.
  read_field Hr r1. cbn [byte_eqb negb]. change (negb (byte_eqb x01 x01)) with false. cbn iota.
  replace (readBytes 3) with (readBytes (length (ch_length c)))
    by (by rewrite (wf_length c Hc)).
  read_field Hr r2.
  replace (readBytes (2 + 32)) with (readBytes (length (ch_version_random c)))
    by (by rewrite (wf_version_random c Hc)).
  read_field Hr r3.
  apply readByte_enc8 in Hr as (b1 & r4 & -> & Hb1 & Hr & _); [| apply Hc].
  cbn [result_bind]. rewrite Hb1. read_field Hr r5.
  pose proof (wf_ciphers c Hc). read_field Hr r6. read_field Hr r7.
  apply readByte_enc8 in Hr as (b2 & r8 & -> & Hb2 & Hr & _); [| apply Hc].
  cbn [result_bind]. rewrite Hb2. read_field Hr r9.
  rewrite (at_suffix_remaining _ _ Hr).
  rewrite (proj2 (Nat.ltb_ge _ _)) by (rewrite length_app, length_enc16; lia).
  pose proof (wf_exts c Hc) as Hex. read_field Hr r10.
  rewrite (at_suffix_remaining _ _ Hr), length_app.
  rewrite (proj2 (Nat.ltb_ge _ _)) by lia.
  unfold enc_exts in Hr at 1. rewrite <- !app_assoc in Hr.
  eapply extensions_loop_encoded; [done | apply Hc | exact Hr | |].
  - unfold enc_exts. rewrite !length_app, length_enc_ext. simpl. lia.
  - unfold encode_client_hello, enc_exts. cbn [length]. rewrite !length_app.
    assert (length (ch_exts c) ≤ length (mjoin (enc_ext <$> ch_exts c))) as Hle.
    { clear. induction (ch_exts c) as [| e l IH]; [done |].
      rewrite length_mjoin_cons, length_enc_ext. simpl. lia. }
    lia.
Qed.

End RoundTrip.

(** ** Safety of the parsers on arbitrary input *)

Definition is_slice (name b : list byte) : Prop := ∃ pre post, b = pre ++ name ++ post.

Lemma is_slice_trans a b c : is_slice a b → is_slice b c → is_slice a c.
Proof.
  intros (p1 & s1 & ->) (p2 & s2 & ->). exists (p2 ++ p1), (s1 ++ s2).
  by rewrite <- !app_assoc.
Qed.

Lemma readByte_Ok r b r' :
  readByte r = Ok (b, r') → r'.(buf) = r.(buf) ∧ r.(pos) < r'.(pos) ≤ length r.(buf).
Proof.
  unfold readByte. destruct (_ <=? _) eqn:Hle; [done |]. apply Nat.leb_gt in Hle.
  destruct (_ !! _); [| done]. intros [= _ <-]. split; [done | simpl; lia].
Qed.

Lemma readUint16_Ok r n r' :
  readUint16 r = Ok (n, r') → r'.(buf) = r.(buf) ∧ r.(pos) < r'.(pos) ≤ length r.(buf).
Proof.
  unfold readUint16. destruct (_ <? _) eqn:Hle; [done |]. apply Nat.ltb_ge in Hle.
  destruct (_ !! _); [| done].
  destruct (_ !! _); [| done]. intros [= _ <-]. split; [done | simpl; lia].
Qed.

Lemma readBytes_Ok n r d r' :
  readBytes n r = Ok (d, r') →
  r'.(buf) = r.(buf) ∧ r.(pos) ≤ r'.(pos) ≤ length r.(buf) ∧ is_slice d r.(buf).
Proof.
  unfold readBytes. destruct (_ <? _) eqn:Hle; [done |]. apply Nat.ltb_ge in Hle.
  intros [= <- <-]. simpl. split_and!; [done | lia | lia |].
  exists (take (pos r) (buf r)), (drop n (drop (pos r) (buf r))).
  by rewrite !take_drop.
Qed.

(** An outcome that a terminating parser may have on input [b]. *)
Definition parse_outcome `{UnicodeCase} (b : list byte) (o : result SniError string) : Prop :=
  match o with
  | Ok s => ∃ name, is_slice name b ∧ s = ToLower (string_of_list_byte name)
  | Err e => e ≠ ErrOutOfFuel
  end.

(** Case on the next reader operation of the goal, keeping what it promises. *)
Ltac case_read :=
  match goal with
  | |- context [result_bind (readByte ?r) _] =>
      let E := fresh "E" in
      destruct (readByte r) as [[? ?] | ?] eqn:E; cbn [result_bind];
      [apply readByte_Ok in E as (? & ?)
      | unfold readByte in E; repeat split_match_in E; simplify_eq/=; done]
  | |- context [result_bind (readUint16 ?r) _] =>
      let E := fresh "E" in
      destruct (readUint16 r) as [[? ?] | ?] eqn:E; cbn [result_bind];
      [apply readUint16_Ok in E as (? & ?)
      | unfold readUint16 in E; repeat split_match_in E; simplify_eq/=; done]
  | |- context [result_bind (readBytes ?n ?r) _] =>
      let E := fresh "E" in
      destruct (readBytes n r) as [[? ?] | ?] eqn:E; cbn [result_bind];
      [apply readBytes_Ok in E as (? & ? & ?)
      | unfold readBytes in E; repeat split_match_in E; simplify_eq/=; done]
  end.

Section Safety.
Context `{UnicodeCase}.

Lemma server_name_loop_outcome fuel endp r :
  length r.(buf) - r.(pos) < fuel → parse_outcome r.(buf) (server_name_loop fuel endp r).
Proof.
  revert r. induction fuel as [| fuel IH]; intros r Hf; [lia |].
  cbn [server_name_loop]. destruct (endp <=? pos r); [done |].
  do 3 case_read. destruct (byte_eqb _ _).
  - simpl. eexists. split; [| done]. congruence.
  - replace (buf r) with (buf r2) by congruence. apply IH.
    replace (buf r2) with (buf r) by congruence. lia.
Qed.

Lemma parseServerName_outcome data : parse_outcome data (parseServerName data).
Proof.
  unfold parseServerName. case_read. cbn [buf pos newReader] in *.
  destruct (_ <? _); [done |].
  replace data with (buf r) at 1. apply server_name_loop_outcome.
  replace (buf r) with data by congruence. lia.
Qed.

Lemma extensions_loop_outcome fuel endp r :
  length r.(buf) - r.(pos) < fuel → parse_outcome r.(buf) (extensions_loop fuel endp r).
Proof.
  revert r. induction fuel as [| fuel IH]; intros r Hf; [lia |].
  cbn [extensions_loop]. destruct (endp <=? pos r); [done |].
  do 3 case_read. destruct (negb _).
  - replace (buf r) with (buf r2) by congruence. apply IH.
    replace (buf r2) with (buf r) by congruence. lia.
  - pose proof (parseServerName_outcome l) as Hp.
    destruct (parseServerName l) as [s | e]; [| done].
    destruct Hp as (name & Hsl & ->). exists name. split; [| done].
    eapply is_slice_trans; [exact Hsl |]. congruence.
Qed.

Lemma parseSNI_outcome body : parse_outcome body (parseSNI body).
Proof.
  unfold parseSNI. case_read. destruct (negb _); [done |].
  do 8 case_read. destruct (_ <? 2); [done |]. case_read. destruct (_ <? _); [done |].
  cbn [buf pos newReader] in *.
  match goal with |- parse_outcome _ (extensions_loop _ ?e ?r) =>
    replace body with (buf r) at 1 by congruence; apply extensions_loop_outcome;
    replace (buf r) with body by congruence end. lia.
Qed.

End Safety.

(** ** The buffered reader *)

Lemma fill_until_spec n buffered chunks :
  n ≤ MaxClientHelloBytes → length buffered ≤ MaxClientHelloBytes →
  match fill_until n buffered chunks with
  | Some (b, rest) =>
      b ++ mjoin rest = buffered ++ mjoin chunks ∧
      n ≤ length b ≤ MaxClientHelloBytes ∧ buffered `prefix_of` b
  | None => length (buffered ++ mjoin chunks) < n
  end.
Proof.
  intros Hn. revert buffered. induction chunks as [| c chunks IH]; intros buffered Hb;
    cbn [fill_until].
  - destruct (n <=? length buffered) eqn:Hle.
    + apply Nat.leb_le in Hle. split_and!; done.
    + apply Nat.leb_gt in Hle. simpl. by rewrite app_nil_r.
  - destruct (n <=? length buffered) eqn:Hle.
    { apply Nat.leb_le in Hle. split_and!; done. }
    apply Nat.leb_gt in Hle.
    set (space := MaxClientHelloBytes - length buffered).
    pose proof (take_drop space c) as Htd.
    destruct (drop space c) as [| x rest] eqn:Hd.
    + assert (length c ≤ space) as Hc.
      { apply (f_equal length) in Hd. rewrite length_drop in Hd. simpl in Hd. lia. }
      specialize (IH (buffered ++ c)). rewrite length_app in IH.
      specialize (IH ltac:(lia)).
      change (mjoin (c :: chunks)) with (c ++ mjoin chunks). rewrite app_assoc.
      destruct (fill_until n (buffered ++ c) chunks) as [[b rest] |]; [| done].
      destruct IH as (H1 & H2 & H3). split_and!; try done; try lia.
      etrans; [| exact H3]. by apply prefix_app_r.
    + assert (space < length c) as Hc.
      { apply (f_equal length) in Hd. rewrite length_drop in Hd. simpl in Hd. lia. }
      assert (length (buffered ++ take space c) = MaxClientHelloBytes) as HL.
      { rewrite length_app, length_take. lia. }
      rewrite HL, (proj2 (Nat.leb_le _ _)) by done.
      split_and!; [| lia | lia | by apply prefix_app_r].
      change (mjoin ((x :: rest) :: chunks)) with ((x :: rest) ++ mjoin chunks).
      change (mjoin (c :: chunks)) with (c ++ mjoin chunks).
      rewrite <- Htd at 2. by rewrite <- !app_assoc.
Qed.

Section Peek.
Context `{UnicodeCase}.

(** What is handed on for replay, followed by what the connection still has,
    is the client's byte stream. *)
Lemma PeekClientHello_replay chunks sni consumed rest :
  PeekClientHello chunks = Ok (sni, consumed, rest) →
  consumed ++ mjoin rest = mjoin chunks ∧ length consumed ≤ MaxClientHelloBytes.
Proof.
  unfold PeekClientHello.
  assert (5 ≤ MaxClientHelloBytes) as H5 by (by apply Nat.leb_le; vm_compute).
  pose proof (fill_until_spec 5 [] chunks H5 (Nat.le_0_l _)) as H1.
  destruct (fill_until 5 [] chunks) as [[header chunks1] |]; [| done].
  destruct H1 as (Heq1 & Hlen1 & _).
  destruct header as [| t [| v1 [| v2 [| l1 [| l2 tl]]]]]; try done.
  set (header := t :: v1 :: v2 :: l1 :: l2 :: tl) in *.
  destruct (negb _); [done |]. cbv zeta.
  destruct ((be16 l1 l2 =? 0) || (MaxClientHelloBytes <? 5 + be16 l1 l2)) eqn:Hl; [done |].
  apply orb_false_iff in Hl as [_ Hl]. apply Nat.ltb_ge in Hl.
  pose proof (fill_until_spec (5 + be16 l1 l2) header chunks1 Hl (proj2 Hlen1)) as H2.
  destruct (fill_until (5 + be16 l1 l2) header chunks1) as [[b chunks2] |]; [| done].
  destruct H2 as (Heq2 & Hlen2 & _).
  destruct (parseSNI _); cbn [result_bind]; [| done]. intros [= _ <- <-].
  split; [| lia]. by rewrite Heq2, Heq1.
Qed.

Lemma header_of_stream (header : list byte) chunks1 t v1 v2 l1 l2 tl :
  5 ≤ length header → header ++ mjoin chunks1 = t :: v1 :: v2 :: l1 :: l2 :: tl →
  ∃ tl', header = t :: v1 :: v2 :: l1 :: l2 :: tl'.
Proof.
  intros Hlen Heq. do 5 (destruct header as [| ? header]; [simpl in Hlen; lia |]).
  simpl in Heq. simplify_eq. eauto.
Qed.

(** ** Properties *)

(** On any input whatever [parseSNI] terminates with a result: either an
    error, or the lower-cased form of a contiguous slice of the input. *)
Theorem parseSNI_safe body :
  parseSNI body ≠ Err ErrOutOfFuel ∧
  ∀ s, parseSNI body = Ok s →
    ∃ pre name post, body = pre ++ name ++ post ∧ s = ToLower (string_of_list_byte name).
Proof.
  pose proof (parseSNI_outcome body) as Ho. split.
  - intros Heq. by rewrite Heq in Ho.
  - intros s Heq. rewrite Heq in Ho. destruct Ho as (name & (pre & post & Hb) & Hs).
    by exists pre, name, post.
Qed.

(** C36: a ClientHello with a host name is recognised however the network cuts
    it into pieces: when the client's stream starts with a handshake record
    that holds it and fits the buffer, [PeekClientHello] returns the
    lower-cased host name, whatever extensions and name entries precede it,
    and the bytes to replay followed by the rest of the connection are the
    client's stream. *)
Theorem PeekClientHello_host c v1 v2 tl chunks :
  client_hello_wf c →
  5 + length (encode_client_hello c) ≤ MaxClientHelloBytes →
  mjoin chunks = x16 :: v1 :: v2 ::
    enc16 (length (encode_client_hello c)) ++ encode_client_hello c ++ tl →
  ∃ consumed rest,
    PeekClientHello chunks = Ok (ToLower (string_of_list_byte c.(ch_host)), consumed, rest) ∧
    consumed ++ mjoin rest = mjoin chunks.
Proof.
  intros Hc Hmax Hstream.
  set (body := encode_client_hello c) in *.
  assert (0 < length body) as Hpos by (unfold body, encode_client_hello; simpl; lia).
  assert (length body < 256 * 256) as H16 by (unfold MaxClientHelloBytes in Hmax; lia).
  assert (∃ consumed rest, PeekClientHello chunks =
    Ok (ToLower (string_of_list_byte c.(ch_host)), consumed, rest)) as (cs & rest & Hp).
  2: { exists cs, rest. split; [done |]. by eapply PeekClientHello_replay. }
  unfold PeekClientHello.
  pose proof (fill_until_spec 5 [] chunks ltac:(lia) (Nat.le_0_l _)) as H1.
  destruct (fill_until 5 [] chunks) as [[header chunks1] |]; [| rewrite Hstream in H1; simpl in H1; lia].
  destruct H1 as (Heq1 & Hlen1 & _). rewrite Hstream in Heq1. cbn [app] in Heq1.
  destruct (header_of_stream _ _ _ _ _ _ _ _ (proj1 Hlen1) Heq1) as [tl' ->].
  change (negb (byte_eqb x16 x16)) with false. cbv zeta iota.
  rewrite be16_enc by done.
  rewrite (proj2 (Nat.eqb_neq _ _)) by lia. rewrite (proj2 (Nat.ltb_ge _ _)) by lia.
  cbn [orb].
  match goal with |- context [fill_until ?n ?h ?cs] =>
    pose proof (fill_until_spec n h cs Hmax (proj2 Hlen1)) as H2;
    destruct (fill_until n h cs) as [[b chunks2] |] end.
  2: { rewrite Heq1 in H2. cbn [length] in H2. rewrite !length_app in H2. simpl in H2. lia. }
  destruct H2 as (Heq2 & Hlen2 & _). rewrite Heq1 in Heq2.
  assert (drop 5 (take (5 + length body) b) = body) as ->.
  { rewrite <- (take_app_le b (mjoin chunks2)) by lia. rewrite Heq2.
    change (5 + length body) with (S (S (S (S (S (length body)))))). simpl.
    by rewrite take_app_length. }
  unfold body. rewrite parseSNI_encoded by done. cbn [result_bind]. eauto.
Qed.

End Peek.

(** A ClientHello for "Example.org" preceded by another extension. *)
Definition demo_hello : client_hello :=
  mkClientHello (replicate 3 x00) (replicate 34 x01) [] [x13; x01] [x00]
    [(10, [x00; x02; x00; x1d])] [] (list_byte_of_string "Example.org") [] [] [].

Lemma PeekClientHello_host_witness :
  ∃ consumed rest,
    PeekClientHello
      [x16 :: x03 :: x01 :: enc16 (length (encode_client_hello demo_hello));
       take 20 (encode_client_hello demo_hello);
       drop 20 (encode_client_hello demo_hello) ++ [x42]] =
    Ok ("example.org", consumed, rest) ∧
    consumed ++ mjoin rest =
      mjoin [x16 :: x03 :: x01 :: enc16 (length (encode_client_hello demo_hello));
       take 20 (encode_client_hello demo_hello);
       drop 20 (encode_client_hello demo_hello) ++ [x42]].
Proof.
  apply (PeekClientHello_host demo_hello x03 x01 [x42]).
  - split; try (apply Nat.ltb_lt; vm_compute; reflexivity); try reflexivity.
    + apply Forall_singleton. split; [done |].
      split; apply Nat.ltb_lt; vm_compute; reflexivity.
    + apply Forall_nil_2.
  - apply Nat.leb_le. vm_compute. reflexivity.
  - vm_compute. reflexivity.
Defined.
