(* ===== verification/SniRouter.v ===== *)
(** * SNI routing ([core/pkg/sniproxy/router.go], [server.go])

    The routing table with its wildcard matching, and the handling of one
    accepted connection: peek, pick, dial, replay, copy. *)

From Stdlib Require Import NArith ZArith Lia Strings.Byte Ascii String.
From stdpp Require Import base tactics list sets strings.
From S2P Require Import Prelude GoStrings GF256 Sni.

Record Backend := mkBackend { Name : string; Network : string; Addr : string }.
Record Route := mkRoute { Match : string; route_Backend : Backend }.
Record Router := mkRouter { routes : list Route; fallback : Backend }.

Definition NewRouter (fb : Backend) : Router := mkRouter [] fb.
Definition Replace (rs : list Route) (fb : Backend) (r : Router) : Router := mkRouter rs fb.
Definition Routes (r : Router) : list Route := r.(routes).
Definition Fallback (r : Router) : Backend := r.(fallback).

Section Routing.
Context `{UnicodeCase}.

Definition matchSNI (pattern sni : string) : bool :=
  let pattern := ToLower pattern in
  if String.eqb pattern sni then true
  else if HasPrefix pattern "*." then
    let suffix := str_drop 1 pattern in
    if negb (HasSuffix sni suffix) then false
    else if str_len sni <=? str_len suffix then false
    else negb (Contains (str_take (str_len sni - str_len suffix) sni) ".")
  else false.

Definition Pick (r : Router) (sni : string) : Backend :=
  if String.eqb sni EmptyString then r.(fallback)
  else
    let sni := ToLower sni in
    match List.find (λ route, matchSNI route.(Match) sni) r.(routes) with
    | Some route => route.(route_Backend)
    | None => r.(fallback)
    end.

(** What becomes of an accepted connection. *)
Inductive conn_outcome :=
| PeekFailed (e : SniError)
| NoBackend (sni : string)
| DialFailed (sni : string) (b : Backend)
| Proxied (sni : string) (b : Backend) (network : string) (upstream : list byte).

(** [dial network addr] tells whether the backend accepts; the client's stream
    is copied to its end. *)
Definition handle (r : Router) (dial : string → string → bool) (chunks : list (list byte)) :
    conn_outcome :=
  match PeekClientHello chunks with
  | Err e => PeekFailed e
  | Ok (sni, peeked, rest) =>
      let backend := Pick r sni in
      if String.eqb backend.(Addr) EmptyString then NoBackend sni
      else
        let network := if String.eqb backend.(Network) EmptyString then "tcp"
                       else backend.(Network) in
        if negb (dial network backend.(Addr)) then DialFailed sni backend
        else
          let replay := if 0 <? length peeked then peeked else [] in
          Proxied sni backend network (replay ++ mjoin rest)
  end.

(** ** The documented meaning of a route *)

(** "example.com" matches itself; "*.example.com" matches one more label. *)
Inductive route_matches : string → string → Prop :=
| match_exact s : route_matches s s
| match_label base label :
    label ≠ EmptyString → str_mem "." label = false →
    route_matches ("*." +:+ base) (label +:+ "." +:+ base).

Lemma str_len_pos s : s ≠ EmptyString → 0 < str_len s.
Proof. destruct s; simpl; [done | lia]. Qed.

Lemma route_matches_inv p s :
  route_matches p s → p = s ∨ ∃ base label,
    p = "*." +:+ base ∧ s = label +:+ "." +:+ base ∧
    label ≠ EmptyString ∧ str_mem "." label = false.
Proof. destruct 1 as [| base label]; [by left | right]. by exists base, label. Qed.

Lemma str_app_inv_r s t u : s +:+ u = t +:+ u → s = t.
Proof.
  intros Heq. rewrite <- (str_take_app s u), Heq.
  replace (str_len s) with (str_len t); [apply str_take_app |].
  apply (f_equal str_len) in Heq. rewrite !str_len_app in Heq. lia.
Qed.

Lemma matchSNI_route pattern sni :
  matchSNI pattern sni = true ↔ route_matches (ToLower pattern) sni.
Proof.
  unfold matchSNI. generalize (ToLower pattern) as p. intros p. cbv zeta.
  destruct (String.eqb_spec p sni) as [-> | Hne]; [split; [constructor | done] |].
  destruct (HasPrefix p "*.") eqn:Hp.
  2: { split; [done |]. intros [-> | (base & label & -> & _)]%route_matches_inv; [done |].
       rewrite (proj2 (HasPrefix_spec _ _)) in Hp; [done | by exists base]. }
  apply HasPrefix_spec in Hp as [base ->].
  change (str_drop 1 ("*." +:+ base)) with ("." +:+ base).
  destruct (HasSuffix sni ("." +:+ base)) eqn:Hs; cbn [negb].
  2: { split; [done |]. intros [? | (base' & label & Hb & -> & _)]%route_matches_inv; [done |].
       assert (base' = base) as -> by (by injection Hb).
       rewrite (proj2 (HasSuffix_spec _ _)) in Hs; [done | by exists label]. }
  apply HasSuffix_spec in Hs as [label ->].
  rewrite str_len_app, Nat.add_sub, str_take_app.
  change "."%string with (str_single ".") at 3. rewrite Contains_single.
  destruct (str_len label + str_len ("." +:+ base) <=? str_len ("." +:+ base)) eqn:Hl.
  - apply Nat.leb_le in Hl. split; [done |].
    intros [? | (base' & label' & Hb & Heq & Hl' & _)]%route_matches_inv; [done |].
    assert (base' = base) as -> by (by injection Hb).
    apply str_app_inv_r in Heq as ->. pose proof (str_len_pos _ Hl'). lia.
  - apply Nat.leb_gt in Hl. rewrite negb_true_iff. split.
    + intros Hd. constructor; [| done]. intros ->. simpl in Hl. lia.
    + intros [? | (base' & label' & Hb & Heq & Hl' & Hd)]%route_matches_inv; [done |].
      assert (base' = base) as -> by (by injection Hb).
      by apply str_app_inv_r in Heq as ->.
Qed.

End Routing.

(** ** Properties *)

(** A non-empty host name is routed to the backend of the first route that
    matches it under the documented semantics (an exact name, or one
    additional label without dots in place of the star), compared without
    regard to ASCII case, and to the fallback when no route matches; the empty
    name goes to the fallback. *)
Theorem Pick_first_match `{UnicodeCase} r sni :
  (sni = EmptyString ∧ Pick r sni = r.(fallback)) ∨
  (sni ≠ EmptyString ∧
   ((∃ pre route post, r.(routes) = pre ++ route :: post ∧
       route_matches (ToLower route.(Match)) (ToLower sni) ∧
       Forall (λ q, ¬ route_matches (ToLower q.(Match)) (ToLower sni)) pre ∧
       Pick r sni = route.(route_Backend)) ∨
    (Forall (λ q, ¬ route_matches (ToLower q.(Match)) (ToLower sni)) r.(routes) ∧
     Pick r sni = r.(fallback)))).
Proof.
  unfold Pick. destruct (String.eqb_spec sni EmptyString) as [-> | Hne]; [by left |].
  right. split; [done |].
  induction (routes r) as [| q qs IH]; simpl.
  { right. split; [constructor | done]. }
  destruct (matchSNI (Match q) (ToLower sni)) eqn:Hm.
  - left. exists [], q, qs. split; [done |]. split; [by apply matchSNI_route |].
    split; [constructor | done].
  - assert (¬ route_matches (ToLower (Match q)) (ToLower sni)) as Hno
      by (rewrite <- matchSNI_route; by rewrite Hm).
    destruct IH as [(pre & route & post & -> & H1 & H2 & H3) | [H1 H2]].
    + left. exists (q :: pre), route, post. split; [done |]. split; [done |].
      split; [by constructor | done].
    + right. split; [by constructor | done].
Qed.

(** The proxy is transparent: a proxied connection goes to the backend
    picked for the peeked host name, which has an address, over TCP unless the
    backend names another network, and the bytes written upstream are exactly
    the client's stream. *)
Theorem handle_transparent `{UnicodeCase} r dial chunks sni b network upstream :
  handle r dial chunks = Proxied sni b network upstream →
  upstream = mjoin chunks ∧ b = Pick r sni ∧ b.(Addr) ≠ EmptyString ∧
  dial network b.(Addr) = true ∧
  network = (if String.eqb b.(Network) EmptyString then "tcp" else b.(Network)) ∧
  ∃ peeked rest, PeekClientHello chunks = Ok (sni, peeked, rest).
Proof.
  unfold handle. destruct (PeekClientHello chunks) as [[[s peeked] rest] | e] eqn:Hp; [| done].
  apply PeekClientHello_replay in Hp as Hrep.
  destruct (String.eqb_spec (Addr (Pick r s)) EmptyString) as [| Haddr]; [done |].
  destruct (negb (dial _ _)) eqn:Hd; [done |]. intros [= <- <- <- <-].
  split_and!; try done.
  - rewrite <- (proj1 Hrep). f_equal. by destruct peeked.
  - by apply negb_false_iff.
  - eauto.
Qed.

Lemma handle_transparent_witness :
  let chunks := [x16 :: x03 :: x01 :: enc16 (length (encode_client_hello demo_hello));
                 encode_client_hello demo_hello; [x42]] in
  let r := mkRouter [mkRoute "*.org" (mkBackend "web" "" "127.0.0.1:8443")]
             (mkBackend "" "" "") in
  ∃ upstream,
    handle r (λ _ _, true) chunks =
      Proxied "example.org" (mkBackend "web" "" "127.0.0.1:8443") "tcp" upstream ∧
    upstream = mjoin chunks.
Proof.
  intros chunks r. eexists. split; [vm_compute; reflexivity |].
  apply (handle_transparent r (λ _ _, true) chunks "example.org"
    (mkBackend "web" "" "127.0.0.1:8443") "tcp"). vm_compute. reflexivity.
Defined.
