(* ===== verification/Pattern.v ===== *)
(** * Topic patterns of PubSub triggers ([core/pkg/serverless/triggers/pattern.go])

    Validation of glob patterns and the matcher with one backtracking point.
    The matcher's indices [pi], [si] and its saved star position are kept as
    the suffixes of the pattern and of the topic they point at. *)

From Stdlib Require Import NArith ZArith Lia Ascii String.
From stdpp Require Import base tactics list strings.
From S2P Require Import Prelude GoStrings.

Definition MaxPatternLength : nat := 256.

Inductive PatternError :=
| ErrEmptyPattern
| ErrPatternTooLong (len : nat)
| ErrUnmatchedClose (position : nat)
| ErrUnmatchedOpen.

Fixpoint bracket_loop (i : nat) (depth : nat) (p : string) : result PatternError nat :=
  match p with
  | EmptyString => Ok depth
  | String c p' =>
      if Ascii.eqb c "[" then bracket_loop (S i) (S depth) p'
      else if Ascii.eqb c "]" then
        match depth with
        | O => Err (ErrUnmatchedClose i)
        | S depth' => bracket_loop (S i) depth' p'
        end
      else bracket_loop (S i) depth p'
  end.

Definition ValidatePattern (p : string) : result PatternError unit :=
  if String.eqb p EmptyString then Err ErrEmptyPattern
  else if MaxPatternLength <? str_len p then Err (ErrPatternTooLong (str_len p))
  else match bracket_loop 0 0 p with
       | Err e => Err e
       | Ok depth => if negb (depth =? 0) then Err ErrUnmatchedOpen else Ok tt
       end.

Definition IsWildcard (p : string) : bool := ContainsAny p "*?[".

Definition matchClass (class : string) (c : ascii) : bool :=
  match class with
  | EmptyString => false
  | String "!" class' => negb (str_mem c class')
  | _ => str_mem c class
  end.

(** The final loop: only stars may be left of the pattern. *)
Fixpoint only_stars (p : string) : bool :=
  match p with
  | EmptyString => true
  | String c p' => Ascii.eqb c "*" && only_stars p'
  end.

(** The saved star: the pattern after it and the topic from [starSi] on. *)
Definition saved_star : Type := option (string * string).

Fixpoint glob_loop (fuel : nat) (p s : string) (star : saved_star) : option bool :=
  match fuel with
  | O => None
  | S fuel' =>
  match s with
  | EmptyString => Some (only_stars p)
  | String c s' =>
      let backtrack :=
        match star with
        | Some (p1, String d s1) =>
            if negb (Ascii.eqb d ":") then glob_loop fuel' p1 s1 (Some (p1, s1))
            else Some false
        | _ => Some false
        end in
      match p with
      | EmptyString => backtrack
      | String pc p' =>
          if Ascii.eqb pc "?" then glob_loop fuel' p' s' star
          else if Ascii.eqb pc "*" then glob_loop fuel' p' s (Some (p', s))
          else if Ascii.eqb pc "[" then
            match IndexByte p' "]" with
            | None => Some false
            | Some e =>
                if matchClass (str_take e p') c
                then glob_loop fuel' (str_drop (S e) p') s' star
                else backtrack
            end
          else if Ascii.eqb pc c then glob_loop fuel' p' s' star
          else backtrack
      end
  end
  end.

Definition glob_fuel (p s : string) : nat := S ((str_len s + 2) * (str_len p + 2)).

Definition strictGlobMatch (pattern s : string) : bool :=
  default false (glob_loop (glob_fuel pattern s) pattern s None).

Definition PatternMatches (pattern topic : string) : bool :=
  if Contains pattern "**" then true else strictGlobMatch pattern topic.

(** ** The documented meaning of a pattern without a double star *)

Definition plain_char (a : ascii) : Prop := a ≠ "?"%char ∧ a ≠ "*"%char ∧ a ≠ "["%char.

Inductive glob_match : string → string → Prop :=
| glob_nil : glob_match EmptyString EmptyString
| glob_any c p s : glob_match p s → glob_match (String "?" p) (String c s)
| glob_lit a p s : plain_char a → glob_match p s → glob_match (String a p) (String a s)
| glob_class body p c s :
    str_mem "]" body = false → matchClass body c = true → glob_match p s →
    glob_match (String "[" (body +:+ String "]" p)) (String c s)
| glob_star_nil p s : glob_match p s → glob_match (String "*" p) s
| glob_star_cons p c s :
    c ≠ ":"%char → glob_match (String "*" p) s → glob_match (String "*" p) (String c s).

(** ** Termination *)

(** Every step advances in the pattern or moves the saved star forward. *)
Definition glob_measure (plen : nat) (p s : string) (star : saved_star) : nat :=
  match star with
  | None => (str_len s + 1) * (plen + 2)
  | Some (_, s1) => str_len s1 * (plen + 2)
  end + str_len p.

Lemma glob_loop_terminates plen fuel p s star :
  str_len p ≤ plen →
  match star with
  | Some (p1, s1) => str_len p1 ≤ plen ∧ str_len s ≤ str_len s1
  | None => True
  end →
  glob_measure plen p s star < fuel →
  is_Some (glob_loop fuel p s star).
Proof.
  revert p s star. induction fuel as [| fuel IH]; intros p s star Hp Hstar Hm; [lia |].
  cbn [glob_loop]. destruct s as [| c s]; [done |].
  set (backtrack := match star with Some (p1, String d s1) => _ | _ => _ end).
  assert (is_Some backtrack) as Hback.
  { unfold backtrack. destruct star as [[p1 [| d s1]] |]; [done | | done].
    destruct (negb _); [| done]. destruct Hstar as [Hp1 Hs1].
    apply IH; [done | split; [done | lia] |].
    unfold glob_measure in *. cbn [str_len] in *. nia. }
  clearbody backtrack.
  destruct p as [| pc p]; [done |]. cbn [str_len] in Hp.
  assert (∀ q, str_len q ≤ str_len p → is_Some (glob_loop fuel q s star)) as Hstep.
  { intros q Hq. apply IH; [lia | |].
    - destruct star as [[p1 s1] |]; [| done]. cbn [str_len] in Hstar. split; [tauto | lia].
    - unfold glob_measure in *. cbn [str_len] in *. destruct star as [[p1 s1] |]; nia. }
  destruct (Ascii.eqb pc "?"); [by apply Hstep |].
  destruct (Ascii.eqb pc "*").
  { apply IH; [lia | split; [lia | done] |].
    unfold glob_measure in *. cbn [str_len] in *.
    destruct star as [[p1 s1] |]; [destruct Hstar |]; cbn [str_len] in *; nia. }
  destruct (Ascii.eqb pc "[").
  { destruct (IndexByte p "]") as [e |]; [| done].
    destruct (matchClass _ _); [| done]. apply Hstep. rewrite str_len_drop. lia. }
  destruct (Ascii.eqb pc c); [by apply Hstep | done].
Qed.

Lemma strictGlobMatch_loop p s :
  glob_loop (glob_fuel p s) p s None = Some (strictGlobMatch p s).
Proof.
  unfold strictGlobMatch.
  destruct (glob_loop_terminates (str_len p) (glob_fuel p s) p s None) as [b ->];
    [done | done | | done].
  unfold glob_measure, glob_fuel. nia.
Qed.

(** ** Soundness *)

Lemma only_stars_match p : only_stars p = true → glob_match p EmptyString.
Proof.
  induction p as [| c p IH]; simpl; [constructor |].
  intros [->%Ascii.eqb_eq Hp]%andb_true_iff. constructor. auto.
Qed.

Lemma glob_loop_sound (G : Prop) fuel p s star :
  (glob_match p s → G) →
  (∀ p1 s1, star = Some (p1, s1) → glob_match (String "*" p1) s1 → G) →
  glob_loop fuel p s star = Some true → G.
Proof.
  revert p s star. induction fuel as [| fuel IH]; intros p s star Hps Hstar; [done |].
  cbn [glob_loop]. destruct s as [| c s].
  { intros [= H]. by apply Hps, only_stars_match. }
  set (backtrack := match star with Some (p1, String d s1) => _ | _ => _ end).
  assert (backtrack = Some true → G) as Hback.
  { unfold backtrack. destruct star as [[p1 [| d s1]] |]; [done | | done].
    destruct (Ascii.eqb_spec d ":") as [-> | Hd]; [done |]. cbn [negb].
    apply IH.
    - intros H. by apply (Hstar p1 (String d s1) eq_refl), glob_star_cons, glob_star_nil.
    - intros p2 s2 [= <- <-] H. by apply (Hstar p1 (String d s1) eq_refl), glob_star_cons. }
  clearbody backtrack.
  destruct p as [| pc p]; [done |].
  destruct (Ascii.eqb_spec pc "?") as [-> | Hq].
  { apply IH; [| done]. intros H. by apply Hps, glob_any. }
  destruct (Ascii.eqb_spec pc "*") as [-> | Hst].
  { apply IH.
    - intros H. by apply Hps, glob_star_nil.
    - intros p2 s2 [= <- <-] H. by apply Hps. }
  destruct (Ascii.eqb_spec pc "[") as [-> | Hbr].
  { destruct (IndexByte p "]") as [e |] eqn:He; [| done].
    apply IndexByte_Some in He as (body & u & -> & <- & Hb).
    rewrite str_take_app. destruct (matchClass body c) eqn:Hm; [| done].
    replace (str_drop (S (str_len body)) (body +:+ String "]" u)) with u.
    2: { clear. induction body as [| a body IHb]; [by destruct u | done]. }
    apply IH; [| done]. intros H. by apply Hps, glob_class. }
  destruct (Ascii.eqb_spec pc c) as [-> | Hpc]; [| done].
  apply IH; [| done]. intros H. apply Hps, glob_lit; [| done]. by split.
Qed.

(** ** Completeness for patterns of literals and stars *)

Fixpoint colons (s : string) : nat :=
  match s with
  | EmptyString => 0
  | String c s' => (if Ascii.eqb c ":" then 1 else 0) + colons s'
  end.

Fixpoint literal (l : string) : bool :=
  match l with
  | EmptyString => true
  | String c l' => negb (Ascii.eqb c "?") && negb (Ascii.eqb c "*") && negb (Ascii.eqb c "[") && literal l'
  end.

Lemma colons_app s t : colons (s +:+ t) = colons s + colons t.
Proof. induction s as [| c s IH]; simpl; [done |]. rewrite IH. lia. Qed.

Lemma literal_snoc l a :
  literal l = true → plain_char a → literal (l +:+ str_single a) = true.
Proof.
  intros Hl (H1 & H2 & H3). induction l as [| c l IH]; simpl in *.
  - apply Ascii.eqb_neq in H1 as ->, H2 as ->, H3 as ->. done.
  - apply andb_true_iff in Hl as [-> Hl]. by rewrite IH.
Qed.

Lemma glob_match_literal l p s :
  literal l = true → glob_match (l +:+ p) s → ∃ r, s = l +:+ r ∧ glob_match p r.
Proof.
  revert s. induction l as [| a l IH]; intros s Hl Hm; [by exists s |].
  simpl in Hl. repeat (apply andb_true_iff in Hl as [Hl ?]). zbool.
  cbn in Hm. inversion Hm; subst; try done.
  destruct (IH _ ltac:(assumption) ltac:(eassumption)) as (r & -> & Hr). by exists r.
Qed.

Lemma glob_star_split p s :
  glob_match (String "*" p) s → ∃ w r, s = w +:+ r ∧ colons w = 0 ∧ glob_match p r.
Proof.
  intros H. remember (String "*" p) as q eqn:Hq. revert p Hq.
  induction H as [| | a ? ? Ha | | ? s Hm IH | ? c s Hc Hm IH]; intros q [=]; subst.
  - by destruct Ha as (_ & [] & _).
  - by exists EmptyString, s.
  - destruct (IH q eq_refl) as (w & r & -> & Hw & Hr).
    exists (String c w), r. apply Ascii.eqb_neq in Hc. cbn. by rewrite Hc.
Qed.

Lemma glob_star_join p w r :
  colons w = 0 → glob_match p r → glob_match (String "*" p) (w +:+ r).
Proof.
  intros Hw Hr. induction w as [| c w IH]; [by constructor |].
  cbn in Hw. destruct (Ascii.eqb_spec c ":"); [lia |]. cbn. constructor; [done |]. auto.
Qed.

Lemma str_app_split (a b c d : string) :
  a +:+ b = c +:+ d → str_len a ≤ str_len c → ∃ x, c = a +:+ x ∧ b = x +:+ d.
Proof.
  revert c. induction a as [| e a IH]; intros c Heq Hlen; [by exists c |].
  destruct c as [| f c]; cbn in *; [lia |]. injection Heq as -> Heq.
  destruct (IH c Heq ltac:(lia)) as (x & -> & ->). by exists x.
Qed.

(** A star absorbs what an earlier star and the literals between the two
    absorbed: the number of separators before the second star is fixed. *)
Lemma later_star_absorbs l p s :
  literal l = true →
  glob_match (String "*" (l +:+ String "*" p)) (l +:+ s) → glob_match (String "*" p) s.
Proof.
  intros Hl (w & r & Heq & Hw & Hm)%glob_star_split.
  apply glob_match_literal in Hm as (r' & -> & Hm); [| done].
  rewrite str_app_assoc in Heq.
  destruct (str_app_split _ _ _ _ Heq) as (x & Hx & ->); [rewrite str_len_app; lia |].
  apply glob_star_split in Hm as (w' & r & -> & Hw' & Hm).
  rewrite str_app_assoc. apply glob_star_join; [| done].
  apply (f_equal colons) in Hx. rewrite !colons_app in *. lia.
Qed.

Definition star_context (p s : string) (star : saved_star) : Prop :=
  match star with
  | Some (p1, s1) => ∃ l, literal l = true ∧ p1 = l +:+ p ∧ s1 = l +:+ s
  | None => True
  end.

Definition still_possible (p s : string) (star : saved_star) : Prop :=
  glob_match p s ∨
  match star with Some (p1, s1) => glob_match (String "*" p1) s1 | None => False end.

Lemma star_advance p s p1 s1 :
  star_context p s (Some (p1, s1)) → ¬ glob_match p s → glob_match (String "*" p1) s1 →
  ∃ d s2, s1 = String d s2 ∧ d ≠ ":"%char ∧ glob_match (String "*" p1) s2.
Proof.
  intros (l & Hl & -> & ->) Hn Hm. inversion Hm as [| | ? ? ? Hp | | ? ? Hq | ? d s2]; subst.
  - by destruct Hp as (_ & [] & _).
  - apply glob_match_literal in Hq as (r & Heq & Hr); [| done].
    apply str_app_split in Heq as (x & Hx & ->); [| done].
    destruct Hn. destruct x as [| d x]; [done |]. exfalso.
    apply (f_equal str_len) in Hx. rewrite str_len_app in Hx. cbn in Hx. lia.
  - eauto.
Qed.

Lemma glob_nil_only_stars p : glob_match p EmptyString → only_stars p = true.
Proof.
  remember EmptyString as s eqn:Hs. induction 1; simplify_eq; cbn; auto.
Qed.

Lemma ContainsAny_cons c p chars :
  ContainsAny (String c p) chars = false → str_mem c chars = false ∧ ContainsAny p chars = false.
Proof. cbn. apply orb_false_iff. Qed.

Lemma ContainsAny_app a b chars :
  ContainsAny (a +:+ b) chars = ContainsAny a chars || ContainsAny b chars.
Proof. induction a as [| c a IH]; cbn; [done |]. rewrite IH. by rewrite orb_assoc. Qed.

Lemma glob_loop_complete fuel p s star :
  ContainsAny p "?[" = false →
  match star with Some (p1, _) => ContainsAny p1 "?[" = false | None => True end →
  star_context p s star → still_possible p s star →
  glob_loop fuel p s star ≠ Some false.
Proof.
  revert p s star. induction fuel as [| fuel IH]; intros p s star Hp Hp1 Hctx Hposs; [done |].
  cbn [glob_loop]. destruct s as [| c s].
  { intros [= Hno]. destruct Hposs as [Hm | Hm].
    - apply glob_nil_only_stars in Hm. congruence.
    - destruct star as [[p1 s1] |]; [| done].
      destruct Hctx as (l & Hl & -> & ->).
      apply glob_star_split in Hm as (w & r & Heq & _ & Hm).
      apply glob_match_literal in Hm as (r' & -> & Hm); [| done].
      assert (r' = EmptyString) as ->.
      { apply (f_equal str_len) in Heq. rewrite !str_len_app in Heq. destruct r'; cbn in Heq; [done | lia]. }
      apply glob_nil_only_stars in Hm. congruence. }
  set (backtrack := match star with Some (p1, String d s1) => _ | _ => _ end).
  assert (¬ glob_match p (String c s) → backtrack ≠ Some false) as Hback.
  { intros Hn. unfold backtrack. destruct Hposs as [Hm | Hm]; [done |].
    destruct star as [[p1 s1] |]; [| done].
    destruct (star_advance _ _ _ _ Hctx Hn Hm) as (d & s2 & -> & Hd & Hm2).
    apply Ascii.eqb_neq in Hd. rewrite Hd. cbn [negb].
    apply IH; [done | done | by exists EmptyString | by right]. }
  clearbody backtrack.
  destruct p as [| pc p]; [apply Hback; intros H; inversion H |].
  apply ContainsAny_cons in Hp as [Hpc Hp]. cbn in Hpc.
  apply orb_false_iff in Hpc as [Hq [Hb _]%orb_false_iff].
  rewrite Hq, Hb. apply Ascii.eqb_neq in Hq, Hb.
  destruct (Ascii.eqb_spec pc "*") as [-> | Hst].
  { apply IH; [done | done | by exists EmptyString |]. right.
    destruct Hposs as [Hm | Hm]; [done |]. destruct star as [[p1 s1] |]; [| done].
    destruct Hctx as (l & Hl & -> & ->). by eapply later_star_absorbs. }
  destruct (Ascii.eqb_spec pc c) as [-> | Hne].
  - apply IH; [done | done | |].
    + destruct star as [[p1 s1] |]; [| done]. destruct Hctx as (l & Hl & -> & ->).
      exists (l +:+ str_single c). split; [by apply literal_snoc |].
      by rewrite <- !str_app_assoc.
    + destruct Hposs as [Hm | Hm]; [left | by right]. inversion Hm; subst; done.
  - apply Hback. intros H. inversion H; subst; done.
Qed.

(** ** Properties *)

(** A pattern without a double star is matched only by topics its
    documented meaning admits (a star never crosses a separator), and a
    pattern of literals and stars is matched by all of them. *)
Theorem PatternMatches_spec pattern topic :
  Contains pattern "**" = false →
  (PatternMatches pattern topic = true → glob_match pattern topic) ∧
  (ContainsAny pattern "?[" = false →
   glob_match pattern topic → PatternMatches pattern topic = true).
Proof.
  intros Hdeep. unfold PatternMatches. rewrite Hdeep.
  pose proof (strictGlobMatch_loop pattern topic) as Hloop. split.
  - intros H. rewrite H in Hloop.
    eapply glob_loop_sound in Hloop; [exact Hloop | done | done].
  - intros Hlit Hm. apply not_false_is_true. intros H. rewrite H in Hloop.
    revert Hloop. apply glob_loop_complete; [done | done | done | by left].
Qed.

Lemma PatternMatches_spec_witness :
  PatternMatches "room:*:msg" "room:42:msg" = true ∧
  PatternMatches "room:*" "room:42:msg" = false ∧
  glob_match "room:*:msg" "room:42:msg".
Proof.
  split; [done |]. split; [done |].
  by apply (proj1 (PatternMatches_spec "room:*:msg" "room:42:msg" eq_refl)).
Defined.

(** With a question mark after a star the matcher gives up too early:
    the only saved star is the last one, and it stands before a separator
    that an earlier star could have left to the question mark. *)
Theorem glob_question_mark_missed :
  PatternMatches "*?*b" "a:b" = false ∧ glob_match "*?*b" "a:b".
Proof.
  split; [done |]. apply (glob_star_join _ "a"); [done |]. cbn.
  apply glob_any, glob_star_nil, glob_lit, glob_nil. by split.
Qed.

(** With [depth] brackets open, the rest of the pattern is balanced. *)
Definition balanced_from (depth : nat) (p : string) : Prop :=
  (∀ n, count_byte "]" (str_take n p) ≤ depth + count_byte "[" (str_take n p)) ∧
  count_byte "]" p = depth + count_byte "[" p.

Lemma forall_take_cons (P : string → Prop) c p :
  (∀ n, P (str_take n (String c p))) ↔ P EmptyString ∧ ∀ n, P (String c (str_take n p)).
Proof.
  split; [intros H; split; [exact (H 0) | intros n; exact (H (S n))] |].
  intros [H0 H] [| n]; [exact H0 | exact (H n)].
Qed.

Lemma forall_take_0 (P : string → Prop) p : (∀ n, P (str_take n p)) → P EmptyString.
Proof. intros H. specialize (H 0). by destruct p. Qed.

Lemma balanced_from_cons depth c p :
  balanced_from depth (String c p) ↔
  if Ascii.eqb c "[" then balanced_from (S depth) p
  else if Ascii.eqb c "]" then 0 < depth ∧ balanced_from (pred depth) p
  else balanced_from depth p.
Proof.
  unfold balanced_from.
  rewrite (forall_take_cons (λ q, count_byte "]" q ≤ depth + count_byte "[" q)).
  cbn [count_byte].
  destruct (Ascii.eqb_spec c "[") as [-> | Ho]; cbn [Ascii.eqb Bool.eqb];
    [| destruct (Ascii.eqb_spec c "]") as [-> | Hc]].
  - cbn. split; intros [Hn Ht]; (split; [| lia]).
    + intros n. destruct Hn as [_ Hn]. specialize (Hn n). lia.
    + split; [lia |]. intros n. specialize (Hn n). lia.
  - split.
    + intros [[_ Hn] Ht].
      pose proof (forall_take_0 (λ q, 1 + count_byte "]" q ≤ depth + (0 + count_byte "[" q)) p Hn) as H0.
      cbn in H0. split; [lia |]. split; [| lia]. intros n. specialize (Hn n). lia.
    + intros (Hd & Hn & Ht). split; [| lia]. split; [cbn; lia |].
      intros n. specialize (Hn n). lia.
  - split; intros [Hn Ht]; (split; [| lia]).
    + intros n. destruct Hn as [_ Hn]. specialize (Hn n). lia.
    + split; [cbn; lia |]. intros n. specialize (Hn n). lia.
Qed.

Lemma bracket_loop_spec p i depth :
  bracket_loop i depth p = Ok 0 ↔ balanced_from depth p.
Proof.
  revert i depth. induction p as [| c p IH]; intros i depth.
  - unfold balanced_from. cbn. split.
    + intros [= ->]. split; [intros []; cbn; lia | done].
    + intros [_ H]. f_equal. lia.
  - rewrite balanced_from_cons. cbn [bracket_loop].
    destruct (Ascii.eqb c "["); [apply IH |].
    destruct (Ascii.eqb c "]"); [| apply IH].
    destruct depth as [| depth]; [split; [done | lia] |]. cbn [pred].
    rewrite IH. intuition lia.
Qed.

(** A pattern is accepted exactly when it is not empty, is at most
    [MaxPatternLength] bytes long, and its brackets balance: as many closing
    as opening ones, and never more closing ones in a prefix. *)
Theorem ValidatePattern_spec p :
  ValidatePattern p = Ok tt ↔
  p ≠ EmptyString ∧ str_len p ≤ MaxPatternLength ∧ balanced_from 0 p.
Proof.
  unfold ValidatePattern. rewrite <- (bracket_loop_spec p 0).
  destruct (String.eqb_spec p EmptyString) as [-> | Hne]; [split; [done | tauto] |].
  destruct (Nat.ltb_spec MaxPatternLength (str_len p)); [split; [done | lia] |].
  destruct (bracket_loop 0 0 p) as [[| depth] | e]; cbn; naive_solver.
Qed.
