(* ===== verification/Calendar.v ===== *)
(** * Civil time ([time.Time] in UTC, as the schedules use it)

    The proleptic Gregorian calendar over instants given in nanoseconds since
    0001-01-01T00:00:00 UTC: the accessors [Year], [Month], [Day], [Weekday],
    [Hour], [Minute], [Second], the constructor [time.Date] with its
    normalisation of out-of-range fields, and [Truncate].  The lemmas say
    that the fields of an instant are constant on the month, day, hour and
    minute it lies in. *)

From Stdlib Require Import ZArith Lia.
From stdpp Require Import base tactics numbers.
From S2P Require Import Prelude.

Open Scope Z_scope.

Definition leap (y : Z) : bool :=
  (y mod 4 =? 0) && (negb (y mod 100 =? 0) || (y mod 400 =? 0)).

Definition leap_day (y : Z) : Z := if leap y then 1 else 0.

(** Days from 0001-01-01 to the first of January of a year. *)
Definition year_start (y : Z) : Z :=
  365 * (y - 1) + (y - 1) / 4 - (y - 1) / 100 + (y - 1) / 400.

(** Days from the first of January to the first of a month [1..12]. *)
Definition month_start (l m : Z) : Z :=
  match m with
  | 1 => 0
  | 2 => 31
  | 3 => 59 + l
  | 4 => 90 + l
  | 5 => 120 + l
  | 6 => 151 + l
  | 7 => 181 + l
  | 8 => 212 + l
  | 9 => 243 + l
  | 10 => 273 + l
  | 11 => 304 + l
  | 12 => 334 + l
  | _ => 365 + l
  end.

(** The year of a day number and the day of that year, by 400-, 100-, 4- and
    1-year cycles. *)
Definition year_of_days (d : Z) : Z :=
  let n400 := d / 146097 in
  let d := d - 146097 * n400 in
  let n100 := d / 36524 in
  let n100 := n100 - n100 / 4 in
  let d := d - 36524 * n100 in
  let n4 := d / 1461 in
  let d := d - 1461 * n4 in
  let n1 := d / 365 in
  let n1 := n1 - n1 / 4 in
  400 * n400 + 100 * n100 + 4 * n4 + n1 + 1.

Definition month_of_yday (l yd : Z) : Z :=
  if yd <? 31 then 1
  else if yd <? 59 + l then 2
  else if yd <? 90 + l then 3
  else if yd <? 120 + l then 4
  else if yd <? 151 + l then 5
  else if yd <? 181 + l then 6
  else if yd <? 212 + l then 7
  else if yd <? 243 + l then 8
  else if yd <? 273 + l then 9
  else if yd <? 304 + l then 10
  else if yd <? 334 + l then 11
  else 12.

(** ** Accessors *)

Definition DayNs : Z := 24 * Hour.
Definition days (t : time) : Z := t / DayNs.

Definition Year (t : time) : Z := year_of_days (days t).
Definition YearDay0 (t : time) : Z := days t - year_start (Year t).
Definition Month (t : time) : Z := month_of_yday (leap_day (Year t)) (YearDay0 t).
Definition Day (t : time) : Z := YearDay0 t - month_start (leap_day (Year t)) (Month t) + 1.
Definition Weekday (t : time) : Z := (days t + 1) mod 7.
Definition HourOf (t : time) : Z := t mod DayNs / Hour.
Definition MinuteOf (t : time) : Z := t mod Hour / Minute.
Definition SecondOf (t : time) : Z := t mod Minute / Second.

(** [time.Date(y, m, d, h, mi, s, 0, time.UTC)]. *)
Definition Date (y m d h mi s : Z) : time :=
  let y' := y + (m - 1) / 12 in
  let m' := (m - 1) mod 12 + 1 in
  (year_start y' + month_start (leap_day y') m' + (d - 1)) * DayNs
  + h * Hour + mi * Minute + s * Second.

Definition Truncate (t : time) (d : duration) : time := t - t mod d.

(** ** Years *)

Lemma leap_day_range y : 0 ≤ leap_day y ≤ 1.
Proof. unfold leap_day. destruct (leap y); lia. Qed.

Lemma year_length y : year_start (y + 1) = year_start y + 365 + leap_day y.
Proof.
  unfold year_start, leap_day, leap. replace (y + 1 - 1) with y by lia.
  assert (y / 4 = (y - 1) / 4 + if y mod 4 =? 0 then 1 else 0) as ->.
  { destruct (Z.eqb_spec (y mod 4) 0); Z.to_euclidean_division_equations; lia. }
  assert (y / 100 = (y - 1) / 100 + if y mod 100 =? 0 then 1 else 0) as ->.
  { destruct (Z.eqb_spec (y mod 100) 0); Z.to_euclidean_division_equations; lia. }
  assert (y / 400 = (y - 1) / 400 + if y mod 400 =? 0 then 1 else 0) as ->.
  { destruct (Z.eqb_spec (y mod 400) 0); Z.to_euclidean_division_equations; lia. }
  destruct (Z.eqb_spec (y mod 4) 0), (Z.eqb_spec (y mod 100) 0), (Z.eqb_spec (y mod 400) 0);
    simpl; try lia; exfalso; Z.to_euclidean_division_equations; lia.
Qed.

Lemma year_start_mono y y' : y ≤ y' → year_start y ≤ year_start y'.
Proof.
  intros H. rewrite <- (Zplus_minus y y'). generalize (Z.le_0_sub y y'). intros [_ Hd].
  specialize (Hd H). revert Hd. generalize (y' - y). clear.
  apply natlike_ind; [rewrite Z.add_0_r; lia |].
  intros d Hd IH. rewrite Z.add_succ_r. unfold Z.succ. rewrite year_length.
  pose proof (leap_day_range (y + d)). lia.
Qed.

Lemma year_of_days_spec d :
  year_start (year_of_days d) ≤ d < year_start (year_of_days d + 1).
Proof.
  rewrite year_length. unfold year_of_days.
  set (a := d / 146097). set (r := d - 146097 * a).
  assert (0 ≤ r < 146097) as Hr by (unfold r, a; Z.to_euclidean_division_equations; lia).
  set (b := r / 36524 - r / 36524 / 4). set (r1 := r - 36524 * b).
  assert (0 ≤ b ≤ 3 ∧ 0 ≤ r1 ∧ (r1 < 36524 ∨ b = 3 ∧ r1 = 36524)) as (Hb & Hr1 & Hr1')
    by (unfold r1, b; Z.to_euclidean_division_equations; lia).
  set (c := r1 / 1461). set (r2 := r1 - 1461 * c).
  assert (0 ≤ c ≤ 24 ∧ 0 ≤ r2 < 1461 ∧ (c = 24 → r2 ≤ 1459 ∨ b = 3 ∧ r2 = 1460)) as (Hc & Hr2 & Hr2')
    by (unfold r2, c; Z.to_euclidean_division_equations; lia).
  set (e := r2 / 365 - r2 / 365 / 4).
  assert (0 ≤ e ≤ 3 ∧ 0 ≤ r2 - 365 * e ∧ (r2 - 365 * e < 365 ∨ e = 3 ∧ r2 - 365 * e = 365)) as (He & Hr3 & Hr3')
    by (unfold e; Z.to_euclidean_division_equations; lia).
  assert (d = 146097 * a + 36524 * b + 1461 * c + r2) as Hd by (unfold r2, r1, r; lia).
  clearbody a b c e r2. clear r r1 Hr Hr1 Hr1'.
  assert (year_start (400 * a + 100 * b + 4 * c + e + 1) = 146097 * a + 36524 * b + 1461 * c + 365 * e) as ->.
  { unfold year_start. Z.to_euclidean_division_equations. lia. }
  split; [lia |].
  destruct Hr3' as [| [-> Hr3']]; [pose proof (leap_day_range (400 * a + 100 * b + 4 * c + e + 1)); lia |].
  assert (leap_day (400 * a + 100 * b + 4 * c + 3 + 1) = 1) as ->; [| lia].
  unfold leap_day, leap.
  destruct (Z.eqb_spec ((400 * a + 100 * b + 4 * c + 3 + 1) mod 4) 0);
    [| exfalso; Z.to_euclidean_division_equations; lia].
  destruct (Z.eqb_spec ((400 * a + 100 * b + 4 * c + 3 + 1) mod 100) 0) as [H100 |]; [| done].
  assert (c = 24) as -> by (Z.to_euclidean_division_equations; lia).
  destruct Hr2' as [| [-> _]]; [done | lia |].
  destruct (Z.eqb_spec ((400 * a + 100 * 3 + 4 * 24 + 3 + 1) mod 400) 0); [done |].
  exfalso; Z.to_euclidean_division_equations; lia.
Qed.

Lemma year_of_days_unique d y :
  year_start y ≤ d < year_start (y + 1) → year_of_days d = y.
Proof.
  intros H. pose proof (year_of_days_spec d) as Hs.
  destruct (Z.lt_trichotomy (year_of_days d) y) as [Hlt | [-> | Hgt]]; [| done |].
  - pose proof (year_start_mono (year_of_days d + 1) y ltac:(lia)). lia.
  - pose proof (year_start_mono (y + 1) (year_of_days d) ltac:(lia)). lia.
Qed.

(** ** Months *)

(** Evaluate the number of the next month where the month is a numeral. *)
Ltac next_month_number :=
  repeat match goal with
  | H : context [month_start ?l (Zpos ?m + 1)] |- _ =>
      let n := eval vm_compute in (Zpos m + 1) in
      change (month_start l (Zpos m + 1)) with (month_start l n) in H
  | |- context [month_start ?l (Zpos ?m + 1)] =>
      let n := eval vm_compute in (Zpos m + 1) in
      change (month_start l (Zpos m + 1)) with (month_start l n)
  end.

Lemma month_cases m :
  1 ≤ m ≤ 12 →
  m = 1 ∨ m = 2 ∨ m = 3 ∨ m = 4 ∨ m = 5 ∨ m = 6 ∨ m = 7 ∨ m = 8 ∨ m = 9 ∨ m = 10
  ∨ m = 11 ∨ m = 12.
Proof. lia. Qed.

Lemma month_start_range l m :
  0 ≤ l ≤ 1 → 1 ≤ m ≤ 12 → 0 ≤ month_start l m ∧ month_start l (m + 1) ≤ 365 + l.
Proof.
  intros Hl Hm. pose proof (month_cases m Hm) as Hc.
  destruct_or! Hc; subst m; next_month_number; cbn [month_start]; lia.
Qed.

Lemma month_of_yday_range l yd : 1 ≤ month_of_yday l yd ≤ 12.
Proof. unfold month_of_yday. repeat case_match; lia. Qed.

Lemma month_of_yday_spec l yd :
  0 ≤ l ≤ 1 → 0 ≤ yd < 365 + l →
  month_start l (month_of_yday l yd) ≤ yd < month_start l (month_of_yday l yd + 1).
Proof.
  intros Hl Hyd. unfold month_of_yday.
  repeat case_match; zbool; next_month_number; cbn [month_start]; lia.
Qed.

Lemma month_of_yday_unique l m yd :
  0 ≤ l ≤ 1 → 1 ≤ m ≤ 12 → month_start l m ≤ yd < month_start l (m + 1) →
  month_of_yday l yd = m.
Proof.
  intros Hl Hm Hyd.
  pose proof (month_cases m Hm) as Hc. unfold month_of_yday. destruct_or! Hc; subst m;
    next_month_number; cbn [month_start] in *; repeat case_match; zbool; lia.
Qed.

(** The first instant of the month after the one of [t]. *)
Definition next_month (t : time) : time := Date (Year t) (Month t + 1) 1 0 0 0.

Definition month_end_days (t : time) : Z :=
  year_start (Year t) + month_start (leap_day (Year t)) (Month t + 1).

Lemma Month_range t : 1 ≤ Month t ≤ 12.
Proof. apply month_of_yday_range. Qed.

Lemma YearDay0_range t : 0 ≤ YearDay0 t < 365 + leap_day (Year t).
Proof.
  unfold YearDay0. pose proof (year_of_days_spec (days t)) as H.
  rewrite year_length in H. unfold Year. lia.
Qed.

Lemma month_bounds t :
  year_start (Year t) + month_start (leap_day (Year t)) (Month t) ≤ days t < month_end_days t.
Proof.
  unfold month_end_days.
  pose proof (month_of_yday_spec _ _ (leap_day_range (Year t)) (YearDay0_range t)) as H.
  fold (Month t) in H. unfold YearDay0 in H. lia.
Qed.

Lemma next_month_days t : next_month t = month_end_days t * DayNs.
Proof.
  unfold next_month, Date, month_end_days. pose proof (Month_range t) as Hm.
  replace (Month t + 1 - 1) with (Month t) by lia.
  destruct (decide (Month t = 12)) as [E | E].
  - rewrite E. change (12 / 12) with 1. change (12 mod 12 + 1) with 1. rewrite year_length.
    next_month_number; cbn [month_start]. unfold DayNs, Hour, Minute, Second. lia.
  - rewrite Z.div_small, Z.mod_small by lia. rewrite (Z.add_0_r (Year t)).
    unfold DayNs, Hour, Minute, Second. lia.
Qed.

Lemma same_month t u :
  t ≤ u < next_month t → Month u = Month t ∧ Year u = Year t.
Proof.
  intros H. rewrite next_month_days in H.
  assert (days t ≤ days u < month_end_days t) as Hd.
  { unfold days, DayNs, Hour, Minute, Second in *. Z.to_euclidean_division_equations; lia. }
  pose proof (month_bounds t) as Hb. pose proof (leap_day_range (Year t)) as Hl.
  pose proof (Month_range t) as Hm.
  assert (month_start (leap_day (Year t)) (Month t + 1) ≤ 365 + leap_day (Year t)
          ∧ 0 ≤ month_start (leap_day (Year t)) (Month t)) as [Hup Hlow].
  { destruct (month_start_range _ _ Hl Hm); lia. }
  unfold month_end_days in *.
  assert (Year u = Year t) as Hy.
  { unfold Year at 1. apply year_of_days_unique. rewrite year_length. lia. }
  split; [| done]. unfold Month at 1. rewrite Hy.
  apply month_of_yday_unique; [done | done |]. unfold YearDay0. rewrite Hy. lia.
Qed.

(** ** Days, hours and minutes *)

Definition next_day (t : time) : time := Date (Year t) (Month t) (Day t + 1) 0 0 0.
Definition next_hour (t : time) : time :=
  Date (Year t) (Month t) (Day t) (HourOf t + 1) 0 0.
Definition next_minute (t : time) : time :=
  Date (Year t) (Month t) (Day t) (HourOf t) (MinuteOf t + 1) 0.

(** [time.Date] of the date of an instant gives its day number back. *)
Lemma Date_of_fields t h mi s k :
  Date (Year t) (Month t) (Day t + k) h mi s
  = (days t + k) * DayNs + h * Hour + mi * Minute + s * Second.
Proof.
  unfold Date. pose proof (Month_range t).
  rewrite Z.div_small, Z.mod_small by lia. rewrite (Z.add_0_r (Year t)).
  replace (Month t - 1 + 1) with (Month t) by lia.
  unfold Day, YearDay0. lia.
Qed.

Lemma next_day_eq t : next_day t = (days t + 1) * DayNs.
Proof. unfold next_day. rewrite Date_of_fields. lia. Qed.

Lemma next_hour_eq t : next_hour t = (t / Hour + 1) * Hour.
Proof.
  unfold next_hour. rewrite <- (Z.add_0_r (Day t)), Date_of_fields.
  unfold HourOf, days, DayNs, Hour, Minute, Second.
  Z.to_euclidean_division_equations; lia.
Qed.

Lemma next_minute_eq t : next_minute t = (t / Minute + 1) * Minute.
Proof.
  unfold next_minute. rewrite <- (Z.add_0_r (Day t)), Date_of_fields.
  unfold HourOf, MinuteOf, days, DayNs, Hour, Minute, Second.
  Z.to_euclidean_division_equations; lia.
Qed.

Lemma same_day t u : t ≤ u < next_day t → days u = days t.
Proof.
  rewrite next_day_eq. unfold days, DayNs, Hour, Minute, Second.
  intros; Z.to_euclidean_division_equations; lia.
Qed.

Lemma same_hour t u : t ≤ u < next_hour t → days u = days t ∧ HourOf u = HourOf t.
Proof.
  rewrite next_hour_eq. unfold HourOf, days, DayNs, Hour, Minute, Second.
  intros; split; Z.to_euclidean_division_equations; lia.
Qed.

Lemma same_minute t u :
  t ≤ u < next_minute t → days u = days t ∧ HourOf u = HourOf t ∧ MinuteOf u = MinuteOf t.
Proof.
  rewrite next_minute_eq. unfold MinuteOf, HourOf, days, DayNs, Hour, Minute, Second.
  intros; repeat split; Z.to_euclidean_division_equations; lia.
Qed.

(** The fields of the date are functions of the day number. *)
Lemma date_of_days t u :
  days u = days t →
  Year u = Year t ∧ Month u = Month t ∧ Day u = Day t ∧ Weekday u = Weekday t.
Proof.
  intros H.
  assert (Year u = Year t) as Hy by (unfold Year; by rewrite H).
  assert (YearDay0 u = YearDay0 t) as Hyd by (unfold YearDay0; by rewrite H, Hy).
  assert (Month u = Month t) as Hm by (unfold Month; by rewrite Hy, Hyd).
  repeat split; [done | done | |].
  - unfold Day. by rewrite Hyd, Hy, Hm.
  - unfold Weekday. by rewrite H.
Qed.

(** A step to the next unit goes forward by at least one second when [t] is a
    whole number of seconds. *)
Lemma next_month_after t : t mod Second = 0 → t + Second ≤ next_month t.
Proof.
  rewrite next_month_days. pose proof (month_bounds t) as H. revert H.
  unfold days, DayNs, Hour, Minute, Second. generalize (month_end_days t). intros n H Ht.
  Z.to_euclidean_division_equations; lia.
Qed.

Lemma next_unit_after t :
  t mod Second = 0 →
  t + Second ≤ next_day t ∧ t + Second ≤ next_hour t ∧ t + Second ≤ next_minute t.
Proof.
  rewrite next_day_eq, next_hour_eq, next_minute_eq.
  unfold days, DayNs, Hour, Minute, Second. intros Ht.
  repeat split; Z.to_euclidean_division_equations; lia.
Qed.

Lemma next_aligned t :
  next_month t mod Minute = 0 ∧ next_day t mod Minute = 0 ∧
  next_hour t mod Minute = 0 ∧ next_minute t mod Minute = 0.
Proof.
  rewrite next_month_days, next_day_eq, next_hour_eq, next_minute_eq.
  assert (∀ a, (a * DayNs) mod Minute = 0) as Hd.
  { intros a. replace (a * DayNs) with (a * 1440 * Minute) by (unfold DayNs, Hour; lia).
    by apply Z.mod_mul. }
  assert (∀ a, (a * Hour) mod Minute = 0) as Hh.
  { intros a. replace (a * Hour) with (a * 60 * Minute) by (unfold Hour; lia).
    by apply Z.mod_mul. }
  repeat split; [apply Hd | apply Hd | apply Hh | by apply Z.mod_mul].
Qed.
