(* ===== verification/Cron.v ===== *)
(** * Cron schedules ([core/pkg/serverless/triggers/cron_parser.go])

    Parsing of 5- and 6-field expressions into bit masks and the search for
    the next occurrence.  A [fieldMatcher] is a [uint64] kept as a [Z]; the
    loop that fills it adds its step with 64-bit wrap-around. *)

From Stdlib Require Import ZArith Lia Ascii String.
From stdpp Require Import base tactics numbers list strings.
From S2P Require Import Prelude GoStrings Calendar.

Open Scope Z_scope.
Open Scope go_scope.

(** ** Data *)

Abbreviation fieldMatcher := Z (only parsing).

Record CronExpression := mkCron {
  hasSeconds : bool;
  seconds : fieldMatcher;
  minutes : fieldMatcher;
  hours : fieldMatcher;
  dom : fieldMatcher;
  month : fieldMatcher;
  dow : fieldMatcher;
  expr : string
}.

Inductive FieldError :=
| ErrEmptyField
| ErrBadStep (seg : string)
| ErrBadRange (seg : string)
| ErrBadValue (seg : string)
| ErrOutOfRange (rangeLo rangeHi lo hi : Z).

Inductive CronError :=
| ErrEmptyExpression
| ErrFieldCount (n : nat)
| ErrField (what : string) (e : FieldError)
| ErrNoMatch (e : string).

(** ** Parsing *)

Definition field_match (f : fieldMatcher) (v : Z) : bool :=
  if (v <? 0) || (64 <=? v) then false
  else negb (Z.land f (Z.shiftl 1 v) =? 0).

(** [1 << uint(v)] in a [uint64]: a shift by 64 or more gives 0, and the
    conversion makes a negative [v] such a shift. *)
Definition shl1 (v : Z) : Z := if (v <? 0) || (64 <=? v) then 0 else Z.shiftl 1 v.

(** [for v := rangeLo; v <= rangeHi; v += step]. *)
Fixpoint fill_range (fuel : nat) (v rangeHi step : Z) (mask : fieldMatcher) : option fieldMatcher :=
  match fuel with
  | O => None
  | S fuel' =>
      if v <=? rangeHi then
        if 64 <=? v then fill_range fuel' (wrap64 (v + step)) rangeHi step mask
        else fill_range fuel' (wrap64 (v + step)) rangeHi step (Z.lor mask (shl1 v))
      else Some mask
  end.

Definition range_fuel : nat := 128.

(** The range and the step of one comma-separated segment. *)
Definition parse_segment (lo hi : Z) (segment : string) : result FieldError (Z * Z * Z) :=
  let seg := TrimSpace segment in
  let! '(seg, step) :=
    match IndexByte seg "/" with
    | Some i =>
        match Atoi (str_drop (S i) seg) with
        | Some n => if n <=? 0 then Err (ErrBadStep seg) else Ok (str_take i seg, n)
        | None => Err (ErrBadStep seg)
        end
    | None => Ok (seg, 1)
    end in
  let! '(rangeLo, rangeHi) :=
    if String.eqb seg "*" then Ok (lo, hi)
    else match SplitN2 seg "-" with
         | Some (a, b) =>
             match Atoi a, Atoi b with
             | Some x, Some y => Ok (x, y)
             | _, _ => Err (ErrBadRange seg)
             end
         | None =>
             match Atoi seg with
             | Some n => Ok (n, n)
             | None => Err (ErrBadValue seg)
             end
         end in
  if (rangeLo <? lo) || (hi <? rangeHi) || (rangeHi <? rangeLo)
  then Err (ErrOutOfRange rangeLo rangeHi lo hi)
  else Ok (rangeLo, rangeHi, step).

Fixpoint parse_segments (lo hi : Z) (segments : list string) (mask : fieldMatcher)
    : result FieldError fieldMatcher :=
  match segments with
  | [] => Ok mask
  | segment :: rest =>
      let! '(rangeLo, rangeHi, step) := parse_segment lo hi segment in
      parse_segments lo hi rest (default mask (fill_range range_fuel rangeLo rangeHi step mask))
  end.

Definition parseField (s : string) (lo hi : Z) : result FieldError fieldMatcher :=
  if String.eqb s EmptyString then Err ErrEmptyField
  else parse_segments lo hi (Split s ",") 0.

Definition field (what : string) (s : string) (lo hi : Z) : result CronError fieldMatcher :=
  match parseField s lo hi with
  | Ok m => Ok m
  | Err e => Err (ErrField what e)
  end.

(** The five fields every layout has. *)
Definition parse_five (e : string) (hasSec : bool) (sec : fieldMatcher) (mi hr d mo w : string)
    : result CronError CronExpression :=
  let! min := field "minutes" mi 0 59 in
  let! h := field "hours" hr 0 23 in
  let! dm := field "day-of-month" d 1 31 in
  let! m := field "month" mo 1 12 in
  let! wd := field "day-of-week" w 0 7 in
  let wd := if field_match wd 7 then Z.lor wd 1 else wd in
  Ok (mkCron hasSec sec min h dm m (Z.land wd 127) e).

Definition ParseCron (e : string) : result CronError CronExpression :=
  let e := TrimSpace e in
  if String.eqb e EmptyString then Err ErrEmptyExpression
  else match Fields e with
       | [mi; hr; d; mo; w] => parse_five e false 0 mi hr d mo w
       | [se; mi; hr; d; mo; w] =>
           let! sec := field "seconds" se 0 59 in
           parse_five e true sec mi hr d mo w
       | parts => Err (ErrFieldCount (length parts))
       end.

(** ** The next occurrence *)

Definition horizon : duration := 5 * 365 * 24 * Hour.

(** One round of the search loop. *)
Definition next_round (c : CronExpression) (deadline : time) (t : time)
    : time + result CronError time :=
  if negb (Before t deadline) then inr (Err (ErrNoMatch (expr c)))
  else if negb (field_match (month c) (Month t))
  then inl (Date (Year t) (Month t + 1) 1 0 0 0)
  else if negb (field_match (dom c) (Day t)) || negb (field_match (dow c) (Weekday t))
  then inl (Date (Year t) (Month t) (Day t + 1) 0 0 0)
  else if negb (field_match (hours c) (HourOf t))
  then inl (Date (Year t) (Month t) (Day t) (HourOf t + 1) 0 0)
  else if negb (field_match (minutes c) (MinuteOf t))
  then inl (Date (Year t) (Month t) (Day t) (HourOf t) (MinuteOf t + 1) 0)
  else if hasSeconds c && negb (field_match (seconds c) (SecondOf t))
  then inl (t + Second)
  else inr (Ok t).

Definition first_candidate (c : CronExpression) (after : time) : time :=
  if hasSeconds c then Truncate (after + Second) Second
  else Truncate (after + Minute) Minute.

(** The search makes at most one round per second of the horizon, which is
    less than [2 ^ 28] seconds. *)
Definition next_bound : nat := 28.

Definition Next (c : CronExpression) (after : time) : result CronError time :=
  match iterate (next_round c (after + horizon)) next_bound (first_candidate c after) with
  | inr r => r
  | inl _ => Err (ErrNoMatch (expr c))
  end.

(** ** What a schedule means *)

Definition granularity (c : CronExpression) : duration := if hasSeconds c then Second else Minute.

(** An instant is an occurrence when it is a whole number of seconds (or
    minutes) and each of its fields is accepted. *)
Definition occurrence (c : CronExpression) (u : time) : Prop :=
  u mod granularity c = 0 ∧
  field_match (month c) (Month u) = true ∧
  field_match (dom c) (Day u) = true ∧
  field_match (dow c) (Weekday u) = true ∧
  field_match (hours c) (HourOf u) = true ∧
  field_match (minutes c) (MinuteOf u) = true ∧
  (hasSeconds c = true → field_match (seconds c) (SecondOf u) = true).

(** ** Lemmas on the search *)

#[local] Opaque Date Year Month Day Weekday HourOf MinuteOf SecondOf.

Lemma granularity_pos c : 0 < granularity c.
Proof. unfold granularity. destruct (hasSeconds c); reflexivity. Qed.

Lemma minute_aligned c t : t mod Minute = 0 → t mod granularity c = 0.
Proof.
  unfold granularity. destruct (hasSeconds c); [| done].
  unfold Minute, Second. Z.to_euclidean_division_equations; lia.
Qed.

Lemma aligned_seconds c t : t mod granularity c = 0 → t mod Second = 0.
Proof.
  unfold granularity. destruct (hasSeconds c); [done |].
  unfold Minute, Second. Z.to_euclidean_division_equations; lia.
Qed.

(** The first candidate is the first aligned instant after [after]. *)
Lemma first_candidate_spec c after :
  let t := first_candidate c after in
  after < t ≤ after + granularity c ∧ t mod granularity c = 0
  ∧ ∀ u, after < u < t → u mod granularity c ≠ 0.
Proof.
  simpl. assert (first_candidate c after = Truncate (after + granularity c) (granularity c)) as ->.
  { unfold first_candidate, granularity. by destruct (hasSeconds c). }
  pose proof (granularity_pos c) as Hg. unfold Truncate. generalize dependent (granularity c).
  intros g Hg. split; [| split].
  - pose proof (Z.mod_pos_bound (after + g) g Hg). lia.
  - rewrite Zminus_mod_idemp_r, Z.sub_diag. done.
  - intros u Hu E. apply Z.div_exact in E; [| lia].
    pose proof (Z.div_mod (after + g) g ltac:(lia)) as Hd.
    assert (after + g - (after + g) mod g = g * ((after + g) / g)) as E2 by lia.
    rewrite E2 in Hu. rewrite E in Hu. assert (u / g < (after + g) / g) by nia.
    pose proof (Z.mod_pos_bound (after + g) g Hg). nia.
Qed.

Definition search_inv (c : CronExpression) (after : time) (t : time) : Prop :=
  after < t ∧ t mod granularity c = 0 ∧ ∀ u, after < u < t → ¬ occurrence c u.

(** A jump to a later aligned instant keeps the invariant when nothing between
    the two is an occurrence. *)
Lemma search_inv_jump c after t t' :
  search_inv c after t → t + Second ≤ t' → t' mod granularity c = 0 →
  (∀ u, t ≤ u < t' → ¬ occurrence c u) →
  search_inv c after t'.
Proof.
  intros (Ht & Ha & Hno) Htt' Ha' Hskip. unfold Second in Htt'.
  split; [lia |]. split; [done |].
  intros u Hu. destruct (Z.lt_ge_cases u t); [apply Hno | apply Hskip]; lia.
Qed.

Lemma aligned_unique t u d : t mod d = 0 → u mod d = 0 → t ≤ u < t + d → u = t.
Proof.
  intros Ht Hu H. apply Z.div_exact in Ht, Hu; [| lia..].
  rewrite Ht, Hu in H. assert (t / d = u / d) by nia. congruence.
Qed.

Lemma next_round_spec c after t :
  search_inv c after t →
  match next_round c (after + horizon) t with
  | inl t' => search_inv c after t' ∧ t + Second ≤ t' ∧ t < after + horizon
  | inr (Ok r) => after < r < after + horizon ∧ occurrence c r ∧ ∀ u, after < u < r → ¬ occurrence c u
  | inr (Err _) => ∀ u, after < u < after + horizon → ¬ occurrence c u
  end.
Proof.
  intros Hinv. pose proof Hinv as (Hat & Hal & Hno). unfold next_round, Before.
  pose proof (aligned_seconds c t Hal) as Hsec.
  pose proof (next_unit_after t Hsec) as (Hd & Hh & Hm).
  pose proof (next_month_after t Hsec) as Hmo.
  pose proof (next_aligned t) as (Amo & Ad & Ah & Am).
  destruct (Z.ltb_spec t (after + horizon)) as [Hlt | Hge]; cbn [negb].
  2: { intros u Hu. apply Hno. lia. }
  destruct (field_match (month c) (Month t)) eqn:Emo; cbn [negb].
  2: { change (Date (Year t) (Month t + 1) 1 0 0 0) with (next_month t). split; [| split; assumption].
       apply (search_inv_jump c after t); [assumption | assumption | apply minute_aligned; assumption |].
       intros u Hu (_ & Ho & _). destruct (same_month t u Hu) as [Hmu _]. congruence. }
  destruct (negb (field_match (dom c) (Day t)) || negb (field_match (dow c) (Weekday t))) eqn:Eday.
  { change (Date (Year t) (Month t) (Day t + 1) 0 0 0) with (next_day t). split; [| split; assumption].
    apply (search_inv_jump c after t); [assumption | assumption | apply minute_aligned; assumption |].
    intros u Hu (_ & _ & Ho1 & Ho2 & _).
    destruct (date_of_days t u (same_day t u Hu)) as (_ & _ & Hdu & Hwu).
    rewrite Hdu in Ho1. rewrite Hwu in Ho2. by rewrite Ho1, Ho2 in Eday. }
  destruct (field_match (hours c) (HourOf t)) eqn:Eh; cbn [negb].
  2: { change (Date (Year t) (Month t) (Day t) (HourOf t + 1) 0 0) with (next_hour t). split; [| split; assumption].
       apply (search_inv_jump c after t); [assumption | assumption | apply minute_aligned; assumption |].
       intros u Hu (_ & _ & _ & _ & Ho & _). destruct (same_hour t u Hu) as [_ Hhu]. congruence. }
  destruct (field_match (minutes c) (MinuteOf t)) eqn:Emi; cbn [negb].
  2: { change (Date (Year t) (Month t) (Day t) (HourOf t) (MinuteOf t + 1) 0) with (next_minute t). split; [| split; assumption].
       apply (search_inv_jump c after t); [assumption | assumption | apply minute_aligned; assumption |].
       intros u Hu (_ & _ & _ & _ & _ & Ho & _).
       destruct (same_minute t u Hu) as (_ & _ & Hmu). congruence. }
  apply orb_false_iff in Eday as [E1 E2]. zbool.
  destruct (hasSeconds c && negb (field_match (seconds c) (SecondOf t))) eqn:Es.
  - apply andb_true_iff in Es as [Hs Es]. zbool. unfold granularity in *. rewrite Hs in *.
    split; [| split; [lia | done]].
    assert (granularity c = Second) as Hg by (unfold granularity; by rewrite Hs).
    apply (search_inv_jump c after t); [done | lia | |].
    + rewrite Hg, <- Zplus_mod_idemp_l, Hal. done.
    + intros u Hu (Hua & _ & _ & _ & _ & _ & Ho). rewrite Hg in Hua.
      pose proof (aligned_unique t u Second Hal Hua ltac:(lia)) as ->.
      rewrite (Ho Hs) in Es. done.
  - split; [lia |]. split; [| done]. repeat split; try done.
    intros Hs. rewrite Hs in Es. by apply negb_false_iff in Es.
Qed.

(** What the search may answer: the first occurrence after [after], or none
    before the horizon. *)
Definition next_result (c : CronExpression) (after : time) (r : result CronError time) : Prop :=
  match r with
  | Ok t => after < t < after + horizon ∧ occurrence c t ∧ ∀ u, after < u < t → ¬ occurrence c u
  | Err e => e = ErrNoMatch (expr c) ∧ ∀ u, after < u < after + horizon → ¬ occurrence c u
  end.

Lemma Next_result c after : next_result c after (Next c after).
Proof.
  destruct (first_candidate_spec c after) as (Hf & Ha & Hskip).
  edestruct (iterate_returns (next_round c (after + horizon)) (search_inv c after)
    (λ t, (after + horizon - t) / Second) (next_result c after)) as (r & Hr & Hpost).
  4: { unfold Next. rewrite Hr. exact Hpost. }
  - intros t Hinv. pose proof (next_round_spec c after t Hinv) as H.
    destruct (next_round c (after + horizon) t) as [t' | [r | e]] eqn:Hround; [| done |].
    + destruct H as (Hinv' & Hstep & Hlt). split; [done |].
      unfold Second in *. Z.to_euclidean_division_equations; lia.
    + split; [| done]. unfold next_round in Hround. repeat case_match; congruence.
  - split; [lia |]. split; [done |]. intros u Hu [Hua _]. by eapply Hskip.
  - change (2 ^ Z.of_nat next_bound) with 268435456. unfold horizon, Hour, Minute, Second in *.
    Z.to_euclidean_division_equations; lia.
Qed.

(** C31: the search always ends, and it ends with the first occurrence after
    the given instant, or with an error exactly when no instant before the
    five-year horizon is an occurrence. *)
Theorem Next_spec c after :
  match Next c after with
  | Ok t => after < t < after + horizon ∧ occurrence c t
            ∧ ∀ u, after < u < t → ¬ occurrence c u
  | Err e => e = ErrNoMatch (expr c) ∧ ∀ u, after < u < after + horizon → ¬ occurrence c u
  end.
Proof. generalize (Next_result c after). generalize (Next c after). intros [t | e] H; exact H. Qed.

Lemma Next_after c after t : Next c after = Ok t → after < t.
Proof. generalize (Next_result c after). generalize (Next c after). intros r Hr ->. apply Hr. Qed.

#[local] Transparent Date Year Month Day Weekday HourOf MinuteOf SecondOf.

(** ** Lemmas on masks *)

Lemma field_match_testbit f v : 0 ≤ v < 64 → field_match f v = Z.testbit f v.
Proof.
  intros Hv. unfold field_match.
  destruct (Z.ltb_spec v 0), (Z.leb_spec 64 v); try lia. cbn [orb].
  destruct (Z.eqb_spec (Z.land f (Z.shiftl 1 v)) 0) as [E | E]; cbn [negb].
  - symmetry. apply (f_equal (λ z, Z.testbit z v)) in E.
    rewrite Z.land_spec, Z.shiftl_spec, Z.sub_diag, Z.bits_0 in E by lia.
    by rewrite andb_true_r in E.
  - destruct (Z.testbit f v) eqn:Hb; [done |]. destruct E. apply Z.bits_inj'. intros n Hn.
    rewrite Z.land_spec, Z.bits_0, Z.shiftl_spec by lia.
    destruct (Z.eq_dec n v) as [-> | Hne]; [by rewrite Hb |].
    destruct (Z.lt_ge_cases (n - v) 0); [by rewrite (Z.testbit_neg_r 1), andb_false_r by lia |].
    rewrite (Z.bits_above_log2 1 (n - v)); [by rewrite andb_false_r | lia | simpl; lia].
Qed.

Lemma field_match_range f v : field_match f v = true → 0 ≤ v < 64.
Proof.
  unfold field_match. destruct (Z.ltb_spec v 0), (Z.leb_spec 64 v); done || lia.
Qed.

Lemma shl1_testbit v w : 0 ≤ w → Z.testbit (shl1 v) w = (w =? v) && (v <? 64).
Proof.
  intros Hw. unfold shl1. destruct (Z.ltb_spec v 0), (Z.leb_spec 64 v); cbn [orb].
  - lia.
  - rewrite Z.bits_0. destruct (Z.eqb_spec w v); [lia | done].
  - rewrite Z.bits_0. destruct (Z.ltb_spec v 64); [lia |]. by rewrite andb_false_r.
  - destruct (Z.ltb_spec v 64); [| lia]. rewrite andb_true_r, Z.shiftl_spec by lia.
    destruct (Z.eqb_spec w v) as [-> | Hne]; [by rewrite Z.sub_diag |].
    destruct (Z.lt_ge_cases (w - v) 0); [by rewrite Z.testbit_neg_r by lia |].
    apply (Z.bits_above_log2 1); simpl; lia.
Qed.

(** ** Filling a range *)

(** A step that cannot pass the top of an [int64] before the range ends. *)
Definition safe_step (step : Z) : Prop := 1 ≤ step ≤ maxInt64 - 63.

Lemma fill_range_safe fuel v rangeHi step mask :
  0 ≤ v → rangeHi < 64 → safe_step step → Z.max 0 (rangeHi - v + 1) < Z.of_nat fuel →
  ∃ m, fill_range fuel v rangeHi step mask = Some m ∧
    ∀ w, 0 ≤ w → Z.testbit m w = true ↔
      Z.testbit mask w = true ∨ v ≤ w ≤ rangeHi ∧ (step | w - v).
Proof.
  intros Hv Hhi Hstep. revert v mask Hv.
  induction fuel as [| fuel IH]; intros v mask Hv Hfuel; cbn [fill_range].
  - lia.
  - destruct (Z.leb_spec v rangeHi).
    2: { exists mask. split; [done |]. intros w Hw. split; [auto | intros [? | [? _]]; [done | lia]]. }
    destruct (Z.leb_spec 64 v); [lia |]. unfold safe_step, maxInt64 in Hstep.
    rewrite (wrap64_id (v + step)) by (unfold in_int64; lia).
    destruct (IH (v + step) (Z.lor mask (shl1 v)) ltac:(lia) ltac:(lia)) as (m & Hm & Hbits).
    exists m. split; [done |]. intros w Hw. rewrite (Hbits w Hw), Z.lor_spec, shl1_testbit by done.
    rewrite orb_true_iff, andb_true_iff, Z.eqb_eq, Z.ltb_lt. split.
    + intros [[Hb | [-> _]] | [Hr Hd]]; [by left | right | right].
      * rewrite Z.sub_diag. split; [lia | apply Z.divide_0_r].
      * split; [lia |]. replace (w - v) with (w - (v + step) + step) by lia.
        apply Z.divide_add_r; [done | apply Z.divide_refl].
    + intros [Hb | [Hr Hd]]; [by left; left |].
      destruct (Z.eq_dec w v) as [-> | Hne]; [left; right; lia | right].
      pose proof (Z.divide_pos_le step (w - v) ltac:(lia) Hd). split; [lia |].
      replace (w - (v + step)) with (w - v - step) by lia.
      apply Z.divide_sub_r; [done | apply Z.divide_refl].
Qed.

(** Whatever the step, the loop ends, keeps the bits it was given, sets the
    bit of its first value and sets no bit above the range: a step that
    wraps around takes [v] down by an even amount every second round. *)
Definition filled (v rangeHi : Z) (mask m : fieldMatcher) : Prop :=
  (∀ w, 0 ≤ w → Z.testbit mask w = true → Z.testbit m w = true) ∧
  (0 ≤ v → Z.testbit m v = true) ∧
  (∀ w, rangeHi < w → Z.testbit m w = true → Z.testbit mask w = true).

Lemma filled_step v v' rangeHi mask m :
  v ≤ rangeHi → rangeHi < 64 →
  filled v' rangeHi (Z.lor mask (shl1 v)) m ∨ m = Z.lor mask (shl1 v) →
  filled v rangeHi mask m.
Proof.
  intros Hv Hhi Hf.
  assert (∀ w, 0 ≤ w → Z.testbit (Z.lor mask (shl1 v)) w = Z.testbit mask w || ((w =? v) && (v <? 64)))
    as Hbit by (intros w Hw; by rewrite Z.lor_spec, shl1_testbit).
  assert (∀ w, 0 ≤ w → Z.testbit (Z.lor mask (shl1 v)) w = true → Z.testbit m w = true) as Hkeep.
  { destruct Hf as [(Hk & _) | ->]; auto. }
  assert (∀ w, rangeHi < w → Z.testbit m w = true → Z.testbit (Z.lor mask (shl1 v)) w = true) as Hup.
  { destruct Hf as [(_ & _ & Hk) | ->]; auto. }
  split; [| split].
  - intros w Hw Hb. apply Hkeep; [done |]. by rewrite Hbit, Hb.
  - intros H0. apply Hkeep; [done |]. rewrite Hbit, Z.eqb_refl by done.
    destruct (Z.ltb_spec v 64); [by rewrite orb_true_r | lia].
  - intros w Hw Hb. pose proof (Hup w Hw Hb) as Hb'.
    destruct (Z.lt_ge_cases w 0); [by rewrite Z.testbit_neg_r in Hb |].
    rewrite Hbit in Hb' by done. destruct (Z.eqb_spec w v); [lia |].
    by rewrite andb_false_l, orb_false_r in Hb'.
Qed.

Lemma fill_range_stop fuel v rangeHi step mask :
  rangeHi < v → (0 < fuel)%nat → fill_range fuel v rangeHi step mask = Some mask.
Proof.
  intros Hv Hf. destruct fuel as [| fuel]; [lia |]. cbn [fill_range].
  by destruct (Z.leb_spec v rangeHi); [lia |].
Qed.

Lemma fill_range_go fuel v rangeHi step mask :
  v ≤ rangeHi → rangeHi < 64 →
  fill_range (S fuel) v rangeHi step mask
  = fill_range fuel (wrap64 (v + step)) rangeHi step (Z.lor mask (shl1 v)).
Proof.
  intros Hv Hhi. cbn [fill_range]. destruct (Z.leb_spec v rangeHi); [| lia].
  by destruct (Z.leb_spec 64 v); [lia |].
Qed.

Lemma wrap64_over z : 2 ^ 63 ≤ z < 2 ^ 64 → wrap64 z = z - 2 ^ 64.
Proof.
  intros Hz. unfold wrap64. rewrite <- (Z.mod_unique (z + 2 ^ 63) (2 ^ 64) 1 (z - 2 ^ 63)); lia.
Qed.

(** Two rounds of a wrapping step [2^63 - k]. *)
Lemma fill_range_wrap n fuel v rangeHi k mask :
  v ≤ Z.of_nat n → 0 ≤ v ≤ rangeHi → rangeHi < 64 → 1 ≤ k ≤ 63 → v + 3 < Z.of_nat fuel →
  ∃ m, fill_range fuel v rangeHi (2 ^ 63 - k) mask = Some m ∧ filled v rangeHi mask m.
Proof.
  revert fuel v mask. induction n as [n IH] using lt_wf_ind.
  intros fuel v mask Hn Hv Hhi Hk Hfuel.
  destruct fuel as [| [| [| fuel]]]; [lia.. |]. rewrite fill_range_go by lia.
  destruct (Z.lt_ge_cases v k) as [Hlt | Hge].
  { rewrite wrap64_id, fill_range_stop by (unfold in_int64; lia).
    eexists. split; [done |]. apply (filled_step v v); [lia.. | by right]. }
  rewrite wrap64_over, fill_range_go by lia.
  replace (v + (2 ^ 63 - k) - 2 ^ 64 + (2 ^ 63 - k)) with (v - 2 * k) by lia.
  rewrite wrap64_id by (unfold in_int64; lia).
  destruct (Z.lt_ge_cases (v - 2 * k) 0) as [Hneg | Hpos].
  - rewrite fill_range_go, wrap64_id, fill_range_stop by (unfold in_int64; lia || lia).
    eexists. split; [done |]. apply (filled_step v (v + (2 ^ 63 - k) - 2 ^ 64)); [lia.. | left].
    apply (filled_step _ (v - 2 * k)); [lia.. | left].
    apply (filled_step _ 0); [lia.. | by right].
  - destruct (IH (Z.to_nat (v - 2 * k)) ltac:(lia) (S fuel) (v - 2 * k)
      (Z.lor (Z.lor mask (shl1 v)) (shl1 (v + (2 ^ 63 - k) - 2 ^ 64)))
      ltac:(lia) ltac:(lia) Hhi Hk ltac:(lia)) as (m & -> & Hm).
    exists m. split; [done |]. apply (filled_step v (v + (2 ^ 63 - k) - 2 ^ 64)); [lia.. | left].
    apply (filled_step _ (v - 2 * k)); [lia.. | by left].
Qed.

Lemma fill_range_total v rangeHi step mask :
  0 ≤ v ≤ rangeHi → rangeHi < 64 → 1 ≤ step ≤ maxInt64 →
  ∃ m, fill_range range_fuel v rangeHi step mask = Some m ∧ filled v rangeHi mask m.
Proof.
  unfold maxInt64. intros Hv Hhi Hstep. destruct (Z.le_gt_cases step (maxInt64 - 63)) as [Hs | Hs].
  - destruct (fill_range_safe range_fuel v rangeHi step mask) as (m & -> & Hm);
      [lia | done | split; [lia | done] | unfold range_fuel; lia |].
    exists m. split; [done |]. split; [| split].
    + intros w Hw Hb. apply Hm; auto.
    + intros Hv'. apply Hm; [done |]. right. rewrite Z.sub_diag. split; [lia | apply Z.divide_0_r].
    + intros w Hw Hb. apply Hm in Hb as [Hb | [Hb _]]; [done | lia | lia].
  - unfold maxInt64 in Hs. replace step with (2 ^ 63 - (2 ^ 63 - step)) by lia.
    apply (fill_range_wrap 64); unfold range_fuel; lia.
Qed.

(** ** Segments *)

Lemma Atoi_range s n : Atoi s = Some n → minInt64 ≤ n ≤ maxInt64.
Proof. unfold Atoi. repeat case_match; intros; simplify_eq; zbool; lia. Qed.

Lemma parse_segment_Ok lo hi segment a b n :
  parse_segment lo hi segment = Ok (a, b, n) → lo ≤ a ∧ a ≤ b ∧ b ≤ hi ∧ 1 ≤ n ≤ maxInt64.
Proof.
  unfold parse_segment.
  rewrite result_bind_Ok. intros ([seg step] & Hstep & H).
  rewrite result_bind_Ok in H. destruct H as ([x y] & _ & H).
  destruct (Z.ltb_spec x lo), (Z.ltb_spec hi y), (Z.ltb_spec y x); simpl in H; simplify_eq.
  split; [done |]. split; [done |]. split; [done |].
  destruct (IndexByte _ _) as [i |]; [| by simplify_eq; unfold maxInt64; lia].
  destruct (Atoi _) as [k |] eqn:Hk; [| done]. apply Atoi_range in Hk.
  destruct (Z.leb_spec k 0); simplify_eq. lia.
Qed.

(** The values one segment stands for. *)
Definition segment_accepts (lo hi : Z) (segment : string) (v : Z) : Prop :=
  ∃ a b n, parse_segment lo hi segment = Ok (a, b, n) ∧ a ≤ v ≤ b ∧ (n | v - a).

Definition segment_safe (lo hi : Z) (segment : string) : Prop :=
  ∀ a b n, parse_segment lo hi segment = Ok (a, b, n) → safe_step n.

Lemma parse_segments_safe lo hi segments mask m :
  0 ≤ lo → hi < 64 → Forall (segment_safe lo hi) segments →
  parse_segments lo hi segments mask = Ok m →
  ∀ v, 0 ≤ v → Z.testbit m v = true ↔
    Z.testbit mask v = true ∨ Exists (λ s, segment_accepts lo hi s v) segments.
Proof.
  intros Hlo Hhi Hsafe. revert mask.
  induction Hsafe as [| s segments Hs _ IH]; intros mask H v Hv; cbn [parse_segments] in H.
  - simplify_eq. rewrite Exists_nil. tauto.
  - apply result_bind_Ok in H as ([[a b] n] & Hp & H).
    pose proof (parse_segment_Ok _ _ _ _ _ _ Hp) as (Ha & Hab & Hb & _).
    destruct (fill_range_safe range_fuel a b n mask ltac:(lia) ltac:(lia) (Hs _ _ _ Hp)
      ltac:(unfold range_fuel; lia)) as (m' & Hm' & Hbits).
    rewrite Hm' in H. simpl in H. rewrite (IH _ H v Hv), (Hbits v Hv), Exists_cons.
    assert (segment_accepts lo hi s v ↔ a ≤ v ≤ b ∧ (n | v - a)) as ->; [| tauto].
    unfold segment_accepts. rewrite Hp. split.
    + intros (a' & b' & n' & [= <- <- <-] & Hr & Hd). auto.
    + intros [Hr Hd]. exists a, b, n. auto.
Qed.

Lemma parse_segments_fill lo hi segments mask m :
  0 ≤ lo → hi < 64 → parse_segments lo hi segments mask = Ok m →
  (∀ w, 0 ≤ w → Z.testbit mask w = true → Z.testbit m w = true) ∧
  (segments ≠ [] → ∃ v, lo ≤ v ≤ hi ∧ Z.testbit m v = true) ∧
  (∀ w, hi < w → Z.testbit m w = true → Z.testbit mask w = true).
Proof.
  intros Hlo Hhi. revert mask. induction segments as [| s segments IH]; intros mask H;
    cbn [parse_segments] in H; [by simplify_eq |].
  apply result_bind_Ok in H as ([[a b] n] & Hp & H).
  pose proof (parse_segment_Ok _ _ _ _ _ _ Hp) as (Ha & Hab & Hb & Hn).
  destruct (fill_range_total a b n mask ltac:(lia) ltac:(lia) Hn) as (m' & Hm' & Hk & Hset & Hup).
  rewrite Hm' in H. cbn [default] in H. destruct (IH _ H) as (IH1 & _ & IH3).
  split; [auto |]. split.
  - intros _. exists a. split; [lia |]. apply IH1; [lia |]. apply Hset. lia.
  - intros w Hw Hbit. apply Hup; [lia |]. by apply IH3.
Qed.

Lemma Split_field_nonempty s : Split s "," ≠ [].
Proof. apply Split_nonempty. Qed.

Lemma parseField_fill s lo hi m :
  0 ≤ lo → hi < 64 → parseField s lo hi = Ok m →
  (∃ v, lo ≤ v ≤ hi ∧ field_match m v = true) ∧ (∀ v, field_match m v = true → v ≤ hi).
Proof.
  intros Hlo Hhi. unfold parseField. destruct (String.eqb _ _); [done |]. intros H.
  destruct (parse_segments_fill _ _ _ _ _ Hlo Hhi H) as (_ & Hset & Hup). split.
  - destruct (Hset (Split_nonempty _ _)) as (v & Hv & Hb). exists v. split; [done |].
    rewrite field_match_testbit by lia. exact Hb.
  - intros v Hv. pose proof (field_match_range _ _ Hv) as Hr.
    rewrite field_match_testbit in Hv by done.
    destruct (Z.le_gt_cases v hi); [done |]. apply Hup in Hv; [| lia]. by rewrite Z.bits_0 in Hv.
Qed.

(** The day-of-week mask after the normalisation of Sunday. *)
Lemma dow_normalised wd v :
  field_match (Z.land (if field_match wd 7 then Z.lor wd 1 else wd) 127) v = true ↔
  0 ≤ v ≤ 6 ∧ (field_match wd v = true ∨ v = 0 ∧ field_match wd 7 = true).
Proof.
  assert (∀ w, 0 ≤ w → Z.testbit 127 w = (w <=? 6)) as H127.
  { intros w Hw. change 127 with (Z.ones 7). destruct (Z.leb_spec w 6).
    - apply Z.ones_spec_low. lia.
    - apply Z.ones_spec_high. lia. }
  assert (∀ w, 0 ≤ w → Z.testbit 1 w = (w =? 0)) as H1.
  { intros w Hw. destruct (Z.eqb_spec w 0) as [-> | Hw0]; [done |].
    apply (Z.bits_above_log2 1); simpl; lia. }
  split.
  - intros H. pose proof (field_match_range _ _ H) as Hv.
    rewrite field_match_testbit, Z.land_spec, H127 in H by lia.
    apply andb_true_iff in H as [H Hle]. apply Z.leb_le in Hle. split; [lia |].
    rewrite (field_match_testbit wd v) by lia. destruct (field_match wd 7); [| by left].
    rewrite Z.lor_spec, H1 in H by lia. apply orb_true_iff in H as [H | H]; [by left |].
    apply Z.eqb_eq in H. auto.
  - intros [Hv H]. rewrite field_match_testbit, Z.land_spec, H127 by lia.
    destruct (Z.leb_spec v 6); [| lia]. rewrite andb_true_r.
    rewrite (field_match_testbit wd v) in H by lia.
    destruct H as [H | [-> H]]; [destruct (field_match wd 7); [| done] | rewrite H];
      rewrite Z.lor_spec; [by rewrite H | by rewrite orb_true_r].
Qed.

(** ** Properties of parsing *)

(** A field with steps below the top of an [int64] accepts exactly the
    values its comma-separated segments stand for: those of each range that
    are a multiple of the step away from its lower end. *)
Theorem parseField_spec s lo hi m :
  0 ≤ lo → hi < 64 → Forall (segment_safe lo hi) (Split s ",") →
  parseField s lo hi = Ok m →
  ∀ v, field_match m v = true ↔ Exists (λ seg, segment_accepts lo hi seg v) (Split s ",").
Proof.
  intros Hlo Hhi Hsafe. unfold parseField. destruct (String.eqb _ _); [done |]. intros H v.
  pose proof (parse_segments_safe _ _ _ _ _ Hlo Hhi Hsafe H v) as Hbits.
  rewrite Z.bits_0 in Hbits. split.
  - intros Hm. pose proof (field_match_range _ _ Hm) as Hr.
    rewrite field_match_testbit in Hm by done. apply Hbits in Hm as [? | Hm]; [done | done | lia].
  - intros Hex. assert (0 ≤ v < 64) as Hr.
    { apply Exists_exists in Hex as (seg & _ & a & b & n & Hp & Hv & _).
      apply parse_segment_Ok in Hp. lia. }
    rewrite field_match_testbit by done. apply Hbits; [lia | by right].
Qed.

Lemma parseField_spec_witness :
  parseField "10-20/5,40" 0 59 = Ok 1099512710144 ∧
  field_match 1099512710144 15 = true.
Proof.
  split; [reflexivity |].
  refine (proj2 (parseField_spec "10-20/5,40" 0 59 1099512710144 _ _ _ _ 15) _);
    [lia | lia | | reflexivity |].
  - change (Split "10-20/5,40" ",") with ["10-20/5"; "40"]%string. rewrite !Forall_cons.
    split; [| split; [| apply Forall_nil; exact I]];
      intros a b n [= <- <- <-]; split; vm_compute; congruence.
  - left. exists 10, 20, 5. split; [reflexivity |]. split; [lia |]. exists 1. reflexivity.
Defined.

(** A mask of a field with the range [lo, hi]. *)
Definition field_wf (m : fieldMatcher) (lo hi : Z) : Prop :=
  (∃ v, lo ≤ v ≤ hi ∧ field_match m v = true) ∧
  (∀ v, field_match m v = true → 0 ≤ v ≤ hi).

Lemma field_Ok what s lo hi m :
  0 ≤ lo → hi < 64 → field what s lo hi = Ok m → field_wf m lo hi.
Proof.
  intros Hlo Hhi. unfold field. destruct (parseField s lo hi) as [m' |] eqn:Hp; [| done].
  intros [= ->]. destruct (parseField_fill _ _ _ _ Hlo Hhi Hp) as [Hex Hup].
  split; [done |]. intros v Hv. pose proof (field_match_range _ _ Hv). specialize (Hup v Hv). lia.
Qed.

Lemma dow_wf wd :
  field_wf wd 0 7 →
  field_wf (Z.land (if field_match wd 7 then Z.lor wd 1 else wd) 127) 0 6.
Proof.
  intros [(v & Hv & Hm) _]. split.
  - destruct (Z.eq_dec v 7) as [-> | Hne].
    + exists 0. split; [lia |]. apply dow_normalised. split; [lia | auto].
    + exists v. split; [lia |]. apply dow_normalised. split; [lia | auto].
  - intros w Hw. apply dow_normalised in Hw as [Hw _]. lia.
Qed.

Lemma parse_five_Ok e hasSec sec mi hr d mo w c :
  parse_five e hasSec sec mi hr d mo w = Ok c →
  field_wf (minutes c) 0 59 ∧ field_wf (hours c) 0 23 ∧ field_wf (dom c) 1 31 ∧
  field_wf (month c) 1 12 ∧ field_wf (dow c) 0 6 ∧
  hasSeconds c = hasSec ∧ seconds c = sec ∧ expr c = e.
Proof.
  unfold parse_five. intros H.
  apply result_bind_Ok in H as (min & Hmin & H). apply result_bind_Ok in H as (h & Hh & H).
  apply result_bind_Ok in H as (dm & Hdm & H). apply result_bind_Ok in H as (m & Hm & H).
  apply result_bind_Ok in H as (wd & Hwd & [= <-]). cbn [minutes hours dom month dow hasSeconds seconds expr].
  apply field_Ok in Hmin; [| lia..]. apply field_Ok in Hh; [| lia..].
  apply field_Ok in Hdm; [| lia..]. apply field_Ok in Hm; [| lia..].
  apply field_Ok in Hwd; [| lia..]. apply dow_wf in Hwd. auto 10.
Qed.

(** In every expression that parses, each field accepts at least one
    value of its documented range and none above it, and the days of the week
    are 0 to 6, with 7 read as Sunday. *)
Theorem ParseCron_fields e c :
  ParseCron e = Ok c →
  (hasSeconds c = true → field_wf (seconds c) 0 59) ∧
  field_wf (minutes c) 0 59 ∧ field_wf (hours c) 0 23 ∧ field_wf (dom c) 1 31 ∧
  field_wf (month c) 1 12 ∧ field_wf (dow c) 0 6 ∧ expr c = TrimSpace e.
Proof.
  unfold ParseCron. destruct (String.eqb _ _); [done |].
  destruct (Fields (TrimSpace e)) as [| p1 [| p2 [| p3 [| p4 [| p5 [| p6 [|]]]]]]]; try done; intros H.
  - apply parse_five_Ok in H as (H1 & H2 & H3 & H4 & H5 & H6 & _ & H7).
    rewrite H6. auto 10 with congruence.
  - apply result_bind_Ok in H as (sec & Hs & H). apply field_Ok in Hs; [| lia..].
    apply parse_five_Ok in H as (H1 & H2 & H3 & H4 & H5 & _ & -> & H7). auto 10.
Qed.

Lemma ParseCron_fields_witness :
  ParseCron "*/15 9-17 * * 1-5,7" = Ok (mkCron false 0 35185445863425 261632 4294967294 8190 63
                                          "*/15 9-17 * * 1-5,7") ∧
  field_wf 63 0 6.
Proof.
  assert (ParseCron "*/15 9-17 * * 1-5,7" = Ok (mkCron false 0 35185445863425 261632 4294967294 8190 63
                                          "*/15 9-17 * * 1-5,7")) as H by (vm_compute; reflexivity).
  split; [exact H |].
  exact (proj1 (proj2 (proj2 (proj2 (proj2 (proj2 (ParseCron_fields _ _ H))))))).
Defined.

(** A step near the top of an [int64] is accepted and wraps around: the
    loop visits the values below the lower end of its range too. *)
Theorem parseField_step_overflow :
  ∃ m, parseField "59/9223372036854775807" 0 59 = Ok m ∧
       field_match m 59 = true ∧ field_match m 57 = true ∧ field_match m 1 = true ∧
       ¬ segment_accepts 0 59 "59/9223372036854775807" 57.
Proof.
  eexists. split; [vm_compute; reflexivity |]. repeat (split; [vm_compute; reflexivity |]).
  intros (a & b & n & [= <- <- <-] & Hr & _). lia.
Qed.

(** A schedule of every 29 February has no next occurrence for the code
    when the next leap year is more than five years away (2100 is none): the
    horizon turns a valid expression into an error. *)
Theorem Next_leap_day_missed :
  ∃ c, ParseCron "0 0 29 2 *" = Ok c ∧
       Next c (Date 2096 3 1 0 0 0) = Err (ErrNoMatch "0 0 29 2 *") ∧
       occurrence c (Date 2104 2 29 0 0 0).
Proof.
  eexists. split; [vm_compute; reflexivity |]. split; [vm_compute; reflexivity |].
  repeat split; vm_compute; congruence.
Qed.
