(* ===== verification/Dedup.v ===== *)
(** * Local de-duplication of trigger dispatches
      ([core/pkg/serverless/triggers/local_dedup.go])

    A bounded map from dispatch keys to expiry instants.  [claim] reads the
    clock once; the clock value is its argument. *)

From Stdlib Require Import ZArith Lia.
From stdpp Require Import base tactics numbers list gmap strings fin_maps.
From S2P Require Import Prelude.

Definition localDedupTTL : duration := (30 * Second)%Z.
Definition localDedupMaxEntries : nat := 4096.

Record localDedupCache := mkDedup {
  entries : gmap string time;
  ttl : duration;
  maxSize : nat
}.

Definition newLocalDedupCache : localDedupCache := mkDedup ∅ localDedupTTL localDedupMaxEntries.

Definition set_entries (c : localDedupCache) (m : gmap string time) : localDedupCache :=
  mkDedup m (ttl c) (maxSize c).

Definition sweepExpiredLocked (now : time) (c : localDedupCache) : localDedupCache :=
  set_entries c (filter (λ '(k, exp), Before now exp = true) (entries c)).

Definition seen (now : time) (key : string) (c : localDedupCache) : bool :=
  match entries c !! key with
  | Some exp => Before now exp
  | None => false
  end.

Definition claim (now : time) (key : string) (c : localDedupCache) : bool * localDedupCache :=
  if seen now key c then (false, c)
  else
    let c := if maxSize c <=? size (entries c) then sweepExpiredLocked now c else c in
    if maxSize c <=? size (entries c) then (true, c)
    else (true, set_entries c (<[key := (now + ttl c)%Z]> (entries c))).

(** ** Traces: the claims a node makes, with the clock never going back. *)

Record claim_event := mkClaim { at_time : time; claim_key : string }.

Fixpoint run_claims (evs : list claim_event) (c : localDedupCache) : list bool * localDedupCache :=
  match evs with
  | [] => ([], c)
  | e :: evs' =>
      let (b, c') := claim (at_time e) (claim_key e) c in
      let (bs, c'') := run_claims evs' c' in
      (b :: bs, c'')
  end.

Fixpoint monotone_from (t : time) (evs : list claim_event) : Prop :=
  match evs with
  | [] => True
  | e :: evs' => (t ≤ at_time e)%Z ∧ monotone_from (at_time e) evs'
  end.

(** ** Lemmas *)

Lemma sweep_lookup now c k exp :
  entries (sweepExpiredLocked now c) !! k = Some exp ↔
  entries c !! k = Some exp ∧ (now < exp)%Z.
Proof.
  simpl. rewrite map_lookup_filter_Some. unfold Before. rewrite Z.ltb_lt. done.
Qed.

Lemma sweep_size now c : size (entries (sweepExpiredLocked now c)) ≤ size (entries c).
Proof. apply map_size_filter. Qed.

(** The cache [claim] inserts into. *)
Definition room (now : time) (c : localDedupCache) : localDedupCache :=
  if maxSize c <=? size (entries c) then sweepExpiredLocked now c else c.

Lemma room_spec now c :
  maxSize (room now c) = maxSize c ∧ ttl (room now c) = ttl c ∧
  size (entries (room now c)) ≤ size (entries c) ∧
  (∀ k exp, entries c !! k = Some exp → (now < exp)%Z → entries (room now c) !! k = Some exp) ∧
  (∀ k exp, entries (room now c) !! k = Some exp → entries c !! k = Some exp) ∧
  (maxSize c ≤ size (entries (room now c)) →
   ∀ k exp, entries (room now c) !! k = Some exp → (now < exp)%Z).
Proof.
  unfold room. destruct (Nat.leb_spec (maxSize c) (size (entries c))).
  - split; [done |]. split; [done |]. split; [apply sweep_size |].
    setoid_rewrite sweep_lookup. naive_solver.
  - split; [done |]. split; [done |]. split; [done |]. split; [done |]. split; [done |]. lia.
Qed.

(** The three outcomes of a claim. *)
Lemma claim_cases now key c :
  (seen now key c = true ∧ claim now key c = (false, c)) ∨
  (seen now key c = false ∧ maxSize c ≤ size (entries (room now c)) ∧
   claim now key c = (true, room now c)) ∨
  (seen now key c = false ∧ size (entries (room now c)) < maxSize c ∧
   claim now key c =
     (true, set_entries (room now c) (<[key := (now + ttl c)%Z]> (entries (room now c))))).
Proof.
  unfold claim. fold (room now c). destruct (seen now key c); [auto |].
  destruct (room_spec now c) as (Hmax & Httl & _). cbv zeta. rewrite Hmax, Httl.
  destruct (Nat.leb_spec (maxSize c) (size (entries (room now c)))); auto.
Qed.

Lemma claim_parameters now key c :
  maxSize (claim now key c).2 = maxSize c ∧ ttl (claim now key c).2 = ttl c.
Proof.
  destruct (room_spec now c) as (Hmax & Httl & _).
  destruct (claim_cases now key c) as [(_ & ->) | [(_ & _ & ->) | (_ & _ & ->)]]; done.
Qed.

Lemma claim_size now key c :
  size (entries c) ≤ maxSize c → size (entries (claim now key c).2) ≤ maxSize c.
Proof.
  intros Hs. destruct (room_spec now c) as (_ & _ & Hsize & _).
  destruct (claim_cases now key c) as [(_ & ->) | [(_ & _ & ->) | (_ & Hlt & ->)]];
    cbn [snd entries set_entries]; [done | lia |].
  rewrite map_size_insert. destruct (entries (room now c) !! key); simpl; lia.
Qed.

Lemma claim_grows now key c : size (entries (claim now key c).2) ≤ S (size (entries c)).
Proof.
  destruct (room_spec now c) as (_ & _ & Hsize & _).
  destruct (claim_cases now key c) as [(_ & ->) | [(_ & _ & ->) | (_ & Hlt & ->)]];
    cbn [snd entries set_entries]; [lia | lia |].
  rewrite map_size_insert. destruct (entries (room now c) !! key); simpl; lia.
Qed.

(** The entries of a cache that are alive. *)
Definition live_count (now : time) (c : localDedupCache) : nat := size (entries (sweepExpiredLocked now c)).

(** A claim that is granted is recorded unless the cache is full of live
    entries. *)
Lemma claim_recorded now key c :
  (claim now key c).1 = true → live_count now c < maxSize c →
  entries (claim now key c).2 !! key = Some (now + ttl c)%Z.
Proof.
  intros Htrue Hlt. assert (size (entries (room now c)) < maxSize c) as Hsize.
  { unfold room. destruct (Nat.leb_spec (maxSize c) (size (entries c))); done. }
  destruct (claim_cases now key c) as [(_ & Hc) | [(_ & Hfull & _) | (_ & _ & ->)]].
  - by rewrite Hc in Htrue.
  - lia.
  - cbn [snd entries set_entries]. apply lookup_insert_eq.
Qed.

(** An entry that is alive refuses its key. *)
Lemma claim_refused now key c exp :
  entries c !! key = Some exp → (now < exp)%Z → (claim now key c).1 = false.
Proof.
  intros Hk Hlt. unfold claim, seen, Before. rewrite Hk. by destruct (Z.ltb_spec now exp); [| lia].
Qed.

(** An entry that is alive stays as it is. *)
Lemma claim_keeps now key c k exp :
  entries c !! k = Some exp → (now < exp)%Z → entries (claim now key c).2 !! k = Some exp.
Proof.
  intros Hk Hlt. destruct (room_spec now c) as (_ & _ & _ & Hkeep & _).
  destruct (claim_cases now key c) as [(_ & ->) | [(_ & _ & ->) | (Hseen & _ & ->)]];
    cbn [snd entries set_entries]; [done | auto |].
  rewrite lookup_insert_ne; [auto |]. intros ->.
  unfold seen, Before in Hseen. rewrite Hk in Hseen. zbool. lia.
Qed.

Lemma run_claims_keeps evs t c k exp :
  entries c !! k = Some exp → monotone_from t evs →
  Forall (λ e, (at_time e < exp)%Z) evs →
  entries (run_claims evs c).2 !! k = Some exp ∧
  Forall2 (λ e b, claim_key e = k → b = false) evs (run_claims evs c).1.
Proof.
  revert t c. induction evs as [| e evs IH]; intros t c Hk Hmono Hlt; [by split |].
  inversion Hlt as [| ? ? He Hlt']; subst. destruct Hmono as [_ Hmono]. cbn [run_claims].
  destruct (claim (at_time e) (claim_key e) c) as [b c'] eqn:Hc.
  assert (entries c' !! k = Some exp) as Hk'.
  { change c' with (b, c').2. rewrite <- Hc. by apply claim_keeps. }
  destruct (IH (at_time e) c' Hk' Hmono Hlt') as [IH1 IH2].
  destruct (run_claims evs c') as [bs c''] eqn:Hr. split; [done |].
  constructor; [| done]. intros <-. unfold claim, seen, Before in Hc. rewrite Hk in Hc.
  destruct (Z.ltb_spec (at_time e) exp); [by simplify_eq | lia].
Qed.

Lemma run_claims_size evs c :
  size (entries c) ≤ maxSize c →
  size (entries (run_claims evs c).2) ≤ maxSize c ∧
  maxSize (run_claims evs c).2 = maxSize c.
Proof.
  revert c. induction evs as [| e evs IH]; intros c Hs; [done |]. cbn [run_claims].
  pose proof (claim_size (at_time e) (claim_key e) c Hs) as Hs'.
  pose proof (claim_parameters (at_time e) (claim_key e) c) as [Hmax _].
  destruct (claim _ _ _) as [b c']. cbn [snd] in *. specialize (IH c').
  destruct (run_claims evs c'). cbn [snd] in *. rewrite Hmax in IH. by apply IH.
Qed.

(** ** Properties *)

(** Once a claim of a key is granted and recorded, every claim of the same
    key within the time to live is refused, whatever other claims come in
    between: a node dispatches a publish at most once per window. *)
Theorem claim_once c now key evs :
  (0 < ttl c)%Z →
  (claim now key c).1 = true →
  size (entries (room now c)) < maxSize c →
  monotone_from now evs →
  Forall (λ e, (at_time e < now + ttl c)%Z) evs →
  Forall2 (λ e b, claim_key e = key → b = false) evs
    (run_claims evs (claim now key c).2).1.
Proof.
  intros Httl Htrue Hroom Hmono Hwin.
  eapply run_claims_keeps; [| exact Hmono | exact Hwin].
  destruct (claim_cases now key c) as [(_ & Hc) | [(_ & Hfull & _) | (_ & _ & ->)]].
  - by rewrite Hc in Htrue.
  - lia.
  - cbn [snd entries set_entries]. apply lookup_insert_eq.
Qed.

Lemma claim_once_witness :
  let evs := [mkClaim (5 * Second) "b"; mkClaim (29 * Second) "a"] in
  Forall2 (λ e b, claim_key e = "a" → b = false) evs
    (run_claims evs (claim 0 "a" newLocalDedupCache).2).1.
Proof.
  intros evs. apply (claim_once newLocalDedupCache 0 "a" evs).
  - reflexivity.
  - reflexivity.
  - apply Nat.ltb_lt. vm_compute. reflexivity.
  - repeat split; vm_compute; congruence.
  - repeat constructor.
Defined.

(** From an empty cache, no sequence of claims makes the map larger than
    its bound, and a key without a live entry is never refused (no wake is
    dropped); when such a claim is granted without being recorded, the map is
    full of entries that are still alive. *)
Theorem claim_bounded_fail_open evs now key :
  let c := (run_claims evs newLocalDedupCache).2 in
  size (entries c) ≤ localDedupMaxEntries ∧
  ((claim now key c).1 = false ↔ ∃ exp, entries c !! key = Some exp ∧ (now < exp)%Z) ∧
  ((claim now key c).1 = true → entries (claim now key c).2 !! key ≠ Some (now + ttl c)%Z →
   size (entries (claim now key c).2) = localDedupMaxEntries ∧
   map_Forall (λ _ exp, (now < exp)%Z) (entries (claim now key c).2)).
Proof.
  intros c. destruct (run_claims_size evs newLocalDedupCache) as [Hsize Hmax].
  { simpl. rewrite map_size_empty. apply Nat.le_0_l. }
  fold c in Hsize, Hmax. change (maxSize newLocalDedupCache) with localDedupMaxEntries in *.
  split; [done |]. split.
  - assert (seen now key c = true ↔ ∃ exp, entries c !! key = Some exp ∧ (now < exp)%Z) as <-.
    { unfold seen, Before. destruct (entries c !! key); [rewrite Z.ltb_lt |]; naive_solver. }
    destruct (claim_cases now key c) as [(-> & ->) | [(-> & _ & ->) | (-> & _ & ->)]]; done.
  - destruct (room_spec now c) as (_ & _ & Hle & _ & _ & Hlive).
    destruct (claim_cases now key c) as [(_ & ->) | [(_ & Hfull & ->) | (_ & _ & ->)]];
      cbn [fst snd]; [done | |].
    + intros _ _. rewrite Hmax in Hfull. split; [lia |].
      intros k exp. apply Hlive. by rewrite Hmax.
    + intros _ []. cbn [entries set_entries]. apply lookup_insert_eq.
Qed.
