(* ===== verification/Health.v ===== *)
(** * Peer failure detection ([core/pkg/node/health/monitor.go])

    Ring-based probing: each node watches the next K nodes of the sorted ring,
    counts missed probes, and writes health events into a shared table; the
    lowest of the observers that agree on a death acts on it.

    [updateState] returns the new state with the calls it makes after it has
    released its lock, in order; the cluster model below executes them against
    the shared event table.  Clock readings are arguments. *)

From Stdlib Require Import ZArith Lia String.
From stdpp Require Import base tactics numbers list gmap strings relations sorting.
From S2P Require Import Prelude GoStrings.

(** ** Constants and data *)

Definition DefaultSuspectAfter : nat := 3.
Definition DefaultDeadAfter : nat := 12.
Definition DefaultQuorumWindow : duration := (5 * Minute)%Z.
Definition DefaultMinQuorum : nat := 2.
Definition DefaultStartupGracePeriod : duration := (5 * Minute)%Z.
Definition DefaultNeighbors : nat := 3.

Record nodeInfo := mkNode { ID : string; InternalIP : string }.

#[export] Instance nodeInfo_eq_dec : EqDecision nodeInfo.
Proof. solve_decision. Defined.

Inductive peer_status := Healthy | Suspect | Dead.

#[export] Instance peer_status_eq_dec : EqDecision peer_status.
Proof. solve_decision. Defined.

Record peerState := mkPeer {
  missCount : nat;
  status : peer_status;
  suspectAt : time;
  reportedDead : bool
}.

Record Monitor := mkMonitor {
  startTime : time;
  StartupGracePeriod : duration;
  peers : gmap string peerState
}.

Definition NewMonitor (now : time) (grace : duration) : Monitor :=
  mkMonitor now (if (grace =? 0)%Z then DefaultStartupGracePeriod else grace) ∅.

Definition set_peer (id : string) (ps : peerState) (m : Monitor) : Monitor :=
  mkMonitor (startTime m) (StartupGracePeriod m) (<[id := ps]> (peers m)).

(** What [updateState] does once it has released the lock. *)
Inductive action :=
| WriteEvent (target : string) (event : string)
| CheckQuorum (target : string)
| CallRecovered (target : string)
| CallSuspect (target : string).

Definition isInStartupGrace (now : time) (m : Monitor) : bool :=
  (Since now (startTime m) <? StartupGracePeriod m)%Z.

(** ** Probing *)

(** [probeNode]: the metadata of the peer when it is known (its state and when
    it was last seen), and the outcome of the HTTP probe. *)
Definition probeNode (now : time) (meta : option (string * time)) (http_ok : bool) : bool :=
  match meta with
  | Some (state, lastSeen) =>
      if String.eqb state "maintenance" && (Since now lastSeen <? 2 * Minute)%Z then true
      else if String.eqb state "active" && (Since now lastSeen <? 30 * Second)%Z then true
      else http_ok
  | None => http_ok
  end.

Definition updateState (now : time) (nodeID : string) (healthy : bool) (m : Monitor)
    : Monitor * list action :=
  let ps := default (mkPeer 0 Healthy time_zero false) (peers m !! nodeID) in
  if healthy then
    (set_peer nodeID (mkPeer 0 Healthy (suspectAt ps) false) m,
     match status ps with
     | Healthy => []
     | _ => [WriteEvent nodeID "recovered"; CallRecovered nodeID]
     end)
  else
    let n := S (missCount ps) in
    if (DefaultDeadAfter <=? n) && negb (reportedDead ps) then
      if isInStartupGrace now m then
        if bool_decide (status ps = Suspect) then
          (set_peer nodeID (mkPeer n (status ps) (suspectAt ps) (reportedDead ps)) m, [])
        else (set_peer nodeID (mkPeer n Suspect now (reportedDead ps)) m,
              [WriteEvent nodeID "suspect"])
      else (set_peer nodeID (mkPeer n Dead (suspectAt ps) true) m,
            [WriteEvent nodeID "dead"; CheckQuorum nodeID])
    else if (DefaultSuspectAfter <=? n) && bool_decide (status ps = Healthy) then
      (set_peer nodeID (mkPeer n Suspect now (reportedDead ps)) m,
       [WriteEvent nodeID "suspect"; CallSuspect nodeID])
    else (set_peer nodeID (mkPeer n (status ps) (suspectAt ps) (reportedDead ps)) m, []).

Definition pruneStaleState (currentNeighbors : list nodeInfo) (m : Monitor) : Monitor :=
  mkMonitor (startTime m) (StartupGracePeriod m)
    (filter (λ '(id, _), id ∈ ID <$> currentNeighbors) (peers m)).

(** ** The ring *)

Definition node_le (a b : nodeInfo) : Prop := String.le (ID a) (ID b).

#[export] Instance node_le_dec : RelDecision node_le.
Proof. intros a b. unfold node_le. apply _. Defined.

Definition sort_nodes (nodes : list nodeInfo) : list nodeInfo := merge_sort node_le nodes.

Definition RingNeighbors (nodes : list nodeInfo) (selfID : string) (k : nat) : list nodeInfo :=
  if length nodes <=? 1 then []
  else
    let nodes := sort_nodes nodes in
    match list_find (λ n, ID n = selfID) nodes with
    | None => []
    | Some (selfIdx, _) =>
        let count := if length nodes - 1 <? k then length nodes - 1 else k in
        omap (λ i, nodes !! ((selfIdx + i) mod length nodes)) (seq 1 count)
    end.

(** ** The event table and the quorum *)

Record health_event := mkEvent {
  observer_id : string;
  target_id : string;
  event_status : string;
  created_at : Z
}.

(** The observers of a recent death ([cutoff] and [created_at] in seconds).  The
    cutoff is written as the local time of the node, without its zone, and is
    compared with the UTC text of the column: it is [zone] seconds ahead. *)
Definition dead_observers (now : time) (zone : Z) (target : string) (events : list health_event) : list string :=
  observer_id <$> filter (λ e, target_id e = target ∧ event_status e = "dead"%string
                               ∧ ((now - DefaultQuorumWindow) / Second + zone < created_at e)%Z) events.

(** [MIN(observer_id)] of a non-empty result. *)
Definition lowest (l : list string) : option string := head (SortStrings l).

(** [checkQuorum]: whether this node calls [onDeadFn]. *)
Definition checkQuorum (now : time) (zone : Z) (self target : string) (events : list health_event) : bool :=
  let obs := dead_observers now zone target events in
  if length (remove_dups obs) <? DefaultMinQuorum then false
  else match lowest obs with
       | Some l => String.eqb l self
       | None => false
       end.

(** ** The cluster

    Monitors by node id, the shared table, the quorum checks that were
    scheduled and not yet run, and the deaths acted on (by whom, of whom). *)

Record cluster := mkCluster {
  monitors : gmap string Monitor;
  events : list health_event;
  pending : list (string * string);
  deaths : list (string * string)
}.

Definition written (self : string) (sec : Z) (acts : list action) : list health_event :=
  omap (λ a, match a with
             | WriteEvent t s => Some (mkEvent self t s sec)
             | _ => None
             end) acts.

Definition scheduled (self : string) (acts : list action) : list (string * string) :=
  omap (λ a, match a with CheckQuorum t => Some (self, t) | _ => None end) acts.

(** What can happen: a probe of a peer (the insert of its event may fail), a
    scheduled quorum check (its queries may fail), the pruning of one monitor. *)
Inductive label :=
| LProbe (self target : string) (healthy : bool) (now : time) (sec : Z) (write_ok : bool)
| LCheck (self target : string) (now : time) (zone : Z) (query_ok : bool)
| LPrune (self : string) (neighbors : list nodeInfo).

Definition exec (l : label) (c : cluster) : option cluster :=
  match l with
  | LProbe self target healthy now sec write_ok =>
      match monitors c !! self with
      | None => None
      | Some m =>
          let (m', acts) := updateState now target healthy m in
          Some (mkCluster (<[self := m']> (monitors c))
                  (if write_ok then events c ++ written self sec acts else events c)
                  (pending c ++ scheduled self acts) (deaths c))
      end
  | LCheck self target now zone query_ok =>
      match list_find (λ p, p = (self, target)) (pending c) with
      | None => None
      | Some (i, _) =>
          Some (mkCluster (monitors c) (events c) (delete i (pending c))
                  (if query_ok && checkQuorum now zone self target (events c)
                   then deaths c ++ [(self, target)] else deaths c))
      end
  | LPrune self neighbors =>
      match monitors c !! self with
      | None => None
      | Some m => Some (mkCluster (<[self := pruneStaleState neighbors m]> (monitors c))
                          (events c) (pending c) (deaths c))
      end
  end.

Definition cluster_step (c c' : cluster) : Prop := ∃ l, exec l c = Some c'.

(** A cluster of fresh monitors. *)
Definition cluster_init (starts : gmap string (time * duration)) : cluster :=
  mkCluster ((λ p, NewMonitor p.1 p.2) <$> starts) [] [] [].

(** ** Invariant of a peer's state *)

Definition peer_wf (ps : peerState) : Prop :=
  match status ps with
  | Healthy => missCount ps < DefaultSuspectAfter ∧ reportedDead ps = false
  | Suspect => DefaultSuspectAfter ≤ missCount ps ∧ reportedDead ps = false
  | Dead => DefaultDeadAfter ≤ missCount ps ∧ reportedDead ps = true
  end.

Definition monitor_wf (m : Monitor) : Prop := map_Forall (λ _ ps, peer_wf ps) (peers m).

Definition peer_of (m : Monitor) (id : string) : peerState :=
  default (mkPeer 0 Healthy time_zero false) (peers m !! id).

Lemma peer_of_wf m id : monitor_wf m → peer_wf (peer_of m id).
Proof.
  intros Hm. unfold peer_of. destruct (peers m !! id) eqn:E; [by eapply Hm |].
  split; [unfold DefaultSuspectAfter; simpl; lia | done].
Qed.

Lemma set_peer_wf id ps m : peer_wf ps → monitor_wf m → monitor_wf (set_peer id ps m).
Proof. intros Hps Hm. by apply map_Forall_insert_2. Qed.

Lemma peer_of_set_eq id ps m : peer_of (set_peer id ps m) id = ps.
Proof. unfold peer_of, set_peer. simpl. by rewrite lookup_insert_eq. Qed.

Lemma peer_of_set_ne id id' ps m : id' ≠ id → peer_of (set_peer id ps m) id' = peer_of m id'.
Proof. intros. unfold peer_of, set_peer. simpl. by rewrite lookup_insert_ne. Qed.

(** What one probe does to the state of the probed peer, and what it writes.
    With the invariant, the branch that turns a peer suspect during the grace
    period after twelve misses is never taken: it is suspect already. *)
Inductive probe_effect (in_grace : bool) (id : string) : bool → peerState → peerState → list action → Prop :=
| effect_ok ps at_ :
    probe_effect in_grace id true ps (mkPeer 0 Healthy at_ false)
      (match status ps with
       | Healthy => []
       | _ => [WriteEvent id "recovered"; CallRecovered id]
       end)
| effect_quiet ps ps' :
    status ps = Healthy ∧ S (missCount ps) < DefaultSuspectAfter ∨
    status ps = Suspect ∧ (S (missCount ps) < DefaultDeadAfter ∨ in_grace = true) ∨
    status ps = Dead →
    ps' = mkPeer (S (missCount ps)) (status ps) (suspectAt ps) (reportedDead ps) →
    probe_effect in_grace id false ps ps' []
| effect_suspect ps at_ :
    status ps = Healthy → S (missCount ps) = DefaultSuspectAfter →
    probe_effect in_grace id false ps (mkPeer (S (missCount ps)) Suspect at_ false)
      [WriteEvent id "suspect"; CallSuspect id]
| effect_dead ps :
    status ps = Suspect → DefaultDeadAfter ≤ S (missCount ps) → in_grace = false →
    probe_effect in_grace id false ps (mkPeer (S (missCount ps)) Dead (suspectAt ps) true)
      [WriteEvent id "dead"; CheckQuorum id].

Lemma updateState_effect now id healthy m :
  monitor_wf m →
  ∃ ps, (updateState now id healthy m).1 = set_peer id ps m ∧
    probe_effect (isInStartupGrace now m) id healthy (peer_of m id) ps (updateState now id healthy m).2.
Proof.
  intros Hm. pose proof (peer_of_wf m id Hm) as Hps. unfold updateState. fold (peer_of m id).
  destruct healthy; [eexists; split; [done |]; constructor |].
  unfold peer_wf in Hps.
  destruct (Nat.leb_spec DefaultDeadAfter (S (missCount (peer_of m id)))) as [Hd | Hd];
    destruct (Nat.leb_spec DefaultSuspectAfter (S (missCount (peer_of m id)))) as [Hs | Hs];
    unfold DefaultDeadAfter, DefaultSuspectAfter in *; try lia;
    destruct (status (peer_of m id)) eqn:Est; destruct Hps as [Hmc Hrd]; rewrite ?Hrd; cbn [negb andb];
    try lia; repeat case_bool_decide; try done; cbn [andb].
  all: try (destruct (isInStartupGrace now m) eqn:Hg).
  all: eexists; (split; [done |]); cbn [snd].
  all: try (apply effect_quiet; [| by rewrite Est, Hrd];
            unfold DefaultDeadAfter, DefaultSuspectAfter; rewrite Est; auto with lia; fail).
  all: try (apply effect_dead; unfold DefaultDeadAfter; auto with lia).
  all: try (apply effect_suspect; unfold DefaultSuspectAfter; auto with lia).
Qed.

Lemma probe_effect_wf g id healthy ps ps' acts :
  peer_wf ps → probe_effect g id healthy ps ps' acts → peer_wf ps'.
Proof.
  unfold peer_wf. intros Hps H. destruct H as [| ? ? Hc -> | ? ? Hst Hm | ? Hst Hm _];
    unfold DefaultDeadAfter, DefaultSuspectAfter in *; cbn;
    [| | split; [lia | done] | split; [lia | done]]; [split; [lia | done] |].
  destruct (status ps); destruct Hps; (split; [| done]); naive_solver lia.
Qed.

Lemma updateState_wf now id healthy m :
  monitor_wf m → monitor_wf (updateState now id healthy m).1.
Proof.
  intros Hm. destruct (updateState_effect now id healthy m Hm) as (ps & -> & He).
  apply set_peer_wf; [| done]. eapply probe_effect_wf; [by apply peer_of_wf | exact He].
Qed.

Lemma prune_wf neighbors m : monitor_wf m → monitor_wf (pruneStaleState neighbors m).
Proof. intros Hm id ps H. cbn in H. apply map_lookup_filter_Some in H as [H _]. by eapply Hm. Qed.

(** The operations one monitor performs. *)
Inductive monitor_op :=
| OpProbe (now : time) (id : string) (healthy : bool)
| OpPrune (neighbors : list nodeInfo).

Definition run_monitor (ops : list monitor_op) (m : Monitor) : Monitor :=
  foldl (λ m op, match op with
                 | OpProbe now id healthy => (updateState now id healthy m).1
                 | OpPrune neighbors => pruneStaleState neighbors m
                 end) m ops.

Lemma run_monitor_wf ops m : monitor_wf m → monitor_wf (run_monitor ops m).
Proof.
  revert m. induction ops as [| op ops IH]; intros m Hm; [done |]. cbn. apply IH.
  destruct op; [by apply updateState_wf | by apply prune_wf].
Qed.

(** ** Properties of one monitor *)

(** After any sequence of probes and prunings a peer is healthy with fewer
    than three misses, suspect with three or more, or dead with twelve or more
    and its death reported; and each probe has exactly the effect of the state
    machine: suspect at the third miss, dead at the twelfth or the first one
    after the grace period, one event per change, recovery on the first
    success, and nothing on any other miss. *)
Theorem monitor_transitions t0 grace ops now id healthy :
  let m := run_monitor ops (NewMonitor t0 grace) in
  monitor_wf m ∧
  ∃ ps, (updateState now id healthy m).1 = set_peer id ps m ∧
    probe_effect (isInStartupGrace now m) id healthy (peer_of m id) ps
      (updateState now id healthy m).2.
Proof.
  intros m. assert (monitor_wf m) as Hm by (apply run_monitor_wf, map_Forall_empty).
  split; [done |]. by apply updateState_effect.
Qed.

(** ** The ring *)

#[export] Instance node_le_total : Total node_le.
Proof. intros a b. apply (total String.le). Qed.

Lemma sort_nodes_perm l : sort_nodes l ≡ₚ l.
Proof. apply merge_sort_Permutation. Qed.

Lemma mod_wrap a n : a < 2 * n → a mod n = if a <? n then a else a - n.
Proof.
  intros Ha. destruct (Nat.ltb_spec a n); [by apply Nat.mod_small |].
  replace a with (a - n + 1 * n) at 1 by lia. rewrite Nat.Div0.mod_add. apply Nat.mod_small. lia.
Qed.

Lemma find_self (l : list nodeInfo) s x :
  NoDup (ID <$> l) → l !! s = Some x → list_find (λ n, ID n = ID x) l = Some (s, x).
Proof.
  intros Hnd Hs. apply list_find_Some. split; [done |]. split; [done |].
  intros j y Hj Hlt E.
  assert (j = s); [| lia].
  eapply (NoDup_lookup (ID <$> l)); [done | |]; rewrite list_lookup_fmap, ?Hj, ?Hs; simpl; [done | by rewrite E].
Qed.

(** The number of ring neighbours. *)
Definition ring_count (n k : nat) : nat := k `min` (n - 1).

Definition ring_succ (l : list nodeInfo) (s k : nat) : list nodeInfo :=
  omap (λ i, l !! ((s + i) mod length l)) (seq 1 (ring_count (length l) k)).

Lemma RingNeighbors_succ nodes s x k :
  1 < length nodes → NoDup (ID <$> nodes) → sort_nodes nodes !! s = Some x →
  RingNeighbors nodes (ID x) k = ring_succ (sort_nodes nodes) s k.
Proof.
  intros Hlen Hnd Hs. unfold RingNeighbors.
  destruct (Nat.leb_spec (length nodes) 1); [lia |].
  rewrite (find_self (sort_nodes nodes) s x); [| by rewrite sort_nodes_perm | done].
  unfold ring_succ, ring_count.
  replace (if length (sort_nodes nodes) - 1 <? k then length (sort_nodes nodes) - 1 else k)
    with (k `min` (length (sort_nodes nodes) - 1)); [done |].
  destruct (Nat.ltb_spec (length (sort_nodes nodes) - 1) k); lia.
Qed.

Lemma ring_succ_elem l s k y :
  y ∈ ring_succ l s k ↔ ∃ i, 1 ≤ i ≤ ring_count (length l) k ∧ l !! ((s + i) mod length l) = Some y.
Proof.
  unfold ring_succ. rewrite list_elem_of_omap. setoid_rewrite elem_of_seq. split.
  - intros (i & Hi & Hy). exists i. split; [lia | done].
  - intros (i & Hi & Hy). exists i. split; [lia | done].
Qed.

(** The predecessors of a position: the nodes that watch it. *)
Definition ring_pred (l : list nodeInfo) (t k : nat) : list nodeInfo :=
  omap (λ i, l !! ((t + length l - i) mod length l)) (seq 1 (ring_count (length l) k)).

Lemma ring_index_inverse n s t i :
  s < n → t < n → 1 ≤ i → i < n → (s + i) mod n = t ↔ s = (t + n - i) mod n.
Proof.
  intros Hs Ht H1 Hi. rewrite !mod_wrap by lia.
  destruct (Nat.ltb_spec (s + i) n), (Nat.ltb_spec (t + n - i) n); lia.
Qed.

Lemma omap_index_NoDup (l : list nodeInfo) (f : nat → nat) a n :
  NoDup l → (∀ i j, a ≤ i < a + n → a ≤ j < a + n → f i = f j → i = j) →
  (∀ i, a ≤ i < a + n → f i < length l) →
  NoDup (omap (λ i, l !! f i) (seq a n)) ∧ length (omap (λ i, l !! f i) (seq a n)) = n.
Proof.
  intros Hl. revert a. induction n as [| n IH]; intros a Hinj Hlt; [split; [constructor | done] |].
  cbn [seq]. destruct (lookup_lt_is_Some_2 l (f a)) as [x Hx]; [apply Hlt; lia |].
  destruct (IH (S a)) as [IHn IHl]; [intros i j Hi Hj; apply Hinj; lia | intros i Hi; apply Hlt; lia |].
  cbn [omap list_omap]. rewrite Hx. split; [| cbn; by rewrite IHl].
  apply NoDup_cons. split; [| done]. intros Hin. apply list_elem_of_omap in Hin as (i & Hi & Hx').
  apply elem_of_seq in Hi. assert (f a = f i) as E by (eapply NoDup_lookup; [exact Hl | exact Hx | exact Hx']).
  apply Hinj in E; lia.
Qed.

Lemma ring_pred_spec l t k :
  NoDup (ID <$> l) → t < length l →
  NoDup (ring_pred l t k) ∧ length (ring_pred l t k) = ring_count (length l) k.
Proof.
  intros Hnd Ht. pose proof (NoDup_fmap_1 _ _ Hnd) as Hl.
  apply omap_index_NoDup; [done | |].
  - intros i j Hi Hj. unfold ring_count in *. rewrite !mod_wrap by lia.
    destruct (Nat.ltb_spec (t + length l - i) (length l)), (Nat.ltb_spec (t + length l - j) (length l)); lia.
  - intros i Hi. apply Nat.mod_upper_bound. lia.
Qed.

Lemma observers_pred l t y k :
  NoDup (ID <$> l) → l !! t = Some y →
  ∀ s x, l !! s = Some x → y ∈ ring_succ l s k ↔ x ∈ ring_pred l t k.
Proof.
  intros Hnd Hy s x Hx. pose proof (NoDup_fmap_1 _ _ Hnd) as Hl.
  pose proof (lookup_lt_Some _ _ _ Hy). pose proof (lookup_lt_Some _ _ _ Hx).
  rewrite ring_succ_elem. unfold ring_pred. rewrite list_elem_of_omap. setoid_rewrite elem_of_seq.
  unfold ring_count. split.
  - intros (i & Hi & E). exists i. split; [lia |].
    assert ((s + i) mod length l = t) as Ht by (eapply NoDup_lookup; [exact Hl | exact E | exact Hy]).
    apply ring_index_inverse in Ht; [| lia..]. by rewrite <- Ht.
  - intros (i & Hi & E). exists i. split; [lia |].
    assert (s = (t + length l - i) mod length l) as Hs by (eapply NoDup_lookup; [exact Hl | exact Hx | exact E]).
    apply ring_index_inverse in Hs; [| lia..]. by rewrite Hs.
Qed.

(** In a ring of at least two nodes every node is watched by exactly
    [min(K, N - 1)] different nodes, and no node watches itself. *)
Theorem ring_observers nodes k y :
  1 < length nodes → NoDup (ID <$> nodes) → y ∈ nodes →
  length (filter (λ x, y ∈ RingNeighbors nodes (ID x) k) nodes) = k `min` (length nodes - 1) ∧
  y ∉ RingNeighbors nodes (ID y) k.
Proof.
  intros Hlen Hnd Hy. set (l := sort_nodes nodes).
  assert (l ≡ₚ nodes) as Hp by apply sort_nodes_perm.
  assert (NoDup (ID <$> l)) as Hndl by (by rewrite Hp).
  assert (length l = length nodes) as Hll by (by rewrite Hp).
  assert (y ∈ l) as Hyl by (by rewrite Hp). apply list_elem_of_lookup in Hyl as [t Ht].
  pose proof (lookup_lt_Some _ _ _ Ht) as Htl.
  destruct (ring_pred_spec l t k Hndl Htl) as [Hpn Hpl].
  assert (∀ x, x ∈ nodes → y ∈ RingNeighbors nodes (ID x) k ↔ x ∈ ring_pred l t k) as Hobs.
  { intros x Hx. rewrite <- Hp in Hx. apply list_elem_of_lookup in Hx as [s Hs].
    rewrite (RingNeighbors_succ nodes s x) by done. by apply observers_pred. }
  split.
  - rewrite <- Hll. fold (ring_count (length l) k). rewrite <- Hpl. apply Permutation_length.
    apply NoDup_Permutation; [apply NoDup_filter, (NoDup_fmap_1 _ _ Hnd) | done |].
    intros x. rewrite list_elem_of_filter. split.
    + intros [H1 H2]. by apply Hobs.
    + intros H. assert (x ∈ nodes) as Hx.
      { rewrite <- Hp. unfold ring_pred in H. apply list_elem_of_omap in H as (i & _ & H).
        by eapply list_elem_of_lookup_2. }
      split; [by apply Hobs | done].
  - rewrite (RingNeighbors_succ nodes t y) by done. rewrite ring_succ_elem. fold l. intros (i & Hi & E).
    unfold ring_count in Hi.
    assert ((t + i) mod length l = t) as E'
      by (eapply NoDup_lookup; [exact (NoDup_fmap_1 _ _ Hndl) | exact E | exact Ht]).
    rewrite mod_wrap in E' by lia. destruct (Nat.ltb_spec (t + i) (length l)); lia.
Qed.

Lemma ring_observers_witness :
  let nodes := [mkNode "c" "10.0.0.3"; mkNode "a" "10.0.0.1"; mkNode "d" "10.0.0.4";
                mkNode "b" "10.0.0.2"; mkNode "e" "10.0.0.5"] in
  length (filter (λ x, mkNode "a" "10.0.0.1" ∈ RingNeighbors nodes (ID x) 3) nodes) = 3.
Proof.
  intros nodes. apply (ring_observers nodes 3 (mkNode "a" "10.0.0.1")).
  - apply Nat.ltb_lt. reflexivity.
  - apply (bool_decide_unpack _). vm_compute. exact I.
  - right. left.
Defined.

(** ** The quorum *)

(** Two different nodes reported the death, this node among them. *)
Definition quorum_of (c : cluster) (self target : string) : Prop :=
  ∃ o, o ≠ self ∧
    (∃ e, e ∈ events c ∧ observer_id e = self ∧ target_id e = target ∧ event_status e = "dead"%string) ∧
    (∃ e, e ∈ events c ∧ observer_id e = o ∧ target_id e = target ∧ event_status e = "dead"%string).

Lemma lowest_elem l x : lowest l = Some x → x ∈ l.
Proof.
  unfold lowest. intros H. apply head_Some_elem_of in H. unfold SortStrings in H.
  by rewrite merge_sort_Permutation in H.
Qed.

Lemma dead_observers_elem now zone target evs o :
  o ∈ dead_observers now zone target evs →
  ∃ e, e ∈ evs ∧ observer_id e = o ∧ target_id e = target ∧ event_status e = "dead"%string.
Proof.
  unfold dead_observers. intros H. apply list_elem_of_fmap in H as (e & -> & He).
  apply list_elem_of_filter in He as [(H1 & H2 & _) He]. eauto 10.
Qed.

Lemma checkQuorum_true now zone self target c :
  checkQuorum now zone self target (events c) = true → quorum_of c self target.
Proof.
  unfold checkQuorum. set (obs := dead_observers now zone target (events c)).
  destruct (Nat.ltb_spec (length (remove_dups obs)) DefaultMinQuorum) as [| Hq]; [done |].
  destruct (lowest obs) as [l |] eqn:Hl; [| done]. intros ->%String.eqb_eq.
  apply lowest_elem in Hl. apply (elem_of_remove_dups obs) in Hl as Hl'.
  assert (∃ o, o ≠ self ∧ o ∈ obs) as (o & Hne & Ho).
  { pose proof (NoDup_remove_dups obs) as Hnd. unfold DefaultMinQuorum in Hq.
    destruct (remove_dups obs) as [| x [| y rest]] eqn:E; [simpl in Hq; lia | simpl in Hq; lia |].
    destruct (decide (x = self)) as [-> | Hx].
    - exists y. split; [| apply elem_of_remove_dups; rewrite E; set_solver].
      intros ->. apply NoDup_cons in Hnd as [Hnd _]. set_solver.
    - exists x. split; [done |]. apply elem_of_remove_dups. rewrite E. set_solver. }
  exists o. split; [done |]. split; [by apply dead_observers_elem in Hl | by apply dead_observers_elem in Ho].
Qed.

Definition cluster_inv (c : cluster) : Prop :=
  map_Forall (λ _ m, monitor_wf m) (monitors c) ∧
  ∀ p, p ∈ deaths c → quorum_of c p.1 p.2.

Lemma quorum_of_mono c c' self target :
  events c ⊆ events c' → quorum_of c self target → quorum_of c' self target.
Proof. intros Hsub (o & Hne & (e1 & He1 & H1) & (e2 & He2 & H2)). exists o. eauto 12. Qed.

Lemma cluster_step_inv c c' : cluster_inv c → cluster_step c c' → cluster_inv c'.
Proof.
  intros [Hm Hd] [l Hl]. destruct l as [self target healthy now sec ok | self target now zone qok | self ns];
    cbn [exec] in Hl.
  - destruct (monitors c !! self) as [m |] eqn:Hs; [| done].
    pose proof (updateState_wf now target healthy m (Hm _ _ Hs)) as Hwf.
    destruct (updateState now target healthy m) as [m' acts]. injection Hl as <-. split.
    + by apply map_Forall_insert_2.
    + intros p Hp. eapply quorum_of_mono; [| by apply Hd]. cbn. destruct ok; set_solver.
  - destruct (list_find _ (pending c)) as [[i q] |]; [| done]. injection Hl as <-. split; [done |].
    intros p Hp. apply (quorum_of_mono c); [done |]. cbn in Hp.
    destruct (qok && _) eqn:Hq; [| by apply Hd]. apply andb_prop in Hq as [_ Hq].
    apply elem_of_app in Hp as [Hp | ->%list_elem_of_singleton]; [by apply Hd |].
    by eapply checkQuorum_true.
  - destruct (monitors c !! self) as [m |] eqn:Hs; [| done]. injection Hl as <-. split; [| done].
    apply map_Forall_insert_2; [apply prune_wf; by eapply Hm | done].
Qed.

(** C39: a node acts on the death of a peer only when the table holds death
    reports of at least two observers, itself included, whatever the order of
    probes, event writes and quorum checks in the cluster, and whatever the
    clocks and time zones of the nodes. *)
Theorem death_needs_quorum starts c :
  rtc cluster_step (cluster_init starts) c →
  ∀ self target, (self, target) ∈ deaths c → quorum_of c self target.
Proof.
  intros H self target Hin.
  destruct (invariant_rtc cluster_step cluster_inv cluster_step_inv _ _ H) as [_ Hd].
  - split; [| intros p Hp; by apply not_elem_of_nil in Hp].
    intros i m Hi. cbn in Hi. rewrite lookup_fmap in Hi. apply fmap_Some in Hi as (p & _ & ->).
    apply map_Forall_empty.
  - exact (Hd _ Hin).
Qed.

(** Runs of labels. *)
Fixpoint exec_all (ls : list label) (c : cluster) : option cluster :=
  match ls with
  | [] => Some c
  | l :: ls' => exec l c ≫= exec_all ls'
  end.

Lemma exec_all_rtc ls c c' : exec_all ls c = Some c' → rtc cluster_step c c'.
Proof.
  revert c. induction ls as [| l ls IH]; intros c; cbn [exec_all]; [by intros [= ->] |].
  intros H. apply bind_Some in H as (c1 & Hl & H). eapply rtc_l; [by exists l | auto].
Qed.

(** Twelve missed probes of a node by an observer, then its quorum check. *)
Definition outage (self target : string) (now : time) : list label :=
  replicate 12 (LProbe self target false now (now / Second) true) ++ [LCheck self target now 0 true].

Definition three_nodes : cluster :=
  cluster_init (list_to_map [("a", (0, 1)); ("b", (0, 1)); ("c", (0, 1))]%string%Z).

Definition outage_run (order : list string) : option cluster :=
  exec_all (concat ((λ o, outage o "t" (10 * Minute)) <$> order)) three_nodes.

Lemma death_needs_quorum_witness :
  ∃ c, rtc cluster_step three_nodes c ∧ ("b", "t")%string ∈ deaths c ∧ quorum_of c "b" "t".
Proof.
  assert (∃ c, outage_run ["c"; "b"]%string = Some c ∧ deaths c = [("b", "t")]%string) as (c & Hc & Hd)
    by (eexists; split; vm_compute; reflexivity).
  assert (("b", "t")%string ∈ deaths c) as Hin by (rewrite Hd; left).
  pose proof (exec_all_rtc _ _ _ Hc) as Hr.
  exists c. split; [exact Hr |]. split; [exact Hin |].
  exact (death_needs_quorum _ _ Hr "b" "t" Hin).
Defined.

(** On hosts an hour ahead of UTC the cutoff lies in the future and no report
    is recent: nobody acts on an outage that all three nodes have reported. *)
Lemma zone_hides_reports :
  let reports := (λ o, mkEvent o "t" "dead" 600) <$> ["a"; "b"; "c"]%string in
  checkQuorum (600 * Second) 0 "a" "t" reports = true ∧ checkQuorum (600 * Second) 3600 "a" "t" reports = false.
Proof. split; vm_compute; reflexivity. Qed.

(** A settled outage: every monitor has the node dead and reported, nothing is
    scheduled for it, and nobody has acted. *)
Definition settled (target : string) (c : cluster) : Prop :=
  map_Forall (λ _ m, monitor_wf m ∧ status (peer_of m target) = Dead) (monitors c) ∧
  (∀ p, p ∈ pending c → p.2 ≠ target) ∧ (∀ p, p ∈ deaths c → p.2 ≠ target).

(** Steps in which the node stays down and no monitor forgets it. *)
Definition still_down (target : string) (c c' : cluster) : Prop :=
  ∃ l, exec l c = Some c' ∧
    match l with
    | LProbe _ t healthy _ _ _ => t = target → healthy = false
    | LCheck _ _ _ _ _ => True
    | LPrune _ _ => False
    end.

Lemma scheduled_target self acts p : p ∈ scheduled self acts → CheckQuorum p.2 ∈ acts.
Proof.
  unfold scheduled. intros H. apply list_elem_of_omap in H as (a & Ha & H).
  destruct a; simplify_eq; done.
Qed.

Lemma settled_step target c c' : settled target c → still_down target c c' → settled target c'.
Proof.
  intros (Hm & Hp & Hd) (l & Hl & Hdown).
  destruct l as [self t healthy now sec ok | self t now zone qok | self ns]; [| | done]; cbn [exec] in Hl.
  - destruct (monitors c !! self) as [m |] eqn:Hs; [| done].
    destruct (Hm _ _ Hs) as [Hwf Hdead].
    pose proof (updateState_wf now t healthy m Hwf) as Hwf'.
    destruct (updateState_effect now t healthy m Hwf) as (ps & Hps & He).
    destruct (updateState now t healthy m) as [m' acts]. cbn in Hwf', Hps, He. subst m'.
    injection Hl as <-.
    assert (status (peer_of (set_peer t ps m) target) = Dead ∧
            (CheckQuorum target ∉ acts)) as [Hst Hact].
    { destruct (decide (t = target)) as [-> | Hne].
      - rewrite Hdown in He by done. rewrite peer_of_set_eq.
        inversion He; subst; try congruence. cbn. split; [done | apply not_elem_of_nil].
      - rewrite peer_of_set_ne by done. split; [done |].
        inversion He; subst; try (destruct (status (peer_of m t))); set_solver. }
    split; [| split].
    + by apply map_Forall_insert_2.
    + intros p. cbn. rewrite elem_of_app. intros [H | H]; [by apply Hp |].
      apply scheduled_target in H. congruence.
    + done.
  - destruct (list_find _ (pending c)) as [[i q] |] eqn:Hf; [| done]. injection Hl as <-.
    apply list_find_Some in Hf as (Hi & -> & _).
    assert (t ≠ target) as Hne by (apply list_elem_of_lookup_2 in Hi; by apply Hp in Hi).
    split; [done |]. split.
    + intros p H. apply Hp. cbn in H. by eapply list_elem_of_delete_inv.
    + intros p H. cbn in H. destruct (qok && _); [| by apply Hd].
      apply elem_of_app in H as [H | ->%list_elem_of_singleton]; [by apply Hd | done].
Qed.

(** Whether a death is acted on depends on the order of the reports.  When
    the observer with the lowest id reports first, it sees no quorum and the
    others see that they are not responsible: nobody ever acts while the node
    stays down.  When it reports last, two nodes act. *)
Theorem quorum_depends_on_order :
  (∃ c, outage_run ["a"; "b"; "c"]%string = Some c ∧ quorum_of c "a" "t" ∧
        ∀ c', rtc (still_down "t") c c' → ∀ self, (self, "t"%string) ∉ deaths c') ∧
  (∃ c, outage_run ["c"; "b"; "a"]%string = Some c ∧
        deaths c = [("b", "t"); ("a", "t")]%string).
Proof.
  split.
  - assert (∃ c, outage_run ["a"; "b"; "c"]%string = Some c ∧ deaths c = [] ∧ pending c = [] ∧
      bool_decide (Forall (λ p, status (peer_of p.2 "t") = Dead) (map_to_list (monitors c))) = true ∧
      (∃ e, e ∈ events c ∧ observer_id e = "a"%string ∧ target_id e = "t"%string ∧ event_status e = "dead"%string) ∧
      (∃ e, e ∈ events c ∧ observer_id e = "b"%string ∧ target_id e = "t"%string ∧ event_status e = "dead"%string))
      as (c & Hc & Hd & Hp & Hst & Ha & Hb).
    { eexists. split; [vm_compute; reflexivity |]. repeat (split; [vm_compute; reflexivity |]).
      split; eexists;
        [split; [apply (list_elem_of_lookup_2 _ 1); vm_compute; reflexivity | done]
        | split; [apply (list_elem_of_lookup_2 _ 3); vm_compute; reflexivity | done]]. }
    exists c. split; [exact Hc |]. split.
    { exists "b"%string. split; [discriminate |]. split; [exact Ha | exact Hb]. }
    intros c' Hc' self Hin.
    assert (settled "t" c') as (_ & _ & Hnone); [| exact (Hnone _ Hin eq_refl)].
    apply (invariant_rtc (still_down "t") (settled "t")) with (2 := Hc'); [apply settled_step |].
    split; [| split; [rewrite Hp | rewrite Hd]; intros p H; destruct (not_elem_of_nil _ H)].
    intros i m Hi. split.
    + destruct (invariant_rtc cluster_step cluster_inv cluster_step_inv _ _ (exec_all_rtc _ _ _ Hc)) as [Hw _];
        [| exact (Hw i m Hi)].
      split; [| intros p H; destruct (not_elem_of_nil _ H)].
      intros j mj Hj. cbn in Hj. rewrite lookup_fmap in Hj. apply fmap_Some in Hj as (q & _ & ->).
      apply map_Forall_empty.
    + apply bool_decide_eq_true in Hst. rewrite Forall_forall in Hst.
      apply (Hst (i, m)). apply elem_of_map_to_list. exact Hi.
  - eexists. split; vm_compute; reflexivity.
Qed.
