(* ===== verification/Ephemeral.v ===== *)
(** * Ephemeral state of WebSocket clients
      ([core/pkg/serverless/ephemeral_state.go])

    A store of short-lived values keyed by (namespace, topic, key), each owned
    by the client that set it, with an index of the keys of every client for
    the clean-up on disconnect.  An operation returns its result, the new
    store and the events it publishes, in order.  Where the code ranges over a
    Go map, the order of the visit is an argument. *)

From Stdlib Require Import ZArith Lia String.
From stdpp Require Import base tactics numbers list gmap strings sets relations sorting.
From S2P Require Import Prelude GoStrings.

Definition ephemeralMaxKeysPerClient : nat := 256.
Definition ephemeralMaxPayloadBytes : nat := 16 * 1024.
Definition ephemeralMaxTTL : duration := (30 * Minute)%Z.
Definition ephemeralDefaultTTL : duration := (60 * Second)%Z.

(** [ephemeralStateKey]: namespace, topic, key. *)
Abbreviation stateKey := (string * string * string)%type (only parsing).

Record ephemeralEntry := mkEntry {
  e_key : stateKey;
  clientID : string;
  payload : list N;
  expiresAt : time
}.

Record EphemeralStore := mkStore {
  values : gmap stateKey ephemeralEntry;
  owned : gmap string (gset stateKey)
}.

Definition NewEphemeralStore : EphemeralStore := mkStore ∅ ∅.

(** [EphemeralEvent] with the namespace and topic it is published on. *)
Inductive clear_reason := Explicit | Disconnect | Expired.

Inductive EphemeralEvent :=
| EventSet (sk : stateKey) (client : string) (payload : list N)
| EventClear (sk : stateKey) (client : string) (reason : clear_reason).

Inductive EphemeralError :=
| ErrNoClient
| ErrTopicKeyRequired
| ErrPayloadTooLarge (len : nat)
| ErrTooManyKeys (client : string)
| ErrPublish.

(** ** Operations *)

(** [publishEvent]: whether the publisher, a parameter of the store, takes the
    event.  A store without a publisher takes every event. *)
Definition publishEvent (publish : EphemeralEvent → bool) (ev : EphemeralEvent)
    : result EphemeralError unit :=
  if publish ev then Ok tt else Err ErrPublish.

Definition owned_by (c : string) (s : EphemeralStore) : gset stateKey := default ∅ (owned s !! c).

(** The time to live of a request in milliseconds, in 64-bit arithmetic. *)
Definition clamp_ttl (ttlMs : Z) : duration :=
  let ttl := wrap64 (ttlMs * Millisecond) in
  let ttl := if (ttl <=? 0)%Z then ephemeralDefaultTTL else ttl in
  if (ephemeralMaxTTL <? ttl)%Z then ephemeralMaxTTL else ttl.

(** Remove a key from the set of a client, and the set when it becomes empty. *)
Definition disown (c : string) (sk : stateKey) (o : gmap string (gset stateKey))
    : gmap string (gset stateKey) :=
  match o !! c with
  | Some set =>
      let set := set ∖ {[sk]} in
      if bool_decide (set = ∅) then delete c o else <[c := set]> o
  | None => o
  end.

Definition removeLocked (sk : stateKey) (e : ephemeralEntry) (s : EphemeralStore) : EphemeralStore :=
  mkStore (delete sk (values s)) (disown (clientID e) sk (owned s)).

Definition Set_ (publish : EphemeralEvent → bool) (now : time) (namespace client topic key : string) (pl : list N) (ttlMs : Z)
    (s : EphemeralStore) : result EphemeralError unit * EphemeralStore * list EphemeralEvent :=
  if String.eqb client EmptyString then (Err ErrNoClient, s, [])
  else if String.eqb topic EmptyString || String.eqb key EmptyString
  then (Err ErrTopicKeyRequired, s, [])
  else if ephemeralMaxPayloadBytes <? length pl then (Err (ErrPayloadTooLarge (length pl)), s, [])
  else
    let sk := (namespace, topic, key) in
    let mine := match values s !! sk with
                | Some prev => bool_decide (clientID prev = client)
                | None => false
                end in
    if negb mine && (ephemeralMaxKeysPerClient <=? size (owned_by client s))
    then (Err (ErrTooManyKeys client), s, [])
    else
      let o := match values s !! sk with
               | Some prev => if negb mine then disown (clientID prev) sk (owned s) else owned s
               | None => owned s
               end in
      (publishEvent publish (EventSet sk client pl),
       mkStore (<[sk := mkEntry sk client pl (now + clamp_ttl ttlMs)%Z]> (values s))
         (<[client := owned_by client s ∪ {[sk]}]> o),
       [EventSet sk client pl]).

Definition Clear (publish : EphemeralEvent → bool) (namespace client topic key : string) (s : EphemeralStore)
    : result EphemeralError unit * EphemeralStore * list EphemeralEvent :=
  if String.eqb client EmptyString then (Err ErrNoClient, s, [])
  else if String.eqb topic EmptyString || String.eqb key EmptyString
  then (Err ErrTopicKeyRequired, s, [])
  else
    let sk := (namespace, topic, key) in
    match values s !! sk with
    | Some e =>
        if bool_decide (clientID e = client)
        then (publishEvent publish (EventClear sk client Explicit),
              removeLocked sk e s, [EventClear sk client Explicit])
        else (Ok tt, s, [])
    | None => (Ok tt, s, [])
    end.

(** [ClearClient]; [order] is the order in which the set of the client's keys
    is visited. *)
Fixpoint clear_keys (order : list stateKey) (vs : gmap stateKey ephemeralEntry)
    : list ephemeralEntry * gmap stateKey ephemeralEntry :=
  match order with
  | [] => ([], vs)
  | sk :: rest =>
      match vs !! sk with
      | Some e => let (es, vs') := clear_keys rest (delete sk vs) in (e :: es, vs')
      | None => clear_keys rest vs
      end
  end.

Definition ClearClient (order : list stateKey) (client : string) (s : EphemeralStore)
    : EphemeralStore * list EphemeralEvent :=
  if bool_decide (owned_by client s = ∅) then (mkStore (values s) (delete client (owned s)), [])
  else
    let (cleared, vs) := clear_keys order (values s) in
    (mkStore vs (delete client (owned s)),
     (λ e, EventClear (e_key e) client Disconnect) <$> cleared).

(** [sweepExpired]; [order] is the order in which the values are visited. *)
Fixpoint sweep_keys (now : time) (order : list stateKey) (s : EphemeralStore)
    : list ephemeralEntry * EphemeralStore :=
  match order with
  | [] => ([], s)
  | sk :: rest =>
      match values s !! sk with
      | Some e =>
          if After now (expiresAt e) then
            let (es, s') := sweep_keys now rest (removeLocked sk e s) in (e :: es, s')
          else sweep_keys now rest s
      | None => sweep_keys now rest s
      end
  end.

Definition sweepExpired (now : time) (order : list stateKey) (s : EphemeralStore)
    : EphemeralStore * list EphemeralEvent :=
  let (expired, s') := sweep_keys now order s in
  (s', (λ e, EventClear (e_key e) (clientID e) Expired) <$> expired).

(** [List]: key, client, payload and remaining milliseconds, sorted by key. *)
Record listEntry := mkList { l_key : string; l_client : string; l_payload : list N; l_expires : Z }.

Definition list_le (a b : listEntry) : Prop := String.le (l_key a) (l_key b).

#[export] Instance list_le_dec : RelDecision list_le.
Proof. intros a b. unfold list_le. apply _. Defined.

Definition List_ (now : time) (namespace topic : string) (s : EphemeralStore) : list listEntry :=
  merge_sort list_le
    (omap (λ p, let '((n, t, _), e) := p in
                if bool_decide (n = namespace) && bool_decide (t = topic)
                   && Before now (expiresAt e)
                then Some (mkList (e_key e).2 (clientID e) (payload e)
                             ((expiresAt e - now) / Millisecond)%Z)
                else None) (map_to_list (values s))).

(** ** Invariant *)

Definition store_wf (s : EphemeralStore) : Prop :=
  (∀ sk e, values s !! sk = Some e → e_key e = sk ∧ sk ∈ owned_by (clientID e) s) ∧
  (∀ c set, owned s !! c = Some set → set ≠ ∅ ∧ size set ≤ ephemeralMaxKeysPerClient) ∧
  (∀ c sk, sk ∈ owned_by c s → ∃ e, values s !! sk = Some e ∧ clientID e = c).

Lemma owned_by_disown c sk o c' :
  default ∅ (disown c sk o !! c') = if decide (c' = c) then default ∅ (o !! c) ∖ {[sk]} else default ∅ (o !! c').
Proof.
  unfold disown. destruct (o !! c) as [set |] eqn:Hc.
  - case_bool_decide as He; case_decide as Hd; subst.
    + rewrite lookup_delete_eq. cbn. set_solver.
    + by rewrite lookup_delete_ne.
    + by rewrite lookup_insert_eq.
    + by rewrite lookup_insert_ne.
  - case_decide; subst; rewrite ?Hc; cbn; set_solver.
Qed.

(** What the index holds after a key was taken from a client. *)
Lemma disown_lookup c sk o c' set :
  disown c sk o !! c' = Some set →
  (∀ c set, o !! c = Some set → set ≠ ∅ ∧ size set ≤ ephemeralMaxKeysPerClient) →
  set ≠ ∅ ∧ size set ≤ ephemeralMaxKeysPerClient.
Proof.
  unfold disown. intros H Ho. destruct (o !! c) as [set0 |] eqn:Hc; [| by eapply Ho].
  case_bool_decide as He.
  - apply lookup_delete_Some in H as [_ H]. by eapply Ho.
  - destruct (decide (c' = c)) as [-> | Hne].
    + rewrite lookup_insert_eq in H. injection H as <-. split; [done |].
      destruct (Ho _ _ Hc) as [_ Hs]. etrans; [| exact Hs]. apply subseteq_size. set_solver.
    + rewrite lookup_insert_ne in H by done. by eapply Ho.
Qed.

Lemma removeLocked_wf sk e s :
  store_wf s → values s !! sk = Some e → store_wf (removeLocked sk e s).
Proof.
  intros (Hv & Ho & Hback) He. unfold removeLocked. split; [| split]; cbn.
  - intros sk' e' H'. apply lookup_delete_Some in H' as [Hne H'].
    destruct (Hv _ _ H') as [Hk Hin]. split; [done |]. unfold owned_by in *. cbn.
    rewrite owned_by_disown. case_decide as E; [rewrite <- E |]; set_solver.
  - intros c set H'. by eapply disown_lookup.
  - intros c sk' H'. unfold owned_by in H'. cbn in H'. rewrite owned_by_disown in H'.
    case_decide as E.
    + subst c. apply elem_of_difference in H' as [H' Hne]. destruct (Hback _ _ H') as (e' & He' & Hc).
      exists e'. rewrite lookup_delete_ne by set_solver. done.
    + destruct (Hback _ _ H') as (e' & He' & Hc). exists e'.
      rewrite lookup_delete_ne; [done |]. intros <-. congruence.
Qed.

Lemma size_add_one (set : gset stateKey) sk : size (set ∪ {[sk]}) ≤ S (size set).
Proof.
  rewrite size_union_alt. pose proof (subseteq_size ({[sk]} ∖ set) {[sk]} ltac:(set_solver)) as Hs.
  rewrite size_singleton in Hs. lia.
Qed.

Lemma Set_wf pub now ns c topic key pl ttl s :
  store_wf s → store_wf (Set_ pub now ns c topic key pl ttl s).1.2.
Proof.
  intros Hwf. unfold Set_. do 3 (destruct (_ : bool); [done |]). set (sk := (ns, topic, key)).
  set (mine := match values s !! sk with Some prev => _ | None => false end).
  destruct (negb mine && _) eqn:Hcap; [done |]. cbn [fst snd].
  set (o := match values s !! sk with Some prev => _ | None => owned s end).
  destruct Hwf as (Hv & Ho & Hback).
  assert (∀ c', c' ≠ c → default ∅ (o !! c') = owned_by c' s ∖ {[sk]}) as Hother.
  { intros c' Hne. unfold o, mine, owned_by. destruct (values s !! sk) as [prev |] eqn:Hp.
    - case_bool_decide as Hm; cbn [negb].
      + assert (sk ∉ owned_by c' s) as Hn; [| unfold owned_by in Hn; set_solver].
        intros Hin. destruct (Hback _ _ Hin) as (e & He & Hc). congruence.
      + rewrite owned_by_disown. case_decide as E; [by rewrite E |].
        assert (sk ∉ owned_by c' s) as Hn; [| unfold owned_by in Hn; set_solver].
        intros Hin. destruct (Hback _ _ Hin) as (e & He & Hc). congruence.
    - assert (sk ∉ owned_by c' s) as Hn; [| unfold owned_by in Hn; set_solver].
      intros Hin. destruct (Hback _ _ Hin) as (e & He & Hc). congruence. }
  assert (∀ c' set, o !! c' = Some set → set ≠ ∅ ∧ size set ≤ ephemeralMaxKeysPerClient) as Hsets.
  { intros c' set. unfold o. destruct (values s !! sk) as [prev |]; [| apply Ho].
    destruct (negb mine); [| apply Ho]. intros H'. by eapply disown_lookup. }
  split; [| split]; cbn.
  - intros sk' e' H'. destruct (decide (sk' = sk)) as [-> | Hne].
    + rewrite lookup_insert_eq in H'. injection H' as <-. split; [done |].
      unfold owned_by at 1. cbn. rewrite lookup_insert_eq. cbn. set_solver.
    + rewrite lookup_insert_ne in H' by done. destruct (Hv _ _ H') as [Hk Hin]. split; [done |].
      unfold owned_by at 1. cbn. destruct (decide (clientID e' = c)) as [E | E].
      * rewrite E, lookup_insert_eq. cbn. rewrite E in Hin. set_solver.
      * rewrite lookup_insert_ne by done. rewrite Hother by done. set_solver.
  - intros c' set H'. destruct (decide (c' = c)) as [-> | Hne].
    + rewrite lookup_insert_eq in H'. injection H' as <-. split; [set_solver |].
      unfold mine in Hcap. destruct (values s !! sk) as [prev |] eqn:Hp.
      * case_bool_decide as Hm; cbn [negb andb] in Hcap.
        -- assert (sk ∈ owned_by c s) as Hin by (rewrite <- Hm; by apply Hv).
           replace (owned_by c s ∪ {[sk]}) with (owned_by c s) by set_solver.
           unfold owned_by. destruct (owned s !! c) as [set |] eqn:E; cbn; [by eapply Ho | rewrite size_empty; lia].
        -- apply Nat.leb_gt in Hcap. pose proof (size_add_one (owned_by c s) sk). lia.
      * cbn [negb andb] in Hcap. apply Nat.leb_gt in Hcap. pose proof (size_add_one (owned_by c s) sk). lia.
    + rewrite lookup_insert_ne in H' by done. by eapply Hsets.
  - intros c' sk' H'. unfold owned_by at 1 in H'. cbn in H'. destruct (decide (c' = c)) as [-> | Hne].
    + rewrite lookup_insert_eq in H'. cbn in H'. destruct (decide (sk' = sk)) as [-> | Hsk].
      * rewrite lookup_insert_eq. eauto.
      * rewrite lookup_insert_ne by done. apply Hback. set_solver.
    + rewrite lookup_insert_ne, Hother in H' by done. apply elem_of_difference in H' as [H' Hsk].
      rewrite lookup_insert_ne by set_solver. by apply Hback.
Qed.

Lemma Clear_wf pub ns c topic key s : store_wf s → store_wf (Clear pub ns c topic key s).1.2.
Proof.
  intros Hwf. unfold Clear. do 2 (destruct (_ : bool); [done |]).
  destruct (values s !! (ns, topic, key)) as [e |] eqn:He; [| done].
  case_bool_decide; [by apply removeLocked_wf | done].
Qed.

Lemma clear_keys_spec order vs :
  NoDup order →
  (clear_keys order vs).1 = omap (λ sk, vs !! sk) order ∧
  ∀ sk, (clear_keys order vs).2 !! sk = if decide (sk ∈ order) then None else vs !! sk.
Proof.
  revert vs. induction order as [| sk order IH]; intros vs Hnd; [split; [done | intros sk; rewrite decide_False; [done | apply not_elem_of_nil]] |].
  apply NoDup_cons in Hnd as [Hni Hnd]. cbn [clear_keys].
  destruct (vs !! sk) as [e |] eqn:He.
  - destruct (clear_keys order (delete sk vs)) as [es vs'] eqn:Hc.
    destruct (IH (delete sk vs) Hnd) as [IH1 IH2]. rewrite Hc in IH1, IH2. cbn [fst snd] in *. split.
    + cbn. rewrite He, IH1. f_equal. apply list_omap_ext, Forall2_same_length_lookup_2; [done |].
      intros i x y Hx Hy. simplify_eq. rewrite lookup_delete_ne; [done |].
      intros ->. by apply list_elem_of_lookup_2 in Hx.
    + intros sk'. rewrite IH2. destruct (decide (sk' = sk)) as [-> | Hne].
      * rewrite lookup_delete_eq. repeat case_decide; done || set_solver.
      * rewrite lookup_delete_ne by done. repeat case_decide; set_solver.
  - destruct (IH vs Hnd) as [IH1 IH2]. split.
    + cbn. by rewrite He, IH1.
    + intros sk'. rewrite IH2. destruct (decide (sk' = sk)) as [-> | Hne].
      * rewrite He. repeat case_decide; done || set_solver.
      * repeat case_decide; set_solver.
Qed.

(** The store after a disconnect holds exactly the values of the others. *)
Lemma ClearClient_values order c s :
  store_wf s → order ≡ₚ elements (owned_by c s) →
  ∀ sk, values (ClearClient order c s).1 !! sk
        = match values s !! sk with
          | Some e => if decide (clientID e = c) then None else Some e
          | None => None
          end.
Proof.
  intros (Hv & _ & Hback) Hord sk. unfold ClearClient. case_bool_decide as He.
  - cbn. destruct (values s !! sk) as [e |] eqn:Hsk; [| done]. case_decide as Hc; [| done].
    destruct (Hv _ _ Hsk) as [_ Hin]. rewrite Hc in Hin. set_solver.
  - assert (NoDup order) as Hnd by (rewrite Hord; apply NoDup_elements).
    pose proof (clear_keys_spec order (values s) Hnd) as [_ Hspec].
    destruct (clear_keys order (values s)) as [es vs]. cbn [fst snd values] in *. rewrite Hspec.
    case_decide as Hin.
    + rewrite Hord, elem_of_elements in Hin. destruct (Hback _ _ Hin) as (e & -> & Hc).
      by rewrite decide_True.
    + destruct (values s !! sk) as [e |] eqn:Hsk; [| done]. case_decide as Hc; [| done].
      destruct Hin. rewrite Hord, elem_of_elements, <- Hc. by apply Hv.
Qed.

Lemma ClearClient_owned order c s c' :
  owned_by c' (ClearClient order c s).1 = if decide (c' = c) then ∅ else owned_by c' s.
Proof.
  unfold ClearClient, owned_by. case_bool_decide; [| destruct (clear_keys _ _)]; cbn;
    (case_decide; [subst; by rewrite lookup_delete_eq | by rewrite lookup_delete_ne]).
Qed.

Lemma ClearClient_wf order c s :
  store_wf s → order ≡ₚ elements (owned_by c s) → store_wf (ClearClient order c s).1.
Proof.
  intros Hwf Hord. pose proof Hwf as (Hv & Ho & Hback).
  pose proof (ClearClient_values order c s Hwf Hord) as Hvals.
  split; [| split].
  - intros sk e He. rewrite Hvals in He. destruct (values s !! sk) as [e0 |] eqn:Hsk; [| done].
    case_decide as Hc; [done |]. injection He as <-. destruct (Hv _ _ Hsk) as [Hk Hin].
    split; [done |]. rewrite ClearClient_owned. by rewrite decide_False.
  - intros c' set H'. assert (owned s !! c' = Some set) as H0; [| by eapply Ho].
    unfold ClearClient in H'. case_bool_decide; [| destruct (clear_keys _ _)];
      cbn in H'; by apply lookup_delete_Some in H' as [_ H'].
  - intros c' sk H'. rewrite ClearClient_owned in H'. case_decide as Hc; [set_solver |].
    destruct (Hback _ _ H') as (e & He & Hce). exists e. rewrite Hvals, He.
    rewrite decide_False by congruence. done.
Qed.

Lemma sweep_keys_spec now order s :
  store_wf s → NoDup order →
  let (es, s') := sweep_keys now order s in
  store_wf s' ∧
  (∀ sk, values s' !! sk = match values s !! sk with
     | Some e => if decide (sk ∈ order ∧ (expiresAt e < now)%Z) then None else Some e
     | None => None end) ∧
  es = omap (λ sk, match values s !! sk with
     | Some e => if decide (expiresAt e < now)%Z then Some e else None
     | None => None end) order.
Proof.
  revert s. induction order as [| sk order IH]; intros s Hwf Hnd; cbn [sweep_keys].
  { split; [done |]. split; [| done]. intros sk. destruct (values s !! sk); [| done].
    rewrite decide_False; [done | set_solver]. }
  apply NoDup_cons in Hnd as [Hni Hnd].
  assert (∀ t s', (∀ sk', sk' ≠ sk → values s' !! sk' = values s !! sk') →
    omap (λ sk, match values s' !! sk with
       | Some e => if decide (expiresAt e < t)%Z then Some e else None | None => None end) order
    = omap (λ sk, match values s !! sk with
       | Some e => if decide (expiresAt e < t)%Z then Some e else None | None => None end) order) as Hext.
  { intros t s' Hs'. apply list_omap_ext, Forall2_same_length_lookup_2; [done |].
    intros i x y Hx Hy. simplify_eq. rewrite Hs'; [done |]. intros ->. by apply list_elem_of_lookup_2 in Hx. }
  destruct (values s !! sk) as [e |] eqn:He.
  2: { specialize (IH s Hwf Hnd). destruct (sweep_keys now order s) as [es s'].
       destruct IH as (IH1 & IH2 & IH3). split; [done |]. split; [| cbn; by rewrite He].
       intros sk'. rewrite IH2. destruct (values s !! sk') as [e' |] eqn:He'; [| done].
       assert (sk' ≠ sk) by congruence. repeat case_decide; set_solver. }
  unfold After. destruct (Z.ltb_spec (expiresAt e) now) as [Hlt | Hge].
  - pose proof (removeLocked_wf _ _ _ Hwf He) as Hwf'. specialize (IH _ Hwf' Hnd).
    destruct (sweep_keys now order (removeLocked sk e s)) as [es s'].
    destruct IH as (IH1 & IH2 & IH3). split; [done |]. split.
    + intros sk'. rewrite IH2. cbn. destruct (decide (sk' = sk)) as [-> | Hne].
      * rewrite lookup_delete_eq, He. rewrite decide_True; [done | set_solver].
      * rewrite lookup_delete_ne by done. destruct (values s !! sk'); [| done]. repeat case_decide; set_solver.
    + cbn [omap list_omap]. rewrite He, decide_True by done. f_equal. rewrite IH3. apply Hext.
      intros sk' Hne. cbn. by rewrite lookup_delete_ne.
  - specialize (IH s Hwf Hnd). destruct (sweep_keys now order s) as [es s'].
    destruct IH as (IH1 & IH2 & IH3). split; [done |]. split.
    + intros sk'. rewrite IH2. destruct (values s !! sk') as [e' |] eqn:He'; [| done].
      destruct (decide (sk' = sk)) as [-> | Hne].
      * simplify_eq. rewrite !decide_False; [done | intros [_ ?]; lia | intros [_ ?]; lia].
      * repeat case_decide; set_solver.
    + cbn [omap list_omap]. rewrite He, decide_False by lia. done.
Qed.

(** ** Visits in an arbitrary order *)

Section Visit.
Context (m : gmap stateKey ephemeralEntry) (P : stateKey * ephemeralEntry → Prop).
Context `{∀ p, Decision (P p)}.

(** The selected pairs in the order of the visit. *)
Definition visit (order : list stateKey) : list (stateKey * ephemeralEntry) :=
  omap (λ k, match m !! k with
             | Some v => if decide (P (k, v)) then Some (k, v) else None
             | None => None
             end) order.

Lemma visit_elem order k v :
  (k, v) ∈ visit order ↔ k ∈ order ∧ m !! k = Some v ∧ P (k, v).
Proof.
  unfold visit. rewrite list_elem_of_omap. split.
  - intros (k' & Hk & Hv). destruct (m !! k') as [v' |] eqn:E; [| done].
    case_decide; [| done]. simplify_eq. done.
  - intros (Hk & Hm & HP). exists k. rewrite Hm. by rewrite decide_True.
Qed.

Lemma visit_NoDup order : NoDup order → NoDup (visit order).
Proof.
  induction 1 as [| k order Hk _ IH]; [constructor |]. unfold visit. cbn [omap list_omap]. fold (visit order).
  destruct (m !! k) as [v |]; [| exact IH]. case_decide; [| exact IH].
  apply NoDup_cons. split; [| exact IH]. intros Hin. by apply visit_elem in Hin as [Hin _].
Qed.

Lemma visit_perm order :
  NoDup order → (∀ k v, m !! k = Some v → P (k, v) → k ∈ order) →
  visit order ≡ₚ map_to_list (filter P m).
Proof.
  intros Hnd Hall. apply NoDup_Permutation; [by apply visit_NoDup | apply NoDup_map_to_list |].
  intros [k v]. rewrite visit_elem, elem_of_map_to_list, map_lookup_filter_Some. naive_solver.
Qed.

Lemma visit_entries {B} (f : ephemeralEntry → B) (g : stateKey * ephemeralEntry → B) order :
  (∀ k v, m !! k = Some v → f v = g (k, v)) →
  f <$> omap (λ k, match m !! k with
                   | Some v => if decide (P (k, v)) then Some v else None
                   | None => None
                   end) order
  = g <$> visit order.
Proof.
  intros Hfg. induction order as [| k order IH]; [done |].
  unfold visit. cbn [omap list_omap]. fold (visit order).
  destruct (m !! k) as [v |] eqn:E; [| exact IH]. case_decide; [| exact IH].
  rewrite !fmap_cons, (Hfg k v E). f_equal. exact IH.
Qed.
End Visit.

(** ** Reachable stores *)

Inductive store_step : EphemeralStore → EphemeralStore → Prop :=
| do_set pub now ns c topic key pl ttl s :
    store_step s (Set_ pub now ns c topic key pl ttl s).1.2
| do_clear pub ns c topic key s :
    store_step s (Clear pub ns c topic key s).1.2
| do_disconnect order c s :
    order ≡ₚ elements (owned_by c s) → store_step s (ClearClient order c s).1
| do_sweep now order s :
    order ≡ₚ (map_to_list (values s)).*1 → store_step s (sweepExpired now order s).1.

Lemma sweepExpired_sweep now order s :
  sweepExpired now order s
  = ((sweep_keys now order s).2,
     (λ e, EventClear (e_key e) (clientID e) Expired) <$> (sweep_keys now order s).1).
Proof. unfold sweepExpired. by destruct (sweep_keys now order s). Qed.

Lemma values_order_NoDup (s : EphemeralStore) order :
  order ≡ₚ (map_to_list (values s)).*1 → NoDup order.
Proof. intros ->. apply NoDup_fst_map_to_list. Qed.

Lemma store_step_wf s s' : store_wf s → store_step s s' → store_wf s'.
Proof.
  intros Hwf Hstep. destruct Hstep as [pub now ns c topic key pl ttl s | pub ns c topic key s | order c s Hord | now order s Hord].
  - by apply Set_wf.
  - by apply Clear_wf.
  - by apply ClearClient_wf.
  - rewrite sweepExpired_sweep.
    pose proof (sweep_keys_spec now order s Hwf (values_order_NoDup s order Hord)) as H.
    destruct (sweep_keys now order s). apply H.
Qed.

Lemma store_reachable_wf s : rtc store_step NewEphemeralStore s → store_wf s.
Proof.
  intros H. eapply (invariant_rtc store_step store_wf store_step_wf _ _ H).
  split; [| split].
  - intros sk e He. cbn in He. by rewrite lookup_empty in He.
  - intros c set Hc. cbn in Hc. by rewrite lookup_empty in Hc.
  - intros c sk Hin. unfold owned_by in Hin. cbn in Hin. rewrite lookup_empty in Hin. set_solver.
Qed.

(** ** Properties *)

(** In every store that sets, clears, disconnects and sweeps can produce,
    the values and the index of owners agree in both directions, no client is
    listed without a key, and no client owns more keys than the cap. *)
Theorem ephemeral_invariant s :
  rtc store_step NewEphemeralStore s →
  store_wf s ∧ ∀ c, size (owned_by c s) ≤ ephemeralMaxKeysPerClient.
Proof.
  intros H. apply store_reachable_wf in H as Hwf. split; [done |]. intros c.
  destruct Hwf as (_ & Ho & _). unfold owned_by. destruct (owned s !! c) as [set |] eqn:Hc; cbn.
  - by eapply Ho.
  - rewrite size_empty. lia.
Qed.

Definition demo_store : EphemeralStore :=
  (Set_ (λ _, true) 0 "ns" "bob" "room" "typing" [2%N] 0
     (Set_ (λ _, true) 0 "ns" "alice" "room" "cursor" [1%N] 0 NewEphemeralStore).1.2).1.2.

Lemma demo_store_reachable : rtc store_step NewEphemeralStore demo_store.
Proof. eapply rtc_l; [apply do_set |]. apply rtc_once, do_set. Qed.

Lemma ephemeral_invariant_witness :
  store_wf demo_store ∧ ∀ c, size (owned_by c demo_store) ≤ ephemeralMaxKeysPerClient.
Proof. exact (ephemeral_invariant demo_store demo_store_reachable). Defined.

(** A disconnect removes exactly the values of that client, leaves every
    value of the other clients in place, and publishes one clear event for
    each removed value; a sweep removes exactly the expired values and
    publishes one clear event, in the name of its owner, for each. *)
Theorem disconnect_and_sweep s c order now order' :
  rtc store_step NewEphemeralStore s →
  order ≡ₚ elements (owned_by c s) → order' ≡ₚ (map_to_list (values s)).*1 →
  values (ClearClient order c s).1 = filter (λ '(_, e), clientID e ≠ c) (values s) ∧
  (ClearClient order c s).2
    ≡ₚ (λ p, EventClear p.1 c Disconnect) <$> map_to_list (filter (λ '(_, e), clientID e = c) (values s)) ∧
  values (sweepExpired now order' s).1 = filter (λ '(_, e), (now ≤ expiresAt e)%Z) (values s) ∧
  (sweepExpired now order' s).2
    ≡ₚ (λ p, EventClear p.1 (clientID p.2) Expired)
       <$> map_to_list (filter (λ '(_, e), (expiresAt e < now)%Z) (values s)).
Proof.
  intros Hreach Hord Hord'. apply store_reachable_wf in Hreach as Hwf.
  pose proof Hwf as (Hv & _ & Hback).
  assert (NoDup order) as Hnd by (rewrite Hord; apply NoDup_elements).
  pose proof (values_order_NoDup s order' Hord') as Hnd'.
  pose proof (sweep_keys_spec now order' s Hwf Hnd') as Hsweep.
  rewrite sweepExpired_sweep. destruct (sweep_keys now order' s) as [es s'] eqn:Hs'.
  destruct Hsweep as (_ & Hvals' & ->). cbn [fst snd].
  assert (∀ sk e, values s !! sk = Some e → sk ∈ order') as Hin'.
  { intros sk e He. rewrite Hord'. apply list_elem_of_fmap. exists (sk, e). split; [done |].
    by apply elem_of_map_to_list. }
  split; [| split; [| split]].
  - apply map_eq. intros sk. rewrite (ClearClient_values order c s Hwf Hord).
    apply option_eq. intros e. rewrite map_lookup_filter_Some.
    destruct (values s !! sk) as [e0 |]; [case_decide |]; naive_solver.
  - rewrite <- (visit_perm (values s) (λ '(_, e), clientID e = c) order Hnd).
    2: { intros sk e He Hc. rewrite Hord, elem_of_elements, <- Hc. by apply Hv. }
    rewrite <- (visit_entries (values s) (λ '(_, e), clientID e = c)
                  (λ e, EventClear (e_key e) c Disconnect)).
    2: { intros sk e He. cbn. by destruct (Hv _ _ He) as [-> _]. }
    apply reflexive_eq. unfold ClearClient. case_bool_decide as He.
    + assert (order = []) as ->; [| done]. rewrite He, elements_empty in Hord. by apply Permutation_nil_r.
    + destruct (clear_keys_spec order (values s) Hnd) as [Hc _].
      destruct (clear_keys order (values s)) as [cleared vs]. cbn [fst snd] in *. rewrite Hc. f_equal.
      apply list_omap_ext, Forall2_same_length_lookup_2; [done |]. intros i x y Hx Hy. simplify_eq.
      apply list_elem_of_lookup_2 in Hx. rewrite Hord, elem_of_elements in Hx.
      destruct (Hback _ _ Hx) as (e & -> & Hce). by rewrite decide_True.
  - apply map_eq. intros sk. rewrite Hvals'. apply option_eq. intros e. rewrite map_lookup_filter_Some.
    destruct (values s !! sk) as [e0 |] eqn:He; [| naive_solver].
    specialize (Hin' _ _ He). destruct (decide (sk ∈ order' ∧ (expiresAt e0 < now)%Z)) as [Hd | Hd].
    + split; [done |]. intros [[= <-] Hle]. lia.
    + split; [intros [= <-]; split; [done |] | by intros [[= <-] _]].
      destruct (Z.le_gt_cases now (expiresAt e0)); [lia |]. destruct Hd. auto with lia.
  - rewrite <- (visit_perm (values s) (λ '(_, e), (expiresAt e < now)%Z) order' Hnd').
    2: { intros sk e He _. by eapply Hin'. }
    rewrite <- (visit_entries (values s) (λ '(_, e), (expiresAt e < now)%Z)
                  (λ e, EventClear (e_key e) (clientID e) Expired)); [done |].
    intros sk e He. cbn. by destruct (Hv _ _ He) as [-> _].
Qed.

Lemma disconnect_and_sweep_witness :
  values (ClearClient [("ns", "room", "typing")]%string "bob" demo_store).1
  = filter (λ '(_, e), clientID e ≠ "bob"%string) (values demo_store).
Proof.
  refine (proj1 (disconnect_and_sweep demo_store "bob" [("ns", "room", "typing")]%string 0
    ((map_to_list (values demo_store)).*1) demo_store_reachable _ _)).
  - assert (elements (owned_by "bob" demo_store) = [("ns", "room", "typing")]%string) as ->
      by (vm_compute; reflexivity).
    reflexivity.
  - reflexivity.
Defined.

(** What a listing holds. *)
Lemma List_elem now ns topic s l :
  store_wf s →
  l ∈ List_ now ns topic s ↔
  ∃ e, values s !! (ns, topic, l_key l) = Some e ∧ (now < expiresAt e)%Z ∧
       l = mkList (l_key l) (clientID e) (payload e) ((expiresAt e - now) / Millisecond)%Z.
Proof.
  intros (Hv & _). unfold List_. rewrite merge_sort_Permutation, list_elem_of_omap. split.
  - intros ([[[n t] k] e] & Hin & Hl). apply elem_of_map_to_list in Hin.
    destruct (Hv _ _ Hin) as [Hk _]. rewrite Hk in Hl. cbn [snd] in Hl. unfold Before in Hl.
    case_bool_decide as Hn; [| done]. case_bool_decide as Ht; [| done]. cbn [andb] in Hl.
    destruct (Z.ltb_spec now (expiresAt e)); [| done]. injection Hl as <-. subst. cbn. eauto.
  - intros (e & He & Hlt & Hl). exists ((ns, topic, l_key l), e).
    split; [by apply elem_of_map_to_list |]. destruct (Hv _ _ He) as [-> _]. cbn [snd].
    rewrite !bool_decide_true by done. unfold Before. cbn [andb].
    rewrite (proj2 (Z.ltb_lt _ _)) by exact Hlt. by rewrite Hl at 2.
Qed.

Lemma List_NoDup now ns topic s : store_wf s → NoDup (l_key <$> List_ now ns topic s).
Proof.
  intros (Hv & _). unfold List_. rewrite merge_sort_Permutation.
  pose proof (NoDup_fst_map_to_list (values s)) as Hnd.
  assert (∀ p, p ∈ map_to_list (values s) → e_key p.2 = p.1) as Hk
    by (intros [sk e] Hp; apply elem_of_map_to_list in Hp; by apply Hv).
  induction (map_to_list (values s)) as [| [[[n t] k] e] l IH]; [constructor |].
  apply NoDup_cons in Hnd as [Hn Hnd]. specialize (IH Hnd ltac:(set_solver)).
  cbn [omap list_omap]. case_bool_decide as En; [| done]. case_bool_decide as Et; [| done].
  destruct (true && true && Before now (expiresAt e)); [| done].
  rewrite fmap_cons. apply NoDup_cons. split; [| done]. cbn [l_key].
  rewrite list_elem_of_fmap. intros (x & Hx & Hin).
  apply list_elem_of_omap in Hin as ([[[n' t'] k'] e'] & Hin & Hx').
  case_bool_decide; [| done]. case_bool_decide; [| done].
  destruct (true && true && Before now (expiresAt e')); [| done]. injection Hx' as <-. cbn [l_key] in Hx.
  pose proof (Hk _ (list_elem_of_here _ _)) as K1. pose proof (Hk _ (list_elem_of_further _ _ _ Hin)) as K2.
  cbn [fst snd] in *. rewrite K1, K2 in Hx. cbn in Hx. subst.
  apply Hn. apply list_elem_of_fmap. eexists. split; [| exact Hin]. cbn. congruence.
Qed.

#[local] Instance list_le_trans : Transitive list_le.
Proof. intros a b c. unfold list_le. apply transitivity. Qed.

#[local] Instance list_le_total : Total list_le.
Proof. intros a b. unfold list_le. apply total. exact _. Qed.

Lemma clamp_ttl_bounds ttl : (0 < clamp_ttl ttl ≤ ephemeralMaxTTL)%Z.
Proof.
  unfold clamp_ttl, ephemeralMaxTTL, ephemeralDefaultTTL, Minute, Second.
  set (t := wrap64 _). clearbody t.
  destruct (Z.leb_spec t 0) as [H | H]; match goal with |- context [(?a <? ?b)%Z] => destruct (Z.ltb_spec a b) end; lia.
Qed.

(** The entry a set leaves when it passes the validation. *)
Lemma Set_lookup pub now ns c topic key pl ttl s :
  (Set_ pub now ns c topic key pl ttl s).2 ≠ [] →
  values (Set_ pub now ns c topic key pl ttl s).1.2 !! (ns, topic, key)
  = Some (mkEntry (ns, topic, key) c pl (now + clamp_ttl ttl)%Z).
Proof.
  unfold Set_. do 3 (destruct (_ : bool); [done |]). destruct (negb _ && _); [done |].
  intros _. cbn [fst snd values]. by rewrite lookup_insert_eq.
Qed.

(** A set that passes the validation is visible, whether or not its event
    could be published: until its time to live, which is positive and at most
    the maximum, has passed, a listing of the topic holds exactly one entry
    under the key, with the payload and the client of the set; afterwards it
    holds none.  Every listing is sorted by key. *)
Theorem set_then_list pub now ns c topic key pl ttl s now' :
  rtc store_step NewEphemeralStore s →
  (Set_ pub now ns c topic key pl ttl s).2 ≠ [] →
  let s' := (Set_ pub now ns c topic key pl ttl s).1.2 in
  let listed := List_ now' ns topic s' in
  (0 < clamp_ttl ttl ≤ ephemeralMaxTTL)%Z ∧
  (∀ l, l ∈ listed ∧ l_key l = key ↔
     (now' < now + clamp_ttl ttl)%Z ∧
     l = mkList key c pl ((now + clamp_ttl ttl - now') / Millisecond)%Z) ∧
  NoDup (l_key <$> listed) ∧ StronglySorted list_le listed.
Proof.
  intros Hreach Hok s' listed. split; [apply clamp_ttl_bounds |].
  pose proof (Set_wf pub now ns c topic key pl ttl s (store_reachable_wf s Hreach)) as Hwf.
  pose proof (Set_lookup pub now ns c topic key pl ttl s Hok) as Hlook.
  split; [| split; [by apply List_NoDup | apply StronglySorted_merge_sort; exact _]].
  intros l. unfold listed, s'. rewrite (List_elem now' ns topic _ l Hwf). split.
  - intros [(e & He & Hlt & ->) Hk]. cbn [l_key] in *. rewrite Hk, Hlook in He.
    injection He as <-. cbn in Hlt |- *. by rewrite Hk.
  - intros [Hlt ->]. cbn [l_key]. split; [| done]. eexists. split; [exact Hlook |]. cbn. done.
Qed.

Lemma set_then_list_witness :
  mkList "typing" "eve" [3%N] 4999
  ∈ List_ 1000000 "ns" "room" (Set_ (λ _, false) 0 "ns" "eve" "room" "typing" [3%N] 5000 demo_store).1.2.
Proof.
  refine (proj1 (proj2 (proj1 (proj2 (set_then_list (λ _, false) 0 "ns" "eve" "room" "typing" [3%N]
    5000 demo_store 1000000 demo_store_reachable _)) _) (conj _ _))).
  - vm_compute. discriminate.
  - vm_compute. reflexivity.
  - vm_compute. reflexivity.
Defined.

(** A requested time to live of 9223372036855 ms, above the maximum of thirty
    minutes, wraps around in nanoseconds and becomes the default of one minute. *)
Example huge_ttl_wraps :
  clamp_ttl 9223372036855 = ephemeralDefaultTTL ∧ clamp_ttl 9223372036854 = ephemeralMaxTTL.
Proof. vm_compute. done. Qed.
