(* ===== verification/DbProg.v ===== *)
(** * Programs over a shared database

    The allocators of this library are sequences of statements against one
    replicated SQL database that many nodes use at the same time.  A [prog] is
    such a sequence: every statement is one atomic access, what follows is a
    function of its answer.  [run] executes a program alone and without
    faults.  [sys_step] executes many of them: the statements interleave
    arbitrarily, a statement can fail, a read can be answered from an older
    state (a follower that lags), and the acknowledgement of a write can be
    lost after the write happened.  [upholds] is the proof rule: a program
    whose every write keeps an invariant, whatever it read before.  [keeps] is
    the stronger rule of rely and guarantee: the writes of all programs also
    respect an order on databases, so that what a program learns from a
    statement (a row exists, a flag is set) stays true. *)

From Stdlib Require Import ZArith Lia String.
From stdpp Require Import base tactics list relations.
From S2P Require Import Prelude.

Section Programs.
Context {D : Type}.

(** [Query] reads, [Exec] writes or is rejected with an error text, [Update]
    writes and answers (the number of rows it affected). *)
Inductive prog (A : Type) : Type :=
| Ret (a : A)
| Query (B : Type) (q : D → B) (k : result string B → prog A)
| Exec (w : D → result string D) (k : result string unit → prog A)
| Update (B : Type) (w : D → B * D) (k : result string B → prog A).

#[global] Arguments Ret {A} a.
#[global] Arguments Query {A B} q k.
#[global] Arguments Exec {A} w k.
#[global] Arguments Update {A B} w k.

Fixpoint prog_bind {A B : Type} (p : prog A) (f : A → prog B) : prog B :=
  match p with
  | Ret a => f a
  | Query q k => Query q (λ r, prog_bind (k r) f)
  | Exec w k => Exec w (λ r, prog_bind (k r) f)
  | Update w k => Update w (λ r, prog_bind (k r) f)
  end.

(** Alone and without faults. *)
Fixpoint run {A : Type} (p : prog A) (d : D) : A * D :=
  match p with
  | Ret a => (a, d)
  | Query q k => run (k (Ok (q d))) d
  | Exec w k => match w d with
                | Ok d' => run (k (Ok tt)) d'
                | Err e => run (k (Err e)) d
                end
  | Update w k => run (k (Ok (w d).1)) (w d).2
  end.

Lemma run_bind {A B : Type} (p : prog A) (f : A → prog B) d :
  run (prog_bind p f) d = run (f (run p d).1) (run p d).2.
Proof.
  revert d. induction p as [a | C q k IH | w k IH | C w k IH]; intros d; cbn; [done | apply IH | | apply IH].
  destruct (w d); apply IH.
Qed.

(** One statement; [past] are the earlier states of the database. *)
Inductive prog_step {A : Type} (past : list D) : D → prog A → D → prog A → Prop :=
| query_answered B (q : D → B) k d d0 :
    d0 ∈ d :: past → prog_step past d (Query q k) d (k (Ok (q d0)))
| query_failed B (q : D → B) k d e :
    prog_step past d (Query q k) d (k (Err e))
| exec_done w k d d' :
    w d = Ok d' → prog_step past d (Exec w k) d' (k (Ok tt))
| exec_rejected w k d e :
    w d = Err e → prog_step past d (Exec w k) d (k (Err e))
| exec_failed w k d e :
    prog_step past d (Exec w k) d (k (Err e))
| exec_ack_lost w k d d' e :
    w d = Ok d' → prog_step past d (Exec w k) d' (k (Err e))
| update_done B (w : D → B * D) k d :
    prog_step past d (Update w k) (w d).2 (k (Ok (w d).1))
| update_failed B (w : D → B * D) k d e :
    prog_step past d (Update w k) d (k (Err e))
| update_ack_lost B (w : D → B * D) k d e :
    prog_step past d (Update w k) (w d).2 (k (Err e)).

(** ** The proof rule *)

Section Rule.
Context (I : D → Prop).

Fixpoint upholds {A : Type} (Q : A → Prop) (p : prog A) : Prop :=
  match p with
  | Ret a => Q a
  | Query q k => (∀ d, I d → upholds Q (k (Ok (q d)))) ∧ ∀ e, upholds Q (k (Err e))
  | Exec w k => (∀ d d', I d → w d = Ok d' → I d') ∧ ∀ r, upholds Q (k r)
  | Update w k => (∀ d, I d → I (w d).2) ∧ ∀ r, upholds Q (k r)
  end.

Lemma upholds_bind {A B : Type} (Q : A → Prop) (R : B → Prop) p f :
  upholds Q p → (∀ a, Q a → upholds R (f a)) → upholds R (prog_bind p f).
Proof.
  intros Hp Hf. induction p as [a | C q k IH | w k IH | C w k IH]; cbn in *; [by apply Hf | | |].
  - destruct Hp as [H1 H2]. split; intros; apply IH; auto.
  - destruct Hp as [H1 H2]. split; [done |]. intros r. by apply IH.
  - destruct Hp as [H1 H2]. split; [done |]. intros r. by apply IH.
Qed.

Lemma upholds_then {A B : Type} (p : prog A) (f : A → prog B) :
  upholds (λ _, True) p → (∀ x, upholds (λ _, True) (f x)) → upholds (λ _, True) (prog_bind p f).
Proof. intros Hp Hf. by eapply (upholds_bind (λ _, True)). Qed.

Lemma upholds_mono {A : Type} (Q R : A → Prop) p :
  (∀ a, Q a → R a) → upholds Q p → upholds R p.
Proof.
  intros HQR. induction p as [a | C q k IH | w k IH | C w k IH]; cbn; [by apply HQR | | |].
  - intros [H1 H2]. split; intros; apply IH; auto.
  - intros [H1 H2]. split; [done |]. intros r. by apply IH.
  - intros [H1 H2]. split; [done |]. intros r. by apply IH.
Qed.

Lemma upholds_step {A : Type} (Q : A → Prop) past d p d' p' :
  prog_step past d p d' p' → Forall I (d :: past) → upholds Q p → I d' ∧ upholds Q p'.
Proof.
  intros Hstep Hall. pose proof (Forall_inv Hall) as Hd. rewrite Forall_forall in Hall.
  destruct Hstep; cbn [upholds]; intros [H1 H2]; split; eauto.
Qed.

End Rule.

(** ** Rely and guarantee

    [K] is what the program knows; it is preserved by the steps of all
    programs because it is closed under [le].  After a statement the program
    also knows where its answer came from. *)

Section Guarantee.
Context (I : D → Prop) (le : D → D → Prop) `{!PreOrder le}.

Fixpoint keeps {A : Type} (Q : A → D → Prop) (K : D → Prop) (p : prog A) : Prop :=
  match p with
  | Ret a => ∀ d, I d → K d → Q a d
  | Query q k =>
      (∀ d0, I d0 → keeps Q (λ d, K d ∧ le d0 d) (k (Ok (q d0)))) ∧
      ∀ e, keeps Q K (k (Err e))
  | Exec w k =>
      (∀ d d', I d → K d → w d = Ok d' → I d' ∧ le d d') ∧
      keeps Q (λ d, ∃ d0 d1, I d0 ∧ K d0 ∧ w d0 = Ok d1 ∧ le d1 d) (k (Ok tt)) ∧
      ∀ e, keeps Q K (k (Err e))
  | Update w k =>
      (∀ d, I d → K d → I (w d).2 ∧ le d (w d).2) ∧
      (∀ b, keeps Q (λ d, ∃ d0, I d0 ∧ K d0 ∧ (w d0).1 = b ∧ le (w d0).2 d) (k (Ok b))) ∧
      ∀ e, keeps Q K (k (Err e))
  end.

Lemma keeps_mono {A : Type} (Q R : A → D → Prop) (K L : D → Prop) p :
  (∀ a d, I d → Q a d → R a d) → (∀ d, I d → L d → K d) → keeps Q K p → keeps R L p.
Proof.
  intros HQR. revert K L. induction p as [a | C q k IH | w k IH | C w k IH]; intros K L HKL; cbn.
  - auto.
  - intros [H1 H2]. split; [| intros e; by apply (IH _ K)]. intros d0 Hd0.
    apply (IH _ (λ d, K d ∧ le d0 d)); [| auto]. naive_solver.
  - intros (H1 & H2 & H3). split; [eauto |]. split; [| intros e; by apply (IH _ K)].
    eapply IH; [| exact H2]. intros d _ (d0 & d1 & H4 & H5 & H6). exists d0, d1. auto.
  - intros (H1 & H2 & H3). split; [eauto |]. split; [| intros e; by apply (IH _ K)].
    intros b. eapply IH; [| exact (H2 b)]. intros d _ (d0 & H4 & H5 & H6). exists d0. auto.
Qed.

Lemma keeps_bind {A B : Type} (Q : A → D → Prop) (R : B → D → Prop) K p f :
  keeps Q K p → (∀ a, keeps R (Q a) (f a)) → keeps R K (prog_bind p f).
Proof.
  intros Hp Hf. revert K Hp. induction p as [a | C q k IH | w k IH | C w k IH]; intros K; cbn.
  - intros Ha. by eapply keeps_mono; [| | apply Hf].
  - intros [H1 H2]. split; auto.
  - intros (H1 & H2 & H3). auto.
  - intros (H1 & H2 & H3). auto.
Qed.

(** What was known stays known. *)
Lemma keeps_frame {A : Type} (Q : A → D → Prop) (K F : D → Prop) p :
  (∀ d1 d2, le d1 d2 → F d1 → F d2) → (∀ d, I d → K d → F d) →
  keeps Q K p → keeps (λ a d, Q a d ∧ F d) K p.
Proof.
  intros HF. revert K. induction p as [a | C q k IH | w k IH | C w k IH]; intros K HK; cbn.
  - auto.
  - intros [H1 H2]. split; [| auto]. intros d0 Hd0. apply IH; [| auto]. intros d Hd [Hk _]. auto.
  - intros (H1 & H2 & H3). split; [done |]. split; [| auto]. apply IH; [| done].
    intros d Hd (d0 & d1 & Hi & Hk & Hw & Hle). destruct (H1 _ _ Hi Hk Hw). eauto.
  - intros (H1 & H2 & H3). split; [done |]. split; [| auto]. intros b. apply IH; [| auto].
    intros d Hd (d0 & Hi & Hk & Hb & Hle). destruct (H1 _ Hi Hk). eauto.
Qed.

End Guarantee.

(** ** Rely and guarantee, program by program

    [keeps] lets every program know what every program respects.  With
    [secures] a program may also own part of the state: the steps of the
    others respect [rely], under which its knowledge is closed, its own steps
    respect [guar].  An unacknowledged write may have happened or not. *)

Section Ownership.
Context (I : D → Prop) (le rely guar : D → D → Prop).

Fixpoint secures {A : Type} (Q : A → D → Prop) (K : D → Prop) (p : prog A) : Prop :=
  match p with
  | Ret a => ∀ d, I d → K d → Q a d
  | Query q k =>
      (∀ d0, I d0 → secures Q (λ d, K d ∧ le d0 d) (k (Ok (q d0)))) ∧
      ∀ e, secures Q K (k (Err e))
  | Exec w k =>
      (∀ d d', I d → K d → w d = Ok d' → I d' ∧ guar d d') ∧
      secures Q (λ d, ∃ d0 d1, I d0 ∧ K d0 ∧ w d0 = Ok d1 ∧ rely d1 d) (k (Ok tt)) ∧
      ∀ e, secures Q (λ d, K d ∨ ∃ d0 d1, I d0 ∧ K d0 ∧ w d0 = Ok d1 ∧ rely d1 d) (k (Err e))
  | Update w k =>
      (∀ d, I d → K d → I (w d).2 ∧ guar d (w d).2) ∧
      (∀ b, secures Q (λ d, ∃ d0, I d0 ∧ K d0 ∧ (w d0).1 = b ∧ rely (w d0).2 d) (k (Ok b))) ∧
      ∀ e, secures Q (λ d, K d ∨ ∃ d0, I d0 ∧ K d0 ∧ rely (w d0).2 d) (k (Err e))
  end.

Lemma secures_mono {A : Type} (Q R : A → D → Prop) (K L : D → Prop) p :
  (∀ a d, I d → Q a d → R a d) → (∀ d, I d → L d → K d) → secures Q K p → secures R L p.
Proof.
  intros HQR. revert K L. induction p as [a | C q k IH | w k IH | C w k IH]; intros K L HKL; cbn.
  - auto.
  - intros [H1 H2]. split; [| intros e; by apply (IH _ K)]. intros d0 Hd0.
    apply (IH _ (λ d, K d ∧ le d0 d)); [| auto]. naive_solver.
  - intros (H1 & H2 & H3). split; [eauto |]. split; [| intros e]; (eapply IH; [| by eauto]); naive_solver.
  - intros (H1 & H2 & H3). split; [eauto |]. split; [intros b | intros e]; (eapply IH; [| by eauto]); naive_solver.
Qed.

Lemma secures_bind {A B : Type} (Q : A → D → Prop) (R : B → D → Prop) K p f :
  secures Q K p → (∀ a, secures R (Q a) (f a)) → secures R K (prog_bind p f).
Proof.
  intros Hp Hf. revert K Hp. induction p as [a | C q k IH | w k IH | C w k IH]; intros K; cbn.
  - intros Ha. by eapply secures_mono; [| | apply Hf].
  - intros [H1 H2]. split; auto.
  - intros (H1 & H2 & H3). auto.
  - intros (H1 & H2 & H3). auto.
Qed.

Context `{!PreOrder le} `{!PreOrder rely} (rely_le : ∀ d1 d2, rely d1 d2 → le d1 d2).

(** What a step of the program does to its knowledge. *)
Lemma secures_step {A : Type} (Q : A → D → Prop) (K : D → Prop) past d p d' p' :
  prog_step past d p d' p' →
  I d → Forall (λ d0, I d0 ∧ le d0 d) past → K d → (∀ d1 d2, rely d1 d2 → K d1 → K d2) → secures Q K p →
  I d' ∧ (d' = d ∨ guar d d') ∧
  ∃ K', K' d' ∧ (∀ d1 d2, rely d1 d2 → K' d1 → K' d2) ∧ secures Q K' p'.
Proof.
  intros Hstep Hd Hpast HK Hmono. rewrite Forall_forall in Hpast.
  assert (∀ P : D → Prop, (∀ d1 d2, rely d1 d2 → P d1 → P d2) →
            ∀ d1 d2, rely d1 d2 → K d1 ∨ P d1 → K d2 ∨ P d2) as Hor by naive_solver.
  destruct Hstep as [B q k d d0 Hin | B q k d e | w k d d' Hw | w k d e Hw | w k d e
                    | w k d d' e Hw | B w k d | B w k d e | B w k d e]; cbn [secures].
  - intros [H1 _]. split; [done |]. split; [by left |]. exists (λ d, K d ∧ le d0 d).
    assert (I d0 ∧ le d0 d) as [Hi Hle] by (apply elem_of_cons in Hin as [-> | Hin]; [by split | auto]).
    split; [done |]. split; [| auto]. intros d1 d2 H12 [Hk Hl]. split; [eauto | etrans; eauto].
  - intros [_ H2]. split; [done |]. split; [by left |]. exists K. auto.
  - intros (H1 & H2 & _). destruct (H1 _ _ Hd HK Hw) as [Hi Hg]. split; [done |]. split; [by right |].
    eexists. split; [| split; [| exact H2]]; [by exists d, d' |].
    intros d1 d2 H12 (a & b & Ha & Hb & Hc & Hl). exists a, b. repeat (split; [done |]). by etrans.
  - intros (_ & _ & H3). split; [done |]. split; [by left |]. eexists. split; [| split; [| exact (H3 e)]]; [by left |].
    apply Hor. intros d1 d2 H12 (a & b & Ha & Hb & Hc & Hl). exists a, b. repeat (split; [done |]). by etrans.
  - intros (_ & _ & H3). split; [done |]. split; [by left |]. eexists. split; [| split; [| exact (H3 e)]]; [by left |].
    apply Hor. intros d1 d2 H12 (a & b & Ha & Hb & Hc & Hl). exists a, b. repeat (split; [done |]). by etrans.
  - intros (H1 & _ & H3). destruct (H1 _ _ Hd HK Hw) as [Hi Hg]. split; [done |]. split; [by right |].
    eexists. split; [| split; [| exact (H3 e)]]; [right; by exists d, d' |].
    apply Hor. intros d1 d2 H12 (a & b & Ha & Hb & Hc & Hl). exists a, b. repeat (split; [done |]). by etrans.
  - intros (H1 & H2 & _). destruct (H1 _ Hd HK) as [Hi Hg]. split; [done |]. split; [by right |].
    eexists. split; [| split; [| exact (H2 _)]]; [by exists d |].
    intros d1 d2 H12 (a & Ha & Hb & Hc & Hl). exists a. repeat (split; [done |]). by etrans.
  - intros (_ & _ & H3). split; [done |]. split; [by left |]. eexists. split; [| split; [| exact (H3 e)]]; [by left |].
    apply Hor. intros d1 d2 H12 (a & Ha & Hb & Hl). exists a. repeat (split; [done |]). by etrans.
  - intros (H1 & _ & H3). destruct (H1 _ Hd HK) as [Hi Hg]. split; [done |]. split; [by right |].
    eexists. split; [| split; [| exact (H3 e)]]; [right; by exists d |].
    apply Hor. intros d1 d2 H12 (a & Ha & Hb & Hl). exists a. repeat (split; [done |]). by etrans.
Qed.

End Ownership.

(** [keeps] is the case where nothing is owned. *)
Lemma keeps_secures (I : D → Prop) (le : D → D → Prop) `{!PreOrder le} {A : Type} (Q : A → D → Prop) K p :
  (∀ d1 d2, le d1 d2 → K d1 → K d2) → keeps I le Q K p → secures I le le le Q K p.
Proof.
  revert K. induction p as [a | C q k IH | w k IH | C w k IH]; intros K HK; cbn.
  - auto.
  - intros [H1 H2]. split; [| eauto]. intros d0 Hd0. apply IH; [| eauto].
    intros d1 d2 H12 [Hk Hl]. split; [eauto | by etrans].
  - intros (H1 & H2 & H3). split; [done |]. split.
    + apply IH; [| done]. intros d1 d2 H12 (a & b & Ha & Hb & Hc & Hl). exists a, b. repeat (split; [done |]). by etrans.
    + intros e. apply (secures_mono I le le le Q Q K); [done | | by apply IH].
      intros d _ [Hk | (a & b & Ha & Hb & Hc & Hl)]; [done |]. destruct (H1 _ _ Ha Hb Hc). eauto.
  - intros (H1 & H2 & H3). split; [done |]. split.
    + intros b. apply IH; [| done]. intros d1 d2 H12 (a & Ha & Hb & Hc & Hl). exists a.
      repeat (split; [done |]). by etrans.
    + intros e. apply (secures_mono I le le le Q Q K); [done | | by apply IH].
      intros d _ [Hk | (a & Ha & Hb & Hl)]; [done |]. destruct (H1 _ Ha Hb). eauto.
Qed.

(** ** Many programs *)

Section System.
Context {Op Reply : Type}.

Record sys := mkSys {
  current : D;
  history : list D;
  threads : list (Op * prog Reply)
}.

Inductive sys_step : sys → sys → Prop :=
| thread_step s i op p d' p' :
    threads s !! i = Some (op, p) →
    prog_step (history s) (current s) p d' p' →
    sys_step s (mkSys d' (current s :: history s) (<[i := (op, p')]> (threads s))).

Definition sys_ok (I : D → Prop) (Q : Op → Reply → Prop) (s : sys) : Prop :=
  Forall I (current s :: history s) ∧ Forall (λ t, upholds I (Q t.1) t.2) (threads s).

Lemma sys_step_ok I Q s s' : sys_ok I Q s → sys_step s s' → sys_ok I Q s'.
Proof.
  intros [Hd Ht] Hs. destruct Hs as [s i op p d' p' Hi Hstep].
  pose proof (proj1 (Forall_lookup _ _) Ht _ _ Hi) as Hp. cbn in Hp.
  destruct (upholds_step _ _ _ _ _ _ _ Hstep Hd Hp) as [Hd' Hp'].
  split; cbn; [by constructor |]. by apply Forall_insert.
Qed.

(** The rule for a system: when every program upholds the invariant, every
    reachable database satisfies it and every answer its postcondition. *)
Lemma sys_reachable (I : D → Prop) (Q : Op → Reply → Prop) d0 ts s :
  I d0 → Forall (λ t, upholds I (Q t.1) t.2) ts →
  rtc sys_step (mkSys d0 [] ts) s →
  I (current s) ∧ ∀ op a, (op, Ret a) ∈ threads s → Q op a.
Proof.
  intros H0 Ht Hr.
  assert (sys_ok I Q s) as [Hd Hts].
  { apply (invariant_rtc sys_step (sys_ok I Q) (sys_step_ok I Q) _ _ Hr).
    split; [by repeat constructor | done]. }
  split; [by apply Forall_inv in Hd |]. intros op a Hin.
  rewrite Forall_forall in Hts. exact (Hts _ Hin).
Qed.

(** The same for rely and guarantee: thread [i] relies on [rely i] and
    respects what every other thread relies on.  The databases only grow in the
    order, and the postcondition of an answer, which may mention the database,
    holds of the current one. *)
Section SystemOwnership.
Context (I : D → Prop) (le : D → D → Prop) `{!PreOrder le}.
Context (rely guar : nat → D → D → Prop) `{rely_pre : !∀ i, PreOrder (rely i)}.
Context (rely_le : ∀ i d1 d2, rely i d1 d2 → le d1 d2).
Context (guar_rely : ∀ i j d1 d2, i ≠ j → guar i d1 d2 → rely j d1 d2).
Context (Q : Op → Reply → D → Prop).

Definition thread_secure (d : D) (i : nat) (t : Op * prog Reply) : Prop :=
  ∃ K, K d ∧ (∀ d1 d2, rely i d1 d2 → K d1 → K d2) ∧ secures I le (rely i) (guar i) (Q t.1) K t.2.

Definition sys_secure (s : sys) : Prop :=
  I (current s) ∧ Forall (λ d0, I d0 ∧ le d0 (current s)) (history s) ∧
  ∀ i t, threads s !! i = Some t → thread_secure (current s) i t.

Lemma sys_step_secure s s' : sys_secure s → sys_step s s' → sys_secure s'.
Proof.
  intros (Hd & Hh & Ht) Hs. destruct Hs as [s i op p d' p' Hi Hstep].
  destruct (Ht _ _ Hi) as (K & HK & Hmono & Hp).
  destruct (secures_step I le (rely i) (guar i) (rely_le i) (Q op) K _ _ _ _ _ Hstep Hd Hh HK Hmono Hp)
    as (Hd' & Hg & K' & HK' & Hm' & Hp').
  assert (le (current s) d') as Hle by (destruct Hg as [-> | Hg]; [done | eauto]).
  split; [done |]. split; cbn.
  - constructor; [done |]. eapply Forall_impl; [exact Hh |]. intros d0 [Hi0 Hl0]. split; [done | by etrans].
  - intros j t Hj. destruct (decide (i = j)) as [<- | Hne].
    + rewrite list_lookup_insert_eq in Hj by (by eapply lookup_lt_Some). simplify_eq. by exists K'.
    + rewrite list_lookup_insert_ne in Hj by done. destruct (Ht _ _ Hj) as (L & HL & HmL & HpL).
      exists L. split; [| done]. destruct Hg as [-> | Hg]; [done | eauto].
Qed.

Lemma sys_owned_secure d0 ts s :
  I d0 → (∀ i t, ts !! i = Some t → secures I le (rely i) (guar i) (Q t.1) (λ _, True) t.2) →
  rtc sys_step (mkSys d0 [] ts) s → sys_secure s ∧ le d0 (current s).
Proof.
  intros H0 Hts Hr. apply (invariant_rtc sys_step (λ s, sys_secure s ∧ le d0 (current s))) with (2 := Hr).
  - intros s1 s2 [Hk Hl] Hs. pose proof (sys_step_secure _ _ Hk Hs) as Hk2. split; [done |].
    destruct Hk2 as (_ & Hh & _). destruct Hs. apply Forall_cons in Hh as [[_ Hl2] _]. by etrans.
  - split; [| done]. split; [done |]. split; [constructor |].
    intros i t Hi. exists (λ _, True). auto.
Qed.

Lemma sys_owned d0 ts s :
  I d0 → (∀ i t, ts !! i = Some t → secures I le (rely i) (guar i) (Q t.1) (λ _, True) t.2) →
  rtc sys_step (mkSys d0 [] ts) s →
  I (current s) ∧ le d0 (current s) ∧ ∀ op a, (op, Ret a) ∈ threads s → Q op a (current s).
Proof.
  intros H0 Hts Hr. destruct (sys_owned_secure _ _ _ H0 Hts Hr) as [(Hd & _ & Ht) Hle].
  split; [done |]. split; [done |]. intros op a [i Hi]%list_elem_of_lookup.
  destruct (Ht _ _ Hi) as (K & HK & _ & Hp). cbn in Hp. auto.
Qed.

End SystemOwnership.

Lemma sys_guarantee (I : D → Prop) (le : D → D → Prop) `{!PreOrder le} (Q : Op → Reply → D → Prop) d0 ts s :
  I d0 → Forall (λ t, keeps I le (Q t.1) (λ _, True) t.2) ts →
  rtc sys_step (mkSys d0 [] ts) s →
  I (current s) ∧ le d0 (current s) ∧ ∀ op a, (op, Ret a) ∈ threads s → Q op a (current s).
Proof.
  intros H0 Hts. apply (sys_owned I le (λ _, le) (λ _, le)); [done.. |].
  intros i t Hi. rewrite Forall_lookup in Hts. apply keeps_secures; [done | done | by eapply Hts].
Qed.

(** The databases of the past, which a lagging read may see. *)
Lemma sys_guarantee_past (I : D → Prop) (le : D → D → Prop) `{!PreOrder le} (Q : Op → Reply → D → Prop) d0 ts s d :
  I d0 → Forall (λ t, keeps I le (Q t.1) (λ _, True) t.2) ts →
  rtc sys_step (mkSys d0 [] ts) s → d ∈ current s :: history s → I d ∧ le d (current s).
Proof.
  intros H0 Hts Hr. destruct (sys_owned_secure I le (λ _, le) (λ _, le) ltac:(done) ltac:(done) Q d0 ts s H0) as [(Hd & Hh & _) _]; [| done |].
  - intros i t Hi. rewrite Forall_lookup in Hts. apply keeps_secures; [done | done | by eapply Hts].
  - rewrite Forall_forall in Hh. intros [-> | Hin]%elem_of_cons; [by split | by apply Hh].
Qed.

(** Which operations run does not change. *)
Lemma sys_ops (s s' : sys) : rtc sys_step s s' → (threads s').*1 = (threads s).*1.
Proof.
  induction 1 as [s | s1 s2 s3 Hs _ IH]; [done |]. rewrite IH. destruct Hs as [s i op p d' p' Hi _]. cbn.
  rewrite list_fmap_insert. apply list_insert_id. by rewrite list_lookup_fmap, Hi.
Qed.

End System.

(** ** What a program does not depend on

    [ignores R p]: run on databases related by [R], the program receives the
    same answers and leaves related databases. *)

Section Ignores.
Context (R : D → D → Prop).

Fixpoint ignores {A : Type} (p : prog A) : Prop :=
  match p with
  | Ret a => True
  | Query q k => (∀ d d', R d d' → q d = q d') ∧ ∀ r, ignores (k r)
  | Exec w k =>
      (∀ d d', R d d' → match w d, w d' with
                        | Ok d1, Ok d1' => R d1 d1'
                        | Err e, Err e' => e = e'
                        | _, _ => False
                        end) ∧ ∀ r, ignores (k r)
  | Update w k => (∀ d d', R d d' → (w d).1 = (w d').1 ∧ R (w d).2 (w d').2) ∧ ∀ r, ignores (k r)
  end.

Lemma ignores_bind {A B : Type} (p : prog A) (f : A → prog B) :
  ignores p → (∀ a, ignores (f a)) → ignores (prog_bind p f).
Proof.
  intros Hp Hf. induction p as [a | C q k IH | w k IH | C w k IH]; cbn in *; [auto | | |];
    destruct Hp as [H1 H2]; (split; [done | auto]).
Qed.

Lemma ignores_run {A : Type} (p : prog A) d d' :
  ignores p → R d d' → (run p d).1 = (run p d').1 ∧ R (run p d).2 (run p d').2.
Proof.
  revert d d'. induction p as [a | C q k IH | w k IH | C w k IH]; intros d d' Hp HR; cbn in *; [done | | |];
    destruct Hp as [H1 H2].
  - rewrite (H1 _ _ HR). auto.
  - specialize (H1 _ _ HR). destruct (w d), (w d'); try done; [auto | subst; auto].
  - destruct (H1 _ _ HR) as [-> HR']. auto.
Qed.
End Ignores.
End Programs.

#[global] Arguments prog : clear implicits.
#[global] Arguments sys : clear implicits.

Notation "'do!' x := p 'in' k" := (prog_bind p (λ x, k))
  (at level 10, x name, p at level 100, k at level 200) : go_scope.

(** ** Bounded search for a free value

    The loops [for v := start; v <= last; v += step] that stop at the first
    value that is not taken. *)

Fixpoint scan (fuel : nat) (start last step : Z) (taken : list Z) : option Z :=
  match fuel with
  | O => None
  | S fuel' =>
      if (start <=? last)%Z then
        if decide (start ∈ taken) then scan fuel' (start + step)%Z last step taken
        else Some start
      else None
  end.

(** With a positive step the distance to the end bounds the number of turns. *)
Definition first_free (start last step : Z) (taken : list Z) : option Z :=
  scan (Z.to_nat (last - start + 1)) start last step taken.

Lemma scan_spec fuel start last step taken :
  (0 < step)%Z → Z.to_nat (last - start + 1) ≤ fuel →
  match scan fuel start last step taken with
  | Some v => ∃ i : nat, v = (start + Z.of_nat i * step)%Z ∧ (v ≤ last)%Z ∧ (v ∉ taken) ∧
      ∀ j : nat, j < i → (start + Z.of_nat j * step)%Z ∈ taken
  | None => ∀ j : nat, (start + Z.of_nat j * step ≤ last)%Z → (start + Z.of_nat j * step)%Z ∈ taken
  end.
Proof.
  intros Hstep. revert start. induction fuel as [| fuel IH]; intros start Hf; cbn [scan].
  { intros j Hj. nia. }
  destruct (Z.leb_spec start last) as [Hle | Hgt]; [| intros j Hj; nia].
  destruct (decide (start ∈ taken)) as [Hin | Hni].
  - specialize (IH (start + step)%Z ltac:(lia)).
    destruct (scan fuel (start + step) last step taken) as [v |].
    + destruct IH as (i & -> & Hl & Hn & Hj). exists (S i). split; [lia |]. split; [lia |].
      split; [done |]. intros [| j] Hlt; [by replace (start + _)%Z with start by lia |].
      replace (start + Z.of_nat (S j) * step)%Z with (start + step + Z.of_nat j * step)%Z by lia.
      apply Hj. lia.
    + intros [| j] Hl; [by replace (start + _)%Z with start by lia |].
      replace (start + Z.of_nat (S j) * step)%Z with (start + step + Z.of_nat j * step)%Z in * by lia.
      by apply IH.
  - exists 0. split; [lia |]. split; [lia |]. split; [done |]. lia.
Qed.

(** A search finds a value as long as fewer values are taken than there are. *)
Lemma first_free_complete start last step taken (n : nat) :
  (0 < step)%Z → (start + (Z.of_nat n - 1) * step ≤ last)%Z → length taken < n →
  is_Some (first_free start last step taken).
Proof.
  intros Hstep Hn Hlen. pose proof (scan_spec _ start last step taken Hstep (Nat.le_refl _)) as H.
  unfold first_free. destruct (scan _ start last step taken) as [v |]; [by eexists |].
  set (cands := (λ j : nat, (start + Z.of_nat j * step)%Z) <$> seq 0 n).
  assert (NoDup cands) as Hnd.
  { apply NoDup_fmap_2; [| apply NoDup_seq]. intros j j' E. nia. }
  assert (cands ⊆ taken) as Hsub.
  { intros v Hv. apply list_elem_of_fmap in Hv as (j & -> & Hj). apply elem_of_seq in Hj.
    apply H. nia. }
  apply NoDup_submseteq, submseteq_length in Hsub; [| done].
  unfold cands in Hsub. rewrite length_fmap, length_seq in Hsub. lia.
Qed.

(** The first [n] statements of a program alone. *)
Fixpoint advance {D A : Type} (n : nat) (p : prog D A) (d : D) : prog D A * D :=
  match n with
  | O => (p, d)
  | S n' =>
      match p with
      | Ret a => (Ret a, d)
      | Query q k => advance n' (k (Ok (q d))) d
      | Exec w k => match w d with
                    | Ok d' => advance n' (k (Ok tt)) d'
                    | Err e => advance n' (k (Err e)) d
                    end
      | Update w k => advance n' (k (Ok (w d).1)) (w d).2
      end
  end.

Lemma sys_advance {D Op Reply : Type} (op : Op) n (p : prog D Reply) (s : sys D Op Reply) i :
  threads s !! i = Some (op, p) →
  ∃ h, rtc sys_step s
         (mkSys (advance n p (current s)).2 h (<[i := (op, (advance n p (current s)).1)]> (threads s))).
Proof.
  revert p s. induction n as [| n IH]; intros p s Hi; [| destruct p as [a | B q k | w k | B w k]].
  - exists (history s). cbn. rewrite list_insert_id by done. by destruct s.
  - exists (history s). cbn. rewrite list_insert_id by done. by destruct s.
  - set (s' := mkSys (current s) (current s :: history s) (<[i := (op, k (Ok (q (current s))))]> (threads s))).
    assert (sys_step s s') as Hs by (eapply thread_step; [done | apply query_answered; left]).
    destruct (IH (k (Ok (q (current s)))) s') as [h Hh].
    { cbn. apply list_lookup_insert_eq. by eapply lookup_lt_Some. }
    exists h. eapply rtc_l; [exact Hs |]. cbn in Hh. by rewrite list_insert_insert_eq in Hh.
  - cbn [advance]. destruct (w (current s)) as [d' | e] eqn:Hw.
    + set (s' := mkSys d' (current s :: history s) (<[i := (op, k (Ok tt))]> (threads s))).
      assert (sys_step s s') as Hs by (eapply thread_step; [done | by apply exec_done]).
      destruct (IH (k (Ok tt)) s') as [h Hh].
      { cbn. apply list_lookup_insert_eq. by eapply lookup_lt_Some. }
      exists h. eapply rtc_l; [exact Hs |]. cbn in Hh. by rewrite list_insert_insert_eq in Hh.
    + set (s' := mkSys (current s) (current s :: history s) (<[i := (op, k (Err e))]> (threads s))).
      assert (sys_step s s') as Hs by (eapply thread_step; [done | by apply exec_rejected]).
      destruct (IH (k (Err e)) s') as [h Hh].
      { cbn. apply list_lookup_insert_eq. by eapply lookup_lt_Some. }
      exists h. eapply rtc_l; [exact Hs |]. cbn in Hh. by rewrite list_insert_insert_eq in Hh.
  - set (s' := mkSys (w (current s)).2 (current s :: history s)
                 (<[i := (op, k (Ok (w (current s)).1))]> (threads s))).
    assert (sys_step s s') as Hs by (eapply thread_step; [done | apply update_done]).
    destruct (IH (k (Ok (w (current s)).1)) s') as [h Hh].
    { cbn. apply list_lookup_insert_eq. by eapply lookup_lt_Some. }
    exists h. eapply rtc_l; [exact Hs |]. cbn in Hh. by rewrite list_insert_insert_eq in Hh.
Qed.

(** A run is enough single statements. *)
Lemma run_advance {D A : Type} (p : prog D A) d :
  ∃ n, ∀ m, n ≤ m → advance m p d = (Ret (run p d).1, (run p d).2).
Proof.
  revert d. induction p as [a | B q k IH | w k IH | B w k IH]; intros d.
  - exists 0. by intros [| m].
  - destruct (IH (Ok (q d)) d) as [n Hn]. exists (S n). intros [| m] Hm; [lia |]. cbn. apply Hn. lia.
  - cbn [run]. destruct (w d) as [d' | e] eqn:Hw.
    + destruct (IH (Ok tt) d') as [n Hn]. exists (S n). intros [| m] Hm; [lia |]. cbn. rewrite Hw. apply Hn. lia.
    + destruct (IH (Err e) d) as [n Hn]. exists (S n). intros [| m] Hm; [lia |]. cbn. rewrite Hw. apply Hn. lia.
  - destruct (IH (Ok (w d).1) (w d).2) as [n Hn]. exists (S n). intros [| m] Hm; [lia |]. cbn. apply Hn. lia.
Qed.

(** A thread that runs alone to its end is a path of the system. *)
Lemma sys_run {D Op Reply : Type} (op : Op) (p : prog D Reply) (s : sys D Op Reply) i :
  threads s !! i = Some (op, p) →
  ∃ h, rtc sys_step s
         (mkSys (run p (current s)).2 h (<[i := (op, Ret (run p (current s)).1)]> (threads s))).
Proof.
  intros Hi. destruct (run_advance p (current s)) as [n Hn].
  destruct (sys_advance op n p s i Hi) as [h Hh]. exists h. by rewrite (Hn n (Nat.le_refl n)) in Hh.
Qed.

(** Two programs that overtake each other: the second executes [n] statements,
    the first runs to its end, then the second does. *)
Definition overtake {D A : Type} (n : nat) (p0 p1 : prog D A) (d : D) : A * A * D :=
  let (p1', d1) := advance n p1 d in
  let (a0, d2) := run p0 d1 in
  let (a1, d3) := run p1' d2 in
  (a0, a1, d3).

Lemma sys_overtake {D Op Reply : Type} (o0 o1 : Op) (p0 p1 : prog D Reply) n d :
  ∃ s, rtc sys_step (mkSys d [] [(o0, p0); (o1, p1)]) s ∧
    threads s = [(o0, Ret (overtake n p0 p1 d).1.1); (o1, Ret (overtake n p0 p1 d).1.2)] ∧
    current s = (overtake n p0 p1 d).2.
Proof.
  unfold overtake.
  destruct (sys_advance o1 n p1 (mkSys d [] [(o0, p0); (o1, p1)]) 1 eq_refl) as [h1 H1].
  cbn in H1. destruct (advance n p1 d) as [p1' d1]. cbn in H1.
  destruct (sys_run o0 p0 (mkSys d1 h1 [(o0, p0); (o1, p1')]) 0 eq_refl) as [h2 H2].
  cbn in H2. destruct (run p0 d1) as [a0 d2]. cbn in H2.
  destruct (sys_run o1 p1' (mkSys d2 h2 [(o0, Ret a0); (o1, p1')]) 1 eq_refl) as [h3 H3].
  cbn in H3. destruct (run p1' d2) as [a1 d3]. cbn in H3.
  eexists. split; [etrans; [exact H1 |]; etrans; [exact H2 | exact H3] |]. done.
Qed.

(** Programs one after the other, as a path of the system. *)
Fixpoint run_all {D A : Type} (ps : list (prog D A)) (d : D) : list A * D :=
  match ps with
  | [] => ([], d)
  | p :: ps' =>
      let (a, d1) := run p d in
      let (r, d2) := run_all ps' d1 in (a :: r, d2)
  end.

Lemma sys_run_all_after {D Op Reply : Type} (ts pre : list (Op * prog D Reply)) (d : D) h :
  ∃ h', rtc sys_step (mkSys d h (pre ++ ts))
    (mkSys (run_all ts.*2 d).2 h' (pre ++ zip_with (λ t a, (t.1, Ret a)) ts (run_all ts.*2 d).1)).
Proof.
  revert pre d h. induction ts as [| [op p] ts IH]; intros pre d h; [by exists h |]. cbn.
  destruct (sys_run op p (mkSys d h (pre ++ (op, p) :: ts)) (length pre)) as [h1 H1].
  { cbn. by rewrite lookup_app_r, Nat.sub_diag by lia. }
  cbn in H1. destruct (run p d) as [a d1]. cbn in H1.
  destruct (IH (pre ++ [(op, Ret a)]) d1 h1) as [h2 H2]. destruct (run_all ts.*2 d1) as [r d2]. cbn in *.
  exists h2. etrans; [exact H1 |]. rewrite <- !app_assoc in H2. cbn in H2.
  by rewrite insert_app_r_alt, Nat.sub_diag by lia.
Qed.

Lemma sys_run_all {D Op Reply : Type} (ts : list (Op * prog D Reply)) (d : D) :
  ∃ h, rtc sys_step (mkSys d [] ts)
    (mkSys (run_all ts.*2 d).2 h (zip_with (λ t a, (t.1, Ret a)) ts (run_all ts.*2 d).1)).
Proof. exact (sys_run_all_after ts [] d []). Qed.
