(* ===== verification/PortAlloc.v ===== *)
(** * Port blocks of namespaces and ports of deployments
      ([core/pkg/namespace/port_allocator.go],
      [core/pkg/deployments/port_allocator.go])

    Both allocators read the taken ports, pick the first free one and insert a
    row; the table's UNIQUE constraints decide between allocations that run at
    the same time, and a rejected one tries again.  A table is the list of its
    rows in insertion order; an insert checks the keys of the schema
    ([core/migrations/010_namespace_clusters.sql],
    [007_deployments.sql]).  The random ids and clock readings of the attempts
    are arguments. *)

From Stdlib Require Import ZArith Lia String.
From stdpp Require Import base tactics numbers list strings relations sorting.
From S2P Require Import Prelude GoStrings DbProg.

Local Open Scope go_scope.

(** ** Errors *)

(** [ClusterError] and [DeploymentError]: a message and the text of the cause. *)
Record ClusterError := mkError { Message : string; Cause : option string }.

Definition Error (e : ClusterError) : string :=
  match Cause e with
  | Some c => Message e +:+ ": " +:+ c
  | None => Message e
  end.

Definition ErrNoPortsAvailable : ClusterError := mkError "no ports available on node" None.
Definition ErrNodeAtCapacity : ClusterError :=
  mkError "node has reached maximum namespace instances" None.

Definition isConflictError (errStr : string) : bool :=
  Contains errStr "UNIQUE" || Contains errStr "constraint" || Contains errStr "conflict".

(** What SQLite reports when an insert repeats a key. *)
Definition unique_failed (columns : string) : string := "UNIQUE constraint failed: " +:+ columns.

(** The retry loop of the allocators; the delays have no effect on the state. *)
Definition maxRetries : nat := 10.

Fixpoint retry {D B : Type} (gave_up : ClusterError)
    (try : nat → prog D (result ClusterError B)) (attempt left : nat)
    : prog D (result ClusterError B) :=
  match left with
  | O => Ret (Err gave_up)
  | S left' =>
      do! r := try attempt in
      match r with
      | Ok b => Ret (Ok b)
      | Err e => if isConflictError (Error e) then retry gave_up try (S attempt) left'
                 else Ret (Err e)
      end
  end.

(** ** The reserved range of namespaces *)

Definition NamespacePortRangeStart : Z := 10000.
Definition NamespacePortRangeEnd : Z := 10099.
Definition PortsPerNamespace : Z := 5.
Definition MaxNamespacesPerNode : Z :=
  Z.quot (NamespacePortRangeEnd - NamespacePortRangeStart + 1) PortsPerNamespace.

Record PortBlock := mkBlock {
  block_ID : string;
  NodeID : string;
  NamespaceClusterID : string;
  PortStart : Z;
  PortEnd : Z;
  RQLiteHTTPPort : Z;
  RQLiteRaftPort : Z;
  OlricHTTPPort : Z;
  OlricMemberlistPort : Z;
  GatewayHTTPPort : Z;
  AllocatedAt : time
}.

(** The rows of [dns_nodes] (id and address) and of
    [namespace_port_allocations]. *)
Record ns_db := mkNsDb { dns_nodes : list (string * string); allocations : list PortBlock }.

Definition new_block (id node cluster : string) (portStart : Z) (now : time) : PortBlock :=
  mkBlock id node cluster portStart (portStart + PortsPerNamespace - 1)
    (portStart + 0) (portStart + 1) (portStart + 2) (portStart + 3) (portStart + 4) now.

(** *** Statements *)

Definition select_ip (node : string) (d : ns_db) : list string :=
  take 1 ((filter (λ p, p.1 = node) (dns_nodes d)).*2).

Definition count_same_ip (ip : string) (d : ns_db) : Z :=
  Z.of_nat (length (remove_dups ((filter (λ p, p.2 = ip) (dns_nodes d)).*1))).

Definition starts_by_ip (ip : string) (d : ns_db) : list Z :=
  merge_sort Z.le
    (a ← allocations d; n ← dns_nodes d;
     if decide (NodeID a = n.1 ∧ n.2 = ip) then [PortStart a] else []).

Definition starts_by_node (node : string) (d : ns_db) : list Z :=
  merge_sort Z.le (PortStart <$> filter (λ a, NodeID a = node) (allocations d)).

Definition insert_allocation (b : PortBlock) (d : ns_db) : result string ns_db :=
  if decide (block_ID b ∈ block_ID <$> allocations d)
  then Err (unique_failed "namespace_port_allocations.id")
  else if decide ((NodeID b, PortStart b) ∈ (λ a, (NodeID a, PortStart a)) <$> allocations d)
  then Err (unique_failed "namespace_port_allocations.node_id, namespace_port_allocations.port_start")
  else if decide ((NamespaceClusterID b, NodeID b)
                    ∈ (λ a, (NamespaceClusterID a, NodeID a)) <$> allocations d)
  then Err (unique_failed "namespace_port_allocations.namespace_cluster_id, namespace_port_allocations.node_id")
  else Ok (mkNsDb (dns_nodes d) (allocations d ++ [b])).

Definition delete_allocations (P : PortBlock → Prop) `{!∀ a, Decision (P a)} (d : ns_db)
    : result string ns_db :=
  Ok (mkNsDb (dns_nodes d) (filter (λ a, ¬ P a) (allocations d))).

(** *** Operations *)

Definition blocks_of (cluster node : string) (d : ns_db) : list PortBlock :=
  filter (λ a, NamespaceClusterID a = cluster ∧ NodeID a = node) (allocations d).

Definition GetPortBlock (cluster node : string)
    : prog ns_db (result ClusterError (option PortBlock)) :=
  Query (λ d, take 1 (blocks_of cluster node d)) (λ r,
  Ret (match r with
       | Err e => Err (mkError "failed to query port block" (Some e))
       | Ok blocks => Ok (head blocks)
       end)).

(** The queries of one attempt: the starts of the blocks that count as taken. *)
Definition taken_starts (node : string) : prog ns_db (result string (list Z)) :=
  let per_node := Query (starts_by_node node) Ret in
  Query (select_ip node) (λ r,
  match r with
  | Ok (ip :: _) =>
      if String.eqb ip EmptyString then per_node
      else Query (count_same_ip ip) (λ c,
           match c with
           | Ok n => if (1 <? n)%Z then Query (starts_by_ip ip) Ret else per_node
           | Err _ => per_node
           end)
  | _ => per_node
  end).

Definition tryAllocatePortBlock (id : string) (now : time) (node cluster : string)
    : prog ns_db (result ClusterError PortBlock) :=
  do! r := taken_starts node in
  match r with
  | Err e => Ret (Err (mkError "failed to query allocated ports" (Some e)))
  | Ok taken =>
      if (MaxNamespacesPerNode <=? Z.of_nat (length taken))%Z then Ret (Err ErrNodeAtCapacity)
      else
        match first_free NamespacePortRangeStart
                (NamespacePortRangeEnd - PortsPerNamespace + 1) PortsPerNamespace taken with
        | None => Ret (Err ErrNoPortsAvailable)
        | Some portStart =>
            let block := new_block id node cluster portStart now in
            Exec (insert_allocation block) (λ r,
            Ret (match r with
                 | Err e => Err (mkError "failed to insert port allocation" (Some e))
                 | Ok _ => Ok block
                 end))
        end
  end.

Definition AllocatePortBlock (fresh : nat → string * time) (node cluster : string)
    : prog ns_db (result ClusterError PortBlock) :=
  do! existing := GetPortBlock cluster node in
  match existing with
  | Ok (Some block) => Ret (Ok block)
  | _ => retry (mkError "failed to allocate port block after 10 retries" None)
           (λ attempt, tryAllocatePortBlock (fresh attempt).1 (fresh attempt).2 node cluster)
           0 maxRetries
  end.

Definition deallocate (w : ns_db → result string ns_db) (msg : string)
    : prog ns_db (result ClusterError unit) :=
  Exec w (λ r, Ret (match r with Err e => Err (mkError msg (Some e)) | Ok _ => Ok tt end)).

Definition DeallocatePortBlock (cluster node : string) : prog ns_db (result ClusterError unit) :=
  deallocate (delete_allocations (λ a, NamespaceClusterID a = cluster ∧ NodeID a = node))
    "failed to deallocate port block".

Definition DeallocateAllPortBlocks (cluster : string) : prog ns_db (result ClusterError unit) :=
  deallocate (delete_allocations (λ a, NamespaceClusterID a = cluster))
    "failed to deallocate all port blocks".

Definition GetNodeAllocationCount (node : string) : prog ns_db (result ClusterError Z) :=
  Query (λ d, Z.of_nat (length (filter (λ a, NodeID a = node) (allocations d)))) (λ r,
  Ret (match r with
       | Err e => Err (mkError "failed to count allocated port blocks" (Some e))
       | Ok n => Ok n
       end)).

Definition GetNodeCapacity (node : string) : prog ns_db (result ClusterError Z) :=
  do! r := GetNodeAllocationCount node in
  Ret (match r with
       | Err e => Err e
       | Ok allocated =>
           let available := (MaxNamespacesPerNode - allocated)%Z in
           Ok (if (available <? 0)%Z then 0%Z else available)
       end).

(** ** The invariant of the allocation table *)

Definition block_wf (b : PortBlock) : Prop :=
  (∃ i : nat, i < 20 ∧ PortStart b = (10000 + 5 * Z.of_nat i)%Z) ∧
  PortEnd b = (PortStart b + 4)%Z ∧
  [RQLiteHTTPPort b; RQLiteRaftPort b; OlricHTTPPort b; OlricMemberlistPort b; GatewayHTTPPort b]
  = seqZ (PortStart b) 5.

Definition ns_inv (d : ns_db) : Prop :=
  Forall block_wf (allocations d) ∧
  NoDup ((λ a, (NodeID a, PortStart a)) <$> allocations d) ∧
  NoDup ((λ a, (NamespaceClusterID a, NodeID a)) <$> allocations d).

Lemma ns_inv_empty nodes : ns_inv (mkNsDb nodes []).
Proof. split; [constructor |]. split; apply NoDup_nil_2. Qed.

Lemma NoDup_fmap_filter {A B} (f : A → B) (P : A → Prop) `{!∀ a, Decision (P a)} l :
  NoDup (f <$> l) → NoDup (f <$> filter P l).
Proof.
  induction l as [| a l IH]; [done |]. rewrite fmap_cons, NoDup_cons. intros [Hn Hl].
  rewrite filter_cons. case_decide; [| by apply IH]. rewrite fmap_cons. apply NoDup_cons. split; [| by apply IH].
  rewrite list_elem_of_fmap in Hn |- *. intros (x & Hx & Hin). apply list_elem_of_filter in Hin as [_ Hin].
  apply Hn. eauto.
Qed.

Lemma NoDup_snoc {A} (l : list A) x : NoDup l → x ∉ l → NoDup (l ++ [x]).
Proof.
  intros Hl Hx. apply NoDup_app. split; [done |]. split; [| apply NoDup_singleton].
  intros y Hy ->%list_elem_of_singleton. done.
Qed.

Lemma insert_inv b d d' : block_wf b → ns_inv d → insert_allocation b d = Ok d' → ns_inv d'.
Proof.
  intros Hb (H1 & H2 & H3). unfold insert_allocation. repeat (case_decide; [done |]).
  intros [= <-]. split; [| split]; cbn.
  - by apply Forall_app_2; [| constructor].
  - rewrite fmap_app. by apply NoDup_snoc.
  - rewrite fmap_app. by apply NoDup_snoc.
Qed.

Lemma delete_inv P `{!∀ a, Decision (P a)} d d' :
  ns_inv d → delete_allocations P d = Ok d' → ns_inv d'.
Proof.
  intros (H1 & H2 & H3) [= <-]. split; [| split]; cbn; [| by apply NoDup_fmap_filter..].
  rewrite Forall_forall in H1 |- *. intros a Ha. apply list_elem_of_filter in Ha as [_ Ha]. by apply H1.
Qed.

Lemma new_block_wf id node cluster now taken start :
  first_free NamespacePortRangeStart (NamespacePortRangeEnd - PortsPerNamespace + 1)
    PortsPerNamespace taken = Some start →
  block_wf (new_block id node cluster start now).
Proof.
  intros H.
  pose proof (scan_spec _ NamespacePortRangeStart (NamespacePortRangeEnd - PortsPerNamespace + 1)
    PortsPerNamespace taken eq_refl (Nat.le_refl _)) as Hs.
  unfold first_free in H. rewrite H in Hs. destruct Hs as (i & Hi & Hle & _).
  unfold NamespacePortRangeStart, NamespacePortRangeEnd, PortsPerNamespace in *.
  split; [| split].
  - exists i. cbn. lia.
  - cbn. unfold PortsPerNamespace. lia.
  - unfold new_block, seqZ. change (Z.to_nat 5) with 5. cbn [seq fmap list_fmap
      RQLiteHTTPPort RQLiteRaftPort OlricHTTPPort OlricMemberlistPort GatewayHTTPPort PortStart].
    repeat (f_equal; try lia).
Qed.

(** ** Operations under the invariant *)

Definition block_for (node cluster : string) (r : result ClusterError PortBlock) : Prop :=
  ∀ b, r = Ok b → block_wf b ∧ NodeID b = node ∧ NamespaceClusterID b = cluster.

Lemma taken_starts_upholds node : upholds ns_inv (λ _, True) (taken_starts node).
Proof.
  assert (upholds ns_inv (λ _, True) (Query (starts_by_node node) Ret)) as Hn by (cbn; auto).
  unfold taken_starts. cbn. split; [| auto]. intros d _. destruct (select_ip node d) as [| ip l]; [exact Hn |].
  destruct (String.eqb ip EmptyString); [exact Hn |]. cbn. split; [| auto].
  intros d' _. destruct (1 <? count_same_ip ip d')%Z; cbn; auto.
Qed.

Lemma tryAllocate_upholds id now node cluster :
  upholds ns_inv (block_for node cluster) (tryAllocatePortBlock id now node cluster).
Proof.
  unfold tryAllocatePortBlock. eapply upholds_bind; [apply taken_starts_upholds |].
  intros [taken | e] _; [| by intros b]. case_match; [by intros b |].
  destruct (first_free _ _ _ _) as [start |] eqn:Hf; [| by intros b].
  pose proof (new_block_wf id node cluster now taken start Hf) as Hwf. split.
  - intros d d'. by apply insert_inv.
  - intros [u | e] b; [| done]. intros [= <-]. by split.
Qed.

Lemma retry_upholds {D B} (I : D → Prop) (Q : result ClusterError B → Prop) gave_up try attempt left :
  (∀ e, Q (Err e)) → (∀ n, upholds I Q (try n)) →
  upholds I Q (retry gave_up try attempt left).
Proof.
  intros HQ Ht. revert attempt. induction left as [| left IH]; intros attempt; cbn [retry]; [apply HQ |].
  eapply upholds_bind; [apply Ht |]. intros [b | e] Hr; [exact Hr |].
  destruct (isConflictError (Error e)); [apply IH | apply HQ].
Qed.

Lemma head_filter_elem {A} (P : A → Prop) `{!∀ a, Decision (P a)} l x :
  head (take 1 (filter P l)) = Some x → x ∈ l ∧ P x.
Proof.
  destruct (filter P l) as [| y l'] eqn:E; [done |]. cbn. intros [= <-].
  assert (y ∈ filter P l) as Hy by (rewrite E; left). by apply list_elem_of_filter in Hy as [? ?].
Qed.

Lemma Allocate_upholds fresh node cluster :
  upholds ns_inv (block_for node cluster) (AllocatePortBlock fresh node cluster).
Proof.
  unfold AllocatePortBlock.
  apply (upholds_bind ns_inv (λ r, ∀ b, r = Ok (Some b) → block_wf b ∧ NodeID b = node ∧ NamespaceClusterID b = cluster)).
  - split; [| by intros e b]. intros d (Hwf & _) b Hb. injection Hb as Hb. apply head_filter_elem in Hb as [Hin [Hc Hn]].
    rewrite Forall_forall in Hwf. auto.
  - assert (upholds ns_inv (block_for node cluster) (retry
      (mkError "failed to allocate port block after 10 retries" None)
      (λ attempt, tryAllocatePortBlock (fresh attempt).1 (fresh attempt).2 node cluster) 0 maxRetries)) as Hr.
    { apply retry_upholds; [by intros e b | intros n; apply tryAllocate_upholds]. }
    intros [[b |] | e] Hb; [| exact Hr..]. intros b' [= <-]. by apply Hb.
Qed.

(** ** The cluster: many allocations and releases at the same time *)

Inductive ns_op :=
| OpAllocate (fresh : nat → string * time) (node cluster : string)
| OpDeallocate (cluster node : string)
| OpDeallocateAll (cluster : string)
| OpNodes (nodes : list (string * string)).

Inductive ns_reply :=
| RBlock (r : result ClusterError PortBlock)
| RDone (r : result ClusterError unit).

(** [OpNodes] stands for the other writers of [dns_nodes]. *)
Definition ns_prog (op : ns_op) : prog ns_db ns_reply :=
  match op with
  | OpAllocate fresh node cluster => do! r := AllocatePortBlock fresh node cluster in Ret (RBlock r)
  | OpDeallocate cluster node => do! r := DeallocatePortBlock cluster node in Ret (RDone r)
  | OpDeallocateAll cluster => do! r := DeallocateAllPortBlocks cluster in Ret (RDone r)
  | OpNodes nodes => Exec (λ d, Ok (mkNsDb nodes (allocations d))) (λ _, Ret (RDone (Ok tt)))
  end.

Definition ns_post (op : ns_op) (reply : ns_reply) : Prop :=
  match op, reply with
  | OpAllocate _ node cluster, RBlock r => block_for node cluster r
  | _, _ => True
  end.

Lemma deallocate_upholds P `{!∀ a, Decision (P a)} msg :
  upholds ns_inv (λ _, True) (deallocate (delete_allocations P) msg).
Proof. split; [intros d d'; by apply delete_inv | by intros []]. Qed.

Lemma ns_prog_upholds op : upholds ns_inv (ns_post op) (ns_prog op).
Proof.
  destruct op as [fresh node cluster | cluster node | cluster | nodes]; cbn [ns_prog].
  - eapply upholds_bind; [apply Allocate_upholds |]. by intros r Hr.
  - eapply upholds_bind; [apply deallocate_upholds |]. by intros r Hr.
  - eapply upholds_bind; [apply deallocate_upholds |]. by intros r Hr.
  - split; [| by intros]. intros d d' Hd [= <-]. exact Hd.
Qed.

Lemma ns_progs_uphold ops :
  Forall (λ t, upholds ns_inv (ns_post t.1) t.2) ((λ op, (op, ns_prog op)) <$> ops).
Proof. apply Forall_fmap, Forall_true. intros op. apply ns_prog_upholds. Qed.

(** At most twenty rows of a node fit under the invariant. *)
Lemma ns_inv_capacity d node :
  ns_inv d → length (filter (λ a, NodeID a = node) (allocations d)) ≤ 20.
Proof.
  intros (Hwf & Hnd & _). set (l := filter _ _).
  assert (NoDup (PortStart <$> l)) as Hl.
  { apply (NoDup_fmap_filter _ (λ a, NodeID a = node)) in Hnd. fold l in Hnd.
    apply (NoDup_fmap_1 (λ p : Z, (node, p))). rewrite <- list_fmap_compose.
    erewrite list_fmap_ext; [exact Hnd |]. intros i a Ha. cbn. f_equal.
    apply list_elem_of_lookup_2, list_elem_of_filter in Ha as [Ha _]. done. }
  assert (PortStart <$> l ⊆ (λ i : nat, (10000 + 5 * Z.of_nat i)%Z) <$> seq 0 20) as Hsub.
  { intros p Hp. apply list_elem_of_fmap in Hp as (a & -> & Ha). apply list_elem_of_filter in Ha as [_ Ha].
    rewrite Forall_forall in Hwf. destruct (Hwf _ Ha) as [(i & Hi & ->) _].
    apply list_elem_of_fmap. exists i. split; [done |]. apply elem_of_seq. lia. }
  apply NoDup_submseteq, submseteq_length in Hsub; [| done]. by rewrite !length_fmap in Hsub.
Qed.

(** C30: however allocations, releases and changes of the node table interleave,
    whatever statements fail, lag or lose their acknowledgement: every block
    lies in the reserved range, the blocks on a node (under one node id) never
    overlap, a node hosts at most
    twenty, a cluster has at most one block on a node, and an allocation that
    succeeds returns a block of five consecutive ports for its own node and
    cluster. *)
Theorem port_blocks_exclusive nodes ops s :
  rtc sys_step (mkSys (mkNsDb nodes []) [] ((λ op, (op, ns_prog op)) <$> ops)) s →
  (∀ a, a ∈ allocations (current s) →
     (NamespacePortRangeStart ≤ PortStart a)%Z ∧ (PortEnd a ≤ NamespacePortRangeEnd)%Z) ∧
  (∀ i j a b, allocations (current s) !! i = Some a → allocations (current s) !! j = Some b → i ≠ j →
     NodeID a = NodeID b →
     ((PortEnd a < PortStart b)%Z ∨ (PortEnd b < PortStart a)%Z) ∧
     NamespaceClusterID a ≠ NamespaceClusterID b) ∧
  (∀ node, (Z.of_nat (length (filter (λ a, NodeID a = node) (allocations (current s))))
            ≤ MaxNamespacesPerNode)%Z) ∧
  (∀ fresh node cluster r, (OpAllocate fresh node cluster, Ret (RBlock r)) ∈ threads s →
     block_for node cluster r).
Proof.
  intros Hr. destruct (sys_reachable ns_inv ns_post _ _ _ (ns_inv_empty nodes) (ns_progs_uphold ops) Hr)
    as [Hinv Hpost].
  pose proof Hinv as (Hwf & Hns & Hcn). rewrite Forall_lookup in Hwf. split; [| split; [| split]].
  - intros a [i Ha]%list_elem_of_lookup. destruct (Hwf _ _ Ha) as ((x & Hx & Ea) & Eea & _).
    unfold NamespacePortRangeStart, NamespacePortRangeEnd. lia.
  - intros i j a b Ha Hb Hij. destruct (Hwf _ _ Ha) as ((x & Hx & Ea) & Eea & _).
    destruct (Hwf _ _ Hb) as ((y & Hy & Eb) & Eeb & _).
    intros Hn. split.
    + assert (PortStart a ≠ PortStart b); [| lia]. intros E. apply Hij.
      eapply NoDup_lookup; [exact Hns | rewrite list_lookup_fmap, Ha; reflexivity |].
      rewrite list_lookup_fmap, Hb. cbn. by rewrite Hn, E.
    + intros E. apply Hij. eapply NoDup_lookup; [exact Hcn | rewrite list_lookup_fmap, Ha; reflexivity |].
      rewrite list_lookup_fmap, Hb. cbn. by rewrite Hn, E.
  - intros node. pose proof (ns_inv_capacity _ node Hinv). change MaxNamespacesPerNode with 20%Z. lia.
  - intros fresh node cluster r Hin. exact (Hpost _ _ Hin).
Qed.

Definition demo_ids (prefix : string) (attempt : nat) : string * time :=
  (prefix +:+ String (Ascii.ascii_of_nat (48 + attempt)) EmptyString, 0%Z).

(** The cluster that starts the given operations. *)
Definition ns_start (nodes : list (string * string)) (ops : list ns_op) : sys ns_db ns_op ns_reply :=
  mkSys (mkNsDb nodes []) [] ((λ op, (op, ns_prog op)) <$> ops).

Lemma ns_start_lookup nodes ops i op :
  ops !! i = Some op → threads (ns_start nodes ops) !! i = Some (op, ns_prog op).
Proof. intros H. cbn. by rewrite list_lookup_fmap, H. Qed.

Lemma port_blocks_exclusive_witness :
  ∃ s, rtc sys_step (ns_start [("n1", "10.0.0.1")]%string [OpAllocate (demo_ids "a") "n1" "c1"]) s ∧
       length (allocations (current s)) = 1 ∧
       ∀ node, (Z.of_nat (length (filter (λ a, NodeID a = node) (allocations (current s))))
                ≤ MaxNamespacesPerNode)%Z.
Proof.
  destruct (sys_run _ _ _ _ (ns_start_lookup [("n1", "10.0.0.1")]%string
    [OpAllocate (demo_ids "a") "n1" "c1"] 0 _ eq_refl)) as [h Hh].
  eexists. split; [exact Hh |]. split; [vm_compute; reflexivity |].
  exact (proj1 (proj2 (proj2 (port_blocks_exclusive _ _ _ Hh)))).
Defined.

(** ** One allocation alone *)

(** The taken starts an attempt sees when every query succeeds: those of all
    nodes at the node's address when it is shared, else those of the node. *)
Definition visible_starts (node : string) (d : ns_db) : list Z :=
  match select_ip node d with
  | ip :: _ => if negb (String.eqb ip EmptyString) && (1 <? count_same_ip ip d)%Z
               then starts_by_ip ip d else starts_by_node node d
  | [] => starts_by_node node d
  end.

Lemma run_taken_starts node d : run (taken_starts node) d = (Ok (visible_starts node d), d).
Proof.
  unfold taken_starts, visible_starts. cbn. destruct (select_ip node d) as [| ip l]; [done |].
  destruct (String.eqb ip EmptyString); [done |]. cbn. by destruct (1 <? count_same_ip ip d)%Z.
Qed.

(** The blocks of the node itself are always among them. *)
Lemma visible_own node d a :
  a ∈ allocations d → NodeID a = node → PortStart a ∈ visible_starts node d.
Proof.
  intros Ha Hn. assert (PortStart a ∈ starts_by_node node d) as Hown.
  { unfold starts_by_node. rewrite merge_sort_Permutation. apply list_elem_of_fmap. exists a.
    split; [done |]. by apply list_elem_of_filter. }
  unfold visible_starts. destruct (select_ip node d) as [| ip l] eqn:Hip; [done |].
  destruct (negb _ && _); [| done]. unfold starts_by_ip. rewrite merge_sort_Permutation.
  apply list_elem_of_bind. exists a. split; [| done]. unfold select_ip in Hip.
  destruct (filter (λ p, p.1 = node) (dns_nodes d)) as [| n ns] eqn:Hf; [done |].
  cbn in Hip. injection Hip as <- <-.
  assert (n ∈ filter (λ p, p.1 = node) (dns_nodes d)) as Hin by (rewrite Hf; left).
  apply list_elem_of_filter in Hin as [Hn1 Hin]. apply list_elem_of_bind. exists n. split; [| done].
  rewrite decide_True by (split; congruence). by apply list_elem_of_singleton.
Qed.

(** The first block that is not taken. *)
Definition lowest_free (taken : list Z) (start : Z) : Prop :=
  (start ∉ taken) ∧ ∃ i : nat, i < 20 ∧ start = (10000 + 5 * Z.of_nat i)%Z ∧
  ∀ j : nat, j < i → (10000 + 5 * Z.of_nat j)%Z ∈ taken.

Lemma first_free_block taken :
  length taken < 20 →
  ∃ start, first_free NamespacePortRangeStart (NamespacePortRangeEnd - PortsPerNamespace + 1)
             PortsPerNamespace taken = Some start ∧ lowest_free taken start.
Proof.
  intros Hlen.
  destruct (first_free_complete NamespacePortRangeStart (NamespacePortRangeEnd - PortsPerNamespace + 1)
    PortsPerNamespace taken 20 eq_refl ltac:(done) Hlen) as [start Hs].
  exists start. split; [exact Hs |].
  pose proof (scan_spec _ NamespacePortRangeStart (NamespacePortRangeEnd - PortsPerNamespace + 1)
    PortsPerNamespace taken eq_refl (Nat.le_refl _)) as Hspec.
  unfold first_free in Hs. rewrite Hs in Hspec. destruct Hspec as (i & Hi & Hle & Hni & Hj).
  unfold NamespacePortRangeStart, NamespacePortRangeEnd, PortsPerNamespace in *.
  split; [done |]. exists i. split; [lia |]. split; [lia |]. intros j Hlt.
  replace (10000 + 5 * Z.of_nat j)%Z with (10000 + Z.of_nat j * 5)%Z by lia. by apply Hj.
Qed.

(** Alone and without faults, an allocation returns the block the cluster
    already has on the node; otherwise it fails exactly when the node (or the
    machine its address is shared on) has twenty blocks, and else inserts the
    lowest free block, which later lookups return. *)
Theorem AllocatePortBlock_spec fresh node cluster d :
  ns_inv d → (fresh 0).1 ∉ block_ID <$> allocations d →
  let taken := visible_starts node d in
  let (r, d') := run (AllocatePortBlock fresh node cluster) d in
  match head (blocks_of cluster node d) with
  | Some b => r = Ok b ∧ d' = d
  | None =>
      (20 ≤ length taken ∧ r = Err ErrNodeAtCapacity ∧ d' = d) ∨
      (length taken < 20 ∧ ∃ start, lowest_free taken start ∧
       let b := new_block (fresh 0).1 node cluster start (fresh 0).2 in
       r = Ok b ∧ d' = mkNsDb (dns_nodes d) (allocations d ++ [b]) ∧
       (run (GetPortBlock cluster node) d').1 = Ok (Some b))
  end.
Proof.
  intros Hinv Hid taken. unfold AllocatePortBlock. rewrite run_bind.
  assert (run (GetPortBlock cluster node) d = (Ok (head (blocks_of cluster node d)), d)) as ->
    by (cbn; by destruct (blocks_of cluster node d)).
  cbn [fst snd]. destruct (blocks_of cluster node d) as [| b bs] eqn:Hb; cbn [head]; [| done].
  change maxRetries with (S 9). cbn [retry]. rewrite run_bind. unfold tryAllocatePortBlock.
  rewrite run_bind, run_taken_starts. fold taken. cbn [fst snd].
  change MaxNamespacesPerNode with 20%Z. destruct (Z.leb_spec 20 (Z.of_nat (length taken))) as [Hle | Hlt].
  { cbn [run fst snd]. change (isConflictError (Error ErrNodeAtCapacity)) with false. cbn [run].
    left. split; [lia |]. done. }
  destruct (first_free_block taken ltac:(lia)) as (start & -> & Hlow).
  cbn [run]. set (b := new_block _ node cluster start _).
  assert (insert_allocation b d = Ok (mkNsDb (dns_nodes d) (allocations d ++ [b]))) as Hins.
  { unfold insert_allocation. rewrite decide_False by done. rewrite decide_False.
    - rewrite decide_False; [done |]. intros Hin. apply list_elem_of_fmap in Hin as (a & [= Ec En] & Ha).
      assert (a ∈ blocks_of cluster node d) as Hm by (by apply list_elem_of_filter).
      rewrite Hb in Hm. by apply not_elem_of_nil in Hm.
    - intros Hin. apply list_elem_of_fmap in Hin as (a & [= En Es] & Ha).
      destruct Hlow as [Hni _]. apply Hni. rewrite Es. by apply visible_own. }
  rewrite Hins. cbn [run fst snd]. right. split; [lia |]. exists start. split; [done |].
  fold b. split; [done |]. split; [done |].
  cbn [GetPortBlock run fst]. do 2 f_equal. unfold blocks_of in Hb |- *. cbn [allocations].
  rewrite filter_app, Hb. cbn. by rewrite decide_True by done.
Qed.

Lemma AllocatePortBlock_spec_witness :
  ∃ start, lowest_free [] start ∧
  (run (AllocatePortBlock (demo_ids "a") "n1" "c1") (mkNsDb [] [])).1
  = Ok (new_block "a0" "n1" "c1" start 0).
Proof.
  pose proof (AllocatePortBlock_spec (demo_ids "a") "n1" "c1" (mkNsDb [] []) (ns_inv_empty [])
    (not_elem_of_nil _)) as H.
  cbv zeta in H. destruct (run (AllocatePortBlock (demo_ids "a") "n1" "c1") (mkNsDb [] [])) as [r d'].
  cbn [blocks_of head allocations filter list_filter] in H. destruct H as [(Hl & _) | (_ & start & Hf & Hr & _)].
  - vm_compute in Hl. lia.
  - exists start. split; [exact Hf | exact Hr].
Defined.

(** ** Two races the constraints do not settle *)

(** Two requests for the same cluster and node at the same time: one inserts
    the block, the other repeats its insert ten times against the key
    (cluster, node), never looks for the existing block again, and fails. *)
Theorem lost_race_gives_up :
  ∃ s b, rtc sys_step (ns_start []
      [OpAllocate (demo_ids "a") "n1" "c1"; OpAllocate (demo_ids "b") "n1" "c1"]) s ∧
    threads s = [(OpAllocate (demo_ids "a") "n1" "c1", Ret (RBlock (Ok b)));
                 (OpAllocate (demo_ids "b") "n1" "c1", Ret (RBlock (Err (
                    mkError "failed to allocate port block after 10 retries" None))))] ∧
    allocations (current s) = [b].
Proof.
  destruct (sys_overtake (OpAllocate (demo_ids "a") "n1" "c1") (OpAllocate (demo_ids "b") "n1" "c1")
    (ns_prog (OpAllocate (demo_ids "a") "n1" "c1")) (ns_prog (OpAllocate (demo_ids "b") "n1" "c1"))
    1 (mkNsDb [] [])) as (s & Hs & Ht & Hc).
  exists s. eexists. split; [exact Hs |]. rewrite Ht, Hc. split; vm_compute; reflexivity.
Qed.

(** Two nodes at one address that allocate at the same time get the same
    ports: the keys of the table do not know about addresses. *)
Theorem colocated_race :
  ∃ s a b, rtc sys_step (ns_start [("n1", "10.0.0.1"); ("n2", "10.0.0.1")]%string
      [OpAllocate (demo_ids "a") "n1" "c1"; OpAllocate (demo_ids "b") "n2" "c2"]) s ∧
    allocations (current s) = [a; b] ∧ PortStart a = PortStart b ∧
    NodeID a = "n1"%string ∧ NodeID b = "n2"%string.
Proof.
  destruct (sys_overtake (OpAllocate (demo_ids "a") "n1" "c1") (OpAllocate (demo_ids "b") "n2" "c2")
    (ns_prog (OpAllocate (demo_ids "a") "n1" "c1")) (ns_prog (OpAllocate (demo_ids "b") "n2" "c2"))
    4 (mkNsDb [("n1", "10.0.0.1"); ("n2", "10.0.0.1")]%string [])) as (s & Hs & _ & Hc).
  exists s. do 2 eexists. split; [exact Hs |]. rewrite Hc. vm_compute. auto.
Qed.

(** ** Ports of deployments

    The table [port_allocations] with primary key (node, port). *)

Definition MaxPort : Z := 19999.
Definition UserMinPort : Z := 10100.

Record dep_row := mkDepRow { dep_node : string; dep_port : Z; dep_id : string; dep_at : time }.

Abbreviation dep_db := (list dep_row) (only parsing).

Definition ports_of (node : string) (d : dep_db) : list Z :=
  merge_sort Z.le (dep_port <$> filter (λ r, dep_node r = node) d).

Definition insert_port (r : dep_row) (d : dep_db) : result string dep_db :=
  if decide ((dep_node r, dep_port r) ∈ (λ r, (dep_node r, dep_port r)) <$> d)
  then Err (unique_failed "port_allocations.node_id, port_allocations.port")
  else Ok (d ++ [r]).

Definition tryAllocatePort (now : time) (node deployment : string)
    : prog dep_db (result ClusterError Z) :=
  Query (ports_of node) (λ r,
  match r with
  | Err e => Ret (Err (mkError "failed to query allocated ports" (Some e)))
  | Ok taken =>
      match first_free UserMinPort MaxPort 1 taken with
      | None => Ret (Err ErrNoPortsAvailable)
      | Some port =>
          Exec (insert_port (mkDepRow node port deployment now)) (λ r,
          Ret (match r with
               | Err e => Err (mkError "failed to insert port allocation" (Some e))
               | Ok _ => Ok port
               end))
      end
  end).

Definition AllocatePort (clock : nat → time) (node deployment : string)
    : prog dep_db (result ClusterError Z) :=
  retry (mkError "failed to allocate port after 10 retries" None)
    (λ attempt, tryAllocatePort (clock attempt) node deployment) 0 maxRetries.

Definition DeallocatePort (deployment : string) : prog dep_db (result ClusterError unit) :=
  Exec (λ d, Ok (filter (λ r, dep_id r ≠ deployment) d)) (λ r,
  Ret (match r with
       | Err e => Err (mkError "failed to deallocate port" (Some e))
       | Ok _ => Ok tt
       end)).

Definition GetAllocatedPort (deployment : string) : prog dep_db (result ClusterError (Z * string)) :=
  Query (λ d, take 1 (filter (λ r, dep_id r = deployment) d)) (λ r,
  Ret (match r with
       | Err e => Err (mkError "failed to query allocated port" (Some e))
       | Ok [] => Err (mkError "no port allocated for deployment" None)
       | Ok (a :: _) => Ok (dep_port a, dep_node a)
       end)).

Definition GetNodePortCount (node : string) : prog dep_db (result ClusterError Z) :=
  Query (λ d, Z.of_nat (length (filter (λ r, dep_node r = node) d))) (λ r,
  Ret (match r with
       | Err e => Err (mkError "failed to count allocated ports" (Some e))
       | Ok n => Ok n
       end)).

Definition GetAvailablePortCount (node : string) : prog dep_db (result ClusterError Z) :=
  do! r := GetNodePortCount node in
  Ret (match r with
       | Err e => Err e
       | Ok allocatedCount =>
           let available := (MaxPort - UserMinPort + 1 - allocatedCount)%Z in
           Ok (if (available <? 0)%Z then 0%Z else available)
       end).

Definition dep_inv (d : dep_db) : Prop :=
  Forall (λ r, (UserMinPort ≤ dep_port r ≤ MaxPort)%Z) d ∧
  NoDup ((λ r, (dep_node r, dep_port r)) <$> d).

Lemma first_free_range taken port :
  first_free UserMinPort MaxPort 1 taken = Some port →
  (UserMinPort ≤ port ≤ MaxPort)%Z ∧ (port ∉ taken) ∧
  ∀ q, (UserMinPort ≤ q < port)%Z → q ∈ taken.
Proof.
  intros H. pose proof (scan_spec _ UserMinPort MaxPort 1 taken eq_refl (Nat.le_refl _)) as Hs.
  unfold first_free in H. rewrite H in Hs. destruct Hs as (i & Hi & Hle & Hni & Hj).
  split; [lia |]. split; [done |]. intros q Hq.
  replace q with (UserMinPort + Z.of_nat (Z.to_nat (q - UserMinPort)) * 1)%Z by lia. apply Hj. lia.
Qed.

Definition port_in_range (r : result ClusterError Z) : Prop :=
  ∀ p, r = Ok p → (UserMinPort ≤ p ≤ MaxPort)%Z.

Lemma AllocatePort_upholds clock node deployment :
  upholds dep_inv port_in_range (AllocatePort clock node deployment).
Proof.
  apply retry_upholds; [by intros e p |]. intros n. unfold tryAllocatePort.
  split; [| by intros e p]. intros d0 _.
  destruct (first_free UserMinPort MaxPort 1 (ports_of node d0)) as [port |] eqn:Hf; [| by intros p].
  apply first_free_range in Hf as (Hr & _). split.
  - intros d d' (H1 & H2). unfold insert_port. case_decide as Hd; [done |]. intros [= <-]. split.
    + apply Forall_app_2; [done |]. by constructor.
    + rewrite fmap_app. by apply NoDup_snoc.
  - intros [u | e] p; [intros [= <-]; exact Hr | done].
Qed.

Inductive dep_op :=
| OpAllocatePort (clock : nat → time) (node deployment : string)
| OpDeallocatePort (deployment : string).

Inductive dep_reply := RPort (r : result ClusterError Z) | RFreed (r : result ClusterError unit).

Definition dep_prog (op : dep_op) : prog dep_db dep_reply :=
  match op with
  | OpAllocatePort clock node deployment =>
      do! r := AllocatePort clock node deployment in Ret (RPort r)
  | OpDeallocatePort deployment => do! r := DeallocatePort deployment in Ret (RFreed r)
  end.

Definition dep_post (op : dep_op) (reply : dep_reply) : Prop :=
  match reply with RPort r => port_in_range r | RFreed _ => True end.

Lemma dep_prog_upholds op : upholds dep_inv (dep_post op) (dep_prog op).
Proof.
  destruct op as [clock node deployment | deployment]; cbn [dep_prog].
  - eapply upholds_bind; [apply AllocatePort_upholds |]. by intros r Hr.
  - split; [| by intros [] ]. intros d d' (H1 & H2) [= <-]. split; [| by apply NoDup_fmap_filter].
    rewrite Forall_forall in H1 |- *. intros r Hr. apply list_elem_of_filter in Hr as [_ Hr]. by apply H1.
Qed.

(** No two deployments ever hold the same port of a node, whatever
    allocations and releases run at the same time and whatever statements
    fail, and no deployment holds a port of the range reserved for
    namespaces. *)
Theorem deployment_ports_exclusive ops s :
  rtc sys_step (mkSys [] [] ((λ op, (op, dep_prog op)) <$> ops)) s →
  (∀ i j a b, current s !! i = Some a → current s !! j = Some b → i ≠ j →
     dep_node a = dep_node b → dep_port a ≠ dep_port b) ∧
  (∀ a, a ∈ current s → (NamespacePortRangeEnd < dep_port a ≤ MaxPort)%Z) ∧
  (∀ op r, (op, Ret (RPort r)) ∈ threads s → port_in_range r).
Proof.
  intros Hr.
  assert (Forall (λ t, upholds dep_inv (dep_post t.1) t.2) ((λ op, (op, dep_prog op)) <$> ops)) as Hops
    by (apply Forall_fmap, Forall_true; intros op; apply dep_prog_upholds).
  assert (dep_inv []) as H0 by (split; [constructor | apply NoDup_nil_2]).
  destruct (sys_reachable dep_inv dep_post _ _ _ H0 Hops Hr) as [[Hrange Hnd] Hpost]. split; [| split].
  - intros i j a b Ha Hb Hij Hn E. apply Hij.
    eapply NoDup_lookup; [exact Hnd | rewrite list_lookup_fmap, Ha; reflexivity |].
    rewrite list_lookup_fmap, Hb. cbn. by rewrite Hn, E.
  - intros a Ha. rewrite Forall_forall in Hrange. specialize (Hrange _ Ha).
    unfold NamespacePortRangeEnd, UserMinPort in *. lia.
  - intros op r Hin. exact (Hpost _ _ Hin).
Qed.

Lemma deployment_ports_exclusive_witness :
  ∃ s, rtc sys_step (mkSys [] [] ((λ op, (op, dep_prog op)) <$>
         [OpAllocatePort (λ _, 0%Z) "n1" "d1"; OpAllocatePort (λ _, 0%Z) "n1" "d2"])) s ∧
       length (current s) = 2 ∧
       ∀ a, a ∈ current s → (NamespacePortRangeEnd < dep_port a ≤ MaxPort)%Z.
Proof.
  destruct (sys_overtake (OpAllocatePort (λ _, 0%Z) "n1" "d1") (OpAllocatePort (λ _, 0%Z) "n1" "d2")
    (dep_prog (OpAllocatePort (λ _, 0%Z) "n1" "d1")) (dep_prog (OpAllocatePort (λ _, 0%Z) "n1" "d2"))
    1 []) as (s & Hs & _ & Hc).
  exists s. split; [exact Hs |]. split; [rewrite Hc; vm_compute; reflexivity |].
  exact (proj1 (proj2 (deployment_ports_exclusive
    [OpAllocatePort (λ _, 0%Z) "n1" "d1"; OpAllocatePort (λ _, 0%Z) "n1" "d2"] s Hs))).
Defined.
