(* ===== verification/WebrtcPorts.v ===== *)
(** * Ports of the WebRTC services
      ([core/pkg/namespace/webrtc_port_allocator.go])

    Signaling and media ports of the SFU and relay ports of TURN, one row per
    node, cluster and service.  The schema
    ([core/migrations/018_webrtc_services.sql]) has one key, (node, cluster,
    service); the ranges themselves are not keys.  Statements, attempts and
    interleaving are those of [DbProg]; errors and conflict detection those of
    [PortAlloc]. *)

From Stdlib Require Import ZArith Lia String.
From stdpp Require Import base tactics numbers list strings relations sorting.
From S2P Require Import Prelude GoStrings DbProg PortAlloc.

Local Open Scope go_scope.

Definition SFUMediaPortRangeStart : Z := 20000.
Definition SFUMediaPortRangeEnd : Z := 29999.
Definition SFUMediaPortsPerNamespace : Z := 500.
Definition SFUSignalingPortRangeStart : Z := 30000.
Definition SFUSignalingPortRangeEnd : Z := 30099.
Definition TURNRelayPortRangeStart : Z := 49152.
Definition TURNRelayPortRangeEnd : Z := 65535.
Definition TURNRelayPortsPerNamespace : Z := 800.
Definition TURNDefaultPort : Z := 3478.
Definition TURNSPort : Z := 5349.

Definition ErrNoWebRTCPortsAvailable : ClusterError := mkError "no WebRTC ports available on node" None.

Record WebRTCPortBlock := mkWebRTC {
  w_ID : string;
  w_NodeID : string;
  w_ClusterID : string;
  ServiceType : string;
  SFUSignalingPort : Z;
  SFUMediaPortStart : Z;
  SFUMediaPortEnd : Z;
  TURNListenPort : Z;
  TURNTLSPort : Z;
  TURNRelayPortStart : Z;
  TURNRelayPortEnd : Z;
  w_AllocatedAt : time
}.

Record rtc_db := mkRtcDb { rtc_nodes : list (string * string); rtc_rows : list WebRTCPortBlock }.

(** ** Statements *)

Definition rtc_ip (node : string) (d : rtc_db) : list string :=
  take 1 ((filter (λ p, p.1 = node) (rtc_nodes d)).*2).

Definition rtc_ids_at (ip : string) (d : rtc_db) : list string :=
  (filter (λ p, p.2 = ip) (rtc_nodes d)).*1.

Definition values_on_node (node service : string) (col : WebRTCPortBlock → Z) (d : rtc_db) : list Z :=
  merge_sort Z.le (col <$> filter (λ b, w_NodeID b = node ∧ ServiceType b = service ∧ (0 < col b)%Z)
                             (rtc_rows d)).

Definition values_at_ip (ip service : string) (col : WebRTCPortBlock → Z) (d : rtc_db) : list Z :=
  merge_sort Z.le
    (b ← rtc_rows d; n ← rtc_nodes d;
     if decide (w_NodeID b = n.1 ∧ n.2 = ip ∧ ServiceType b = service ∧ (0 < col b)%Z)
     then [col b] else []).

Definition key_of (b : WebRTCPortBlock) : string * string * string :=
  (w_NodeID b, w_ClusterID b, ServiceType b).

Definition insert_row (b : WebRTCPortBlock) (d : rtc_db) : result string rtc_db :=
  if decide (w_ID b ∈ w_ID <$> rtc_rows d) then Err (unique_failed "webrtc_port_allocations.id")
  else if decide (key_of b ∈ key_of <$> rtc_rows d)
  then Err (unique_failed "webrtc_port_allocations.node_id, webrtc_port_allocations.namespace_cluster_id, webrtc_port_allocations.service_type")
  else Ok (mkRtcDb (rtc_nodes d) (rtc_rows d ++ [b])).

Definition delete_rows (P : WebRTCPortBlock → Prop) `{!∀ b, Decision (P b)} (d : rtc_db)
    : result string rtc_db :=
  Ok (mkRtcDb (rtc_nodes d) (filter (λ b, ¬ P b) (rtc_rows d))).

(** ** Operations *)

Definition rows_of (cluster node service : string) (d : rtc_db) : list WebRTCPortBlock :=
  filter (λ b, w_ClusterID b = cluster ∧ w_NodeID b = node ∧ ServiceType b = service) (rtc_rows d).

Definition getPortBlock (cluster node service : string)
    : prog rtc_db (result ClusterError (option WebRTCPortBlock)) :=
  Query (λ d, take 1 (rows_of cluster node service d)) (λ r,
  Ret (match r with
       | Err e => Err (mkError ("failed to query " +:+ service +:+ " port block") (Some e))
       | Ok blocks => Ok (head blocks)
       end)).

Definition GetSFUPorts (cluster node : string) := getPortBlock cluster node "sfu".
Definition GetTURNPorts (cluster node : string) := getPortBlock cluster node "turn".

Definition insertPortBlock (b : WebRTCPortBlock) : prog rtc_db (result ClusterError WebRTCPortBlock) :=
  Exec (insert_row b) (λ r,
  Ret (match r with
       | Err e => Err (mkError ("failed to insert " +:+ ServiceType b +:+ " port allocation") (Some e))
       | Ok _ => Ok b
       end)).

Definition getColocatedNodeIDs (node : string) : prog rtc_db (list string) :=
  Query (rtc_ip node) (λ r,
  match r with
  | Ok (ip :: _) =>
      if String.eqb ip EmptyString then Ret [node]
      else Query (rtc_ids_at ip) (λ c,
           match c with
           | Ok ids => if length ids <=? 1 then Ret [node] else Ret ids
           | Err _ => Ret [node]
           end)
  | _ => Ret [node]
  end).

Definition getAllocatedValues (nodeIDs : list string) (service : string) (col : WebRTCPortBlock → Z)
    : prog rtc_db (result ClusterError (list Z)) :=
  match nodeIDs with
  | [node] =>
      Query (values_on_node node service col) (λ r,
      Ret (match r with
           | Err e => Err (mkError "failed to query allocated WebRTC ports" (Some e))
           | Ok vs => Ok vs
           end))
  | _ =>
      Query (rtc_ip (default EmptyString (head nodeIDs))) (λ r,
      match r with
      | Ok (ip :: _) =>
          Query (values_at_ip ip service col) (λ r,
          Ret (match r with
               | Err e => Err (mkError "failed to query allocated WebRTC ports (colocated)" (Some e))
               | Ok vs => Ok vs
               end))
      | _ => Ret (Err (mkError "failed to get node IP for colocated port query" None))
      end)
  end.

(** [findAvailablePort] and [findAvailablePortBlock] differ in the last start
    they try. *)
Definition find_free (nodeIDs : list string) (service : string) (col : WebRTCPortBlock → Z)
    (rangeStart last step : Z) : prog rtc_db (result ClusterError Z) :=
  do! r := getAllocatedValues nodeIDs service col in
  Ret (match r with
       | Err e => Err e
       | Ok allocated => match first_free rangeStart last step allocated with
                         | Some port => Ok port
                         | None => Err ErrNoWebRTCPortsAvailable
                         end
       end).

Definition findAvailablePort (nodeIDs : list string) (service : string) (col : WebRTCPortBlock → Z)
    (rangeStart rangeEnd step : Z) :=
  find_free nodeIDs service col rangeStart rangeEnd step.

Definition findAvailablePortBlock (nodeIDs : list string) (service : string)
    (col : WebRTCPortBlock → Z) (rangeStart rangeEnd blockSize : Z) :=
  find_free nodeIDs service col rangeStart (rangeEnd - blockSize + 1) blockSize.

Definition sfu_block (id node cluster : string) (signaling media : Z) (now : time) : WebRTCPortBlock :=
  mkWebRTC id node cluster "sfu" signaling media (media + SFUMediaPortsPerNamespace - 1) 0 0 0 0 now.

Definition turn_block (id node cluster : string) (relay : Z) (now : time) : WebRTCPortBlock :=
  mkWebRTC id node cluster "turn" 0 0 0 TURNDefaultPort TURNSPort relay
    (relay + TURNRelayPortsPerNamespace - 1) now.

Definition tryAllocateSFUPorts (id : string) (now : time) (node cluster : string)
    : prog rtc_db (result ClusterError WebRTCPortBlock) :=
  do! nodeIDs := getColocatedNodeIDs node in
  do! s := findAvailablePort nodeIDs "sfu" SFUSignalingPort
             SFUSignalingPortRangeStart SFUSignalingPortRangeEnd 1 in
  match s with
  | Err e => Ret (Err (mkError "no SFU signaling port available on node" (Some (Error e))))
  | Ok signalingPort =>
      do! m := findAvailablePortBlock nodeIDs "sfu" SFUMediaPortStart
                 SFUMediaPortRangeStart SFUMediaPortRangeEnd SFUMediaPortsPerNamespace in
      match m with
      | Err e => Ret (Err (mkError "no SFU media port range available on node" (Some (Error e))))
      | Ok mediaStart => insertPortBlock (sfu_block id node cluster signalingPort mediaStart now)
      end
  end.

Definition tryAllocateTURNPorts (id : string) (now : time) (node cluster : string)
    : prog rtc_db (result ClusterError WebRTCPortBlock) :=
  do! nodeIDs := getColocatedNodeIDs node in
  do! s := findAvailablePortBlock nodeIDs "turn" TURNRelayPortStart
             TURNRelayPortRangeStart TURNRelayPortRangeEnd TURNRelayPortsPerNamespace in
  match s with
  | Err e => Ret (Err (mkError "no TURN relay port range available on node" (Some (Error e))))
  | Ok relayStart => insertPortBlock (turn_block id node cluster relayStart now)
  end.

(** The retry loop that looks for an existing row before every attempt but the
    first. *)
Fixpoint retry_rechecked (get : prog rtc_db (result ClusterError (option WebRTCPortBlock)))
    (gave_up : ClusterError) (try : nat → prog rtc_db (result ClusterError WebRTCPortBlock))
    (attempt left : nat) : prog rtc_db (result ClusterError WebRTCPortBlock) :=
  match left with
  | O => Ret (Err gave_up)
  | S left' =>
      let go :=
        do! r := try attempt in
        match r with
        | Ok b => Ret (Ok b)
        | Err e => if isConflictError (Error e)
                   then retry_rechecked get gave_up try (S attempt) left'
                   else Ret (Err e)
        end in
      if 0 <? attempt then
        do! existing := get in
        match existing with
        | Ok (Some b) => Ret (Ok b)
        | _ => go
        end
      else go
  end.

Definition AllocateSFUPorts (fresh : nat → string * time) (node cluster : string)
    : prog rtc_db (result ClusterError WebRTCPortBlock) :=
  do! existing := GetSFUPorts cluster node in
  match existing with
  | Ok (Some b) => Ret (Ok b)
  | _ => retry_rechecked (GetSFUPorts cluster node)
           (mkError "failed to allocate SFU ports after 10 retries" None)
           (λ attempt, tryAllocateSFUPorts (fresh attempt).1 (fresh attempt).2 node cluster)
           0 maxRetries
  end.

Definition AllocateTURNPorts (fresh : nat → string * time) (node cluster : string)
    : prog rtc_db (result ClusterError WebRTCPortBlock) :=
  do! existing := GetTURNPorts cluster node in
  match existing with
  | Ok (Some b) => Ret (Ok b)
  | _ => retry_rechecked (GetTURNPorts cluster node)
           (mkError "failed to allocate TURN ports after 10 retries" None)
           (λ attempt, tryAllocateTURNPorts (fresh attempt).1 (fresh attempt).2 node cluster)
           0 maxRetries
  end.

Definition release (w : rtc_db → result string rtc_db) (msg : string)
    : prog rtc_db (result ClusterError unit) :=
  Exec w (λ r, Ret (match r with Err e => Err (mkError msg (Some e)) | Ok _ => Ok tt end)).

Definition DeallocateAll (cluster : string) : prog rtc_db (result ClusterError unit) :=
  release (delete_rows (λ b, w_ClusterID b = cluster)) "failed to deallocate WebRTC port blocks".

Definition DeallocateByNode (cluster node service : string) : prog rtc_db (result ClusterError unit) :=
  release (delete_rows (λ b, w_ClusterID b = cluster ∧ w_NodeID b = node ∧ ServiceType b = service))
    ("failed to deallocate " +:+ service +:+ " port block on node " +:+ node).

Definition NodeHasTURN (node : string) : prog rtc_db (result ClusterError bool) :=
  Query (λ d, length (filter (λ b, w_NodeID b = node ∧ ServiceType b = "turn"%string) (rtc_rows d))) (λ r,
  Ret (match r with
       | Err e => Err (mkError "failed to check TURN allocation on node" (Some e))
       | Ok count => Ok (0 <? count)
       end)).

(** ** The invariant of the table *)

(** The [i]-th of the twenty blocks of a range. *)
Definition nth_block (start size v : Z) : Prop := ∃ i : nat, i < 20 ∧ v = (start + Z.of_nat i * size)%Z.

Definition sfu_wf (b : WebRTCPortBlock) : Prop :=
  ServiceType b = "sfu"%string ∧
  (SFUSignalingPortRangeStart ≤ SFUSignalingPort b ≤ SFUSignalingPortRangeEnd)%Z ∧
  nth_block SFUMediaPortRangeStart SFUMediaPortsPerNamespace (SFUMediaPortStart b) ∧
  SFUMediaPortEnd b = (SFUMediaPortStart b + SFUMediaPortsPerNamespace - 1)%Z.

Definition turn_wf (b : WebRTCPortBlock) : Prop :=
  ServiceType b = "turn"%string ∧ TURNListenPort b = TURNDefaultPort ∧ TURNTLSPort b = TURNSPort ∧
  nth_block TURNRelayPortRangeStart TURNRelayPortsPerNamespace (TURNRelayPortStart b) ∧
  TURNRelayPortEnd b = (TURNRelayPortStart b + TURNRelayPortsPerNamespace - 1)%Z.

Definition rtc_inv (d : rtc_db) : Prop :=
  Forall (λ b, sfu_wf b ∨ turn_wf b) (rtc_rows d) ∧ NoDup (key_of <$> rtc_rows d).

Lemma insert_row_inv b d d' :
  sfu_wf b ∨ turn_wf b → rtc_inv d → insert_row b d = Ok d' → rtc_inv d'.
Proof.
  intros Hb (H1 & H2). unfold insert_row. case_decide; [done |]. case_decide; [done |]. intros [= <-].
  split; cbn; [by apply Forall_app_2; [| constructor] |]. rewrite fmap_app. by apply NoDup_snoc.
Qed.

Lemma delete_rows_inv P `{!∀ b, Decision (P b)} d d' :
  rtc_inv d → delete_rows P d = Ok d' → rtc_inv d'.
Proof.
  intros (H1 & H2) [= <-]. split; cbn; [| by apply NoDup_fmap_filter].
  rewrite Forall_forall in H1 |- *. intros b Hb. apply list_elem_of_filter in Hb as [_ Hb]. by apply H1.
Qed.

(** ** Operations under the invariant *)

Lemma colocated_upholds node : upholds rtc_inv (λ _, True) (getColocatedNodeIDs node).
Proof.
  split; [| by intros]. intros d _. destruct (rtc_ip node d) as [| ip l]; [done |].
  destruct (String.eqb ip EmptyString); [done |]. split; [| by intros].
  intros d' _. by destruct (length (rtc_ids_at ip d') <=? 1).
Qed.

Lemma allocated_upholds nodeIDs service col :
  upholds rtc_inv (λ _, True) (getAllocatedValues nodeIDs service col).
Proof.
  assert (∀ n, upholds rtc_inv (λ _, True) (Query (rtc_ip n) (λ r,
    match r with
    | Ok (ip :: _) => Query (values_at_ip ip service col) (λ r, Ret (match r with
        | Err e => Err (mkError "failed to query allocated WebRTC ports (colocated)" (Some e))
        | Ok vs => Ok vs end))
    | _ => Ret (Err (mkError "failed to get node IP for colocated port query" None))
    end))) as Hmany.
  { intros n. split; [| by intros]. intros d _. by destruct (rtc_ip n d). }
  destruct nodeIDs as [| n [| n' ns]]; [apply Hmany | done | apply Hmany].
Qed.

Lemma find_free_upholds nodeIDs service col start last step :
  (0 < step)%Z →
  upholds rtc_inv (λ r, ∀ v, r = Ok v →
      ∃ i : nat, v = (start + Z.of_nat i * step)%Z ∧ (v ≤ last)%Z)
    (find_free nodeIDs service col start last step).
Proof.
  intros Hstep. eapply upholds_bind; [apply allocated_upholds |]. intros [taken | e] _; [| done].
  intros v. pose proof (scan_spec _ start last step taken Hstep (Nat.le_refl _)) as H.
  unfold first_free. destruct (scan _ start last step taken) as [w |]; [| done].
  intros [= <-]. destruct H as (i & Hi & Hle & _). eauto.
Qed.

Definition block_of (wf : WebRTCPortBlock → Prop) (node cluster : string)
    (r : result ClusterError WebRTCPortBlock) : Prop :=
  ∀ b, r = Ok b → wf b ∧ w_NodeID b = node ∧ w_ClusterID b = cluster.

Lemma insert_upholds (wf : WebRTCPortBlock → Prop) b :
  wf b → sfu_wf b ∨ turn_wf b →
  upholds rtc_inv (block_of wf (w_NodeID b) (w_ClusterID b)) (insertPortBlock b).
Proof.
  intros Hb Hor. split; [intros d d'; by apply insert_row_inv |].
  intros [u | e] b' ; [| done]. by intros [= <-].
Qed.

Lemma tryTURN_upholds id now node cluster :
  upholds rtc_inv (block_of turn_wf node cluster) (tryAllocateTURNPorts id now node cluster).
Proof.
  eapply upholds_bind; [apply colocated_upholds |]. intros ids _.
  eapply upholds_bind; [by apply find_free_upholds |]. intros [v | e] Hv; [| done].
  destruct (Hv v eq_refl) as (i & Hi & Hle).
  assert (turn_wf (turn_block id node cluster v now)) as Hwf.
  { repeat (split; [done |]). split; [| done]. exists i. split; [| done].
    unfold TURNRelayPortRangeStart, TURNRelayPortRangeEnd, TURNRelayPortsPerNamespace in *. lia. }
  apply (insert_upholds turn_wf (turn_block id node cluster v now)); [done | by right].
Qed.

Lemma trySFU_upholds id now node cluster :
  upholds rtc_inv (block_of sfu_wf node cluster) (tryAllocateSFUPorts id now node cluster).
Proof.
  eapply upholds_bind; [apply colocated_upholds |]. intros ids _.
  eapply upholds_bind; [by apply find_free_upholds |]. intros [s | e] Hs; [| done].
  destruct (Hs s eq_refl) as (j & Hj & Hjle).
  eapply upholds_bind; [by apply find_free_upholds |]. intros [v | e] Hv; [| done].
  destruct (Hv v eq_refl) as (i & Hi & Hle).
  assert (sfu_wf (sfu_block id node cluster s v now)) as Hwf.
  { split; [done |].
    unfold SFUMediaPortRangeStart, SFUMediaPortRangeEnd, SFUMediaPortsPerNamespace,
      SFUSignalingPortRangeStart, SFUSignalingPortRangeEnd in *.
    split; [cbn; unfold SFUSignalingPortRangeStart, SFUSignalingPortRangeEnd; lia |]. split; [| done]. exists i. cbn. split; [lia | done]. }
  apply (insert_upholds sfu_wf (sfu_block id node cluster s v now)); [done | by left].
Qed.

Lemma get_upholds (wf : WebRTCPortBlock → Prop) cluster node service :
  (∀ b, sfu_wf b ∨ turn_wf b → ServiceType b = service → wf b) →
  upholds rtc_inv (λ r, ∀ b, r = Ok (Some b) → wf b ∧ w_NodeID b = node ∧ w_ClusterID b = cluster)
    (getPortBlock cluster node service).
Proof.
  intros Hwf. split; [| done]. intros d (Hrows & _) b Hb. injection Hb as Hb.
  apply head_filter_elem in Hb as (Hin & Hc & Hn & Hs). rewrite Forall_forall in Hrows. auto.
Qed.

Lemma retry_rechecked_upholds Q get gave_up try attempt left :
  (∀ e, Q (Err e)) → upholds rtc_inv (λ r, ∀ b, r = Ok (Some b) → Q (Ok b)) get →
  (∀ n, upholds rtc_inv Q (try n)) →
  upholds rtc_inv Q (retry_rechecked get gave_up try attempt left).
Proof.
  intros HQ Hget Htry. revert attempt. induction left as [| left IH]; intros attempt; [apply HQ |].
  cbn [retry_rechecked].
  assert (upholds rtc_inv Q (do! r := try attempt in
      match r with
      | Ok b => Ret (Ok b)
      | Err e => if isConflictError (Error e) then retry_rechecked get gave_up try (S attempt) left
                 else Ret (Err e)
      end)) as Hgo.
  { eapply upholds_bind; [apply Htry |]. intros [b | e] Hr; [exact Hr |].
    destruct (isConflictError (Error e)); [apply IH | apply HQ]. }
  destruct (0 <? attempt); [| exact Hgo].
  eapply upholds_bind; [exact Hget |]. intros [[b |] | e] Hr; [by apply Hr | exact Hgo..].
Qed.

Lemma allocate_upholds (wf : WebRTCPortBlock → Prop) cluster node service gave_up try :
  (∀ b, sfu_wf b ∨ turn_wf b → ServiceType b = service → wf b) →
  (∀ n, upholds rtc_inv (block_of wf node cluster) (try n)) →
  upholds rtc_inv (block_of wf node cluster)
    (do! existing := getPortBlock cluster node service in
     match existing with
     | Ok (Some b) => Ret (Ok b)
     | _ => retry_rechecked (getPortBlock cluster node service) gave_up try 0 maxRetries
     end).
Proof.
  intros Hwf Htry. pose proof (get_upholds wf cluster node service Hwf) as Hget.
  assert (upholds rtc_inv (block_of wf node cluster)
    (retry_rechecked (getPortBlock cluster node service) gave_up try 0 maxRetries)) as Hr.
  { apply retry_rechecked_upholds; [done | | done].
    eapply upholds_mono; [| exact Hget]. intros r Hr b Hb b' [= <-]. by apply Hr. }
  eapply upholds_bind; [exact Hget |]. intros [[b |] | e] Hb; [| exact Hr..].
  intros b' [= <-]. by apply Hb.
Qed.

Lemma service_sfu b : sfu_wf b ∨ turn_wf b → ServiceType b = "sfu"%string → sfu_wf b.
Proof. intros [H | [H _]]; [done | congruence]. Qed.

Lemma service_turn b : sfu_wf b ∨ turn_wf b → ServiceType b = "turn"%string → turn_wf b.
Proof. intros [[H _] | H]; [congruence | done]. Qed.

(** ** Many operations at the same time *)

Inductive rtc_op :=
| OpSFU (fresh : nat → string * time) (node cluster : string)
| OpTURN (fresh : nat → string * time) (node cluster : string)
| OpReleaseAll (cluster : string)
| OpRelease (cluster node service : string)
| OpRtcNodes (nodes : list (string * string)).

Inductive rtc_reply :=
| RWebRTC (r : result ClusterError WebRTCPortBlock)
| RReleased (r : result ClusterError unit).

Definition rtc_prog (op : rtc_op) : prog rtc_db rtc_reply :=
  match op with
  | OpSFU fresh node cluster => do! r := AllocateSFUPorts fresh node cluster in Ret (RWebRTC r)
  | OpTURN fresh node cluster => do! r := AllocateTURNPorts fresh node cluster in Ret (RWebRTC r)
  | OpReleaseAll cluster => do! r := DeallocateAll cluster in Ret (RReleased r)
  | OpRelease cluster node service => do! r := DeallocateByNode cluster node service in Ret (RReleased r)
  | OpRtcNodes nodes => Exec (λ d, Ok (mkRtcDb nodes (rtc_rows d))) (λ _, Ret (RReleased (Ok tt)))
  end.

Definition rtc_post (op : rtc_op) (reply : rtc_reply) : Prop :=
  match op, reply with
  | OpSFU _ node cluster, RWebRTC r => block_of sfu_wf node cluster r
  | OpTURN _ node cluster, RWebRTC r => block_of turn_wf node cluster r
  | _, _ => True
  end.

Lemma release_upholds P `{!∀ b, Decision (P b)} msg :
  upholds rtc_inv (λ _, True) (release (delete_rows P) msg).
Proof. split; [intros d d'; by apply delete_rows_inv | by intros []]. Qed.

Lemma rtc_prog_upholds op : upholds rtc_inv (rtc_post op) (rtc_prog op).
Proof.
  destruct op as [fresh node cluster | fresh node cluster | cluster | cluster node service | nodes];
    cbn [rtc_prog].
  - eapply upholds_bind; [apply (allocate_upholds sfu_wf);
      [apply service_sfu | intros n; apply trySFU_upholds] |]. by intros r Hr.
  - eapply upholds_bind; [apply (allocate_upholds turn_wf);
      [apply service_turn | intros n; apply tryTURN_upholds] |]. by intros r Hr.
  - eapply upholds_bind; [apply release_upholds |]. by intros r Hr.
  - eapply upholds_bind; [apply release_upholds |]. by intros r Hr.
  - split; [| by intros]. intros d d' Hd [= <-]. exact Hd.
Qed.

Definition rtc_start (nodes : list (string * string)) (ops : list rtc_op)
    : sys rtc_db rtc_op rtc_reply :=
  mkSys (mkRtcDb nodes []) [] ((λ op, (op, rtc_prog op)) <$> ops).

(** What every execution keeps: each row has the ports of its service, inside
    the ranges planned for it and outside those of namespaces and deployments,
    and a cluster has one row per node and service. *)
Lemma rtc_reachable nodes ops s :
  rtc sys_step (rtc_start nodes ops) s →
  rtc_inv (current s) ∧ ∀ op r, (op, Ret (RWebRTC r)) ∈ threads s → rtc_post op (RWebRTC r).
Proof.
  intros Hr. apply (sys_reachable rtc_inv rtc_post _ _ _) in Hr as [H1 H2].
  - split; [done |]. intros op r Hin. exact (H2 _ _ Hin).
  - split; [constructor | apply NoDup_nil_2].
  - apply Forall_fmap, Forall_true. intros op. apply rtc_prog_upholds.
Qed.

(** The ports of WebRTC services are not exclusive: two clusters that
    enable TURN on the same node at the same time are both told that they own
    the same relay ports, and likewise for the SFU; nothing in the table or the
    allocator notices.  (The rows still satisfy the invariant of the table.) *)
Theorem webrtc_ranges_overlap :
  (∃ s a b, rtc sys_step (rtc_start [("n1", "10.0.0.1")]%string
        [OpTURN (demo_ids "a") "n1" "c1"; OpTURN (demo_ids "b") "n1" "c2"]) s ∧
     threads s = [(OpTURN (demo_ids "a") "n1" "c1", Ret (RWebRTC (Ok a)));
                  (OpTURN (demo_ids "b") "n1" "c2", Ret (RWebRTC (Ok b)))] ∧
     rtc_rows (current s) = [a; b] ∧ rtc_inv (current s) ∧
     w_ClusterID a ≠ w_ClusterID b ∧ TURNRelayPortStart a = TURNRelayPortStart b) ∧
  (∃ s a b, rtc sys_step (rtc_start [("n1", "10.0.0.1")]%string
        [OpSFU (demo_ids "a") "n1" "c1"; OpSFU (demo_ids "b") "n1" "c2"]) s ∧
     threads s = [(OpSFU (demo_ids "a") "n1" "c1", Ret (RWebRTC (Ok a)));
                  (OpSFU (demo_ids "b") "n1" "c2", Ret (RWebRTC (Ok b)))] ∧
     rtc_rows (current s) = [a; b] ∧ rtc_inv (current s) ∧
     w_ClusterID a ≠ w_ClusterID b ∧ SFUSignalingPort a = SFUSignalingPort b ∧
     SFUMediaPortStart a = SFUMediaPortStart b).
Proof.
  split.
  - destruct (sys_overtake (OpTURN (demo_ids "a") "n1" "c1") (OpTURN (demo_ids "b") "n1" "c2")
      (rtc_prog (OpTURN (demo_ids "a") "n1" "c1")) (rtc_prog (OpTURN (demo_ids "b") "n1" "c2"))
      4 (mkRtcDb [("n1", "10.0.0.1")]%string [])) as (s & Hs & Ht & Hc).
    exists s. do 2 eexists. split; [exact Hs |].
    split; [rewrite Ht; vm_compute; reflexivity |]. split; [rewrite Hc; vm_compute; reflexivity |].
    split; [exact (proj1 (rtc_reachable _ [OpTURN (demo_ids "a") "n1" "c1"; OpTURN (demo_ids "b") "n1" "c2"] _ Hs)) |].
    split; [discriminate | reflexivity].
  - destruct (sys_overtake (OpSFU (demo_ids "a") "n1" "c1") (OpSFU (demo_ids "b") "n1" "c2")
      (rtc_prog (OpSFU (demo_ids "a") "n1" "c1")) (rtc_prog (OpSFU (demo_ids "b") "n1" "c2"))
      5 (mkRtcDb [("n1", "10.0.0.1")]%string [])) as (s & Hs & Ht & Hc).
    exists s. do 2 eexists. split; [exact Hs |].
    split; [rewrite Ht; vm_compute; reflexivity |]. split; [rewrite Hc; vm_compute; reflexivity |].
    split; [exact (proj1 (rtc_reachable _ [OpSFU (demo_ids "a") "n1" "c1"; OpSFU (demo_ids "b") "n1" "c2"] _ Hs)) |].
    split; [discriminate |]. split; reflexivity.
Qed.

(** ** One allocation alone *)

(** The row is on the node, or on a node at the same (non-empty) address. *)
Definition shares_host (d : rtc_db) (node : string) (a : WebRTCPortBlock) : Prop :=
  w_NodeID a = node ∨
  ∃ ip, ip ≠ EmptyString ∧ (node, ip) ∈ rtc_nodes d ∧ (w_NodeID a, ip) ∈ rtc_nodes d.

Definition colocated (node : string) (d : rtc_db) : list string :=
  match rtc_ip node d with
  | ip :: _ => if String.eqb ip EmptyString then [node]
               else if length (rtc_ids_at ip d) <=? 1 then [node] else rtc_ids_at ip d
  | [] => [node]
  end.

Lemma run_colocated node d : run (getColocatedNodeIDs node) d = (colocated node d, d).
Proof.
  unfold colocated. cbn. destruct (rtc_ip node d) as [| ip l]; [done |].
  destruct (String.eqb ip EmptyString); [done |]. cbn. by destruct (length (rtc_ids_at ip d) <=? 1).
Qed.

Section Nodes.
Context (d : rtc_db) (Hpk : NoDup (rtc_nodes d).*1).

Lemma node_ip_unique n ip ip' : (n, ip) ∈ rtc_nodes d → (n, ip') ∈ rtc_nodes d → ip = ip'.
Proof.
  intros H1 H2. apply list_elem_of_lookup in H1 as [i Hi]. apply list_elem_of_lookup in H2 as [j Hj].
  assert (i = j) as ->; [| congruence].
  eapply NoDup_lookup; [exact Hpk | by rewrite list_lookup_fmap, Hi | by rewrite list_lookup_fmap, Hj].
Qed.

Lemma rtc_ip_nil n : rtc_ip n d = [] → ∀ ip, (n, ip) ∉ rtc_nodes d.
Proof.
  intros Hnil ip Hin. unfold rtc_ip in Hnil.
  assert ((n, ip) ∈ filter (λ p, p.1 = n) (rtc_nodes d)) as Hf by (by apply list_elem_of_filter).
  destruct (filter _ _) as [| p l]; [by apply not_elem_of_nil in Hf | done].
Qed.

Lemma rtc_ip_cons n ip l : rtc_ip n d = ip :: l → (n, ip) ∈ rtc_nodes d.
Proof.
  unfold rtc_ip. destruct (filter (λ p, p.1 = n) (rtc_nodes d)) as [| [m jp] l'] eqn:Hf; [done |].
  cbn. intros [= <- _]. assert ((m, jp) ∈ filter (λ p, p.1 = n) (rtc_nodes d)) as Hin by (rewrite Hf; left).
  apply list_elem_of_filter in Hin as [Hn Hin]. cbn in Hn. by subst.
Qed.

Lemma rtc_ids_at_elem ip n : n ∈ rtc_ids_at ip d ↔ (n, ip) ∈ rtc_nodes d.
Proof.
  unfold rtc_ids_at. rewrite list_elem_of_fmap. split.
  - intros ([m jp] & -> & Hin). apply list_elem_of_filter in Hin as [Hn Hin]. cbn in Hn. by subst.
  - intros Hin. exists (n, ip). split; [done |]. by apply list_elem_of_filter.
Qed.

(** What the queries of an attempt return: the values of exactly the rows of
    the service on the host. *)
Lemma run_values node service col :
  ∃ vs, run (getAllocatedValues (colocated node d) service col) d = (Ok vs, d) ∧
    ∀ v, v ∈ vs ↔ ∃ a, a ∈ rtc_rows d ∧ ServiceType a = service ∧ (0 < col a)%Z ∧
                       shares_host d node a ∧ v = col a.
Proof.
  assert (∀ v, v ∈ values_on_node node service col d ↔ ∃ a, a ∈ rtc_rows d ∧ ServiceType a = service ∧
    (0 < col a)%Z ∧ w_NodeID a = node ∧ v = col a) as Hone.
  { intros v. unfold values_on_node. rewrite merge_sort_Permutation, list_elem_of_fmap.
    setoid_rewrite list_elem_of_filter. naive_solver. }
  assert ((∀ a, shares_host d node a → w_NodeID a = node) → ∃ vs,
    run (getAllocatedValues [node] service col) d = (Ok vs, d) ∧
    ∀ v, v ∈ vs ↔ ∃ a, a ∈ rtc_rows d ∧ ServiceType a = service ∧ (0 < col a)%Z ∧
                       shares_host d node a ∧ v = col a) as Hsingle.
  { intros Hown. eexists. split; [reflexivity |]. intros v. rewrite Hone. unfold shares_host in *. naive_solver. }
  unfold colocated. destruct (rtc_ip node d) as [| ip l] eqn:Hip.
  { apply Hsingle. intros a [Ha | (ip & _ & Hin & _)]; [done |]. by destruct (rtc_ip_nil _ Hip ip). }
  apply rtc_ip_cons in Hip. destruct (String.eqb_spec ip EmptyString) as [He | Hne].
  { apply Hsingle. intros a [Ha | (jp & Hj & Hin & _)]; [done |].
    by rewrite (node_ip_unique _ _ _ Hin Hip) in Hj. }
  destruct (rtc_ids_at ip d) as [| n [| n' ns]] eqn:Hids; cbn [length Nat.leb].
  - apply Hsingle. intros a _. apply rtc_ids_at_elem in Hip. rewrite Hids in Hip. by apply not_elem_of_nil in Hip.
  - apply Hsingle. intros a [Ha | (jp & Hj & Hin & Hin')]; [done |].
    rewrite (node_ip_unique _ _ _ Hin Hip) in Hin'. apply rtc_ids_at_elem in Hip, Hin'.
    rewrite Hids in Hip, Hin'. apply list_elem_of_singleton in Hip, Hin'. congruence.
  - assert ((n, ip) ∈ rtc_nodes d) as Hn by (apply rtc_ids_at_elem; rewrite Hids; left).
    destruct (rtc_ip n d) as [| jp l'] eqn:Hjp; [by destruct (rtc_ip_nil _ Hjp ip) |].
    pose proof (rtc_ip_cons _ _ _ Hjp) as Hj. rewrite (node_ip_unique _ _ _ Hj Hn) in Hjp.
    exists (values_at_ip ip service col d). split; [cbn; by rewrite Hjp |].
    intros v. unfold values_at_ip. rewrite merge_sort_Permutation, list_elem_of_bind. split.
    + intros (a & Hv & Ha). apply list_elem_of_bind in Hv as ([m kp] & Hv & Hm).
      case_decide as Hd; [| by apply not_elem_of_nil in Hv]. cbn in Hd. destruct Hd as (E & -> & Hs & Hc).
      apply list_elem_of_singleton in Hv. exists a. rewrite <- E in Hm. split; [done |]. split; [done |].
      split; [done |]. split; [| done]. right. eauto.
    + intros (a & Ha & Hs & Hc & Hh & ->). exists a. split; [| done]. apply list_elem_of_bind.
      exists (w_NodeID a, ip). rewrite decide_True by done. split; [by apply list_elem_of_singleton |].
      destruct Hh as [-> | (jp' & _ & H1 & H2)]; [done |]. by rewrite <- (node_ip_unique _ _ _ H1 Hip).
Qed.

End Nodes.

(** The rows of a service on the host of a node. *)
Definition on_host (d : rtc_db) (node service : string) (a : WebRTCPortBlock) : Prop :=
  a ∈ rtc_rows d ∧ ServiceType a = service ∧ shares_host d node a.

Lemma run_find_free d node service col start last step :
  NoDup (rtc_nodes d).*1 → (0 < start)%Z → (0 < step)%Z →
  ∃ r, run (find_free (colocated node d) service col start last step) d = (r, d) ∧
  match r with
  | Ok v => (∃ i : nat, v = (start + Z.of_nat i * step)%Z ∧ (v ≤ last)%Z) ∧
            ∀ a, on_host d node service a → col a ≠ v
  | Err e => e = ErrNoWebRTCPortsAvailable ∧
             ∀ i : nat, (start + Z.of_nat i * step ≤ last)%Z →
               ∃ a, on_host d node service a ∧ col a = (start + Z.of_nat i * step)%Z
  end.
Proof.
  intros Hpk Hpos Hstep. destruct (run_values d Hpk node service col) as (vs & Hrun & Hvs).
  unfold find_free. rewrite run_bind, Hrun. cbn [run fst snd]. eexists. split; [reflexivity |].
  pose proof (scan_spec _ start last step vs Hstep (Nat.le_refl _)) as Hs. unfold first_free.
  destruct (scan _ start last step vs) as [v |].
  - destruct Hs as (i & -> & Hle & Hni & _). split; [eauto |]. intros a (Ha & Hsv & Hh) E. apply Hni, Hvs.
    exists a. rewrite E. split; [done |]. split; [done |]. split; [nia |]. done.
  - split; [done |]. intros i Hi. destruct (proj1 (Hvs _) (Hs i Hi)) as (a & Ha & Hsv & Hc & Hh & E).
    exists a. by repeat split.
Qed.

Lemma run_retry_first get gave_up try d :
  (∀ e, (run (try 0) d).1 = Err e → isConflictError (Error e) = false) →
  run (retry_rechecked get gave_up try 0 maxRetries) d = run (try 0) d.
Proof.
  intros H. change maxRetries with (S 9). generalize 9 as n. intros n. cbn [retry_rechecked].
  change (0 <? 0) with false.
  cbv iota. rewrite run_bind. destruct (run (try 0) d) as [[b | e] d'] eqn:Hr; cbn [fst snd] in *; [done |].
  by rewrite (H e eq_refl).
Qed.

Lemma run_insert b d :
  w_ID b ∉ w_ID <$> rtc_rows d → rows_of (w_ClusterID b) (w_NodeID b) (ServiceType b) d = [] →
  run (insertPortBlock b) d = (Ok b, mkRtcDb (rtc_nodes d) (rtc_rows d ++ [b])).
Proof.
  intros Hid Hrows. cbn [insertPortBlock run]. unfold insert_row. rewrite decide_False by done.
  rewrite decide_False; [done |]. intros Hin. apply list_elem_of_fmap in Hin as (a & [= E1 E2 E3] & Ha).
  assert (a ∈ rows_of (w_ClusterID b) (w_NodeID b) (ServiceType b) d) as Hm by (by apply list_elem_of_filter).
  rewrite Hrows in Hm. by apply not_elem_of_nil in Hm.
Qed.

Definition apart (lo hi lo' hi' : Z) : Prop := (hi < lo' ∨ hi' < lo)%Z.

Lemma blocks_apart start size v w :
  (0 < size)%Z → nth_block start size v → nth_block start size w → v ≠ w →
  apart v (v + size - 1) w (w + size - 1).
Proof.
  intros Hsize (i & _ & ->) (j & _ & ->) Hne. unfold apart.
  destruct (Nat.lt_total i j) as [H | [-> | H]]; [left | done | right]; nia.
Qed.

(** Alone and without faults, enabling TURN for a cluster on a node returns
    the ports it already has there; otherwise it inserts the row of a relay
    range that overlaps none of the relay ranges on that host (also not those
    of other nodes at the same address), or fails, and then every one of the
    twenty ranges is taken on the host. *)
Theorem AllocateTURNPorts_spec fresh node cluster d :
  NoDup (rtc_nodes d).*1 → rtc_inv d → (fresh 0).1 ∉ w_ID <$> rtc_rows d →
  let (r, d') := run (AllocateTURNPorts fresh node cluster) d in
  match head (rows_of cluster node "turn" d) with
  | Some b => r = Ok b ∧ d' = d
  | None =>
      (∃ b, r = Ok b ∧ d' = mkRtcDb (rtc_nodes d) (rtc_rows d ++ [b]) ∧
         turn_wf b ∧ w_NodeID b = node ∧ w_ClusterID b = cluster ∧
         ∀ a, on_host d node "turn" a →
           apart (TURNRelayPortStart a) (TURNRelayPortEnd a) (TURNRelayPortStart b) (TURNRelayPortEnd b)) ∨
      (is_ok r = false ∧ d' = d ∧ ∀ i : nat, i < 20 →
         ∃ a, on_host d node "turn" a ∧ TURNRelayPortStart a = (49152 + Z.of_nat i * 800)%Z)
  end.
Proof.
  intros Hpk (Hrows & _) Hid. unfold AllocateTURNPorts. rewrite run_bind.
  assert (run (GetTURNPorts cluster node) d = (Ok (head (rows_of cluster node "turn" d)), d)) as ->
    by (cbn; by destruct (rows_of cluster node "turn" d)).
  cbn [fst snd]. destruct (rows_of cluster node "turn" d) as [| b bs] eqn:Hb; cbn [head]; [| done].
  destruct (run_find_free d node "turn" TURNRelayPortStart TURNRelayPortRangeStart
    (TURNRelayPortRangeEnd - TURNRelayPortsPerNamespace + 1) TURNRelayPortsPerNamespace Hpk eq_refl eq_refl)
    as (r & Hrun & Hr).
  assert (run (tryAllocateTURNPorts (fresh 0).1 (fresh 0).2 node cluster) d
    = match r with
      | Ok v => (Ok (turn_block (fresh 0).1 node cluster v (fresh 0).2),
                 mkRtcDb (rtc_nodes d) (rtc_rows d ++ [turn_block (fresh 0).1 node cluster v (fresh 0).2]))
      | Err e => (Err (mkError "no TURN relay port range available on node" (Some (Error e))), d)
      end) as Htry.
  { unfold tryAllocateTURNPorts, findAvailablePortBlock. rewrite run_bind, run_colocated. cbn [fst snd].
    rewrite run_bind, Hrun. cbn [fst snd]. destruct r as [v | e]; [| done]. by apply run_insert. }
  rewrite run_retry_first; rewrite Htry.
  - destruct r as [v | e].
    + left. destruct Hr as [(i & Hi & Hle) Hfree]. eexists. split; [reflexivity |]. split; [reflexivity |].
      assert (turn_wf (turn_block (fresh 0).1 node cluster v (fresh 0).2)) as Hwf.
      { repeat (split; [done |]). split; [| done]. exists i.
        unfold TURNRelayPortRangeStart, TURNRelayPortRangeEnd, TURNRelayPortsPerNamespace in *. cbn. lia. }
      split; [done |]. split; [done |]. split; [done |]. intros a Ha. pose proof Ha as (Hin & Hs & _).
      rewrite Forall_forall in Hrows. destruct (service_turn _ (Hrows _ Hin) Hs) as (_ & _ & _ & Hn & ->).
      destruct Hwf as (_ & _ & _ & Hn' & ->). apply (blocks_apart TURNRelayPortRangeStart); [done | done | done |].
      by apply Hfree.
    + right. destruct Hr as [_ Hall]. split; [done |]. split; [done |]. intros i Hi. apply Hall.
      unfold TURNRelayPortRangeStart, TURNRelayPortRangeEnd, TURNRelayPortsPerNamespace. lia.
  - destruct r as [v | e]; cbn; [done |]. destruct Hr as [-> _]. intros e' [= <-]. by vm_compute.
Qed.

Lemma AllocateTURNPorts_spec_witness :
  ∃ b, (run (AllocateTURNPorts (demo_ids "b") "n2" "c2")
          (mkRtcDb [("n1", "10.0.0.1"); ("n2", "10.0.0.1")]%string
             [turn_block "a0" "n1" "c1" 49152 0])).1 = Ok b ∧
       apart 49152 49951 (TURNRelayPortStart b) (TURNRelayPortEnd b).
Proof.
  set (d := mkRtcDb _ _).
  assert (NoDup (rtc_nodes d).*1) as Hpk by (apply (bool_decide_unpack _); vm_compute; exact I).
  assert (rtc_inv d) as Hinv.
  { split; [| apply NoDup_singleton]. constructor; [| constructor]. right.
    do 3 (split; [reflexivity |]). split; [| reflexivity]. exists 0. split; [lia | reflexivity]. }
  assert ((demo_ids "b" 0).1 ∉ w_ID <$> rtc_rows d) as Hid
    by (apply (bool_decide_unpack _); vm_compute; exact I).
  pose proof (AllocateTURNPorts_spec (demo_ids "b") "n2" "c2" d Hpk Hinv Hid) as H.
  destruct (run (AllocateTURNPorts (demo_ids "b") "n2" "c2") d) as [r d'].
  destruct H as [(b & -> & _ & _ & _ & _ & Hapart) | (_ & _ & Hall)].
  - exists b. split; [reflexivity |]. apply (Hapart (turn_block "a0" "n1" "c1" 49152 0)).
    split; [left |]. split; [reflexivity |]. right. exists "10.0.0.1"%string.
    split; [discriminate |]. split; [right; left | left].
  - destruct (Hall 1 ltac:(lia)) as (a & (Hin & _) & E). apply list_elem_of_singleton in Hin. subst a.
    discriminate.
Defined.

(** The same for the SFU, whose row holds a signaling port and a media range:
    both are new on the host, or one of the two kinds is exhausted there. *)
Theorem AllocateSFUPorts_spec fresh node cluster d :
  NoDup (rtc_nodes d).*1 → rtc_inv d → (fresh 0).1 ∉ w_ID <$> rtc_rows d →
  let (r, d') := run (AllocateSFUPorts fresh node cluster) d in
  match head (rows_of cluster node "sfu" d) with
  | Some b => r = Ok b ∧ d' = d
  | None =>
      (∃ b, r = Ok b ∧ d' = mkRtcDb (rtc_nodes d) (rtc_rows d ++ [b]) ∧
         sfu_wf b ∧ w_NodeID b = node ∧ w_ClusterID b = cluster ∧
         ∀ a, on_host d node "sfu" a →
           SFUSignalingPort a ≠ SFUSignalingPort b ∧
           apart (SFUMediaPortStart a) (SFUMediaPortEnd a) (SFUMediaPortStart b) (SFUMediaPortEnd b)) ∨
      (is_ok r = false ∧ d' = d ∧
       ((∀ i : nat, i < 100 → ∃ a, on_host d node "sfu" a ∧ SFUSignalingPort a = (30000 + Z.of_nat i * 1)%Z) ∨
        (∀ i : nat, i < 20 → ∃ a, on_host d node "sfu" a ∧ SFUMediaPortStart a = (20000 + Z.of_nat i * 500)%Z)))
  end.
Proof.
  intros Hpk (Hrows & _) Hid. unfold AllocateSFUPorts. rewrite run_bind.
  assert (run (GetSFUPorts cluster node) d = (Ok (head (rows_of cluster node "sfu" d)), d)) as ->
    by (cbn; by destruct (rows_of cluster node "sfu" d)).
  cbn [fst snd]. destruct (rows_of cluster node "sfu" d) as [| b bs] eqn:Hb; cbn [head]; [| done].
  destruct (run_find_free d node "sfu" SFUSignalingPort SFUSignalingPortRangeStart
    SFUSignalingPortRangeEnd 1 Hpk eq_refl eq_refl) as (r1 & Hrun1 & Hr1).
  destruct (run_find_free d node "sfu" SFUMediaPortStart SFUMediaPortRangeStart
    (SFUMediaPortRangeEnd - SFUMediaPortsPerNamespace + 1) SFUMediaPortsPerNamespace Hpk eq_refl eq_refl)
    as (r2 & Hrun2 & Hr2).
  set (row v w := sfu_block (fresh 0).1 node cluster v w (fresh 0).2).
  assert (run (tryAllocateSFUPorts (fresh 0).1 (fresh 0).2 node cluster) d
    = match r1, r2 with
      | Ok v, Ok w => (Ok (row v w), mkRtcDb (rtc_nodes d) (rtc_rows d ++ [row v w]))
      | Ok _, Err e => (Err (mkError "no SFU media port range available on node" (Some (Error e))), d)
      | Err e, _ => (Err (mkError "no SFU signaling port available on node" (Some (Error e))), d)
      end) as Htry.
  { unfold tryAllocateSFUPorts, findAvailablePortBlock, findAvailablePort.
    rewrite run_bind, run_colocated. cbn [fst snd]. rewrite run_bind, Hrun1. cbn [fst snd].
    destruct r1 as [v | e]; [| done]. rewrite run_bind, Hrun2. cbn [fst snd].
    destruct r2 as [w | e]; [| done]. by apply run_insert. }
  unfold SFUMediaPortRangeStart, SFUMediaPortRangeEnd, SFUMediaPortsPerNamespace,
    SFUSignalingPortRangeStart, SFUSignalingPortRangeEnd in Hr1, Hr2.
  rewrite run_retry_first; rewrite Htry.
  - destruct r1 as [v | e1]; [destruct r2 as [w | e2] |].
    + left. destruct Hr1 as [(i & Hi & Hle) Hf1]. destruct Hr2 as [(j & Hj & Hle2) Hf2].
      eexists. split; [reflexivity |]. split; [reflexivity |].
      assert (sfu_wf (row v w)) as Hwf.
      { split; [done |]. split; [cbn; unfold SFUSignalingPortRangeStart, SFUSignalingPortRangeEnd; lia |].
        split; [| done]. exists j. cbn. unfold SFUMediaPortRangeStart, SFUMediaPortsPerNamespace. lia. }
      split; [done |]. split; [done |]. split; [done |]. intros a Ha. pose proof Ha as (Hin & Hs & _).
      rewrite Forall_forall in Hrows. destruct (service_sfu _ (Hrows _ Hin) Hs) as (_ & _ & Hn & ->).
      destruct Hwf as (_ & _ & Hn' & ->). split; [by apply Hf1 |].
      apply (blocks_apart SFUMediaPortRangeStart); [done | done | done |]. by apply Hf2.
    + right. split; [done |]. split; [done |]. right. intros i Hi. apply Hr2. lia.
    + right. split; [done |]. split; [done |]. left. intros i Hi. apply Hr1. lia.
  - destruct r1 as [v | e1]; [destruct r2 as [w | e2] |]; cbn; [done | |].
    + destruct Hr2 as [-> _]. intros e' [= <-]. by vm_compute.
    + destruct Hr1 as [-> _]. intros e' [= <-]. by vm_compute.
Qed.
