(* ===== verification/CircuitBreaker.v ===== *)
(** * Circuit breakers and the proxies guarded by them
      ([core/pkg/gateway/circuit_breaker.go] and the proxy paths of
      [core/pkg/gateway/middleware.go])

    A breaker per target, the registry that creates them on demand, the
    failover loop of the namespace gateway proxy and the replica loop of the
    cross-node proxy.  A breaker is a shared object: the registry maps a key to
    its state, and every holder of the key acts on that state. *)

From Stdlib Require Import ZArith Lia Ascii String.
From stdpp Require Import base tactics numbers list gmap strings relations sorting.
From S2P Require Import Prelude GoStrings.

(** ** The breaker *)

Inductive CircuitState := CircuitClosed | CircuitOpen | CircuitHalfOpen.

#[export] Instance CircuitState_eq_dec : EqDecision CircuitState.
Proof. solve_decision. Defined.

Definition defaultFailureThreshold : Z := 5.
Definition defaultOpenDuration : duration := (30 * Second)%Z.

Record CircuitBreaker := mkBreaker {
  cb_state : CircuitState;
  failures : Z;
  failureThreshold : Z;
  lastFailure : time;
  openDuration : duration
}.

Definition NewCircuitBreaker : CircuitBreaker :=
  mkBreaker CircuitClosed 0 defaultFailureThreshold time_zero defaultOpenDuration.

Definition set_cb_state (s : CircuitState) (cb : CircuitBreaker) : CircuitBreaker :=
  mkBreaker s (failures cb) (failureThreshold cb) (lastFailure cb) (openDuration cb).

Definition Allow (now : time) (cb : CircuitBreaker) : bool * CircuitBreaker :=
  match cb_state cb with
  | CircuitClosed => (true, cb)
  | CircuitOpen =>
      if (openDuration cb <=? Since now (lastFailure cb))%Z
      then (true, set_cb_state CircuitHalfOpen cb)
      else (false, cb)
  | CircuitHalfOpen => (false, cb)
  end.

Definition RecordSuccess (cb : CircuitBreaker) : CircuitBreaker :=
  mkBreaker CircuitClosed 0 (failureThreshold cb) (lastFailure cb) (openDuration cb).

Definition RecordFailure (now : time) (cb : CircuitBreaker) : CircuitBreaker :=
  let n := (failures cb + 1)%Z in
  mkBreaker (if (failureThreshold cb <=? n)%Z then CircuitOpen else cb_state cb)
    n (failureThreshold cb) now (openDuration cb).

Definition StatusBadGateway : Z := 502.
Definition StatusServiceUnavailable : Z := 503.
Definition StatusGatewayTimeout : Z := 504.

Definition IsResponseFailure (statusCode : Z) : bool :=
  (statusCode =? StatusBadGateway)%Z || (statusCode =? StatusServiceUnavailable)%Z
  || (statusCode =? StatusGatewayTimeout)%Z.

(** ** The registry *)

Abbreviation registry := (gmap string CircuitBreaker) (only parsing).

(** [Get] creates the breaker of an unknown target. *)
Definition Get (target : string) (r : registry) : CircuitBreaker * registry :=
  match r !! target with
  | Some cb => (cb, r)
  | None => (NewCircuitBreaker, <[target := NewCircuitBreaker]> r)
  end.

(** [r.Get(target).Allow()], and a record on the breaker of a target. *)
Definition AllowTarget (now : time) (target : string) (r : registry) : bool * registry :=
  let (cb, r) := Get target r in
  let (ok, cb) := Allow now cb in
  (ok, <[target := cb]> r).

Definition UpdateTarget (f : CircuitBreaker → CircuitBreaker) (target : string) (r : registry) : registry :=
  alter f target r.

(** The answer of [httpClient.Do]: a transport error or a status code. *)
Inductive response := DoError | Status (code : Z).

Definition response_failed (rsp : response) : bool :=
  match rsp with
  | DoError => true
  | Status code => IsResponseFailure code
  end.

(** What the proxies record on the breaker when the answer is there. *)
Definition record_response (now : time) (rsp : response) (target : string) (r : registry) : registry :=
  UpdateTarget (if response_failed rsp then RecordFailure now else RecordSuccess) target r.

(** ** Invariant of a breaker *)

Definition breaker_wf (cb : CircuitBreaker) : Prop :=
  (0 ≤ failures cb)%Z ∧ (0 < failureThreshold cb)%Z ∧
  (cb_state cb = CircuitClosed ↔ (failures cb < failureThreshold cb)%Z).

Inductive breaker_op := OpAllow (now : time) | OpSuccess | OpFailure (now : time).

Definition run_op (op : breaker_op) (cb : CircuitBreaker) : CircuitBreaker :=
  match op with
  | OpAllow now => (Allow now cb).2
  | OpSuccess => RecordSuccess cb
  | OpFailure now => RecordFailure now cb
  end.

Lemma breaker_wf_new : breaker_wf NewCircuitBreaker.
Proof. repeat split; simpl; try lia; done. Qed.

Lemma Allow_cases now cb :
  Allow now cb =
  match cb_state cb with
  | CircuitClosed => (true, cb)
  | CircuitOpen =>
      if decide (openDuration cb ≤ now - lastFailure cb)%Z
      then (true, set_cb_state CircuitHalfOpen cb) else (false, cb)
  | CircuitHalfOpen => (false, cb)
  end.
Proof.
  unfold Allow, Since. destruct (cb_state cb); try done.
  destruct (Z.leb_spec (openDuration cb) (now - lastFailure cb)); case_decide; done || lia.
Qed.

Lemma run_op_wf op cb : breaker_wf cb → breaker_wf (run_op op cb).
Proof.
  intros Hwf. pose proof Hwf as (H0 & Ht & Hs). destruct op as [now | | now]; cbn [run_op].
  - rewrite Allow_cases.
    destruct (cb_state cb) eqn:Hst; [exact Hwf | case_decide; [| exact Hwf] | exact Hwf].
    split; [done |]. split; [done |]. cbn. split; [done |]. intros Hlt.
    apply Hs in Hlt. congruence.
  - repeat split; simpl; auto with lia.
  - split; [simpl; lia |]. split; [done |]. cbn.
    destruct (Z.leb_spec (failureThreshold cb) (failures cb + 1)); [split; [done | lia] |].
    rewrite Hs. lia.
Qed.

(** ** Properties of a breaker *)

Fixpoint allow_all (times : list time) (cb : CircuitBreaker) : list bool * CircuitBreaker :=
  match times with
  | [] => ([], cb)
  | t :: ts =>
      let (b, cb) := Allow t cb in
      let (bs, cb) := allow_all ts cb in
      (b :: bs, cb)
  end.

Lemma allow_all_half_open times cb :
  cb_state cb = CircuitHalfOpen → allow_all times cb = (replicate (length times) false, cb).
Proof.
  intros H. induction times as [| t ts IH]; [done |]. cbn.
  rewrite Allow_cases, H, IH. done.
Qed.

Lemma allow_all_open times cb :
  cb_state cb = CircuitOpen →
  length (filter (λ b, b = true) (allow_all times cb).1) ≤ 1 ∧
  (Forall (λ t, (t < lastFailure cb + openDuration cb)%Z) times →
   (allow_all times cb).1 = replicate (length times) false).
Proof.
  intros H. induction times as [| t ts IH]; [split; [apply Nat.le_0_l | done] |]. cbn [allow_all].
  rewrite Allow_cases, H. case_decide as Hd.
  - rewrite allow_all_half_open by done. cbn [fst]. split.
    + rewrite filter_cons_True by done. cbn.
      assert (filter (λ b, b = true) (replicate (length ts) false) = []) as ->; [| done].
      clear. induction ts; done.
    + intros Hall. inversion Hall; lia.
  - destruct (allow_all ts cb) as [bs cb'] eqn:E. cbn [fst] in *. destruct IH as [IH1 IH2].
    split.
    + by rewrite filter_cons_False.
    + intros Hall. inversion Hall; subst. cbn. by rewrite IH2.
Qed.

(** Every sequence of operations keeps the breaker closed exactly while
    it has counted fewer failures in a row than its threshold; an open one
    refuses every request until its open duration is over and then lets one
    probe through, however many requests come before the next record. *)
Theorem breaker_correct (ops : list breaker_op) (times : list time) :
  let cb := foldl (λ cb op, run_op op cb) NewCircuitBreaker ops in
  breaker_wf cb ∧
  (cb_state cb = CircuitClosed → allow_all times cb = (replicate (length times) true, cb)) ∧
  (cb_state cb = CircuitOpen →
   length (filter (λ b, b = true) (allow_all times cb).1) ≤ 1 ∧
   (Forall (λ t, (t < lastFailure cb + openDuration cb)%Z) times →
    (allow_all times cb).1 = replicate (length times) false)).
Proof.
  intros cb. split; [| split].
  - unfold cb. generalize breaker_wf_new. generalize NewCircuitBreaker.
    induction ops as [| op ops IH]; intros cb0 H; [done |]. apply IH. by apply run_op_wf.
  - intros H. induction times as [| t ts IH]; [done |]. cbn. by rewrite Allow_cases, H, IH.
  - apply allow_all_open.
Qed.

(** ** The namespace gateway proxy *)

Record gatewayTarget := mkTarget { ip : string; port : Z }.

#[export] Instance gatewayTarget_eq_dec : EqDecision gatewayTarget.
Proof. solve_decision. Defined.

(** The order of [sort.Slice]: by address, then by port. *)
Definition target_le (a b : gatewayTarget) : Prop :=
  if decide (ip a = ip b) then (port a ≤ port b)%Z else String.le (ip a) (ip b).

#[export] Instance target_le_dec : RelDecision target_le.
Proof. intros a b. unfold target_le. case_decide; apply _. Defined.

Definition sort_targets (targets : list gatewayTarget) : list gatewayTarget :=
  merge_sort target_le targets.

(** [fnv.New32a] over the bytes of a string. *)
Fixpoint fnv32a_from (h : Z) (s : string) : Z :=
  match s with
  | EmptyString => h
  | String c s' =>
      fnv32a_from (Z.lxor h (Z.of_N (N_of_ascii c)) * 16777619 mod 2 ^ 32)%Z s'
  end.

Definition fnv32a (s : string) : Z := fnv32a_from 2166136261 s.

(** The key of the consistent hash: the API key, else the Authorization
    header, else the client's address. *)
Definition affinityKey (namespaceName apiKey authz clientIP : string) : string :=
  if negb (String.eqb apiKey EmptyString) then namespaceName +:+ "|" +:+ apiKey
  else if negb (String.eqb (TrimSpace authz) EmptyString)
  then namespaceName +:+ "|" +:+ TrimSpace authz
  else namespaceName +:+ "|" +:+ clientIP.

Definition localIdx (localIP : string) (targets : list gatewayTarget) : option nat :=
  if String.eqb localIP EmptyString then None
  else fst <$> list_find (λ t, ip t = localIP) targets.

Definition hashIdx (key : string) (targets : list gatewayTarget) : nat :=
  Z.to_nat (fnv32a key mod Z.of_nat (length targets)).

(** The positions in the order they are tried: the local gateway, the hashed
    one, then the rest. *)
Definition order_indices (local : option nat) (hashed n : nat) : list nat :=
  (match local with Some i => [i] | None => [] end)
  ++ (if bool_decide (local = Some hashed) then [] else [hashed])
  ++ filter (λ k, local ≠ Some k ∧ k ≠ hashed) (seq 0 n).

Definition order_targets (localIP key : string) (targets : list gatewayTarget) : list gatewayTarget :=
  let targets := sort_targets targets in
  omap (λ k, targets !! k)
    (order_indices (localIdx localIP targets) (hashIdx key targets) (length targets)).

Definition nsKey (t : gatewayTarget) : string := "ns:" +:+ ip t.

(** The first target in order whose breaker lets the request through. *)
Fixpoint select (now : time) (targets : list gatewayTarget) (r : registry)
    : option gatewayTarget * registry :=
  match targets with
  | [] => (None, r)
  | t :: ts =>
      let (ok, r) := AllowTarget now (nsKey t) r in
      if ok then (Some t, r) else select now ts r
  end.

(** ** The target order *)

#[export] Instance target_le_total : Total target_le.
Proof.
  intros a b. unfold target_le. repeat case_decide; try congruence; [lia |].
  apply (total String.le).
Qed.

Lemma sort_targets_perm l : sort_targets l ≡ₚ l.
Proof. apply merge_sort_Permutation. Qed.

Lemma order_indices_perm local hashed n :
  (∀ i, local = Some i → i < n) → hashed < n →
  order_indices local hashed n ≡ₚ seq 0 n.
Proof.
  intros Hl Hh. apply NoDup_Permutation.
  - unfold order_indices. apply NoDup_app. split; [destruct local; repeat constructor; set_solver |].
    split.
    + intros x Hx. rewrite elem_of_app, list_elem_of_filter.
      destruct local as [i |]; [| by apply not_elem_of_nil in Hx].
      apply list_elem_of_singleton in Hx as ->. case_bool_decide; set_solver.
    + apply NoDup_app. split; [case_bool_decide; repeat constructor; set_solver |]. split.
      * intros x Hx. rewrite list_elem_of_filter. case_bool_decide; set_solver.
      * apply NoDup_filter, NoDup_seq.
  - apply NoDup_seq.
  - intros x. unfold order_indices. rewrite !elem_of_app, list_elem_of_filter, !elem_of_seq.
    destruct local as [i |]; case_bool_decide as Hb; simplify_eq;
      rewrite ?list_elem_of_singleton, ?elem_of_nil.
    all: try specialize (Hl _ eq_refl).
    all: destruct (decide (x = hashed)); try (destruct (decide (x = i))); subst; naive_solver lia.
Qed.

Lemma omap_seq_lookup {A} (l : list A) : omap (λ k, l !! k) (seq 0 (length l)) = l.
Proof.
  induction l as [| x l IH] using rev_ind; [done |].
  rewrite length_app, Nat.add_1_r, seq_S, omap_app. f_equal.
  - rewrite <- IH at 2. apply list_omap_ext.
    apply Forall2_same_length_lookup_2; [done |]. intros i a b Ha Hb. simplify_eq.
    apply lookup_seq in Ha as [-> Hi]. by rewrite lookup_app_l.
  - cbn. by rewrite list_lookup_middle.
Qed.

Lemma order_targets_perm localIP key targets :
  targets ≠ [] → order_targets localIP key targets ≡ₚ targets.
Proof.
  intros Hne. unfold order_targets. set (l := sort_targets targets).
  assert (l ≡ₚ targets) as Hl by apply sort_targets_perm.
  assert (0 < length l) as Hlen.
  { rewrite Hl. destruct targets; [done | simpl; lia]. }
  rewrite order_indices_perm.
  - by rewrite omap_seq_lookup.
  - unfold localIdx. destruct (String.eqb _ _); [done |]. intros i Hi.
    apply fmap_Some in Hi as ([j t] & Hf & ->). apply list_find_Some in Hf as (Hf & _).
    by eapply lookup_lt_Some.
  - unfold hashIdx. pose proof (Z.mod_pos_bound (fnv32a key) (Z.of_nat (length l)) ltac:(lia)). lia.
Qed.

(** ** Selection *)

Definition refuses (now : time) (key : string) (r : registry) : Prop :=
  (AllowTarget now key r).1 = false.

(** A refusal comes from a breaker that exists and leaves everything as it is. *)
Lemma refuses_same now key r : refuses now key r → AllowTarget now key r = (false, r).
Proof.
  unfold refuses, AllowTarget, Get. destruct (r !! key) as [cb |] eqn:Hk; [| done].
  rewrite Allow_cases. destruct (cb_state cb); [done | case_decide; [done |] |]; intros _;
    by rewrite insert_id.
Qed.

Lemma AllowTarget_other now key r k :
  k ≠ key → (AllowTarget now key r).2 !! k = r !! k.
Proof.
  intros Hne. unfold AllowTarget, Get. destruct (r !! key); destruct (Allow _ _);
    cbn [snd]; by rewrite !lookup_insert_ne.
Qed.

Lemma AllowTarget_self now key r :
  (AllowTarget now key r).2 !! key = Some (Allow now (default NewCircuitBreaker (r !! key))).2.
Proof.
  unfold AllowTarget, Get. destruct (r !! key) as [cb |]; cbn [default];
    destruct (Allow now _); cbn [snd]; by rewrite lookup_insert_eq.
Qed.

Lemma select_spec now ts r :
  match select now ts r with
  | (Some t, r') => ∃ pre post, ts = pre ++ t :: post ∧
      Forall (λ u, refuses now (nsKey u) r) pre ∧ AllowTarget now (nsKey t) r = (true, r')
  | (None, r') => r' = r ∧ Forall (λ u, refuses now (nsKey u) r) ts
  end.
Proof.
  induction ts as [| t ts IH]; [by split |]. cbn [select].
  destruct (AllowTarget now (nsKey t) r) as [[] r1] eqn:Ha.
  - exists [], ts. split; [done |]. by split.
  - assert (refuses now (nsKey t) r) as Href by (unfold refuses; by rewrite Ha).
    rewrite (refuses_same _ _ _ Href) in Ha. injection Ha as <-.
    destruct (select now ts r) as [[u |] r'].
    + destruct IH as (pre & post & -> & Hpre & Hu). exists (t :: pre), post. auto.
    + destruct IH as [-> Hall]. auto.
Qed.

(** The namespace proxy tries every target of the namespace exactly once,
    takes the first one in its order whose breaker lets the request through,
    and gives up only when the breakers of all targets refuse; refused
    targets keep the state of their breakers. *)
Theorem namespace_failover localIP key targets now r :
  targets ≠ [] →
  order_targets localIP key targets ≡ₚ targets ∧
  match select now (order_targets localIP key targets) r with
  | (Some t, r') => ∃ pre post, order_targets localIP key targets = pre ++ t :: post ∧
      Forall (λ u, refuses now (nsKey u) r) pre ∧ AllowTarget now (nsKey t) r = (true, r')
  | (None, r') => r' = r ∧ Forall (λ u, refuses now (nsKey u) r) targets
  end.
Proof.
  intros Hne. pose proof (order_targets_perm localIP key targets Hne) as Hp. split; [done |].
  pose proof (select_spec now (order_targets localIP key targets) r) as H.
  destruct (select _ _ _) as [[t |] r']; [done |]. destruct H as [-> Hall]. split; [done |].
  by rewrite Hp in Hall.
Qed.

Lemma namespace_failover_witness :
  let targets := [mkTarget "10.0.0.2" 10004; mkTarget "10.0.0.1" 10004] in
  order_targets "10.0.0.1" "ns|key" targets ≡ₚ targets ∧
  select 0 (order_targets "10.0.0.1" "ns|key" targets) ∅
  = (Some (mkTarget "10.0.0.1" 10004), <["ns:10.0.0.1" := NewCircuitBreaker]> ∅).
Proof.
  intros targets. split.
  - apply (namespace_failover "10.0.0.1" "ns|key" targets 0 ∅). done.
  - vm_compute. reflexivity.
Defined.

(** ** Requests in flight

    The gateway serves requests concurrently: a state is the registry and the
    targets of the requests whose answer is outstanding.  [probes_ws] says
    whether the upgrade path, which forwards the connection and returns
    without a record, may take the request that was let through. *)

Record proxy_state := mkProxy { reg : registry; inflight : list string }.

Definition proxy_init : proxy_state := mkProxy ∅ [].

Inductive proxy_step (probes_ws : bool) : proxy_state → proxy_state → Prop :=
| step_refused now ts r' s :
    select now ts (reg s) = (None, r') →
    proxy_step probes_ws s (mkProxy r' (inflight s))
| step_http now ts t r' s :
    select now ts (reg s) = (Some t, r') →
    proxy_step probes_ws s (mkProxy r' (nsKey t :: inflight s))
| step_websocket now ts t r' s :
    probes_ws = true → select now ts (reg s) = (Some t, r') →
    proxy_step probes_ws s (mkProxy r' (inflight s))
| step_answer now rsp k pre post s :
    inflight s = pre ++ k :: post →
    proxy_step probes_ws s (mkProxy (record_response now rsp k (reg s)) (pre ++ post)).

Definition proxy_wf (s : proxy_state) : Prop :=
  map_Forall (λ _ cb, breaker_wf cb) (reg s).

Lemma AllowTarget_wf now key r :
  map_Forall (λ _ cb, breaker_wf cb) r →
  map_Forall (λ _ cb, breaker_wf cb) (AllowTarget now key r).2.
Proof.
  intros Hr k cb Hk. destruct (decide (k = key)) as [-> | Hne].
  - rewrite AllowTarget_self in Hk. injection Hk as <-.
    apply (run_op_wf (OpAllow now)). destruct (r !! key) eqn:E; [by eapply Hr | apply breaker_wf_new].
  - rewrite AllowTarget_other in Hk by done. by eapply Hr.
Qed.

Lemma record_response_lookup now rsp k r :
  record_response now rsp k r !! k
  = (if response_failed rsp then RecordFailure now else RecordSuccess) <$> r !! k.
Proof. unfold record_response, UpdateTarget. by rewrite lookup_alter_eq. Qed.

Lemma record_response_other now rsp k r k' :
  k' ≠ k → record_response now rsp k r !! k' = r !! k'.
Proof. intros. unfold record_response, UpdateTarget. by rewrite lookup_alter_ne. Qed.

Lemma record_response_wf now rsp k r :
  map_Forall (λ _ cb, breaker_wf cb) r →
  map_Forall (λ _ cb, breaker_wf cb) (record_response now rsp k r).
Proof.
  intros Hr k' cb Hk. destruct (decide (k' = k)) as [-> | Hne].
  - rewrite record_response_lookup in Hk. apply fmap_Some in Hk as (cb0 & Hcb0 & ->).
    destruct (response_failed rsp);
      [apply (run_op_wf (OpFailure now)) | apply (run_op_wf OpSuccess)]; by eapply Hr.
  - rewrite record_response_other in Hk by done. by eapply Hr.
Qed.

(** A record always takes the breaker out of the half-open state. *)
Lemma record_leaves_half_open now rsp cb :
  breaker_wf cb →
  cb_state ((if response_failed rsp then RecordFailure now else RecordSuccess) cb) ≠ CircuitHalfOpen.
Proof.
  intros (H0 & Ht & Hs). destruct (response_failed rsp); [| done]. cbn.
  destruct (Z.leb_spec (failureThreshold cb) (failures cb + 1)); [done |].
  intros E. rewrite E in Hs. assert (CircuitHalfOpen = CircuitClosed) by (apply Hs; lia). done.
Qed.

Lemma select_reg now ts r t r' :
  select now ts r = (t, r') →
  match t with
  | Some t => (AllowTarget now (nsKey t) r) = (true, r')
  | None => r' = r
  end.
Proof.
  intros H. pose proof (select_spec now ts r) as Hs. rewrite H in Hs.
  destruct t; [destruct Hs as (? & ? & _ & _ & Hs); done | by destruct Hs].
Qed.

Definition probe_in_flight (s : proxy_state) : Prop :=
  ∀ k cb, reg s !! k = Some cb → cb_state cb = CircuitHalfOpen → k ∈ inflight s.

Lemma proxy_step_inv s s' :
  proxy_wf s ∧ probe_in_flight s → proxy_step false s s' → proxy_wf s' ∧ probe_in_flight s'.
Proof.
  intros [Hwf Hp] Hstep.
  inversion Hstep as [now ts r' ? Hsel | now ts t r' ? Hsel | | now rsp k pre post ? Hin];
    subst; [| | done |].
  - apply select_reg in Hsel as ->. done.
  - apply select_reg in Hsel. assert (r' = (AllowTarget now (nsKey t) (reg s)).2) as -> by (by rewrite Hsel).
    split; [by apply AllowTarget_wf |]. intros k cb Hk Hh. cbn in Hk |- *.
    destruct (decide (k = nsKey t)) as [-> | Hne]; [left |].
    rewrite AllowTarget_other in Hk by done. right. by eapply Hp.
  - split; [by apply record_response_wf |]. intros k' cb Hk Hh. cbn in Hk |- *.
    destruct (decide (k' = k)) as [-> | Hne].
    + rewrite record_response_lookup in Hk. apply fmap_Some in Hk as (cb0 & Hcb0 & ->).
      destruct (record_leaves_half_open now rsp cb0); [by eapply Hwf | done].
    + rewrite record_response_other in Hk by done. specialize (Hp _ _ Hk Hh). rewrite Hin in Hp.
      set_solver.
Qed.

(** As long as no connection upgrade is the request that a breaker lets
    through, a half-open breaker always has its probe in flight, as the code
    relies on when it refuses everything else. *)
Theorem half_open_has_probe s :
  rtc (proxy_step false) proxy_init s → probe_in_flight s.
Proof.
  intros H. apply (invariant_rtc (proxy_step false) (λ s, proxy_wf s ∧ probe_in_flight s))
    with (s := proxy_init); [apply proxy_step_inv | done |].
  split; [apply map_Forall_empty |]. intros k cb Hk. cbn in Hk. by rewrite lookup_empty in Hk.
Qed.

(** The states of a failing target: five failed requests one after another. *)
Definition one_target : gatewayTarget := mkTarget "10.0.0.1" 10004.

Definition after_failures (n : nat) : registry :=
  Nat.iter n (λ r, record_response Second DoError "ns:10.0.0.1"
                     (select 0 [one_target] r).2) ∅.

Lemma after_failures_reachable ws n :
  n ≤ 5 → rtc (proxy_step ws) proxy_init (mkProxy (after_failures n) []).
Proof.
  induction n as [| n IH]; intros Hn; [done |].
  transitivity (mkProxy (after_failures n) []); [apply IH; lia |].
  eapply rtc_l.
  - apply (step_http ws 0 [one_target] one_target (select 0 [one_target] (after_failures n)).2).
    do 5 (destruct n as [| n]; [vm_compute; reflexivity |]). lia.
  - apply rtc_once. apply (step_answer ws Second DoError "ns:10.0.0.1" [] []). done.
Qed.

Lemma half_open_has_probe_witness :
  ∃ r, rtc (proxy_step false) proxy_init (mkProxy r ["ns:10.0.0.1"]) ∧
       cb_state <$> r !! "ns:10.0.0.1" = Some CircuitHalfOpen ∧
       probe_in_flight (mkProxy r ["ns:10.0.0.1"]).
Proof.
  assert (rtc (proxy_step false) proxy_init
    (mkProxy (select (60 * Second) [one_target] (after_failures 5)).2 ["ns:10.0.0.1"])) as H.
  { eapply rtc_r; [exact (after_failures_reachable false 5 (le_n 5)) |].
    apply (step_http false (60 * Second) [one_target] one_target). vm_compute. reflexivity. }
  eexists. split; [exact H |]. split; [vm_compute; reflexivity |].
  exact (half_open_has_probe _ H).
Defined.

(** A half-open breaker without a request in flight never changes again. *)
Definition stuck (k : string) (s : proxy_state) : Prop :=
  (∃ cb, reg s !! k = Some cb ∧ cb_state cb = CircuitHalfOpen) ∧ k ∉ inflight s.

Lemma stuck_refuses k s now : stuck k s → refuses now k (reg s).
Proof.
  intros [(cb & Hk & Hh) _]. unfold refuses, AllowTarget, Get. rewrite Hk, Allow_cases, Hh. done.
Qed.

Lemma stuck_select k s now ts t r' :
  stuck k s → select now ts (reg s) = (Some t, r') → nsKey t ≠ k ∧ r' !! k = reg s !! k.
Proof.
  intros Hst Hsel. apply select_reg in Hsel.
  assert (nsKey t ≠ k) as Hne.
  { intros <-. apply (stuck_refuses _ _ now) in Hst. unfold refuses in Hst. by rewrite Hsel in Hst. }
  split; [done |]. assert (r' = (AllowTarget now (nsKey t) (reg s)).2) as -> by (by rewrite Hsel).
  by apply AllowTarget_other.
Qed.

Lemma stuck_step ws k s s' : stuck k s → proxy_step ws s s' → stuck k s'.
Proof.
  intros Hst Hstep. pose proof Hst as [(cb & Hk & Hh) Hnot].
  inversion Hstep as [now ts r' ? Hsel | now ts t r' ? Hsel | now ts t r' ? _ Hsel
                     | now rsp k' pre post ? Hin]; subst.
  - apply select_reg in Hsel as ->. done.
  - destruct (stuck_select _ _ _ _ _ _ Hst Hsel) as [Hne Hr]. split; [| set_solver].
    exists cb. cbn. by rewrite Hr.
  - destruct (stuck_select _ _ _ _ _ _ Hst Hsel) as [Hne Hr]. split; [| done].
    exists cb. cbn. by rewrite Hr.
  - rewrite Hin in Hnot. split; [| set_solver]. exists cb. cbn.
    rewrite record_response_other; [done |]. set_solver.
Qed.

(** When a connection upgrade is the request an open breaker lets through,
    nothing records its outcome: the target is refused from then on, at every
    instant and whatever else happens, and the state is reached after five
    failures. *)
Theorem websocket_probe_sticks :
  ∃ s, rtc (proxy_step true) proxy_init s ∧
       ∀ s', rtc (proxy_step true) s s' → ∀ now, refuses now "ns:10.0.0.1" (reg s').
Proof.
  exists (mkProxy (select (60 * Second) [one_target] (after_failures 5)).2 []). split.
  - eapply rtc_r; [exact (after_failures_reachable true 5 (le_n 5)) |].
    apply (step_websocket true (60 * Second) [one_target] one_target); [done |].
    vm_compute. reflexivity.
  - intros s' Hs' now. apply stuck_refuses.
    apply (invariant_rtc (proxy_step true) (stuck "ns:10.0.0.1")) with (2 := Hs').
    + intros s1 s2. apply stuck_step.
    + split; [| apply not_elem_of_nil]. eexists. split; vm_compute; reflexivity.
Qed.

(** ** The cross-node proxy *)

(** What one attempt meets: the outcome of the upgrade path when the request
    is a connection upgrade, whether the outgoing request could be built, the
    clock at [Allow] and at the record, and the answer. *)
Record attempt := mkAttempt {
  att_upgrade : option bool;
  att_request_ok : bool;
  att_allow_at : time;
  att_record_at : time;
  att_answer : response
}.

Definition nodeKey (nodeIP : string) : string := "node:" +:+ nodeIP.

Definition proxyCrossNodeToIP (nodeIP : string) (a : attempt) (r : registry) : bool * registry :=
  match att_upgrade a with
  | Some ok => (ok, r)
  | None =>
      if negb (att_request_ok a) then (false, r)
      else
        let (allowed, r) := AllowTarget (att_allow_at a) (nodeKey nodeIP) r in
        if negb allowed then (false, r)
        else (negb (response_failed (att_answer a)),
              record_response (att_record_at a) (att_answer a) (nodeKey nodeIP) r)
  end.

(** [proxyCrossNode]: the home node only; an answer with a gateway error is
    recorded and still handed to the client. *)
Definition proxyCrossNode (homeIP : option string) (a : attempt) (r : registry) : bool * registry :=
  match homeIP with
  | None => (false, r)
  | Some ip =>
      if String.eqb ip EmptyString then (false, r)
      else match att_upgrade a with
           | Some ok => (ok, r)
           | None =>
               if negb (att_request_ok a) then (false, r)
               else
                 let (allowed, r) := AllowTarget (att_allow_at a) (nodeKey ip) r in
                 if negb allowed then (false, r)
                 else (match att_answer a with DoError => false | Status _ => true end,
                       record_response (att_record_at a) (att_answer a) (nodeKey ip) r)
           end
  end.

(** A replica as the loop meets it: its id, its address when the lookup
    succeeds, and the attempt. *)
Record replica := mkReplica { rep_node : string; rep_ip : option string; rep_attempt : attempt }.

Fixpoint try_replicas (self : string) (replicas : list replica) (r : registry) : bool * registry :=
  match replicas with
  | [] => (false, r)
  | rep :: rest =>
      if String.eqb (rep_node rep) self then try_replicas self rest r
      else match rep_ip rep with
           | None => try_replicas self rest r
           | Some ip =>
               let (ok, r) := proxyCrossNodeToIP ip (rep_attempt rep) r in
               if ok then (true, r) else try_replicas self rest r
           end
  end.

(** [GetActiveReplicaNodes] fails or is empty: the home node is tried. *)
Definition proxyCrossNodeWithReplicas (self : string) (replicas : option (list replica))
    (homeIP : option string) (home : attempt) (r : registry) : bool * registry :=
  match replicas with
  | None | Some [] => proxyCrossNode homeIP home r
  | Some reps => try_replicas self reps r
  end.

Definition no_half_open (r : registry) : Prop :=
  map_Forall (λ _ cb, breaker_wf cb ∧ cb_state cb ≠ CircuitHalfOpen) r.

Lemma no_half_open_attempt now now' rsp key r r1 b :
  no_half_open r → AllowTarget now key r = (b, r1) →
  if b then no_half_open (record_response now' rsp key r1) else no_half_open r1.
Proof.
  intros Hr Ha. assert (map_Forall (λ _ cb, breaker_wf cb) r) as Hwf.
  { intros k cb Hk. apply (Hr k cb Hk). }
  destruct b.
  - assert (r1 = (AllowTarget now key r).2) as -> by (by rewrite Ha).
    intros k cb Hk. split.
    { eapply record_response_wf; [| exact Hk]. by apply AllowTarget_wf. }
    destruct (decide (k = key)) as [-> | Hne].
    + rewrite record_response_lookup in Hk. apply fmap_Some in Hk as (cb0 & Hcb0 & ->).
      apply record_leaves_half_open. eapply (AllowTarget_wf now key r Hwf). exact Hcb0.
    + rewrite record_response_other, AllowTarget_other in Hk by done. by eapply Hr.
  - assert (refuses now key r) as Href by (unfold refuses; by rewrite Ha).
    rewrite (refuses_same _ _ _ Href) in Ha. by injection Ha as <-.
Qed.

Lemma proxyCrossNodeToIP_no_half_open nodeIP a r :
  no_half_open r → no_half_open (proxyCrossNodeToIP nodeIP a r).2.
Proof.
  intros Hr. unfold proxyCrossNodeToIP. destruct (att_upgrade a); [done |].
  destruct (negb (att_request_ok a)); [done |].
  destruct (AllowTarget _ _ r) as [[] r1] eqn:Ha; cbn [negb snd];
    eapply (no_half_open_attempt _ (att_record_at a) (att_answer a) _ _ _ _ Hr Ha).
Qed.

Lemma proxyCrossNode_no_half_open homeIP a r :
  no_half_open r → no_half_open (proxyCrossNode homeIP a r).2.
Proof.
  intros Hr. unfold proxyCrossNode. destruct homeIP as [ip' |]; [| done].
  destruct (String.eqb ip' EmptyString); [done |]. destruct (att_upgrade a); [done |].
  destruct (negb (att_request_ok a)); [done |].
  destruct (AllowTarget _ _ r) as [[] r1] eqn:Ha; cbn [negb snd];
    eapply (no_half_open_attempt _ (att_record_at a) (att_answer a) _ _ _ _ Hr Ha).
Qed.

Lemma try_replicas_no_half_open self reps r :
  no_half_open r → no_half_open (try_replicas self reps r).2.
Proof.
  revert r. induction reps as [| rep reps IH]; intros r Hr; [done |]. cbn [try_replicas].
  destruct (String.eqb _ _); [auto |]. destruct (rep_ip rep) as [ip' |]; [| auto].
  pose proof (proxyCrossNodeToIP_no_half_open ip' (rep_attempt rep) r Hr) as H.
  destruct (proxyCrossNodeToIP _ _ _) as [[] r1]; [done | auto].
Qed.

(** A replica that served the request. *)
Definition served_by (self : string) (rep : replica) : Prop :=
  rep_node rep ≠ self ∧ is_Some (rep_ip rep) ∧
  (att_upgrade (rep_attempt rep) = Some true ∨
   att_upgrade (rep_attempt rep) = None ∧ response_failed (att_answer (rep_attempt rep)) = false).

Lemma try_replicas_true self reps r :
  (try_replicas self reps r).1 = true → Exists (served_by self) reps.
Proof.
  revert r. induction reps as [| rep reps IH]; intros r; [done |]. cbn [try_replicas].
  destruct (String.eqb_spec (rep_node rep) self) as [E | Hne]; [right; eauto |].
  destruct (rep_ip rep) as [ip' |] eqn:Hip; [| right; eauto].
  destruct (proxyCrossNodeToIP ip' (rep_attempt rep) r) as [[] r1] eqn:Hp; [| right; eauto].
  intros _. left. split; [done |]. split; [by rewrite Hip |].
  unfold proxyCrossNodeToIP in Hp. destruct (att_upgrade (rep_attempt rep)) as [ok |].
  - left. congruence.
  - right. split; [done |]. repeat split_match_in Hp; simplify_eq.
    by apply negb_true_iff.
Qed.

(** The cross-node proxy never leaves a probe behind: run to its end, it
    leaves no breaker half-open, and with replicas it reports success only
    for the answer of a node other than this one that is no gateway error. *)
Theorem cross_node_proxy self replicas homeIP home r :
  no_half_open r →
  no_half_open (proxyCrossNodeWithReplicas self replicas homeIP home r).2 ∧
  (∀ reps, replicas = Some reps → reps ≠ [] →
   (proxyCrossNodeWithReplicas self replicas homeIP home r).1 = true →
   Exists (served_by self) reps).
Proof.
  intros Hr. split.
  - unfold proxyCrossNodeWithReplicas. destruct replicas as [[| rep reps] |];
      [by apply proxyCrossNode_no_half_open | by apply try_replicas_no_half_open
      | by apply proxyCrossNode_no_half_open].
  - intros reps -> Hne. destruct reps as [| rep reps]; [done |]. apply try_replicas_true.
Qed.

Lemma cross_node_proxy_witness :
  no_half_open (proxyCrossNodeWithReplicas "self"
    (Some [mkReplica "self" (Some "10.0.0.9") (mkAttempt None true 0 1 DoError);
           mkReplica "n2" (Some "10.0.0.2") (mkAttempt None true 0 1 (Status 503));
           mkReplica "n3" (Some "10.0.0.3") (mkAttempt None true 2 3 (Status 200))])
    None (mkAttempt None true 0 0 DoError) ∅).2.
Proof.
  apply cross_node_proxy. unfold no_half_open. apply map_Forall_empty.
Defined.
