(* ===== verification/Scopes.v ===== *)
(** * API-key scope grants ([core/pkg/gateway/auth/scopes.go])

    Sets of grants, their stored form and the validation of requested grants.
    A [ScopeSet] is a Go map used as a set of strings. *)

From Stdlib Require Import ZArith Lia Ascii String.
From stdpp Require Import base tactics numbers list gmap strings sorting sets.
From S2P Require Import Prelude GoStrings.

(** ** Grants *)

Definition ScopeAdmin : string := "admin".
Definition ScopeInvoke : string := "invoke".
Definition ScopeStorage : string := "storage".
Definition ScopePush : string := "push".
Definition ScopeWebRTC : string := "webrtc".
Definition ScopeProxy : string := "proxy".
Definition ScopePubsub : string := "pubsub".
Definition ScopeCache : string := "cache".

Definition knownGrants : list string :=
  [ScopeAdmin; ScopeInvoke; ScopeStorage; ScopePush; ScopeWebRTC; ScopeProxy; ScopeCache].

Abbreviation ScopeSet := (gset string) (only parsing).

(** ** Operations *)

Definition Has (s : ScopeSet) (required : string) : bool :=
  if String.eqb required EmptyString then true
  else if bool_decide (ScopeAdmin ∈ s) then true
  else bool_decide (required ∈ s).

Definition IsAdmin (s : ScopeSet) : bool := bool_decide (ScopeAdmin ∈ s).

Definition Canonical (s : ScopeSet) : string :=
  if size s =? 0 then EmptyString else Join (SortStrings (elements s)) ",".

Section Parsing.
Context `{UnicodeCase}.

(** The grants of the parts of a list, blanks dropped. *)
Definition parse_part (part : string) : string := ToLower (TrimSpace part).

Definition add_part (set : ScopeSet) (part : string) : ScopeSet :=
  let g := parse_part part in
  if negb (String.eqb g EmptyString) then set ∪ {[g]} else set.

Definition ParseScopes (raw : string) : ScopeSet := foldl add_part ∅ (Split raw ",").

Definition ScopesFromStored (raw : string) : ScopeSet :=
  if String.eqb (TrimSpace raw) EmptyString then {[ScopeAdmin]} else ParseScopes raw.

Definition DataPlaneScopes : ScopeSet :=
  {[ScopeInvoke; ScopeStorage; ScopePush; ScopeWebRTC; ScopeProxy; ScopePubsub; ScopeCache]}.

Definition ProfileGrants (profile : string) : option (list string) :=
  let p := parse_part profile in
  if String.eqb p "admin" then Some [ScopeAdmin]
  else if String.eqb p "app-runtime" || String.eqb p "runtime" || String.eqb p "app"
  then Some [ScopeInvoke; ScopeStorage; ScopePush; ScopeWebRTC; ScopeProxy]
  else if String.eqb p "invoke-only" || String.eqb p "invoke" then Some [ScopeInvoke]
  else None.

Definition setOf (grants : list string) : ScopeSet := list_to_set grants.

Inductive GrantError :=
| ErrScopeRequired
| ErrUnknownGrant (g : string)
| ErrNoValidGrants (requested : string).

Definition grant_separator (a : ascii) : bool := Ascii.eqb a "," || Ascii.eqb a " ".

Fixpoint collect_grants (fields : list string) (set : ScopeSet) : result GrantError ScopeSet :=
  match fields with
  | [] => Ok set
  | f :: rest =>
      let g := parse_part f in
      if String.eqb g EmptyString then collect_grants rest set
      else if bool_decide (g ∈ knownGrants) then collect_grants rest (set ∪ {[g]})
      else Err (ErrUnknownGrant g)
  end.

Definition NormalizeGrants (requested : string) : result GrantError string :=
  let requested := TrimSpace requested in
  if String.eqb requested EmptyString then Err ErrScopeRequired
  else match ProfileGrants requested with
       | Some grants => Ok (Canonical (setOf grants))
       | None =>
           match collect_grants (FieldsFunc grant_separator requested) ∅ with
           | Err e => Err e
           | Ok set =>
               if size set =? 0 then Err (ErrNoValidGrants requested) else Ok (Canonical set)
           end
       end.

(** ** Lemmas *)

(** Every grant that exists, [pubsub] included. *)
Definition allGrants : list string := ScopePubsub :: knownGrants.

(** A grant has no comma and no blank, is in lower case and starts with a
    byte that is part of no white space. *)
Definition plain_grant (g : string) : Prop :=
  str_mem "," g = false ∧ parse_part g = g ∧
  match g with
  | EmptyString => False
  | String a _ => forallb (λ e, negb (str_mem a e)) space_encodings = true
  end.

Lemma grant_plain g : g ∈ allGrants → plain_grant g.
Proof.
  unfold allGrants, knownGrants. rewrite !elem_of_cons. intros Hg.
  destruct_or! Hg; [subst; split; [reflexivity | split; vm_compute; reflexivity].. |].
  by apply not_elem_of_nil in Hg.
Qed.

Lemma foldl_add_part (l : list string) (s : ScopeSet) :
  Forall (λ g, parse_part g = g ∧ g ≠ EmptyString) l →
  foldl add_part s l = s ∪ list_to_set l.
Proof.
  revert s. induction l as [| g l IH]; intros s Hl; [set_solver |].
  inversion Hl as [| ? ? [Hp Hne] Hl']; subst. simpl. rewrite IH by done.
  unfold add_part. rewrite Hp.
  destruct (String.eqb_spec g EmptyString); [done |]. set_solver.
Qed.

Lemma SortStrings_perm l : SortStrings l ≡ₚ l.
Proof. apply merge_sort_Permutation. Qed.

(** The stored form of a set of grants is read back as the same set. *)
Lemma ParseScopes_Canonical s :
  s ⊆ list_to_set allGrants → s ≠ ∅ →
  ParseScopes (Canonical s) = s ∧ TrimSpace (Canonical s) ≠ EmptyString.
Proof.
  intros Hs Hne. unfold Canonical.
  assert (size s ≠ 0) as Hsize by (intros E; apply size_empty_inv in E; set_solver).
  destruct (Nat.eqb_spec (size s) 0); [done |].
  set (l := SortStrings (elements s)).
  assert (l ≡ₚ elements s) as Hl by apply SortStrings_perm.
  assert (Forall (λ g, g ∈ allGrants) l) as Hall.
  { apply Forall_forall. intros g Hg. rewrite Hl, elem_of_elements in Hg.
    apply Hs in Hg. by apply elem_of_list_to_set in Hg. }
  assert (l ≠ []) as Hlne.
  { intros E. rewrite E in Hl. symmetry in Hl. apply Permutation_nil_r, elements_empty_inv in Hl.
    set_solver. }
  assert (Forall plain_grant l) as Hplain by (eapply Forall_impl; [exact Hall | apply grant_plain]).
  split.
  - unfold ParseScopes. change ","%string with (str_single ","). rewrite Split_Join; [| done |].
    + rewrite foldl_add_part.
      * rewrite Hl, list_to_set_elements_L. set_solver.
      * eapply Forall_impl; [exact Hplain |]. intros g (_ & Hg & Hn). split; [done |]. by destruct g.
    + eapply Forall_impl; [exact Hplain |]. by intros g (Hg & _).
  - destruct l as [| g l']; [done |]. apply Forall_cons in Hplain as [(_ & _ & Hg) _].
    destruct g as [| a g]; [done |].
    assert (str_mem a (TrimSpace (Join (String a g :: l') ",")) = true) as Hmem.
    { rewrite TrimSpace_mem.
      - apply (Join_mem _ (String a g)); [by left |]. simpl. by rewrite Ascii.eqb_refl.
      - apply Is_true_true_2, forallb_True in Hg.
        eapply Forall_impl; [exact Hg |]. intros e He. cbn beta in *. destruct (str_mem a e); [by destruct He | done]. }
    intros E. by rewrite E in Hmem.
Qed.

(** What the grants and the comma have in common the canonical form has. *)
Lemma Canonical_all (P : string → bool) s :
  P EmptyString = true → (∀ a b, P (a +:+ b) = P a && P b) → P ","%string = true → Forall (λ g, P g = true) allGrants →
  s ⊆ list_to_set allGrants → P (Canonical s) = true.
Proof.
  intros Hnil Happ Hcomma Hall Hs. unfold Canonical. destruct (size s =? 0); [done |].
  assert (Forall (λ g, P g = true) (SortStrings (elements s))) as Hl.
  { apply Forall_forall. intros g Hg. rewrite SortStrings_perm, elem_of_elements in Hg.
    apply Hs, elem_of_list_to_set in Hg. rewrite Forall_forall in Hall. by apply Hall. }
  induction Hl as [| g [| g' l] Hg _ IH]; [done | done |].
  change (Join (g :: g' :: l) ",") with (g +:+ "," +:+ Join (g' :: l) ",").
  by rewrite !Happ, Hg, IH, Hcomma.
Qed.

(** It holds no white space and is ASCII. *)
Lemma Canonical_plain s : s ⊆ list_to_set allGrants → plain_text (Canonical s) = true.
Proof. apply Canonical_all; [done | apply plain_text_app | done |]. apply (bool_decide_unpack _). vm_compute. reflexivity. Qed.

Lemma Canonical_utf8 s : s ⊆ list_to_set allGrants → utf8_valid (Canonical s) = true.
Proof.
  intros Hs. apply ascii_utf8. revert Hs.
  apply Canonical_all; [done | apply is_ascii_app | done |]. apply (bool_decide_unpack _). vm_compute. reflexivity.
Qed.

Lemma collect_grants_Ok fields set set' :
  collect_grants fields set = Ok set' →
  set ⊆ set' ∧ set' ⊆ set ∪ list_to_set knownGrants ∧
  ∀ g, g ∈ set' ↔ g ∈ set ∨ ∃ f, f ∈ fields ∧ parse_part f = g ∧ g ≠ EmptyString.
Proof.
  revert set. induction fields as [| f fields IH]; intros set; cbn [collect_grants].
  { intros [= <-]. split; [done |]. split; [set_solver |]. set_solver. }
  destruct (String.eqb_spec (parse_part f) EmptyString) as [E | E].
  { intros H'. apply IH in H' as (H1 & H2 & H3). split; [done |]. split; [done |].
    intros g. rewrite H3. split; [set_solver |].
    intros [? | (f' & Hf & <- & Hne)]; [auto |].
    apply elem_of_cons in Hf as [-> | Hf]; [done | eauto]. }
  case_bool_decide as Hk; [| done].
  intros H'. apply IH in H' as (H1 & H2 & H3). split; [set_solver |]. split.
  { intros g Hg. apply H2 in Hg. rewrite !elem_of_union, elem_of_singleton, elem_of_list_to_set in *.
    naive_solver. }
  intros g. rewrite H3, elem_of_union, elem_of_singleton. split.
  - intros [[? | ->] | (f' & Hf & Hg)]; [auto | right; exists f; set_solver | right; exists f'; set_solver].
  - intros [? | (f' & Hf & <- & Hne)]; [auto |].
    apply elem_of_cons in Hf as [-> | Hf]; [auto | eauto].
Qed.

Lemma ProfileGrants_known profile grants :
  ProfileGrants profile = Some grants → grants ≠ [] ∧ Forall (λ g, g ∈ knownGrants) grants.
Proof.
  unfold ProfileGrants. intros Hp. repeat case_match; simplify_eq; (split; [done |]);
    repeat (constructor; [unfold knownGrants; rewrite !elem_of_cons; tauto |]); constructor.
Qed.

(** The set a successful normalisation stores. *)
Lemma NormalizeGrants_set requested stored :
  NormalizeGrants requested = Ok stored →
  ∃ s : ScopeSet, s ≠ ∅ ∧ s ⊆ list_to_set knownGrants ∧ stored = Canonical s ∧
    match ProfileGrants (TrimSpace requested) with
    | Some grants => s = list_to_set grants
    | None => ∀ g, g ∈ s ↔ g ≠ EmptyString ∧
        ∃ f, f ∈ FieldsFunc grant_separator (TrimSpace requested) ∧ parse_part f = g
    end.
Proof.
  unfold NormalizeGrants. destruct (String.eqb _ _); [done |].
  destruct (ProfileGrants (TrimSpace requested)) as [grants |] eqn:Hp.
  - intros [= <-]. apply ProfileGrants_known in Hp as [Hne Hall]. exists (setOf grants).
    unfold setOf. rewrite Forall_forall in Hall. split; [| split; [| done]].
    + destruct grants; [done | set_solver].
    + intros g. rewrite !elem_of_list_to_set. apply Hall.
  - destruct (collect_grants _ _) as [s | e] eqn:Hc; [| done].
    destruct (Nat.eqb_spec (size s) 0) as [E | E]; [done |]. intros [= <-].
    apply collect_grants_Ok in Hc as (_ & H2 & H3). exists s. split; [| split; [| split; [done |]]].
    + intros ->. by rewrite size_empty in E.
    + set_solver.
    + intros g. rewrite H3. split; [intros [? | (f & ? & ? & ?)]; [set_solver | eauto] |].
      intros (? & f & ? & ?). right. eauto.
Qed.

(** ** Properties *)

(** What the issuance path stores for a requested list of grants or a
    profile is read back as exactly those grants: it names known grants only,
    is never blank, and so is never taken for a legacy key with full access. *)
Theorem NormalizeGrants_roundtrip requested stored :
  NormalizeGrants requested = Ok stored →
  ∃ s : ScopeSet, ScopesFromStored stored = s ∧ s ≠ ∅ ∧ s ⊆ list_to_set knownGrants ∧
    match ProfileGrants (TrimSpace requested) with
    | Some grants => s = list_to_set grants
    | None => ∀ g, g ∈ s ↔ g ≠ EmptyString ∧
        ∃ f, f ∈ FieldsFunc grant_separator (TrimSpace requested) ∧ parse_part f = g
    end.
Proof.
  intros Hn. apply NormalizeGrants_set in Hn as (s & Hne & Hk & -> & Hs). exists s.
  destruct (ParseScopes_Canonical s) as [Hparse Htrim];
    [set_solver | done |].
  split; [| done]. unfold ScopesFromStored.
  by destruct (String.eqb_spec (TrimSpace (Canonical s)) EmptyString).
Qed.

(** A credential satisfies a requirement exactly when it holds the grant
    or the admin grant; the set of a signed-in user never satisfies admin. *)
Theorem Has_spec (s : ScopeSet) required :
  (Has s required = true ↔ required = EmptyString ∨ ScopeAdmin ∈ s ∨ required ∈ s) ∧
  Has DataPlaneScopes ScopeAdmin = false.
Proof.
  split.
  - unfold Has. destruct (String.eqb_spec required EmptyString); [naive_solver |].
    repeat case_bool_decide; naive_solver.
  - vm_compute. reflexivity.
Qed.

(** [pubsub] is a grant that routes require and that the error message
    of the issuance path lists as valid, but no key can be issued with it. *)
Theorem pubsub_not_issuable :
  ScopePubsub ∈ DataPlaneScopes ∧
  NormalizeGrants "pubsub" = Err (ErrUnknownGrant ScopePubsub) ∧
  (∀ requested stored, NormalizeGrants requested = Ok stored →
   ScopePubsub ∉ ScopesFromStored stored).
Proof.
  split; [unfold DataPlaneScopes; set_solver |]. split; [vm_compute; reflexivity |].
  intros requested stored Hn. apply NormalizeGrants_set in Hn as (s & Hne & Hk & -> & _).
  destruct (ParseScopes_Canonical s) as [Hparse Htrim]; [set_solver | done |].
  unfold ScopesFromStored. destruct (String.eqb_spec (TrimSpace (Canonical s)) EmptyString); [done |].
  rewrite Hparse. intros Hp. apply Hk in Hp. rewrite elem_of_list_to_set in Hp.
  unfold knownGrants in Hp. rewrite !elem_of_cons in Hp. destruct_or! Hp; [discriminate Hp.. |].
  by apply not_elem_of_nil in Hp.
Qed.

End Parsing.

Lemma NormalizeGrants_roundtrip_witness :
  NormalizeGrants "storage, PUSH" = Ok "push,storage"%string ∧
  ∃ s : ScopeSet, ScopesFromStored "push,storage" = s ∧ s ≠ ∅.
Proof.
  split; [vm_compute; reflexivity |].
  destruct (NormalizeGrants_roundtrip "storage, PUSH" "push,storage") as (s & Hs & Hne & _);
    [vm_compute; reflexivity |].
  exists s. split; assumption.
Defined.
