(* ===== verification/Jwt.v ===== *)
(** * Access tokens ([core/pkg/gateway/auth/jwt.go], the keys of the service
      in [core/pkg/gateway/auth/service.go] and [core/pkg/gateway/dependencies.go])

    Minting and verification of the gateway's tokens, with two signing keys
    (RS256 and EdDSA) selected by key id.  Base64, JSON and the signature
    schemes are interfaces with the documented laws the code relies on. *)

From Stdlib Require Import ZArith Lia Ascii String.
From stdpp Require Import base tactics numbers list gmap strings.
From S2P Require Import Prelude GoStrings.

Open Scope go_scope.

Record JWTClaims := mkClaims {
  Iss : string;
  Sub : string;
  Aud : string;
  Iat : Z;
  Nbf : Z;
  Exp : Z;
  Namespace : string;
  Custom : gmap string string
}.

Record jwtHeader := mkHeader { Alg : string; Typ : string; Kid : string }.

(** Seconds since the Unix epoch ([t.Unix()]). *)
Definition unixEpoch : time := (62135596800 * Second)%Z.
Definition Unix (t : time) : Z := ((t - unixEpoch) / Second)%Z.

(** [base64.RawURLEncoding] and the JSON of headers and claims. *)
Class TokenCodec := {
  b64_encode : string → string;
  b64_decode : string → option string;
  marshal_header : jwtHeader → string;
  unmarshal_header : string → option jwtHeader;
  marshal_claims : JWTClaims → string;
  unmarshal_claims : string → option JWTClaims
}.

(** [encoding/json] keeps text that is valid UTF-8 and replaces other bytes,
    when it writes and when it reads. *)
Definition header_utf8 (h : jwtHeader) : Prop :=
  utf8_valid (Alg h) = true ∧ utf8_valid (Typ h) = true ∧ utf8_valid (Kid h) = true.

Definition claims_utf8 (c : JWTClaims) : Prop :=
  utf8_valid (Iss c) = true ∧ utf8_valid (Sub c) = true ∧ utf8_valid (Aud c) = true ∧
  utf8_valid (Namespace c) = true ∧ utf8_map (Custom c).

Class TokenCodecLaws `{TokenCodec} : Prop := {
  b64_decode_encode s : b64_decode (b64_encode s) = Some s;
  b64_no_dot s : str_mem "." (b64_encode s) = false;
  unmarshal_marshal_header h : header_utf8 h → unmarshal_header (marshal_header h) = Some h;
  unmarshal_marshal_claims c :
    in_int64 (Iat c) → in_int64 (Nbf c) → in_int64 (Exp c) → claims_utf8 c →
    unmarshal_claims (marshal_claims c) = Some c;
  unmarshal_claims_utf8 s c : unmarshal_claims s = Some c → claims_utf8 c
}.

(** Ed25519, and RSA PKCS#1 v1.5 over the SHA-256 digest; the encodings of
    keys. *)
Class Signatures := {
  ed_key : Type;
  rsa_key : Type;
  ed_public : ed_key → string;
  pem_decode : string → option string;
  parse_pkcs1 : string → option rsa_key;
  rsa_public : rsa_key → string;
  ed_sign : ed_key → string → string;
  ed_verify : ed_key → string → string → bool;
  sha256 : string → string;
  rsa_sign : rsa_key → string → option string;
  rsa_verify : rsa_key → string → string → bool
}.

Class SignatureLaws `{Signatures} : Prop := {
  ed_verify_sign k m : ed_verify k m (ed_sign k m) = true;
  rsa_verify_sign k m sig : rsa_sign k m = Some sig → rsa_verify k m sig = true
}.

Section Service.
Context `{TokenCodec} `{Signatures}.

Record Service := mkService {
  signingKey : option rsa_key;
  keyID : string;
  edSigningKey : option ed_key;
  edKeyID : string;
  preferEdDSA : bool
}.

(** ** The keys of a gateway *)

Inductive ServiceError := ErrSigningKeyPEM | ErrRSAPrivateKey.

Definition NewService (signingKeyPEM : string) : result ServiceError Service :=
  if negb (String.eqb signingKeyPEM EmptyString) then
    match pem_decode signingKeyPEM with
    | None => Err ErrSigningKeyPEM
    | Some block =>
        match parse_pkcs1 block with
        | None => Err ErrRSAPrivateKey
        | Some key => Ok (mkService (Some key) (hex_encode (str_take 8 (sha256 (rsa_public key)))) None EmptyString false)
        end
    end
  else Ok (mkService None EmptyString None EmptyString false).

Definition SetEdDSAKey (privKey : ed_key) (s : Service) : Service :=
  mkService (signingKey s) (keyID s) (Some privKey) ("ed_" +:+ hex_encode (str_take 8 (sha256 (ed_public privKey)))) true.

(** The service of a gateway: [edKey] is what [loadOrCreateEdSigningKey] gave,
    nothing when it failed and tokens fall back to RS256. *)
Definition gateway_service (keyPEM : string) (edKey : option ed_key) : result ServiceError Service :=
  let! s := NewService keyPEM in
  Ok (match edKey with
      | None => s
      | Some k => SetEdDSAKey k s
      end).

Inductive JwtError :=
| ErrFormat | ErrHeaderEncoding | ErrPayloadEncoding | ErrSignatureEncoding | ErrHeaderJson
| ErrUnsupportedAlgorithm | ErrAlgorithmMismatch | ErrInvalidSignature | ErrLegacyNotRS256
| ErrKeyUnavailable | ErrUnknownKeyID | ErrClaimsJson | ErrIssuer | ErrNotYetValid | ErrExpired
| ErrIat | ErrAudience.

Definition require (b : bool) (e : JwtError) : result JwtError unit := if b then Ok tt else Err e.

Definition or_err {A : Type} (o : option A) (e : JwtError) : result JwtError A :=
  match o with
  | Some a => Ok a
  | None => Err e
  end.

(** The cases of the switch on the key id, in the order of the code. *)
Inductive selected_key :=
| SelectEd (k : ed_key)
| SelectRsa (k : rsa_key)
| SelectLegacy
| SelectUnknown.

Definition select_key (s : Service) (kid : string) : selected_key :=
  let named id := negb (String.eqb kid EmptyString) && String.eqb kid id in
  match (if named (edKeyID s) then edSigningKey s else None) with
  | Some k => SelectEd k
  | None =>
      match (if named (keyID s) then signingKey s else None) with
      | Some k => SelectRsa k
      | None => if String.eqb kid EmptyString then SelectLegacy else SelectUnknown
      end
  end.

Definition check_signature (s : Service) (header : jwtHeader) (signingInput sb : string)
    : result JwtError unit :=
  match select_key s (Kid header) with
  | SelectEd k =>
      let! _ := require (String.eqb (Alg header) "EdDSA") ErrAlgorithmMismatch in
      require (ed_verify k signingInput sb) ErrInvalidSignature
  | SelectRsa k =>
      let! _ := require (String.eqb (Alg header) "RS256") ErrAlgorithmMismatch in
      require (rsa_verify k (sha256 signingInput) sb) ErrInvalidSignature
  | SelectLegacy =>
      let! _ := require (String.eqb (Alg header) "RS256") ErrLegacyNotRS256 in
      let! k := or_err (signingKey s) ErrKeyUnavailable in
      require (rsa_verify k (sha256 signingInput) sb) ErrInvalidSignature
  | SelectUnknown => Err ErrUnknownKeyID
  end.

Definition skew : Z := 60.

(** The registered claims, at the time of the check. *)
Definition check_claims (now : Z) (c : JWTClaims) : result JwtError JWTClaims :=
  let! _ := require (String.eqb (Iss c) "orama-gateway") ErrIssuer in
  let! _ := require (negb (negb (Nbf c =? 0)%Z && (wrap64 (now + skew) <? Nbf c)%Z)) ErrNotYetValid in
  let! _ := require (negb (negb (Exp c =? 0)%Z && (Exp c <? wrap64 (now - skew))%Z)) ErrExpired in
  let! _ := require (negb (negb (Iat c =? 0)%Z && (now <? wrap64 (Iat c - skew))%Z)) ErrIat in
  let! _ := require (String.eqb (Aud c) "gateway") ErrAudience in
  Ok c.

Definition ParseAndVerifyJWT (s : Service) (now : time) (token : string) : result JwtError JWTClaims :=
  match Split token "." with
  | [p0; p1; p2] =>
      let! hb := or_err (b64_decode p0) ErrHeaderEncoding in
      let! pb := or_err (b64_decode p1) ErrPayloadEncoding in
      let! sb := or_err (b64_decode p2) ErrSignatureEncoding in
      let! header := or_err (unmarshal_header hb) ErrHeaderJson in
      let! _ := require (String.eqb (Alg header) "RS256" || String.eqb (Alg header) "EdDSA")
                  ErrUnsupportedAlgorithm in
      let! _ := check_signature s header (p0 +:+ "." +:+ p1) sb in
      let! claims := or_err (unmarshal_claims pb) ErrClaimsJson in
      check_claims (Unix now) claims
  | _ => Err ErrFormat
  end.

(** ** Minting *)

Definition payload (now : time) (ttl : duration) (ns subject : string) (custom : gmap string string)
    : JWTClaims :=
  mkClaims "orama-gateway" subject "gateway" (Unix now) (Unix now) (Unix (now + ttl)) ns custom.

Definition signing_input (header : jwtHeader) (claims : JWTClaims) : string :=
  b64_encode (marshal_header header) +:+ "." +:+ b64_encode (marshal_claims claims).

Definition generateEdDSAJWT (s : Service) (now : time) (ns subject : string) (ttl : duration)
    (custom : gmap string string) : result JwtError (string * Z) :=
  let! k := or_err (edSigningKey s) ErrKeyUnavailable in
  let signingInput := signing_input (mkHeader "EdDSA" "JWT" (edKeyID s)) (payload now ttl ns subject custom) in
  Ok (signingInput +:+ "." +:+ b64_encode (ed_sign k signingInput), Unix (now + ttl)).

Definition generateRSAJWT (s : Service) (now : time) (ns subject : string) (ttl : duration)
    (custom : gmap string string) : result JwtError (string * Z) :=
  let! k := or_err (signingKey s) ErrKeyUnavailable in
  let signingInput := signing_input (mkHeader "RS256" "JWT" (keyID s)) (payload now ttl ns subject custom) in
  let! sig := or_err (rsa_sign k (sha256 signingInput)) ErrInvalidSignature in
  Ok (signingInput +:+ "." +:+ b64_encode sig, Unix (now + ttl)).

Definition GenerateJWT (s : Service) (now : time) (ns subject : string) (ttl : duration)
    (custom : gmap string string) : result JwtError (string * Z) :=
  if preferEdDSA s && bool_decide (is_Some (edSigningKey s))
  then generateEdDSAJWT s now ns subject ttl custom
  else generateRSAJWT s now ns subject ttl custom.

(** ** Lemmas *)

Lemma require_Ok b e u : require b e = Ok u ↔ b = true.
Proof. destruct u. unfold require. destruct b; naive_solver. Qed.

Lemma or_err_Ok {A} (o : option A) e a : or_err o e = Ok a ↔ o = Some a.
Proof. unfold or_err. destruct o; naive_solver. Qed.

Lemma Split_token a b c :
  str_mem "." a = false → str_mem "." b = false → str_mem "." c = false →
  Split ((a +:+ "." +:+ b) +:+ "." +:+ c) "." = [a; b; c].
Proof.
  intros Ha Hb Hc. rewrite <- str_app_assoc.
  change ("." +:+ b) with (String "." b). cbn [String.append].
  rewrite Split_app by done. change ("." +:+ c)%string with (String "." c).
  rewrite Split_app by done. by rewrite Split_nosep.
Qed.

(** A signature check that succeeds names the key and the algorithm. *)
Definition signed_by (s : Service) (header : jwtHeader) (signingInput sb : string) : Prop :=
  (∃ k, edSigningKey s = Some k ∧ Kid header = edKeyID s ∧ Alg header = "EdDSA"%string ∧
        ed_verify k signingInput sb = true) ∨
  (∃ k, signingKey s = Some k ∧ (Kid header = keyID s ∨ Kid header = EmptyString) ∧
        Alg header = "RS256"%string ∧ rsa_verify k (sha256 signingInput) sb = true).

Lemma select_key_spec s kid :
  match select_key s kid with
  | SelectEd k => edSigningKey s = Some k ∧ kid = edKeyID s ∧ kid ≠ EmptyString
  | SelectRsa k => signingKey s = Some k ∧ kid = keyID s ∧ kid ≠ EmptyString
  | SelectLegacy => kid = EmptyString
  | SelectUnknown => True
  end.
Proof.
  unfold select_key.
  destruct (String.eqb_spec kid EmptyString) as [-> | Hne]; cbn [negb andb]; [done |].
  destruct (String.eqb_spec kid (edKeyID s)) as [E | E];
    [destruct (edSigningKey s) as [k |] eqn:Hk; [by rewrite Hk || done |] |];
    (destruct (String.eqb_spec kid (keyID s)) as [E' | E'];
      [destruct (signingKey s) as [k' |] eqn:Hk'; done | done]).
Qed.

Lemma check_signature_Ok s header si sb u :
  check_signature s header si sb = Ok u → signed_by s header si sb.
Proof.
  unfold check_signature, signed_by. pose proof (select_key_spec s (Kid header)) as Hsel.
  destruct (select_key s (Kid header)) as [k | k | |]; [| | | done]; intros Hc.
  - apply result_bind_Ok in Hc as (u1 & H1 & H2). apply require_Ok in H1, H2.
    apply String.eqb_eq in H1. left. exists k. naive_solver.
  - apply result_bind_Ok in Hc as (u1 & H1 & H2). apply require_Ok in H1, H2.
    apply String.eqb_eq in H1. right. exists k. naive_solver.
  - apply result_bind_Ok in Hc as (u1 & H1 & H2). apply result_bind_Ok in H2 as (k & H2 & H3).
    apply require_Ok in H1, H3. apply or_err_Ok in H2. apply String.eqb_eq in H1.
    right. exists k. naive_solver.
Qed.

(** The time window in which the registered claims are accepted. *)
Definition claims_valid (now : Z) (c : JWTClaims) : Prop :=
  Iss c = "orama-gateway"%string ∧ Aud c = "gateway"%string ∧
  (Nbf c = 0 ∨ Nbf c ≤ now + skew)%Z ∧ (Exp c = 0 ∨ now - skew ≤ Exp c)%Z ∧
  (Iat c = 0 ∨ Iat c - skew ≤ now)%Z.

(** The clock of a gateway is far from the ends of an [int64]. *)
Definition clock_sane (now : Z) : Prop := (- 2 ^ 62 ≤ now ≤ 2 ^ 62)%Z.

Lemma check_claims_Ok now c c' :
  clock_sane now → in_int64 (Iat c) → (minInt64 + skew ≤ Iat c)%Z →
  check_claims now c = Ok c' ↔ c' = c ∧ claims_valid now c.
Proof.
  unfold clock_sane, in_int64, minInt64, claims_valid, check_claims, skew. intros Hn Hi Hm.
  rewrite !wrap64_id by (unfold in_int64; lia).
  rewrite !result_bind_Ok. setoid_rewrite require_Ok.
  destruct (String.eqb_spec (Iss c) "orama-gateway") as [Ei | Ei];
    [| split; [intros (? & ? & _); done | naive_solver]].
  split.
  - intros (_ & _ & Hok). repeat (apply result_bind_Ok in Hok as (? & ?%require_Ok & Hok)).
    injection Hok as <-. zbool.
    repeat match goal with
    | Hb : (_ && _)%bool = false |- _ => apply andb_false_iff in Hb
    | Hb : String.eqb _ _ = true |- _ => apply String.eqb_eq in Hb
    end.
    split; [done |]. split; [done |]. split; [done |].
    repeat match goal with Ho : _ ∨ _ |- _ => destruct Ho; zbool end; repeat split; auto; lia.
  - intros (-> & _ & Ea & Hnbf & Hexp & Hiat). exists tt. split; [done |].
    assert (negb (negb (Nbf c =? 0)%Z && (now + 60 <? Nbf c)%Z) = true) as ->.
    { destruct Hnbf as [-> | Hnbf]; [done |]. destruct (Z.ltb_spec (now + 60) (Nbf c)); [lia |].
      by rewrite andb_false_r. }
    assert (negb (negb (Exp c =? 0)%Z && (Exp c <? now - 60)%Z) = true) as ->.
    { destruct Hexp as [-> | Hexp]; [done |]. destruct (Z.ltb_spec (Exp c) (now - 60)); [lia |].
      by rewrite andb_false_r. }
    assert (negb (negb (Iat c =? 0)%Z && (now <? Iat c - 60)%Z) = true) as ->.
    { destruct Hiat as [-> | Hiat]; [done |]. destruct (Z.ltb_spec now (Iat c - 60)); [lia |].
      by rewrite andb_false_r. }
    rewrite Ea. done.
Qed.

(** ** Properties *)

(** C37: a token is accepted only when its signature verifies under one of the
    gateway's own keys with the algorithm of that key (the key id selects the
    key, the algorithm must agree, and a token without key id must be RS256),
    and when issuer, audience and times are right. *)
Theorem jwt_accepted s now token claims :
  clock_sane (Unix now) →
  ParseAndVerifyJWT s now token = Ok claims →
  ∃ p0 p1 p2 hb pb sb header,
    Split token "." = [p0; p1; p2] ∧ b64_decode p0 = Some hb ∧ b64_decode p1 = Some pb ∧
    b64_decode p2 = Some sb ∧ unmarshal_header hb = Some header ∧
    unmarshal_claims pb = Some claims ∧
    signed_by s header (p0 +:+ "." +:+ p1) sb ∧
    (in_int64 (Iat claims) → (minInt64 + skew ≤ Iat claims)%Z → claims_valid (Unix now) claims).
Proof.
  intros Hn. unfold ParseAndVerifyJWT.
  destruct (Split token ".") as [| p0 [| p1 [| p2 []]]]; try done. intros Hok.
  apply result_bind_Ok in Hok as (hb & Hhb%or_err_Ok & Hok).
  apply result_bind_Ok in Hok as (pb & Hpb%or_err_Ok & Hok).
  apply result_bind_Ok in Hok as (sb & Hsb%or_err_Ok & Hok).
  apply result_bind_Ok in Hok as (header & Hh%or_err_Ok & Hok).
  apply result_bind_Ok in Hok as (u & _ & Hok).
  apply result_bind_Ok in Hok as (u' & Hsig%check_signature_Ok & Hok).
  apply result_bind_Ok in Hok as (c & Hc%or_err_Ok & Hok).
  assert (claims = c) as ->.
  { unfold check_claims in Hok. repeat (apply result_bind_Ok in Hok as (? & _ & Hok)).
    by injection Hok. }
  exists p0, p1, p2, hb, pb, sb, header.
  repeat (split; [done |]). intros Hi Hm. by apply check_claims_Ok in Hok as [_ Hv].
Qed.

(** The claims of a verified token were read from its payload. *)
Lemma verified_payload s now token claims :
  ParseAndVerifyJWT s now token = Ok claims → ∃ pb, unmarshal_claims pb = Some claims.
Proof.
  unfold ParseAndVerifyJWT. destruct (Split token ".") as [| p0 [| p1 [| p2 []]]]; try done. intros Hok.
  apply result_bind_Ok in Hok as (hb & _ & Hok). apply result_bind_Ok in Hok as (pb & _ & Hok).
  do 4 (apply result_bind_Ok in Hok as (? & _ & Hok)).
  apply result_bind_Ok in Hok as (c & Hc%or_err_Ok & Hok). exists pb. unfold check_claims in Hok.
  repeat (apply result_bind_Ok in Hok as (? & _ & Hok)). congruence.
Qed.

Section Roundtrip.
Context `{!TokenCodecLaws} `{!SignatureLaws}.

Definition times_sane (now : time) (ttl : duration) : Prop :=
  (0 ≤ Unix now ≤ 2 ^ 62)%Z ∧ (0 ≤ Unix (now + ttl) ≤ 2 ^ 62)%Z.

Lemma verify_minted s now now' header ns sub ttl custom sig :
  times_sane now ttl → clock_sane (Unix now') →
  (Unix now - skew ≤ Unix now' ≤ Unix (now + ttl) + skew)%Z →
  Alg header = "RS256"%string ∨ Alg header = "EdDSA"%string → header_utf8 header →
  claims_utf8 (payload now ttl ns sub custom) →
  let si := signing_input header (payload now ttl ns sub custom) in
  check_signature s header si sig = Ok tt →
  ParseAndVerifyJWT s now' (si +:+ "." +:+ b64_encode sig) = Ok (payload now ttl ns sub custom).
Proof.
  intros [Hn1 Hn2] Hc Hw Halg Hhu Hcu si Hsig. unfold ParseAndVerifyJWT, si, signing_input.
  rewrite Split_token by apply b64_no_dot.
  rewrite !b64_decode_encode. cbn [or_err result_bind].
  rewrite unmarshal_marshal_header by done. cbn [or_err result_bind].
  assert (String.eqb (Alg header) "RS256" || String.eqb (Alg header) "EdDSA" = true) as ->
    by (by destruct Halg as [-> | ->]).
  cbn [require result_bind]. fold (signing_input header (payload now ttl ns sub custom)).
  unfold si in Hsig. rewrite Hsig. cbn [result_bind].
  rewrite unmarshal_marshal_claims by (done || (unfold in_int64; cbn [payload Iat Nbf Exp]; lia)).
  cbn [or_err result_bind]. unfold skew in Hw. apply check_claims_Ok.
  - done.
  - cbn [payload Iat]. unfold in_int64. lia.
  - cbn [payload Iat]. unfold minInt64, skew. lia.
  - split; [done |]. unfold claims_valid, skew. cbn [payload Iat Nbf Exp Iss Aud]. repeat split; auto; right; lia.
Qed.

(** What the construction of the service guarantees about its keys. *)
Definition keys_sound (s : Service) : Prop :=
  utf8_valid (keyID s) = true ∧ utf8_valid (edKeyID s) = true ∧
  (is_Some (edSigningKey s) → edKeyID s ≠ EmptyString ∧ edKeyID s ≠ keyID s).

Lemma gateway_service_sound pem ed s : gateway_service pem ed = Ok s → keys_sound s.
Proof.
  unfold gateway_service. intros (s0 & Hnew & [= <-])%result_bind_Ok.
  assert (edSigningKey s0 = None ∧ edKeyID s0 = EmptyString ∧ ∃ b, keyID s0 = hex_encode b) as (E1 & E2 & b & E3).
  { unfold NewService in Hnew. destruct (negb _); [| injection Hnew as <-; split_and!; [done | done | by exists EmptyString]].
    destruct (pem_decode pem) as [block |]; [| done]. destruct (parse_pkcs1 block) as [key |]; [| done].
    injection Hnew as <-. split_and!; [done | done | by eexists]. }
  assert (∀ t, utf8_valid (hex_encode t) = true) as Hhex by (intros t; apply ascii_utf8, hex_encode_ascii).
  unfold keys_sound. destruct ed as [k |]; cbn [SetEdDSAKey keyID edKeyID edSigningKey]; rewrite E3; (split; [apply Hhex |]).
  - split; [apply (ascii_utf8 ("ed_" +:+ _)), (hex_encode_ascii _) |]. intros _. split; [done |].
    intros E. symmetry in E. by apply hex_encode_no_underscore in E.
  - rewrite E1, E2. split; [done |]. by intros [? ?].
Qed.

Lemma minted_verifies s now now' ns sub ttl custom token exp :
  times_sane now ttl → clock_sane (Unix now') →
  (Unix now - skew ≤ Unix now' ≤ Unix (now + ttl) + skew)%Z →
  keys_sound s → utf8_valid ns = true → utf8_valid sub = true → utf8_map custom →
  GenerateJWT s now ns sub ttl custom = Ok (token, exp) →
  exp = Unix (now + ttl) ∧
  ParseAndVerifyJWT s now' token = Ok (payload now ttl ns sub custom).
Proof.
  intros Ht Hc Hw (Hu1 & Hu2 & Hdist) Hns Hsub Hcu. unfold GenerateJWT.
  assert (claims_utf8 (payload now ttl ns sub custom)) as Hpu by done.
  assert (generateRSAJWT s now ns sub ttl custom = Ok (token, exp) → exp = Unix (now + ttl) ∧
    ParseAndVerifyJWT s now' token = Ok (payload now ttl ns sub custom)) as Hrsa.
  { unfold generateRSAJWT. rewrite result_bind_Ok. intros (k & Hk%or_err_Ok & Hg).
    apply result_bind_Ok in Hg as (sig & Hsig%or_err_Ok & [= <- <-]).
    split; [done |]. apply verify_minted; [done.. | by left | done | done |].
    unfold check_signature. cbn [Kid Alg]. unfold select_key.
    assert ((if negb (String.eqb (keyID s) EmptyString) && String.eqb (keyID s) (edKeyID s) then edSigningKey s else None) = None) as ->.
    { destruct (String.eqb_spec (keyID s) (edKeyID s)) as [E |]; [| by rewrite andb_false_r].
      destruct (edSigningKey s); [| by destruct (negb _)]. destruct Hdist as [_ Hne]; [done | congruence]. }
    rewrite String.eqb_refl, andb_true_r.
    destruct (String.eqb (keyID s) EmptyString); cbn [negb]; rewrite Hk; cbn;
      by rewrite (rsa_verify_sign k _ sig Hsig). }
  destruct (preferEdDSA s && bool_decide (is_Some (edSigningKey s))); [| exact Hrsa].
  unfold generateEdDSAJWT. rewrite result_bind_Ok. intros (k & Hk%or_err_Ok & [= <- <-]).
  destruct Hdist as [Hed _]; [by rewrite Hk |].
  split; [done |]. apply verify_minted; [done.. | by right | done | done |].
  unfold check_signature. cbn [Kid Alg]. unfold select_key.
  destruct (String.eqb_spec (edKeyID s) EmptyString); [done |]. cbn [negb andb].
  rewrite String.eqb_refl, Hk. cbn. by rewrite ed_verify_sign.
Qed.

(** C38: on a gateway whose service was built from its keys, with an Ed25519
    key or, when that could not be loaded, with the RSA key alone, a minted
    token whose texts are valid UTF-8 verifies, from a minute before it was
    issued until a minute after it expires, and yields the claims it was
    minted with.  Minting fails only without a key or when RSA signing does. *)
Theorem jwt_roundtrip pem ed s now now' ns sub ttl custom :
  gateway_service pem ed = Ok s →
  times_sane now ttl → clock_sane (Unix now') →
  (Unix now - skew ≤ Unix now' ≤ Unix (now + ttl) + skew)%Z →
  utf8_valid ns = true → utf8_valid sub = true → utf8_map custom →
  match GenerateJWT s now ns sub ttl custom with
  | Ok (token, exp) => exp = Unix (now + ttl) ∧ ParseAndVerifyJWT s now' token = Ok (payload now ttl ns sub custom)
  | Err e => ed = None ∧ (pem = EmptyString ∧ e = ErrKeyUnavailable ∨ ∃ k m, signingKey s = Some k ∧ rsa_sign k m = None)
  end.
Proof.
  intros Hs Ht Hc Hw Hns Hsub Hcu. destruct (GenerateJWT s now ns sub ttl custom) as [[token exp] | e] eqn:Hg.
  - eapply minted_verifies; try done. by eapply gateway_service_sound.
  - unfold gateway_service in Hs. apply result_bind_Ok in Hs as (s0 & Hnew & [= <-]). unfold GenerateJWT in Hg.
    destruct ed as [k |]; [done |]. split; [done |]. unfold NewService in Hnew.
    destruct (String.eqb_spec pem EmptyString) as [-> | _]; cbn [negb] in Hnew.
    { injection Hnew as <-. cbn in Hg. left. by injection Hg as <-. }
    destruct (pem_decode pem) as [block |]; [| done]. destruct (parse_pkcs1 block) as [key |]; [| done].
    injection Hnew as <-. cbn [preferEdDSA andb] in Hg. unfold generateRSAJWT in Hg. cbn [signingKey or_err result_bind] in Hg.
    right. eexists key, _. split; [done |].
    match type of Hg with context [rsa_sign key ?m] => destruct (rsa_sign key m) eqn:E; [done | exact E] end.
Qed.
End Roundtrip.
End Service.

(** ** A concrete instance *)

Fixpoint pos_str (p : positive) : string :=
  match p with
  | xH => "x"
  | xO p' => String "o" (pos_str p')
  | xI p' => String "i" (pos_str p')
  end.

Fixpoint str_pos (s : string) : option positive :=
  match s with
  | EmptyString => None
  | String a s' =>
      if Ascii.eqb a "x" then Some xH
      else if Ascii.eqb a "o" then xO <$> str_pos s' else xI <$> str_pos s'
  end.

Lemma str_pos_pos_str p : str_pos (pos_str p) = Some p.
Proof. induction p as [p IH | p IH |]; simpl; rewrite ?IH; done. Qed.

Lemma pos_str_no_dot p : str_mem "." (pos_str p) = false.
Proof. induction p as [p IH | p IH |]; simpl; done. Qed.

#[local] Instance claims_eq_dec : EqDecision JWTClaims.
Proof. solve_decision. Defined.

#[local] Instance header_eq_dec : EqDecision jwtHeader.
Proof. solve_decision. Defined.

#[local] Instance header_countable : Countable jwtHeader.
Proof.
  apply (inj_countable' (λ h, (Alg h, Typ h, Kid h)) (λ '(a, t, k), mkHeader a t k)).
  by intros [].
Defined.

#[local] Instance claims_countable : Countable JWTClaims.
Proof.
  apply (inj_countable'
    (λ c, (Iss c, Sub c, Aud c, (Iat c, Nbf c, Exp c), Namespace c, Custom c))
    (λ '(i, s, a, (x, y, z), n, m), mkClaims i s a x y z n m)).
  by intros [].
Defined.

Definition to_text {A} `{Countable A} (a : A) : string := pos_str (encode a).
Definition of_text {A} `{Countable A} (s : string) : option A := str_pos s ≫= decode.

Lemma of_to_text {A} `{Countable A} (a : A) : of_text (to_text a) = Some a.
Proof. unfold of_text, to_text. rewrite str_pos_pos_str. cbn. apply decode_encode. Qed.

#[local] Instance claims_utf8_dec c : Decision (claims_utf8 c).
Proof. unfold claims_utf8. apply _. Defined.

Definition enum_unmarshal_claims (s : string) : option JWTClaims :=
  c ← of_text s; if decide (claims_utf8 c) then Some c else None.

#[local] Instance enum_token_codec : TokenCodec := {|
  b64_encode := to_text; b64_decode := of_text;
  marshal_header := to_text; unmarshal_header := of_text;
  marshal_claims := to_text;
  unmarshal_claims := enum_unmarshal_claims
|}.

#[local] Instance enum_token_codec_laws : TokenCodecLaws.
Proof.
  split; cbn; intros; [apply of_to_text | apply pos_str_no_dot | apply of_to_text | |].
  - pose proof (of_to_text c) as E. unfold enum_unmarshal_claims, of_text in *. rewrite E. cbn. by rewrite decide_True.
  - unfold enum_unmarshal_claims in *. destruct (of_text s) as [c0 |]; [| done]. cbn in *. by case_decide; simplify_eq.
Qed.

#[local] Instance toy_signatures : Signatures := {|
  ed_key := unit; rsa_key := unit;
  ed_public _ := "ed"; pem_decode := Some; parse_pkcs1 _ := Some tt; rsa_public _ := "rsa";
  ed_sign _ m := "E" +:+ m; ed_verify _ m sig := String.eqb sig ("E" +:+ m);
  sha256 m := m;
  rsa_sign _ m := Some ("R" +:+ m); rsa_verify _ m sig := String.eqb sig ("R" +:+ m)
|}.

#[local] Instance toy_signature_laws : SignatureLaws.
Proof. split; cbn; [intros; apply String.eqb_refl | intros k m sig [= <-]; apply String.eqb_refl]. Qed.

Definition demo_service : Service := mkService (Some tt) "727361" (Some tt) "ed_6564" true.

Example demo_service_built : gateway_service "PEM" (Some tt) = Ok demo_service.
Proof. vm_compute. reflexivity. Qed.

(** The same gateway when its Ed25519 key could not be loaded. *)
Definition rsa_service : Service := mkService (Some tt) "727361" None EmptyString false.

Definition demo_now : time := (unixEpoch + 1700000000 * Second)%Z.

Lemma jwt_roundtrip_witness :
  (∃ token, GenerateJWT demo_service demo_now "alice" "0xA11CE" Hour ∅ = Ok (token, 1700003600%Z) ∧
     ParseAndVerifyJWT demo_service (demo_now + Minute) token = Ok (payload demo_now Hour "alice" "0xA11CE" ∅)) ∧
  ∃ token, GenerateJWT rsa_service demo_now "alice" "0xA11CE" Hour ∅ = Ok (token, 1700003600%Z) ∧
     ParseAndVerifyJWT rsa_service (demo_now + Minute) token = Ok (payload demo_now Hour "alice" "0xA11CE" ∅).
Proof.
  assert (times_sane demo_now Hour) as Ht by (split; split; vm_compute; congruence).
  assert (clock_sane (Unix (demo_now + Minute))) as Hc by (split; vm_compute; congruence).
  assert (Unix demo_now - skew ≤ Unix (demo_now + Minute) ≤ Unix (demo_now + Hour) + skew)%Z as Hw by (split; vm_compute; congruence).
  split; eexists; (split; [reflexivity |]).
  - exact (proj2 (jwt_roundtrip "PEM" (Some tt) demo_service demo_now (demo_now + Minute) "alice" "0xA11CE" Hour ∅
      eq_refl Ht Hc Hw eq_refl eq_refl (map_Forall_empty _))).
  - exact (proj2 (jwt_roundtrip "PEM" None rsa_service demo_now (demo_now + Minute) "alice" "0xA11CE" Hour ∅
      eq_refl Ht Hc Hw eq_refl eq_refl (map_Forall_empty _))).
Defined.

Definition demo_token : string :=
  match GenerateJWT demo_service demo_now "alice" "0xA11CE" Hour ∅ with
  | Ok (token, _) => token
  | Err _ => EmptyString
  end.

Lemma jwt_accepted_witness :
  ParseAndVerifyJWT demo_service (demo_now + Minute) demo_token
  = Ok (payload demo_now Hour "alice" "0xA11CE" ∅) ∧
  ∃ header si sb, signed_by demo_service header si sb.
Proof.
  assert (ParseAndVerifyJWT demo_service (demo_now + Minute) demo_token
    = Ok (payload demo_now Hour "alice" "0xA11CE" ∅)) as Hv by (vm_compute; reflexivity).
  split; [exact Hv |].
  destruct (jwt_accepted demo_service (demo_now + Minute) demo_token _
    ltac:(split; vm_compute; congruence) Hv)
    as (p0 & p1 & p2 & hb & pb & sb & header & _ & _ & _ & _ & _ & _ & Hs & _).
  exists header, (p0 +:+ "." +:+ p1), sb. exact Hs.
Defined.
