(* ===== verification/AuthPipeline.v ===== *)
(** * The gateway's authentication pipeline
      ([core/pkg/gateway/middleware.go], [middleware_cache.go],
      [scope_policy.go])

    Every request passes [authMiddleware], [authorizationMiddleware] and
    [scopeMiddleware] before it reaches a handler; requests for another
    namespace are authenticated by [handleNamespaceGatewayRequest] and proxied
    with internal-auth headers that the namespace gateway trusts.

    Header and query maps send a canonical name to its values.  Two facts
    about a request come from Go's [net] package and are fields of it: whether
    the TCP peer is an internal address ([isInternalIP(remoteAddrIP(r))]).
    The database is what the queries return. *)

From Stdlib Require Import ZArith Lia Ascii String.
From stdpp Require Import base tactics numbers list gmap strings sets.
From S2P Require Import Prelude GoStrings Scopes Jwt.

(** ** Requests *)

Abbreviation values := (gmap string (list string)) (only parsing).

(** [Header.Get] and [url.Values.Get]; [Header.Set], [Header.Del]. *)
Definition vget (h : values) (k : string) : string :=
  match h !! k with
  | Some (v :: _) => v
  | _ => EmptyString
  end.
Definition vset (k v : string) (h : values) : values := <[k := [v]]> h.
Definition vdel (k : string) (h : values) : values := delete k h.

(** The request-scoped values of the context. *)
Record context := mkContext {
  ctxAPIKey : option string;
  ctxJWT : option JWTClaims;
  ctxNamespace : option string;
  ctxScopes : option (gset string);
  ctxOwnerConfirmed : bool
}.

Definition emptyContext : context := mkContext None None None None false.

Definition with_namespace (ns : string) (c : context) : context :=
  mkContext (ctxAPIKey c) (ctxJWT c) (Some ns) (ctxScopes c) (ctxOwnerConfirmed c).
Definition with_jwt (cl : JWTClaims) (c : context) : context :=
  mkContext (ctxAPIKey c) (Some cl) (ctxNamespace c) (ctxScopes c) (ctxOwnerConfirmed c).
Definition with_api_key (k : string) (c : context) : context :=
  mkContext (Some k) (ctxJWT c) (ctxNamespace c) (ctxScopes c) (ctxOwnerConfirmed c).
Definition with_scopes (s : gset string) (c : context) : context :=
  mkContext (ctxAPIKey c) (ctxJWT c) (ctxNamespace c) (Some s) (ctxOwnerConfirmed c).

Record request := mkRequest {
  method : string;
  path : string;
  headers : values;
  query : values;
  peer_internal : bool;
  ctx : context
}.

Definition set_ctx (c : context) (r : request) : request :=
  mkRequest (method r) (path r) (headers r) (query r) (peer_internal r) c.
Definition set_headers (h : values) (r : request) : request :=
  mkRequest (method r) (path r) h (query r) (peer_internal r) (ctx r).
Definition set_query (q : values) (r : request) : request :=
  mkRequest (method r) (path r) (headers r) q (peer_internal r) (ctx r).

Definition markOwnerConfirmed (r : request) : request :=
  set_ctx (mkContext (ctxAPIKey (ctx r)) (ctxJWT (ctx r)) (ctxNamespace (ctx r))
             (ctxScopes (ctx r)) true) r.

(** A middleware hands the request on or answers it. *)
Inductive outcome := Pass (r : request) | Reject (status : Z) (message : string).

Definition then_ (o : outcome) (k : request → outcome) : outcome :=
  match o with
  | Pass r => k r
  | Reject s m => Reject s m
  end.

Definition StatusUnauthorized : Z := 401.
Definition StatusForbidden : Z := 403.
Definition StatusInternalServerError : Z := 500.

(** ** Internal-auth headers *)

Definition HeaderInternalAuthNamespace : string := "X-Internal-Auth-Namespace".
Definition HeaderInternalAuthValidated : string := "X-Internal-Auth-Validated".
Definition HeaderInternalAuthJWTSub : string := "X-Internal-Auth-JWT-Sub".
Definition HeaderInternalAuthJWTCustom : string := "X-Internal-Auth-JWT-Custom".
Definition HeaderInternalAuthScopes : string := "X-Internal-Auth-Scopes".

Definition stripInboundInternalAuthHeaders (h : values) : values :=
  vdel HeaderInternalAuthScopes
    (vdel HeaderInternalAuthJWTCustom
      (vdel HeaderInternalAuthJWTSub
        (vdel HeaderInternalAuthNamespace
          (vdel HeaderInternalAuthValidated h)))).

(** The encoding of the custom claims in a header: base64 of their JSON. *)
Class ClaimsCodec := {
  encode_claims : gmap string string → string;
  decode_claims : string → option (gmap string string)
}.

(** What the code relies on: a map of valid UTF-8 texts survives the encoding,
    which has no white space around it and is not empty. *)
Class ClaimsCodecLaws `{ClaimsCodec} : Prop := {
  decode_encode_claims m : utf8_map m → decode_claims (encode_claims m) = Some m;
  encode_claims_trimmed m : TrimSpace (encode_claims m) = encode_claims m;
  encode_claims_nonempty m : encode_claims m ≠ EmptyString
}.

Definition setInternalAuthJWTHeaders `{ClaimsCodec} (claims : option JWTClaims) (h : values) : values :=
  match claims with
  | None => h
  | Some c =>
      let sub := TrimSpace (Sub c) in
      let h := if negb (String.eqb sub EmptyString) then vset HeaderInternalAuthJWTSub sub h else h in
      if 0 <? size (Custom c) then vset HeaderInternalAuthJWTCustom (encode_claims (Custom c)) h
      else h
  end.

Definition claimsFromInternalAuthHeaders `{ClaimsCodec} (h : values) (namespace : string)
    : option JWTClaims :=
  let sub := TrimSpace (vget h HeaderInternalAuthJWTSub) in
  if String.eqb sub EmptyString then None
  else
    let raw := TrimSpace (vget h HeaderInternalAuthJWTCustom) in
    let custom :=
      if String.eqb raw EmptyString then ∅
      else match decode_claims raw with
           | Some m => if 0 <? size m then m else ∅
           | None => ∅
           end in
    Some (mkClaims EmptyString sub EmptyString 0 0 0 namespace custom).

(** ** Paths *)

Definition publicPaths : list string :=
  ["/health"; "/v1/health"; "/status"; "/v1/status"; "/v1/auth/jwks"; "/.well-known/jwks.json";
   "/v1/version"; "/v1/auth/challenge"; "/v1/auth/verify"; "/v1/auth/register"; "/v1/auth/refresh";
   "/v1/auth/logout"; "/v1/auth/api-key"; "/v1/network/status"; "/v1/network/peers";
   "/v1/internal/tls/check"; "/v1/internal/acme/present"; "/v1/internal/acme/cleanup";
   "/v1/internal/ping"].

Definition isPublicPath (p : string) : bool :=
  if HasPrefix p "/.well-known/acme-challenge/" then true
  else if HasPrefix p "/v1/invoke/" || (HasPrefix p "/v1/functions/" && HasSuffix p "/invoke") then true
  else if HasPrefix p "/v1/internal/deployments/replica/" then true
  else if HasPrefix p "/v1/internal/wg/" then true
  else if String.eqb p "/v1/internal/join" then true
  else if String.eqb p "/v1/internal/namespace/spawn" then true
  else if String.eqb p "/v1/internal/namespace/repair" then true
  else if HasPrefix p "/v1/internal/namespace/webrtc/" then true
  else if HasPrefix p "/v1/vault/" then true
  else if HasPrefix p "/v1/auth/phantom/" then true
  else if bool_decide (p ∈ publicPaths) then true
  else HasPrefix p "/v1/namespace/status".

Definition requiresNamespaceOwnership (p : string) : bool :=
  if String.eqb p "/rqlite" || String.eqb p "/v1/rqlite" || HasPrefix p "/v1/rqlite/" then true
  else if HasPrefix p "/v1/pubsub" then true
  else if HasPrefix p "/v1/rqlite/" then true
  else if HasPrefix p "/v1/proxy/" then true
  else if HasPrefix p "/v1/functions" then true
  else if HasPrefix p "/v1/webrtc/" then true
  else if HasPrefix p "/v1/push/" then true
  else if String.eqb p "/v1/namespace/push-credentials"
          || HasPrefix p "/v1/namespace/push-credentials/" then true
  else if HasPrefix p "/v1/serverless/" then true
  else if String.eqb p "/v1/namespace/keys" || HasPrefix p "/v1/namespace/keys/" then true
  else false.

Definition requiredScope (path : string) : string :=
  if isPublicPath path then EmptyString
  else if String.eqb path "/v1/functions" || HasPrefix path "/v1/functions/" then
    (if HasSuffix path "/ws" then ScopeInvoke else ScopeAdmin)
  else if HasPrefix path "/v1/storage/" then ScopeStorage
  else if String.eqb path "/v1/push/devices" || HasPrefix path "/v1/push/devices/" then ScopePush
  else if HasPrefix path "/v1/push/" then ScopeAdmin
  else if String.eqb path "/v1/namespace/push-credentials"
          || HasPrefix path "/v1/namespace/push-credentials/" then ScopeAdmin
  else if HasPrefix path "/v1/webrtc/" then ScopeWebRTC
  else if HasPrefix path "/v1/namespace/webrtc/" then
    (if HasSuffix path "/status" then EmptyString else ScopeAdmin)
  else if HasPrefix path "/v1/proxy/" then ScopeProxy
  else if HasPrefix path "/v1/pubsub/" then ScopePubsub
  else if HasPrefix path "/v1/cache/" then ScopeCache
  else if String.eqb path "/rqlite" || String.eqb path "/v1/rqlite"
          || HasPrefix path "/v1/rqlite/" then ScopeAdmin
  else if HasPrefix path "/v1/deployments/" then ScopeAdmin
  else if HasPrefix path "/v1/db/sqlite/" then ScopeAdmin
  else if HasPrefix path "/v1/serverless/" then ScopeAdmin
  else if String.eqb path "/v1/namespace/rate-limit" then ScopeAdmin
  else if String.eqb path "/v1/namespace/keys" || HasPrefix path "/v1/namespace/keys/" then ScopeAdmin
  else if String.eqb path "/v1/namespace/delete" || String.eqb path "/v1/namespace/list" then ScopeAdmin
  else EmptyString.

(** ** The cache of API-key entries *)

Record cachedValue := mkCached { value : string; scopes : string; expiresAt : time }.

Record middlewareCache := mkCache { apiKeyNS : gmap string cachedValue; mc_ttl : duration }.

Definition GetAPIKeyEntry (now : time) (apiKey : string) (mc : middlewareCache)
    : option (string * string) :=
  match apiKeyNS mc !! apiKey with
  | Some e => if After now (expiresAt e) then None else Some (value e, scopes e)
  | None => None
  end.

Definition SetAPIKeyEntry (now : time) (apiKey ns sc : string) (mc : middlewareCache)
    : middlewareCache :=
  mkCache (<[apiKey := mkCached ns sc (now + mc_ttl mc)%Z]> (apiKeyNS mc)) (mc_ttl mc).

Definition cleanup (now : time) (mc : middlewareCache) : middlewareCache :=
  mkCache (filter (λ '(k, e), After now (expiresAt e) = false) (apiKeyNS mc)) (mc_ttl mc).

Section Pipeline.
Context `{UnicodeCase} `{ClaimsCodec}.

(** The verifier of tokens, the hash of API keys, the row of a live (not
    revoked) key with its namespace and scopes, the namespace and ownership
    queries, and the namespace this gateway serves. *)
Record gateway := mkGateway {
  ParseAndVerifyJWT : string → option JWTClaims;
  HashAPIKey : string → string;
  key_row : string → option (string * string);
  ensure_namespace : string → bool;
  namespace_id : string → option Z;
  ownership : Z → string → string → bool;
  ClientNamespace : string
}.

(** [lookupAPIKeyEntry]: cache, then the hashed key, then the raw key. *)
Definition lookupAPIKeyEntry (g : gateway) (now : time) (key : string) (mc : middlewareCache)
    : option (string * string) * middlewareCache :=
  match GetAPIKeyEntry now key mc with
  | Some e => (Some e, mc)
  | None =>
      let found k := match key_row g k with
                     | Some (ns, sc) => if String.eqb ns EmptyString then None else Some (ns, sc)
                     | None => None
                     end in
      match found (HashAPIKey g key) with
      | Some (ns, sc) => (Some (ns, sc), SetAPIKeyEntry now key ns sc mc)
      | None =>
          if negb (String.eqb (HashAPIKey g key) key) then
            match found key with
            | Some (ns, sc) => (Some (ns, sc), SetAPIKeyEntry now key ns sc mc)
            | None => (None, mc)
            end
          else (None, mc)
      end
  end.

Definition isWebSocketUpgrade (r : request) : bool :=
  Contains (ToLower (vget (headers r) "Connection")) "upgrade"
  && String.eqb (ToLower (vget (headers r) "Upgrade")) "websocket".

(** A token with two dots looks like a JWT. *)
Definition looks_like_jwt (tok : string) : bool := count_byte "." tok =? 2.

Definition extractAPIKey (r : request) : string :=
  let x := TrimSpace (vget (headers r) "X-API-Key") in
  if negb (String.eqb x EmptyString) then x
  else
    let auth := vget (headers r) "Authorization" in
    let lower := ToLower auth in
    let from_query :=
      if isWebSocketUpgrade r then
        let v := TrimSpace (vget (query r) "api_key") in
        if negb (String.eqb v EmptyString) then v else TrimSpace (vget (query r) "token")
      else EmptyString in
    if negb (String.eqb auth EmptyString) then
      if HasPrefix lower "bearer " then
        let tok := TrimSpace (str_drop 7 auth) in
        if looks_like_jwt tok then from_query else tok
      else if HasPrefix lower "apikey " then TrimSpace (str_drop 7 auth)
      else if negb (Contains auth " ") then
        let tok := TrimSpace auth in
        if negb (looks_like_jwt tok) then tok else from_query
      else from_query
    else from_query.

(** The token of an [Authorization: Bearer] header that looks like a JWT. *)
Definition bearer_token (r : request) : option string :=
  let auth := vget (headers r) "Authorization" in
  if negb (String.eqb auth EmptyString) && HasPrefix (ToLower auth) "bearer " then
    let tok := TrimSpace (str_drop 7 auth) in
    if looks_like_jwt tok then Some tok else None
  else None.

Definition maxQueryJWTLength : nat := 4096.

(** The token of the [jwt] query parameter of a WebSocket upgrade. *)
Definition query_token (r : request) : option string :=
  if isWebSocketUpgrade r then
    let tok := TrimSpace (vget (query r) "jwt") in
    if negb (String.eqb tok EmptyString) && (str_len tok <=? maxQueryJWTLength) && looks_like_jwt tok
    then Some tok else None
  else None.

Definition stripJWTQueryParam (r : request) : request := set_query (vdel "jwt" (query r)) r.

Definition jwt_context (claims : JWTClaims) (c : context) : context :=
  let c := with_jwt claims c in
  let ns := TrimSpace (Namespace claims) in
  if negb (String.eqb ns EmptyString) then with_namespace ns c else c.

(** ** Authentication *)

(** The context of a request whose internal-auth headers are trusted. *)
Definition internal_context (r : request) (ns : string) : context :=
  let c := with_namespace ns (ctx r) in
  let c := match claimsFromInternalAuthHeaders (headers r) ns with
           | Some claims => with_jwt claims c
           | None => c
           end in
  let raw := TrimSpace (vget (headers r) HeaderInternalAuthScopes) in
  if negb (String.eqb raw EmptyString) then with_scopes (ParseScopes raw) c else c.

(** Some namespace when the request was authenticated by another gateway. *)
Definition internal_namespace (r : request) : option string :=
  if String.eqb (vget (headers r) HeaderInternalAuthValidated) "true" && peer_internal r then
    let ns := TrimSpace (vget (headers r) HeaderInternalAuthNamespace) in
    if negb (String.eqb ns EmptyString) then Some ns else None
  else None.

(** A verified token, with the request to hand on. *)
Definition verified_token (g : gateway) (r : request) : option (JWTClaims * request) :=
  match bearer_token r ≫= ParseAndVerifyJWT g with
  | Some claims => Some (claims, r)
  | None =>
      match query_token r ≫= ParseAndVerifyJWT g with
      | Some claims => Some (claims, stripJWTQueryParam r)
      | None => None
      end
  end.

Definition authMiddleware (g : gateway) (now : time) (mc : middlewareCache) (r : request)
    : outcome * middlewareCache :=
  if String.eqb (method r) "OPTIONS" then (Pass r, mc)
  else
    let isPublic := isPublicPath (path r) in
    match internal_namespace r with
    | Some ns => (Pass (set_ctx (internal_context r ns) r), mc)
    | None =>
        match verified_token g r with
        | Some (claims, r') => (Pass (set_ctx (jwt_context claims (ctx r')) r'), mc)
        | None =>
            let key := extractAPIKey r in
            if String.eqb key EmptyString then
              (if isPublic then Pass r else Reject StatusUnauthorized "missing API key", mc)
            else
              match lookupAPIKeyEntry g now key mc with
              | (None, mc) =>
                  (if isPublic then Pass r else Reject StatusUnauthorized "invalid API key", mc)
              | (Some (ns, rawScopes), mc) =>
                  (Pass (set_ctx (with_scopes (ScopesFromStored rawScopes)
                           (with_namespace ns (with_api_key key (ctx r)))) r), mc)
              end
        end
    end.

(** ** Ownership *)

Definition apiKeyOwnerCandidates (ownerType ownerID hashed : string) : list string :=
  if String.eqb ownerType "api_key" && negb (String.eqb hashed EmptyString)
     && negb (String.eqb hashed ownerID)
  then [hashed; ownerID] else [ownerID].

(** The actor of the request: the type and id of the owner to look for. *)
Definition actor (c : context) : option (string * string) :=
  match ctxJWT c with
  | Some claims =>
      let subj := TrimSpace (Sub claims) in
      if negb (String.eqb subj EmptyString) then
        if HasPrefix (ToLower subj) "ak_" || Contains subj ":"
        then Some ("api_key", subj) else Some ("wallet", subj)
      else match ctxAPIKey c with
           | Some s => let s := TrimSpace s in
                       if negb (String.eqb s EmptyString) then Some ("api_key", s) else None
           | None => None
           end
  | None => match ctxAPIKey c with
            | Some s => let s := TrimSpace s in
                        if negb (String.eqb s EmptyString) then Some ("api_key", s) else None
            | None => None
            end
  end%string.

Definition apiKeyFallback (ownerType : string) (c : context) : string :=
  if String.eqb ownerType "wallet" then
    match ctxAPIKey c with
    | Some s => TrimSpace s
    | None => EmptyString
    end
  else EmptyString.

Definition ownsBy (g : gateway) (nsID : Z) (ot oid : string) : bool :=
  let hashed := if String.eqb ot "api_key" then HashAPIKey g oid else EmptyString in
  existsb (λ c, ownership g nsID ot c) (apiKeyOwnerCandidates ot oid hashed).

Definition userNamespace (c : context) : string :=
  match ctxNamespace c with
  | Some s => TrimSpace s
  | None => EmptyString
  end.

Definition gatewayNamespace (g : gateway) : string :=
  if negb (String.eqb (ClientNamespace g) EmptyString) then TrimSpace (ClientNamespace g)
  else "default".

Definition checkOwnership (g : gateway) (r : request) : outcome :=
  let ns := userNamespace (ctx r) in
  let ns := if String.eqb ns EmptyString then TrimSpace (ClientNamespace g) else ns in
  if String.eqb ns EmptyString then Reject StatusForbidden "namespace not resolved"
  else match actor (ctx r) with
  | None => Reject StatusForbidden "missing identity"
  | Some (ownerType, ownerID) =>
      if negb (ensure_namespace g ns) then Reject StatusInternalServerError "namespace"
      else match namespace_id g ns with
      | None => Reject StatusForbidden "namespace not found"
      | Some nsID =>
          let owns := ownsBy g nsID ownerType ownerID in
          let fallback := apiKeyFallback ownerType (ctx r) in
          let owns :=
            if negb owns && String.eqb ownerType "wallet" && negb (String.eqb fallback EmptyString)
            then ownsBy g nsID "api_key" fallback else owns in
          if negb owns then Reject StatusForbidden "forbidden: not an owner of namespace"
          else if String.eqb ownerType "wallet" then Pass (markOwnerConfirmed r) else Pass r
      end
  end.

Definition authorizationMiddleware (g : gateway) (r : request) : outcome :=
  if String.eqb (method r) "OPTIONS" || isPublicPath (path r) then Pass r
  else if String.eqb (path r) "/v1/auth/whoami" then Pass r
  else if HasPrefix (path r) "/v1/namespace/status" then Pass r
  else if String.eqb (vget (headers r) HeaderInternalAuthValidated) "true" && peer_internal r then Pass r
  else
    let un := userNamespace (ctx r) in
    if negb (String.eqb (gatewayNamespace g) "default") && negb (String.eqb un EmptyString)
       && negb (String.eqb un (gatewayNamespace g))
    then Reject StatusForbidden "API key does not belong to this namespace"
    else if negb (requiresNamespaceOwnership (path r)) then Pass r
    else checkOwnership g r.

(** ** Scopes *)

Definition isAPIKeySubject (sub : string) : bool := HasPrefix (ToLower (TrimSpace sub)) "ak_".

Definition customScopes (claims : JWTClaims) : string :=
  TrimSpace (default EmptyString (Custom claims !! "scopes")).

Definition callerScopes (r : request) : gset string :=
  match ctxJWT (ctx r) with
  | Some claims =>
      if isAPIKeySubject (Sub claims) && negb (String.eqb (customScopes claims) EmptyString)
      then ParseScopes (customScopes claims)
      else if ctxOwnerConfirmed (ctx r) then {[ScopeAdmin]}
      else DataPlaneScopes
  | None =>
      match ctxScopes (ctx r) with
      | Some s => s
      | None => ∅
      end
  end.

Definition requiresUserJWT (grant : string) : bool :=
  String.eqb grant ScopeStorage || String.eqb grant ScopeWebRTC || String.eqb grant ScopeProxy.

Definition hasWalletJWT (r : request) : bool :=
  match ctxJWT (ctx r) with
  | Some claims =>
      let sub := TrimSpace (Sub claims) in
      if String.eqb sub EmptyString then false else negb (isAPIKeySubject sub)
  | None => false
  end.

Definition scopeMiddleware (r : request) : outcome :=
  if String.eqb (method r) "OPTIONS" || isPublicPath (path r) then Pass r
  else
    let required := requiredScope (path r) in
    if String.eqb required EmptyString then Pass r
    else
      let scopes := callerScopes r in
      if negb (Has scopes required) then Reject StatusForbidden "insufficient scope"
      else if requiresUserJWT required && negb (IsAdmin scopes) && negb (hasWalletJWT r)
      then Reject StatusUnauthorized "user authentication required (JWT)"
      else Pass r.

(** The three middlewares in the order of [withMiddleware]. *)
Definition pipeline (g : gateway) (now : time) (mc : middlewareCache) (r : request)
    : outcome * middlewareCache :=
  let (o, mc) := authMiddleware g now mc r in
  (then_ (then_ o (authorizationMiddleware g)) scopeMiddleware, mc).

(** ** The hop to a namespace gateway *)

(** [validateAuthForNamespaceProxy]: namespace, claims, scopes, and the
    request with the token stripped from its query. *)
Record validated := mkValidated {
  v_namespace : string;
  v_claims : option JWTClaims;
  v_scopes : string;
  v_error : string
}.

Definition nonblank_namespace (c : JWTClaims) : option (JWTClaims * string) :=
  let ns := TrimSpace (Namespace c) in
  if negb (String.eqb ns EmptyString) then Some (c, ns) else None.

Definition validateAuthForNamespaceProxy (g : gateway) (now : time) (mc : middlewareCache) (r : request)
    : validated * request * middlewareCache :=
  match (bearer_token r ≫= ParseAndVerifyJWT g) ≫= nonblank_namespace with
  | Some (c, ns) => (mkValidated ns (Some c) EmptyString EmptyString, r, mc)
  | None =>
      match (query_token r ≫= ParseAndVerifyJWT g) ≫= nonblank_namespace with
      | Some (c, ns) =>
          (mkValidated ns (Some c) EmptyString EmptyString, stripJWTQueryParam r, mc)
      | None =>
          let key := extractAPIKey r in
          if String.eqb key EmptyString
          then (mkValidated EmptyString None EmptyString EmptyString, r, mc)
          else match lookupAPIKeyEntry g now key mc with
               | (None, mc) => (mkValidated EmptyString None EmptyString "invalid API key", r, mc)
               | (Some (ns, rawScopes), mc) =>
                   (mkValidated ns None (Canonical (ScopesFromStored rawScopes)) EmptyString, r, mc)
               end
      end
  end.

(** The headers of the outgoing request. *)
Definition proxyHeaders (v : validated) (h : values) : values :=
  let h := stripInboundInternalAuthHeaders h in
  if negb (String.eqb (v_namespace v) EmptyString) then
    let h := vset HeaderInternalAuthValidated "true" h in
    let h := vset HeaderInternalAuthNamespace (v_namespace v) h in
    let h := setInternalAuthJWTHeaders (v_claims v) h in
    if negb (String.eqb (v_scopes v) EmptyString)
    then vset HeaderInternalAuthScopes (v_scopes v) h else h
  else h.

(** The guards of [handleNamespaceGatewayRequest] up to the choice of a
    target, and the request that leaves over the mesh. *)
Definition handleNamespaceGatewayRequest (g : gateway) (now : time) (mc : middlewareCache)
    (namespaceName : string) (r : request) : outcome * middlewareCache :=
  let '(v, r, mc) := validateAuthForNamespaceProxy g now mc r in
  let isPublic := isPublicPath (path r) in
  (if negb (String.eqb (v_error v) EmptyString) && negb isPublic
   then Reject StatusUnauthorized (v_error v)
   else if String.eqb (v_namespace v) EmptyString && negb isPublic
   then Reject StatusUnauthorized "authentication required for namespace endpoint"
   else if negb (String.eqb (v_namespace v) EmptyString)
           && negb (String.eqb (v_namespace v) namespaceName)
   then Reject StatusForbidden "API key does not belong to this namespace"
   else Pass (mkRequest (method r) (path r) (proxyHeaders v (headers r)) (query r) true emptyContext),
   mc).

(** ** Lemmas *)

Lemma then_Pass o k r : then_ o k = Pass r ↔ ∃ r0, o = Pass r0 ∧ k r0 = Pass r.
Proof. destruct o; naive_solver. Qed.

(** How a request that is not public came through authentication. *)
Inductive authenticated (g : gateway) (now : time) (mc : middlewareCache) (r : request) : context → Prop :=
| auth_internal ns :
    internal_namespace r = Some ns → authenticated g now mc r (internal_context r ns)
| auth_jwt claims :
    (∃ tok, (bearer_token r = Some tok ∨ query_token r = Some tok) ∧
            ParseAndVerifyJWT g tok = Some claims) →
    internal_namespace r = None →
    authenticated g now mc r (jwt_context claims (ctx r))
| auth_key ns rawScopes :
    (lookupAPIKeyEntry g now (extractAPIKey r) mc).1 = Some (ns, rawScopes) →
    extractAPIKey r ≠ EmptyString → internal_namespace r = None →
    authenticated g now mc r
      (with_scopes (ScopesFromStored rawScopes)
        (with_namespace ns (with_api_key (extractAPIKey r) (ctx r)))).

Lemma verified_token_spec g r claims r' :
  verified_token g r = Some (claims, r') →
  (∃ tok, (bearer_token r = Some tok ∨ query_token r = Some tok) ∧
          ParseAndVerifyJWT g tok = Some claims) ∧
  method r' = method r ∧ path r' = path r ∧ headers r' = headers r ∧
  peer_internal r' = peer_internal r ∧ ctx r' = ctx r.
Proof.
  unfold verified_token.
  destruct (bearer_token r ≫= _) as [c |] eqn:Hb.
  { intros [= <- <-]. apply bind_Some in Hb as (tok & Ht & Hv). split; [eauto | done]. }
  destruct (query_token r ≫= _) as [c |] eqn:Hq; [| done].
  intros [= <- <-]. apply bind_Some in Hq as (tok & Ht & Hv). split; [eauto | done].
Qed.

Lemma authMiddleware_spec g now mc r r' :
  method r ≠ "OPTIONS" → isPublicPath (path r) = false →
  (authMiddleware g now mc r).1 = Pass r' →
  authenticated g now mc r (ctx r') ∧
  method r' = method r ∧ path r' = path r ∧ headers r' = headers r ∧
  peer_internal r' = peer_internal r.
Proof.
  intros Hm Hp. unfold authMiddleware. rewrite Hp.
  destruct (String.eqb_spec (method r) "OPTIONS"); [done |].
  destruct (internal_namespace r) as [ns |] eqn:Hi.
  { intros [= <-]. split; [by constructor | done]. }
  destruct (verified_token g r) as [[claims r1] |] eqn:Hv.
  { intros [= <-]. apply verified_token_spec in Hv as (Htok & H1 & H2 & H3 & H4 & H5).
    cbn. rewrite H5. split; [by constructor | done]. }
  destruct (String.eqb_spec (extractAPIKey r) EmptyString) as [| Hk]; [done |].
  destruct (lookupAPIKeyEntry g now (extractAPIKey r) mc) as [[[ns sc] |] mc'] eqn:Hl; [| done].
  intros [= <-]. split; [| done]. cbn. apply auth_key; [by rewrite Hl | done | done].
Qed.

Lemma ownsBy_wallet g nsID oid : ownsBy g nsID "wallet" oid = ownership g nsID "wallet" oid.
Proof. unfold ownsBy. simpl. by rewrite orb_false_r. Qed.

(** The owner check confirms an owner only for a wallet that owns the
    namespace. *)
Definition wallet_owner (g : gateway) (c : context) : Prop :=
  ∃ sub ns nsID, actor c = Some ("wallet"%string, sub) ∧
    ns = (if String.eqb (userNamespace c) EmptyString then TrimSpace (ClientNamespace g)
          else userNamespace c) ∧
    namespace_id g ns = Some nsID ∧
    (ownership g nsID "wallet" sub = true ∨
     apiKeyFallback "wallet" c ≠ EmptyString ∧ ownsBy g nsID "api_key" (apiKeyFallback "wallet" c) = true).

Lemma checkOwnership_Pass g r r' :
  checkOwnership g r = Pass r' → r' = r ∨ r' = markOwnerConfirmed r ∧ wallet_owner g (ctx r).
Proof.
  unfold checkOwnership.
  set (ns := if String.eqb (userNamespace (ctx r)) EmptyString then _ else _).
  destruct (String.eqb ns EmptyString); [done |].
  destruct (actor (ctx r)) as [[ot oid] |] eqn:Ha; [| done].
  destruct (negb (ensure_namespace g ns)); [done |].
  destruct (namespace_id g ns) as [nsID |] eqn:Hn; [| done].
  destruct (String.eqb_spec ot "wallet") as [-> | Hne].
  2: { rewrite andb_false_r. cbn [andb]. destruct (negb (ownsBy g nsID ot oid)); [done |].
       intros [= <-]. by left. }
  rewrite andb_true_r, ownsBy_wallet.
  destruct (ownership g nsID "wallet" oid) eqn:Ho; cbn [negb andb].
  { intros [= <-]. right. split; [done |]. exists oid, ns, nsID. auto. }
  destruct (String.eqb_spec (apiKeyFallback "wallet" (ctx r)) EmptyString) as [| Hf]; [done |].
  cbn [negb]. destruct (ownsBy g nsID "api_key" _) eqn:Hb; [| done].
  intros [= <-]. right. split; [done |]. exists oid, ns, nsID. auto 10.
Qed.

Definition trusted_hop (r : request) : Prop :=
  vget (headers r) HeaderInternalAuthValidated = "true"%string ∧ peer_internal r = true.

(** What a request that passed the ownership middleware on a path that is
    neither public nor exempt satisfies. *)
Lemma authorizationMiddleware_Pass g r r' :
  method r ≠ "OPTIONS"%string → isPublicPath (path r) = false →
  path r ≠ "/v1/auth/whoami"%string →
  authorizationMiddleware g r = Pass r' →
  (r' = r ∨ r' = markOwnerConfirmed r ∧ wallet_owner g (ctx r) ∧ ¬ trusted_hop r ∧
            requiresNamespaceOwnership (path r) = true) ∧
  (trusted_hop r ∨ gatewayNamespace g = "default"%string ∨ userNamespace (ctx r) = EmptyString ∨
   userNamespace (ctx r) = gatewayNamespace g).
Proof.
  intros Hm Hp Hw. unfold authorizationMiddleware. rewrite Hp.
  destruct (String.eqb_spec (method r) "OPTIONS"); [done |]. cbn [orb].
  destruct (String.eqb_spec (path r) "/v1/auth/whoami"); [done |].
  destruct (HasPrefix (path r) "/v1/namespace/status") eqn:Hst.
  { exfalso. revert Hp. unfold isPublicPath. rewrite Hst. repeat case_match; done. }
  destruct (String.eqb (vget (headers r) HeaderInternalAuthValidated) "true" && peer_internal r) eqn:Ht.
  { intros [= <-]. split; [by left |]. left. apply andb_true_iff in Ht as [Hv%String.eqb_eq Hi].
    by split. }
  assert (¬ trusted_hop r) as Hnt.
  { intros [Hv Hi]. by rewrite Hv, Hi in Ht. }
  intros Hpass. split.
  - destruct (negb _ && _ && _); [done |].
    destruct (requiresNamespaceOwnership (path r)) eqn:Hro; cbn [negb] in Hpass.
    + apply checkOwnership_Pass in Hpass as [-> | [-> Hwo]]; auto.
    + injection Hpass as <-. by left.
  - right. destruct (String.eqb_spec (gatewayNamespace g) "default"); [auto |].
    destruct (String.eqb_spec (userNamespace (ctx r)) EmptyString); [auto |].
    destruct (String.eqb_spec (userNamespace (ctx r)) (gatewayNamespace g)); [auto | done].
Qed.

(** ** Who reaches the control plane *)

(** The credentials that make a request an administrator's. *)
Inductive admin_credential (g : gateway) (now : time) (mc : middlewareCache) (r : request) : Prop :=
| admin_hop ns :
    (* authenticated by the main gateway, over the mesh *)
    internal_namespace r = Some ns → trusted_hop r →
    ScopeAdmin ∈ callerScopes (set_ctx (internal_context r ns) r) →
    admin_credential g now mc r
| admin_exchanged_key tok claims :
    (* a verified token that was exchanged for an admin key *)
    bearer_token r = Some tok ∨ query_token r = Some tok →
    ParseAndVerifyJWT g tok = Some claims → isAPIKeySubject (Sub claims) = true →
    ScopeAdmin ∈ ParseScopes (customScopes claims) →
    admin_credential g now mc r
| admin_owner tok claims ns nsID :
    (* a verified token of a wallet that owns the namespace *)
    bearer_token r = Some tok ∨ query_token r = Some tok →
    ParseAndVerifyJWT g tok = Some claims → isAPIKeySubject (Sub claims) = false →
    ns = (if String.eqb (TrimSpace (Namespace claims)) EmptyString
          then TrimSpace (ClientNamespace g) else TrimSpace (Namespace claims)) →
    namespace_id g ns = Some nsID → ownership g nsID "wallet" (TrimSpace (Sub claims)) = true →
    requiresNamespaceOwnership (path r) = true →
    admin_credential g now mc r
| admin_key ns rawScopes :
    (* a live API key with the admin grant, or one from before scopes *)
    (lookupAPIKeyEntry g now (extractAPIKey r) mc).1 = Some (ns, rawScopes) →
    extractAPIKey r ≠ EmptyString →
    ScopeAdmin ∈ ParseScopes rawScopes ∨ TrimSpace rawScopes = EmptyString →
    admin_credential g now mc r.

Lemma pipeline_Pass g now mc r r' :
  method r ≠ "OPTIONS"%string → isPublicPath (path r) = false →
  path r ≠ "/v1/auth/whoami"%string → (pipeline g now mc r).1 = Pass r' →
  ∃ r1, (authMiddleware g now mc r).1 = Pass r1 ∧
    authorizationMiddleware g r1 = Pass r' ∧ scopeMiddleware r' = Pass r' ∧
    authenticated g now mc r (ctx r1) ∧ method r1 = method r ∧ path r1 = path r ∧
    headers r1 = headers r ∧ peer_internal r1 = peer_internal r ∧
    method r' = method r ∧ path r' = path r.
Proof.
  intros Hm Hp Hw. unfold pipeline.
  destruct (authMiddleware g now mc r) as [o mc'] eqn:Ha. cbn [fst].
  rewrite then_Pass. intros (r2 & H2 & Hs). apply then_Pass in H2 as (r1 & -> & H2).
  pose proof (authMiddleware_spec g now mc r r1 Hm Hp) as Hauth. rewrite Ha in Hauth.
  specialize (Hauth eq_refl) as (Hauth & E1 & E2 & E3 & E4).
  assert (r' = r2) as ->.
  { revert Hs. unfold scopeMiddleware. repeat case_match; congruence. }
  destruct (authorizationMiddleware_Pass g r1 r2) as [Hr2 _]; [rewrite ?E1, ?E2; assumption.. |].
  exists r1. assert (method r2 = method r1 ∧ path r2 = path r1) as [-> ->].
  { destruct Hr2 as [-> | [-> _]]; done. }
  auto 12.
Qed.

Lemma scopeMiddleware_Pass r required :
  method r ≠ "OPTIONS"%string → isPublicPath (path r) = false →
  requiredScope (path r) = required → required ≠ EmptyString →
  scopeMiddleware r = Pass r →
  (ScopeAdmin ∈ callerScopes r ∨ required ∈ callerScopes r) ∧
  (requiresUserJWT required = true → ScopeAdmin ∈ callerScopes r ∨ hasWalletJWT r = true).
Proof.
  intros Hm Hp Hreq Hne. unfold scopeMiddleware. rewrite Hp, Hreq.
  destruct (String.eqb_spec (method r) "OPTIONS"); [done |]. cbn [orb].
  destruct (String.eqb_spec required EmptyString); [done |].
  unfold Has, IsAdmin. destruct (String.eqb_spec required EmptyString); [done |].
  intros Hpass. repeat case_bool_decide; cbn [negb andb] in *; try done; try (split; by auto).
  rewrite andb_true_r in Hpass.
  destruct (requiresUserJWT required) eqn:Hu; [| split; [by right | done]].
  destruct (hasWalletJWT r); [split; [by right | by right] | done].
Qed.

Lemma admin_not_data_plane : ScopeAdmin ∉ DataPlaneScopes.
Proof. unfold DataPlaneScopes, ScopeAdmin. set_solver by done. Qed.

Lemma internal_namespace_trusted r ns : internal_namespace r = Some ns → trusted_hop r.
Proof.
  unfold internal_namespace, trusted_hop.
  destruct (String.eqb_spec (vget (headers r) HeaderInternalAuthValidated) "true"); [| done].
  destruct (peer_internal r); done.
Qed.

Lemma jwt_context_fields claims :
  ctxJWT (jwt_context claims emptyContext) = Some claims ∧
  ctxAPIKey (jwt_context claims emptyContext) = None ∧
  ctxOwnerConfirmed (jwt_context claims emptyContext) = false ∧
  userNamespace (jwt_context claims emptyContext) = TrimSpace (Namespace claims).
Proof.
  unfold jwt_context. destruct (String.eqb_spec (TrimSpace (Namespace claims)) EmptyString) as [E | E];
    cbn; repeat split; unfold userNamespace; cbn; [by rewrite E | by rewrite TrimSpace_idemp].
Qed.

Lemma wallet_owner_jwt g claims :
  wallet_owner g (jwt_context claims emptyContext) →
  isAPIKeySubject (Sub claims) = false ∧
  ∃ nsID, namespace_id g (if String.eqb (TrimSpace (Namespace claims)) EmptyString
                          then TrimSpace (ClientNamespace g) else TrimSpace (Namespace claims)) = Some nsID
    ∧ ownership g nsID "wallet" (TrimSpace (Sub claims)) = true.
Proof.
  destruct (jwt_context_fields claims) as (Hj & Hk & _ & Hu).
  intros (sub & ns & nsID & Ha & Hns & Hid & Ho). rewrite Hu in Hns.
  unfold actor in Ha. rewrite Hj, Hk in Ha.
  destruct (negb _); [| done].
  destruct (HasPrefix (ToLower (TrimSpace (Sub claims))) "ak_") eqn:Hak; [done |].
  cbn [orb] in Ha. destruct (Contains _ _); [done |]. injection Ha as <-.
  split; [exact Hak |]. exists nsID. split; [by rewrite <- Hns |].
  destruct Ho as [Ho | [Hf _]]; [done |].
  unfold apiKeyFallback in Hf. rewrite Hk in Hf. done.
Qed.

Lemma wallet_owner_needs_jwt g c : ctxJWT c = None → ¬ wallet_owner g c.
Proof.
  intros Hj (sub & ns & nsID & Ha & _). unfold actor in Ha. rewrite Hj in Ha.
  destruct (ctxAPIKey c); [| done]. by destruct (negb _).
Qed.

Lemma callerScopes_jwt_admin g claims r1 r' :
  ctx r1 = jwt_context claims emptyContext →
  r' = r1 ∨ r' = markOwnerConfirmed r1 ∧ wallet_owner g (ctx r1) →
  ScopeAdmin ∈ callerScopes r' →
  isAPIKeySubject (Sub claims) = true ∧ ScopeAdmin ∈ ParseScopes (customScopes claims)
  ∨ r' = markOwnerConfirmed r1 ∧ wallet_owner g (ctx r1).
Proof.
  intros Hc Hr' Hadm. destruct (jwt_context_fields claims) as (Hj & _ & Hoc & _).
  destruct Hr' as [-> | Hr']; [left | by right].
  unfold callerScopes in Hadm. rewrite Hc, Hj, Hoc in Hadm.
  destruct (isAPIKeySubject (Sub claims)), (String.eqb (customScopes claims) EmptyString);
    cbn [andb negb] in Hadm; [| done | |]; by apply admin_not_data_plane in Hadm.
Qed.

(** C1: who comes through authentication, ownership and scopes, on a path that
    is neither public nor [whoami].  To a control-plane path: only a request
    with an administrator's credential, that is, one authenticated by the main
    gateway over the mesh with admin scopes, a verified token that was
    exchanged for an admin key, a verified token of a wallet that owns the
    namespace (on the paths that check ownership), or an API key that is live
    and holds the admin grant (or predates scopes).  To any path of a gateway
    that serves one namespace: unless a peer of the mesh sent the header of a
    validated request, which is then not checked further, only a request whose
    credential belongs to this namespace or names none. *)
Theorem pipeline_admin g now mc r r' :
  ctx r = emptyContext → method r ≠ "OPTIONS"%string →
  isPublicPath (path r) = false → path r ≠ "/v1/auth/whoami"%string →
  (pipeline g now mc r).1 = Pass r' →
  (requiredScope (path r) = ScopeAdmin → admin_credential g now mc r) ∧
  (trusted_hop r ∨ gatewayNamespace g = "default"%string ∨
   userNamespace (ctx r') = EmptyString ∨ userNamespace (ctx r') = gatewayNamespace g).
Proof.
  intros Hctx Hm Hp Hw Hpass.
  apply pipeline_Pass in Hpass as (r1 & _ & Hauthz & Hscope & Hauth & E1 & E2 & E3 & E4 & E5 & E6);
    [| done..].
  assert (trusted_hop r1 ↔ trusted_hop r) as Hhop by (unfold trusted_hop; by rewrite E3, E4).
  apply authorizationMiddleware_Pass in Hauthz as [Hr' Hns]; [| rewrite ?E1, ?E2; assumption..].
  split.
  - intros Hreq. apply (scopeMiddleware_Pass r' ScopeAdmin) in Hscope as [Hadm _]; [| rewrite ?E5, ?E6; assumption || discriminate..].
    assert (ScopeAdmin ∈ callerScopes r') as Hadm' by tauto. clear Hadm.
    inversion Hauth as [ns Hi Hc | claims (tok & Htok & Hv) Hi Hc | ns raw Hl Hk Hi Hc].
    + pose proof (internal_namespace_trusted _ _ Hi) as Ht.
      destruct Hr' as [-> | (_ & _ & Hnt & _)]; [| tauto].
      apply (admin_hop g now mc r ns); [done | done |].
      unfold callerScopes in *. cbn. by rewrite Hc.
    + rewrite Hctx in Hc. symmetry in Hc.
      destruct (callerScopes_jwt_admin g claims r1 r' Hc) as [[Hak Hs] | [-> Hwo]]; [tauto | done | |].
      * by apply (admin_exchanged_key g now mc r tok claims).
      * rewrite Hc in Hwo. apply wallet_owner_jwt in Hwo as (Hnak & nsID & Hid & Ho).
        eapply (admin_owner g now mc r tok claims _ nsID); [done | done | done | done | done | done |].
        destruct Hr' as [Hr' | (_ & _ & _ & Hro)]; [| by rewrite <- E2].
        apply (f_equal (λ q, ctxOwnerConfirmed (ctx q))) in Hr'. cbn in Hr'.
        rewrite Hc in Hr'. by destruct (jwt_context_fields claims) as (_ & _ & Hoc & _); rewrite Hoc in Hr'.
    + rewrite Hctx in Hc.
      assert (r' = r1) as ->.
      { destruct Hr' as [-> | (_ & Hwo & _)]; [done |].
        exfalso. revert Hwo. apply wallet_owner_needs_jwt. by rewrite <- Hc. }
      apply (admin_key g now mc r ns raw); [done | done |].
      unfold callerScopes in Hadm'. rewrite <- Hc in Hadm'. cbn in Hadm'.
      unfold ScopesFromStored in Hadm'.
      destruct (String.eqb_spec (TrimSpace raw) EmptyString); [by right | by left].
  - rewrite Hhop in Hns. destruct Hr' as [-> | [-> _]]; exact Hns.
Qed.

(** Storage, WebRTC and the anonymous proxy are reached only with the
    admin grant or with the token of a signed-in user: an API key, or a token
    exchanged for one, does not open them by itself. *)
Theorem data_plane_needs_user g now mc r r' :
  method r ≠ "OPTIONS"%string →
  requiresUserJWT (requiredScope (path r)) = true →
  (pipeline g now mc r).1 = Pass r' →
  ScopeAdmin ∈ callerScopes r' ∨
  ∃ claims, ctxJWT (ctx r') = Some claims ∧ TrimSpace (Sub claims) ≠ EmptyString ∧
            isAPIKeySubject (Sub claims) = false.
Proof.
  intros Hm Hreq Hpass.
  assert (requiredScope (path r) ≠ EmptyString) as Hne by (intros E; by rewrite E in Hreq).
  assert (isPublicPath (path r) = false) as Hp.
  { destruct (isPublicPath (path r)) eqn:E; [| done]. unfold requiredScope in Hne. by rewrite E in Hne. }
  assert (path r ≠ "/v1/auth/whoami"%string) as Hw by (intros E; by rewrite E in Hreq).
  apply pipeline_Pass in Hpass as (r1 & _ & _ & Hscope & _ & _ & _ & _ & _ & E5 & E6); [| done..].
  apply (scopeMiddleware_Pass r' (requiredScope (path r))) in Hscope as [_ Hu]; [| rewrite ?E5, ?E6; assumption || reflexivity..].
  destruct (Hu Hreq) as [Ha | Hj]; [by left | right].
  unfold hasWalletJWT in Hj. destruct (ctxJWT (ctx r')) as [claims |]; [| done].
  exists claims. split; [done |].
  destruct (String.eqb_spec (TrimSpace (Sub claims)) EmptyString); [done |]. split; [done |].
  apply negb_true_iff in Hj. unfold isAPIKeySubject in *. by rewrite TrimSpace_idemp in Hj.
Qed.

(** ** Header maps *)

Lemma vget_vset_eq k v h : vget (vset k v h) k = v.
Proof. unfold vget, vset. by rewrite lookup_insert_eq. Qed.

Lemma vget_vset_ne k k' v h : k' ≠ k → vget (vset k v h) k' = vget h k'.
Proof. intros. unfold vget, vset. by rewrite lookup_insert_ne. Qed.

Lemma vget_vdel_eq k h : vget (vdel k h) k = EmptyString.
Proof. unfold vget, vdel. by rewrite lookup_delete_eq. Qed.

Lemma vget_vdel_ne k k' h : k' ≠ k → vget (vdel k h) k' = vget h k'.
Proof. intros. unfold vget, vdel. by rewrite lookup_delete_ne. Qed.

(** After stripping, every internal-auth header reads as absent. *)
Lemma strip_absent h k :
  k ∈ [HeaderInternalAuthScopes; HeaderInternalAuthJWTCustom; HeaderInternalAuthJWTSub;
       HeaderInternalAuthNamespace; HeaderInternalAuthValidated] →
  vget (stripInboundInternalAuthHeaders h) k = EmptyString.
Proof.
  unfold stripInboundInternalAuthHeaders. rewrite !elem_of_cons, elem_of_nil. intros Hk.
  destruct_or! Hk; try done; subst k;
    repeat (first [apply vget_vdel_eq | rewrite vget_vdel_ne by done]).
Qed.

Lemma setInternalAuthJWTHeaders_other claims h k :
  k ≠ HeaderInternalAuthJWTSub → k ≠ HeaderInternalAuthJWTCustom →
  vget (setInternalAuthJWTHeaders claims h) k = vget h k.
Proof.
  intros H1 H2. unfold setInternalAuthJWTHeaders. destruct claims as [c |]; [| done].
  repeat case_match; rewrite ?vget_vset_ne by done; done.
Qed.

(** The claims the namespace gateway rebuilds from a verified token. *)
Definition forwarded_claims (ns : string) (c : JWTClaims) : option JWTClaims :=
  let sub := TrimSpace (Sub c) in
  if String.eqb sub EmptyString then None
  else Some (mkClaims EmptyString sub EmptyString 0 0 0 ns (Custom c)).

Lemma claims_roundtrip `{!ClaimsCodecLaws} h ns claims :
  (∀ c, claims = Some c → utf8_map (Custom c)) →
  vget h HeaderInternalAuthJWTSub = EmptyString →
  vget h HeaderInternalAuthJWTCustom = EmptyString →
  claimsFromInternalAuthHeaders (setInternalAuthJWTHeaders claims h) ns
  = claims ≫= forwarded_claims ns.
Proof.
  intros Hu Hs Hc. unfold claimsFromInternalAuthHeaders, setInternalAuthJWTHeaders.
  destruct claims as [c |]; cbn [mbind option_bind]; [| by rewrite Hs].
  unfold forwarded_claims. set (sub := TrimSpace (Sub c)).
  destruct (Nat.ltb_spec 0 (size (Custom c))) as [Hz | Hz].
  - rewrite (vget_vset_ne HeaderInternalAuthJWTCustom HeaderInternalAuthJWTSub) by done.
    rewrite vget_vset_eq, encode_claims_trimmed, decode_encode_claims by by apply Hu.
    destruct (String.eqb_spec (encode_claims (Custom c)) EmptyString) as [E | _];
      [by apply encode_claims_nonempty in E |].
    destruct (Nat.ltb_spec 0 (size (Custom c))); [| lia].
    destruct (String.eqb_spec sub EmptyString) as [E | E]; cbn [negb].
    + by rewrite Hs.
    + rewrite vget_vset_eq. unfold sub. rewrite TrimSpace_idemp. fold sub.
      by destruct (String.eqb_spec sub EmptyString).
  - assert (Custom c = ∅) as Hempty by (apply map_size_empty_inv; lia).
    destruct (String.eqb_spec sub EmptyString) as [E | E]; cbn [negb].
    + by rewrite Hs.
    + rewrite vget_vset_eq, vget_vset_ne, Hc by done. unfold sub. rewrite TrimSpace_idemp. fold sub.
      destruct (String.eqb_spec sub EmptyString); [done |]. rewrite Hempty. done.
Qed.

(** The context the namespace gateway derives from what was validated. *)
Definition forwarded_context (ns : string) (v : validated) : context :=
  mkContext None (v_claims v ≫= forwarded_claims ns) (Some ns)
    (let raw := TrimSpace (v_scopes v) in
     if String.eqb raw EmptyString then None else Some (ParseScopes raw))
    false.

Lemma proxyHeaders_context `{!ClaimsCodecLaws} r v h ns :
  headers r = proxyHeaders v h → peer_internal r = true → ctx r = emptyContext →
  v_namespace v = ns → TrimSpace ns = ns → ns ≠ EmptyString → (∀ c, v_claims v = Some c → utf8_map (Custom c)) →
  internal_namespace r = Some ns ∧ internal_context r ns = forwarded_context ns v.
Proof.
  intros Hh Hpeer Hctx Hns Htrim Hne Hu. unfold proxyHeaders in Hh. rewrite Hns in Hh.
  destruct (String.eqb_spec ns EmptyString) as [| _]; [done |]. cbn [negb] in Hh.
  set (h0 := vset HeaderInternalAuthNamespace ns
    (vset HeaderInternalAuthValidated "true" (stripInboundInternalAuthHeaders h))) in Hh.
  assert (vget h0 HeaderInternalAuthJWTSub = EmptyString
          ∧ vget h0 HeaderInternalAuthJWTCustom = EmptyString
          ∧ vget h0 HeaderInternalAuthScopes = EmptyString) as (Hs & Hc & Hsc).
  { unfold h0. rewrite !vget_vset_ne by done. rewrite !strip_absent; [done | ..]; set_solver. }
  assert (vget h0 HeaderInternalAuthValidated = "true"%string
          ∧ vget h0 HeaderInternalAuthNamespace = ns) as [Hv Hn].
  { unfold h0. rewrite vget_vset_ne, !vget_vset_eq by done. done. }
  set (h1 := setInternalAuthJWTHeaders (v_claims v) h0) in Hh.
  assert (∀ k, k ≠ HeaderInternalAuthScopes → vget (headers r) k = vget h1 k) as Hr.
  { intros k Hk. rewrite Hh. destruct (negb _); [by rewrite vget_vset_ne | done]. }
  assert (vget (headers r) HeaderInternalAuthScopes = v_scopes v) as Hscopes.
  { rewrite Hh. destruct (String.eqb_spec (v_scopes v) EmptyString) as [E | E]; cbn [negb].
    - unfold h1. rewrite setInternalAuthJWTHeaders_other by done. by rewrite Hsc.
    - by rewrite vget_vset_eq. }
  split.
  - unfold internal_namespace. rewrite !Hr by done. unfold h1.
    rewrite !setInternalAuthJWTHeaders_other, Hv, Hn, Hpeer by done. cbn. rewrite Htrim.
    by destruct (String.eqb_spec ns EmptyString).
  - unfold internal_context, forwarded_context. rewrite Hscopes, Hctx.
    assert (claimsFromInternalAuthHeaders (headers r) ns = v_claims v ≫= forwarded_claims ns) as ->.
    { unfold claimsFromInternalAuthHeaders. rewrite !Hr by done.
      exact (claims_roundtrip h0 ns (v_claims v) Hu Hs Hc). }
    destruct (v_claims v ≫= forwarded_claims ns);
      destruct (String.eqb (TrimSpace (v_scopes v)) EmptyString); done.
Qed.

(** The claims of a verified token were read from JSON. *)
Definition tokens_utf8 (g : gateway) : Prop :=
  ∀ tok c, ParseAndVerifyJWT g tok = Some c → utf8_map (Custom c).

Lemma validated_utf8 g now mc r c :
  tokens_utf8 g → v_claims (validateAuthForNamespaceProxy g now mc r).1.1 = Some c → utf8_map (Custom c).
Proof.
  assert (∀ o c' ns, ((o ≫= ParseAndVerifyJWT g) ≫= nonblank_namespace) = Some (c', ns) → ∃ tok, ParseAndVerifyJWT g tok = Some c') as Hv.
  { intros [tok |] c' ns; [| done]. cbn. destruct (ParseAndVerifyJWT g tok) as [c0 |] eqn:E; [| done]. cbn.
    unfold nonblank_namespace. destruct (negb _); [| done]. intros [= <- _]. by exists tok. }
  intros Hu. unfold validateAuthForNamespaceProxy.
  destruct ((bearer_token r ≫= _) ≫= _) as [[c1 ns1] |] eqn:H1; [apply Hv in H1 as [tok H1]; intros [= <-]; by eapply Hu |].
  destruct ((query_token r ≫= _) ≫= _) as [[c2 ns2] |] eqn:H2; [apply Hv in H2 as [tok H2]; intros [= <-]; by eapply Hu |].
  destruct (String.eqb _ _); [done |]. destruct (lookupAPIKeyEntry _ _ _ _) as [[[ns raw] |] mc1]; done.
Qed.

(** C32: what a namespace gateway trusts about a proxied request is what the
    main gateway validated and nothing the client sent: without a validated
    credential the request arrives untrusted, whatever headers it carried;
    with one it belongs to the target namespace, and the namespace gateway
    derives exactly the validated subject, custom claims and scopes. *)
Theorem proxy_hop_faithful `{!ClaimsCodecLaws} g now mc name r r' :
  tokens_utf8 g → TrimSpace name = name → name ≠ EmptyString →
  (handleNamespaceGatewayRequest g now mc name r).1 = Pass r' →
  let v := (validateAuthForNamespaceProxy g now mc r).1.1 in
  if String.eqb (v_namespace v) EmptyString
  then internal_namespace r' = None ∧ isPublicPath (path r') = true
  else v_namespace v = name ∧ internal_namespace r' = Some name ∧
       internal_context r' name = forwarded_context name v.
Proof.
  intros Hu Htrim Hne. unfold handleNamespaceGatewayRequest.
  pose proof (λ c, validated_utf8 g now mc r c Hu) as Hvu.
  destruct (validateAuthForNamespaceProxy g now mc r) as [[v r1] mc1]. cbn [fst].
  destruct (negb (String.eqb (v_error v) EmptyString) && negb (isPublicPath (path r1))); [done |].
  destruct (String.eqb_spec (v_namespace v) EmptyString) as [E | E]; cbn [andb negb].
  - destruct (isPublicPath (path r1)) eqn:Hp; cbn [negb]; [| done]. intros [= <-]. split; [| done].
    unfold internal_namespace. cbn. unfold proxyHeaders. rewrite E. cbn [String.eqb negb].
    rewrite strip_absent; [done | set_solver].
  - destruct (String.eqb_spec (v_namespace v) name) as [En | En]; cbn [negb]; [| done].
    intros [= <-]. split; [done |]. by eapply proxyHeaders_context.
Qed.

(** ** Revocation and the cache *)

Inductive mc_event := EvLookup (now : time) (key : string) (g : gateway) | EvCleanup (now : time).

Fixpoint run_mc (evs : list mc_event) (mc : middlewareCache) : middlewareCache :=
  match evs with
  | [] => mc
  | EvLookup now key g :: evs' => run_mc evs' (lookupAPIKeyEntry g now key mc).2
  | EvCleanup now :: evs' => run_mc evs' (cleanup now mc)
  end.

(** The database has a live row for the key. *)
Definition answered (g : gateway) (key : string) (e : string * string) : Prop :=
  key_row g (HashAPIKey g key) = Some e ∨ key_row g key = Some e.

Definition cache_sound (ttl : duration) (past : list mc_event) (mc : middlewareCache) : Prop :=
  mc_ttl mc = ttl ∧
  ∀ key c, apiKeyNS mc !! key = Some c →
    ∃ now g, EvLookup now key g ∈ past ∧ answered g key (value c, scopes c)
             ∧ expiresAt c = (now + ttl)%Z.

Lemma lookup_cases g now key mc :
  let (res, mc') := lookupAPIKeyEntry g now key mc in
  (res = GetAPIKeyEntry now key mc ∧ mc' = mc ∧ (is_Some res ∨ res = None)) ∨
  ∃ ns sc, res = Some (ns, sc) ∧ answered g key (ns, sc) ∧ mc' = SetAPIKeyEntry now key ns sc mc.
Proof.
  unfold lookupAPIKeyEntry, answered.
  destruct (GetAPIKeyEntry now key mc) as [e |] eqn:Hg; [left; eauto |].
  destruct (key_row g (HashAPIKey g key)) as [[ns sc] |] eqn:Hh;
    [destruct (String.eqb ns EmptyString) |]; try (right; by eauto 10);
    destruct (negb _); try (left; by auto);
    destruct (key_row g key) as [[ns2 sc2] |] eqn:Hk;
    try destruct (String.eqb ns2 EmptyString); try (left; by auto); right; eauto 10.
Qed.

Lemma cache_sound_mono ttl past past' mc :
  past ⊆ past' → cache_sound ttl past mc → cache_sound ttl past' mc.
Proof.
  intros Hsub [Ht Hc]. split; [done |]. intros key c Hk.
  destruct (Hc key c Hk) as (now & g & Hin & Hrest). exists now, g. split; [by apply Hsub | done].
Qed.

Lemma run_mc_sound ttl evs past mc :
  cache_sound ttl past mc → cache_sound ttl (past ++ evs) (run_mc evs mc).
Proof.
  revert past mc. induction evs as [| ev evs IH]; intros past mc Hs; [by rewrite app_nil_r |].
  rewrite cons_middle, app_assoc. destruct ev as [now key g | now]; cbn [run_mc]; apply IH.
  - pose proof (lookup_cases g now key mc) as Hc.
    destruct (lookupAPIKeyEntry g now key mc) as [res mc']. cbn [snd].
    destruct Hc as [(_ & -> & _) | (ns & sc & _ & Ha & ->)];
      [eapply cache_sound_mono; [| exact Hs]; set_solver |].
    destruct Hs as [Ht Hs]. split; [done |]. intros key' c. cbn.
    destruct (decide (key' = key)) as [-> | Hne].
    + rewrite lookup_insert_eq. intros [= <-]. exists now, g. cbn. rewrite Ht.
      split; [set_solver | done].
    + rewrite lookup_insert_ne by done. intros Hk. destruct (Hs key' c Hk) as (n & g' & Hin & Hrest).
      exists n, g'. split; [set_solver | done].
  - eapply cache_sound_mono with (past := past); [set_solver |]. destruct Hs as [Ht Hs]. split; [done |].
    intros key c Hk. cbn in Hk. apply map_lookup_filter_Some in Hk as [Hk _]. by apply Hs.
Qed.

Lemma cached_answer ttl evs now key e :
  GetAPIKeyEntry now key (run_mc evs (mkCache ∅ ttl)) = Some e →
  ∃ now0 g0, EvLookup now0 key g0 ∈ evs ∧ answered g0 key e ∧ (now ≤ now0 + ttl)%Z.
Proof.
  intros Hg. destruct (run_mc_sound ttl evs [] (mkCache ∅ ttl)) as [_ Hs].
  { split; [done |]. intros k c Hk. cbn in Hk. by rewrite lookup_empty in Hk. }
  set (mc := run_mc evs (mkCache ∅ ttl)) in *.
  unfold GetAPIKeyEntry in Hg. destruct (apiKeyNS mc !! key) as [c |] eqn:Hk; [| done].
  unfold After in Hg. destruct (Z.ltb_spec (expiresAt c) now) as [| Hle]; [done |].
  injection Hg as <-. destruct (Hs key c Hk) as (n & g0 & Hin & Ha & Hexp).
  exists n, g0. cbn in Hin. split; [done |]. split; [done |]. lia.
Qed.

(** An API key resolves only while the database has a live row for it, or
    within the cache's time to live after a lookup that found one: a revoked
    key is dead at most [ttl] after the last lookup before its revocation. *)
Theorem revocation_window ttl evs g now key e :
  (lookupAPIKeyEntry g now key (run_mc evs (mkCache ∅ ttl))).1 = Some e →
  answered g key e ∨
  ∃ now0 g0, EvLookup now0 key g0 ∈ evs ∧ answered g0 key e ∧ (now ≤ now0 + ttl)%Z.
Proof.
  intros Hl. set (mc := run_mc evs (mkCache ∅ ttl)) in *.
  pose proof (lookup_cases g now key mc) as Hc.
  destruct (lookupAPIKeyEntry g now key mc) as [res mc']. cbn in Hl. subst res.
  destruct Hc as [(Hg & _) | (ns & sc & [= ->] & Ha & _)]; [right | by left].
  by apply cached_answer.
Qed.
End Pipeline.

(** ** A concrete encoding of claims *)

#[local] Instance enum_codec : ClaimsCodec := {|
  encode_claims m := pos_str (encode m);
  decode_claims s := str_pos s ≫= decode
|}.

#[local] Instance enum_codec_laws : ClaimsCodecLaws.
Proof.
  split; intros m; cbn.
  - intros _. rewrite str_pos_pos_str. cbn. apply decode_encode.
  - apply TrimSpace_plain. generalize (encode m). intros p.
    assert (∀ a, a = "x"%char ∨ a = "o"%char ∨ a = "i"%char →
      forallb (λ e, negb (str_mem a e)) space_encodings = true) as Ha
      by (intros a [-> | [-> | ->]]; vm_compute; reflexivity).
    induction p as [p IH | p IH |]; cbn [pos_str plain_text]; rewrite ?Ha, ?IH; auto.
  - by destruct (encode m).
Qed.

(** ** Witnesses *)

Definition demo_claims : JWTClaims :=
  mkClaims "orama-gateway" "0xA11CE" "gateway" 0 0 0 "alice" {[ "tier"%string := "gold"%string ]}.

(** A gateway of the namespace alice with one admin key, one owner wallet and
    one token. *)
Definition demo_gateway : gateway :=
  mkGateway (λ tok, if String.eqb tok "a.b.c" then Some demo_claims else None)
    (λ k, "h" +:+ k)
    (λ k, if String.eqb k "hsecret" then Some ("alice", "admin")%string else None)
    (λ _, true) (λ ns, if String.eqb ns "alice" then Some 7%Z else None)
    (λ nsID ot oid, (nsID =? 7)%Z && String.eqb ot "wallet" && String.eqb oid "0xA11CE")
    "alice".

Definition demo_request (p : string) (h : values) : request :=
  mkRequest "GET" p h ∅ false emptyContext.

Definition bearer_headers : values := {[ "Authorization"%string := ["Bearer a.b.c"%string] ]}.

Lemma pipeline_admin_witness :
  admin_credential demo_gateway 0 (mkCache ∅ Minute)
    (demo_request "/v1/functions" bearer_headers).
Proof.
  refine (proj1 (pipeline_admin demo_gateway 0 (mkCache ∅ Minute)
    (demo_request "/v1/functions" bearer_headers) _ eq_refl _ eq_refl _ _) eq_refl).
  - discriminate.
  - discriminate.
  - vm_compute; reflexivity.
Defined.

Lemma data_plane_needs_user_witness :
  ∃ r', (pipeline demo_gateway 0 (mkCache ∅ Minute)
           (demo_request "/v1/storage/get" bearer_headers)).1 = Pass r' ∧
  (ScopeAdmin ∈ callerScopes r' ∨
   ∃ claims, ctxJWT (ctx r') = Some claims ∧ TrimSpace (Sub claims) ≠ EmptyString ∧
             isAPIKeySubject (Sub claims) = false).
Proof.
  eexists. split; [vm_compute; reflexivity |].
  apply (data_plane_needs_user demo_gateway 0 (mkCache ∅ Minute)
    (demo_request "/v1/storage/get" bearer_headers));
    [discriminate | vm_compute; reflexivity | vm_compute; reflexivity].
Defined.

(** The client forges the headers of another identity; they do not arrive. *)
Definition forged_headers : values :=
  vset HeaderInternalAuthValidated "true"
    (vset HeaderInternalAuthJWTSub "0xEVIL" bearer_headers).

Lemma proxy_hop_faithful_witness :
  ∃ r', (handleNamespaceGatewayRequest demo_gateway 0 (mkCache ∅ Minute) "alice"
           (demo_request "/v1/functions" forged_headers)).1 = Pass r' ∧
        internal_namespace r' = Some "alice"%string.
Proof.
  eexists. split; [vm_compute; reflexivity |].
  refine (proj1 (proj2 (proxy_hop_faithful demo_gateway 0 (mkCache ∅ Minute) "alice"
    (demo_request "/v1/functions" forged_headers) _ _ _ _ _))).
  - intros tok c. cbn. destruct (String.eqb tok "a.b.c"); [| discriminate]. intros [= <-].
    apply (bool_decide_unpack _). vm_compute. exact I.
  - vm_compute; reflexivity.
  - discriminate.
  - vm_compute; reflexivity.
Defined.

Lemma revocation_window_witness :
  ∃ now0 g0, EvLookup now0 "secret" g0 ∈ [EvLookup 0 "secret" demo_gateway] ∧
    answered g0 "secret" ("alice", "admin")%string ∧ (Minute ≤ now0 + Minute)%Z.
Proof.
  destruct (revocation_window Minute [EvLookup 0 "secret" demo_gateway]
    (mkGateway (λ _, None) (λ k, "h" +:+ k) (λ _, None) (λ _, true) (λ ns, Some 7%Z)
       (λ _ _ _, false) "alice") Minute "secret" ("alice", "admin")%string) as [[Ha | Ha] | Hr].
  - vm_compute; reflexivity.
  - discriminate Ha.
  - discriminate Ha.
  - exact Hr.
Defined.
