(* ===== verification/AuthDb.v ===== *)
(** * The authentication tables and namespaces
      ([core/pkg/gateway/auth/service.go], [core/migrations])

    The rows the authentication service reads and writes, as a database of
    [DbProg], with the statements that several operations share.  Times inside
    the database are seconds of its own clock ([datetime('now')]).

    Two columns of [refresh_tokens] carry auxiliary data that no statement of
    the code reads: with [revoked_at] and [grace_used_at] the model keeps who
    set them, a rotation (named by the hash of the successor it creates) or a
    logout. *)

From Stdlib Require Import ZArith Lia String.
From stdpp Require Import base tactics numbers list gmap strings.
From S2P Require Import Prelude GoStrings DbProg.

Local Open Scope go_scope.

Inductive actor := Successor (hash : string) | Logout.

Record token_row := mkToken {
  t_namespace : Z;
  t_subject : string;
  t_token : string;
  t_expires : option Z;
  t_claims : string;
  revoked_at : option (Z * actor);
  grace_used_at : option (Z * actor)
}.

Record nonce_row := mkNonce {
  n_namespace : Z;
  n_wallet : string;
  n_nonce : string;
  n_purpose : string;
  n_expires : Z;
  n_used : option Z
}.

(** The id is the value of the AUTOINCREMENT column. *)
Record key_row := mkKey {
  k_id : Z;
  k_key : string;
  k_name : string;
  k_namespace : Z;
  k_scopes : option string;
  k_revoked : option Z
}.

Record app_row := mkApp {
  app_namespace : Z;
  app_id : string;
  app_name : string;
  app_public_key : string
}.

(** [namespaces] lists the names in the order of their ids, from 1;
    [next_key] is the next id of [api_keys]. *)
Record auth_db := mkAuthDb {
  clock : Z;
  namespaces : list string;
  refresh_tokens : list token_row;
  nonces : list nonce_row;
  api_keys : list key_row;
  next_key : Z;
  wallet_api_keys : list (Z * string * Z);
  namespace_ownership : list (Z * string * string);
  apps : list app_row
}.

Definition empty_db (now : Z) : auth_db := mkAuthDb now [] [] [] [] 1 [] [] [].

Definition set_namespaces (l : list string) (d : auth_db) : auth_db :=
  mkAuthDb (clock d) l (refresh_tokens d) (nonces d) (api_keys d) (next_key d) (wallet_api_keys d)
    (namespace_ownership d) (apps d).
Definition set_tokens (l : list token_row) (d : auth_db) : auth_db :=
  mkAuthDb (clock d) (namespaces d) l (nonces d) (api_keys d) (next_key d) (wallet_api_keys d)
    (namespace_ownership d) (apps d).
Definition set_nonces (l : list nonce_row) (d : auth_db) : auth_db :=
  mkAuthDb (clock d) (namespaces d) (refresh_tokens d) l (api_keys d) (next_key d) (wallet_api_keys d)
    (namespace_ownership d) (apps d).
Definition set_keys (l : list key_row) (next : Z) (d : auth_db) : auth_db :=
  mkAuthDb (clock d) (namespaces d) (refresh_tokens d) (nonces d) l next (wallet_api_keys d)
    (namespace_ownership d) (apps d).
Definition set_wallet_keys (l : list (Z * string * Z)) (d : auth_db) : auth_db :=
  mkAuthDb (clock d) (namespaces d) (refresh_tokens d) (nonces d) (api_keys d) (next_key d) l
    (namespace_ownership d) (apps d).
Definition set_ownership (l : list (Z * string * string)) (d : auth_db) : auth_db :=
  mkAuthDb (clock d) (namespaces d) (refresh_tokens d) (nonces d) (api_keys d) (next_key d)
    (wallet_api_keys d) l (apps d).
Definition set_apps (l : list app_row) (d : auth_db) : auth_db :=
  mkAuthDb (clock d) (namespaces d) (refresh_tokens d) (nonces d) (api_keys d) (next_key d)
    (wallet_api_keys d) (namespace_ownership d) l.

(** ** Statements *)

(** A statement whose only failure is that of the database. *)
Definition write {A : Type} (w : auth_db → auth_db) (k : result string unit → prog auth_db A)
    : prog auth_db A :=
  Exec (λ d, Ok (w d)) k.

(** [_, _ = db.Query(...)]: a statement whose outcome is ignored. *)
Definition attempt {A : Type} (w : auth_db → auth_db) (p : prog auth_db A) : prog auth_db A :=
  write w (λ _, p).

(** [INSERT OR IGNORE INTO namespaces(name)] and the lookup of the id. *)
Definition ensure_namespace (ns : string) (d : auth_db) : auth_db :=
  if decide (ns ∈ namespaces d) then d else set_namespaces (namespaces d ++ [ns]) d.

Definition namespace_id (ns : string) (d : auth_db) : option Z :=
  (λ p, Z.of_nat (S p.1)) <$> list_find (λ n, n = ns) (namespaces d).

(** [INSERT OR IGNORE INTO namespace_ownership]. *)
Definition add_owner (nsID : Z) (owner_type owner_id : string) (d : auth_db) : auth_db :=
  if decide ((nsID, owner_type, owner_id) ∈ namespace_ownership d) then d
  else set_ownership (namespace_ownership d ++ [(nsID, owner_type, owner_id)]) d.

(** An UPDATE of the rows that match, with the number of rows affected. *)
Definition update_tokens (P : token_row → Prop) `{!∀ r, Decision (P r)} (f : token_row → token_row)
    (d : auth_db) : nat * auth_db :=
  (length (filter P (refresh_tokens d)),
   set_tokens ((λ r, if decide (P r) then f r else r) <$> refresh_tokens d) d).

Definition insert_token (r : token_row) (d : auth_db) : result string auth_db :=
  if decide (t_token r ∈ t_token <$> refresh_tokens d)
  then Err "UNIQUE constraint failed: refresh_tokens.token"
  else Ok (set_tokens (refresh_tokens d ++ [r]) d).

(** ** Resolving a namespace *)

Definition resolved_name (ns : string) : string :=
  let ns := TrimSpace ns in if String.eqb ns EmptyString then "default"%string else ns.

Definition ResolveNamespaceID (ns : string) : prog auth_db (result string Z) :=
  let ns := resolved_name ns in
  write (ensure_namespace ns) (λ r,
  match r with
  | Err e => Ret (Err e)
  | Ok _ => Query (namespace_id ns) (λ r,
      Ret (match r with
           | Err e => Err e
           | Ok None => Err "failed to resolve namespace"%string
           | Ok (Some id) => Ok id
           end))
  end).

Lemma namespace_id_ensure ns d : is_Some (namespace_id ns (ensure_namespace ns d)).
Proof.
  unfold namespace_id, ensure_namespace. apply fmap_is_Some. case_decide as H.
  - by apply list_find_elem_of with ns.
  - apply list_find_elem_of with ns; [| done]. cbn. apply elem_of_app. right. by apply list_elem_of_singleton.
Qed.

(** Alone, resolution always succeeds, and adds nothing but the namespace. *)
Lemma run_ResolveNamespaceID ns d :
  ∃ id, run (ResolveNamespaceID ns) d = (Ok id, ensure_namespace (resolved_name ns) d) ∧
        namespace_id (resolved_name ns) (ensure_namespace (resolved_name ns) d) = Some id.
Proof.
  destruct (namespace_id_ensure (resolved_name ns) d) as [id Hid]. exists id. split; [| done].
  unfold ResolveNamespaceID, write. cbn [run]. by rewrite Hid.
Qed.

Lemma namespace_id_stable ns ns' d id :
  namespace_id ns d = Some id → namespace_id ns (ensure_namespace ns' d) = Some id.
Proof.
  unfold namespace_id, ensure_namespace. intros H. case_decide; [done |]. cbn.
  apply fmap_Some in H as ([i x] & Hf & ->). by rewrite (list_find_app_l _ _ _ _ _ Hf).
Qed.

Lemma ensure_twice ns d : ensure_namespace ns (ensure_namespace ns d) = ensure_namespace ns d.
Proof.
  unfold ensure_namespace at 1. rewrite decide_True; [done |]. unfold ensure_namespace.
  case_decide; [done |]. cbn. apply elem_of_app. right. by apply list_elem_of_singleton.
Qed.
