(* ===== verification/Sessions.v ===== *)
(** * Sessions: access tokens with rotating refresh tokens
      ([core/pkg/gateway/auth/service.go], [crypto.go])

    [IssueTokens], [RefreshToken] with its reuse grace, and [RevokeToken], as
    programs over the tables of [AuthDb] that any number of gateways execute
    at the same time.  The access token is minted by [Jwt].  The random bytes
    and the gateway's clock are arguments of an operation. *)

From Stdlib Require Import ZArith Lia String.
From stdpp Require Import base tactics numbers list gmap strings relations.
From S2P Require Import Prelude GoStrings DbProg Jwt AuthDb.

Local Open Scope go_scope.

(** Hashes and the JSON form of a claims map, from Go's libraries. *)
Class SessionCodec := {
  sha256Hex : string → string;
  HmacSHA256Hex : string → string → string;
  json_claims : gmap string string → string;
  parse_claims : string → option (gmap string string)
}.

(** Claims that were read from JSON survive being written and read again. *)
Class SessionCodecLaws `{SessionCodec} : Prop := {
  parse_json_claims t m : parse_claims t = Some m → parse_claims (json_claims m) = Some m;
  json_claims_nonempty m : json_claims m ≠ EmptyString
}.

Section Sessions.
Context {tok_codec : TokenCodec} {sigs : Signatures} {ses_codec : SessionCodec}.

(** [auth.Service]: the keys of [Jwt], whether the client for
    compare-and-swap statements is configured, the secret for API keys, the
    default namespace, and the hook for additive claims. *)
Record AuthService := mkAuth {
  jwt : Service;
  rotation : bool;
  apiKeyHMACSecret : string;
  defaultNS : string;
  claimsResolver : option (string → string → gmap string string)
}.

Definition marshalClaims (m : gmap string string) : string :=
  if decide (m = ∅) then EmptyString else json_claims m.

Definition unmarshalClaims (s : string) : gmap string string :=
  if String.eqb s EmptyString then ∅ else default ∅ (parse_claims s).

Definition resolveCustomClaims (s : AuthService) (wallet ns : string) : gmap string string :=
  match claimsResolver s with
  | None => ∅
  | Some f => f wallet ns
  end.

Definition accessTTL : duration := (15 * Minute)%Z.
Definition thirtyDays : Z := 2592000.
Definition refreshSelectRetries : nat := 3.
Definition refreshReuseGrace : Z := 60.

Inductive session_error :=
| ErrSigningKey
| ErrRotationNotConfigured
| ErrRefreshTransient
| ErrInvalidRefresh
| ErrRefreshTokenReplay
| ErrGenerateJWT (e : JwtError)
| ErrRandom
| ErrNamespace (e : string)
| ErrStoreToken (e : string)
| ErrNothingToRevoke.

(** ** Issuing *)

Definition new_token (now nsID : Z) (subject hash claims : string) : token_row :=
  mkToken nsID subject hash (Some (now + thirtyDays)%Z) claims None None.

(** The insert of a fresh token; [datetime('now', '+30 days')] is read there. *)
Definition store_token (nsID : Z) (subject hash claims : string) (d : auth_db) : result string auth_db :=
  insert_token (new_token (clock d) nsID subject hash claims) d.

Definition IssueTokens (s : AuthService) (now : time) (rnd : option string) (wallet ns : string)
    : prog auth_db (result session_error (string * string * Z)) :=
  match signingKey (jwt s) with
  | None => Ret (Err ErrSigningKey)
  | Some _ =>
      let custom := resolveCustomClaims s wallet ns in
      match GenerateJWT (jwt s) now ns wallet accessTTL custom with
      | Err e => Ret (Err (ErrGenerateJWT e))
      | Ok (token, expUnix) =>
          match rnd with
          | None => Ret (Err ErrRandom)
          | Some refresh =>
              do! r := ResolveNamespaceID ns in
              match r with
              | Err e => Ret (Err (ErrNamespace e))
              | Ok nsID =>
                  Exec (store_token nsID wallet (sha256Hex refresh) (marshalClaims custom)) (λ r,
                  Ret (match r with
                       | Err e => Err (ErrStoreToken e)
                       | Ok _ => Ok (token, refresh, expUnix)
                       end))
              end
          end
      end
  end.

(** ** Rotation *)

Definition unexpired (now : Z) (r : token_row) : Prop :=
  match t_expires r with None => True | Some e => (now < e)%Z end.

#[export] Instance unexpired_dec now r : Decision (unexpired now r).
Proof. unfold unexpired. destruct (t_expires r); apply _. Defined.

Definition names (nsID : Z) (hash : string) (r : token_row) : Prop :=
  t_namespace r = nsID ∧ t_token r = hash.

(** The row found by the lookup of a usable token. *)
Definition select_active (nsID : Z) (hash : string) (d : auth_db) : option token_row :=
  head (filter (λ r, names nsID hash r ∧ revoked_at r = None ∧ unexpired (clock d) r) (refresh_tokens d)).

(** Revoked within the grace period. *)
Definition recently_revoked (now : Z) (r : token_row) : Prop :=
  match revoked_at r with
  | None => False
  | Some (t, _) => (now - refreshReuseGrace < t)%Z
  end.

#[export] Instance recently_revoked_dec now r : Decision (recently_revoked now r).
Proof. unfold recently_revoked. destruct (revoked_at r) as [[t a] |]; apply _. Defined.

Definition select_grace (nsID : Z) (hash : string) (d : auth_db) : option token_row :=
  head (filter (λ r, names nsID hash r ∧ recently_revoked (clock d) r ∧ grace_used_at r = None
                     ∧ unexpired (clock d) r) (refresh_tokens d)).

Definition set_revoked (now : Z) (by_ : actor) (r : token_row) : token_row :=
  mkToken (t_namespace r) (t_subject r) (t_token r) (t_expires r) (t_claims r)
    (Some (now, by_)) (grace_used_at r).

Definition set_grace (now : Z) (by_ : actor) (r : token_row) : token_row :=
  mkToken (t_namespace r) (t_subject r) (t_token r) (t_expires r) (t_claims r)
    (revoked_at r) (Some (now, by_)).

(** The compare-and-swap that revokes the presented token. *)
Definition revoke_cas (nsID : Z) (hash : string) (by_ : actor) (d : auth_db) : nat * auth_db :=
  update_tokens (λ r, names nsID hash r ∧ revoked_at r = None) (set_revoked (clock d) by_) d.

(** The compare-and-swap that claims the grace. *)
Definition grace_cas (nsID : Z) (hash : string) (by_ : actor) (d : auth_db) : nat * auth_db :=
  update_tokens (λ r, names nsID hash r ∧ grace_used_at r = None ∧ recently_revoked (clock d) r)
    (set_grace (clock d) by_) d.

Definition tryRefreshReuseGrace (nsID : Z) (hash : string) (by_ : actor)
    : prog auth_db (result string (option (string * gmap string string))) :=
  Query (select_grace nsID hash) (λ r,
  match r with
  | Err e => Ret (Err e)
  | Ok None => Ret (Ok None)
  | Ok (Some row) =>
      if String.eqb (t_subject row) EmptyString then Ret (Ok None)
      else Update (grace_cas nsID hash by_) (λ r,
           Ret (match r with
                | Err e => Err e
                | Ok 0 => Ok None
                | Ok (S _) => Ok (Some (t_subject row, unmarshalClaims (t_claims row)))
                end))
  end).

(** The lookup, repeated while the database fails. *)
Fixpoint select_retry {B : Type} (q : auth_db → B) (left : nat) : prog auth_db (option B) :=
  match left with
  | O => Ret None
  | S left' => Query q (λ r, match r with Ok b => Ret (Some b) | Err _ => select_retry q left' end)
  end.

Record refreshed := mkRefreshed {
  accessToken : string;
  newRefreshToken : string;
  r_subject : string;
  expUnix : Z
}.

(** Steps 3 and 4: the new access token and the row of the new refresh token. *)
Definition mint (s : AuthService) (now : time) (rnd : option string) (ns : string) (nsID : Z)
    (subject : string) (custom : gmap string string) : prog auth_db (result session_error refreshed) :=
  match GenerateJWT (jwt s) now ns subject accessTTL custom with
  | Err e => Ret (Err (ErrGenerateJWT e))
  | Ok (access, exp) =>
      match rnd with
      | None => Ret (Err ErrRandom)
      | Some new =>
          Exec (store_token nsID subject (sha256Hex new) (marshalClaims custom)) (λ r,
          Ret (match r with
               | Err _ => Err ErrRefreshTransient
               | Ok _ => Ok (mkRefreshed access new subject exp)
               end))
      end
  end.

(** The successor a rotation with these random bytes creates. *)
Definition successor (rnd : option string) : actor :=
  Successor (match rnd with Some new => sha256Hex new | None => EmptyString end).

Definition RefreshToken (s : AuthService) (now : time) (rnd : option string) (refreshToken ns : string)
    : prog auth_db (result session_error refreshed) :=
  if negb (rotation s) then Ret (Err ErrRotationNotConfigured)
  else
    do! r := ResolveNamespaceID ns in
    match r with
    | Err _ => Ret (Err ErrRefreshTransient)
    | Ok nsID =>
        let hash := sha256Hex refreshToken in
        do! res := select_retry (select_active nsID hash) refreshSelectRetries in
        match res with
        | None => Ret (Err ErrRefreshTransient)
        | Some None =>
            do! g := tryRefreshReuseGrace nsID hash (successor rnd) in
            match g with
            | Err _ => Ret (Err ErrRefreshTransient)
            | Ok None => Ret (Err ErrInvalidRefresh)
            | Ok (Some (subject, custom)) => mint s now rnd ns nsID subject custom
            end
        | Some (Some row) =>
            Update (revoke_cas nsID hash (successor rnd)) (λ r,
            match r with
            | Err _ => Ret (Err ErrRefreshTransient)
            | Ok 0 => Ret (Err ErrRefreshTokenReplay)
            | Ok (S _) => mint s now rnd ns nsID (t_subject row) (unmarshalClaims (t_claims row))
            end)
        end
    end.

(** ** Logout *)

Definition logout_row (now : Z) (r : token_row) : token_row :=
  set_grace now Logout (set_revoked now Logout r).

Definition RevokeToken (ns token : string) (all : bool) (subject : string)
    : prog auth_db (result session_error unit) :=
  let store (u : auth_db → nat * auth_db) :=
    write (λ d, (u d).2) (λ r, Ret (match r with Err e => Err (ErrStoreToken e) | Ok _ => Ok tt end)) in
  do! r := ResolveNamespaceID ns in
  match r with
  | Err e => Ret (Err (ErrNamespace e))
  | Ok nsID =>
      if negb (String.eqb token EmptyString) then
        store (λ d, update_tokens (λ r, names nsID (sha256Hex token) r ∧ revoked_at r = None)
                      (logout_row (clock d)) d)
      else if all && negb (String.eqb subject EmptyString) then
        store (λ d, update_tokens (λ r, (t_namespace r = nsID ∧ t_subject r = subject) ∧ revoked_at r = None)
                      (logout_row (clock d)) d)
      else Ret (Err ErrNothingToRevoke)
  end.

(** ** The invariant of the token table and the order of its states *)

(** A grace is used only on a revoked token, and a logout sets both columns. *)
Definition row_ok (r : token_row) : Prop :=
  match revoked_at r, grace_used_at r with
  | None, None => True
  | Some (_, Successor _), None => True
  | Some (_, Successor _), Some (_, Successor _) => True
  | Some (_, Logout), Some (_, Logout) => True
  | _, _ => False
  end.

Definition tok_inv (d : auth_db) : Prop :=
  NoDup (t_token <$> refresh_tokens d) ∧ Forall row_ok (refresh_tokens d).

(** Rows keep their data, and what is revoked or used stays so. *)
Definition row_le (r r' : token_row) : Prop :=
  t_namespace r' = t_namespace r ∧ t_subject r' = t_subject r ∧ t_token r' = t_token r ∧
  t_claims r' = t_claims r ∧
  (revoked_at r = None ∨ revoked_at r' = revoked_at r) ∧
  (grace_used_at r = None ∨ grace_used_at r' = grace_used_at r).

#[export] Instance row_le_preorder : PreOrder row_le.
Proof.
  split; [intros r; unfold row_le; tauto |]. intros a b c.
  intros (A1 & A2 & A3 & A4 & A5 & A6) (B1 & B2 & B3 & B4 & B5 & B6). unfold row_le.
  repeat (split; [congruence |]). split.
  - destruct A5 as [| E]; [tauto |]. destruct B5 as [E' |]; [left | right]; congruence.
  - destruct A6 as [| E]; [tauto |]. destruct B6 as [E' |]; [left | right]; congruence.
Qed.

Definition saw (r : token_row) (d : auth_db) : Prop :=
  ∃ r', r' ∈ refresh_tokens d ∧ row_le r r'.

Definition db_le (d d' : auth_db) : Prop := ∀ r, r ∈ refresh_tokens d → saw r d'.

Lemma saw_mono r d d' : db_le d d' → saw r d → saw r d'.
Proof. intros Hd (r1 & Hin & Hr). destruct (Hd _ Hin) as (r2 & Hin2 & Hr2). exists r2. split; [done | by etrans]. Qed.

#[export] Instance db_le_preorder : PreOrder db_le.
Proof.
  split; [intros d r Hr; exists r; split; [done | reflexivity] |].
  intros a b c H1 H2 r Hr. eapply saw_mono; [exact H2 |]. by apply H1.
Qed.

(** Statements that leave the table alone. *)
Lemma same_tokens d d' :
  refresh_tokens d' = refresh_tokens d → tok_inv d → tok_inv d' ∧ db_le d d'.
Proof.
  intros E Hd. unfold tok_inv, db_le, saw. rewrite E. split; [exact Hd |].
  intros r Hr. exists r. split; [done | reflexivity].
Qed.

Lemma ensure_tokens ns d : refresh_tokens (ensure_namespace ns d) = refresh_tokens d.
Proof. unfold ensure_namespace. by case_decide. Qed.

Lemma update_tokens_keeps P `{!∀ r, Decision (P r)} f d :
  (∀ r, row_ok r → P r → row_ok (f r) ∧ row_le r (f r)) →
  tok_inv d → tok_inv (update_tokens P f d).2 ∧ db_le d (update_tokens P f d).2.
Proof.
  intros Hf (Hnd & Hok).
  assert (Forall (λ r, let r' := if decide (P r) then f r else r in row_ok r' ∧ row_le r r') (refresh_tokens d)) as Hall.
  { eapply Forall_impl; [exact Hok |]. intros r Hr. cbn. case_decide; [auto |]. split; [done | reflexivity]. }
  split; [split |]; cbn.
  - rewrite <- list_fmap_compose. erewrite list_fmap_ext; [exact Hnd |]. intros i r Hi.
    destruct (proj1 (Forall_lookup _ _) Hall _ _ Hi) as [_ Hle]. by apply Hle.
  - apply Forall_fmap. eapply Forall_impl; [exact Hall |]. intros r [Hr _]. exact Hr.
  - intros r Hr. rewrite Forall_forall in Hall. destruct (Hall _ Hr) as [_ Hle].
    exists (if decide (P r) then f r else r). split; [| done]. cbn. apply list_elem_of_fmap. eauto.
Qed.

Lemma store_token_keeps nsID subject hash claims d d' :
  store_token nsID subject hash claims d = Ok d' → tok_inv d →
  tok_inv d' ∧ db_le d d' ∧
  ∃ c, c ∈ refresh_tokens d' ∧ names nsID hash c ∧ t_subject c = subject ∧ t_claims c = claims.
Proof.
  unfold store_token, insert_token. case_decide as Hin; [done |]. intros [= <-] (Hnd & Hok).
  split; [split | split]; cbn.
  - rewrite fmap_app. apply NoDup_app. split; [done |]. split; [| apply NoDup_singleton].
    intros x Hx ->%list_elem_of_singleton. done.
  - by apply Forall_app_2; [| constructor].
  - intros r Hr. exists r. split; [| reflexivity]. cbn. apply elem_of_app. auto.
  - eexists. split; [apply elem_of_app; right; by apply list_elem_of_singleton |]. by repeat split.
Qed.

Lemma revoke_cas_keeps nsID hash h d :
  tok_inv d → tok_inv (revoke_cas nsID hash (Successor h) d).2 ∧ db_le d (revoke_cas nsID hash (Successor h) d).2.
Proof.
  apply update_tokens_keeps. intros r Hr [_ Hnone]. unfold row_ok, row_le in *. cbn. rewrite Hnone in *.
  destruct (grace_used_at r); [done |]. tauto.
Qed.

Lemma grace_cas_keeps nsID hash h d :
  tok_inv d → tok_inv (grace_cas nsID hash (Successor h) d).2 ∧ db_le d (grace_cas nsID hash (Successor h) d).2.
Proof.
  apply update_tokens_keeps. intros r Hr (_ & Hnone & Hrec). unfold row_ok, row_le, recently_revoked in *. cbn.
  rewrite Hnone in *. destruct (revoked_at r) as [[t []] |]; [tauto | done | done].
Qed.

Lemma logout_keeps (P : token_row → Prop) `{!∀ r, Decision (P r)} now d :
  tok_inv d →
  tok_inv (update_tokens (λ r, P r ∧ revoked_at r = None) (logout_row now) d).2 ∧
  db_le d (update_tokens (λ r, P r ∧ revoked_at r = None) (logout_row now) d).2.
Proof.
  apply update_tokens_keeps. intros r Hr [_ Hnone]. unfold row_ok, row_le in *. cbn. rewrite Hnone in *.
  destruct (grace_used_at r); [done |]. tauto.
Qed.

(** ** What a won compare-and-swap tells *)

(** The row of the presented token names this rotation as the one that revoked
    it or used its grace. *)
Definition won (nsID : Z) (hash : string) (by_ : actor) (subject claims : string) (d : auth_db) : Prop :=
  ∃ r, r ∈ refresh_tokens d ∧ names nsID hash r ∧ t_subject r = subject ∧ t_claims r = claims ∧
    ((∃ t, revoked_at r = Some (t, by_)) ∨ (∃ t, grace_used_at r = Some (t, by_))).

Lemma won_mono nsID hash by_ subject claims d d' :
  db_le d d' → won nsID hash by_ subject claims d → won nsID hash by_ subject claims d'.
Proof.
  intros Hd (r & Hin & [Hn Hh] & Hs & Hc & Hor). destruct (Hd _ Hin) as (r' & Hin' & (E1 & E2 & E3 & E4 & E5 & E6)).
  exists r'. split; [done |]. split; [unfold names; split; congruence |]. split; [congruence |]. split; [congruence |].
  destruct Hor as [[t Ht] | [t Ht]].
  - left. exists t. destruct E5; congruence.
  - right. exists t. destruct E6; congruence.
Qed.

Lemma token_unique d r r' :
  tok_inv d → r ∈ refresh_tokens d → r' ∈ refresh_tokens d → t_token r = t_token r' → r = r'.
Proof. intros [Hnd _]. by apply NoDup_fmap_elem. Qed.

Lemma cas_won P `{!∀ r, Decision (P r)} f nsID hash by_ row d n :
  (∀ r, P r → names nsID hash r) →
  (∀ r, t_namespace (f r) = t_namespace r ∧ t_token (f r) = t_token r ∧
        t_subject (f r) = t_subject r ∧ t_claims (f r) = t_claims r ∧
        ((∃ t, revoked_at (f r) = Some (t, by_)) ∨ (∃ t, grace_used_at (f r) = Some (t, by_)))) →
  tok_inv d → saw row d → names nsID hash row → (update_tokens P f d).1 = S n →
  won nsID hash by_ (t_subject row) (t_claims row) (update_tokens P f d).2.
Proof.
  intros HP Hf Hinv (r1 & Hin1 & (E1 & E2 & E3 & E4 & _)) [En Eh] Hlen. cbn in Hlen.
  destruct (filter P (refresh_tokens d)) as [| r0 l] eqn:Hfil; [done |].
  assert (r0 ∈ filter P (refresh_tokens d)) as Hr0 by (rewrite Hfil; left).
  apply list_elem_of_filter in Hr0 as [HPr Hr0]. destruct (HP _ HPr) as [Hn0 Hh0].
  assert (r1 = r0) as -> by (eapply token_unique; [done | done | done | congruence]).
  destruct (Hf r0) as (F1 & F2 & F3 & F4 & Hor).
  exists (f r0). split; [cbn; apply list_elem_of_fmap; exists r0; by rewrite decide_True |].
  split; [split; congruence |]. split; [congruence |]. split; [congruence |]. done.
Qed.

(** ** The operations keep the invariant *)

Abbreviation session_keeps := (keeps tok_inv db_le) (only parsing).

Lemma resolve_keeps ns : session_keeps (λ _ _, True) (λ _, True) (ResolveNamespaceID ns).
Proof.
  unfold ResolveNamespaceID, write. split; [| split].
  - intros d d' Hd _ [= <-]. by apply same_tokens; [apply ensure_tokens |].
  - split; [| done]. intros d0 Hd0. done.
  - intros e. by cbn.
Qed.

Lemma head_filter {A} (P : A → Prop) `{!∀ a, Decision (P a)} l x :
  head (filter P l) = Some x → x ∈ l ∧ P x.
Proof.
  destruct (filter P l) as [| y l'] eqn:E; [done |]. cbn. intros [= <-].
  assert (y ∈ filter P l) as Hy by (rewrite E; left). by apply list_elem_of_filter in Hy as [? ?].
Qed.

(** What a lookup returned was in the table, and still is. *)
Definition seen (nsID : Z) (hash : string) (row : token_row) (d : auth_db) : Prop :=
  saw row d ∧ names nsID hash row.

Lemma select_retry_keeps nsID hash left :
  session_keeps (λ res d, ∀ row, res = Some (Some row) → seen nsID hash row d) (λ _, True)
    (select_retry (select_active nsID hash) left).
Proof.
  induction left as [| left IH]; cbn [select_retry]; [by intros d _ _ row |]. split; [| intros e; exact IH].
  intros d0 Hd0 d Hd [_ Hle] row [= Hs]. apply head_filter in Hs as (Hin & Hn & _). split; [| done].
  by apply Hle.
Qed.

(** The postcondition of a rotation: it won the old token, and the new one is
    in the table, for the same subject, namespace and claims. *)
Definition minted (nsID : Z) (hash new subject claims : string) (d : auth_db) : Prop :=
  won nsID hash (Successor (sha256Hex new)) subject claims d ∧
  ∃ c, c ∈ refresh_tokens d ∧ names nsID (sha256Hex new) c ∧ t_subject c = subject ∧
       t_claims c = marshalClaims (unmarshalClaims claims).

(** What a rotation knows before it mints. *)
Definition may_mint (nsID : Z) (hash : string) (by_ : actor) (subject : string)
    (custom : gmap string string) (d : auth_db) : Prop :=
  ∃ claims, custom = unmarshalClaims claims ∧ won nsID hash by_ subject claims d.

Lemma mint_keeps s now rnd ns nsID hash subject custom :
  session_keeps
    (λ r d, ∀ res, r = Ok res → rnd = Some (newRefreshToken res) ∧ r_subject res = subject ∧
       ∃ claims, minted nsID hash (newRefreshToken res) subject claims d)
    (may_mint nsID hash (successor rnd) subject custom)
    (mint s now rnd ns nsID subject custom).
Proof.
  unfold mint. destruct (GenerateJWT _ _ _ _ _ _) as [[access exp] | e]; [| by intros d _ _ res].
  destruct rnd as [new |]; [| by intros d _ _ res]. split; [| split; [| by intros e d _ _ res]].
  - intros d d' Hd _ Hw. apply store_token_keeps in Hw as (? & ? & _); done.
  - intros d Hd (d0 & d1 & Hd0 & (claims & -> & Hwon) & Hw & Hle) res [= <-]. cbn.
    apply store_token_keeps in Hw as (Hd1 & Hle1 & c & Hc & Hn & Hs & Hcl); [| done].
    split; [done |]. split; [done |]. exists claims. split.
    + eapply won_mono; [exact Hle |]. by eapply won_mono.
    + destruct (Hle _ Hc) as (c' & Hc' & (E1 & E2 & E3 & E4 & _)). exists c'.
      split; [done |]. destruct Hn. split; [split; congruence |]. split; congruence.
Qed.

Definition refresh_post (tok : string) (rnd : option string) (r : result session_error refreshed)
    (d : auth_db) : Prop :=
  ∀ res, r = Ok res → rnd = Some (newRefreshToken res) ∧
    ∃ nsID claims, minted nsID (sha256Hex tok) (newRefreshToken res) (r_subject res) claims d.

Lemma mint_post s now rnd ns nsID tok subject custom K :
  (∀ d, tok_inv d → K d → may_mint nsID (sha256Hex tok) (successor rnd) subject custom d) →
  session_keeps (refresh_post tok rnd) K (mint s now rnd ns nsID subject custom).
Proof.
  intros HK. eapply keeps_mono; [| exact HK | apply mint_keeps].
  intros r d _ Hr res E. destruct (Hr res E) as (E1 & <- & claims & Hm). eauto.
Qed.

Lemma grace_keeps nsID hash rnd :
  session_keeps
    (λ r d, ∀ subject custom, r = Ok (Some (subject, custom)) →
       may_mint nsID hash (successor rnd) subject custom d)
    (λ _, True) (tryRefreshReuseGrace nsID hash (successor rnd)).
Proof.
  split; [| done]. intros d0 Hd0. destruct (select_grace nsID hash d0) as [row |] eqn:Hsel; [| done].
  apply head_filter in Hsel as (Hin & Hn & _).
  destruct (String.eqb (t_subject row) EmptyString); [done |]. split; [| split; [| done]].
  - intros d Hd _. by apply grace_cas_keeps.
  - intros [| n] d Hd (d1 & Hd1 & [_ Hle] & Hb & Hle1) subject custom [= <- <-].
    eexists. split; [reflexivity |]. eapply won_mono; [exact Hle1 |].
    eapply cas_won; [| | done | by apply Hle | done | exact Hb]; [tauto |].
    intros r. cbn. repeat (split; [done |]). right. eauto.
Qed.

Lemma RefreshToken_keeps s now rnd tok ns :
  session_keeps (refresh_post tok rnd) (λ _, True) (RefreshToken s now rnd tok ns).
Proof.
  unfold RefreshToken. destruct (negb (rotation s)); [by intros d _ _ res |].
  eapply keeps_bind; [apply resolve_keeps |]. intros [nsID | e]; [| by intros d _ _ res].
  eapply keeps_bind; [apply select_retry_keeps |].
  intros [[row |] |]; [| | by intros d _ _ res].
  - split; [| split; [| by intros e d _ _ res]].
    + intros d Hd _. by apply revoke_cas_keeps.
    + intros [| n]; [by intros d _ _ res |]. apply mint_post.
      intros d Hd (d1 & Hd1 & Hseen & Hb & Hle). destruct (Hseen row eq_refl) as [Hs Hn].
      eexists. split; [reflexivity |].
      eapply won_mono; [exact Hle |]. eapply cas_won; [| | done | done | done | exact Hb]; [tauto |].
      intros r. cbn. repeat (split; [done |]). left. eauto.
  - eapply keeps_bind; [eapply keeps_mono; [| | apply grace_keeps]; [by intros ? ? _ Hq; exact Hq | done] |].
    intros [[[subject custom] |] | e]; [| by intros d _ _ res..].
    apply mint_post. intros d _ Hq. by apply Hq.
Qed.

Lemma IssueTokens_keeps s now rnd wallet ns :
  session_keeps (λ _ _, True) (λ _, True) (IssueTokens s now rnd wallet ns).
Proof.
  unfold IssueTokens. destruct (signingKey (jwt s)); [| done].
  destruct (GenerateJWT _ _ _ _ _ _) as [[access exp] | e]; [| done]. destruct rnd as [refresh |]; [| done].
  eapply keeps_bind; [apply resolve_keeps |]. intros [nsID | e]; [| done]. split; [| done].
  intros d d' Hd _ Hw. apply store_token_keeps in Hw as (? & ? & _); done.
Qed.

Lemma RevokeToken_keeps ns tok all subject :
  session_keeps (λ _ _, True) (λ _, True) (RevokeToken ns tok all subject).
Proof.
  unfold RevokeToken. eapply keeps_bind; [apply resolve_keeps |]. intros [nsID | e]; [| done].
  destruct (negb (String.eqb tok EmptyString)); [| destruct (all && _); [| done]];
    (split; [| done]); intros d d' Hd _ [= <-]; by apply (logout_keeps _).
Qed.

(** ** Many gateways *)

(** Operations on the tables, and the passing of time. *)
Inductive session_op :=
| OpIssue (now : time) (rnd : option string) (wallet ns : string)
| OpRefresh (now : time) (rnd : option string) (tok ns : string)
| OpLogout (ns tok : string) (all : bool) (subject : string)
| OpTick (seconds : Z).

Inductive session_reply :=
| RIssued (r : result session_error (string * string * Z))
| RRefreshed (r : result session_error refreshed)
| RRevoked (r : result session_error unit).

Definition tick (seconds : Z) (d : auth_db) : auth_db :=
  mkAuthDb (clock d + seconds)%Z (namespaces d) (refresh_tokens d) (nonces d) (api_keys d) (next_key d)
    (wallet_api_keys d) (namespace_ownership d) (apps d).

Definition session_prog (s : AuthService) (op : session_op) : prog auth_db session_reply :=
  match op with
  | OpIssue now rnd wallet ns => do! r := IssueTokens s now rnd wallet ns in Ret (RIssued r)
  | OpRefresh now rnd tok ns => do! r := RefreshToken s now rnd tok ns in Ret (RRefreshed r)
  | OpLogout ns tok all subject => do! r := RevokeToken ns tok all subject in Ret (RRevoked r)
  | OpTick n => write (tick n) (λ _, Ret (RRevoked (Ok tt)))
  end.

Definition session_post (op : session_op) (reply : session_reply) (d : auth_db) : Prop :=
  match op, reply with
  | OpRefresh _ rnd tok _, RRefreshed r => refresh_post tok rnd r d
  | OpRefresh _ _ _ _, _ => False
  | _, _ => True
  end.

Lemma session_prog_keeps s op : session_keeps (session_post op) (λ _, True) (session_prog s op).
Proof.
  destruct op as [now rnd wallet ns | now rnd tok ns | ns tok all subject | n]; cbn [session_prog].
  - eapply keeps_bind; [apply IssueTokens_keeps |]. done.
  - eapply keeps_bind; [apply RefreshToken_keeps |]. by intros r d _ Hr.
  - eapply keeps_bind; [apply RevokeToken_keeps |]. done.
  - split; [| done]. intros d d' Hd _ [= <-]. by apply same_tokens.
Qed.

Definition session_start (s : AuthService) (d : auth_db) (ops : list session_op)
    : sys auth_db session_op session_reply :=
  mkSys d [] ((λ op, (op, session_prog s op)) <$> ops).

(** The refresh tokens the operations create. *)
Definition created (op : session_op) : option string :=
  match op with
  | OpIssue _ rnd _ _ | OpRefresh _ rnd _ _ => sha256Hex <$> rnd
  | _ => None
  end.

(** A refresh of a token that succeeded. *)
Definition refreshed_by (s : sys auth_db session_op session_reply) (hash : string) (i : nat) : Prop :=
  ∃ now rnd tok ns res, sha256Hex tok = hash ∧
    threads s !! i = Some (OpRefresh now rnd tok ns, Ret (RRefreshed (Ok res))).

Lemma created_distinct ops i j o o' h :
  NoDup (omap created ops) → ops !! i = Some o → ops !! j = Some o' →
  created o = Some h → created o' = Some h → i = j.
Proof.
  revert i j. induction ops as [| x ops IH]; intros i j; [done |].
  cbn [omap list_omap]. intros Hnd Hi Hj Ho Ho'.
  assert (∀ n y, ops !! n = Some y → created y = Some h → h ∈ omap created ops) as Hmem.
  { intros n y Hn Hy. apply list_elem_of_omap. exists y. split; [by eapply list_elem_of_lookup_2 | done]. }
  assert (NoDup (omap created ops)) as Hnd' by (destruct (created x); [by inversion Hnd | done]).
  destruct i as [| i], j as [| j]; cbn in Hi, Hj; simplify_eq; [done | | | by f_equal; eapply IH].
  - rewrite Ho in Hnd. apply NoDup_cons in Hnd as [Hni _]. by destruct Hni; eapply Hmem.
  - rewrite Ho' in Hnd. apply NoDup_cons in Hnd as [Hni _]. by destruct Hni; eapply Hmem.
Qed.

Lemma session_threads_keep s d ops :
  Forall (λ t, session_keeps (session_post t.1) (λ _, True) t.2) (threads (session_start s d ops)).
Proof. apply Forall_fmap, Forall_true. intros o. apply session_prog_keeps. Qed.

(** What the success of a refresh says of the table, now and later. *)
Lemma refreshed_minted s d ops st hash i :
  tok_inv d → rtc sys_step (session_start s d ops) st → refreshed_by st hash i →
  tok_inv (current st) ∧
  ∃ o new nsID subject claims, ops !! i = Some o ∧ created o = Some (sha256Hex new) ∧
    minted nsID hash new subject claims (current st).
Proof.
  intros Hd Hr (now & rnd & tok & ns & res & <- & Hi).
  destruct (sys_guarantee tok_inv db_le session_post _ _ _ Hd (session_threads_keep s d ops) Hr)
    as (Hinv & _ & Hpost).
  split; [done |]. pose proof (Hpost _ _ (list_elem_of_lookup_2 _ _ _ Hi) res eq_refl) as (-> & nsID & claims & Hm).
  apply sys_ops in Hr. cbn in Hr. rewrite <- list_fmap_compose, list_fmap_id in Hr.
  exists (OpRefresh now (Some (newRefreshToken res)) tok ns), (newRefreshToken res), nsID, (r_subject res), claims.
  split; [| done]. rewrite <- Hr, list_lookup_fmap, Hi. done.
Qed.

(** Two successes that left the same mark in the row are one. *)
Lemma won_at d nsID hash by_ subject claims r :
  tok_inv d → won nsID hash by_ subject claims d → r ∈ refresh_tokens d → t_token r = hash →
  t_subject r = subject ∧ t_claims r = claims ∧ t_namespace r = nsID ∧
  ((∃ t, revoked_at r = Some (t, by_)) ∨ (∃ t, grace_used_at r = Some (t, by_))).
Proof.
  intros Hinv (r' & Hin' & [Hn Hh] & Hs & Hc & Hor) Hin Htok.
  assert (r = r') as -> by (by eapply token_unique; [| | | congruence]). done.
Qed.

Context {ses_laws : SessionCodecLaws}.

Lemma unmarshal_marshal t : unmarshalClaims (marshalClaims (unmarshalClaims t)) = unmarshalClaims t.
Proof.
  unfold marshalClaims. case_decide as H; [by rewrite H |].
  assert (∃ m, parse_claims t = Some m ∧ unmarshalClaims t = m) as (m & Hp & ->).
  { unfold unmarshalClaims in *. destruct (String.eqb t EmptyString); [done |].
    destruct (parse_claims t) as [m |]; [by exists m | done]. }
  unfold unmarshalClaims. destruct (String.eqb_spec (json_claims m) EmptyString) as [E |]; [by apply json_claims_nonempty in E |].
  by rewrite (parse_json_claims t m).
Qed.

(** C3: a refresh token works at most twice, whatever any number of gateways
    do at the same time, with failing statements, lost acknowledgements and
    lagging reads: of three refreshes of one token that succeeded two are the
    same request (the rotation, and one recovery within the grace period).  A
    token whose row a logout revoked was never exchanged at all and never will
    be.  Every success left a new row for the same subject and namespace, with
    the claims of the old one. *)
Theorem refresh_single_use s d ops st hash :
  tok_inv d → NoDup (omap created ops) → rtc sys_step (session_start s d ops) st →
  (∀ i j k, refreshed_by st hash i → refreshed_by st hash j → refreshed_by st hash k →
     i = j ∨ i = k ∨ j = k) ∧
  (∀ i, refreshed_by st hash i →
     ∃ old new, old ∈ refresh_tokens (current st) ∧ new ∈ refresh_tokens (current st) ∧
       t_token old = hash ∧ (ops !! i ≫= created) = Some (t_token new) ∧
       t_subject new = t_subject old ∧ t_namespace new = t_namespace old ∧
       unmarshalClaims (t_claims new) = unmarshalClaims (t_claims old) ∧
       (∀ t, revoked_at old ≠ Some (t, Logout)) ∧ revoked_at old ≠ None).
Proof.
  intros Hd Hnd Hr. split.
  - intros i j k Hi Hj Hk.
    destruct (refreshed_minted _ _ _ _ _ _ Hd Hr Hi) as (Hinv & oi & ni & nsi & si & ci & Hoi & Hci & [Hwi _]).
    destruct (refreshed_minted _ _ _ _ _ _ Hd Hr Hj) as (_ & oj & nj & nsj & sj & cj & Hoj & Hcj & [Hwj _]).
    destruct (refreshed_minted _ _ _ _ _ _ Hd Hr Hk) as (_ & ok & nk & nsk & sk & ck & Hok & Hck & [Hwk _]).
    pose proof Hwi as (r & Hin & [_ Hh] & _).
    apply (won_at _ _ _ _ _ _ r Hinv) in Hwi as (_ & _ & _ & Hwi); [| done..].
    apply (won_at _ _ _ _ _ _ r Hinv) in Hwj as (_ & _ & _ & Hwj); [| done..].
    apply (won_at _ _ _ _ _ _ r Hinv) in Hwk as (_ & _ & _ & Hwk); [| done..].
    assert (∀ a b oa ob na nb, ops !! a = Some oa → ops !! b = Some ob → created oa = Some (sha256Hex na) →
              created ob = Some (sha256Hex nb) → sha256Hex na = sha256Hex nb → a = b) as Hdist.
    { intros a b oa ob na nb Ha Hb Hna Hnb E. rewrite <- E in Hnb. by eapply created_distinct. }
    destruct Hwi as [[ti Hi'] | [ti Hi']], Hwj as [[tj Hj'] | [tj Hj']], Hwk as [[tk Hk'] | [tk Hk']];
      first [ by left; eapply (Hdist i j); try done; congruence
            | by right; left; eapply (Hdist i k); try done; congruence
            | by right; right; eapply (Hdist j k); try done; congruence ].
  - intros i Hi.
    destruct (refreshed_minted _ _ _ _ _ _ Hd Hr Hi)
      as (Hinv & oi & ni & nsi & si & ci & Hoi & Hci & Hwi & (c & Hc & [Hcn Hch] & Hcs & Hcc)).
    pose proof Hwi as (r & Hin & [Hrn Hh] & Hrs & Hrc & Hor). exists r, c.
    split; [done |]. split; [done |]. split; [done |]. split; [rewrite Hoi; cbn; congruence |].
    split; [congruence |]. split; [congruence |]. split; [rewrite Hcc, unmarshal_marshal; congruence |].
    destruct Hinv as [_ Hok]. rewrite Forall_forall in Hok. specialize (Hok r Hin). unfold row_ok in Hok.
    split; [intros t Ht | intros Ht]; rewrite Ht in *; destruct Hor as [[u Hu] | [u Hu]]; simplify_eq;
      rewrite Hu in Hok; done.
Qed.

(** ** The life of a token

    The rows refine a small machine: an active token becomes recoverable when
    it is rotated and spent when its grace is used or a logout ends it. *)

Inductive phase := Unknown | Active | Recoverable | Spent.

Definition row_phase (now : Z) (r : token_row) : phase :=
  if decide (unexpired now r) then
    match revoked_at r with
    | None => Active
    | Some _ =>
        if decide (recently_revoked now r ∧ grace_used_at r = None ∧ t_subject r ≠ EmptyString)
        then Recoverable else Spent
    end
  else Spent.

Definition find_token (nsID : Z) (hash : string) (d : auth_db) : option token_row :=
  head (filter (names nsID hash) (refresh_tokens d)).

Definition phase_of (nsID : Z) (hash : string) (d : auth_db) : phase :=
  from_option (row_phase (clock d)) Unknown (find_token nsID hash d).

Definition refresh_phase (p : phase) : phase :=
  match p with Active => Recoverable | Recoverable => Spent | p => p end.

Definition logout_phase (p : phase) : phase :=
  match p with Active => Spent | p => p end.

Lemma head_filter_and (P Q : token_row → Prop) `{!∀ r, Decision (P r), !∀ r, Decision (Q r)} l :
  (∀ r r', r ∈ l → r' ∈ l → P r → P r' → r = r') →
  head (filter (λ r, P r ∧ Q r) l)
  = match head (filter P l) with
    | Some r => if decide (Q r) then Some r else None
    | None => None
    end.
Proof.
  induction l as [| x l IH]; intros Hu; [done |]. rewrite !filter_cons.
  assert (∀ r r', r ∈ l → r' ∈ l → P r → P r' → r = r') as Hu' by (intros; apply Hu; [by right.. | done | done]).
  destruct (decide (P x)) as [HP | HP]; [| rewrite decide_False by tauto; auto]. cbn [head].
  destruct (decide (Q x)) as [HQ | HQ]; [by rewrite decide_True |].
  rewrite decide_False by tauto.
  destruct (head (filter (λ r, P r ∧ Q r) l)) as [y |] eqn:E; [| done].
  apply head_filter in E as (Hy & HPy & HQy). exfalso. apply HQ.
  rewrite (Hu x y); [done | left | by right | done | done].
Qed.

Lemma names_unique d nsID hash r r' :
  tok_inv d → r ∈ refresh_tokens d → r' ∈ refresh_tokens d → names nsID hash r → names nsID hash r' → r = r'.
Proof. intros Hd Hr Hr' [_ E] [_ E']. eapply token_unique; [done.. | congruence]. Qed.

Lemma find_ensure nsID hash ns d : find_token nsID hash (ensure_namespace ns d) = find_token nsID hash d.
Proof. unfold find_token. by rewrite ensure_tokens. Qed.

Lemma find_update nsID hash P `{!∀ r, Decision (P r)} f d :
  (∀ r, t_namespace (f r) = t_namespace r ∧ t_token (f r) = t_token r) →
  find_token nsID hash (update_tokens P f d).2
  = (λ r, if decide (P r) then f r else r) <$> find_token nsID hash d.
Proof.
  intros Hf. unfold find_token. cbn. induction (refresh_tokens d) as [| x l IH]; [done |]. cbn [fmap list_fmap].
  rewrite !filter_cons.
  assert (names nsID hash (if decide (P x) then f x else x) ↔ names nsID hash x) as Hiff.
  { case_decide; [| done]. unfold names. destruct (Hf x) as [-> ->]. done. }
  destruct (decide (names nsID hash x)) as [Hn | Hn].
  - by rewrite decide_True by tauto.
  - rewrite decide_False by tauto. exact IH.
Qed.

Lemma find_store nsID hash nsID' subject hash' claims d d' :
  store_token nsID' subject hash' claims d = Ok d' →
  find_token nsID hash d'
  = if decide (nsID' = nsID ∧ hash' = hash) then Some (new_token (clock d) nsID' subject hash' claims)
    else find_token nsID hash d.
Proof.
  unfold store_token, insert_token. case_decide as Hin; [done |]. intros [= <-]. unfold find_token. cbn.
  rewrite filter_app. cbn. unfold names at 2. cbn.
  case_decide as H; [| by rewrite app_nil_r].
  destruct H as [-> ->]. destruct (filter (names nsID hash) (refresh_tokens d)) as [| y l] eqn:E; [done |].
  assert (y ∈ filter (names nsID hash) (refresh_tokens d)) as Hy by (rewrite E; left).
  apply list_elem_of_filter in Hy as [[_ Hy] Hin']. destruct Hin. cbn. rewrite <- Hy.
  apply list_elem_of_fmap. eauto.
Qed.

(** A compare-and-swap that finds its row changes that token only. *)
Lemma cas_phase P `{!∀ r, Decision (P r)} f d nsID hash row :
  (∀ r, P r → names nsID hash r) → (∀ r, t_namespace (f r) = t_namespace r ∧ t_token (f r) = t_token r) →
  find_token nsID hash d = Some row → P row →
  (∃ n, (update_tokens P f d).1 = S n) ∧
  ∀ nsID' h, phase_of nsID' h (update_tokens P f d).2
    = if decide (nsID' = nsID ∧ h = hash) then row_phase (clock d) (f row) else phase_of nsID' h d.
Proof.
  intros HP Hf Hfind Hrow. split.
  - apply head_filter in Hfind as [Hin _].
    assert (row ∈ filter P (refresh_tokens d)) as Hel by (apply list_elem_of_filter; auto).
    cbn. destruct (filter P (refresh_tokens d)); [by apply not_elem_of_nil in Hel |]. eauto.
  - intros nsID' h. unfold phase_of. rewrite find_update by done. cbn [clock update_tokens snd set_tokens].
    case_decide as E; [destruct E as [-> ->]; rewrite Hfind; cbn; by rewrite decide_True |].
    destruct (find_token nsID' h d) as [r |] eqn:Hr; [| done]. cbn. rewrite decide_False; [done |].
    intros HPr. apply HP in HPr as [En Eh]. apply head_filter in Hr as [_ [En' Eh']]. destruct E. split; congruence.
Qed.

Lemma phase_rotated now by_ r :
  row_ok r → revoked_at r = None → unexpired now r → t_subject r ≠ EmptyString →
  row_phase now r = Active ∧ row_phase now (set_revoked now by_ r) = Recoverable.
Proof.
  intros Hok Hn He Hs. unfold row_phase. split; [by rewrite decide_True, Hn |].
  rewrite decide_True by exact He. cbn [revoked_at set_revoked]. rewrite decide_True; [done |].
  unfold row_ok in Hok. rewrite Hn in Hok.
  split; [unfold recently_revoked; cbn; unfold refreshReuseGrace; lia |].
  cbn. split; [by destruct (grace_used_at r) | done].
Qed.

Lemma phase_recovered now by_ r :
  recently_revoked now r → grace_used_at r = None → unexpired now r → t_subject r ≠ EmptyString →
  row_phase now r = Recoverable ∧ row_phase now (set_grace now by_ r) = Spent.
Proof.
  intros Hr Hg He Hs. unfold row_phase. rewrite (decide_True (P := unexpired now r)) by done.
  rewrite (decide_True (P := unexpired now (set_grace now by_ r))) by exact He. cbn [revoked_at set_grace].
  destruct (revoked_at r) eqn:E; [| unfold recently_revoked in Hr; by rewrite E in Hr].
  split; [by rewrite decide_True |]. rewrite decide_False; [done |]. cbn. naive_solver.
Qed.

Lemma row_phase_fail now r :
  ¬ (revoked_at r = None ∧ unexpired now r) →
  ¬ (recently_revoked now r ∧ grace_used_at r = None ∧ unexpired now r) →
  row_phase now r = Spent.
Proof.
  intros H1 H2. unfold row_phase. case_decide; [| done]. destruct (revoked_at r) eqn:E; [| tauto].
  rewrite decide_False; tauto.
Qed.

Definition can_sign (s : AuthService) (now : time) (ns : string) : Prop :=
  ∀ subject custom, ∃ token exp, GenerateJWT (jwt s) now ns subject accessTTL custom = Ok (token, exp).

(** After the compare-and-swap the new token is stored. *)
Lemma run_mint s now new ns nsID subject custom d :
  can_sign s now ns → sha256Hex new ∉ t_token <$> refresh_tokens d →
  ∃ res d', run (mint s now (Some new) ns nsID subject custom) d = (Ok res, d') ∧
    newRefreshToken res = new ∧ r_subject res = subject ∧ namespaces d' = namespaces d ∧
    ∀ nsID' h, phase_of nsID' h d'
      = if decide (nsID = nsID' ∧ sha256Hex new = h) then Active else phase_of nsID' h d.
Proof.
  intros Hsign Hnew. unfold mint. destruct (Hsign subject custom) as (token & exp & ->). cbn [run].
  destruct (store_token _ _ _ _ d) as [d' | e] eqn:Hst.
  - eexists _, d'. split; [reflexivity |]. split; [done |]. split; [done |].
    pose proof Hst as Hst'. unfold store_token, insert_token in Hst'. rewrite decide_False in Hst' by done.
    injection Hst' as <-. split; [done |]. intros nsID' h. unfold phase_of.
    rewrite (find_store _ _ _ _ _ _ _ _ Hst). cbn [clock set_tokens]. case_decide; [| done]. cbn.
    unfold row_phase. rewrite decide_True; [done |]. unfold unexpired. cbn. unfold thirtyDays. lia.
  - unfold store_token, insert_token in Hst. by rewrite decide_False in Hst.
Qed.

Lemma update_hashes P `{!∀ r, Decision (P r)} f d :
  (∀ r, t_token (f r) = t_token r) →
  t_token <$> refresh_tokens (update_tokens P f d).2 = t_token <$> refresh_tokens d.
Proof.
  intros Hf. cbn. rewrite <- list_fmap_compose. apply list_fmap_ext. intros i r _. cbn. by case_decide.
Qed.

Lemma select_active_find nsID hash d :
  tok_inv d →
  select_active nsID hash d
  = match find_token nsID hash d with
    | Some r => if decide (revoked_at r = None ∧ unexpired (clock d) r) then Some r else None
    | None => None
    end.
Proof. intros Hd. apply (head_filter_and (names nsID hash)). intros r r'. by apply names_unique. Qed.

Lemma select_grace_find nsID hash d :
  tok_inv d →
  select_grace nsID hash d
  = match find_token nsID hash d with
    | Some r => if decide (recently_revoked (clock d) r ∧ grace_used_at r = None ∧ unexpired (clock d) r)
                then Some r else None
    | None => None
    end.
Proof. intros Hd. apply (head_filter_and (names nsID hash)). intros r r'. by apply names_unique. Qed.

Definition subjects_named (d : auth_db) : Prop := Forall (λ r, t_subject r ≠ EmptyString) (refresh_tokens d).

(** What a refresh of [hash] that creates [hashNew] does to the phases. *)
Definition phases_after (nsID : Z) (hash hashNew : string) (ok : bool) (d d' : auth_db) : Prop :=
  ∀ nsID' h, phase_of nsID' h d'
    = if decide (nsID = nsID' ∧ hashNew = h ∧ ok = true) then Active
      else if decide (nsID' = nsID ∧ h = hash) then refresh_phase (phase_of nsID' h d)
      else phase_of nsID' h d.

(** [RefreshToken] once the namespace is resolved. *)
Definition refresh_outcome (nsID : Z) (tok new : string) (r : result session_error refreshed) (d d' : auth_db)
    : Prop :=
  namespaces d' = namespaces d ∧
  match r with
  | Ok res =>
      newRefreshToken res = new ∧
      (phase_of nsID (sha256Hex tok) d = Active ∨ phase_of nsID (sha256Hex tok) d = Recoverable) ∧
      t_subject <$> find_token nsID (sha256Hex tok) d = Some (r_subject res) ∧
      phases_after nsID (sha256Hex tok) (sha256Hex new) true d d'
  | Err e =>
      e = ErrInvalidRefresh ∧ d' = d ∧
      (phase_of nsID (sha256Hex tok) d = Unknown ∨ phase_of nsID (sha256Hex tok) d = Spent) ∧
      phases_after nsID (sha256Hex tok) (sha256Hex new) false d d'
  end.

(** A compare-and-swap that advances the phase of the token, and the mint. *)
Lemma cas_then_mint P `{!∀ r, Decision (P r)} f s now new tok ns nsID d row :
  (∀ r, P r → names nsID (sha256Hex tok) r) →
  (∀ r, t_namespace (f r) = t_namespace r ∧ t_token (f r) = t_token r) →
  can_sign s now ns → sha256Hex new ∉ t_token <$> refresh_tokens d →
  find_token nsID (sha256Hex tok) d = Some row → P row →
  row_phase (clock d) row = Active ∨ row_phase (clock d) row = Recoverable →
  row_phase (clock d) (f row) = refresh_phase (row_phase (clock d) row) →
  ∃ n res d', (update_tokens P f d).1 = S n ∧
    run (mint s now (Some new) ns nsID (t_subject row) (unmarshalClaims (t_claims row))) (update_tokens P f d).2
    = (Ok res, d') ∧ refresh_outcome nsID tok new (Ok res) d d'.
Proof.
  intros HP Hf Hsign Hnew Hfind Hrow Hbefore Hnext.
  destruct (cas_phase P f d nsID (sha256Hex tok) row HP Hf Hfind Hrow) as [[n Hn] Hph].
  destruct (run_mint s now new ns nsID (t_subject row) (unmarshalClaims (t_claims row))
    (update_tokens P f d).2 Hsign) as (res & d' & Hrun & E1 & E2 & E3 & Hph').
  { rewrite update_hashes; [done |]. intros r. apply Hf. }
  exists n, res, d'. split; [done |]. split; [done |]. split; [done |]. split; [done |].
  rewrite Hfind. cbn. rewrite E2. split; [unfold phase_of; by rewrite Hfind |]. split; [done |].
  intros nsID' h. rewrite Hph', Hph.
  destruct (decide (nsID = nsID' ∧ sha256Hex new = h)); [by rewrite decide_True by tauto |].
  rewrite (decide_False (P := _ ∧ _ ∧ _)) by tauto.
  case_decide as E; [| done]. destruct E as [-> ->]. unfold phase_of. by rewrite Hfind.
Qed.

Lemma phases_refused nsID hash hashNew d :
  phase_of nsID hash d = Unknown ∨ phase_of nsID hash d = Spent →
  phases_after nsID hash hashNew false d d.
Proof.
  intros Hp nsID' h. rewrite decide_False by naive_solver. case_decide as E; [| done].
  destruct E as [-> ->]. by destruct Hp as [-> | ->].
Qed.

Lemma outcome_refused nsID tok new d :
  phase_of nsID (sha256Hex tok) d = Unknown ∨ phase_of nsID (sha256Hex tok) d = Spent →
  refresh_outcome nsID tok new (Err ErrInvalidRefresh) d d.
Proof. intros Hp. repeat (split; [done |]). by apply phases_refused. Qed.

Lemma resolved_facts ns d :
  tok_inv d → subjects_named d → let d1 := ensure_namespace (resolved_name ns) d in
  tok_inv d1 ∧ t_token <$> refresh_tokens d1 = t_token <$> refresh_tokens d ∧
  (∀ nsID h row, find_token nsID h d1 = Some row → t_subject row ≠ EmptyString ∧ row_ok row ∧ names nsID h row) ∧
  (∀ nsID tok new r d', namespace_id (resolved_name ns) d1 = Some nsID → refresh_outcome nsID tok new r d1 d' →
     namespace_id (resolved_name ns) d' = Some nsID ∧ refresh_outcome nsID tok new r d1 d').
Proof.
  intros Hd Hsub. cbn. split; [by apply (same_tokens d); [apply ensure_tokens |] |].
  split; [by rewrite ensure_tokens |]. split.
  - intros nsID h row Hf. rewrite find_ensure in Hf. apply head_filter in Hf as [Hin Hn].
    destruct Hd as [_ Hok]. unfold subjects_named in Hsub. rewrite Forall_forall in Hsub, Hok. auto.
  - intros nsID tok new r d' Hid Ho. split; [| done]. unfold namespace_id in *. by destruct Ho as [-> _].
Qed.

(** C8: alone, [RefreshToken] implements the machine of phases: it succeeds
    exactly on a token that is active or recoverable, for the subject of its
    row, turns an active token into a recoverable one and a recoverable one
    into a spent one, makes the new token active, and leaves the phase of every
    other token of every namespace as it was.  A token that is unknown or spent
    (revoked outside the grace, its grace used, expired) is refused with the
    error for a bad token and nothing but the namespace's row is written. *)
Theorem refresh_refines s now new tok ns d :
  tok_inv d → subjects_named d → rotation s = true → can_sign s now ns →
  sha256Hex new ∉ t_token <$> refresh_tokens d →
  ∃ nsID r d', run (RefreshToken s now (Some new) tok ns) d = (r, d') ∧
    namespace_id (resolved_name ns) d' = Some nsID ∧
    refresh_outcome nsID tok new r (ensure_namespace (resolved_name ns) d) d'.
Proof.
  intros Hd Hsub Hrot Hsign Hnew. unfold RefreshToken. rewrite Hrot. cbn [negb].
  destruct (run_ResolveNamespaceID ns d) as (nsID & Hrun & Hid). exists nsID.
  rewrite run_bind, Hrun. cbn [fst snd].
  destruct (resolved_facts ns d Hd Hsub) as (Hd1 & Hh & Hrow & Hfin). rewrite <- Hh in Hnew.
  set (d1 := ensure_namespace _ d) in *.
  rewrite run_bind. cbn [run select_retry refreshSelectRetries fst snd]. rewrite select_active_find by done.
  destruct (find_token nsID (sha256Hex tok) d1) as [row |] eqn:Hfind.
  2: { rewrite run_bind. cbn [run tryRefreshReuseGrace]. rewrite select_grace_find, Hfind by done. cbn [run fst snd].
       eexists _, _. split; [reflexivity |]. apply Hfin; [done |]. apply outcome_refused. left.
       unfold phase_of. by rewrite Hfind. }
  destruct (Hrow _ _ _ Hfind) as (Hs & Hok & Hnames). case_decide as Hact.
  - destruct Hact as [Hrev Hexp].
    destruct (phase_rotated (clock d1) (successor (Some new)) row Hok Hrev Hexp Hs) as [Ha Hr].
    destruct (cas_then_mint (λ r, names nsID (sha256Hex tok) r ∧ revoked_at r = None)
      (set_revoked (clock d1) (successor (Some new))) s now new tok ns nsID d1 row)
      as (n & res & d' & Hn & Hm & Ho); [by intros r [? _] | done.. | by left | by rewrite Ha, Hr |].
    exists (Ok res), d'. split; [| by apply Hfin]. cbn [run]. unfold revoke_cas. rewrite Hn. exact Hm.
  - rewrite run_bind. cbn [run tryRefreshReuseGrace]. rewrite select_grace_find, Hfind by done.
    destruct (decide (recently_revoked (clock d1) row ∧ grace_used_at row = None ∧ unexpired (clock d1) row))
      as [(Hrec & Hg & Hexp) | Hno].
    + destruct (phase_recovered (clock d1) (successor (Some new)) row Hrec Hg Hexp Hs) as [Ha Hr].
      destruct (String.eqb_spec (t_subject row) EmptyString) as [E |]; [done |].
      destruct (cas_then_mint
        (λ r, names nsID (sha256Hex tok) r ∧ grace_used_at r = None ∧ recently_revoked (clock d1) r)
        (set_grace (clock d1) (successor (Some new))) s now new tok ns nsID d1 row)
        as (n0 & res & d' & Hn & Hm & Ho); [by intros r [? _] | done.. | by right | by rewrite Ha, Hr |].
      exists (Ok res), d'. split; [| by apply Hfin]. cbn [run]. unfold grace_cas. rewrite Hn. exact Hm.
    + cbn [run fst snd]. eexists _, _. split; [reflexivity |]. apply Hfin; [done |]. apply outcome_refused. right.
      unfold phase_of. rewrite Hfind. by apply row_phase_fail.
Qed.

(** Which tokens a logout is about. *)
Definition targeted (nsID : Z) (tok subject : string) (d : auth_db) (nsID' : Z) (h : string) : Prop :=
  nsID' = nsID ∧
  (if String.eqb tok EmptyString then t_subject <$> find_token nsID' h d = Some subject else h = sha256Hex tok).

#[export] Instance targeted_dec nsID tok subject d nsID' h : Decision (targeted nsID tok subject d nsID' h).
Proof. unfold targeted. destruct (String.eqb tok EmptyString); apply _. Defined.

Lemma phase_logout now r : row_phase now (logout_row now r) = Spent.
Proof.
  unfold row_phase. case_decide; [| done]. cbn [revoked_at logout_row set_grace set_revoked].
  case_decide as H'; [| done]. by destruct H' as (_ & [=] & _).
Qed.

Lemma unrevoked_phase now r :
  (revoked_at r = None → row_phase now r = Active ∨ row_phase now r = Spent) ∧
  (revoked_at r ≠ None → logout_phase (row_phase now r) = row_phase now r).
Proof. unfold row_phase. split; intros H; case_decide; auto; destruct (revoked_at r); auto; try done. by case_decide. Qed.

Lemma logout_phases (T : token_row → Prop) (X : Prop) `{!∀ r, Decision (T r), !Decision X} d nsID' h :
  (∀ r, find_token nsID' h d = Some r → T r ↔ X) →
  phase_of nsID' h (update_tokens (λ r, T r ∧ revoked_at r = None) (logout_row (clock d)) d).2
  = if decide X then logout_phase (phase_of nsID' h d) else phase_of nsID' h d.
Proof.
  intros HX. unfold phase_of. rewrite find_update by done. cbn [clock update_tokens snd set_tokens].
  destruct (find_token nsID' h d) as [r |]; [| by case_decide]. specialize (HX r eq_refl). cbn.
  destruct (unrevoked_phase (clock d) r) as [H1 H2].
  destruct (decide X) as [HT | HT]; [| by rewrite decide_False by tauto].
  destruct (decide (revoked_at r = None)) as [Hn | Hn].
  - rewrite decide_True by tauto. rewrite phase_logout. by destruct (H1 Hn) as [-> | ->].
  - rewrite decide_False by tauto. by rewrite H2.
Qed.

(** Alone, [RevokeToken] ends what is active and nothing else: a token it
    names (or every token of the subject in the namespace) that is active
    becomes spent; a token that has been rotated and is still recoverable
    stays recoverable, so the logout does not close its grace; no other token
    changes.  With neither a token nor a subject to revoke it fails and
    changes nothing but the namespace's row. *)
Theorem logout_refines ns tok all subject d :
  ∃ nsID r d', run (RevokeToken ns tok all subject) d = (r, d') ∧ namespace_id (resolved_name ns) d' = Some nsID ∧
    if decide (tok ≠ EmptyString ∨ (all = true ∧ subject ≠ EmptyString)) then
      r = Ok tt ∧
      ∀ nsID' h, phase_of nsID' h d'
        = if decide (targeted nsID tok subject d nsID' h) then logout_phase (phase_of nsID' h d)
          else phase_of nsID' h d
    else r = Err ErrNothingToRevoke ∧ d' = ensure_namespace (resolved_name ns) d.
Proof.
  destruct (run_ResolveNamespaceID ns d) as (nsID & Hrun & Hid).
  exists nsID, (run (RevokeToken ns tok all subject) d).1, (run (RevokeToken ns tok all subject) d).2.
  split; [apply surjective_pairing |]. unfold RevokeToken. rewrite !run_bind, Hrun. cbn [fst snd].
  set (d1 := ensure_namespace _ d) in *.
  assert (∀ nsID' h, phase_of nsID' h d = phase_of nsID' h d1) as Hph.
  { intros nsID' h. unfold phase_of, d1. rewrite find_ensure. unfold ensure_namespace. by case_decide. }
  assert (∀ nsID' h r, find_token nsID' h d1 = Some r → find_token nsID' h d = Some r ∧ names nsID' h r) as Hfind.
  { intros nsID' h r. unfold d1. rewrite find_ensure. intros Hf. split; [done | by apply head_filter in Hf as [_ ?]]. }
  destruct (String.eqb_spec tok EmptyString) as [Htok | Htok]; cbn [negb].
  - destruct (decide (all = true ∧ subject ≠ EmptyString)) as [[-> Hs] | Hno].
    + destruct (String.eqb_spec subject EmptyString) as [| _]; [done |]. cbn [andb negb run write fst snd].
      split; [exact Hid |]. rewrite decide_True by auto. split; [done |]. intros nsID' h. rewrite Hph.
      apply (logout_phases (λ r, t_namespace r = nsID ∧ t_subject r = subject)).
      intros r [Hf [Hn _]]%Hfind. unfold targeted. rewrite Htok, Hf. cbn.
      split; [intros [? ?]; split; congruence | intros [? [=]]; split; congruence].
    + destruct (all && negb (String.eqb subject EmptyString)) eqn:Hb.
      { apply andb_true_iff in Hb as [-> Hb]. destruct (String.eqb_spec subject EmptyString); naive_solver. }
      cbn [run fst snd]. split; [exact Hid |]. rewrite decide_False by tauto. done.
  - cbn [run write fst snd]. split; [exact Hid |]. rewrite decide_True by auto. split; [done |].
    intros nsID' h. rewrite Hph. apply (logout_phases (names nsID (sha256Hex tok))).
    intros r [Hf [Hn Hh]]%Hfind. unfold targeted, names.
    destruct (String.eqb_spec tok EmptyString) as [| _]; [done |]. split; intros [? ?]; split; congruence.
Qed.
End Sessions.

(** ** Concrete runs *)

#[local] Existing Instances enum_token_codec toy_signatures.

#[local] Instance toy_session_codec : SessionCodec := {|
  sha256Hex m := "sha:" +:+ m;
  HmacSHA256Hex m secret := "hmac:" +:+ secret +:+ ":" +:+ m;
  json_claims := to_text;
  parse_claims := of_text
|}.

#[local] Instance toy_session_laws : SessionCodecLaws.
Proof.
  split; cbn; [intros _ m _; apply of_to_text |]. intros m. unfold to_text. by destruct (encode m).
Qed.

Definition demo_auth : AuthService := mkAuth demo_service true EmptyString "default" None.

(** Operations one after the other. *)
Definition session_trace (s : AuthService) (ops : list session_op) (d : auth_db)
    : list session_reply * auth_db :=
  run_all (session_prog s <$> ops) d.

Definition succeeded (r : session_reply) : bool :=
  match r with
  | RIssued (Ok _) | RRefreshed (Ok _) | RRevoked (Ok _) => true
  | _ => false
  end.

Definition demo_ops : list session_op :=
  [ OpIssue demo_now (Some "t0") "0xA11CE" "alice";
    OpRefresh demo_now (Some "t1") "t0" "alice";
    OpTick 30;
    OpRefresh demo_now (Some "t2") "t0" "alice";
    OpRefresh demo_now (Some "t3") "t0" "alice";
    OpLogout "alice" "" true "0xA11CE";
    OpRefresh demo_now (Some "t4") "t1" "alice" ]%string.

Example demo_outcome :
  succeeded <$> (session_trace demo_auth demo_ops (empty_db 1000)).1
  = [true; true; true; true; false; true; false].
Proof. vm_compute. reflexivity. Qed.

Definition refresh_ok (r : session_reply) : bool :=
  match r with RRefreshed (Ok _) => true | _ => false end.

Lemma trace_refreshed s ops d h d' i now rnd tok ns :
  ops !! i = Some (OpRefresh now rnd tok ns) →
  (refresh_ok <$> (session_trace s ops d).1) !! i = Some true →
  refreshed_by
    (mkSys d' h (zip_with (λ t a, (t.1, Ret a)) ((λ op, (op, session_prog s op)) <$> ops)
                   (run_all ((λ op, (op, session_prog s op)) <$> ops).*2 d).1))
    (sha256Hex tok) i.
Proof.
  intros Hop Hok. rewrite list_lookup_fmap in Hok. apply fmap_Some in Hok as ([| [res |] |] & Hres & E); try done.
  exists now, rnd, tok, ns, res. split; [done |]. cbn [threads].
  rewrite lookup_zip_with, list_lookup_fmap, Hop. cbn.
  rewrite <- list_fmap_compose. unfold session_trace in Hres.
  change (snd ∘ (λ op, (op, session_prog s op))) with (session_prog s). by rewrite Hres.
Qed.

Lemma refresh_single_use_witness :
  ∃ st, rtc sys_step (session_start demo_auth (empty_db 1000) demo_ops) st ∧
    refreshed_by st "sha:t0" 1 ∧ refreshed_by st "sha:t0" 3 ∧
    ∀ k, refreshed_by st "sha:t0" k → k = 1 ∨ k = 3.
Proof.
  destruct (sys_run_all ((λ op, (op, session_prog demo_auth op)) <$> demo_ops) (empty_db 1000)) as [h Hr].
  eexists. split; [exact Hr |].
  assert ((refresh_ok <$> (session_trace demo_auth demo_ops (empty_db 1000)).1) !! 1 = Some true) as H1
    by (vm_compute; reflexivity).
  assert ((refresh_ok <$> (session_trace demo_auth demo_ops (empty_db 1000)).1) !! 3 = Some true) as H3
    by (vm_compute; reflexivity).
  eapply trace_refreshed in H1; [| reflexivity]. eapply trace_refreshed in H3; [| reflexivity].
  split; [exact H1 |]. split; [exact H3 |]. intros k Hk.
  destruct (refresh_single_use demo_auth (empty_db 1000) demo_ops _ "sha:t0"
    ltac:(split; constructor) ltac:(apply (bool_decide_unpack _); vm_compute; reflexivity) Hr) as [Huse _].
  destruct (Huse 1 3 k H1 H3 Hk) as [| [<- | <-]]; [discriminate | by left | by right].
Defined.

(** A service that can sign signs everything. *)
Lemma demo_can_sign now ns : can_sign demo_auth now ns.
Proof. intros subject custom. by eexists _, _. Qed.

Definition rotated_db : auth_db := (session_trace demo_auth (take 2 demo_ops) (empty_db 1000)).2.

Lemma refresh_refines_witness :
  phase_of 1 "sha:t0" rotated_db = Recoverable ∧
  ∃ res d', run (RefreshToken demo_auth demo_now (Some "t2"%string) "t0" "alice") rotated_db = (Ok res, d') ∧
    phase_of 1 "sha:t0" d' = Spent ∧ phase_of 1 "sha:t2" d' = Active.
Proof.
  split; [vm_compute; reflexivity |].
  destruct (refresh_refines demo_auth demo_now "t2" "t0" "alice" rotated_db) as (nsID & r & d' & Hrun & Hid & Hout).
  - split; [apply (bool_decide_unpack _); vm_compute; reflexivity |]. repeat constructor.
  - repeat constructor; vm_compute; discriminate.
  - reflexivity.
  - apply demo_can_sign.
  - apply (bool_decide_unpack _). vm_compute. reflexivity.
  - replace (ensure_namespace (resolved_name "alice") rotated_db) with rotated_db in Hout
      by (vm_compute; reflexivity).
    assert (nsID = 1%Z) as ->.
    { destruct Hout as [E _]. unfold namespace_id in Hid. rewrite E in Hid. vm_compute in Hid. congruence. }
    destruct r as [res | e]; destruct Hout as [_ Hout].
    + destruct Hout as (_ & _ & _ & Hph). exists res, d'. split; [exact Hrun |].
      rewrite !Hph. vm_compute. split; reflexivity.
    + destruct Hout as (_ & _ & Hp & _). vm_compute in Hp. destruct Hp as [Hp | Hp]; discriminate.
Defined.

(** A logout does not end a session whose token was rotated less than a
    minute before.  After the rotation of [t0] to [t1] a logout of all sessions
    of the wallet succeeds and [t1] is refused; but [t0], which the logout was
    asked to revoke too, still buys a new session, because the statement of the
    logout closes the grace only of rows that were not yet revoked. *)
Theorem logout_leaves_grace :
  ∃ ops, ops = [ OpIssue demo_now (Some "t0") "0xA11CE" "alice";
                 OpRefresh demo_now (Some "t1") "t0" "alice";
                 OpTick 30;
                 OpLogout "alice" "" true "0xA11CE";
                 OpLogout "alice" "t0" false "";
                 OpRefresh demo_now (Some "t2") "t1" "alice";
                 OpRefresh demo_now (Some "t3") "t0" "alice";
                 OpRefresh demo_now (Some "t4") "t3" "alice" ]%string ∧
    succeeded <$> (session_trace demo_auth ops (empty_db 1000)).1
    = [true; true; true; true; true; false; true; true].
Proof. eexists. split; [reflexivity |]. vm_compute. reflexivity. Qed.
