(* ===== verification/ApiKeys.v ===== *)
(** * API keys in the database
      ([core/pkg/gateway/auth/service.go], [scoped_keys.go],
      [core/pkg/gateway/keys_routes.go])

    The operations that create and revoke API keys, as programs over the
    tables of [AuthDb], and the gateway of [AuthPipeline] whose queries read
    those tables: what a stored key lets its holder do is decided by the
    pipeline.  The random part of a key is an argument of the operation. *)

From Stdlib Require Import ZArith Lia Ascii String.
From stdpp Require Import base tactics numbers list gmap strings sets.
From S2P Require Import Prelude GoStrings Scopes Jwt AuthPipeline DbProg AuthDb Sessions.

Local Open Scope go_scope.

(** ** Statements *)

(** SQLite's [LOWER] folds ASCII letters, its [TRIM] removes spaces. *)
Definition sql_lower (s : string) : string := str_map lower_byte s.

Fixpoint drop_spaces (s : string) : string :=
  match s with
  | String " " s' => drop_spaces s'
  | s => s
  end.
Definition sql_trim (s : string) : string := str_rev (drop_spaces (str_rev (drop_spaces s))).

Definition namespace_name (id : Z) (d : auth_db) : option string :=
  if (0 <? id)%Z then namespaces d !! Z.to_nat (id - 1) else None.

(** The row of the namespace and scopes of a key that is not revoked. *)
Definition live_key (key : string) (d : auth_db) : option (string * string) :=
  match head (filter (λ r, k_key r = key ∧ k_revoked r = None ∧ is_Some (namespace_name (k_namespace r) d))
                (api_keys d)) with
  | None => None
  | Some r => (λ name, (name, default EmptyString (k_scopes r))) <$> namespace_name (k_namespace r) d
  end.

Definition insert_key (hash label : string) (nsID : Z) (sc : option string) (d : auth_db)
    : result string auth_db :=
  if decide (hash ∈ k_key <$> api_keys d) then Err "UNIQUE constraint failed: api_keys.key"
  else Ok (set_keys (api_keys d ++ [mkKey (next_key d) hash label nsID sc None]) (next_key d + 1) d).

Definition key_id (hash : string) (d : auth_db) : option Z :=
  k_id <$> head (filter (λ r, k_key r = hash) (api_keys d)).

(** The key a wallet is linked to in a namespace. *)
Definition linked_key (nsID : Z) (wallet : string) (d : auth_db) : option string :=
  head (omap (λ '(n, w, id),
    if decide (n = nsID ∧ sql_lower w = sql_lower wallet)
    then k_key <$> head (filter (λ r, k_id r = id) (api_keys d)) else None) (wallet_api_keys d)).

(** [INSERT OR IGNORE INTO wallet_api_keys], unique in namespace and wallet. *)
Definition link_wallet (nsID : Z) (wallet : string) (id : Z) (d : auth_db) : auth_db :=
  if decide ((nsID, wallet) ∈ (λ x, (x.1.1, x.1.2)) <$> wallet_api_keys d) then d
  else set_wallet_keys (wallet_api_keys d ++ [(nsID, wallet, id)]) d.

Definition drop_owner (nsID : Z) (owner_type owner_id : string) (d : auth_db) : auth_db :=
  set_ownership (filter (λ o, o ≠ (nsID, owner_type, owner_id)) (namespace_ownership d)) d.

Definition revoke_row (now : Z) (r : key_row) : key_row :=
  mkKey (k_id r) (k_key r) (k_name r) (k_namespace r) (k_scopes r) (Some now).

Definition revoke_keys (P : key_row → Prop) `{!∀ r, Decision (P r)} (d : auth_db) : auth_db :=
  set_keys ((λ r, if decide (P r) then revoke_row (clock d) r else r) <$> api_keys d) (next_key d) d.

Section Keys.
Context {unicode : UnicodeCase} {claims_codec : ClaimsCodec} {tok_codec : TokenCodec} {sigs : Signatures}
  {ses_codec : SessionCodec}.

Definition HashAPIKey (s : AuthService) (key : string) : string :=
  if String.eqb (apiKeyHMACSecret s) EmptyString then key else HmacSHA256Hex key (apiKeyHMACSecret s).

Inductive key_error :=
| ErrKeyNamespace (e : string)
| ErrKeyRandom
| ErrKeyStore (e : string)
| ErrEmptyScopes
| ErrNamespaceRequired
| ErrKeyId
| ErrKeyLookup (e : string)
| ErrNoActiveKey.

(** ["ak_" + base64(random) + ":" + namespace]. *)
Definition raw_key (rnd ns : string) : string := "ak_" +:+ rnd +:+ ":" +:+ ns.

(** ** Keys of wallets *)

(** Link the wallet, record the owners. *)
Definition record_owners (nsID : Z) (wallet apiKey hashedKey : string) : prog auth_db (result key_error string) :=
  attempt (add_owner nsID "api_key" hashedKey)
    (attempt (add_owner nsID "wallet" wallet) (Ret (Ok apiKey))).

Definition link_and_record (nsID : Z) (wallet apiKey hashedKey : string) : prog auth_db (result key_error string) :=
  Query (key_id hashedKey) (λ rid,
  match rid with
  | Ok (Some id) => attempt (link_wallet nsID (ToLower wallet) id) (record_owners nsID wallet apiKey hashedKey)
  | _ => record_owners nsID wallet apiKey hashedKey
  end).

Definition create_wallet_key (s : AuthService) (rnd : option string) (nsID : Z) (wallet ns : string)
    : prog auth_db (result key_error string) :=
  match rnd with
  | None => Ret (Err ErrKeyRandom)
  | Some rnd =>
      let apiKey := raw_key rnd ns in
      let hashedKey := HashAPIKey s apiKey in
      Exec (insert_key hashedKey EmptyString nsID None) (λ r,
      match r with
      | Err e => Ret (Err (ErrKeyStore e))
      | Ok _ => link_and_record nsID wallet apiKey hashedKey
      end)
  end.

Definition GetOrCreateAPIKey (s : AuthService) (rnd : option string) (wallet ns : string)
    : prog auth_db (result key_error string) :=
  do! r := ResolveNamespaceID ns in
  match r with
  | Err e => Ret (Err (ErrKeyNamespace e))
  | Ok nsID =>
      Query (linked_key nsID wallet) (λ r1,
      let apiKey := match r1 with Ok (Some k) => k | _ => EmptyString end in
      if negb (String.eqb apiKey EmptyString) then Ret (Ok apiKey)
      else create_wallet_key s rnd nsID wallet ns)
  end.

(** ** Scoped keys *)

Definition IssueScopedKey (s : AuthService) (rnd : option string) (ns storedScopes label : string)
    : prog auth_db (result key_error (string * Z)) :=
  if String.eqb (TrimSpace storedScopes) EmptyString then Ret (Err ErrEmptyScopes)
  else
    let ns := TrimSpace ns in
    if String.eqb ns EmptyString then Ret (Err ErrNamespaceRequired)
    else
      do! r := ResolveNamespaceID ns in
      match r with
      | Err e => Ret (Err (ErrKeyNamespace e))
      | Ok nsID =>
          match rnd with
          | None => Ret (Err ErrKeyRandom)
          | Some rnd =>
              let rawKey := raw_key rnd ns in
              let hashedKey := HashAPIKey s rawKey in
              Exec (insert_key hashedKey label nsID (Some storedScopes)) (λ r,
              match r with
              | Err e => Ret (Err (ErrKeyStore e))
              | Ok _ =>
                  attempt (add_owner nsID "api_key" hashedKey)
                    (Query (key_id hashedKey) (λ rid,
                     Ret (match rid with
                          | Ok (Some id) => if (id =? 0)%Z then Err ErrKeyId else Ok (rawKey, id)
                          | _ => Err ErrKeyId
                          end)))
              end)
          end
      end.

(** ** Revocation *)

Definition active_key_with_id (id nsID : Z) (d : auth_db) : option string :=
  k_key <$> head (filter (λ r, k_id r = id ∧ k_namespace r = nsID ∧ k_revoked r = None) (api_keys d)).

Definition RevokeKey (ns : string) (id : Z) : prog auth_db (result key_error unit) :=
  do! r := ResolveNamespaceID ns in
  match r with
  | Err e => Ret (Err (ErrKeyNamespace e))
  | Ok nsID =>
      Query (active_key_with_id id nsID) (λ sel,
      match sel with
      | Err e => Ret (Err (ErrKeyLookup e))
      | Ok None => Ret (Err ErrNoActiveKey)
      | Ok (Some hashedKey) =>
          write (revoke_keys (λ r, k_id r = id ∧ k_namespace r = nsID)) (λ r,
          match r with
          | Err e => Ret (Err (ErrKeyStore e))
          | Ok _ =>
              if negb (String.eqb hashedKey EmptyString)
              then attempt (drop_owner nsID "api_key" hashedKey) (Ret (Ok tt))
              else Ret (Ok tt)
          end)
      end)
  end.

(** [legacyPred]. *)
Definition legacy_key (nsID : Z) (r : key_row) : Prop :=
  k_namespace r = nsID ∧ k_revoked r = None ∧
  match k_scopes r with None => True | Some sc => sql_trim sc = EmptyString end.

#[export] Instance legacy_key_dec nsID r : Decision (legacy_key nsID r).
Proof. unfold legacy_key. destruct (k_scopes r); apply _. Defined.

Definition legacy_hashes (nsID : Z) (d : auth_db) : list string :=
  filter (λ h, h ≠ EmptyString) (k_key <$> filter (legacy_key nsID) (api_keys d)).

Fixpoint drop_owners (nsID : Z) (hashes : list string) (k : prog auth_db (result key_error nat))
    : prog auth_db (result key_error nat) :=
  match hashes with
  | [] => k
  | h :: hs => attempt (drop_owner nsID "api_key" h) (drop_owners nsID hs k)
  end.

Definition RevokeAllLegacy (ns : string) : prog auth_db (result key_error nat) :=
  do! r := ResolveNamespaceID ns in
  match r with
  | Err e => Ret (Err (ErrKeyNamespace e))
  | Ok nsID =>
      Query (legacy_hashes nsID) (λ sel,
      match sel with
      | Err e => Ret (Err (ErrKeyLookup e))
      | Ok hashes =>
          write (revoke_keys (legacy_key nsID)) (λ r,
          match r with
          | Err e => Ret (Err (ErrKeyStore e))
          | Ok _ => drop_owners nsID hashes (Ret (Ok (length hashes)))
          end)
      end)
  end.

(** ** The gateway over these tables *)

Definition owns (d : auth_db) (nsID : Z) (ot oid : string) : bool :=
  bool_decide ((nsID, ot, oid) ∈ namespace_ownership d).

(** The queries of the pipeline, answered by the tables: the row of a key, the
    namespace (created when it is missing) and its owners. *)
Definition gateway_of (s : AuthService) (now : time) (clientNS : string) (d : auth_db) : gateway :=
  mkGateway (λ tok, match Jwt.ParseAndVerifyJWT (jwt s) now tok with Ok c => Some c | Err _ => None end)
    (HashAPIKey s) (λ k, live_key k d) (λ _, true)
    (λ ns, AuthDb.namespace_id ns (AuthDb.ensure_namespace ns d)) (owns d) clientNS.

(** The tokens such a gateway accepts carry claims that were read from JSON. *)
Lemma gateway_of_utf8 `{!TokenCodecLaws} s now clientNS d : tokens_utf8 (gateway_of s now clientNS d).
Proof.
  intros tok c. cbn. destruct (Jwt.ParseAndVerifyJWT (jwt s) now tok) as [c0 | e] eqn:E; [| done]. intros [= <-].
  apply verified_payload in E as [pb E]. by apply unmarshal_claims_utf8 in E as (_ & _ & _ & _ & E).
Qed.

(** ** The invariant of the key table and the order of its states *)

(** A digest in hexadecimal does not look like a key. *)
Class KeyHashLaws : Prop := {
  hmac_not_key k secret : HasPrefix (HmacSHA256Hex k secret) "ak_" = false;
  hmac_nonempty k secret : HmacSHA256Hex k secret ≠ EmptyString
}.

Section Invariant.
Context {key_laws : KeyHashLaws} (s : AuthService).

(** With a secret, only digests are stored. *)
Definition key_form (h : string) : Prop := apiKeyHMACSecret s = EmptyString ∨ HasPrefix h "ak_" = false.

Lemma HashAPIKey_form k : key_form (HashAPIKey s k).
Proof.
  unfold key_form, HashAPIKey. destruct (String.eqb_spec (apiKeyHMACSecret s) EmptyString); [by left |].
  right. apply hmac_not_key.
Qed.

Definition key_inv (d : auth_db) : Prop :=
  NoDup (namespaces d) ∧ NoDup (k_key <$> api_keys d) ∧ NoDup (k_id <$> api_keys d) ∧
  Forall (λ r, (0 < k_id r < next_key d)%Z) (api_keys d) ∧ (0 < next_key d)%Z ∧
  Forall key_form (k_key <$> api_keys d).

(** A row keeps everything but the mark of its revocation, which stays. *)
Definition krow_le (r r' : key_row) : Prop :=
  k_id r' = k_id r ∧ k_key r' = k_key r ∧ k_name r' = k_name r ∧ k_namespace r' = k_namespace r ∧
  k_scopes r' = k_scopes r ∧ (k_revoked r = None ∨ is_Some (k_revoked r')).

#[export] Instance krow_le_preorder : PreOrder krow_le.
Proof.
  split.
  - intros r. unfold krow_le. destruct (k_revoked r); naive_solver.
  - intros a b c (A1 & A2 & A3 & A4 & A5 & A6) (B1 & B2 & B3 & B4 & B5 & B6). unfold krow_le.
    repeat (split; [congruence |]). destruct A6 as [| [x Hx]]; [by left |]. right.
    destruct B6 as [E |]; [congruence | done].
Qed.

Definition has_row (r : key_row) (d : auth_db) : Prop := ∃ r', r' ∈ api_keys d ∧ krow_le r r'.

Definition key_le (d d' : auth_db) : Prop :=
  namespaces d `prefix_of` namespaces d' ∧ ∀ r, r ∈ api_keys d → has_row r d'.

Lemma has_row_mono r d d' : key_le d d' → has_row r d → has_row r d'.
Proof. intros [_ Hd] (r1 & Hin & Hr). destruct (Hd _ Hin) as (r2 & Hin2 & Hr2). exists r2. split; [done | by etrans]. Qed.

#[export] Instance key_le_preorder : PreOrder key_le.
Proof.
  split.
  - intros d. split; [done |]. intros r Hr. exists r. split; [done | reflexivity].
  - intros a b c [P1 H1] [P2 H2]. split; [by etrans |]. intros r Hr.
    eapply (has_row_mono _ b); [by split |]. by apply H1.
Qed.

(** Statements that leave keys and namespaces alone. *)
Lemma same_keys d d' :
  namespaces d' = namespaces d → api_keys d' = api_keys d → next_key d' = next_key d →
  key_inv d → key_inv d' ∧ key_le d d'.
Proof.
  intros E1 E2 E3 Hd. unfold key_inv, key_le, has_row. rewrite E1, E2, E3. split; [exact Hd |].
  split; [done |]. intros r Hr. exists r. split; [done | reflexivity].
Qed.

Lemma owner_keys nsID ot oid d : key_inv d → key_inv (add_owner nsID ot oid d) ∧ key_le d (add_owner nsID ot oid d).
Proof. intros Hd. unfold add_owner. case_decide; by apply same_keys. Qed.

Lemma drop_owner_keys nsID ot oid d :
  key_inv d → key_inv (drop_owner nsID ot oid d) ∧ key_le d (drop_owner nsID ot oid d).
Proof. intros Hd. by apply same_keys. Qed.

Lemma link_keys nsID w id d : key_inv d → key_inv (link_wallet nsID w id d) ∧ key_le d (link_wallet nsID w id d).
Proof. intros Hd. unfold link_wallet. case_decide; by apply same_keys. Qed.

Lemma ensure_keys ns d :
  key_inv d → key_inv (AuthDb.ensure_namespace ns d) ∧ key_le d (AuthDb.ensure_namespace ns d).
Proof.
  intros (Hn & H). unfold AuthDb.ensure_namespace. case_decide as Hin; [by apply same_keys |]. split.
  - split; [| done]. cbn. apply NoDup_app. split; [done |]. split; [| apply NoDup_singleton].
    intros x Hx ->%list_elem_of_singleton. done.
  - split; [by apply prefix_app_r |]. intros r Hr. exists r. split; [done | reflexivity].
Qed.

Lemma revoke_keys_keeps P `{!∀ r, Decision (P r)} d :
  key_inv d → key_inv (revoke_keys P d) ∧ key_le d (revoke_keys P d).
Proof.
  intros (H1 & H2 & H3 & H4 & H5 & H6).
  split; [split; [done |]; split; [| split; [| split; [| split; [done |]]]] | split; [done |]]; cbn.
  - rewrite <- list_fmap_compose. erewrite list_fmap_ext; [exact H2 |]. intros i r _. cbn. by case_decide.
  - rewrite <- list_fmap_compose. erewrite list_fmap_ext; [exact H3 |]. intros i r _. cbn. by case_decide.
  - apply Forall_fmap. eapply Forall_impl; [exact H4 |]. intros r Hr. cbn. by case_decide.
  - rewrite <- list_fmap_compose. erewrite list_fmap_ext; [exact H6 |]. intros i r _. cbn. by case_decide.
  - intros r Hr. exists (if decide (P r) then revoke_row (clock d) r else r).
    split; [cbn; apply list_elem_of_fmap; eauto |]. case_decide; [| reflexivity].
    unfold krow_le. cbn. naive_solver.
Qed.

Lemma insert_key_keeps hash label nsID sc d d' :
  insert_key hash label nsID sc d = Ok d' → key_form hash → key_inv d →
  key_inv d' ∧ key_le d d' ∧ mkKey (next_key d) hash label nsID sc None ∈ api_keys d'.
Proof.
  unfold insert_key. case_decide as Hin; [done |]. intros [= <-] Hform (H1 & H2 & H3 & H4 & H5 & H6).
  split; [split; [done |]; split; [| split; [| split; [| split]]] | split; [split; [done |] |]]; cbn.
  - rewrite fmap_app. apply NoDup_app. split; [done |]. split; [| apply NoDup_singleton].
    by intros x Hx ->%list_elem_of_singleton.
  - rewrite fmap_app. apply NoDup_app. split; [done |]. split; [| apply NoDup_singleton].
    intros x Hx ->%list_elem_of_singleton. cbn in Hx. apply list_elem_of_fmap in Hx as (r & E & Hr).
    rewrite Forall_forall in H4. specialize (H4 _ Hr). lia.
  - apply Forall_app_2; [| by constructor; [cbn; lia |]]. eapply Forall_impl; [exact H4 |]. cbn. lia.
  - lia.
  - rewrite fmap_app. by apply Forall_app_2; [| constructor].
  - intros r Hr. exists r. split; [apply elem_of_app; by left | reflexivity].
  - apply elem_of_app. right. by apply list_elem_of_singleton.
Qed.

Lemma key_unique d r r' :
  key_inv d → r ∈ api_keys d → r' ∈ api_keys d → k_key r = k_key r' ∨ k_id r = k_id r' → r = r'.
Proof. intros (_ & Hk & Hi & _) Hr Hr' [E | E]; [by apply (NoDup_fmap_elem _ _ _ _ Hk) | by apply (NoDup_fmap_elem _ _ _ _ Hi)]. Qed.

(** The id of a namespace names it, now and later. *)
Lemma namespace_id_name ns id d d' :
  AuthDb.namespace_id ns d = Some id → namespaces d `prefix_of` namespaces d' → namespace_name id d' = Some ns.
Proof.
  unfold AuthDb.namespace_id. intros ([i x] & Hf & ->)%fmap_Some Hp. apply list_find_Some in Hf as (Hi & -> & _).
  unfold namespace_name. rewrite (proj2 (Z.ltb_lt _ _)) by (cbn; lia).
  replace (Z.to_nat (Z.of_nat (S (i, ns).1) - 1)) with i by (cbn; lia).
  destruct Hp as [k ->]. by rewrite lookup_app_l by (by eapply lookup_lt_Some).
Qed.

(** What the gateway finds under the stored form of a key. *)
Lemma live_key_row r d :
  key_inv d → r ∈ api_keys d →
  live_key (k_key r) d
  = if decide (k_revoked r = None)
    then (λ name, (name, default EmptyString (k_scopes r))) <$> namespace_name (k_namespace r) d else None.
Proof.
  intros Hd Hr. unfold live_key. set (P := λ r0, k_key r0 = k_key r ∧ _).
  destruct (head (filter P (api_keys d))) as [r0 |] eqn:E.
  - apply head_filter in E as (Hin & Hk & Hrev & _).
    assert (r0 = r) as -> by (by eapply key_unique; [| | | left]). by rewrite decide_True.
  - case_decide as Hrev; [| done]. destruct (namespace_name (k_namespace r) d) as [name |] eqn:Hn; [| done]. exfalso.
    assert (r ∈ filter P (api_keys d)) as Hin by (apply list_elem_of_filter; unfold P; rewrite Hn; eauto).
    destruct (filter P (api_keys d)); [by apply not_elem_of_nil in Hin | done].
Qed.
(** ** The operations keep the invariant *)

Abbreviation key_keeps := (keeps key_inv key_le) (only parsing).

(** A resolved id names the namespace from then on. *)
Lemma resolve_key_keeps ns :
  key_keeps (λ r d, ∀ id, r = Ok id → namespace_name id d = Some (resolved_name ns)) (λ _, True)
    (ResolveNamespaceID ns).
Proof.
  unfold ResolveNamespaceID, write. split; [| split; [| by intros e d _ _ id]].
  - intros d d' Hd _ [= <-]. by apply ensure_keys.
  - split; [| by intros e d _ _ id]. intros d0 Hd0.
    destruct (AuthDb.namespace_id _ d0) as [id0 |] eqn:Hid; [| by intros d _ _ id].
    intros d Hd [_ [Hp _]] id [= <-]. by eapply namespace_id_name.
Qed.

Lemma attempt_keeps {A} (Q : A → auth_db → Prop) (K : auth_db → Prop) w p :
  (∀ d, key_inv d → key_inv (w d) ∧ key_le d (w d)) → (∀ d d', key_le d d' → K d → K d') →
  key_keeps Q K p → key_keeps Q K (attempt w p).
Proof.
  intros Hw HK Hp. split; [| split; [| done]].
  - intros d d' Hd _ [= <-]. auto.
  - eapply keeps_mono; [| | exact Hp]; [done |]. intros d _ (d0 & d1 & H0 & H1 & [= <-] & Hle).
    eapply HK; [| exact H1]. etrans; [by apply Hw | done].
Qed.

(** The row of a key that was issued: what is known of it for good. *)
Definition issued (hash : string) (id : Z) (ns : string) (sc : option string) (d : auth_db) : Prop :=
  ∃ r, r ∈ api_keys d ∧ k_key r = hash ∧ k_id r = id ∧ k_scopes r = sc ∧
       namespace_name (k_namespace r) d = Some ns.

Lemma namespace_name_mono id ns d d' : key_le d d' → namespace_name id d = Some ns → namespace_name id d' = Some ns.
Proof.
  intros [[k E] _]. unfold namespace_name. destruct (0 <? id)%Z; [| done]. intros H. rewrite E.
  by rewrite lookup_app_l by (by eapply lookup_lt_Some).
Qed.

Lemma issued_mono hash id ns sc d d' : key_le d d' → issued hash id ns sc d → issued hash id ns sc d'.
Proof.
  intros Hle (r & Hin & Hk & Hi & Hs & Hn). destruct (proj2 Hle _ Hin) as (r' & Hin' & (E1 & E2 & E3 & E4 & E5 & _)).
  exists r'. split; [done |]. repeat (split; [congruence |]). rewrite E4. by eapply namespace_name_mono.
Qed.

(** After the insertion the row is there, for the namespace that was resolved. *)
Lemma inserted_issued hash label nsID sc ns (K : auth_db → Prop) d :
  key_form hash → (∀ d, K d → namespace_name nsID d = Some ns) →
  (∃ d0 d1, key_inv d0 ∧ K d0 ∧ insert_key hash label nsID sc d0 = Ok d1 ∧ key_le d1 d) →
  ∃ id, issued hash id ns sc d.
Proof.
  intros Hform HK (d0 & d1 & H0 & Hk & Hi & Hle). pose proof (insert_key_keeps _ _ _ _ _ _ Hi Hform H0) as (_ & Hle0 & Hin).
  exists (next_key d0). eapply issued_mono; [exact Hle |]. eexists. split; [exact Hin |]. repeat (split; [done |]).
  cbn. eapply namespace_name_mono; [exact Hle0 | auto].
Qed.

Lemma issued_id hash id id' ns sc d0 d :
  key_inv d → issued hash id ns sc d → key_id hash d0 = Some id' → key_le d0 d → issued hash id' ns sc d.
Proof.
  intros Hd (r & Hin & Hk & Hi & Hs & Hn) Hid Hle. unfold key_id in Hid. apply fmap_Some in Hid as (r0 & Hh & ->).
  apply head_filter in Hh as [Hin0 Hk0]. destruct (proj2 Hle _ Hin0) as (r1 & Hin1 & (E1 & E2 & _)).
  assert (r1 = r) as -> by (eapply key_unique; [done | done | done | left; congruence]).
  exists r. repeat (split; [congruence |]). done.
Qed.

Definition issue_post (rnd : option string) (ns stored : string)
    (r : result key_error (string * Z)) (d : auth_db) : Prop :=
  ∀ raw id, r = Ok (raw, id) →
    TrimSpace ns ≠ EmptyString ∧ (∃ b, rnd = Some b ∧ raw = raw_key b (TrimSpace ns)) ∧
    issued (HashAPIKey s raw) id (TrimSpace ns) (Some stored) d.

Lemma resolved_trim ns : TrimSpace ns ≠ EmptyString → resolved_name (TrimSpace ns) = TrimSpace ns.
Proof.
  intros H. unfold resolved_name. rewrite TrimSpace_idemp. by destruct (String.eqb_spec (TrimSpace ns) EmptyString).
Qed.

Lemma IssueScopedKey_keeps rnd ns stored label :
  key_keeps (issue_post rnd ns stored) (λ _, True) (IssueScopedKey s rnd ns stored label).
Proof.
  unfold IssueScopedKey. destruct (String.eqb _ EmptyString); [by intros d _ _ raw id |].
  destruct (String.eqb_spec (TrimSpace ns) EmptyString) as [| Hne]; [by intros d _ _ raw id |].
  eapply keeps_bind; [apply resolve_key_keeps |]. intros [nsID | e]; [| by intros d _ _ raw id].
  destruct rnd as [b |]; [| by intros d _ _ raw id]. split; [| split; [| by intros e d _ _ raw id]].
  { intros d d' Hd _ Hi. apply insert_key_keeps in Hi as (? & ? & _); [done | apply HashAPIKey_form | done]. }
  set (hash := HashAPIKey s _).
  apply (keeps_mono _ _ (issue_post (Some b) ns stored) _ (λ d, ∃ id, issued hash id (TrimSpace ns) (Some stored) d)).
  { done. }
  { intros d _ H. eapply inserted_issued; [apply HashAPIKey_form | | exact H]. intros d1 HK. by rewrite <- (resolved_trim ns Hne), HK. }
  apply attempt_keeps; [intros d; apply owner_keys | intros d d' Hle [id Hi]; exists id; by eapply issued_mono |].
  split; [| by intros e d _ _ raw id]. intros d0 Hd0.
  destruct (key_id hash d0) as [id |] eqn:Hid; [| by intros d _ _ raw id].
  destruct (id =? 0)%Z; [by intros d _ _ raw id' |].
  intros d Hd [[id0 Hi] Hle] raw id' [= <- <-]. split; [done |]. split; [eauto |].
  by eapply issued_id.
Qed.

Lemma record_owners_keeps nsID wallet apiKey hash :
  key_keeps (λ _ _, True) (λ _, True) (record_owners nsID wallet apiKey hash).
Proof. repeat (apply attempt_keeps; [intros d; apply owner_keys | done |]). done. Qed.

Lemma create_wallet_key_keeps rnd nsID wallet ns :
  key_keeps (λ _ _, True) (λ _, True) (create_wallet_key s rnd nsID wallet ns).
Proof.
  unfold create_wallet_key. destruct rnd as [b |]; [| done]. split; [| split; [| done]].
  { intros d d' Hd _ Hi. apply insert_key_keeps in Hi as (? & ? & _); [done | apply HashAPIKey_form | done]. }
  apply (keeps_mono _ _ (λ _ _, True) _ (λ _, True)); [done | done |].
  split; [intros d0 _ | intros e; apply record_owners_keeps].
  apply (keeps_mono _ _ (λ _ _, True) _ (λ _, True)); [done | done |].
  destruct (key_id _ d0) as [id |]; [| apply record_owners_keeps].
  apply attempt_keeps; [intros d; apply link_keys | done | apply record_owners_keeps].
Qed.

Lemma GetOrCreateAPIKey_keeps rnd wallet ns :
  key_keeps (λ _ _, True) (λ _, True) (GetOrCreateAPIKey s rnd wallet ns).
Proof.
  unfold GetOrCreateAPIKey. eapply keeps_bind; [apply resolve_key_keeps |]. intros [nsID | e]; [| done].
  apply (keeps_mono _ _ (λ _ _, True) _ (λ _, True)); [done | done |].
  split; [intros d0 _ | intros e; apply create_wallet_key_keeps].
  apply (keeps_mono _ _ (λ _ _, True) _ (λ _, True)); [done | done |].
  destruct (linked_key nsID wallet d0) as [k |]; [| apply create_wallet_key_keeps].
  destruct (String.eqb k EmptyString); [apply create_wallet_key_keeps | done].
Qed.

(** A revoked row stays revoked. *)
Definition revoked_key (id : Z) (ns : string) (d : auth_db) : Prop :=
  ∃ r, r ∈ api_keys d ∧ k_id r = id ∧ is_Some (k_revoked r) ∧ namespace_name (k_namespace r) d = Some ns.

Lemma revoked_mono id ns d d' : key_le d d' → revoked_key id ns d → revoked_key id ns d'.
Proof.
  intros Hle (r & Hin & Hi & Hr & Hn). destruct (proj2 Hle _ Hin) as (r' & Hin' & (E1 & E2 & E3 & E4 & E5 & E6)).
  exists r'. split; [done |]. split; [congruence |].
  split; [destruct E6 as [E6 |]; [rewrite E6 in Hr; by destruct Hr | done] |].
  rewrite E4. by eapply namespace_name_mono.
Qed.

Lemma RevokeKey_keeps ns id :
  key_keeps (λ r d, r = Ok tt → revoked_key id (resolved_name ns) d) (λ _, True) (RevokeKey ns id).
Proof.
  unfold RevokeKey. eapply keeps_bind; [apply resolve_key_keeps |]. intros [nsID | e]; [| done].
  split; [intros d0 Hd0 | done]. destruct (active_key_with_id id nsID d0) as [h |] eqn:Hsel; [| done].
  apply fmap_Some in Hsel as (r0 & Hh & ->). apply head_filter in Hh as (Hin0 & Hid & Hns & _).
  split; [intros d d' Hd _ [= <-]; by apply revoke_keys_keeps |]. split; [| done].
  apply (keeps_mono _ _ (λ r d, r = Ok tt → revoked_key id (resolved_name ns) d) _ (revoked_key id (resolved_name ns))).
  { done. }
  { intros d _ (d1 & d2 & Hd1 & [Hname Hle] & [= <-] & Hle2). eapply revoked_mono; [exact Hle2 |].
    destruct (proj2 Hle _ Hin0) as (r1 & Hin1 & (E1 & _ & _ & E4 & _)).
    exists (revoke_row (clock d1) r1). split.
    - cbn. apply list_elem_of_fmap. exists r1. split; [| done]. by rewrite decide_True by (split; congruence).
    - cbn. split; [congruence |]. split; [eauto |]. rewrite E4, Hns. by apply Hname. }
  destruct (negb _); [| by intros d _ Hk _].
  apply attempt_keeps; [intros d; apply drop_owner_keys | by intros d d' Hle; apply revoked_mono | by intros d _ Hk _].
Qed.

Lemma drop_owners_keeps nsID hashes n :
  key_keeps (λ _ _, True) (λ _, True) (drop_owners nsID hashes (Ret (Ok n))).
Proof.
  induction hashes as [| h hs IH]; cbn [drop_owners]; [done |].
  by apply attempt_keeps; [intros d; apply drop_owner_keys | |].
Qed.

Lemma RevokeAllLegacy_keeps ns : key_keeps (λ _ _, True) (λ _, True) (RevokeAllLegacy ns).
Proof.
  unfold RevokeAllLegacy. eapply keeps_bind; [apply resolve_key_keeps |]. intros [nsID | e]; [| done].
  split; [intros d0 Hd0 | done]. split; [intros d d' Hd _ [= <-]; by apply revoke_keys_keeps |]. split; [| done].
  apply (keeps_mono _ _ (λ _ _, True) _ (λ _, True)); [done | done | apply drop_owners_keeps].
Qed.
(** ** Many gateways *)

Inductive key_op :=
| KeyLogin (rnd : option string) (wallet ns : string)
| KeyIssue (rnd : option string) (ns stored label : string)
| KeyRevoke (ns : string) (id : Z)
| KeyRevokeLegacy (ns : string).

Inductive key_reply :=
| RLogin (r : result key_error string)
| RIssue (r : result key_error (string * Z))
| RRevoke (r : result key_error unit)
| RLegacy (r : result key_error nat).

Definition key_prog (op : key_op) : prog auth_db key_reply :=
  match op with
  | KeyLogin rnd wallet ns => do! r := GetOrCreateAPIKey s rnd wallet ns in Ret (RLogin r)
  | KeyIssue rnd ns stored label => do! r := IssueScopedKey s rnd ns stored label in Ret (RIssue r)
  | KeyRevoke ns id => do! r := RevokeKey ns id in Ret (RRevoke r)
  | KeyRevokeLegacy ns => do! r := RevokeAllLegacy ns in Ret (RLegacy r)
  end.

Definition key_post (op : key_op) (reply : key_reply) (d : auth_db) : Prop :=
  match op, reply with
  | KeyIssue rnd ns stored _, RIssue r => issue_post rnd ns stored r d
  | KeyRevoke ns id, RRevoke r => r = Ok tt → revoked_key id (resolved_name ns) d
  | KeyIssue _ _ _ _, _ | KeyRevoke _ _, _ => False
  | _, _ => True
  end.

Lemma key_prog_keeps op : key_keeps (key_post op) (λ _, True) (key_prog op).
Proof.
  destruct op as [rnd wallet ns | rnd ns stored label | ns id | ns]; cbn [key_prog].
  - eapply keeps_bind; [apply GetOrCreateAPIKey_keeps |]. done.
  - eapply keeps_bind; [apply IssueScopedKey_keeps |]. by intros r d _ Hr.
  - eapply keeps_bind; [apply RevokeKey_keeps |]. by intros r d _ Hr.
  - eapply keeps_bind; [apply RevokeAllLegacy_keeps |]. done.
Qed.

Definition key_start (d : auth_db) (ops : list key_op) : sys auth_db key_op key_reply :=
  mkSys d [] ((λ op, (op, key_prog op)) <$> ops).

Lemma key_threads_keep d ops :
  Forall (λ t, key_keeps (key_post t.1) (λ _, True) t.2) (threads (key_start d ops)).
Proof. apply Forall_fmap, Forall_true. intros o. apply key_prog_keeps. Qed.

(** What the gateway finds for a key it has not cached. *)
Definition named (e : option (string * string)) : option (string * string) :=
  match e with
  | Some (ns, sc) => if String.eqb ns EmptyString then None else Some (ns, sc)
  | None => None
  end.

Definition cold_lookup (key : string) (d : auth_db) : option (string * string) :=
  match named (live_key (HashAPIKey s key) d) with
  | Some e => Some e
  | None => if String.eqb (HashAPIKey s key) key then None else named (live_key key d)
  end.

Lemma lookup_cold t now clientNS key mc d :
  GetAPIKeyEntry now key mc = None →
  (lookupAPIKeyEntry (gateway_of s t clientNS d) now key mc).1 = cold_lookup key d.
Proof.
  intros Hc. unfold lookupAPIKeyEntry, cold_lookup, named. rewrite Hc. cbn.
  destruct (live_key (HashAPIKey s key) d) as [[ns sc] |]; [destruct (String.eqb ns EmptyString) |];
    try done; destruct (String.eqb (HashAPIKey s key) key); cbn; try done;
    (destruct (live_key key d) as [[ns' sc'] |]; [| done]; by destruct (String.eqb ns' EmptyString)).
Qed.

(** A key in clear is not in the table. *)
Lemma raw_not_stored key d :
  key_inv d → HasPrefix key "ak_" = true → HashAPIKey s key ≠ key → live_key key d = None.
Proof.
  intros (_ & _ & _ & _ & _ & Hform) Hp Hne. unfold live_key.
  destruct (head (filter _ (api_keys d))) as [r |] eqn:E; [| done]. exfalso.
  apply head_filter in E as (Hin & <- & _). rewrite Forall_forall in Hform.
  destruct (Hform (k_key r)) as [Hs | Hf]; [apply list_elem_of_fmap; eauto | | congruence].
  apply Hne. unfold HashAPIKey. by rewrite Hs.
Qed.

Lemma cold_lookup_row r raw ns sc d :
  key_inv d → r ∈ api_keys d → k_key r = HashAPIKey s raw → HasPrefix raw "ak_" = true →
  k_scopes r = Some sc → namespace_name (k_namespace r) d = Some ns → ns ≠ EmptyString →
  cold_lookup raw d = if decide (k_revoked r = None) then Some (ns, sc) else None.
Proof.
  intros Hd Hin Hk Hp Hs Hn Hne. unfold cold_lookup. rewrite <- Hk, (live_key_row r d Hd Hin), Hn, Hs.
  case_decide; cbn; [by destruct (String.eqb_spec ns EmptyString) |].
  destruct (String.eqb_spec (k_key r) raw) as [| Hraw]; [done |].
  rewrite raw_not_stored; [done | done | done | congruence].
Qed.

(** The lookups of a gateway that filled its cache read databases of the run. *)
Definition seen_in (st : sys auth_db key_op key_reply) (ev : mc_event) : Prop :=
  match ev with
  | EvLookup _ _ g => ∃ t clientNS d, d ∈ current st :: history st ∧ g = gateway_of s t clientNS d
  | EvCleanup _ => True
  end.

(** A lookup of an issued key in an earlier database finds nothing else. *)
Lemma answered_past r raw ns sc d d' t clientNS e :
  key_inv d → key_inv d' → key_le d' d → r ∈ api_keys d → k_key r = HashAPIKey s raw → HasPrefix raw "ak_" = true →
  k_scopes r = Some sc → namespace_name (k_namespace r) d = Some ns →
  answered (gateway_of s t clientNS d') raw e →
  e = (ns, sc) ∧ ∃ r', r' ∈ api_keys d' ∧ k_key r' = k_key r ∧ k_revoked r' = None.
Proof.
  intros Hd Hd' Hle Hin Hk Hp Hs Hn Ha.
  assert (live_key (k_key r) d' = Some e) as Hl.
  { unfold answered in Ha. cbn in Ha. rewrite Hk. destruct Ha as [Ha | Ha]; [done |].
    destruct (String.eqb_spec (HashAPIKey s raw) raw) as [-> | Hne]; [done |]. by rewrite raw_not_stored in Ha. }
  unfold live_key in Hl. destruct (head (filter _ (api_keys d'))) as [r0 |] eqn:E; [| done].
  apply head_filter in E as (Hin0 & Hk0 & Hrev & name & Hname).
  destruct (proj2 Hle _ Hin0) as (r1 & Hin1 & (E1 & E2 & E3 & E4 & E5 & _)).
  assert (r1 = r) as -> by (apply (key_unique d); [done | done | done | left; congruence]).
  rewrite Hname in Hl. cbn in Hl. injection Hl as <-. split; [| by exists r0].
  rewrite <- E5, Hs. pose proof (namespace_name_mono _ _ _ _ Hle Hname) as Hm. rewrite <- E4, Hn in Hm. by injection Hm as ->.
Qed.

(** C9: a scoped key grants what it was issued for and nothing else, whatever
    logins, issuances and revocations any number of gateways execute at the
    same time with failing statements, lost acknowledgements and lagging reads,
    and whatever earlier lookups, on current or lagging data, have left in the
    cache of a gateway.  While its row is not revoked the key resolves to the
    namespace and the scopes it was issued with; afterwards to nothing, except
    that a gateway goes on giving what it found in a lookup before the
    revocation (or on data from before it) until the time to live of its cache
    has passed since then.  A revocation of its id that was acknowledged has
    revoked the row, for good. *)
Theorem scoped_key_faithful d ops st i rnd ns stored label raw id :
  key_inv d → rtc sys_step (key_start d ops) st →
  threads st !! i = Some (KeyIssue rnd ns stored label, Ret (RIssue (Ok (raw, id)))) →
  ∃ r, r ∈ api_keys (current st) ∧ k_key r = HashAPIKey s raw ∧ k_id r = id ∧
    (∀ t now clientNS ttl evs, Forall (seen_in st) evs →
       let found := (lookupAPIKeyEntry (gateway_of s t clientNS (current st)) now raw (run_mc evs (mkCache ∅ ttl))).1 in
       (k_revoked r = None ∧ found = Some (TrimSpace ns, stored)) ∨
       (is_Some (k_revoked r) ∧ found = None) ∨
       (is_Some (k_revoked r) ∧ found = Some (TrimSpace ns, stored) ∧
        ∃ now0 t0 clientNS0 d0 r0, EvLookup now0 raw (gateway_of s t0 clientNS0 d0) ∈ evs ∧
          r0 ∈ api_keys d0 ∧ k_key r0 = k_key r ∧ k_revoked r0 = None ∧ (now ≤ now0 + ttl)%Z)) ∧
    (∀ j ns', threads st !! j = Some (KeyRevoke ns' id, Ret (RRevoke (Ok tt))) → is_Some (k_revoked r)).
Proof.
  intros Hd Hr Hi.
  destruct (sys_guarantee key_inv key_le key_post _ _ _ Hd (key_threads_keep d ops) Hr) as (Hinv & _ & Hpost).
  destruct (Hpost _ _ (list_elem_of_lookup_2 _ _ _ Hi) raw id eq_refl)
    as (Hne & (b & _ & Hraw) & (r & Hin & Hk & Hid & Hsc & Hn)).
  assert (HasPrefix raw "ak_" = true) as Hp by (rewrite Hraw; by apply HasPrefix_spec; eexists).
  exists r. repeat (split; [done |]). split.
  - intros t now clientNS ttl evs Hevs found.
    assert (∀ g e, (∃ t clientNS d, d ∈ current st :: history st ∧ g = gateway_of s t clientNS d) → answered g raw e →
      e = (TrimSpace ns, stored) ∧ ∃ t0 c0 d0 r0, g = gateway_of s t0 c0 d0 ∧ r0 ∈ api_keys d0 ∧ k_key r0 = k_key r ∧ k_revoked r0 = None) as Hans.
    { intros g e (t0 & c0 & d0 & Hd0 & ->) Ha.
      destruct (sys_guarantee_past key_inv key_le key_post _ _ _ d0 Hd (key_threads_keep d ops) Hr Hd0) as [Hi0 Hle0].
      destruct (answered_past r raw (TrimSpace ns) stored (current st) d0 t0 c0 e) as (He & r0 & ?); try done. split; [done |]. by exists t0, c0, d0, r0. }
    destruct (GetAPIKeyEntry now raw (run_mc evs (mkCache ∅ ttl))) as [e |] eqn:Hc.
    + assert (found = Some e) as Hf by (unfold found, lookupAPIKeyEntry; by rewrite Hc). rewrite Hf.
      destruct (cached_answer ttl evs now raw e Hc) as (now0 & g0 & Hin0 & Ha0 & Hle0).
      rewrite Forall_forall in Hevs. destruct (Hans g0 e (Hevs _ Hin0) Ha0) as (-> & t0 & c0 & d0 & r0 & -> & Hr0 & Hk0 & Hrev0).
      destruct (k_revoked r) as [x |]; [| by left]. right. right. split; [done |]. split; [done |]. by exists now0, t0, c0, d0, r0.
    + assert (found = if decide (k_revoked r = None) then Some (TrimSpace ns, stored) else None) as ->.
      { unfold found. rewrite lookup_cold by done. by apply cold_lookup_row. }
      case_decide as Hrev; [by left |]. right. left. split; [by destruct (k_revoked r) | done].
  - intros j ns' Hj. destruct (Hpost _ _ (list_elem_of_lookup_2 _ _ _ Hj) eq_refl) as (r' & Hin' & Hid' & Hrev & _).
    assert (r' = r) as <- by (eapply key_unique; [done | done | done | right; congruence]). done.
Qed.

(** ** What a key of a login lets its holder do *)

Definition key_request (m p key : string) : request :=
  mkRequest m p {[ "X-API-Key"%string := [key] ]} ∅ false emptyContext.

Lemma key_request_fields m p key :
  TrimSpace key = key → key ≠ EmptyString →
  extractAPIKey (key_request m p key) = key ∧ internal_namespace (key_request m p key) = None ∧
  bearer_token (key_request m p key) = None ∧ query_token (key_request m p key) = None.
Proof.
  intros Ht Hne.
  assert (∀ k, k ≠ "X-API-Key"%string → vget (headers (key_request m p key)) k = EmptyString) as Hother.
  { intros k Hk. unfold vget. cbn. by rewrite lookup_singleton_ne. }
  split.
  - unfold extractAPIKey. replace (vget _ "X-API-Key") with key by (unfold vget; cbn; by rewrite lookup_singleton_eq).
    rewrite Ht. by destruct (String.eqb_spec key EmptyString).
  - unfold internal_namespace, bearer_token, query_token, isWebSocketUpgrade. rewrite !Hother by discriminate.
    rewrite ToLower_ascii by done. done.
Qed.

Lemma HashAPIKey_nonempty key : key ≠ EmptyString → HashAPIKey s key ≠ EmptyString.
Proof.
  intros H. unfold HashAPIKey. destruct (String.eqb_spec (apiKeyHMACSecret s) EmptyString); [done |].
  apply hmac_nonempty.
Qed.

Definition admin_context (ns key : string) : context :=
  mkContext (Some key) None (Some ns) (Some {[ScopeAdmin]}) false.

Lemma key_authenticates t now clientNS ttl d m p key ns raw :
  TrimSpace key = key → key ≠ EmptyString → cold_lookup key d = Some (ns, raw) →
  ScopesFromStored raw = {[ScopeAdmin]} → m ≠ "OPTIONS"%string →
  (authMiddleware (gateway_of s t clientNS d) now (mkCache ∅ ttl) (key_request m p key)).1
  = Pass (set_ctx (admin_context ns key) (key_request m p key)).
Proof.
  intros Ht Hne Hcold Hadm Hm. destruct (key_request_fields m p key Ht Hne) as (Hx & Hin & Hb & Hq).
  unfold authMiddleware. destruct (String.eqb_spec (method (key_request m p key)) "OPTIONS"); [done |].
  rewrite Hin. unfold verified_token. rewrite Hb, Hq. cbn [mbind option_bind]. rewrite Hx.
  destruct (String.eqb_spec key EmptyString) as [| _]; [done |].
  pose proof (lookup_cold t now clientNS key (mkCache ∅ ttl) d) as Hl. rewrite Hcold in Hl.
  destruct (lookupAPIKeyEntry _ _ _ _) as [e mc]. cbn in Hl. rewrite Hl by done. cbn. by rewrite Hadm.
Qed.

Lemma key_owns t clientNS d nsID key :
  key ≠ EmptyString → (nsID, "api_key"%string, HashAPIKey s key) ∈ namespace_ownership d →
  ownsBy (gateway_of s t clientNS d) nsID "api_key" key = true.
Proof.
  intros Hne Hown. unfold ownsBy, apiKeyOwnerCandidates.
  cbn [String.eqb Ascii.eqb Bool.eqb AuthPipeline.HashAPIKey gateway_of andb].
  destruct (String.eqb_spec (HashAPIKey s key) EmptyString) as [E | _]; [by apply HashAPIKey_nonempty in E |].
  cbn [negb andb]. destruct (String.eqb_spec (HashAPIKey s key) key) as [E | _]; cbn;
    unfold owns; [rewrite E in Hown |]; by rewrite bool_decide_true.
Qed.

Lemma key_authorized t clientNS d m p key ns nsID :
  TrimSpace key = key → key ≠ EmptyString → TrimSpace ns = ns → ns ≠ EmptyString →
  AuthDb.namespace_id ns d = Some nsID → (nsID, "api_key"%string, HashAPIKey s key) ∈ namespace_ownership d →
  clientNS = EmptyString ∨ clientNS = ns →
  let r := set_ctx (admin_context ns key) (key_request m p key) in
  authorizationMiddleware (gateway_of s t clientNS d) r = Pass r.
Proof.
  intros Ht Hne Htns Hns Hid Hown Hcl r. apply String.eqb_neq in Hns as Hnsb.
  assert (userNamespace (ctx r) = ns) as Hu by (unfold userNamespace, r; cbn; by rewrite Htns).
  unfold authorizationMiddleware. destruct (_ || _); [done |]. destruct (String.eqb (path r) _); [done |].
  destruct (HasPrefix (path r) _); [done |]. replace (vget (headers r) HeaderInternalAuthValidated) with EmptyString.
  2: { unfold vget, r. cbn. by rewrite lookup_singleton_ne. }
  cbn [String.eqb andb]. rewrite Hu. replace (_ && _ && _) with false.
  2: { symmetry. unfold gatewayNamespace. cbn [ClientNamespace gateway_of].
       destruct Hcl as [-> | ->]; [done |]. rewrite Hnsb. cbn [negb]. by rewrite Htns, String.eqb_refl, andb_false_r. }
  destruct (negb _); [done |]. unfold checkOwnership. rewrite Hu, !Hnsb.
  assert (AuthPipeline.actor (ctx r) = Some ("api_key"%string, key)) as ->.
  { unfold AuthPipeline.actor, r. cbn. rewrite Ht. by destruct (String.eqb_spec key EmptyString). }
  cbn [AuthPipeline.ensure_namespace gateway_of negb AuthPipeline.namespace_id].
  rewrite (namespace_id_stable ns ns d nsID Hid). by rewrite (key_owns t clientNS d nsID key Hne Hown).
Qed.

Lemma admin_scope_passes r : callerScopes r = {[ScopeAdmin]} → scopeMiddleware r = Pass r.
Proof.
  intros Hc. unfold scopeMiddleware. destruct (_ || _); [done |].
  destruct (String.eqb (requiredScope (path r)) EmptyString) eqn:E; [done |]. rewrite Hc.
  assert (Has {[ScopeAdmin]} (requiredScope (path r)) = true) as ->.
  { unfold Has. by rewrite (bool_decide_true (ScopeAdmin ∈ _)), E by set_solver. }
  assert (IsAdmin {[ScopeAdmin]} = true) as -> by (vm_compute; reflexivity).
  by rewrite andb_false_r.
Qed.

(** The holder of a key that resolves to a namespace with the admin scope and
    is recorded as its owner passes the whole pipeline, on every path. *)
Lemma admin_key_passes t now clientNS ttl d m p key ns raw nsID :
  TrimSpace key = key → key ≠ EmptyString → TrimSpace ns = ns → ns ≠ EmptyString →
  cold_lookup key d = Some (ns, raw) → ScopesFromStored raw = {[ScopeAdmin]} →
  AuthDb.namespace_id ns d = Some nsID → (nsID, "api_key"%string, HashAPIKey s key) ∈ namespace_ownership d →
  clientNS = EmptyString ∨ clientNS = ns → m ≠ "OPTIONS"%string →
  (pipeline (gateway_of s t clientNS d) now (mkCache ∅ ttl) (key_request m p key)).1
  = Pass (set_ctx (admin_context ns key) (key_request m p key)).
Proof.
  intros Ht Hne Htns Hns Hcold Hadm Hid Hown Hcl Hm. unfold pipeline.
  pose proof (key_authenticates t now clientNS ttl d m p key ns raw Ht Hne Hcold Hadm Hm) as Ha.
  destruct (authMiddleware _ _ _ _) as [o mc]. cbn in Ha. subst o. cbn [fst then_].
  rewrite (key_authorized t clientNS d m p key ns nsID) by done. by apply admin_scope_passes.
Qed.
(** ** A login *)

Lemma resolved_nonempty ns : resolved_name ns ≠ EmptyString ∧ TrimSpace (resolved_name ns) = resolved_name ns.
Proof.
  unfold resolved_name. destruct (String.eqb_spec (TrimSpace ns) EmptyString); [by vm_compute |].
  split; [done | apply TrimSpace_idemp].
Qed.

(** A wallet that no link names. *)
Definition unlinked (wallet : string) (d : auth_db) : Prop :=
  Forall (λ x, sql_lower x.1.2 ≠ sql_lower wallet) (wallet_api_keys d).

Lemma unlinked_key nsID wallet d : unlinked wallet d → linked_key nsID wallet d = None.
Proof.
  intros Hu. unfold linked_key, unlinked in *. induction Hu as [| [[n w] id] l Hw _ IH]; [done |].
  cbn in *. by rewrite decide_False by tauto.
Qed.

Lemma sql_lower_ToLower wallet : is_ascii wallet = true → sql_lower (ToLower wallet) = sql_lower wallet.
Proof. intros Ha. unfold sql_lower. rewrite ToLower_ascii by done. apply lower_idemp. Qed.

(** The database after a first login: the key's row, the link and the owners. *)
Definition after_login (nsID : Z) (wallet hash : string) (d : auth_db) : auth_db :=
  let d1 := set_keys (api_keys d ++ [mkKey (next_key d) hash EmptyString nsID None None]) (next_key d + 1) d in
  let d2 := set_wallet_keys (wallet_api_keys d ++ [(nsID, ToLower wallet, next_key d)]) d1 in
  add_owner nsID "wallet" wallet (add_owner nsID "api_key" hash d2).

Lemma owner_fields nsID ot oid d :
  let d' := add_owner nsID ot oid d in
  clock d' = clock d ∧ namespaces d' = namespaces d ∧ api_keys d' = api_keys d ∧ next_key d' = next_key d ∧
  wallet_api_keys d' = wallet_api_keys d ∧ (nsID, ot, oid) ∈ namespace_ownership d' ∧
  ∀ o, o ∈ namespace_ownership d → o ∈ namespace_ownership d'.
Proof.
  unfold add_owner. case_decide; cbn; [done |]. repeat (split; [done |]).
  split; [apply elem_of_app; right; by apply list_elem_of_singleton |]. intros o Ho. apply elem_of_app. by left.
Qed.

Lemma run_first_login b wallet ns d :
  key_inv d → is_ascii wallet = true → unlinked wallet d →
  HashAPIKey s (raw_key b ns) ∉ k_key <$> api_keys d →
  ∃ nsID, AuthDb.namespace_id (resolved_name ns) (AuthDb.ensure_namespace (resolved_name ns) d) = Some nsID ∧
    run (GetOrCreateAPIKey s (Some b) wallet ns) d
    = (Ok (raw_key b ns),
       after_login nsID wallet (HashAPIKey s (raw_key b ns)) (AuthDb.ensure_namespace (resolved_name ns) d)).
Proof.
  intros Hd Ha Hu Hnew. destruct (run_ResolveNamespaceID ns d) as (nsID & Hrun & Hid). exists nsID. split; [done |].
  unfold GetOrCreateAPIKey. rewrite run_bind, Hrun. cbn [fst snd run].
  destruct (ensure_keys (resolved_name ns) d Hd) as [Hd1 _].
  assert (api_keys (AuthDb.ensure_namespace (resolved_name ns) d) = api_keys d ∧
          wallet_api_keys (AuthDb.ensure_namespace (resolved_name ns) d) = wallet_api_keys d) as [Ek Ew]
    by (unfold AuthDb.ensure_namespace; by case_decide).
  set (d1 := AuthDb.ensure_namespace (resolved_name ns) d) in *.
  rewrite unlinked_key by (unfold unlinked; by rewrite Ew). cbn [String.eqb negb].
  unfold create_wallet_key. cbn [run]. set (hash := HashAPIKey s (raw_key b ns)) in *.
  unfold insert_key. rewrite decide_False by (by rewrite Ek). cbn [run link_and_record].
  set (row := mkKey (next_key d1) hash EmptyString nsID None None).
  assert (key_id hash (set_keys (api_keys d1 ++ [row]) (next_key d1 + 1) d1) = Some (next_key d1)) as ->.
  { unfold key_id. cbn. rewrite filter_app. destruct (filter (λ r, k_key r = hash) (api_keys d1)) as [| r l] eqn:E.
    - cbn. by rewrite decide_True.
    - exfalso. apply Hnew. assert (r ∈ filter (λ r, k_key r = hash) (api_keys d1)) as Hr by (rewrite E; left).
      apply list_elem_of_filter in Hr as [<- Hr]. rewrite Ek in Hr. apply list_elem_of_fmap. eauto. }
  unfold attempt, write. cbn [run]. unfold link_wallet. rewrite decide_False; [done |]. cbn.
  intros ([[n w] id] & E & Hin)%list_elem_of_fmap. cbn in E. simplify_eq.
  unfold unlinked in Hu. rewrite <- Ew, Forall_forall in Hu. apply (Hu _ Hin). by apply sql_lower_ToLower.
Qed.

(** Its key resolves to the namespace, unscoped, and owns it. *)
Lemma after_login_spec nsID wallet hash ns d :
  key_inv d → AuthDb.namespace_id ns d = Some nsID → key_form hash → hash ∉ k_key <$> api_keys d →
  is_ascii wallet = true → unlinked wallet d →
  let d' := after_login nsID wallet hash d in
  key_inv d' ∧ namespaces d' = namespaces d ∧ live_key hash d' = Some (ns, EmptyString) ∧
  linked_key nsID wallet d' = Some hash ∧ (nsID, "api_key"%string, hash) ∈ namespace_ownership d' ∧
  (nsID, "wallet"%string, wallet) ∈ namespace_ownership d' ∧
  api_keys d' = api_keys d ++ [mkKey (next_key d) hash EmptyString nsID None None].
Proof.
  intros Hd Hid Hform Hnew Ha Hu d'.
  destruct (insert_key hash EmptyString nsID None d) as [d1 | e] eqn:Hins;
    [| unfold insert_key in Hins; by rewrite decide_False in Hins].
  destruct (insert_key_keeps _ _ _ _ _ _ Hins Hform Hd) as (Hd1 & [Hp _] & Hin).
  unfold insert_key in Hins. rewrite decide_False in Hins by done. injection Hins as Hd1eq.
  set (d2 := set_wallet_keys (wallet_api_keys d ++ [(nsID, ToLower wallet, next_key d)]) d1).
  assert (d' = add_owner nsID "wallet" wallet (add_owner nsID "api_key" hash d2)) as Ed'
    by (unfold d', after_login, d2; by rewrite Hd1eq).
  destruct (owner_fields nsID "api_key" hash d2) as (_ & A2 & A3 & A4 & A5 & A6 & _).
  destruct (owner_fields nsID "wallet" wallet (add_owner nsID "api_key" hash d2)) as (_ & B2 & B3 & B4 & B5 & B6 & B7).
  rewrite <- Ed' in B2, B3, B4, B5, B6, B7.
  destruct (same_keys d1 d') as [Hd' _]; [by rewrite B2, A2 | by rewrite B3, A3 | by rewrite B4, A4 | done |].
  assert (api_keys d' = api_keys d1) as Ek by (by rewrite B3, A3).
  split; [done |]. split; [rewrite B2, A2; unfold d2; by rewrite <- Hd1eq |]. split; [| split; [| split; [auto | split; [done |]]]].
  - rewrite <- Ek in Hin. pose proof (live_key_row _ d' Hd' Hin) as Hl. cbn in Hl. rewrite Hl, decide_True by done.
    rewrite (namespace_id_name ns nsID d d' Hid); [done |]. rewrite B2, A2. exact Hp.
  - unfold linked_key. rewrite Ek, B5, A5. cbn [wallet_api_keys set_wallet_keys d2]. rewrite omap_app.
    replace (omap _ (wallet_api_keys d)) with (@nil string).
    2: { symmetry. clear -Hu. induction Hu as [| [[n w] id] l Hw _ IH]; [done |]. cbn in *.
         by rewrite decide_False by tauto. }
    cbn. rewrite decide_True by (split; [done | by apply sql_lower_ToLower]).
    destruct (head (filter (λ r, k_id r = next_key d) (api_keys d1))) as [r |] eqn:Hh.
    + apply head_filter in Hh as [Hr Hrid]. cbn. f_equal.
      by rewrite (key_unique _ _ _ Hd1 Hr Hin (or_intror Hrid)).
    + exfalso. assert (mkKey (next_key d) hash EmptyString nsID None None
        ∈ filter (λ r, k_id r = next_key d) (api_keys d1)) as Hf by (by apply list_elem_of_filter).
      destruct (filter _ (api_keys d1)); [by apply not_elem_of_nil in Hf | done].
  - rewrite Ek, <- Hd1eq. done.
Qed.
Lemma raw_key_plain b ns : plain_text b = true → plain_text ns = true →
  TrimSpace (raw_key b ns) = raw_key b ns ∧ raw_key b ns ≠ EmptyString ∧ HasPrefix (raw_key b ns) "ak_" = true.
Proof.
  intros Hb Hn. split; [| split; [done |]].
  - apply TrimSpace_plain. unfold raw_key. rewrite !plain_text_app, Hb, Hn. reflexivity.
  - apply HasPrefix_spec. by eexists.
Qed.

Lemma first_login b wallet ns d :
  key_inv d → is_ascii wallet = true → unlinked wallet d → HashAPIKey s (raw_key b ns) ∉ k_key <$> api_keys d →
  ∃ nsID d', run (GetOrCreateAPIKey s (Some b) wallet ns) d = (Ok (raw_key b ns), d') ∧
    key_inv d' ∧ AuthDb.namespace_id (resolved_name ns) d' = Some nsID ∧
    AuthDb.ensure_namespace (resolved_name ns) d' = d' ∧
    live_key (HashAPIKey s (raw_key b ns)) d' = Some (resolved_name ns, EmptyString) ∧
    linked_key nsID wallet d' = Some (HashAPIKey s (raw_key b ns)) ∧
    (nsID, "api_key"%string, HashAPIKey s (raw_key b ns)) ∈ namespace_ownership d' ∧
    (nsID, "wallet"%string, wallet) ∈ namespace_ownership d'.
Proof.
  intros Hd Ha Hu Hnew. destruct (run_first_login b wallet ns d Hd Ha Hu Hnew) as (nsID & Hid & Hrun).
  exists nsID. eexists. split; [exact Hrun |]. destruct (ensure_keys (resolved_name ns) d Hd) as [Hd1 _].
  assert (api_keys (AuthDb.ensure_namespace (resolved_name ns) d) = api_keys d ∧
          wallet_api_keys (AuthDb.ensure_namespace (resolved_name ns) d) = wallet_api_keys d) as [Ek Ew]
    by (unfold AuthDb.ensure_namespace; by case_decide).
  destruct (after_login_spec nsID wallet (HashAPIKey s (raw_key b ns)) (resolved_name ns)
    (AuthDb.ensure_namespace (resolved_name ns) d)) as (H1 & H2 & H3 & H4 & H5 & H6 & _);
    [done | done | apply HashAPIKey_form | by rewrite Ek | done | unfold unlinked; by rewrite Ew |].
  split; [done |]. split; [unfold AuthDb.namespace_id in *; by rewrite H2 |]. split; [| done].
  unfold AuthDb.ensure_namespace at 1. rewrite decide_True; [done |]. rewrite H2.
  unfold AuthDb.ensure_namespace. case_decide; [done |]. cbn. apply elem_of_app. right. by apply list_elem_of_singleton.
Qed.

(** A login makes any wallet an administrator of any namespace: the key it gets
    passes the pipeline of that namespace on every path, as an administrator,
    and key and wallet are recorded as owners. *)
Lemma login_makes_admin t now clientNS ttl b wallet ns d :
  key_inv d → is_ascii wallet = true → unlinked wallet d →
  HashAPIKey s (raw_key b ns) ∉ k_key <$> api_keys d → plain_text b = true → plain_text ns = true →
  clientNS = EmptyString ∨ clientNS = resolved_name ns →
  ∃ nsID d', run (GetOrCreateAPIKey s (Some b) wallet ns) d = (Ok (raw_key b ns), d') ∧
    AuthDb.namespace_id (resolved_name ns) d' = Some nsID ∧
    (nsID, "wallet"%string, wallet) ∈ namespace_ownership d' ∧
    ∀ m p, m ≠ "OPTIONS"%string →
      ∃ r', (pipeline (gateway_of s t clientNS d') now (mkCache ∅ ttl) (key_request m p (raw_key b ns))).1 = Pass r' ∧
        ctxNamespace (ctx r') = Some (resolved_name ns) ∧ callerScopes r' = {[ScopeAdmin]}.
Proof.
  intros Hd Ha Hu Hnew Hb Hns Hcl.
  destruct (first_login b wallet ns d Hd Ha Hu Hnew) as (nsID & d' & Hrun & Hd' & Hid & _ & Hlive & _ & Hok & How).
  exists nsID, d'. repeat (split; [done |]). intros m p Hm.
  destruct (raw_key_plain b ns Hb Hns) as (Ht & Hne & _). destruct (resolved_nonempty ns) as [Hrn Hrt].
  exists (set_ctx (admin_context (resolved_name ns) (raw_key b ns)) (key_request m p (raw_key b ns))).
  split; [| done]. apply (admin_key_passes _ _ _ _ _ _ _ _ _ EmptyString nsID); try done.
  unfold cold_lookup. rewrite Hlive. cbn. by destruct (String.eqb_spec (resolved_name ns) EmptyString).
Qed.

(** The second login of a wallet does not return its key.  With a secret
    for API keys the first login returns the key and stores its hash; every
    later login returns the stored hash in place of the key, and writes
    nothing. *)
Theorem second_login_returns_hash b wallet ns d :
  key_inv d → is_ascii wallet = true → unlinked wallet d →
  HashAPIKey s (raw_key b ns) ∉ k_key <$> api_keys d → plain_text b = true → plain_text ns = true →
  ∃ d', run (GetOrCreateAPIKey s (Some b) wallet ns) d = (Ok (raw_key b ns), d') ∧
    ∀ rnd, run (GetOrCreateAPIKey s rnd wallet ns) d' = (Ok (HashAPIKey s (raw_key b ns)), d') ∧
      (apiKeyHMACSecret s ≠ EmptyString → HashAPIKey s (raw_key b ns) ≠ raw_key b ns).
Proof.
  intros Hd Ha Hu Hnew Hb Hns.
  destruct (first_login b wallet ns d Hd Ha Hu Hnew) as (nsID & d' & Hrun & Hd' & Hid & Hens & _ & Hlink & _).
  destruct (raw_key_plain b ns Hb Hns) as (_ & Hne & Hpre).
  exists d'. split; [done |]. intros rnd. split.
  - destruct (run_ResolveNamespaceID ns d') as (nsID' & Hrun' & Hid'). rewrite Hens in *.
    assert (nsID' = nsID) as -> by congruence.
    unfold GetOrCreateAPIKey. rewrite run_bind, Hrun'. cbn [fst snd run]. rewrite Hlink.
    destruct (String.eqb_spec (HashAPIKey s (raw_key b ns)) EmptyString) as [E |]; [| done].
    by apply HashAPIKey_nonempty in E.
  - intros Hsec E. destruct (HashAPIKey_form (raw_key b ns)) as [| Hf]; [done |]. rewrite E in Hf. congruence.
Qed.

(** The stored form of a key is itself accepted as a key.  Whoever reads
    the digest of a live key from the table can present it: no row matches the
    digest of the digest, and the fallback for keys stored in clear finds the
    row under the digest itself, with its namespace and scopes. *)
Theorem stored_hash_is_a_key r ns d :
  key_inv d → r ∈ api_keys d → k_revoked r = None → namespace_name (k_namespace r) d = Some ns → ns ≠ EmptyString →
  HashAPIKey s (k_key r) ∉ k_key <$> api_keys d →
  ∀ t now clientNS mc, GetAPIKeyEntry now (k_key r) mc = None →
    (lookupAPIKeyEntry (gateway_of s t clientNS d) now (k_key r) mc).1 = Some (ns, default EmptyString (k_scopes r)).
Proof.
  intros Hd Hin Hrev Hn Hne Hnot t now clientNS mc Hc. rewrite lookup_cold by done. unfold cold_lookup.
  assert (live_key (HashAPIKey s (k_key r)) d = None) as ->.
  { unfold live_key. destruct (head (filter _ (api_keys d))) as [r0 |] eqn:E; [| done]. exfalso.
    apply head_filter in E as (Hin0 & E & _). apply Hnot. rewrite <- E. apply list_elem_of_fmap. eauto. }
  cbn. destruct (String.eqb_spec (HashAPIKey s (k_key r)) (k_key r)) as [E | _].
  { destruct Hnot. rewrite E. apply list_elem_of_fmap. eauto. }
  rewrite (live_key_row r d Hd Hin), decide_True, Hn by done. cbn. by destruct (String.eqb_spec ns EmptyString).
Qed.
End Invariant.
End Keys.

(** ** Concrete runs *)

#[local] Existing Instances enum_codec enum_token_codec toy_signatures toy_session_codec.

#[local] Instance toy_key_laws : KeyHashLaws.
Proof. split; [intros k secret; reflexivity | intros k secret; discriminate]. Qed.

(** A service with a secret for API keys. *)
Definition demo_keys : AuthService := mkAuth demo_service true "pepper" "default" None.

Definition key_ops : list key_op :=
  [ KeyIssue (Some "k1") "alice" "invoke" "app"; KeyIssue (Some "k2") "alice" "admin" "ops";
    KeyRevoke "alice" 2; KeyLogin (Some "k3") "0xEVE" "alice" ]%string.

Definition key_trace : list key_reply * auth_db := run_all (key_prog demo_keys <$> key_ops) (empty_db 1000).

Lemma empty_key_inv s now : key_inv s (empty_db now).
Proof. repeat split; try constructor. Qed.

Lemma scoped_key_faithful_witness :
  ∃ st, rtc sys_step (key_start demo_keys (empty_db 1000) key_ops) st ∧
    (lookupAPIKeyEntry (gateway_of demo_keys demo_now "alice" (current st)) demo_now "ak_k1:alice"
       (run_mc [EvLookup demo_now "ak_k1:alice" (gateway_of demo_keys demo_now "alice" (current st))] (mkCache ∅ Minute))).1 = Some ("alice", "invoke")%string ∧
    (lookupAPIKeyEntry (gateway_of demo_keys demo_now "alice" (current st)) demo_now "ak_k2:alice"
       (mkCache ∅ Minute)).1 = None.
Proof.
  destruct (sys_run_all ((λ op, (op, key_prog demo_keys op)) <$> key_ops) (empty_db 1000)) as [h Hr].
  eexists. split; [exact Hr |].
  destruct (scoped_key_faithful demo_keys (empty_db 1000) key_ops _ 0 (Some "k1"%string) "alice" "invoke" "app"
    "ak_k1:alice" 1 (empty_key_inv _ _) Hr eq_refl) as (r & Hin & Hk & Hid & Hl & _).
  destruct (scoped_key_faithful demo_keys (empty_db 1000) key_ops _ 1 (Some "k2"%string) "alice" "admin" "ops"
    "ak_k2:alice" 2 (empty_key_inv _ _) Hr eq_refl) as (r2 & Hin2 & Hk2 & Hid2 & Hl2 & Hrev).
  split.
  - edestruct Hl as [[_ E] | [[Hrv _] | [Hrv _]]]; [| exact E | |]; [repeat constructor; eexists _, _, _; split; [left | reflexivity] | |];
      (exfalso; vm_compute in Hin; repeat (apply elem_of_cons in Hin as [-> | Hin]); try discriminate;
       [by destruct Hrv | by apply not_elem_of_nil in Hin]).
  - destruct (Hrev 2 "alice"%string eq_refl) as [x Hx].
    edestruct Hl2 as [[E _] | [[_ E] | (_ & _ & n0 & t0 & c0 & d0 & r0 & E & _)]]; [constructor | congruence | exact E | by apply not_elem_of_nil in E].
Defined.

(** The namespace alice, with two keys of hers. *)
Definition alice_db : auth_db := (run_all (key_prog demo_keys <$> take 3 key_ops) (empty_db 1000)).2.

Lemma alice_keys :
  api_keys alice_db
  = [ mkKey 1 "hmac:pepper:ak_k1:alice" "app" 1 (Some "invoke") None;
      mkKey 2 "hmac:pepper:ak_k2:alice" "ops" 1 (Some "admin") (Some 1000%Z) ]%string.
Proof. vm_compute. reflexivity. Qed.

Lemma alice_key_inv : key_inv demo_keys alice_db.
Proof.
  unfold key_inv. rewrite alice_keys. replace (next_key alice_db) with 3%Z by (vm_compute; reflexivity).
  replace (namespaces alice_db) with ["alice"%string] by (vm_compute; reflexivity).
  split; [apply NoDup_singleton |]. split; [apply (bool_decide_unpack _); reflexivity |].
  split; [apply (bool_decide_unpack _); reflexivity |]. split; [repeat constructor; cbn; lia |].
  split; [lia |]. repeat constructor; by right.
Qed.

Lemma second_login_returns_hash_witness :
  ∃ d', run (GetOrCreateAPIKey demo_keys (Some "k3"%string) "0xEVE" "alice") alice_db
      = (Ok "ak_k3:alice"%string, d') ∧
    run (GetOrCreateAPIKey demo_keys (Some "k4"%string) "0xEVE" "alice") d'
      = (Ok "hmac:pepper:ak_k3:alice"%string, d').
Proof.
  destruct (second_login_returns_hash demo_keys "k3" "0xEVE" "alice" alice_db) as (d' & Hrun & H2).
  - exact alice_key_inv.
  - reflexivity.
  - constructor.
  - apply (bool_decide_unpack _). vm_compute. reflexivity.
  - reflexivity.
  - reflexivity.
  - exists d'. split; [exact Hrun | exact (proj1 (H2 (Some "k4"%string)))].
Defined.

Lemma stored_hash_is_a_key_witness :
  (lookupAPIKeyEntry (gateway_of demo_keys demo_now "alice" alice_db) demo_now "hmac:pepper:ak_k1:alice"
     (mkCache ∅ Minute)).1 = Some ("alice", "invoke")%string.
Proof.
  refine (stored_hash_is_a_key demo_keys
    (mkKey 1 "hmac:pepper:ak_k1:alice" "app" 1 (Some "invoke"%string) None) "alice" alice_db
    alice_key_inv _ _ _ _ _ demo_now demo_now "alice" (mkCache ∅ Minute) _).
  - vm_compute. left.
  - reflexivity.
  - vm_compute. reflexivity.
  - discriminate.
  - apply (bool_decide_unpack _). vm_compute. reflexivity.
  - vm_compute. reflexivity.
Defined.

(** A login after a revocation returns the revoked key.  The lookup of a
    wallet's key does not ask whether it is revoked, so a wallet whose key was
    revoked (or swept with the legacy keys) is handed the dead key at every
    login and never gets another one. *)
Theorem login_returns_revoked_key :
  ∃ d1 d2, run (GetOrCreateAPIKey demo_keys (Some "k3"%string) "0xA11CE" "alice") alice_db
      = (Ok "ak_k3:alice"%string, d1) ∧
    run (RevokeAllLegacy "alice") d1 = (Ok 1, d2) ∧
    run (GetOrCreateAPIKey demo_keys (Some "k4"%string) "0xA11CE" "alice") d2
      = (Ok "hmac:pepper:ak_k3:alice"%string, d2) ∧
    cold_lookup demo_keys "ak_k3:alice" d2 = None ∧ cold_lookup demo_keys "hmac:pepper:ak_k3:alice" d2 = None.
Proof.
  eexists _, _. split; [vm_compute; reflexivity |]. split; [vm_compute; reflexivity |].
  split; [vm_compute; reflexivity |]. split; vm_compute; reflexivity.
Qed.
