(* ===== verification/Base58.v ===== *)
(** * Base58 ([Service.Base58Decode] in [core/pkg/gateway/auth/service.go])

    The decoding of Solana addresses, with the digits of a natural number in
    any base, and the encoding of the Base58 convention as its specification. *)

From Stdlib Require Import NArith Lia Ascii String.
From stdpp Require Import base tactics numbers list strings.
From S2P Require Import Prelude GoStrings.

Local Open Scope go_scope.

(** ** Digits, least significant first *)

Fixpoint digits_go (fuel : nat) (B n : N) : list N :=
  match fuel with
  | O => []
  | S fuel' => if (n =? 0)%N then [] else (n mod B)%N :: digits_go fuel' B (n / B)%N
  end.

(** The number of bits bounds the number of digits in every base. *)
Definition digits (B n : N) : list N := digits_go (N.size_nat n) B n.

Definition undigits (B : N) (l : list N) : N := foldr (λ d acc, d + B * acc)%N 0%N l.

(** ** The code *)

Definition alphabet : string := "123456789ABCDEFGHJKLMNPQRSTUVWXYZabcdefghijkmnopqrstuvwxyz".

(** The loop from the last byte to the first: [answer += idx * j; j *= 58]. *)
Fixpoint b58_loop (rev_input : string) (answer j : N) : option N :=
  match rev_input with
  | EmptyString => Some answer
  | String c rest =>
      match IndexByte alphabet c with
      | None => None
      | Some idx => b58_loop rest (answer + N.of_nat idx * j)%N (j * 58)%N
      end
  end.

(** [big.Int.Bytes]: big-endian, without leading zeros. *)
Definition big_bytes (n : N) : list N := reverse (digits 256 n).

Fixpoint leading_ones (s : string) : nat :=
  match s with
  | String "1" s' => S (leading_ones s')
  | _ => 0
  end.

Definition Base58Decode (input : string) : option (list N) :=
  answer ← b58_loop (str_rev input) 0 1;
  Some (replicate (leading_ones input) 0%N ++ big_bytes answer).

(** ** The specification *)

Fixpoint str_nth (s : string) (n : nat) : ascii :=
  match s, n with
  | EmptyString, _ => "000"%char
  | String a _, O => a
  | String _ s', S n' => str_nth s' n'
  end.

Fixpoint digits_text (l : list N) : string :=
  match l with
  | [] => EmptyString
  | d :: l' => String (str_nth alphabet (N.to_nat d)) (digits_text l')
  end.

Fixpoint leading_zeros (l : list N) : nat :=
  match l with
  | 0%N :: l' => S (leading_zeros l')
  | _ => 0
  end.

(** A [1] for each leading zero byte, then the number in base 58. *)
Definition Base58Encode (l : list N) : string :=
  digits_text (replicate (leading_zeros l) 0%N ++ reverse (digits 58 (undigits 256 (reverse l)))).

(** ** Digits *)

Lemma size_nat_bound n : (n < 2 ^ N.of_nat (N.size_nat n))%N.
Proof.
  destruct n as [| p]; [done |]. cbn [N.size_nat]. induction p as [p IH | p IH |]; cbn [Pos.size_nat];
    [rewrite Nat2N.inj_succ, N.pow_succ_r'; lia.. | done].
Qed.

Lemma digits_go_value B fuel n : (2 ≤ B)%N → (n < 2 ^ N.of_nat fuel)%N → undigits B (digits_go fuel B n) = n.
Proof.
  intros HB. revert n. induction fuel as [| fuel IH]; intros n Hn; cbn [digits_go].
  - cbn. change (2 ^ N.of_nat 0)%N with 1%N in Hn. lia.
  - destruct (N.eqb_spec n 0) as [-> | Hne]; [done |]. cbn [undigits foldr]. fold (undigits B (digits_go fuel B (n / B))).
    rewrite IH.
    + pose proof (N.div_mod n B ltac:(lia)). lia.
    + rewrite Nat2N.inj_succ, N.pow_succ_r' in Hn. apply N.Div0.div_lt_upper_bound. nia.
Qed.

Lemma undigits_digits B n : (2 ≤ B)%N → undigits B (digits B n) = n.
Proof. intros HB. apply digits_go_value; [done | apply size_nat_bound]. Qed.

Lemma digits_go_lt B fuel n : (2 ≤ B)%N → Forall (λ d, d < B)%N (digits_go fuel B n).
Proof.
  intros HB. revert n. induction fuel as [| fuel IH]; intros n; cbn [digits_go]; [done |].
  destruct (n =? 0)%N; [done |]. constructor; [apply N.mod_lt; lia | apply IH].
Qed.

(** A list of digits without a leading zero (here: a last zero). *)
Definition normal (l : list N) : Prop := last l ≠ Some 0%N.

Lemma normal_cons d l : normal (d :: l) ↔ (l = [] → d ≠ 0%N) ∧ normal l.
Proof. unfold normal. destruct l as [| x l]; cbn; naive_solver. Qed.

Lemma undigits_zero B l : (2 ≤ B)%N → normal l → undigits B l = 0%N → l = [].
Proof.
  intros HB. induction l as [| d l IH]; [done |]. rewrite normal_cons. cbn. intros [Hd Hl] E.
  assert (undigits B l = 0)%N as E0 by (fold (undigits B l) in E; nia).
  apply IH in E0 as ->; [| done]. cbn in E. specialize (Hd eq_refl). lia.
Qed.

Lemma digits_go_undigits B fuel l :
  (2 ≤ B)%N → Forall (λ d, d < B)%N l → normal l → (undigits B l < 2 ^ N.of_nat fuel)%N →
  digits_go fuel B (undigits B l) = l.
Proof.
  intros HB. revert l. induction fuel as [| fuel IH]; intros l Hl Hn Hf.
  - cbn. symmetry. apply (undigits_zero B); [done | done |]. change (2 ^ N.of_nat 0)%N with 1%N in Hf. lia.
  - destruct l as [| d l]; [done |]. cbn [digits_go].
    destruct (N.eqb_spec (undigits B (d :: l)) 0) as [E | Hne].
    { by apply undigits_zero in E. }
    apply Forall_cons in Hl as [Hd Hl]. apply normal_cons in Hn as [_ Hn].
    assert (undigits B (d :: l) = d + B * undigits B l)%N as E by done. rewrite E in *.
    rewrite N.mul_comm, N.Div0.mod_add, N.mod_small by done.
    rewrite N.div_add, N.div_small, N.add_0_l by lia. f_equal. apply IH; [done | done |].
    rewrite Nat2N.inj_succ, N.pow_succ_r' in Hf. nia.
Qed.

Lemma digits_undigits B l :
  (2 ≤ B)%N → Forall (λ d, d < B)%N l → normal l → digits B (undigits B l) = l.
Proof. intros HB Hl Hn. apply digits_go_undigits; try done. apply size_nat_bound. Qed.

Lemma digits_normal B n : (2 ≤ B)%N → normal (digits B n).
Proof.
  intros HB. unfold digits. pose proof (size_nat_bound n) as Hb. revert Hb. generalize (N.size_nat n) as fuel.
  intros fuel. revert n. induction fuel as [| fuel IH]; intros n Hn; cbn [digits_go]; [done |].
  destruct (N.eqb_spec n 0) as [-> | Hne]; [done |]. apply normal_cons.
  assert (n / B < 2 ^ N.of_nat fuel)%N as Hlt.
  { rewrite Nat2N.inj_succ, N.pow_succ_r' in Hn. apply N.Div0.div_lt_upper_bound. nia. }
  split; [| by apply IH]. intros E. pose proof (digits_go_value B fuel (n / B) HB Hlt) as Hv. rewrite E in Hv.
  cbn in Hv. pose proof (N.div_mod n B ltac:(lia)). lia.
Qed.

Lemma undigits_snoc_zeros B l k : undigits B (l ++ replicate k 0%N) = undigits B l.
Proof.
  unfold undigits. rewrite foldr_app. replace (foldr _ 0%N (replicate k 0%N)) with 0%N; [done |].
  induction k as [| k IH]; [done |]. cbn. rewrite <- IH. lia.
Qed.

(** ** Texts and digits *)

(** The digits a text stands for, most significant first. *)
Fixpoint text_digits (s : string) : option (list N) :=
  match s with
  | EmptyString => Some []
  | String c s' => i ← IndexByte alphabet c; l ← text_digits s'; Some (N.of_nat i :: l)
  end.

Lemma alphabet_index i : i < 58 → IndexByte alphabet (str_nth alphabet i) = Some i.
Proof.
  intros Hi. assert (forallb (λ i, bool_decide (IndexByte alphabet (str_nth alphabet i) = Some i)) (seq 0 58) = true) as H
    by (vm_compute; reflexivity).
  rewrite forallb_forall in H. apply (bool_decide_eq_true_1 _). apply (H i), in_seq. lia.
Qed.

Lemma str_nth_app t c u : str_nth (t +:+ String c u) (str_len t) = c.
Proof. induction t; [done |]. cbn. done. Qed.

Lemma index_alphabet c i : IndexByte alphabet c = Some i → str_nth alphabet i = c ∧ i < 58.
Proof.
  intros H. apply IndexByte_Some in H as (t & u & E & <- & _). split; [by rewrite E, str_nth_app |].
  assert (str_len (t +:+ String c u) = 58) as Hl by (by rewrite <- E). rewrite str_len_app in Hl. cbn in Hl. lia.
Qed.

Lemma text_digits_text l : Forall (λ d, d < 58)%N l → text_digits (digits_text l) = Some l.
Proof.
  induction 1 as [| d l Hd _ IH]; [done |]. cbn [digits_text text_digits]. rewrite alphabet_index by lia.
  cbn [mbind option_bind]. rewrite IH. cbn [mbind option_bind]. by rewrite N2Nat.id.
Qed.

Lemma text_digits_Some s l : text_digits s = Some l → digits_text l = s ∧ Forall (λ d, d < 58)%N l.
Proof.
  revert l. induction s as [| c s IH]; intros l; cbn [text_digits]; [by intros [= <-] |].
  destruct (IndexByte alphabet c) as [i |] eqn:Hi; [| done]. cbn [mbind option_bind].
  destruct (text_digits s) as [l' |]; [| done]. cbn [mbind option_bind].
  intros [= <-]. destruct (IH l' eq_refl) as [E Hl]. apply index_alphabet in Hi as [Hc Hi]. cbn [digits_text].
  rewrite Nat2N.id, Hc, E. split; [done |]. constructor; [lia | done].
Qed.

(** The loop computes the number of the digits. *)
Lemma b58_loop_app s c answer j :
  b58_loop (s +:+ str_single c) answer j
  = match b58_loop s answer j, IndexByte alphabet c with
    | Some a, Some i => Some (a + N.of_nat i * (j * 58 ^ N.of_nat (str_len s)))%N
    | _, _ => None
    end.
Proof.
  revert answer j. induction s as [| x s IH]; intros answer j; cbn [String.append b58_loop str_len str_single].
  - destruct (IndexByte alphabet c); [| done]. change (58 ^ N.of_nat 0)%N with 1%N. f_equal. lia.
  - destruct (IndexByte alphabet x); [| done]. rewrite IH. destruct (b58_loop s _ _); [| done].
    destruct (IndexByte alphabet c); [| done]. rewrite Nat2N.inj_succ, N.pow_succ_r'. f_equal. lia.
Qed.

Lemma undigits_app B l l' : undigits B (l ++ l') = (undigits B l + B ^ N.of_nat (length l) * undigits B l')%N.
Proof.
  induction l as [| d l IH]; [cbn [app length]; change (B ^ N.of_nat 0)%N with 1%N; cbn [undigits foldr]; lia |].
  cbn [app undigits foldr length]. fold (undigits B (l ++ l')) (undigits B l).
  rewrite IH, Nat2N.inj_succ, N.pow_succ_r'. lia.
Qed.

Lemma text_digits_length s l : text_digits s = Some l → length l = str_len s.
Proof.
  revert l. induction s as [| c s IH]; intros l; cbn [text_digits]; [by intros [= <-] |].
  destruct (IndexByte alphabet c); [| done]. cbn [mbind option_bind]. destruct (text_digits s) as [l' |]; [| done].
  intros [= <-]. cbn. by rewrite (IH l').
Qed.

Lemma b58_loop_value s :
  b58_loop (str_rev s) 0 1 = (λ l, undigits 58 (reverse l)) <$> text_digits s.
Proof.
  induction s as [| c s IH]; [done |]. cbn [str_rev text_digits]. rewrite b58_loop_app, IH.
  destruct (text_digits s) as [l |] eqn:E; [| by destruct (IndexByte alphabet c)].
  destruct (IndexByte alphabet c) as [i |]; [| done]. cbn [mbind option_bind fmap option_fmap option_map]. f_equal.
  rewrite reverse_cons, undigits_app, length_reverse, str_len_rev, (text_digits_length s l E). cbn [undigits foldr]. lia.
Qed.

(** ** Leading zeros *)

Lemma split_zeros l : ∃ m, l = replicate (leading_zeros l) 0%N ++ m ∧ head m ≠ Some 0%N.
Proof.
  induction l as [| [| p] l (m & E & Hm)]; cbn [leading_zeros]; [by exists [] | | by exists (N.pos p :: l)].
  exists m. cbn. by rewrite <- E.
Qed.

Lemma leading_zeros_app k m : head m ≠ Some 0%N → leading_zeros (replicate k 0%N ++ m) = k.
Proof. intros Hm. induction k as [| k IH]; cbn; [by destruct m as [| [| p] m] | by rewrite IH]. Qed.

Lemma leading_ones_text l : Forall (λ d, d < 58)%N l → leading_ones (digits_text l) = leading_zeros l.
Proof.
  induction 1 as [| d l Hd _ IH]; [done |]. destruct d as [| p]; cbn [digits_text].
  { change (str_nth alphabet (N.to_nat 0)) with "1"%char. cbn [leading_ones leading_zeros]. by rewrite IH. }
  cbn [leading_zeros]. assert (str_nth alphabet (N.to_nat (N.pos p)) ≠ "1"%char) as Hne.
  { intros E. pose proof (alphabet_index (N.to_nat (N.pos p)) ltac:(lia)) as H. rewrite E in H.
    assert (IndexByte alphabet "1" = Some 0) as H1 by reflexivity. rewrite H1 in H. injection H. lia. }
  cbn [leading_ones]. repeat match goal with |- context [match ?b with _ => _ end] => destruct b end; done.
Qed.

Lemma normal_reverse m : normal (reverse m) ↔ head m ≠ Some 0%N.
Proof. unfold normal. by rewrite last_reverse. Qed.

Lemma head_reverse_digits B n : (2 ≤ B)%N → head (reverse (digits B n)) ≠ Some 0%N.
Proof. intros HB. rewrite <- last_reverse, reverse_involutive. by apply digits_normal. Qed.

(** Both directions are one change of base. *)
Lemma rebase B C l k m :
  (2 ≤ B)%N → (2 ≤ C)%N → Forall (λ d, d < B)%N l → l = replicate k 0%N ++ m → head m ≠ Some 0%N →
  let l' := replicate k 0%N ++ reverse (digits C (undigits B (reverse l))) in
  leading_zeros l' = k ∧ Forall (λ d, d < C)%N l' ∧
  replicate k 0%N ++ reverse (digits B (undigits C (reverse l'))) = l.
Proof.
  intros HB HC Hl -> Hm l'. pose proof (head_reverse_digits C (undigits B (reverse (replicate k 0%N ++ m))) HC) as Hh.
  split; [by apply leading_zeros_app |]. split.
  - apply Forall_app_2; [by apply Forall_replicate; lia |]. apply Forall_reverse. by apply digits_go_lt.
  - unfold l'. rewrite !reverse_app, reverse_involutive, !reverse_replicate, !undigits_snoc_zeros.
    rewrite undigits_digits by done. rewrite digits_undigits; [by rewrite reverse_involutive | done | |].
    + apply Forall_reverse. by apply Forall_app in Hl as [_ ?].
    + by apply normal_reverse.
Qed.

(** Decoding and encoding are inverse to each other: every sequence of
    bytes is decoded from its Base58 text, leading zero bytes included, and a
    text that is accepted is the Base58 text of the bytes it is decoded to, so
    two different addresses never name the same public key.  A text is refused
    exactly when it holds a character outside the alphabet. *)
Theorem Base58_roundtrip :
  (∀ l, Forall (λ b, b < 256)%N l → Base58Decode (Base58Encode l) = Some l) ∧
  (∀ s l, Base58Decode s = Some l → Base58Encode l = s ∧ Forall (λ b, b < 256)%N l) ∧
  (∀ s, Base58Decode s = None ↔ text_digits s = None).
Proof.
  split; [| split].
  - intros l Hl. destruct (split_zeros l) as (m & E & Hm).
    destruct (rebase 256 58 l _ m ltac:(lia) ltac:(lia) Hl E Hm) as (Hz & Hd & Hback).
    unfold Base58Decode, Base58Encode. rewrite b58_loop_value, text_digits_text by done. cbn [fmap option_fmap option_map mbind option_bind].
    rewrite leading_ones_text, Hz by done. unfold big_bytes. by rewrite Hback.
  - intros s l. unfold Base58Decode. rewrite b58_loop_value. destruct (text_digits s) as [ds |] eqn:E; [| done].
    cbn [fmap option_fmap option_map mbind option_bind]. intros [= <-]. apply text_digits_Some in E as [<- Hds].
    rewrite leading_ones_text by done. destruct (split_zeros ds) as (m & E & Hm).
    destruct (rebase 58 256 ds _ m ltac:(lia) ltac:(lia) Hds E Hm) as (Hz & Hd & Hback).
    split; [| done]. unfold Base58Encode, big_bytes. by rewrite Hz, Hback.
  - intros s. unfold Base58Decode. rewrite b58_loop_value. by destruct (text_digits s).
Qed.
