(* ===== verification/AuthHandlers.v ===== *)
(** * The authentication endpoints
      ([core/pkg/gateway/handlers/auth], [core/pkg/gateway/auth/service.go])

    Wallet signatures, nonces, and the handlers that turn a signed request, an
    API key or a refresh token into credentials, as programs over the tables
    of [AuthDb].  Cryptography is a parameter.  A request body is [None] when it
    is not JSON; the cluster provisioner is the interface the handlers call. *)

From Stdlib Require Import ZArith NArith Lia Ascii String.
From stdpp Require Import base tactics numbers pretty list gmap strings sets.
From S2P Require Import Prelude GoStrings Scopes Jwt AuthPipeline DbProg AuthDb Sessions ApiKeys Base58.

Local Open Scope go_scope.

(** ** Wallet signatures *)

(** The Ethereum and Ed25519 libraries and base64: the address recovered from
    a hash and a signature, in hexadecimal. *)
Class WalletCrypto := {
  Keccak256 : string → string;
  SigToAddress : string → string → option string;
  ed25519_Verify : list N → string → string → bool;
  b64_std_decode : string → option string
}.

Definition hex_value (a : ascii) : option N :=
  let n := N_of_ascii a in
  if ((48 <=? n) && (n <=? 57))%N then Some (n - 48)%N
  else if ((97 <=? n) && (n <=? 102))%N then Some (n - 87)%N
  else if ((65 <=? n) && (n <=? 70))%N then Some (n - 55)%N
  else None.

(** [hex.DecodeString]. *)
Fixpoint hex_decode (s : string) : option string :=
  match s with
  | EmptyString => Some EmptyString
  | String _ EmptyString => None
  | String a (String b s') =>
      x ← hex_value a; y ← hex_value b; rest ← hex_decode s';
      Some (String (ascii_of_N (x * 16 + y)) rest)
  end.

(** [if sig[64] >= 27 { sig[64] -= 27 }] for a signature of 65 bytes. *)
Definition normalize_recovery (sig : string) : string :=
  let v := N_of_ascii (str_nth sig 64) in
  if (27 <=? v)%N then str_take 64 sig +:+ str_single (ascii_of_N (v - 27)) else sig.

Definition TrimPrefix (s p : string) : string := if HasPrefix s p then str_drop (str_len p) s else s.

Section Handlers.
Context {unicode : UnicodeCase} {claims_codec : ClaimsCodec} {tok_codec : TokenCodec} {sigs : Signatures}
  {ses_codec : SessionCodec} {crypto : WalletCrypto}.

Inductive signature_error :=
| ErrUnsupportedChain (chain : string)
| ErrSignatureFormat
| ErrRecovery
| ErrBase64
| ErrSignatureLength
| ErrWalletAddress
| ErrPublicKeyLength.

Definition bare_address (w : string) : string := ToLower (TrimPrefix (TrimPrefix w "0x") "0X").

Definition verifyEthSignature (wallet nonce signature : string) : result signature_error bool :=
  let prefix := String "025" "Ethereum Signed Message:" +:+ String "010" (pretty (N.of_nat (str_len nonce))) in
  let hash := Keccak256 (prefix +:+ nonce) in
  let sigHex := TrimSpace signature in
  let sigHex := if HasPrefix sigHex "0x" || HasPrefix sigHex "0X" then str_drop 2 sigHex else sigHex in
  match hex_decode sigHex with
  | None => Err ErrSignatureFormat
  | Some sig =>
      if negb (str_len sig =? 65) then Err ErrSignatureFormat
      else match SigToAddress hash (normalize_recovery sig) with
           | None => Err ErrRecovery
           | Some addr => Ok (String.eqb (bare_address addr) (bare_address wallet))
           end
  end.

Definition verifySolSignature (wallet nonce signature : string) : result signature_error bool :=
  match b64_std_decode signature with
  | None => Err ErrBase64
  | Some sig =>
      if negb (str_len sig =? 64) then Err ErrSignatureLength
      else match Base58Decode wallet with
           | None => Err ErrWalletAddress
           | Some pub =>
               if negb (length pub =? 32) then Err ErrPublicKeyLength
               else Ok (ed25519_Verify pub nonce sig)
           end
  end.

Definition VerifySignature (wallet nonce signature chainType : string) : result signature_error bool :=
  let chainType := ToUpper (TrimSpace chainType) in
  let chainType := if String.eqb chainType EmptyString then "ETH"%string else chainType in
  if String.eqb chainType "ETH" then verifyEthSignature wallet nonce signature
  else if String.eqb chainType "SOL" then verifySolSignature wallet nonce signature
  else Err (ErrUnsupportedChain chainType).

(** ** Nonces *)

Definition nonceTTL : Z := 300.

Definition store_nonce (nsID : Z) (wallet nonce purpose : string) (d : auth_db) : result string auth_db :=
  if decide ((nsID, wallet, nonce) ∈ (λ n, (n_namespace n, n_wallet n, n_nonce n)) <$> nonces d)
  then Err "UNIQUE constraint failed: nonces"
  else Ok (set_nonces (nonces d ++ [mkNonce nsID wallet nonce purpose (clock d + nonceTTL) None]) d).

Definition CreateNonce (s : AuthService) (rnd : option string) (wallet purpose ns : string)
    : prog auth_db (result key_error string) :=
  match rnd with
  | None => Ret (Err ErrKeyRandom)
  | Some nonce =>
      let ns := if String.eqb ns EmptyString then
                  if String.eqb (defaultNS s) EmptyString then "default"%string else defaultNS s
                else ns in
      write (AuthDb.ensure_namespace ns) (λ r,
      match r with
      | Err e => Ret (Err (ErrKeyNamespace e))
      | Ok _ =>
          do! r := ResolveNamespaceID ns in
          match r with
          | Err e => Ret (Err (ErrKeyNamespace e))
          | Ok nsID =>
              Exec (store_nonce nsID (ToLower (TrimSpace wallet)) nonce purpose) (λ r,
              Ret (match r with Err e => Err (ErrKeyStore e) | Ok _ => Ok nonce end))
          end
      end)
  end.

(** [UPDATE nonces SET used_at]; a namespace that was not resolved is NULL and
    matches no row. *)
Definition mark_used (nsID : option Z) (wallet nonce : string) (d : auth_db) : auth_db :=
  set_nonces ((λ n, if decide (Some (n_namespace n) = nsID ∧ n_wallet n = wallet ∧ n_nonce n = nonce)
                    then mkNonce (n_namespace n) (n_wallet n) (n_nonce n) (n_purpose n) (n_expires n) (Some (clock d))
                    else n) <$> nonces d) d.

Definition markNonceUsed {A} (nsID : option Z) (wallet nonce : string) (k : prog auth_db A) : prog auth_db A :=
  attempt (mark_used nsID wallet nonce) k.

Definition RegisterApp (rnd : option string) (wallet ns name publicKey : string)
    : prog auth_db (result key_error string) :=
  do! r := ResolveNamespaceID ns in
  match r with
  | Err e => Ret (Err (ErrKeyNamespace e))
  | Ok nsID =>
      match rnd with
      | None => Ret (Err ErrKeyRandom)
      | Some b =>
          let appID := "app_" +:+ b in
          Exec (λ d, if decide ((nsID, appID) ∈ (λ a, (app_namespace a, app_id a)) <$> apps d)
                     then Err "UNIQUE constraint failed: apps"%string
                     else Ok (set_apps (apps d ++ [mkApp nsID appID name publicKey]) d)) (λ r,
          match r with
          | Err e => Ret (Err (ErrKeyStore e))
          | Ok _ => attempt (add_owner nsID "wallet" wallet) (Ret (Ok appID))
          end)
      end
  end.
(** ** Requests and answers *)

Record VerifyRequest := mkVerify {
  v_wallet : string; v_nonce : string; v_signature : string; v_ns : string; v_chain : string
}.
Record RegisterRequest := mkRegister { rg_signed : VerifyRequest; rg_name : string }.
Record SimpleAPIKeyRequest := mkSimple { sk_wallet : string; sk_ns : string }.
Record ChallengeRequest := mkChallenge { c_wallet : string; c_purpose : string; c_ns : string }.
Record RefreshRequest := mkRefresh { rf_token : string; rf_ns : string }.
Record LogoutRequest := mkLogout { lo_token : string; lo_ns : string; lo_all : bool }.

(** The text of an error answer: a constant, or that of an error value. *)
Inductive failure := Msg (m : string) | OfSession (e : session_error) | OfKey (e : key_error).
Record http_error := mkHttp { code : Z; message : failure }.

Definition refuse {A D} (c : Z) (m : string) : prog D (result http_error A) := Ret (Err (mkHttp c (Msg m))).

(** The guards of every handler: the method and the body. *)
Definition posted {B A} (m : string) (body : option B) (k : B → prog auth_db (result http_error A))
    : prog auth_db (result http_error A) :=
  if negb (String.eqb m "POST") then refuse 405 "method not allowed"
  else match body with
       | None => refuse 400 "invalid json body"
       | Some req => k req
       end.

(** What the handlers for signed requests do first: the required fields, the
    signature, and the mark on the nonce. *)
Definition signed {A} (req : VerifyRequest) (k : option Z → prog auth_db (result http_error A))
    : prog auth_db (result http_error A) :=
  if String.eqb (TrimSpace (v_wallet req)) EmptyString || String.eqb (TrimSpace (v_nonce req)) EmptyString
     || String.eqb (TrimSpace (v_signature req)) EmptyString
  then refuse 400 "wallet, nonce and signature are required"
  else match VerifySignature (v_wallet req) (v_nonce req) (v_signature req) (v_chain req) with
       | Ok true =>
           do! r := ResolveNamespaceID (v_ns req) in
           let nsID := match r with Ok id => Some id | Err _ => None end in
           markNonceUsed nsID (ToLower (v_wallet req)) (v_nonce req) (k nsID)
       | _ => refuse 401 "signature verification failed"
       end.

(** [ClusterProvisioner]: the id, the status and whether a cluster must be
    created; the id and the URL to poll of a cluster that was started. *)
Record ClusterProvisioner := mkProvisioner {
  CheckNamespaceCluster : string → result string (string * string * bool);
  ProvisionNamespaceCluster : Z → string → string → result string (string * string)
}.

(** What the provisioner says of a namespace other than the default one. *)
Definition cluster_status (cp : option ClusterProvisioner) (ns : string) : option (string * string * bool) :=
  match cp with
  | Some cp =>
      if negb (String.eqb (resolved_name ns) "default") then
        match CheckNamespaceCluster cp (resolved_name ns) with Ok x => Some x | Err _ => None end
      else None
  | None => None
  end.

Definition start_cluster (cp : option ClusterProvisioner) (nsID : option Z) (ns wallet : string)
    : result string (string * string) :=
  match cp with
  | Some cp => ProvisionNamespaceCluster cp (default 0%Z nsID) (resolved_name ns) wallet
  | None => Err EmptyString
  end.

Definition status_url (clusterID : string) : string := "/v1/namespace/status?id=" +:+ clusterID.

(** ** Challenge and login *)

Definition ChallengeHandler (s : AuthService) (rnd : option string) (m : string) (body : option ChallengeRequest)
    : prog auth_db (result http_error string) :=
  posted m body (λ req,
  if String.eqb (TrimSpace (c_wallet req)) EmptyString then refuse 400 "wallet is required"
  else
    do! r := CreateNonce s rnd (c_wallet req) (c_purpose req) (c_ns req) in
    Ret (match r with Err e => Err (mkHttp 500 (OfKey e)) | Ok nonce => Ok nonce end)).

Record credentials := mkCredentials { access_token : string; refresh_token : string; exp : Z; api_key : string }.

Inductive login_reply :=
| LoginOK (c : credentials)
| LoginProvisioning (clusterID pollURL : string) (c : credentials).

Definition issue_credentials (s : AuthService) (now : time) (rndR rndK : option string) (wallet ns : string)
    : prog auth_db (result http_error credentials) :=
  do! t := IssueTokens s now rndR wallet ns in
  match t with
  | Err e => Ret (Err (mkHttp 500 (OfSession e)))
  | Ok (token, refresh, expUnix) =>
      do! k := GetOrCreateAPIKey s rndK wallet ns in
      Ret (match k with
           | Err e => Err (mkHttp 500 (OfKey e))
           | Ok apiKey => Ok (mkCredentials token refresh expUnix apiKey)
           end)
  end.

Definition VerifyHandler (s : AuthService) (cp : option ClusterProvisioner) (now : time) (rndR rndK : option string)
    (m : string) (body : option VerifyRequest) : prog auth_db (result http_error login_reply) :=
  posted m body (λ req, signed req (λ nsID,
  do! c := issue_credentials s now rndR rndK (v_wallet req) (v_ns req) in
  Ret (match c with
       | Err e => Err e
       | Ok c =>
           match cluster_status cp (v_ns req) with
           | Some (clusterID, status, needs) =>
               if needs then
                 match start_cluster cp nsID (v_ns req) (v_wallet req) with
                 | Err _ => Err (mkHttp 500 (Msg "failed to start cluster provisioning"))
                 | Ok (newID, pollURL) => Ok (LoginProvisioning newID pollURL c)
                 end
               else if String.eqb status "provisioning"
               then Ok (LoginProvisioning clusterID (status_url clusterID) c)
               else Ok (LoginOK c)
           | None => Ok (LoginOK c)
           end
       end))).

(** ** Keys *)

Inductive key_answer :=
| KeyOK (apiKey : string)
| KeyProvisioning (clusterID pollURL : string).

(** The end of both handlers that return a key alone. *)
Definition key_or_cluster (s : AuthService) (cp : option ClusterProvisioner) (rnd : option string)
    (nsID : prog auth_db (option Z)) (wallet ns : string) : prog auth_db (result http_error key_answer) :=
  let issue :=
    do! k := GetOrCreateAPIKey s rnd wallet ns in
    Ret (match k with Err e => Err (mkHttp 500 (OfKey e)) | Ok apiKey => Ok (KeyOK apiKey) end) in
  match cluster_status cp ns with
  | Some (clusterID, status, needs) =>
      if needs then
        do! id := nsID in
        Ret (match start_cluster cp id ns wallet with
             | Err _ => Err (mkHttp 500 (Msg "failed to start cluster provisioning"))
             | Ok (newID, pollURL) => Ok (KeyProvisioning newID pollURL)
             end)
      else if String.eqb status "provisioning" then Ret (Ok (KeyProvisioning clusterID (status_url clusterID)))
      else issue
  | None => issue
  end.

Definition IssueAPIKeyHandler (s : AuthService) (cp : option ClusterProvisioner) (rnd : option string)
    (m : string) (body : option VerifyRequest) : prog auth_db (result http_error key_answer) :=
  posted m body (λ req, signed req (λ nsID, key_or_cluster s cp rnd (Ret nsID) (v_wallet req) (v_ns req))).

Definition SimpleAPIKeyHandler (s : AuthService) (cp : option ClusterProvisioner) (rnd : option string)
    (m : string) (c : context) (body : option SimpleAPIKeyRequest) : prog auth_db (result http_error key_answer) :=
  if negb (String.eqb m "POST") then refuse 405 "method not allowed"
  else if String.eqb (default EmptyString (ctxAPIKey c)) EmptyString
  then refuse 401 "simple auth requires an existing API key"
  else posted m body (λ req,
  if String.eqb (TrimSpace (sk_wallet req)) EmptyString then refuse 400 "wallet is required"
  else key_or_cluster s cp rnd
         (do! r := ResolveNamespaceID (resolved_name (sk_ns req)) in Ret (match r with Ok id => Some id | Err _ => None end))
         (sk_wallet req) (sk_ns req)).

Definition RegisterHandler (rnd : option string) (m : string) (body : option RegisterRequest)
    : prog auth_db (result http_error string) :=
  posted m body (λ req, signed (rg_signed req) (λ _,
  do! r := RegisterApp rnd (v_wallet (rg_signed req)) (v_ns (rg_signed req)) (rg_name req) "recovered-pk" in
  Ret (match r with Err e => Err (mkHttp 500 (OfKey e)) | Ok appID => Ok appID end))).

(** ** Refresh, logout and the exchange of a key *)

Definition RefreshHandler (s : AuthService) (now : time) (rnd : option string) (m : string)
    (body : option RefreshRequest) : prog auth_db (result http_error refreshed) :=
  posted m body (λ req,
  if String.eqb (TrimSpace (rf_token req)) EmptyString then refuse 400 "refresh_token is required"
  else
    do! r := RefreshToken s now rnd (rf_token req) (rf_ns req) in
    Ret (match r with
         | Ok res => Ok res
         | Err ErrRefreshTransient | Err ErrRotationNotConfigured =>
             Err (mkHttp 503 (Msg "refresh temporarily unavailable, retry"))
         | Err _ => Err (mkHttp 401 (Msg "invalid or expired refresh token"))
         end)).

Definition LogoutHandler (m : string) (c : context) (body : option LogoutRequest)
    : prog auth_db (result http_error unit) :=
  posted m body (λ req,
  let subject := if lo_all req then match ctxJWT c with Some claims => TrimSpace (Sub claims) | None => EmptyString end
                 else EmptyString in
  if lo_all req && String.eqb subject EmptyString then refuse 401 "jwt required for all=true"
  else
    do! r := RevokeToken (lo_ns req) (lo_token req) (lo_all req) subject in
    Ret (match r with Err e => Err (mkHttp 500 (OfSession e)) | Ok _ => Ok tt end)).

Definition apiKeyLookupCandidates (rawKey hashedKey : string) : list string :=
  if String.eqb hashedKey rawKey then [rawKey] else [hashedKey; rawKey].

(** The first candidate with a live row. *)
Fixpoint find_candidate (candidates : list string) : prog auth_db (option (string * string)) :=
  match candidates with
  | [] => Ret None
  | c :: rest =>
      Query (live_key c) (λ r,
      match r with
      | Ok (Some (ns, sc)) => if String.eqb ns EmptyString then find_candidate rest else Ret (Some (ns, sc))
      | _ => find_candidate rest
      end)
  end.

(** [key] is the result of [extractAPIKey] on the request. *)
Definition APIKeyToJWTHandler (s : AuthService) (now : time) (m key : string)
    : prog auth_db (result http_error (string * Z * string)) :=
  if negb (String.eqb m "POST") then refuse 405 "method not allowed"
  else if String.eqb (TrimSpace key) EmptyString then refuse 401 "missing API key"
  else
    do! found := find_candidate (apiKeyLookupCandidates key (HashAPIKey s key)) in
    match found with
    | None => refuse 401 "invalid API key"
    | Some (ns, rawScopes) =>
        let custom := {[ "scopes"%string := Canonical (ScopesFromStored rawScopes) ]} in
        Ret (match GenerateJWT (jwt s) now ns key accessTTL custom with
             | Err e => Err (mkHttp 500 (OfSession (ErrGenerateJWT e)))
             | Ok (token, expUnix) => Ok (token, expUnix, ns)
             end)
    end.
(** ** Nonces are never checked *)

(** Databases that differ in the nonces only. *)
Definition same_but_nonces (d d' : auth_db) : Prop := ∃ n, d' = set_nonces n d.

Abbreviation blind := (ignores same_but_nonces) (only parsing).

Lemma blind_write {A} w (k : result string unit → prog auth_db A) :
  (∀ n d, ∃ n', w (set_nonces n d) = set_nonces n' (w d)) → (∀ r, blind (k r)) → blind (write w k).
Proof. intros Hw Hk. split; [| done]. intros d d' [n ->]. apply Hw. Qed.

Lemma ensure_nonces ns n d : AuthDb.ensure_namespace ns (set_nonces n d) = set_nonces n (AuthDb.ensure_namespace ns d).
Proof. unfold AuthDb.ensure_namespace. cbn. by case_decide. Qed.

Lemma owner_nonces nsID ot oid n d : add_owner nsID ot oid (set_nonces n d) = set_nonces n (add_owner nsID ot oid d).
Proof. unfold add_owner. cbn. by case_decide. Qed.

Lemma link_nonces nsID w id n d : link_wallet nsID w id (set_nonces n d) = set_nonces n (link_wallet nsID w id d).
Proof. unfold link_wallet. cbn. by case_decide. Qed.

Lemma blind_resolve ns : blind (ResolveNamespaceID ns).
Proof.
  apply blind_write; [intros n d; eexists; apply ensure_nonces |]. intros [? | e]; [| done].
  split; [| done]. by intros d d' [n ->].
Qed.

Lemma blind_issue s now rnd wallet ns : blind (IssueTokens s now rnd wallet ns).
Proof.
  unfold IssueTokens. destruct (signingKey (jwt s)); [| done]. destruct (GenerateJWT _ _ _ _ _ _) as [[token e] |]; [| done].
  destruct rnd as [refresh |]; [| done]. apply ignores_bind; [apply blind_resolve |]. intros [nsID | err]; [| done].
  split; [| done]. intros d d' [n ->]. unfold store_token, insert_token. cbn. case_decide; [done |]. by exists n.
Qed.

Lemma blind_key s rnd wallet ns : blind (GetOrCreateAPIKey s rnd wallet ns).
Proof.
  assert (∀ nsID apiKey hash, blind (record_owners nsID wallet apiKey hash)) as Hrec.
  { intros nsID apiKey hash. repeat (apply blind_write; [intros n d; eexists; apply owner_nonces | intros _]). done. }
  apply ignores_bind; [apply blind_resolve |]. intros [nsID | e]; [| done].
  assert (blind (create_wallet_key s rnd nsID wallet ns)) as Hcreate.
  { unfold create_wallet_key. destruct rnd as [b |]; [| done]. split.
    - intros d d' [n ->]. unfold insert_key. cbn. case_decide; [done |]. by exists n.
    - intros [? | e]; [| done]. split; [by intros d d' [n ->] |]. intros [[id |] | e]; [| apply Hrec..].
      apply blind_write; [intros n d; eexists; apply link_nonces | intros _; apply Hrec]. }
  split; [by intros d d' [n ->] |]. intros r. cbn beta zeta. destruct (negb _); [done | exact Hcreate].
Qed.

Lemma blind_register rnd wallet ns name pk : blind (RegisterApp rnd wallet ns name pk).
Proof.
  apply ignores_bind; [apply blind_resolve |]. intros [nsID | e]; [| done]. destruct rnd as [b |]; [| done].
  split; [| intros [? | e]; [| done]].
  - intros d d' [n ->]. cbn. case_decide; [done |]. by exists n.
  - apply blind_write; [intros n d; eexists; apply owner_nonces | done].
Qed.

Lemma blind_posted {B A} m (body : option B) (k : B → prog auth_db (result http_error A)) :
  (∀ req, blind (k req)) → blind (posted m body k).
Proof. intros Hk. unfold posted. destruct (negb _); [done |]. destruct body; [apply Hk | done]. Qed.

Lemma blind_signed {A} req (k : option Z → prog auth_db (result http_error A)) :
  (∀ nsID, blind (k nsID)) → blind (signed req k).
Proof.
  intros Hk. unfold signed. destruct (_ || _); [done |]. destruct (VerifySignature _ _ _ _) as [[] | e]; [| done..].
  apply ignores_bind; [apply blind_resolve |]. intros r. apply blind_write; [| intros _; apply Hk].
  intros n d. by eexists.
Qed.

Lemma blind_credentials s now rndR rndK wallet ns : blind (issue_credentials s now rndR rndK wallet ns).
Proof.
  apply ignores_bind; [apply blind_issue |]. intros [[[token refresh] e] | e]; [| done].
  by apply ignores_bind; [apply blind_key |].
Qed.

Lemma blind_key_or_cluster s cp rnd nsID wallet ns : blind nsID → blind (key_or_cluster s cp rnd nsID wallet ns).
Proof.
  intros Hid. unfold key_or_cluster.
  destruct (cluster_status cp ns) as [[[clusterID status] []] |]; [by apply ignores_bind | |].
  - destruct (String.eqb status "provisioning"); [done |]. by apply ignores_bind; [apply blind_key |].
  - by apply ignores_bind; [apply blind_key |].
Qed.

(** No login checks its nonce.  Whatever the table of nonces holds (no
    nonce at all, one that expired, was used, or belongs to another wallet),
    the endpoints for signed requests give the same answer: the answer to a
    login, to a request for a key and to the registration of an application
    depends on the signature only, and a signature that was accepted once is
    accepted for ever. *)
Theorem nonce_never_checked s cp now rndR rndK m d n :
  (∀ body, (run (VerifyHandler s cp now rndR rndK m body) (set_nonces n d)).1
           = (run (VerifyHandler s cp now rndR rndK m body) d).1) ∧
  (∀ body, (run (IssueAPIKeyHandler s cp rndK m body) (set_nonces n d)).1
           = (run (IssueAPIKeyHandler s cp rndK m body) d).1) ∧
  (∀ body, (run (RegisterHandler rndK m body) (set_nonces n d)).1 = (run (RegisterHandler rndK m body) d).1).
Proof.
  assert (same_but_nonces d (set_nonces n d)) as HR by (by exists n).
  split; [| split]; intros body; symmetry; apply (ignores_run same_but_nonces); try done;
    apply blind_posted; intros req; apply blind_signed; intros nsID.
  - apply ignores_bind; [apply blind_credentials | done].
  - by apply blind_key_or_cluster.
  - apply ignores_bind; [apply blind_register | done].
Qed.
(** ** Keys for any namespace *)

Section Keys.
Context {key_laws : KeyHashLaws}.

(** What a key that was handed out for a namespace lets its holder do. *)
Definition administers (s : AuthService) (key ns : string) (d : auth_db) : Prop :=
  ∀ t now clientNS ttl m p, clientNS = EmptyString ∨ clientNS = ns → m ≠ "OPTIONS"%string →
    ∃ r', (pipeline (gateway_of s t clientNS d) now (mkCache ∅ ttl) (key_request m p key)).1 = Pass r' ∧
      ctxNamespace (ctx r') = Some ns ∧ callerScopes r' = {[ScopeAdmin]}.

(** The cluster of the namespace, if it is to have one, is not still to be made. *)
Definition no_provisioning (cp : option ClusterProvisioner) (ns : string) : Prop :=
  match cluster_status cp ns with
  | None => True
  | Some (_, status, needs) => needs = false ∧ status ≠ "provisioning"%string
  end.

Lemma issue_administers s cp rnd nsID wallet ns b d :
  no_provisioning cp ns → rnd = Some b →
  key_inv s d → is_ascii wallet = true → unlinked wallet d →
  HashAPIKey s (raw_key b ns) ∉ k_key <$> api_keys d → plain_text b = true → plain_text ns = true →
  ∃ d', run (key_or_cluster s cp rnd nsID wallet ns) d = (Ok (KeyOK (raw_key b ns)), d') ∧
    administers s (raw_key b ns) (resolved_name ns) d'.
Proof.
  intros Hcp -> Hd Ha Hu Hnew Hb Hns. unfold key_or_cluster.
  replace (match cluster_status cp ns with Some _ => _ | None => _ end) with
    (do! k := GetOrCreateAPIKey s (Some b) wallet ns in
     Ret (match k with Err e => Err (mkHttp 500 (OfKey e)) | Ok apiKey => Ok (KeyOK apiKey) end)).
  2: { unfold no_provisioning in Hcp. destruct (cluster_status cp ns) as [[[cid status] needs] |]; [| done].
       destruct Hcp as [-> Hst%String.eqb_neq]. by rewrite Hst. }
  rewrite run_bind.
  destruct (login_makes_admin s 0 0 EmptyString 0 b wallet ns d Hd Ha Hu Hnew Hb Hns (or_introl eq_refl))
    as (id & d' & Hrun & _).
  rewrite Hrun. cbn. exists d'. split; [done |]. intros t now clientNS ttl m p Hcl Hm.
  destruct (login_makes_admin s t now clientNS ttl b wallet ns d Hd Ha Hu Hnew Hb Hns Hcl)
    as (id2 & d2 & Hrun2 & _ & _ & Hpass).
  rewrite Hrun in Hrun2. injection Hrun2 as <-. by apply Hpass.
Qed.

(** The endpoint without a signature is behind no check of scope or owner. *)
Lemma simple_key_open g c key :
  gatewayNamespace g = "default"%string →
  let r := set_ctx c (key_request "POST" "/v1/auth/simple-key" key) in
  then_ (authorizationMiddleware g r) scopeMiddleware = Pass r.
Proof.
  intros Hg r. assert (isPublicPath (path r) = false) as Hpub by (vm_compute; reflexivity).
  assert (requiresNamespaceOwnership (path r) = false) as Hown by (vm_compute; reflexivity).
  assert (requiredScope (path r) = EmptyString) as Hsc by (vm_compute; reflexivity).
  assert (vget (headers r) HeaderInternalAuthValidated = EmptyString) as Hv
    by (unfold vget, r; cbn; by rewrite lookup_singleton_ne).
  unfold authorizationMiddleware. rewrite Hpub, Hg, Hv, Hown. cbn [then_ orb andb negb String.eqb Ascii.eqb Bool.eqb].
  change (String.eqb (method r) "OPTIONS") with false. change (String.eqb (path r) "/v1/auth/whoami") with false.
  change (HasPrefix (path r) "/v1/namespace/status") with false. cbn [then_ orb].
  unfold scopeMiddleware. by rewrite Hpub, Hsc.
Qed.

(** Marking a nonce and resolving a namespace leave the keys alone. *)
Lemma marked_keys s ns nsID w n wallet hash d :
  key_inv s d → unlinked wallet d → hash ∉ k_key <$> api_keys d →
  let d' := mark_used nsID w n (AuthDb.ensure_namespace ns d) in
  key_inv s d' ∧ unlinked wallet d' ∧ hash ∉ k_key <$> api_keys d'.
Proof.
  intros Hd Hu Hh. cbn. destruct (ensure_keys s ns d Hd) as [Hd1 _].
  assert (api_keys (AuthDb.ensure_namespace ns d) = api_keys d ∧
          wallet_api_keys (AuthDb.ensure_namespace ns d) = wallet_api_keys d) as [Ek Ew]
    by (unfold AuthDb.ensure_namespace; by case_decide).
  split; [by apply (same_keys s (AuthDb.ensure_namespace ns d)) |]. unfold unlinked. cbn. by rewrite Ek, Ew.
Qed.

End Keys.
(** ** The exchange of a key for a token *)

Lemma run_find_candidate s key d :
  run (find_candidate (apiKeyLookupCandidates key (HashAPIKey s key))) d = (cold_lookup s key d, d).
Proof.
  unfold apiKeyLookupCandidates, cold_lookup, named.
  destruct (String.eqb_spec (HashAPIKey s key) key) as [E | _]; cbn [find_candidate run]; [rewrite E |];
    destruct (live_key _ d) as [[ns sc] |]; try (destruct (String.eqb ns EmptyString)); try done;
    cbn [find_candidate run]; destruct (live_key key d) as [[ns' sc'] |]; try (destruct (String.eqb ns' EmptyString)); done.
Qed.

(** An exchanged token carries the scopes of its key.  The endpoint answers
    exactly for the keys the gateway accepts; the token it mints for a key of
    the usual form verifies until it expires, names the key and its namespace,
    and the scope gate reads from it the scopes of the key, no more and no
    fewer. *)
Theorem exchange_keeps_scopes `{!TokenCodecLaws} `{!SignatureLaws} s now now' key ns sc d :
  TrimSpace key ≠ EmptyString → isAPIKeySubject key = true →
  times_sane now accessTTL → clock_sane (Unix now') →
  (Unix now - skew ≤ Unix now' ≤ Unix (now + accessTTL) + skew)%Z →
  keys_sound (jwt s) → utf8_valid key = true → utf8_valid ns = true → can_sign s now ns →
  ScopesFromStored sc ⊆ list_to_set allGrants → ScopesFromStored sc ≠ ∅ →
  match cold_lookup s key d with
  | None => run (APIKeyToJWTHandler s now "POST" key) d = (Err (mkHttp 401 (Msg "invalid API key")), d)
  | Some e => e = (ns, sc) →
      ∃ token claims, run (APIKeyToJWTHandler s now "POST" key) d = (Ok (token, Unix (now + accessTTL), ns), d) ∧
        Jwt.ParseAndVerifyJWT (jwt s) now' token = Ok claims ∧ Sub claims = key ∧ Namespace claims = ns ∧
        ∀ r, ctxJWT (ctx r) = Some claims → callerScopes r = ScopesFromStored sc
  end.
Proof.
  intros Hk%String.eqb_neq Hak Ht Hc Hw Hks Hku Hnu Hsign Hsub Hne.
  assert (run (APIKeyToJWTHandler s now "POST" key) d
    = match cold_lookup s key d with
      | None => (Err (mkHttp 401 (Msg "invalid API key")), d)
      | Some (ns, raw) =>
          (match GenerateJWT (jwt s) now ns key accessTTL {[ "scopes"%string := Canonical (ScopesFromStored raw) ]} with
           | Err e => Err (mkHttp 500 (OfSession (ErrGenerateJWT e)))
           | Ok (token, expUnix) => Ok (token, expUnix, ns)
           end, d)
      end) as Hrun.
  { unfold APIKeyToJWTHandler. cbn [String.eqb Ascii.eqb Bool.eqb negb]. rewrite Hk, run_bind, run_find_candidate. cbn [fst snd].
    by destruct (cold_lookup s key d) as [[? ?] |]. }
  destruct (cold_lookup s key d) as [e |]; [| done]. intros ->. rewrite Hrun.
  destruct (Hsign key {[ "scopes"%string := Canonical (ScopesFromStored sc) ]}) as (token & expUnix & Hgen).
  pose proof Hgen as Hv. apply (minted_verifies (jwt s) now now') in Hv as [-> Hv]; [| done.. |].
  2: { apply map_Forall_singleton. split; [done |]. by apply Canonical_utf8. }
  rewrite Hgen. exists token. eexists. split; [done |]. split; [exact Hv |]. split; [done |]. split; [done |].
  intros r Hr. unfold callerScopes. rewrite Hr. cbn [Sub payload]. rewrite Hak. cbn [andb].
  destruct (ParseScopes_Canonical _ Hsub Hne) as [Hp Htrim].
  assert (customScopes (payload now accessTTL ns key {[ "scopes"%string := Canonical (ScopesFromStored sc) ]})
    = Canonical (ScopesFromStored sc)) as Hcs.
  { unfold customScopes. cbn [Custom payload]. rewrite lookup_singleton_eq. cbn.
    apply TrimSpace_plain. by apply Canonical_plain. }
  rewrite Hcs. destruct (String.eqb_spec (Canonical (ScopesFromStored sc)) EmptyString) as [E | _]; [| exact Hp].
  rewrite E in Htrim. by vm_compute in Htrim.
Qed.
End Handlers.

(** ** Concrete runs *)

#[local] Existing Instances enum_codec enum_token_codec enum_token_codec_laws toy_signatures toy_signature_laws
  toy_session_codec toy_key_laws.

(** A signature is the address that made it. *)
#[local] Instance toy_crypto : WalletCrypto := {|
  Keccak256 m := m;
  SigToAddress _ sig := Some (str_take 5 sig);
  ed25519_Verify _ _ _ := true;
  b64_std_decode := Some
|}.

(** The bytes of the address [0xEVE] and sixty more, in hexadecimal. *)
Definition eve_signature : string :=
  "0x3078455645000000000000000000000000000000000000000000000000000000000000000000000000000000000000000000000000000000000000000000000000".

Definition eve_request (nonce : string) : VerifyRequest := mkVerify "0xEVE" nonce eve_signature "alice" "eth".

Example eve_signs : VerifySignature "0xEVE" "any nonce" eve_signature "eth" = Ok true.
Proof. vm_compute. reflexivity. Qed.


Lemma exchange_keeps_scopes_witness :
  ∃ token claims, run (APIKeyToJWTHandler demo_keys demo_now "POST" "ak_k1:alice") alice_db
      = (Ok (token, Unix (demo_now + accessTTL), "alice"%string), alice_db) ∧
    Jwt.ParseAndVerifyJWT (jwt demo_keys) (demo_now + Minute) token = Ok claims ∧
    ∀ r, ctxJWT (ctx r) = Some claims → callerScopes r = {[ScopeInvoke]}.
Proof.
  pose proof (exchange_keeps_scopes demo_keys demo_now (demo_now + Minute) "ak_k1:alice" "alice" "invoke" alice_db) as H.
  assert (cold_lookup demo_keys "ak_k1:alice" alice_db = Some ("alice", "invoke")%string) as Hc by (vm_compute; reflexivity).
  assert (ScopesFromStored "invoke" = {[ScopeInvoke]}) as Hsc by (vm_compute; reflexivity).
  rewrite Hc, Hsc in H. destruct H as (token & claims & Hrun & Hv & _ & _ & Hs).
  - discriminate.
  - reflexivity.
  - split; split; vm_compute; congruence.
  - split; vm_compute; congruence.
  - split; vm_compute; congruence.
  - apply (gateway_service_sound "PEM" (Some (tt : @ed_key toy_signatures))). vm_compute. reflexivity.
  - reflexivity.
  - reflexivity.
  - intros subject custom. eexists _, _. reflexivity.
  - apply singleton_subseteq_l, elem_of_list_to_set. apply (bool_decide_unpack _). vm_compute. reflexivity.
  - discriminate.
  - reflexivity.
  - exists token, claims. split; [exact Hrun |]. split; [exact Hv | exact Hs].
Defined.

(** The exchange of a stored hash yields more than its key.  The digest of
    a key is accepted in place of the key; the token it is exchanged for has the
    digest as its subject, which is not of the form of a key, so the scope gate
    ignores the scopes in the token and grants those of a signed-in user: a key
    for [invoke] alone becomes a user with access to storage, push and proxy. *)
Theorem hash_exchange_escalates :
  ∃ token expUnix claims,
    run (APIKeyToJWTHandler demo_keys demo_now "POST" "hmac:pepper:ak_k1:alice") alice_db
      = (Ok (token, expUnix, "alice"%string), alice_db) ∧
    Jwt.ParseAndVerifyJWT (jwt demo_keys) (demo_now + Minute) token = Ok claims ∧
    customScopes claims = "invoke"%string ∧
    ∀ r, ctxJWT (ctx r) = Some claims → ctxOwnerConfirmed (ctx r) = false →
      callerScopes r = DataPlaneScopes ∧ hasWalletJWT r = true.
Proof.
  set (custom := {[ "scopes"%string := Canonical (ScopesFromStored "invoke") ]} : gmap string string).
  set (claims := payload demo_now accessTTL "alice" "hmac:pepper:ak_k1:alice" custom).
  destruct (demo_can_sign demo_now "alice" "hmac:pepper:ak_k1:alice" custom) as (token & expUnix & Hgen).
  exists token, expUnix, claims. split; [| split; [| split]].
  - unfold APIKeyToJWTHandler. change (negb (String.eqb "POST" "POST")) with false.
    replace (String.eqb (TrimSpace _) EmptyString) with false by (vm_compute; reflexivity). cbn iota.
    rewrite run_bind, run_find_candidate.
    replace (cold_lookup _ _ _) with (Some ("alice", "invoke")%string) by (vm_compute; reflexivity). cbn [fst snd run].
    fold custom. change (jwt demo_keys) with (jwt demo_auth). by rewrite Hgen.
  - apply (minted_verifies (jwt demo_keys) demo_now (demo_now + Minute) "alice" _ accessTTL custom token expUnix);
      [split; split; vm_compute; congruence | split; vm_compute; congruence | split; vm_compute; congruence
      | apply (gateway_service_sound "PEM" (Some (tt : @ed_key toy_signatures))); vm_compute; reflexivity
      | reflexivity | reflexivity | apply (bool_decide_unpack _); vm_compute; exact I | exact Hgen].
  - vm_compute. reflexivity.
  - intros r Hr Ho. unfold callerScopes, hasWalletJWT. rewrite Hr, Ho. split; vm_compute; reflexivity.
Qed.

(** A logout that names a token and asks for all of them revokes the one it
    names only. *)
Theorem logout_all_with_token :
  ∃ ops d, run_all (session_prog demo_auth <$> ops) (empty_db 1000) = d ∧
    ops = [ OpIssue demo_now (Some "t0") "0xA11CE" "alice"; OpIssue demo_now (Some "t1") "0xA11CE" "alice" ]%string ∧
    let c := with_jwt (payload demo_now accessTTL "alice" "0xA11CE" ∅) emptyContext in
    let d' := (run (LogoutHandler "POST" c (Some (mkLogout "t0" "alice" true))) d.2).2 in
    (run (LogoutHandler "POST" c (Some (mkLogout "t0" "alice" true))) d.2).1 = Ok tt ∧
    phase_of 1 "sha:t0" d' = Spent ∧ phase_of 1 "sha:t1" d' = Active.
Proof.
  eexists _, _. split; [reflexivity |]. split; [reflexivity |]. cbn zeta. split; [vm_compute; reflexivity |].
  split; vm_compute; reflexivity.
Qed.
