(* ===== verification/CronTriggers.v ===== *)
(** * Cron triggers and their scheduler
      ([core/pkg/serverless/triggers/cron_store.go], [cron_scheduler.go])

    The table of cron triggers, the operations of its store as programs of
    [DbProg], and the scheduler that every gateway runs: read the due rows,
    advance a row by compare-and-swap, invoke the function, record the result.

    Instants are compared as instants.  The model keeps three things that no
    statement of the code reads: the ids that were ever issued (a UUID is not
    issued twice), which scheduler advanced a row from which instant, and the
    invocations.  An invocation is a step of its own, which can fail before or
    after it reached the engine. *)

From Stdlib Require Import ZArith Lia String.
From stdpp Require Import base tactics numbers list gmap sorting strings.
From S2P Require Import Prelude GoStrings Cron DbProg.

Local Open Scope go_scope.

(** ** The tables *)

(** The texts of [last_error]. *)
Inductive run_error :=
| NoRunError
| BadExpression (e : CronError)
| NoNextMatch (e : CronError)
| InvokeFailed (e : string).

Record cronRow := mkRow {
  ID : string;
  FunctionID : string;
  CronExpr : string;
  NextRunAt : option time;
  LastRunAt : option time;
  LastStatus : option string;
  LastError : option run_error;
  Enabled : bool;
  CreatedAt : time
}.

Record function_row := mkFunction {
  f_id : string;
  f_name : string;
  f_namespace : string;
  f_status : string
}.

Record InvokeRequest := mkRequest {
  Namespace : string;
  FunctionName : string;
  Input : string;
  TriggerType : string
}.

Record InvokeResponse := mkResponse { Status : string; RespError : string }.

(** The trigger and the instant an invocation was made for. *)
Abbreviation run_key := (string * Z)%type (only parsing).

Record cron_db := mkDb {
  triggers : list cronRow;
  functions : list function_row;
  issued : gset string;
  advanced : gmap run_key nat;
  invocations : list (run_key * InvokeRequest)
}.

Definition set_triggers (l : list cronRow) (d : cron_db) : cron_db :=
  mkDb l (functions d) (issued d) (advanced d) (invocations d).

(** ** The store *)

Inductive store_error :=
| FunctionIDRequired
| TriggerIDRequired
| BadCron (e : CronError)
| TriggerNotFound (id : string)
| ErrAlreadyRan
| StoreFailed (e : string).

(** The insertion is rejected when the primary key exists; an id that was
    issued and removed does not come back. *)
Definition insert_trigger (r : cronRow) (d : cron_db) : result string cron_db :=
  if decide (ID r ∈ issued d) then Err "UNIQUE constraint failed"%string
  else Ok (mkDb (triggers d ++ [r]) (functions d) ({[ID r]} ∪ issued d) (advanced d) (invocations d)).

Definition Add (id : string) (now : time) (functionID e : string) : prog cron_db (result store_error string) :=
  if String.eqb functionID EmptyString then Ret (Err FunctionIDRequired)
  else match ParseCron e with
       | Err err => Ret (Err (BadCron err))
       | Ok parsed =>
           match Next parsed now with
           | Err err => Ret (Err (BadCron err))
           | Ok next =>
               Exec (insert_trigger (mkRow id functionID e (Some next) None None None true now)) (λ r,
                 match r with
                 | Ok _ => Ret (Ok id)
                 | Err err => Ret (Err (StoreFailed err))
                 end)
           end
       end.

(** A DELETE, with the number of rows it removed. *)
Definition delete_triggers (P : cronRow → Prop) `{!∀ r, Decision (P r)} (d : cron_db) : nat * cron_db :=
  (length (filter P (triggers d)), set_triggers (filter (λ r, ¬ P r) (triggers d)) d).

Definition Remove (triggerID : string) : prog cron_db (result store_error unit) :=
  if String.eqb triggerID EmptyString then Ret (Err TriggerIDRequired)
  else Update (delete_triggers (λ r, ID r = triggerID)) (λ res,
         match res with
         | Err e => Ret (Err (StoreFailed e))
         | Ok O => Ret (Err (TriggerNotFound triggerID))
         | Ok (S _) => Ret (Ok tt)
         end).

Definition RemoveByFunction (functionID : string) : prog cron_db (result store_error unit) :=
  if String.eqb functionID EmptyString then Ret (Err FunctionIDRequired)
  else Update (delete_triggers (λ r, FunctionID r = functionID)) (λ res,
         match res with
         | Err e => Ret (Err (StoreFailed e))
         | Ok _ => Ret (Ok tt)
         end).

Record CronTrigger := mkCronTrigger {
  ct_ID : string;
  ct_FunctionID : string;
  ct_CronExpression : string;
  ct_NextRunAt : option time;
  ct_LastRunAt : option time;
  ct_Enabled : bool
}.

Definition ListByFunction (functionID : string) : prog cron_db (result store_error (list CronTrigger)) :=
  if String.eqb functionID EmptyString then Ret (Err FunctionIDRequired)
  else Query (λ d, filter (λ r, FunctionID r = functionID) (triggers d)) (λ res,
         match res with
         | Err e => Ret (Err (StoreFailed e))
         | Ok rows => Ret (Ok ((λ r, mkCronTrigger (ID r) (FunctionID r) (CronExpr r) (NextRunAt r)
                                       (LastRunAt r) (Enabled r)) <$> rows))
         end).

Record CronDueRow := mkDue {
  TriggerID : string;
  due_FunctionID : string;
  due_FunctionName : string;
  due_Namespace : string;
  due_CronExpression : string;
  due_NextRunAt : time
}.

(** One row of the join with [functions], whose id is a primary key. *)
Definition due_row (d : cron_db) (now : time) (r : cronRow) : option CronDueRow :=
  match list_find (λ f, f_id f = FunctionID r) (functions d), NextRunAt r with
  | Some (_, f), Some n =>
      if Enabled r && String.eqb (f_status f) "active" && (n <=? now)%Z
      then Some (mkDue (ID r) (FunctionID r) (f_name f) (f_namespace f) (CronExpr r) n)
      else None
  | _, _ => None
  end.

Definition due_before (x y : CronDueRow) : Prop := (due_NextRunAt x ≤ due_NextRunAt y)%Z.
#[global] Instance due_before_dec x y : Decision (due_before x y).
Proof. unfold due_before. apply _. Defined.

Definition due_rows (now : time) (limit : nat) (d : cron_db) : list CronDueRow :=
  take limit (merge_sort due_before (omap (due_row d now) (triggers d))).

Definition ListDue (now : time) (limit : Z) : prog cron_db (result store_error (list CronDueRow)) :=
  let limit := if (limit <=? 0)%Z then 100%Z else limit in
  Query (due_rows now (Z.to_nat limit)) (λ res,
    match res with
    | Err e => Ret (Err (StoreFailed e))
    | Ok rows => Ret (Ok rows)
    end).

(** [UPDATE ... WHERE id = ? AND next_run_at = ?]. *)
Definition at_instant (id : string) (expected : time) (r : cronRow) : Prop :=
  ID r = id ∧ NextRunAt r = Some expected.
#[global] Instance at_instant_dec id expected r : Decision (at_instant id expected r).
Proof. unfold at_instant. apply _. Defined.

Definition marked (ranAt next : time) (status : string) (err : run_error) (r : cronRow) : cronRow :=
  mkRow (ID r) (FunctionID r) (CronExpr r) (Some next) (Some ranAt) (Some status) (Some err)
    (Enabled r) (CreatedAt r).

Definition mark_row (id : string) (expected ranAt next : time) (status : string) (err : run_error) (r : cronRow)
    : cronRow :=
  if decide (at_instant id expected r) then marked ranAt next status err r else r.

Definition mark_run (who : nat) (id : string) (expected ranAt next : time) (status : string) (err : run_error)
    (d : cron_db) : nat * cron_db :=
  let affected := length (filter (at_instant id expected) (triggers d)) in
  (affected,
   mkDb (mark_row id expected ranAt next status err <$> triggers d)
     (functions d) (issued d)
     (if (0 <? affected)%nat && negb (expected =? next)%Z then <[(id, expected) := who]> (advanced d) else advanced d)
     (invocations d)).

Definition MarkRun (who : nat) (id : string) (expected ranAt next : time) (status : string) (err : run_error)
    : prog cron_db (result store_error unit) :=
  Update (mark_run who id expected ranAt next status err) (λ res,
    match res with
    | Err e => Ret (Err (StoreFailed e))
    | Ok O => Ret (Err ErrAlreadyRan)
    | Ok (S _) => Ret (Ok tt)
    end).

(** ** The scheduler *)

Section Scheduler.
(** The serverless engine: the response to a request ([nil] is [None]) or the
    error of the call. *)
Context (invoker : InvokeRequest → result string (option InvokeResponse)).

Definition Invoke (key : run_key) (req : InvokeRequest) : prog cron_db (result string (option InvokeResponse)) :=
  Update (λ d, (invoker req, mkDb (triggers d) (functions d) (issued d) (advanced d) (invocations d ++ [(key, req)])))
    (λ res, match res with
            | Ok r => Ret r
            | Err e => Ret (Err e)
            end).

(** The bytes [{"trigger":"cron"}]. *)
Definition quoted (s : string) : string :=
  let q := String (Ascii.ascii_of_nat 34) EmptyString in (q ++ s ++ q)%string.
Definition cron_input : string := ("{" ++ quoted "trigger" ++ ":" ++ quoted "cron" ++ "}")%string.

Definition cron_request (row : CronDueRow) : InvokeRequest :=
  mkRequest (due_Namespace row) (due_FunctionName row) cron_input "cron".

Definition far_out (now : time) : time := (now + 365 * 24 * Hour)%Z.

(** The status and the error text recorded after the invocation. *)
Definition run_outcome (r : result string (option InvokeResponse)) : string * run_error :=
  match r with
  | Err e => ("error"%string, InvokeFailed e)
  | Ok (Some resp) =>
      if String.eqb (Status resp) "success" then ("ok"%string, NoRunError)
      else ("error"%string, InvokeFailed (RespError resp))
  | Ok None => ("ok"%string, NoRunError)
  end.

Definition dispatch (who : nat) (row : CronDueRow) (now : time) : prog cron_db unit :=
  match ParseCron (due_CronExpression row) with
  | Err e =>
      do! _ := MarkRun who (TriggerID row) (due_NextRunAt row) now (far_out now) "error" (BadExpression e) in
      Ret tt
  | Ok parsed =>
      match Next parsed now with
      | Err e =>
          do! _ := MarkRun who (TriggerID row) (due_NextRunAt row) now (far_out now) "error" (NoNextMatch e) in
          Ret tt
      | Ok next =>
          do! claimed := MarkRun who (TriggerID row) (due_NextRunAt row) now next "running" NoRunError in
          match claimed with
          | Err _ => Ret tt
          | Ok _ =>
              do! resp := Invoke (TriggerID row, due_NextRunAt row) (cron_request row) in
              do! _ := MarkRun who (TriggerID row) next now next (run_outcome resp).1 (run_outcome resp).2 in
              Ret tt
          end
      end
  end.

(** The loop over the due rows; [stop] is the number of rows after which the
    context is found cancelled. *)
Fixpoint dispatch_all (who : nat) (stop : option nat) (rows : list CronDueRow) (now : time) : prog cron_db unit :=
  match rows with
  | [] => Ret tt
  | row :: rows' =>
      match stop with
      | Some O => Ret tt
      | _ => do! _ := dispatch who row now in dispatch_all who (pred <$> stop) rows' now
      end
  end.

Definition batchLimit : Z := 100.

Definition tick (who : nat) (stop : option nat) (now : time) : prog cron_db unit :=
  do! due := ListDue now batchLimit in
  match due with
  | Err _ => Ret tt
  | Ok rows => dispatch_all who stop rows now
  end.
End Scheduler.

(** ** The invariant

    A row that was advanced from an instant is now scheduled after it, and
    only what was advanced has been invoked, once. *)

Definition invoked (d : cron_db) : list run_key := (invocations d).*1.

Record cron_inv (d : cron_db) : Prop := {
  inv_ids : NoDup (ID <$> triggers d);
  inv_issued : ∀ r, r ∈ triggers d → ID r ∈ issued d;
  inv_advanced : ∀ k who, advanced d !! k = Some who →
    k.1 ∈ issued d ∧ ∀ r n, r ∈ triggers d → ID r = k.1 → NextRunAt r = Some n → (k.2 < n)%Z;
  inv_once : NoDup (invoked d);
  inv_invoked : ∀ k, k ∈ invoked d → is_Some (advanced d !! k)
}.

(** What scheduler [who] relies on: what it advanced stays its own, and nobody
    else invokes for it. *)
Definition cron_rely (who : nat) (d d' : cron_db) : Prop :=
  ∀ k, advanced d !! k = Some who →
    advanced d' !! k = Some who ∧ (k ∈ invoked d' → k ∈ invoked d).

Definition cron_guar (who : nat) (d d' : cron_db) : Prop :=
  ∀ other, other ≠ who → cron_rely other d d'.

Definition any_db (d d' : cron_db) : Prop := True.

#[global] Instance cron_rely_pre who : PreOrder (cron_rely who).
Proof.
  split.
  - by intros d k Hk.
  - intros d1 d2 d3 H12 H23 k Hk. destruct (H12 _ Hk) as [Hk2 Hi2]. destruct (H23 _ Hk2) as [Hk3 Hi3]. auto.
Qed.

#[global] Instance any_db_pre : PreOrder any_db.
Proof. by split. Qed.

Abbreviation cron_secures who := (secures cron_inv any_db (cron_rely who) (cron_guar who)) (only parsing).

(** A change of the tables alone: fewer rows, or other functions. *)
Lemma tables_secure who d l fs :
  cron_inv d → sublist l (triggers d) →
  cron_inv (mkDb l fs (issued d) (advanced d) (invocations d)) ∧
  cron_guar who d (mkDb l fs (issued d) (advanced d) (invocations d)).
Proof.
  intros [H1 H2 H3 H4 H5] Hl.
  assert (∀ r, r ∈ l → r ∈ triggers d) as Hin.
  { intros r Hr. by eapply elem_of_sublist. }
  split; [| by intros other _ k Hk]. split; cbn; eauto.
  - eapply sublist_NoDup; [exact H1 |]. by apply fmap_sublist.
  - intros k w Hk. destruct (H3 _ _ Hk) as [Hi Hn]. eauto.
Qed.

Lemma mark_row_ID id expected ranAt next status err r : ID (mark_row id expected ranAt next status err r) = ID r.
Proof. unfold mark_row. by case_decide. Qed.

Lemma mark_ids id expected ranAt next status err (l : list cronRow) :
  ID <$> (mark_row id expected ranAt next status err <$> l) = ID <$> l.
Proof. rewrite <- list_fmap_compose. apply list_fmap_ext. intros i r _. apply mark_row_ID. Qed.

(** Rows keep their ids, and the instant of a row does not decrease. *)
Lemma mark_row_inv id expected ranAt next status err (l : list cronRow) r :
  (expected ≤ next)%Z → r ∈ mark_row id expected ranAt next status err <$> l →
  ∃ r0, r0 ∈ l ∧ ID r0 = ID r ∧
    ∀ n, NextRunAt r = Some n → ∃ n0, NextRunAt r0 = Some n0 ∧ (n0 ≤ n)%Z ∧
      (ID r = id → n0 = expected → n = next).
Proof.
  intros Hle Hr. apply list_elem_of_fmap in Hr as (r0 & -> & Hr0). exists r0.
  rewrite mark_row_ID. split; [done |]. split; [done |]. unfold mark_row.
  case_decide as Hat; cbn.
  - intros n [= <-]. destruct Hat as [_ Hat]. by exists expected.
  - intros n Hn. exists n. split; [done |]. split; [lia |]. intros Hid ->. by destruct Hat.
Qed.

(** What an advance recorded earlier says, after another one. *)
Lemma mark_advanced id expected ranAt next status err d k who :
  cron_inv d → (expected ≤ next)%Z → advanced d !! k = Some who →
  k.1 ∈ issued d ∧
  ∀ r n, r ∈ mark_row id expected ranAt next status err <$> triggers d → ID r = k.1 → NextRunAt r = Some n →
    (k.2 < n)%Z.
Proof.
  intros Hd Hle Hk. destruct (inv_advanced d Hd _ _ Hk) as [Hi Hlt]. split; [done |]. intros r n Hr Hid Hn.
  destruct (mark_row_inv _ _ _ _ _ _ _ _ Hle Hr) as (r0 & Hr0 & Hid0 & Hn0).
  destruct (Hn0 _ Hn) as (n0 & Hr0n & Hle0 & _).
  pose proof (Hlt _ _ Hr0 ltac:(congruence) Hr0n). lia.
Qed.

(** The row an advance hits was not advanced from that instant before. *)
Lemma at_instant_fresh id expected d :
  cron_inv d → (0 < length (filter (at_instant id expected) (triggers d)))%nat →
  ∃ r, r ∈ triggers d ∧ at_instant id expected r ∧
    advanced d !! (id, expected) = None ∧ (id, expected) ∉ invoked d.
Proof.
  intros Hd Hpos.
  assert (∃ r, r ∈ triggers d ∧ at_instant id expected r) as (r & Hr & Hat).
  { destruct (filter _ _) as [| r l] eqn:Hf; [cbn in Hpos; lia |].
    exists r. assert (r ∈ filter (at_instant id expected) (triggers d)) as Hin by (rewrite Hf; left).
    apply list_elem_of_filter in Hin. naive_solver. }
  assert (advanced d !! (id, expected) = None) as Hnone.
  { apply eq_None_not_Some. intros [w Hw]. destruct (inv_advanced d Hd _ _ Hw) as [_ Hlt]. cbn in Hlt.
    destruct Hat as [Hid Hnext]. pose proof (Hlt _ _ Hr Hid Hnext). lia. }
  exists r. repeat (split; [done |]). intros Hin. apply (inv_invoked d Hd) in Hin as [w Hw]. by rewrite Hnone in Hw.
Qed.

Section MarkRun.
Context (who : nat) (id : string) (expected ranAt next : time) (status : string) (err : run_error).
Context (expected_le : (expected ≤ next)%Z).

Let after d := (mark_run who id expected ranAt next status err d).2.

Lemma mark_run_inv d : cron_inv d → cron_inv (after d).
Proof.
  intros Hd. pose proof Hd as [H1 H2 H3 H4 H5]. unfold after, mark_run. cbn [snd].
  assert (∀ r, r ∈ mark_row id expected ranAt next status err <$> triggers d → ID r ∈ issued d) as Hissued.
  { intros r Hr. destruct (mark_row_inv _ _ _ _ _ _ _ _ expected_le Hr) as (r0 & Hr0 & <- & _). auto. }
  destruct ((0 <? _)%nat && negb (expected =? next)%Z) eqn:Hadv.
  2: { split; cbn; [by rewrite mark_ids | done | | done | done].
       intros k w Hk. by eapply mark_advanced. }
  apply andb_true_iff in Hadv as [Hpos Hne]. apply Nat.ltb_lt in Hpos. apply negb_true_iff, Z.eqb_neq in Hne.
  destruct (at_instant_fresh _ _ _ Hd Hpos) as (r & Hr & [Hid Hnext] & Hnone & Hni).
  split; cbn; [by rewrite mark_ids | done | | done |].
  - intros k w Hk. apply lookup_insert_Some in Hk as [[<- <-] | [_ Hk]]; cbn; [| by eapply mark_advanced].
    split; [rewrite <- Hid; auto |]. intros r' n Hr' Hid' Hn.
    destruct (mark_row_inv _ _ _ _ _ _ _ _ expected_le Hr') as (r0 & Hr0 & Hid0 & Hn0).
    destruct (Hn0 _ Hn) as (n0 & Hr0n & Hle0 & Heq).
    assert (r0 = r) as -> by (eapply (NoDup_fmap_elem ID); eauto; congruence).
    assert (n0 = expected) as -> by congruence. rewrite (Heq Hid' eq_refl). lia.
  - intros k Hk. rewrite lookup_insert_is_Some'. right. auto.
Qed.

Lemma mark_run_guar d : cron_inv d → cron_guar who d (after d).
Proof.
  intros Hd other Ho k Hk. unfold after, mark_run. cbn [snd advanced]. split; [| done].
  destruct ((0 <? _)%nat && negb (expected =? next)%Z) eqn:Hadv; [| done].
  apply andb_true_iff in Hadv as [Hpos%Nat.ltb_lt _].
  destruct (at_instant_fresh _ _ _ Hd Hpos) as (r & _ & _ & Hnone & _).
  rewrite lookup_insert_ne; [done | congruence].
Qed.

Lemma mark_run_claims d :
  cron_inv d → (mark_run who id expected ranAt next status err d).1 ≠ O → (expected < next)%Z →
  advanced (after d) !! (id, expected) = Some who ∧ (id, expected) ∉ invoked (after d).
Proof.
  intros Hd Hne Hlt. unfold after, mark_run in *. cbn [fst snd advanced] in *.
  destruct (at_instant_fresh id expected d Hd) as (r & _ & _ & _ & Hni); [lia |].
  split; [| done]. destruct (Nat.ltb_spec 0 (length (filter (at_instant id expected) (triggers d)))); [| lia].
  destruct (Z.eqb_spec expected next); [lia |]. cbn. by rewrite lookup_insert_eq.
Qed.

Lemma MarkRun_secures (K : cron_db → Prop) :
  cron_secures who
    (λ res d, (expected < next)%Z → res = Ok tt →
       advanced d !! (id, expected) = Some who ∧ (id, expected) ∉ invoked d)
    K (MarkRun who id expected ranAt next status err).
Proof.
  cbn [MarkRun secures]. split.
  { intros d Hd _. split; [by apply mark_run_inv | by apply mark_run_guar]. }
  split; [| by intros e d _ _ _ ?].
  intros [| n]; cbn [secures]; [by intros d _ _ _ ? |].
  intros d _ (d0 & Hd0 & _ & Hn & Hrely) Hlt _.
  destruct (mark_run_claims d0 Hd0 ltac:(lia) Hlt) as [Ha Hi].
  destruct (Hrely _ Ha) as [Ha' Hi']. auto.
Qed.
End MarkRun.

Section Secures.
Context (invoker : InvokeRequest → result string (option InvokeResponse)) (who : nat).

Lemma Invoke_secures key req :
  cron_secures who (λ _ _, True) (λ d, advanced d !! key = Some who ∧ key ∉ invoked d) (Invoke invoker key req).
Proof.
  cbn [Invoke secures]. split; [| by split; [intros [r | e] |]].
  intros d [H1 H2 H3 H4 H5] [Ha Hi]. cbn [snd]. split.
  - split; [done.. | |]; unfold invoked in *; cbn; rewrite fmap_app; cbn.
    + apply NoDup_app. split; [done |]. split; [| apply NoDup_singleton]. by intros k Hk ->%list_elem_of_singleton.
    + intros k [Hk | ->%list_elem_of_singleton]%elem_of_app; eauto.
  - intros other Ho k Hk. split; [done |]. unfold invoked. cbn. rewrite fmap_app. cbn.
    intros [Hin | ->%list_elem_of_singleton]%elem_of_app; [done | congruence].
Qed.

Lemma secures_true {A : Type} (Q : A → cron_db → Prop) K p :
  cron_secures who Q K p → cron_secures who (λ _ _, True) K p.
Proof. by apply secures_mono. Qed.

Lemma then_done {A : Type} K (p : prog cron_db A) :
  cron_secures who (λ _ _, True) K p → cron_secures who (λ _ _, True) K (do! _ := p in Ret tt).
Proof. intros Hp. eapply secures_bind; [exact Hp |]. by intros a d _ _. Qed.

Lemma dispatch_secures row now :
  (due_NextRunAt row ≤ now)%Z → cron_secures who (λ _ _, True) (λ _, True) (dispatch invoker who row now).
Proof.
  intros Hdue. assert (due_NextRunAt row ≤ far_out now)%Z as Hfar.
  { unfold far_out, Hour, Minute, Second. lia. }
  unfold dispatch. destruct (ParseCron _) as [parsed | e]; [| by eapply then_done, secures_true, MarkRun_secures].
  destruct (Next parsed now) as [next | e] eqn:Hnext; [| by eapply then_done, secures_true, MarkRun_secures].
  apply Next_after in Hnext.
  eapply secures_bind; [apply MarkRun_secures; lia |]. intros [[] | e]; cbn beta; [| by intros d _ _].
  eapply secures_bind; [eapply secures_mono; [by intros ? ? _ Hq; exact Hq | | apply Invoke_secures] |].
  { intros d _ H. apply H; [lia | done]. }
  intros resp. eapply then_done, secures_true, MarkRun_secures. lia.
Qed.

Lemma dispatch_all_secures rows now stop :
  Forall (λ row, (due_NextRunAt row ≤ now)%Z) rows →
  cron_secures who (λ _ _, True) (λ _, True) (dispatch_all invoker who stop rows now).
Proof.
  intros Hdue. revert stop. induction Hdue as [| row rows Hrow _ IH]; intros stop; [by intros d _ _ |].
  cbn [dispatch_all]. destruct stop as [[| n] |]; [by intros d _ _ | |];
    (eapply secures_bind; [by apply dispatch_secures | intros []; apply IH]).
Qed.

Lemma due_rows_due now limit d : Forall (λ row, (due_NextRunAt row ≤ now)%Z) (due_rows now limit d).
Proof.
  apply Forall_take. rewrite merge_sort_Permutation. apply Forall_forall. intros row Hrow.
  apply list_elem_of_omap in Hrow as (r & _ & Hr). unfold due_row in Hr. repeat case_match; simplify_eq.
  zbool. cbn. lia.
Qed.

Lemma tick_secures stop now : cron_secures who (λ _ _, True) (λ _, True) (tick invoker who stop now).
Proof.
  cbn. split; [| by intros e d _ _]. intros d0 _.
  eapply secures_mono; [by intros ? ? _ Hq; exact Hq | | apply dispatch_all_secures, due_rows_due]. done.
Qed.

Lemma insert_trigger_secure r d d' :
  cron_inv d → insert_trigger r d = Ok d' → cron_inv d' ∧ cron_guar who d d'.
Proof.
  intros [H1 H2 H3 H4 H5]. unfold insert_trigger. case_decide as Hfresh; [done |]. intros [= <-].
  split; [| by intros other _ k Hk]. split; cbn; [| | | done | done].
  - rewrite fmap_app. apply NoDup_app. split; [done |]. split; [| apply NoDup_singleton].
    intros k (r0 & -> & Hr0)%list_elem_of_fmap Hk%list_elem_of_singleton. destruct Hfresh. rewrite <- Hk. auto.
  - intros r' [Hr' | ->%list_elem_of_singleton]%elem_of_app; [| set_solver]. set_solver.
  - intros k w Hk. destruct (H3 _ _ Hk) as [Hi Hlt]. split; [set_solver |].
    intros r' n [Hr' | ->%list_elem_of_singleton]%elem_of_app Hid Hn; [eauto |]. destruct Hfresh. by rewrite Hid.
Qed.

Lemma Add_secures id now functionID e :
  cron_secures who (λ _ _, True) (λ _, True) (Add id now functionID e).
Proof.
  unfold Add. destruct (String.eqb _ _); [done |]. destruct (ParseCron e) as [parsed |]; [| done].
  destruct (Next parsed now); [| done]. split; [| by split; [| intros err]].
  intros d d' Hd _. by apply insert_trigger_secure.
Qed.

Lemma delete_secures {A : Type} (P : cronRow → Prop) `{!∀ r, Decision (P r)} (k : result string nat → A) :
  cron_secures who (λ _ _, True) (λ _, True) (Update (delete_triggers P) (λ r, Ret (k r))).
Proof.
  split; [| by split]. intros d Hd _. apply (tables_secure who d); [done |]. apply sublist_filter.
Qed.
End Secures.

(** ** Many gateways *)

Inductive cron_op :=
| OpAdd (id : string) (now : time) (functionID e : string)
| OpRemove (triggerID : string)
| OpRemoveByFunction (functionID : string)
| OpTick (stop : option nat) (now : time)
| OpDeploy (fs : list function_row).

(** The programs of the gateways; a scheduler is named by its thread.
    [OpDeploy] is any change of the registry of functions. *)
Definition cron_prog (invoker : InvokeRequest → result string (option InvokeResponse)) (who : nat) (op : cron_op)
    : prog cron_db unit :=
  match op with
  | OpAdd id now functionID e => do! _ := Add id now functionID e in Ret tt
  | OpRemove triggerID => do! _ := Remove triggerID in Ret tt
  | OpRemoveByFunction functionID => do! _ := RemoveByFunction functionID in Ret tt
  | OpTick stop now => tick invoker who stop now
  | OpDeploy fs => Exec (λ d, Ok (mkDb (triggers d) fs (issued d) (advanced d) (invocations d))) (λ _, Ret tt)
  end.

Lemma cron_prog_secures invoker who op :
  cron_secures who (λ _ _, True) (λ _, True) (cron_prog invoker who op).
Proof.
  destruct op as [id now functionID e | triggerID | functionID | stop now | fs]; cbn [cron_prog].
  - apply then_done, Add_secures.
  - apply then_done. unfold Remove. destruct (String.eqb _ _); [done |].
    split; [| by split; [intros [| n] |]]. intros d Hd _. apply (tables_secure who d); [done | apply sublist_filter].
  - apply then_done. unfold RemoveByFunction. destruct (String.eqb _ _); [done |].
    split; [| by split]. intros d Hd _. apply (tables_secure who d); [done | apply sublist_filter].
  - apply tick_secures.
  - split; [| by split]. intros d d' Hd _ [= <-]. by apply tables_secure.
Qed.

Definition cron_start (invoker : InvokeRequest → result string (option InvokeResponse)) (d : cron_db)
    (ops : list cron_op) : sys cron_db cron_op unit :=
  mkSys d [] (imap (λ i op, (op, cron_prog invoker i op)) ops).

(** The rows of a database, before any scheduler ran. *)
Definition fresh_db (rows : list cronRow) (fs : list function_row) : cron_db :=
  mkDb rows fs (list_to_set (ID <$> rows)) ∅ [].

(** C10: whatever gateways add, remove and schedule at the same time, with
    failing statements, lagging reads and lost acknowledgements, whatever the
    clocks of the schedulers show: a trigger is never invoked twice for the
    same instant of its schedule. *)
Theorem cron_at_most_once invoker rows fs ops s :
  NoDup (ID <$> rows) → rtc sys_step (cron_start invoker (fresh_db rows fs) ops) s →
  NoDup ((invocations (current s)).*1).
Proof.
  intros Hnd Hr. apply inv_once.
  eapply (sys_owned cron_inv any_db cron_rely cron_guar) with (Q := λ _ _ _, True) (s := s); [done.. | | | | exact Hr].
  - intros i j d1 d2 Hij Hg. apply Hg. congruence.
  - split; cbn; [done | | done | constructor | by intros k ?%elem_of_nil].
    intros r Hr'. apply elem_of_list_to_set, list_elem_of_fmap. eauto.
  - intros i t Hi. rewrite list_lookup_imap in Hi. apply fmap_Some in Hi as (op & _ & ->). apply cron_prog_secures.
Qed.

(** ** One scheduler alone *)

Section Alone.
Context (invoker : InvokeRequest → result string (option InvokeResponse)) (who : nat) (now : time).

(** What a tick leaves in the row of a due trigger, and what it invokes. *)
Definition served (x : CronDueRow) (r : cronRow) : cronRow :=
  match ParseCron (due_CronExpression x) with
  | Err e => marked now (far_out now) "error" (BadExpression e) r
  | Ok parsed =>
      match Next parsed now with
      | Err e => marked now (far_out now) "error" (NoNextMatch e) r
      | Ok next => let out := run_outcome (invoker (cron_request x)) in marked now next out.1 out.2 r
      end
  end.

Definition fires (x : CronDueRow) : option (run_key * InvokeRequest) :=
  match ParseCron (due_CronExpression x) with
  | Ok parsed =>
      match Next parsed now with
      | Ok _ => Some ((TriggerID x, due_NextRunAt x), cron_request x)
      | Err _ => None
      end
  | Err _ => None
  end.

Definition serve_all (due : list CronDueRow) (r : cronRow) : cronRow :=
  match list_find (λ x, TriggerID x = ID r) due with
  | Some (_, x) => served x r
  | None => r
  end.

Lemma served_ID x r : ID (served x r) = ID r.
Proof. unfold served. by repeat case_match. Qed.

Lemma serve_all_ID due r : ID (serve_all due r) = ID r.
Proof. unfold serve_all. case_match; [case_match; apply served_ID | done]. Qed.

Lemma served_next x r : (∃ n, NextRunAt (served x r) = Some n ∧ (now < n)%Z).
Proof.
  unfold served. destruct (ParseCron _) as [parsed | e]; [destruct (Next parsed now) as [next | e] eqn:Hn |];
    (eexists; split; [reflexivity |]); [by apply Next_after in Hn | |]; unfold far_out, Hour, Minute, Second; lia.
Qed.

(** A compare-and-swap on a row that is there. *)
Lemma run_MarkRun id expected ranAt next status err d r :
  r ∈ triggers d → at_instant id expected r →
  ∃ d', run (MarkRun who id expected ranAt next status err) d = (Ok tt, d') ∧
    triggers d' = mark_row id expected ranAt next status err <$> triggers d ∧
    functions d' = functions d ∧ invocations d' = invocations d.
Proof.
  intros Hr Hat. cbn [MarkRun run]. unfold mark_run at 1. cbn [fst snd].
  assert (r ∈ filter (at_instant id expected) (triggers d)) as Hin by (by apply list_elem_of_filter).
  destruct (filter _ (triggers d)); [by apply elem_of_nil in Hin |]. cbn [length run]. eexists. split; [reflexivity |].
  done.
Qed.

(** In a table with a primary key, the row at an instant is the row of the id. *)
Lemma at_instant_unique d id expected r r' :
  NoDup (ID <$> triggers d) → r ∈ triggers d → at_instant id expected r → r' ∈ triggers d → ID r' = id → r' = r.
Proof. intros Hnd Hr [Hid _] Hr' Hid'. eapply NoDup_fmap_elem; eauto. congruence. Qed.

Lemma mark_row_hit id expected ranAt next status err r :
  at_instant id expected r → mark_row id expected ranAt next status err r = marked ranAt next status err r.
Proof. intros H. unfold mark_row. by rewrite decide_True. Qed.

Lemma mark_row_miss id expected ranAt next status err r :
  ID r ≠ id → mark_row id expected ranAt next status err r = r.
Proof. intros H. unfold mark_row. rewrite decide_False; [done |]. by intros [? _]. Qed.

Lemma run_dispatch x d r :
  NoDup (ID <$> triggers d) → r ∈ triggers d → at_instant (TriggerID x) (due_NextRunAt x) r →
  ∃ d', run (dispatch invoker who x now) d = (tt, d') ∧
    triggers d' = (λ r, if decide (ID r = TriggerID x) then served x r else r) <$> triggers d ∧
    functions d' = functions d ∧ invocations d' = invocations d ++ option_list (fires x).
Proof.
  intros Hnd Hr Hat.
  assert (∀ f : cronRow → cronRow, (∀ r', r' = r → f r' = served x r') → (∀ r', ID r' ≠ TriggerID x → f r' = r') →
    f <$> triggers d = (λ r, if decide (ID r = TriggerID x) then served x r else r) <$> triggers d) as Hext.
  { intros f Hhit Hmiss. apply list_fmap_ext. intros i r' Hi%list_elem_of_lookup_2. case_decide as Hid; [| auto].
    apply Hhit. by eapply at_instant_unique. }
  unfold dispatch, fires, served in *. destruct (ParseCron _) as [parsed | e].
  2: { rewrite run_bind. destruct (run_MarkRun _ _ now (far_out now) "error" (BadExpression e) d r Hr Hat)
         as (d' & -> & Ht & Hf & Hi). exists d'. split; [done |]. split; [| by rewrite app_nil_r].
       rewrite Ht. apply Hext; [intros r' ->; by apply mark_row_hit | intros r' Hne; by apply mark_row_miss]. }
  destruct (Next parsed now) as [next | e].
  2: { rewrite run_bind. destruct (run_MarkRun _ _ now (far_out now) "error" (NoNextMatch e) d r Hr Hat)
         as (d' & -> & Ht & Hf & Hi). exists d'. split; [done |]. split; [| by rewrite app_nil_r].
       rewrite Ht. apply Hext; [intros r' ->; by apply mark_row_hit | intros r' Hne; by apply mark_row_miss]. }
  rewrite run_bind. destruct (run_MarkRun _ _ now next "running" NoRunError d r Hr Hat) as (d1 & -> & Ht1 & Hf1 & Hi1).
  cbn [fst snd]. rewrite run_bind. cbn [Invoke run fst snd].
  set (out := run_outcome (invoker (cron_request x))).
  set (d2 := mkDb (triggers d1) (functions d1) (issued d1) (advanced d1) _).
  assert (mark_row (TriggerID x) (due_NextRunAt x) now next "running" NoRunError r ∈ triggers d2) as Hr2.
  { cbn. rewrite Ht1. by apply list_elem_of_fmap_2. }
  rewrite run_bind.
  destruct (run_MarkRun (TriggerID x) next now next out.1 out.2 d2 _ Hr2) as (d3 & -> & Ht3 & Hf3 & Hi3).
  { rewrite mark_row_hit by done. by destruct Hat. }
  exists d3. split; [done |]. split; [| split; [by rewrite Hf3 | rewrite Hi3; cbn; by rewrite Hi1]].
  rewrite Ht3. cbn. rewrite Ht1, <- list_fmap_compose. apply Hext.
  - intros r' ->. cbn. rewrite (mark_row_hit _ (due_NextRunAt x)) by done. rewrite mark_row_hit; [done |].
    by destruct Hat.
  - intros r' Hne. cbn. rewrite (mark_row_miss _ (due_NextRunAt x)) by done. by apply mark_row_miss.
Qed.

Lemma run_dispatch_all due d :
  NoDup (ID <$> triggers d) → NoDup (TriggerID <$> due) →
  Forall (λ x, ∃ r, r ∈ triggers d ∧ at_instant (TriggerID x) (due_NextRunAt x) r) due →
  ∃ d', run (dispatch_all invoker who None due now) d = (tt, d') ∧
    triggers d' = serve_all due <$> triggers d ∧
    functions d' = functions d ∧ invocations d' = invocations d ++ omap fires due.
Proof.
  revert d. induction due as [| x due IH]; intros d Hnd Hdue Hall.
  { exists d. cbn. by rewrite app_nil_r, list_fmap_id. }
  apply Forall_cons in Hall as [(r & Hr & Hat) Hall]. apply NoDup_cons in Hdue as [Hx Hdue].
  cbn [dispatch_all fmap option_fmap option_map]. rewrite run_bind.
  destruct (run_dispatch x d r Hnd Hr Hat) as (d1 & -> & Ht1 & Hf1 & Hi1). cbn [fst snd].
  assert (ID <$> triggers d1 = ID <$> triggers d) as Hids.
  { rewrite Ht1, <- list_fmap_compose. apply list_fmap_ext. intros i r' _. cbn. case_decide; [apply served_ID | done]. }
  destruct (IH d1) as (d2 & Hrun & Ht2 & Hf2 & Hi2); [by rewrite Hids | done | |].
  { apply Forall_forall. intros y Hy. rewrite Forall_forall in Hall. destruct (Hall y Hy) as (r' & Hr' & Hat').
    exists r'. split; [| done]. rewrite Ht1. apply list_elem_of_fmap. exists r'. split; [| done].
    rewrite decide_False; [done |]. intros E. apply Hx. destruct Hat' as [Hid' _]. rewrite <- E, Hid'.
    by apply list_elem_of_fmap_2. }
  exists d2. split; [done |]. split; [| split; [congruence |]].
  - rewrite Ht2, Ht1, <- list_fmap_compose. apply list_fmap_ext. intros i r' _. cbn. unfold serve_all at 2.
    cbn [list_find]. destruct (decide (TriggerID x = ID r')) as [E | E].
    + rewrite decide_True by done. unfold serve_all. rewrite served_ID.
      destruct (list_find _ due) as [[j y] |] eqn:Hy; [| done].
      apply list_find_Some in Hy as (Hy & E' & _). destruct Hx. rewrite E, <- E'.
      apply list_elem_of_fmap_2. by eapply list_elem_of_lookup_2.
    + rewrite decide_False by congruence. unfold serve_all. by destruct (list_find _ due) as [[j y] |].
  - rewrite Hi2, Hi1, <- app_assoc. by destruct (fires x) eqn:E; cbn; rewrite E.
Qed.
End Alone.

(** The due rows: distinct, each with its row in the table, the earliest first. *)
Lemma due_row_inv d now r x :
  due_row d now r = Some x → TriggerID x = ID r ∧ NextRunAt r = Some (due_NextRunAt x).
Proof. unfold due_row. intros H. repeat case_match; by simplify_eq. Qed.

Lemma due_candidates_ids d now : sublist (TriggerID <$> omap (due_row d now) (triggers d)) (ID <$> triggers d).
Proof.
  induction (triggers d) as [| r l IH]; [done |]. cbn. destruct (due_row d now r) as [x |] eqn:Hx; cbn.
  - destruct (due_row_inv _ _ _ _ Hx) as [-> _]. by constructor.
  - by constructor.
Qed.

Lemma due_rows_distinct d now n : NoDup (ID <$> triggers d) → NoDup (TriggerID <$> due_rows now n d).
Proof.
  intros Hnd. unfold due_rows. rewrite fmap_take. eapply sublist_NoDup; [| apply sublist_take].
  rewrite merge_sort_Permutation. eapply sublist_NoDup; [exact Hnd | apply due_candidates_ids].
Qed.

Lemma due_rows_elem d now n x :
  x ∈ due_rows now n d → ∃ r, r ∈ triggers d ∧ due_row d now r = Some x.
Proof.
  unfold due_rows. intros Hx. eapply elem_of_sublist in Hx; [| apply sublist_take].
  rewrite merge_sort_Permutation in Hx. apply list_elem_of_omap in Hx. naive_solver.
Qed.

#[local] Instance due_before_trans : Transitive due_before.
Proof. intros x y z. unfold due_before. lia. Qed.
#[local] Instance due_before_total : Total due_before.
Proof. intros x y. unfold due_before. lia. Qed.

Lemma due_rows_earliest d now n r x :
  r ∈ triggers d → due_row d now r = Some x →
  x ∈ due_rows now n d ∨ length (due_rows now n d) = n ∧ ∀ y, y ∈ due_rows now n d → due_before y x.
Proof.
  intros Hr Hx. unfold due_rows. set (all := merge_sort due_before (omap (due_row d now) (triggers d))).
  assert (x ∈ all) as Hin by (unfold all; rewrite merge_sort_Permutation; apply list_elem_of_omap; eauto).
  pose proof (StronglySorted_merge_sort due_before (omap (due_row d now) (triggers d))) as Hsort. fold all in Hsort.
  rewrite <- (take_drop n all) in Hin, Hsort. apply elem_of_app in Hin as [Hin | Hin]; [by left | right].
  split.
  - rewrite length_take. destruct (decide (n ≤ length all)%nat); [lia |].
    rewrite drop_ge in Hin by lia. by apply elem_of_nil in Hin.
  - intros y Hy. by eapply StronglySorted_app_1_elem_of.
Qed.

(** C19: a tick alone serves the due triggers, the hundred earliest when there
    are more: it invokes each that has a next occurrence exactly once, in the
    order of their instants, moves each to an instant after now (occurrences
    missed meanwhile are not made up for) and records the outcome; no other
    row changes. *)
Theorem tick_spec invoker who now d :
  NoDup (ID <$> triggers d) →
  let due := due_rows now 100 d in
  let d' := (run (tick invoker who None now) d).2 in
  invocations d' = invocations d ++ omap (fires now) due ∧
  triggers d' = serve_all invoker now due <$> triggers d ∧ functions d' = functions d ∧
  (∀ r, r ∈ triggers d' → ID r ∈ TriggerID <$> due → ∃ n, NextRunAt r = Some n ∧ (now < n)%Z) ∧
  (∀ r x, r ∈ triggers d → due_row d now r = Some x →
     x ∈ due ∨ length due = 100%nat ∧ ∀ y, y ∈ due → (due_NextRunAt y ≤ due_NextRunAt x)%Z).
Proof.
  intros Hnd due d'.
  destruct (run_dispatch_all invoker who now due d Hnd) as (d1 & Hrun & Ht & Hf & Hi).
  { by apply due_rows_distinct. }
  { apply Forall_forall. intros x (r & Hr & Hx)%due_rows_elem. exists r. split; [done |].
    by destruct (due_row_inv _ _ _ _ Hx). }
  assert (d' = d1) as ->.
  { unfold d'. cbn [tick ListDue batchLimit prog_bind run]. change (run _ d) with
      (run (dispatch_all invoker who None due now) d). by rewrite Hrun. }
  split; [done |]. split; [done |]. split; [done |]. split.
  - intros r Hr Hid. rewrite Ht in Hr. apply list_elem_of_fmap in Hr as (r0 & -> & _). rewrite serve_all_ID in Hid.
    unfold serve_all. destruct (list_find _ due) as [[j x] |] eqn:Hx; [apply served_next |].
    exfalso. apply list_find_None in Hx. rewrite Forall_forall in Hx. apply list_elem_of_fmap in Hid as (x & E & Hin).
    by eapply Hx.
  - intros r x Hr Hx. by apply due_rows_earliest with (r := r).
Qed.

(** ** A table with two triggers *)

Definition demo_at (hour minute : Z) : time := Calendar.Date 2024 1 1 hour minute 0.

Definition demo_rows : list cronRow :=
  [ mkRow "t1" "f1" "*/5 * * * *" (Some (demo_at 12 0)) None None None true (demo_at 11 58);
    mkRow "t2" "f2" "0 13 * * *" (Some (demo_at 13 0)) None None None true (demo_at 11 58) ].

Definition demo_functions : list function_row :=
  [ mkFunction "f1" "sweep" "alice" "active"; mkFunction "f2" "report" "alice" "active" ].

Definition demo_invoker (req : InvokeRequest) : result string (option InvokeResponse) :=
  Ok (Some (mkResponse "success" EmptyString)).

(** Two gateways that read the same due row. *)
Lemma cron_at_most_once_witness :
  ∃ s, rtc sys_step (cron_start demo_invoker (fresh_db demo_rows demo_functions)
                       [OpTick None (demo_at 12 1); OpTick None (demo_at 12 2)]) s ∧
       NoDup ((invocations (current s)).*1) ∧ (invocations (current s)).*1 = [("t1"%string, demo_at 12 0)].
Proof.
  destruct (sys_overtake (OpTick None (demo_at 12 1)) (OpTick None (demo_at 12 2))
              (cron_prog demo_invoker 0 (OpTick None (demo_at 12 1)))
              (cron_prog demo_invoker 1 (OpTick None (demo_at 12 2))) 1
              (fresh_db demo_rows demo_functions)) as (s & Hr & _ & Hc).
  exists s. split; [exact Hr |]. split.
  - apply (cron_at_most_once demo_invoker demo_rows demo_functions
             [OpTick None (demo_at 12 1); OpTick None (demo_at 12 2)]); [| exact Hr].
    apply (bool_decide_unpack _). vm_compute. exact I.
  - rewrite Hc. vm_compute. reflexivity.
Defined.

Lemma tick_spec_witness :
  (invocations (run (tick demo_invoker 0 None (demo_at 12 1)) (fresh_db demo_rows demo_functions)).2).*1
    = [("t1"%string, demo_at 12 0)] ∧
  NextRunAt <$> triggers (run (tick demo_invoker 0 None (demo_at 12 1)) (fresh_db demo_rows demo_functions)).2
    = [Some (demo_at 12 5); Some (demo_at 13 0)].
Proof.
  destruct (tick_spec demo_invoker 0 (demo_at 12 1) (fresh_db demo_rows demo_functions)) as (Hi & Ht & _).
  { apply (bool_decide_unpack _). vm_compute. exact I. }
  rewrite Hi, Ht. split; vm_compute; reflexivity.
Defined.
