(* ===== verification/Aggregator.v ===== *)
(** * Aggregation of trigger events
      ([core/pkg/serverless/aggregator/aggregator.go])

    Buffers of events per (namespace, function, trigger), flushed when a timer
    fires, when a batch is full or at shutdown.  Every operation holds the
    mutex; a timer of [time.AfterFunc] is first armed, then fires, and its
    callback runs later, when it gets the mutex.  [Stop] disarms a timer that
    has not fired and cannot take back a callback that waits.

    The flush function a caller hands in is a value of an abstract type [F]:
    what matters is which one is called with which events.  The only failure of
    [json.Marshal] on a batch is event data that is not JSON, which is the
    argument [raw_ok].  Goroutines that were started are listed in the order of
    their start. *)

From Stdlib Require Import ZArith Lia String.
From stdpp Require Import base tactics numbers list gmap strings countable.
From S2P Require Import Prelude.

Definition DefaultMaxBatchSize : Z := 100.

Record Event := mkEvent {
  Topic : string;
  Data : string;
  Namespace : string;
  TriggerDepth : Z;
  Timestamp : Z
}.

Inductive FlushReason := FlushReasonTimer | FlushReasonSize | FlushReasonShutdown.

Record bufferKey := mkKey {
  key_Namespace : string;
  key_FunctionID : string;
  key_TriggerID : string
}.

#[global] Instance bufferKey_eq_dec : EqDecision bufferKey.
Proof. solve_decision. Defined.

#[global] Instance bufferKey_countable : Countable bufferKey.
Proof.
  refine (inj_countable' (λ k, (key_Namespace k, key_FunctionID k, key_TriggerID k))
            (λ '(n, f, t), mkKey n f t) _).
  by intros [].
Defined.

Section Aggregator.
Context {F : Type}.

Record bufferEntry := mkEntry {
  events : list Event;
  timer : option nat;
  windowMs : Z;
  maxBatch : Z;
  flushFn : F
}.

(** A batch that left its buffer: handed to the flush function, or given up
    because it could not be marshalled. *)
Record batch := mkBatch {
  b_key : bufferKey;
  b_events : list Event;
  b_reason : FlushReason;
  b_flushFn : F;
  b_max : Z;
  b_sent : bool
}.

(** [armed] holds the timers that have not fired, [fired] the callbacks that
    have not run. *)
Record Aggregator := mkAggregator {
  buffers : gmap bufferKey bufferEntry;
  armed : gmap nat (time * bufferKey);
  fired : list (nat * bufferKey);
  next_timer : nat;
  batches : list batch
}.

Definition New : Aggregator := mkAggregator ∅ ∅ [] 0 [].

Record BufferRequest := mkRequest {
  req_Namespace : string;
  req_FunctionID : string;
  req_TriggerID : string;
  req_WindowMs : Z;
  req_MaxBatchSize : Z;
  req_FlushFn : F;
  req_Event : Event
}.

Definition req_key (req : BufferRequest) : bufferKey :=
  mkKey (req_Namespace req) (req_FunctionID req) (req_TriggerID req).

Context (raw_ok : string → bool).

(** [entry.timer.Stop()]. *)
Definition stop_timer (t : option nat) (a : Aggregator) : Aggregator :=
  match t with
  | Some id => mkAggregator (buffers a) (delete id (armed a)) (fired a) (next_timer a) (batches a)
  | None => a
  end.

Definition flushLocked (key : bufferKey) (entry : bufferEntry) (reason : FlushReason) (a : Aggregator) : Aggregator :=
  let a := stop_timer (timer entry) a in
  match events entry with
  | [] => mkAggregator (delete key (buffers a)) (armed a) (fired a) (next_timer a) (batches a)
  | evs =>
      let sent := forallb (λ e, raw_ok (Data e)) evs in
      mkAggregator (delete key (buffers a)) (armed a) (fired a) (next_timer a)
        (batches a ++ [mkBatch key evs reason (flushFn entry) (maxBatch entry) sent])
  end.

(** The event goes to the buffer of its key, which is created when needed; the
    first event of a window starts the timer. *)
Definition append_event (now : time) (req : BufferRequest) (max : Z) (a : Aggregator) : bufferEntry * Aggregator :=
  let key := req_key req in
  let entry := match buffers a !! key with
               | Some entry => entry
               | None => mkEntry [] None (req_WindowMs req) max (req_FlushFn req)
               end in
  let evs := events entry ++ [req_Event req] in
  let '(t, a) := match timer entry with
                 | Some id => (id, a)
                 | None =>
                     let id := next_timer a in
                     (id, mkAggregator (buffers a)
                            (<[id := ((now + windowMs entry * Millisecond)%Z, key)]> (armed a))
                            (fired a) (S id) (batches a))
                 end in
  let entry := mkEntry evs (Some t) (windowMs entry) (maxBatch entry) (flushFn entry) in
  (entry, mkAggregator (<[key := entry]> (buffers a)) (armed a) (fired a) (next_timer a) (batches a)).

(** [None] is the panic. *)
Definition Buffer (now : time) (req : BufferRequest) (a : Aggregator) : option Aggregator :=
  if (req_WindowMs req <=? 0)%Z then None
  else
    let max := if (req_MaxBatchSize req <=? 0)%Z then DefaultMaxBatchSize else req_MaxBatchSize req in
    let '(entry, a) := append_event now req max a in
    Some (if (maxBatch entry <=? Z.of_nat (length (events entry)))%Z
          then flushLocked (req_key req) entry FlushReasonSize a else a).

Definition flushByTimer (key : bufferKey) (a : Aggregator) : Aggregator :=
  match buffers a !! key with
  | None => a
  | Some entry =>
      match events entry with
      | [] => mkAggregator (delete key (buffers a)) (armed a) (fired a) (next_timer a) (batches a)
      | _ => flushLocked key entry FlushReasonTimer a
      end
  end.

(** The loop of [Shutdown] over the keys, in the order of the visit. *)
Fixpoint drain (keys : list bufferKey) (a : Aggregator) : Aggregator :=
  match keys with
  | [] => a
  | k :: keys' =>
      match buffers a !! k with
      | None => drain keys' a
      | Some entry => drain keys' (flushLocked k entry FlushReasonShutdown (stop_timer (timer entry) a))
      end
  end.

Definition Shutdown (keys : list bufferKey) (a : Aggregator) : Aggregator := drain keys a.

Definition Stats (a : Aggregator) : nat * nat :=
  (size (buffers a), map_fold (λ _ e n, length (events e) + n) 0 (buffers a)).

(** ** Executions *)

Inductive agg_op :=
| OpBuffer (now : time) (req : BufferRequest)
| OpFire (now : time) (id : nat)
| OpCallback (id : nat)
| OpShutdown (keys : list bufferKey).

(** One operation; [None] when it cannot happen. *)
Definition agg_step (op : agg_op) (a : Aggregator) : option Aggregator :=
  match op with
  | OpBuffer now req => Buffer now req a
  | OpFire now id =>
      '(deadline, key) ← armed a !! id;
      if (deadline <=? now)%Z
      then Some (mkAggregator (buffers a) (delete id (armed a)) (fired a ++ [(id, key)]) (next_timer a) (batches a))
      else None
  | OpCallback id =>
      '(i, (_, key)) ← list_find (λ c, c.1 = id) (fired a);
      Some (flushByTimer key (mkAggregator (buffers a) (armed a) (delete i (fired a)) (next_timer a) (batches a)))
  | OpShutdown keys =>
      if decide (keys ≡ₚ (map_to_list (buffers a)).*1) then Some (Shutdown keys a) else None
  end.

Fixpoint agg_exec (ops : list agg_op) (a : Aggregator) : option Aggregator :=
  match ops with
  | [] => Some a
  | op :: ops' => a' ← agg_step op a; agg_exec ops' a'
  end.

(** What was handed in for a key, what left its buffer, what is still in it. *)
Definition submitted (k : bufferKey) (ops : list agg_op) : list Event :=
  omap (λ op, match op with
              | OpBuffer _ req => if decide (req_key req = k) then Some (req_Event req) else None
              | _ => None
              end) ops.

Definition left_buffer (k : bufferKey) (a : Aggregator) : list Event :=
  concat (b_events <$> filter (λ b, b_key b = k) (batches a)).

Definition pending (k : bufferKey) (a : Aggregator) : list Event :=
  default [] (events <$> buffers a !! k).

(** ** The invariant

    A buffer is never empty and never full, and its timer is armed or its
    callback waits: no event is stranded. *)

Definition timer_live (k : bufferKey) (id : nat) (a : Aggregator) : Prop :=
  (∃ deadline, armed a !! id = Some (deadline, k)) ∨ (id, k) ∈ fired a.

(** [full] is a buffer that is about to be flushed. *)
Definition entry_ok (full : option bufferKey) (k : bufferKey) (e : bufferEntry) (a : Aggregator) : Prop :=
  events e ≠ [] ∧ (Z.of_nat (length (events e)) ≤ maxBatch e)%Z ∧
  ∃ id, timer e = Some id ∧ id < next_timer a ∧
    (full ≠ Some k → (Z.of_nat (length (events e)) < maxBatch e)%Z ∧ timer_live k id a).

Definition batch_ok (b : batch) : Prop :=
  b_events b ≠ [] ∧ (Z.of_nat (length (b_events b)) ≤ b_max b)%Z ∧
  b_sent b = forallb (λ e, raw_ok (Data e)) (b_events b).

Record agg_inv (full : option bufferKey) (a : Aggregator) : Prop := {
  inv_entries : ∀ k e, buffers a !! k = Some e → entry_ok full k e a;
  inv_timers : ∀ k1 k2 e1 e2 id, buffers a !! k1 = Some e1 → buffers a !! k2 = Some e2 →
    timer e1 = Some id → timer e2 = Some id → k1 = k2;
  inv_batches : Forall batch_ok (batches a)
}.

(** Taking one buffer out: its timer is disarmed, the others keep theirs. *)
Lemma flushLocked_inv key e reason a :
  agg_inv (Some key) a → buffers a !! key = Some e → agg_inv None (flushLocked key e reason a).
Proof.
  intros [H1 H2 H3] He. destruct (H1 _ _ He) as (Hne & Hlen & id & Ht & Hid & _).
  unfold flushLocked. rewrite Ht. cbn [stop_timer]. destruct (events e) as [| ev evs] eqn:Hev; [done |].
  split; cbn.
  - intros k' e' Hk'. apply lookup_delete_Some in Hk' as [Hne' Hk'].
    destruct (H1 _ _ Hk') as (Hn' & Hl' & id' & Ht' & Hid' & Hrest).
    destruct (Hrest ltac:(congruence)) as [Hlt' Hlive]. split; [done |]. split; [done |].
    exists id'. split; [done |]. split; [done |]. intros _. split; [done |].
    destruct Hlive as [[dl Hdl] | Hf]; [left | by right].
    exists dl. cbn. rewrite lookup_delete_ne; [done |]. intros ->. apply Hne'. by eapply H2.
  - intros k1 k2 e1 e2 id' Hk1 Hk2. apply lookup_delete_Some in Hk1 as [_ Hk1]. apply lookup_delete_Some in Hk2 as [_ Hk2].
    by eapply H2.
  - apply Forall_app_2; [done |]. constructor; [| constructor]. cbn in *. split; [done |]. split; [cbn; lia | done].
Qed.

Lemma flushLocked_split k key e reason a :
  buffers a !! key = Some e →
  left_buffer k (flushLocked key e reason a) ++ pending k (flushLocked key e reason a)
  = left_buffer k a ++ pending k a.
Proof.
  intros He. unfold flushLocked.
  assert (buffers (stop_timer (timer e) a) = buffers a ∧ batches (stop_timer (timer e) a) = batches a) as [Hb Hl]
    by (by destruct (timer e)).
  assert (pending k a = if decide (k = key) then events e else pending k a) as Hp.
  { case_decide as E; [| done]. unfold pending. by rewrite E, He. }
  destruct (events e) as [| ev evs] eqn:Hev; unfold left_buffer, pending in *; cbn [buffers batches]; rewrite Hb, Hl.
  - f_equal. destruct (decide (k = key)) as [-> | E]; [by rewrite lookup_delete_eq, Hp |].
    by rewrite lookup_delete_ne.
  - rewrite list.filter_app, fmap_app, concat_app, <- app_assoc. f_equal.
    destruct (decide (k = key)) as [-> | E].
    + rewrite lookup_delete_eq, Hp, filter_cons, decide_True by done. cbn. by rewrite !app_nil_r.
    + rewrite lookup_delete_ne, filter_cons, decide_False by (cbn; congruence). done.
Qed.

(** A flush touches neither the callbacks nor the counter. *)
Lemma flushLocked_timers key e reason a :
  fired (flushLocked key e reason a) = fired a ∧ next_timer (flushLocked key e reason a) = next_timer a ∧
  buffers (flushLocked key e reason a) = delete key (buffers a).
Proof. unfold flushLocked. by destruct (timer e), (events e). Qed.

Lemma append_event_inv now req max a :
  agg_inv None a → (0 < max)%Z →
  let '(e, a') := append_event now req max a in
  buffers a' !! req_key req = Some e ∧ agg_inv (Some (req_key req)) a' ∧
  ∀ id, timer e = Some id → timer_live (req_key req) id a'.
Proof.
  intros [H1 H2 H3] Hmax. unfold append_event. set (key := req_key req).
  destruct (buffers a !! key) as [e |] eqn:He; cbn [timer events].
  - destruct (H1 _ _ He) as (Hne & Hlen & id & Ht & Hid & Hrest). destruct (Hrest ltac:(done)) as [Hlt Hlive]. rewrite Ht.
    split; [cbn; by rewrite lookup_insert_eq |]. split; [| by intros id' [= <-]]. split; cbn; [| | done].
    + intros k e' Hk. apply lookup_insert_Some in Hk as [[<- <-] | [Hk' Hk]].
      * split; [cbn; by destruct (events e) |]. cbn [events maxBatch timer next_timer]. rewrite length_app. cbn [length].
        split; [lia |]. by exists id.
      * destruct (H1 _ _ Hk) as (Hn' & Hl' & id' & Ht' & Hid' & Hrest'). split; [done |]. split; [done |].
        exists id'. auto.
    + intros k1 k2 e1 e2 id' Hk1 Hk2 Ht1 Ht2.
      apply lookup_insert_Some in Hk1 as [[<- <-] | [Hn1 Hk1]]; apply lookup_insert_Some in Hk2 as [[<- <-] | [Hn2 Hk2]];
        cbn in *; simplify_eq; eauto.
  - assert (∀ k e, buffers a !! k = Some e → ∃ id, timer e = Some id ∧ id < next_timer a) as Hold.
    { intros k e Hk. destruct (H1 _ _ Hk) as (_ & _ & id' & Ht' & Hid' & _). eauto. }
    split; [cbn; by rewrite lookup_insert_eq |]. split.
    2: { intros id' [= <-]. left. eexists. cbn. by rewrite lookup_insert_eq. }
    split; cbn; [| | done].
    + intros k e' Hk. apply lookup_insert_Some in Hk as [[<- <-] | [Hk' Hk]].
      * split; [done |]. split; [cbn; lia |]. exists (next_timer a). split; [done |]. split; [cbn; lia | done].
      * destruct (H1 _ _ Hk) as (Hn' & Hl' & id' & Ht' & Hid' & Hrest'). destruct (Hrest' ltac:(done)) as [Hlt Hlive].
        split; [done |]. split; [done |]. exists id'. split; [done |]. split; [cbn; lia |]. intros _. split; [done |].
        destruct Hlive as [[dl Hdl] | Hf]; [left; exists dl | by right]. cbn. rewrite lookup_insert_ne; [done | lia].
    + intros k1 k2 e1 e2 id' Hk1 Hk2 Ht1 Ht2.
      apply lookup_insert_Some in Hk1 as [[<- <-] | [Hn1 Hk1]]; apply lookup_insert_Some in Hk2 as [[<- <-] | [Hn2 Hk2]];
        cbn in *; simplify_eq; [done | destruct (Hold _ _ Hk2) as (? & ? & ?) | destruct (Hold _ _ Hk1) as (? & ? & ?) |];
        [by simplify_eq; lia.. | by eapply H2].
Qed.

Lemma append_event_split now req max a k :
  let a' := (append_event now req max a).2 in
  left_buffer k a' ++ pending k a'
  = (left_buffer k a ++ pending k a) ++ (if decide (req_key req = k) then [req_Event req] else []).
Proof.
  unfold append_event. set (key := req_key req).
  destruct (buffers a !! key) as [e |] eqn:He; cbn [timer events];
    [destruct (timer e) |]; unfold left_buffer, pending; cbn [fst snd buffers batches events];
    rewrite <- app_assoc; f_equal;
    (destruct (decide (key = k)) as [<- | E];
     [by rewrite lookup_insert_eq, He | by rewrite lookup_insert_ne, app_nil_r]).
Qed.

Lemma agg_inv_weaken full a : agg_inv None a → agg_inv full a.
Proof.
  intros [H1 H2 H3]. split; [| done | done]. intros k e Hk. destruct (H1 _ _ Hk) as (? & ? & id & ? & ? & ?).
  split; [done |]. split; [done |]. exists id. auto.
Qed.

Lemma Buffer_inv now req a a' :
  agg_inv None a → Buffer now req a = Some a' →
  agg_inv None a' ∧
  ∀ k, left_buffer k a' ++ pending k a'
       = (left_buffer k a ++ pending k a) ++ (if decide (req_key req = k) then [req_Event req] else []).
Proof.
  intros Hinv. unfold Buffer. destruct (Z.leb_spec (req_WindowMs req) 0); [done |].
  set (max := if (req_MaxBatchSize req <=? 0)%Z then _ else _).
  assert (0 < max)%Z as Hmax by (unfold max, DefaultMaxBatchSize; destruct (Z.leb_spec (req_MaxBatchSize req) 0); lia).
  pose proof (append_event_inv now req max a Hinv Hmax) as Happ.
  pose proof (append_event_split now req max a) as Hsplit.
  destruct (append_event now req max a) as [e a1]. destruct Happ as (He & Hinv1 & Hlive). cbn in Hsplit.
  intros [= <-]. destruct (Z.leb_spec (maxBatch e) (Z.of_nat (length (events e)))).
  - split; [by apply flushLocked_inv |]. intros k. rewrite flushLocked_split by done. apply Hsplit.
  - split; [| done]. destruct Hinv1 as [H1 H2 H3]. split; [| done | done].
    intros k e' Hk. destruct (H1 _ _ Hk) as (Hn & Hl & id & Ht & Hid & Hrest). split; [done |]. split; [done |].
    exists id. split; [done |]. split; [done |]. intros _.
    destruct (decide (k = req_key req)) as [-> |]; [simplify_eq; auto | apply Hrest; congruence].
Qed.

(** A state that differs in its timers only. *)
Lemma timers_moved full a arm fir :
  agg_inv None a →
  (∀ k id, full ≠ Some k → timer_live k id a →
     timer_live k id (mkAggregator (buffers a) arm fir (next_timer a) (batches a))) →
  agg_inv full (mkAggregator (buffers a) arm fir (next_timer a) (batches a)).
Proof.
  intros [H1 H2 H3] Hmove. split; [| done | done]. intros k e Hk.
  destruct (H1 _ _ Hk) as (Hn & Hl & id & Ht & Hid & Hrest). destruct (Hrest ltac:(done)) as [Hlt Hlive].
  split; [done |]. split; [done |]. exists id. split; [done |]. split; [done |]. intros Hk'. auto.
Qed.

(** The step neither loses nor invents events. *)
Definition conserves (a a' : Aggregator) : Prop :=
  ∀ k, left_buffer k a' ++ pending k a' = left_buffer k a ++ pending k a.

Lemma fire_inv id deadline key a :
  agg_inv None a → armed a !! id = Some (deadline, key) →
  agg_inv None (mkAggregator (buffers a) (delete id (armed a)) (fired a ++ [(id, key)]) (next_timer a) (batches a)).
Proof.
  intros Hinv Harm. apply timers_moved; [done |]. intros k id' _ [[dl Hdl] | Hf]; cbn.
  - destruct (decide (id' = id)) as [-> | Hne].
    + right. cbn. rewrite Harm in Hdl. simplify_eq. apply elem_of_app. right. by apply list_elem_of_singleton.
    + left. exists dl. cbn. by rewrite lookup_delete_ne.
  - right. cbn. apply elem_of_app. by left.
Qed.

Lemma callback_inv i id key a :
  agg_inv None a → fired a !! i = Some (id, key) →
  let a1 := mkAggregator (buffers a) (armed a) (delete i (fired a)) (next_timer a) (batches a) in
  agg_inv None (flushByTimer key a1) ∧ conserves a (flushByTimer key a1).
Proof.
  intros Hinv Hi a1.
  assert (agg_inv (Some key) a1) as Hinv1.
  { apply timers_moved; [done |]. intros k id0 Hk [Hl | Hl]; [by left | right]. cbn.
    eapply elem_of_delete_other; [done | done | congruence]. }
  unfold flushByTimer. destruct (buffers a1 !! key) as [e |] eqn:He.
  - destruct (inv_entries _ _ Hinv1 _ _ He) as (Hne & _). destruct (events e) eqn:Hev; [done |].
    split; [by apply flushLocked_inv |]. intros k. by rewrite flushLocked_split.
  - split; [| done]. destruct Hinv1 as [H1 H2 H3]. split; [| done | done].
    intros k e Hk. destruct (H1 _ _ Hk) as (Hn & Hl & id0 & Ht & Hid & Hrest). split; [done |]. split; [done |].
    exists id0. split; [done |]. split; [done |]. intros _. apply Hrest. intros [= ->]. congruence.
Qed.

(** Stopping the timer before the flush changes nothing. *)
Lemma flushLocked_stopped key e reason a :
  flushLocked key e reason (stop_timer (timer e) a) = flushLocked key e reason a.
Proof.
  unfold flushLocked. destruct (timer e) as [id |]; [| done]. cbn [stop_timer]. cbn. by rewrite delete_delete_eq.
Qed.

Lemma drain_inv keys a :
  agg_inv None a →
  agg_inv None (drain keys a) ∧ conserves a (drain keys a) ∧
  buffers (drain keys a) = filter (λ kv, kv.1 ∉ keys) (buffers a).
Proof.
  revert a. induction keys as [| key keys IH]; intros a Hinv; cbn [drain].
  { split; [done |]. split; [done |]. symmetry. apply map_filter_id. intros k e _. cbn. apply not_elem_of_nil. }
  destruct (buffers a !! key) as [e |] eqn:He.
  - rewrite flushLocked_stopped.
    destruct (IH (flushLocked key e FlushReasonShutdown a)) as (Hi & Hs & Hb);
      [apply flushLocked_inv; [by apply agg_inv_weaken | done] |].
    split; [done |]. split; [intros k; rewrite Hs; by apply flushLocked_split |].
    rewrite Hb. destruct (flushLocked_timers key e FlushReasonShutdown a) as (_ & _ & ->).
    apply map_eq. intros k. apply option_eq. intros e'. rewrite !map_lookup_filter_Some, lookup_delete_Some. cbn.
    rewrite not_elem_of_cons. naive_solver.
  - destruct (IH a Hinv) as (Hi & Hs & Hb). split; [done |]. split; [done |]. rewrite Hb.
    apply map_filter_ext. intros k e' Hk. cbn. rewrite not_elem_of_cons. split; [| tauto].
    intros H. split; [congruence | done].
Qed.

Lemma agg_step_inv op a a' :
  agg_inv None a → agg_step op a = Some a' →
  agg_inv None a' ∧ ∀ k, left_buffer k a' ++ pending k a' = (left_buffer k a ++ pending k a) ++ submitted k [op].
Proof.
  intros Hinv. destruct op as [now req | now id | id | keys]; cbn [agg_step].
  - intros H. destruct (Buffer_inv _ _ _ _ Hinv H) as [Hi Hs]. split; [done |]. intros k. rewrite Hs. cbn.
    by case_decide.
  - destruct (armed a !! id) as [[deadline key] |] eqn:Harm; cbn; [| done].
    destruct (deadline <=? now)%Z; [| done]. intros [= <-]. split; [| intros k; by rewrite app_nil_r].
    by eapply fire_inv.
  - destruct (list_find _ (fired a)) as [[i [id' key]] |] eqn:Hf; cbn; [| done]. intros [= <-].
    apply list_find_Some in Hf as (Hi & _ & _). destruct (callback_inv _ _ _ _ Hinv Hi) as [H1 H2].
    split; [done |]. intros k. by rewrite H2, app_nil_r.
  - case_decide; [| done]. intros [= <-]. destruct (drain_inv keys a Hinv) as (H1 & H2 & _).
    split; [done |]. intros k. unfold Shutdown. by rewrite H2, app_nil_r.
Qed.

Lemma agg_exec_inv ops a a' :
  agg_inv None a → agg_exec ops a = Some a' →
  agg_inv None a' ∧ ∀ k, left_buffer k a' ++ pending k a' = (left_buffer k a ++ pending k a) ++ submitted k ops.
Proof.
  revert a. induction ops as [| op ops IH]; intros a Hinv; cbn [agg_exec].
  { intros [= <-]. split; [done |]. intros k. by rewrite app_nil_r. }
  intros (a1 & H1 & H2)%bind_Some. destruct (agg_step_inv _ _ _ Hinv H1) as [Hi1 Hs1].
  destruct (IH _ Hi1 H2) as [Hi2 Hs2]. split; [done |]. intros k. rewrite Hs2, Hs1, <- app_assoc. f_equal.
  unfold submitted. cbn [omap list_omap]. by destruct (match op with OpBuffer _ _ => _ | _ => _ end).
Qed.

Lemma New_inv : agg_inv None New.
Proof. split; cbn; [by intros k e Hk | by intros k1 k2 e1 e2 id Hk | constructor]. Qed.
End Aggregator.
#[global] Arguments Aggregator : clear implicits.
#[global] Arguments bufferEntry : clear implicits.
#[global] Arguments batch : clear implicits.
#[global] Arguments BufferRequest : clear implicits.
#[global] Arguments agg_op : clear implicits.

(** ** Properties *)

(** C18: however callers, timers and shutdowns interleave, the events of a
    trigger leave its buffer exactly once and in the order they came; no batch
    is empty or larger than its limit; a batch is handed over unless some of
    its data is not JSON; and what is still buffered has a timer that is armed
    or a callback that waits, so nothing is stranded. *)
Theorem aggregator_conserves {F : Type} (raw_ok : string → bool) (ops : list (agg_op F)) (a : Aggregator F) :
  agg_exec raw_ok ops New = Some a →
  (∀ k, submitted k ops = left_buffer k a ++ pending k a) ∧
  Forall (λ b, b_events b ≠ [] ∧ (Z.of_nat (length (b_events b)) ≤ b_max b)%Z ∧
               b_sent b = forallb (λ e, raw_ok (Data e)) (b_events b)) (batches a) ∧
  (∀ k e, buffers a !! k = Some e →
     events e ≠ [] ∧ (Z.of_nat (length (events e)) < maxBatch e)%Z ∧
     ∃ id, timer e = Some id ∧ ((∃ deadline, armed a !! id = Some (deadline, k)) ∨ (id, k) ∈ fired a)).
Proof.
  intros H. destruct (agg_exec_inv raw_ok ops New a (New_inv raw_ok) H) as [[H1 H2 H3] Hs].
  split; [intros k; by rewrite Hs |]. split; [done |]. intros k e Hk.
  destruct (H1 _ _ Hk) as (Hn & _ & id & Ht & _ & Hrest). destruct (Hrest ltac:(done)) as [Hlt Hlive]. eauto.
Qed.

(** After a shutdown every event that was handed in has left in a batch. *)
Theorem shutdown_drains {F : Type} (raw_ok : string → bool) (ops : list (agg_op F)) keys (a : Aggregator F) :
  agg_exec raw_ok (ops ++ [OpShutdown keys]) New = Some a →
  buffers a = ∅ ∧ ∀ k, submitted k ops = left_buffer k a.
Proof.
  intros H.
  assert (∃ a1, agg_exec raw_ok ops New = Some a1 ∧ agg_step raw_ok (OpShutdown keys) a1 = Some a) as (a1 & H1 & H2).
  { revert H. generalize (@New F). induction ops as [| op ops IH]; intros a0; cbn [agg_exec app].
    - intros (a1 & H1 & [= <-])%bind_Some. eauto.
    - intros (a1 & H1 & H2)%bind_Some. destruct (IH _ H2) as (a2 & H3 & H4). exists a2.
      split; [| done]. by rewrite H1. }
  destruct (agg_exec_inv raw_ok ops New a1 (New_inv raw_ok) H1) as [Hinv Hs].
  cbn in H2. case_decide as Hkeys; [| done]. injection H2 as <-.
  destruct (drain_inv raw_ok keys a1 Hinv) as (_ & Hc & Hb).
  assert (buffers (Shutdown raw_ok keys a1) = ∅) as Hempty.
  { unfold Shutdown. rewrite Hb. apply map_empty. intros k. apply map_lookup_filter_None. right. intros e He Hni.
    apply Hni. cbn. rewrite Hkeys. apply list_elem_of_fmap. exists (k, e). split; [done |]. by apply elem_of_map_to_list. }
  split; [done |]. intros k. specialize (Hc k). specialize (Hs k). unfold Shutdown in *.
  unfold pending in Hc at 1. rewrite Hempty, lookup_empty in Hc. cbn in Hc. rewrite app_nil_r in Hc.
  rewrite Hc, Hs. done.
Qed.

(** *** Concrete executions: the flush function is the name of a function *)

Definition demo_event (d : string) : Event := mkEvent "presence:u1" d "alice" 1 0.

Definition demo_request (max : Z) (d : string) : BufferRequest string :=
  mkRequest "alice" "f1" "t1" 1000 max "sweep" (demo_event d).

(** Everything but the empty text counts as JSON. *)
Definition demo_raw_ok (d : string) : bool := negb (String.eqb d EmptyString).

Definition demo_ops : list (agg_op string) :=
  [ OpBuffer 0 (demo_request 2 "1"); OpBuffer (1 * Second)%Z (demo_request 2 "2"); OpBuffer (2 * Second)%Z (demo_request 2 "3") ].

Lemma aggregator_conserves_witness :
  ∃ a, agg_exec demo_raw_ok demo_ops New = Some a ∧
    left_buffer (mkKey "alice" "f1" "t1") a = [demo_event "1"; demo_event "2"] ∧
    pending (mkKey "alice" "f1" "t1") a = [demo_event "3"] ∧
    submitted (mkKey "alice" "f1" "t1") demo_ops
      = left_buffer (mkKey "alice" "f1" "t1") a ++ pending (mkKey "alice" "f1" "t1") a.
Proof.
  destruct (agg_exec demo_raw_ok demo_ops New) as [a |] eqn:Ha; [| vm_compute in Ha; discriminate].
  exists a. split; [reflexivity |].
  pose proof (proj1 (aggregator_conserves demo_raw_ok demo_ops a Ha)) as H.
  vm_compute in Ha. injection Ha as <-. split; [vm_compute; reflexivity |]. split; [vm_compute; reflexivity | apply H].
Defined.

Lemma shutdown_drains_witness :
  ∃ a, agg_exec demo_raw_ok (demo_ops ++ [OpShutdown [mkKey "alice" "f1" "t1"]]) New = Some a ∧
    buffers a = ∅ ∧ (length ∘ b_events) <$> batches a = [2; 1].
Proof.
  destruct (agg_exec demo_raw_ok (demo_ops ++ [OpShutdown [mkKey "alice" "f1" "t1"]]) New) as [a |] eqn:Ha;
    [| vm_compute in Ha; discriminate].
  exists a. split; [reflexivity |]. split; [exact (proj1 (shutdown_drains demo_raw_ok demo_ops _ a Ha)) |].
  vm_compute in Ha. injection Ha as <-. vm_compute. reflexivity.
Defined.

(** One event whose data is not JSON takes the batch it is in with it: none of
    the other events of the window reaches the function. *)
Theorem bad_event_drops_batch :
  ∃ a, agg_exec demo_raw_ok
         [ OpBuffer 0 (demo_request 3 "1"); OpBuffer 1 (demo_request 3 EmptyString); OpBuffer 2 (demo_request 3 "3") ]
         New = Some a ∧
    b_sent <$> batches a = [false] ∧ b_events <$> batches a = [[demo_event "1"; demo_event EmptyString; demo_event "3"]].
Proof. eexists. split; [vm_compute; reflexivity |]. split; vm_compute; reflexivity. Qed.

(** A callback that waited for the mutex while its batch was flushed by size
    flushes the next window as soon as it has begun. *)
Theorem stale_timer_flushes_early :
  ∃ a, agg_exec demo_raw_ok
         [ OpBuffer 0 (demo_request 2 "1"); OpFire (1 * Second)%Z 0; OpBuffer (1 * Second)%Z (demo_request 2 "2");
           OpBuffer (1 * Second)%Z (demo_request 2 "3"); OpCallback 0 ] New = Some a ∧
    buffers a = ∅ ∧ (b_reason <$> batches a = [FlushReasonSize; FlushReasonTimer]) ∧
    b_events <$> batches a = [[demo_event "1"; demo_event "2"]; [demo_event "3"]].
Proof. eexists. split; [vm_compute; reflexivity |]. split; [by apply map_eq |]. split; vm_compute; reflexivity. Qed.
