(* ===== verification/PubSubStore.v ===== *)
(** * PubSub triggers of functions ([core/pkg/serverless/triggers/pubsub_store.go])

    The table of PubSub triggers and the operations of its store as programs of
    [DbProg].  SQLite's GLOB operator is an argument ([sqlite_glob pattern
    topic]); the code filters its answer again with [PatternMatches]. *)

From Stdlib Require Import ZArith Lia String.
From stdpp Require Import base tactics numbers list sorting strings relations.
From S2P Require Import Prelude GoStrings Pattern DbProg CronTriggers.

Local Open Scope go_scope.

Record triggerRow := mkTrigger {
  tr_ID : string;
  tr_FunctionID : string;
  tr_TopicPattern : string;
  tr_Enabled : bool;
  tr_CreatedAt : time;
  tr_WindowMs : Z;
  tr_MaxBatchSize : Z
}.

Record ps_db := mkPsDb { ps_triggers : list triggerRow; ps_functions : list function_row }.

Inductive ps_error :=
| PsFunctionIDRequired
| PsTriggerIDRequired
| InvalidPattern (e : PatternError)
| BadWindow
| BadBatchSize
| PsTriggerNotFound (id : string)
| PsFailed (e : string).

Definition insert_ps (r : triggerRow) (d : ps_db) : result string ps_db :=
  if decide (tr_ID r ∈ tr_ID <$> ps_triggers d) then Err "UNIQUE constraint failed"%string
  else Ok (mkPsDb (ps_triggers d ++ [r]) (ps_functions d)).

Definition AddWithAggregation (id : string) (now : time) (functionID topicPattern : string) (windowMs maxBatch : Z)
    : prog ps_db (result ps_error string) :=
  if String.eqb functionID EmptyString then Ret (Err PsFunctionIDRequired)
  else match ValidatePattern topicPattern with
       | Err e => Ret (Err (InvalidPattern e))
       | Ok _ =>
           if ((windowMs <? 0) || (60000 <? windowMs))%Z then Ret (Err BadWindow)
           else if ((maxBatch <? 0) || (1000 <? maxBatch))%Z then Ret (Err BadBatchSize)
           else
             let maxBatch := if ((0 <? windowMs) && (maxBatch =? 0))%Z then 100%Z else maxBatch in
             Exec (insert_ps (mkTrigger id functionID topicPattern true now windowMs maxBatch)) (λ r,
               match r with
               | Ok _ => Ret (Ok id)
               | Err e => Ret (Err (PsFailed e))
               end)
       end.

Definition Add (id : string) (now : time) (functionID topicPattern : string) : prog ps_db (result ps_error string) :=
  AddWithAggregation id now functionID topicPattern 0 0.

Definition delete_ps (P : triggerRow → Prop) `{!∀ r, Decision (P r)} (d : ps_db) : nat * ps_db :=
  (length (filter P (ps_triggers d)), mkPsDb (filter (λ r, ¬ P r) (ps_triggers d)) (ps_functions d)).

Definition Remove (triggerID : string) : prog ps_db (result ps_error unit) :=
  if String.eqb triggerID EmptyString then Ret (Err PsTriggerIDRequired)
  else Update (delete_ps (λ r, tr_ID r = triggerID)) (λ res,
         match res with
         | Err e => Ret (Err (PsFailed e))
         | Ok O => Ret (Err (PsTriggerNotFound triggerID))
         | Ok (S _) => Ret (Ok tt)
         end).

Definition RemoveByFunction (functionID : string) : prog ps_db (result ps_error unit) :=
  if String.eqb functionID EmptyString then Ret (Err PsFunctionIDRequired)
  else Update (delete_ps (λ r, tr_FunctionID r = functionID)) (λ res,
         match res with
         | Err e => Ret (Err (PsFailed e))
         | Ok _ => Ret (Ok tt)
         end).

Record PubSubTrigger := mkPubSubTrigger {
  pt_ID : string;
  pt_FunctionID : string;
  pt_Topic : string;
  pt_Enabled : bool;
  pt_WindowMs : Z;
  pt_MaxBatchSize : Z
}.

Definition ListByFunction (functionID : string) : prog ps_db (result ps_error (list PubSubTrigger)) :=
  if String.eqb functionID EmptyString then Ret (Err PsFunctionIDRequired)
  else Query (λ d, filter (λ r, tr_FunctionID r = functionID) (ps_triggers d)) (λ res,
         match res with
         | Err e => Ret (Err (PsFailed e))
         | Ok rows => Ret (Ok ((λ r, mkPubSubTrigger (tr_ID r) (tr_FunctionID r) (tr_TopicPattern r) (tr_Enabled r)
                                       (tr_WindowMs r) (tr_MaxBatchSize r)) <$> rows))
         end).

(** The join with the active functions. *)
Definition live_function (d : ps_db) (r : triggerRow) : option function_row :=
  match list_find (λ f, f_id f = tr_FunctionID r) (ps_functions d) with
  | Some (_, f) => if tr_Enabled r && String.eqb (f_status f) "active" then Some f else None
  | None => None
  end.

Record DistinctTopicSubscription := mkSubscription {
  sub_Namespace : string;
  sub_TopicPattern : string;
  sub_Wildcard : bool
}.

Definition pair_le (x y : string * string) : Prop :=
  match String.compare x.1 y.1 with
  | Lt => True
  | Eq => String.leb x.2 y.2 = true
  | Gt => False
  end.
#[global] Instance pair_le_dec x y : Decision (pair_le x y).
Proof. unfold pair_le. destruct (String.compare _ _); apply _. Defined.

Definition distinct_patterns (d : ps_db) : list (string * string) :=
  merge_sort pair_le (remove_dups
    (omap (λ r, (λ f, (f_namespace f, tr_TopicPattern r)) <$> live_function d r) (ps_triggers d))).

Definition ListDistinctTopicPatterns : prog ps_db (result ps_error (list DistinctTopicSubscription)) :=
  Query distinct_patterns (λ res,
    match res with
    | Err e => Ret (Err (PsFailed e))
    | Ok rows => Ret (Ok ((λ '(ns, p), mkSubscription ns p (IsWildcard p)) <$> rows))
    end).

Record TriggerMatch := mkMatch {
  TriggerID : string;
  m_FunctionID : string;
  m_FunctionName : string;
  m_Namespace : string;
  m_Topic : string;
  TopicPattern : string;
  AggregationWindowMs : Z;
  AggregationMaxBatchSize : Z
}.

Section Glob.
Context (sqlite_glob : string → string → bool).

Definition glob_row (d : ps_db) (topic namespace : string) (r : triggerRow) : option TriggerMatch :=
  f ← live_function d r;
  if sqlite_glob (tr_TopicPattern r) topic && String.eqb (f_namespace f) namespace
  then Some (mkMatch (tr_ID r) (tr_FunctionID r) (f_name f) (f_namespace f) topic (tr_TopicPattern r)
               (tr_WindowMs r) (tr_MaxBatchSize r))
  else None.

Definition glob_rows (topic namespace : string) (d : ps_db) : list TriggerMatch :=
  omap (glob_row d topic namespace) (ps_triggers d).

(** The post-filter on segment boundaries. *)
Definition strict_matches (topic : string) (rows : list TriggerMatch) : list TriggerMatch :=
  filter (λ m, PatternMatches (TopicPattern m) topic = true) rows.

Definition topic_matches (d : ps_db) (topic namespace : string) : list TriggerMatch :=
  strict_matches topic (glob_rows topic namespace d).

Definition GetByTopicAndNamespace (topic namespace : string) : prog ps_db (result ps_error (list TriggerMatch)) :=
  if String.eqb topic EmptyString || String.eqb namespace EmptyString then Ret (Ok [])
  else Query (glob_rows topic namespace) (λ res,
         match res with
         | Err e => Ret (Err (PsFailed e))
         | Ok rows => Ret (Ok (strict_matches topic rows))
         end).

(** A match is a row of an enabled trigger of an active function of the
    namespace whose pattern accepts the topic. *)
Lemma topic_matches_elem d topic namespace m :
  m ∈ topic_matches d topic namespace →
  m_Topic m = topic ∧ m_Namespace m = namespace ∧ PatternMatches (TopicPattern m) topic = true ∧
  ∃ r f, r ∈ ps_triggers d ∧ f ∈ ps_functions d ∧ tr_Enabled r = true ∧ f_status f = "active"%string ∧
    f_id f = tr_FunctionID r ∧ tr_ID r = TriggerID m ∧ tr_TopicPattern r = TopicPattern m ∧
    tr_WindowMs r = AggregationWindowMs m ∧ tr_MaxBatchSize r = AggregationMaxBatchSize m.
Proof.
  unfold topic_matches, strict_matches. intros [Hp Hm]%list_elem_of_filter. apply list_elem_of_omap in Hm as (r & Hr & Hm).
  apply bind_Some in Hm as (f & Hf & Hm). destruct (sqlite_glob _ _ && String.eqb _ _) eqn:Hg; [| done].
  apply andb_true_iff in Hg as [_ Hns%String.eqb_eq]. injection Hm as <-. cbn in *.
  unfold live_function in Hf. destruct (list_find _ _) as [[i f'] |] eqn:Hfind; [| done].
  destruct (tr_Enabled r && String.eqb _ _) eqn:He; [| done]. injection Hf as ->.
  apply andb_true_iff in He as [He Hst%String.eqb_eq]. apply list_find_Some in Hfind as (Hi & Hid & _).
  repeat (split; [done |]). exists r, f. repeat (split; [by eauto using list_elem_of_lookup_2 |]). done.
Qed.
End Glob.

(** ** What every execution keeps *)

Definition row_wf (r : triggerRow) : Prop :=
  tr_FunctionID r ≠ EmptyString ∧ ValidatePattern (tr_TopicPattern r) = Ok tt ∧
  (0 ≤ tr_WindowMs r ≤ 60000)%Z ∧ (0 ≤ tr_MaxBatchSize r ≤ 1000)%Z ∧
  (0 < tr_WindowMs r → 1 ≤ tr_MaxBatchSize r)%Z.

Definition ps_inv (d : ps_db) : Prop := NoDup (tr_ID <$> ps_triggers d) ∧ Forall row_wf (ps_triggers d).

Lemma insert_ps_inv r d d' : row_wf r → ps_inv d → insert_ps r d = Ok d' → ps_inv d'.
Proof.
  intros Hr [Hnd Hall]. unfold insert_ps. case_decide as Hin; [done |]. intros [= <-]. split; cbn.
  - rewrite fmap_app. apply NoDup_app. split; [done |]. split; [| apply NoDup_singleton].
    by intros x Hx ->%list_elem_of_singleton.
  - apply Forall_app_2; [done | by constructor].
Qed.

Lemma delete_ps_inv (P : triggerRow → Prop) `{!∀ r, Decision (P r)} d : ps_inv d → ps_inv (delete_ps P d).2.
Proof.
  intros [Hnd Hall]. split; cbn.
  - eapply sublist_NoDup; [exact Hnd |]. apply fmap_sublist, sublist_filter.
  - apply Forall_forall. intros r [_ Hr]%list_elem_of_filter. rewrite Forall_forall in Hall. auto.
Qed.

Inductive ps_op :=
| PsAdd (id : string) (now : time) (functionID topicPattern : string) (windowMs maxBatch : Z)
| PsRemove (triggerID : string)
| PsRemoveByFunction (functionID : string)
| PsDeploy (fs : list function_row).

Definition ps_prog (op : ps_op) : prog ps_db (result ps_error unit) :=
  match op with
  | PsAdd id now functionID topicPattern w m =>
      do! r := AddWithAggregation id now functionID topicPattern w m in Ret (let! _ := r in Ok tt)
  | PsRemove triggerID => Remove triggerID
  | PsRemoveByFunction functionID => RemoveByFunction functionID
  | PsDeploy fs => Exec (λ d, Ok (mkPsDb (ps_triggers d) fs)) (λ _, Ret (Ok tt))
  end.

Lemma ps_prog_upholds op : upholds ps_inv (λ _, True) (ps_prog op).
Proof.
  destruct op as [id now functionID p w m | triggerID | functionID | fs]; cbn [ps_prog].
  - eapply upholds_bind with (Q := λ _, True); [| done]. unfold AddWithAggregation.
    destruct (String.eqb_spec functionID EmptyString); [done |].
    destruct (ValidatePattern p) as [[] |] eqn:Hp; [| done].
    destruct ((w <? 0) || (60000 <? w))%Z eqn:Hw; [done |]. destruct ((m <? 0) || (1000 <? m))%Z eqn:Hm; [done |].
    zbool. split; [| by intros []]. intros d d' Hd. apply insert_ps_inv; [| done].
    split; [done |]. split; [done |]. cbn. destruct (Z.ltb_spec 0 w), (Z.eqb_spec m 0); cbn; lia.
  - unfold Remove. destruct (String.eqb _ _); [done |]. split; [intros d; apply delete_ps_inv; apply _ |].
    by intros [[| n] | e].
  - unfold RemoveByFunction. destruct (String.eqb _ _); [done |]. split; [intros d; apply delete_ps_inv; apply _ |].
    by intros [n | e].
  - split; [| done]. by intros d d' Hd [= <-].
Qed.

(** C40: whatever gateways add and remove at the same time, every row of the
    table has a unique id, a valid pattern and limits in their documented
    ranges, so that a trigger that aggregates always has a batch limit between
    1 and 1000 and a window of at most a minute. *)
Theorem ps_rows_wf (sqlite_glob : string → string → bool) fs ops s topic namespace m :
  rtc sys_step (mkSys (mkPsDb [] fs) [] ((λ op, (op, ps_prog op)) <$> ops)) s →
  NoDup (tr_ID <$> ps_triggers (current s)) ∧ Forall row_wf (ps_triggers (current s)) ∧
  (m ∈ topic_matches sqlite_glob (current s) topic namespace → (0 < AggregationWindowMs m)%Z →
   (AggregationWindowMs m ≤ 60000)%Z ∧ (1 ≤ AggregationMaxBatchSize m ≤ 1000)%Z).
Proof.
  intros Hr.
  assert (ps_inv (current s)) as [Hnd Hall].
  { eapply (sys_reachable ps_inv (λ _ _, True)); [| | exact Hr]; [by split; constructor |].
    apply Forall_fmap, Forall_true. intros op. apply ps_prog_upholds. }
  split; [done |]. split; [done |]. intros Hm Hw.
  destruct (topic_matches_elem _ _ _ _ _ Hm) as (_ & _ & _ & r & f & Hr' & _ & _ & _ & _ & _ & _ & Ew & Em).
  rewrite Forall_forall in Hall. destruct (Hall _ Hr') as (_ & _ & ? & ? & ?). lia.
Qed.

(** Two gateways, one trigger without and one with aggregation. *)
Lemma ps_rows_wf_witness :
  ∃ s, rtc sys_step (mkSys (mkPsDb [] [mkFunction "f1" "sweep" "alice" "active"]) []
         ((λ op, (op, ps_prog op)) <$> [PsAdd "t1" 0 "f1" "presence:u1" 0 0; PsAdd "t2" 0 "f1" "presence:*" 500 0])) s ∧
    tr_MaxBatchSize <$> ps_triggers (current s) = [0; 100]%Z ∧ Forall row_wf (ps_triggers (current s)).
Proof.
  destruct (sys_run_all ((λ op, (op, ps_prog op)) <$>
              [PsAdd "t1" 0 "f1" "presence:u1" 0 0; PsAdd "t2" 0 "f1" "presence:*" 500 0])
              (mkPsDb [] [mkFunction "f1" "sweep" "alice" "active"])) as [h Hr].
  eexists. split; [exact Hr |]. split; [vm_compute; reflexivity |].
  exact (proj1 (proj2 (ps_rows_wf (λ _ _, true) _ _ _ EmptyString EmptyString
                         (mkMatch EmptyString EmptyString EmptyString EmptyString EmptyString EmptyString 0 0) Hr))).
Defined.
