(* ===== verification/Dispatcher.v ===== *)
(** * Dispatch of published messages to functions
      ([core/pkg/serverless/triggers/dispatcher.go],
      [core/pkg/serverless/hostfunctions/pubsub.go])

    A gateway node holds the local de-duplication cache ([Dedup]), the
    aggregator ([Aggregator]) and the set of topics it is subscribed to.  The
    nodes of a namespace share the trigger table ([PubSubStore]) and a
    distributed map, whose [Put] with NX and EX is the interface [DMap].

    Arguments: the hash of a payload, [raw_ok] (the data is JSON, what
    [json.Marshal] of a raw message requires), SQLite's GLOB, and per call the
    clocks that are read and the answer of the database.  Invocations started
    as goroutines are listed in the order of their start. *)

From Stdlib Require Import ZArith Lia Ascii String.
From stdpp Require Import base tactics numbers list gmap strings.
From S2P Require Import Prelude GoStrings Pattern DbProg CronTriggers PubSubStore Aggregator Dedup.

Definition maxTriggerDepth : Z := 5.
Definition dispatchDedupTTL : duration := (30 * Second)%Z.

(** ** The shared map *)

Inductive put_answer := PutOk | PutKeyFound | PutError (e : string).

Class DMap := {
  dmap : Type;
  put_nx : time → string → duration → dmap → put_answer * dmap;
  expiry : string → dmap → option time
}.

(** What the map promises: [Put] with NX writes only when the key is absent or
    expired, EX sets when it expires, and other keys are not touched.  A [Put]
    that answers an error may have happened. *)
Class DMapLaws `{!DMap} : Prop := {
  put_ok now k t m m' : put_nx now k t m = (PutOk, m') →
    (∀ e, expiry k m = Some e → (e ≤ now)%Z) ∧ expiry k m' = Some (now + t)%Z;
  put_found now k t m m' : put_nx now k t m = (PutKeyFound, m') → expiry k m' = expiry k m;
  put_error now k t m m' err : put_nx now k t m = (PutError err, m') →
    expiry k m' = expiry k m ∨ (∀ e, expiry k m = Some e → (e ≤ now)%Z) ∧ expiry k m' = Some (now + t)%Z;
  put_other now k k' t m : k' ≠ k → expiry k' (put_nx now k t m).2 = expiry k' m
}.

(** The client of a node: absent, without access to the map, or connected. *)
Inductive olric_client := NoClient | NewDMapFails | Connected.

Record PubSubEvent := mkPubSubEvent {
  ev_Topic : string;
  ev_Data : string;
  ev_Namespace : string;
  ev_TriggerDepth : Z;
  ev_Timestamp : Z
}.

Record invocation := mkInvocation {
  i_Namespace : string;
  i_FunctionName : string;
  i_Input : PubSubEvent;
  i_TriggerDepth : Z
}.

(** The closure handed to the aggregator: what it captures. *)
Record flush_fn := mkFlush { ff_match : TriggerMatch; ff_TriggerDepth : Z }.

Record node := mkNode {
  localDedup : localDedupCache;
  aggregator : Aggregator flush_fn;
  subscribedKeys : gset string;
  launched : list invocation
}.

Definition NewPubSubDispatcher : node := mkNode newLocalDedupCache New ∅ [].

(** One call: its arguments, the clocks of the node and of the map, the answer
    of the database. *)
Record call := mkCall {
  c_now : time;
  c_store_now : time;
  c_unix : Z;
  c_client : olric_client;
  c_db : result string ps_db;
  c_namespace : string;
  c_topic : string;
  c_data : string;
  c_depth : Z
}.

(** How a claim on the shared map ended. *)
Inductive claim_answer := ClaimWon | ClaimLost | ClaimDegraded.

(** How a dispatch ended. *)
Inductive outcome := DepthLimit | LocalDuplicate | ClaimedElsewhere | LookupFailed | Fired (how : claim_answer).

Section Dispatcher.
Context (payload_hash : string → string) (raw_ok : string → bool) (sqlite_glob : string → string → bool).
Context `{dm : !DMap}.

Definition dispatchDedupKey (namespace topic data : string) : string :=
  (namespace ++ "|" ++ topic ++ "|" ++ payload_hash data)%string.

(** The code answers [true] for [ClaimWon] and, failing open, for
    [ClaimDegraded]. *)
Definition claimDispatch (c : call) (m : dmap) : claim_answer * dmap :=
  match c_client c with
  | NoClient | NewDMapFails => (ClaimDegraded, m)
  | Connected =>
      let key := dispatchDedupKey (c_namespace c) (c_topic c) (c_data c) in
      match put_nx (c_store_now c) key dispatchDedupTTL m with
      | (PutOk, m') => (ClaimWon, m')
      | (PutKeyFound, m') => (ClaimLost, m')
      | (PutError _, m') => (ClaimDegraded, m')
      end
  end.

Definition getMatches (c : call) : result string (list TriggerMatch) :=
  match c_db c with
  | Err e => Err e
  | Ok d => if String.eqb (c_topic c) EmptyString || String.eqb (c_namespace c) EmptyString then Ok []
            else Ok (topic_matches sqlite_glob d (c_topic c) (c_namespace c))
  end.

Definition event_of (c : call) : PubSubEvent :=
  mkPubSubEvent (c_topic c) (c_data c) (c_namespace c) (c_depth c + 1) (c_unix c).

Definition bufferEvent (now : time) (m : TriggerMatch) (event : PubSubEvent) (n : node) : option node :=
  let req := mkRequest (m_Namespace m) (m_FunctionID m) (TriggerID m) (AggregationWindowMs m)
               (AggregationMaxBatchSize m) (mkFlush m (ev_TriggerDepth event))
               (mkEvent (ev_Topic event) (ev_Data event) (ev_Namespace event) (ev_TriggerDepth event)
                  (ev_Timestamp event)) in
  (λ a, mkNode (localDedup n) a (subscribedKeys n) (launched n)) <$> Buffer raw_ok now req (aggregator n).

Definition invokeFunction (m : TriggerMatch) (event : PubSubEvent) (handlerDepth : Z) : invocation :=
  mkInvocation (m_Namespace m) (m_FunctionName m) event handlerDepth.

(** The loop over the matches, the same in both dispatch functions; [None] is
    the panic of the aggregator.  The event is marshalled at most once; when
    that fails every invocation is skipped. *)
Fixpoint fan_out (c : call) (ms : list TriggerMatch) (n : node) : option node :=
  match ms with
  | [] => Some n
  | m :: ms' =>
      if (0 <? AggregationWindowMs m)%Z then
        n' ← bufferEvent (c_now c) m (event_of c) n; fan_out c ms' n'
      else if raw_ok (c_data c) then
        fan_out c ms' (mkNode (localDedup n) (aggregator n) (subscribedKeys n)
                         (launched n ++ [invokeFunction m (event_of c) (c_depth c + 1)]))
      else fan_out c ms' n
  end.

Definition Dispatch (c : call) (n : node) (m : dmap) : option (outcome * node * dmap) :=
  if (maxTriggerDepth <=? c_depth c)%Z then Some (DepthLimit, n, m)
  else
    let key := dispatchDedupKey (c_namespace c) (c_topic c) (c_data c) in
    let '(first, cache) := claim (c_now c) key (localDedup n) in
    let n := mkNode cache (aggregator n) (subscribedKeys n) (launched n) in
    if negb first then Some (LocalDuplicate, n, m)
    else
      let '(won, m) := claimDispatch c m in
      match won with
      | ClaimLost => Some (ClaimedElsewhere, n, m)
      | _ =>
          match getMatches c with
          | Err _ => Some (LookupFailed, n, m)
          | Ok ms => (λ n', (Fired won, n', m)) <$> fan_out c ms n
          end
      end.

Definition filterWildcardMatches (ms : list TriggerMatch) (resolvedTopic : string) : list TriggerMatch :=
  filter (λ m, TopicPattern m ≠ resolvedTopic) ms.

Definition DispatchLocalPublish (c : call) (n : node) : option node :=
  if (maxTriggerDepth <=? c_depth c)%Z then Some n
  else match getMatches c with
       | Err _ => Some n
       | Ok ms => fan_out c (filterWildcardMatches ms (c_topic c)) n
       end.

(** ** Subscriptions *)

Definition subKey (namespace topic : string) : string := (namespace ++ "|" ++ topic)%string.

(** The part of a key after its first bar. *)
Definition key_topic (key : string) : string :=
  match IndexByte key "|"%char with
  | Some i => str_drop (S i) key
  | None => key
  end.

Definition desired (subs : list DistinctTopicSubscription) : gmap string DistinctTopicSubscription :=
  foldl (λ acc s, if sub_Wildcard s then acc else <[subKey (sub_Namespace s) (sub_TopicPattern s) := s]> acc) ∅ subs.

(** What the node asks of libp2p. *)
Inductive ps_request := PsSubscribe (topic : string) | PsUnsubscribe (topic : string).

(** The loop that subscribes, over the map's entries in the order of the
    visit; [sub_ok] says which subscriptions succeed. *)
Fixpoint subscribe_new (sub_ok : string → bool) (want : list (string * DistinctTopicSubscription))
    (keys : gset string) : list ps_request * gset string :=
  match want with
  | [] => ([], keys)
  | (key, s) :: want' =>
      if decide (key ∈ keys) then subscribe_new sub_ok want' keys
      else
        let keys' := if sub_ok (sub_TopicPattern s) then {[key]} ∪ keys else keys in
        let '(reqs, keys'') := subscribe_new sub_ok want' keys' in
        (PsSubscribe (sub_TopicPattern s) :: reqs, keys'')
  end.

Fixpoint unsubscribe_old (want : gmap string DistinctTopicSubscription) (order : list string) (keys : gset string)
    : list ps_request * gset string :=
  match order with
  | [] => ([], keys)
  | key :: order' =>
      match want !! key with
      | Some _ => unsubscribe_old want order' keys
      | None =>
          let '(reqs, keys') := unsubscribe_old want order' (keys ∖ {[key]}) in
          (PsUnsubscribe (key_topic key) :: reqs, keys')
      end
  end.

(** [pubsub] is whether a libp2p layer is wired; the error of an
    unsubscription is ignored. *)
Definition Refresh (pubsub : bool) (subs : result string (list DistinctTopicSubscription)) (sub_ok : string → bool)
    (want_order : list (string * DistinctTopicSubscription)) (key_order : list string) (n : node)
    : result string (list ps_request * node) :=
  if negb pubsub then Ok ([], n)
  else match subs with
       | Err e => Err e
       | Ok subs =>
           let '(reqs1, keys1) := subscribe_new sub_ok want_order (subscribedKeys n) in
           let '(reqs2, keys2) := unsubscribe_old (desired subs) key_order keys1 in
           Ok (reqs1 ++ reqs2, mkNode (localDedup n) (aggregator n) keys2 (launched n))
       end.

(** ** Publishing from a function *)

Definition maxPublishesPerInvocation : Z := 1000.

Inductive publish_error := PubSubNotAvailable | PublishBudgetExceeded | PublishFailed (e : string).

(** [published] counts the messages of the invocation, this one included; the
    current invocation has a namespace and a depth. *)
Definition PubSubPublish (available : bool) (published : Z) (sent : result string unit) (c : call) (n : node)
    : result publish_error unit * option node :=
  if negb available then (Err PubSubNotAvailable, Some n)
  else if (maxPublishesPerInvocation <? published)%Z then (Err PublishBudgetExceeded, Some n)
  else match sent with
       | Err e => (Err (PublishFailed e), Some n)
       | Ok _ => (Ok tt, if String.eqb (c_namespace c) EmptyString then Some n else DispatchLocalPublish c n)
       end.

(** One entry per topic, in the order of the first appearance, with the data
    of the last. *)
Definition dedup_step (st : list string * gmap string string) (msg : string * string) : list string * gmap string string :=
  let '(order, last) := st in
  (match last !! msg.1 with
   | Some _ => order
   | None => order ++ [msg.1]
   end, <[msg.1 := msg.2]> last).

Definition dedupBatchByTopic (msgs : list (string * string)) : list (string * string) :=
  if (length msgs <=? 1)%nat then msgs
  else
    let '(order, last) := foldl dedup_step ([], ∅) msgs in
    (λ topic, (topic, default EmptyString (last !! topic))) <$> order.

(** [PubSubPublishBatch] after the input was decoded: the budget counts every
    message, the local dispatch runs once per topic. *)
Fixpoint local_batch (c : call) (msgs : list (string * string)) (n : node) : option node :=
  match msgs with
  | [] => Some n
  | (topic, data) :: msgs' =>
      let c' := mkCall (c_now c) (c_store_now c) (c_unix c) (c_client c) (c_db c) (c_namespace c) topic data (c_depth c) in
      n' ← (if String.eqb (c_namespace c) EmptyString then Some n else DispatchLocalPublish c' n);
      local_batch c msgs' n'
  end.

Definition publish_batch (published : Z) (sent : result string unit) (msgs : list (string * string)) (c : call) (n : node)
    : result publish_error unit * option node :=
  if (maxPublishesPerInvocation <? published)%Z then (Err PublishBudgetExceeded, Some n)
  else match sent with
       | Err e => (Err (PublishFailed e), Some n)
       | Ok _ => (Ok tt, local_batch c (dedupBatchByTopic msgs) n)
       end.
(** ** The fan-out *)

(** The invocations a list of matches starts. *)
Definition direct (c : call) (ms : list TriggerMatch) : list invocation :=
  if raw_ok (c_data c)
  then (λ m, invokeFunction m (event_of c) (c_depth c + 1)) <$> filter (λ m, ¬ (0 < AggregationWindowMs m)%Z) ms
  else [].

(** The events it adds to the buffer of a key. *)
Definition buffered (c : call) (k : bufferKey) (ms : list TriggerMatch) : list Event :=
  (λ _, mkEvent (c_topic c) (c_data c) (c_namespace c) (c_depth c + 1) (c_unix c)) <$>
  filter (λ m, (0 < AggregationWindowMs m)%Z ∧ mkKey (m_Namespace m) (m_FunctionID m) (TriggerID m) = k) ms.

(** What the aggregator of a node received for a key. *)
Definition received (k : bufferKey) (n : node) : list Event :=
  left_buffer k (aggregator n) ++ pending k (aggregator n).

Lemma direct_cons c m ms :
  direct c (m :: ms) =
  (if decide (0 < AggregationWindowMs m)%Z then []
   else if raw_ok (c_data c) then [invokeFunction m (event_of c) (c_depth c + 1)] else []) ++ direct c ms.
Proof.
  unfold direct. rewrite filter_cons. destruct (raw_ok (c_data c)); [| by case_decide].
  case_decide; case_decide; done.
Qed.

Lemma fan_out_spec c ms n :
  agg_inv raw_ok None (aggregator n) →
  ∃ n', fan_out c ms n = Some n' ∧
    localDedup n' = localDedup n ∧ subscribedKeys n' = subscribedKeys n ∧
    agg_inv raw_ok None (aggregator n') ∧
    launched n' = launched n ++ direct c ms ∧
    ∀ k, received k n' = received k n ++ buffered c k ms.
Proof.
  revert n. induction ms as [| m ms IH]; intros n Hinv.
  { exists n. cbn. unfold direct. cbn. repeat (split; [done |]).
    split; [destruct (raw_ok _); by rewrite app_nil_r | intros k; by rewrite app_nil_r]. }
  cbn [fan_out]. rewrite direct_cons. destruct (Z.ltb_spec 0 (AggregationWindowMs m)) as [Hw | Hw].
  - rewrite decide_True by done. unfold bufferEvent. set (req := mkRequest _ _ _ _ _ _ _).
    destruct (Buffer raw_ok (c_now c) req (aggregator n)) as [a |] eqn:Hb.
    2: { exfalso. unfold Buffer in Hb. destruct (Z.leb_spec (req_WindowMs req) 0); [cbn in *; lia |].
         by destruct (append_event _ _ _ _). }
    destruct (Buffer_inv raw_ok _ _ _ _ Hinv Hb) as [Hinv' Hs]. cbn [fmap option_fmap option_map mbind option_bind].
    destruct (IH (mkNode (localDedup n) a (subscribedKeys n) (launched n)) Hinv')
      as (n' & -> & Hd & Hk & Hi & Hl & Hr). exists n'. repeat (split; [done |]). intros k. rewrite Hr.
    unfold received, buffered. cbn [aggregator]. rewrite Hs, <- app_assoc. f_equal. rewrite filter_cons.
    unfold req_key, req. cbn. case_decide as E; case_decide as E'; [done | | |  done]; exfalso; tauto.
  - rewrite decide_False by lia.
    assert (∀ k, buffered c k (m :: ms) = buffered c k ms) as Hbuf.
    { intros k. unfold buffered. rewrite filter_cons, decide_False; [done |]. intros [? _]. lia. }
    destruct (raw_ok (c_data c)) eqn:Hraw.
    + destruct (IH (mkNode (localDedup n) (aggregator n) (subscribedKeys n)
                      (launched n ++ [invokeFunction m (event_of c) (c_depth c + 1)])) Hinv)
        as (n' & -> & Hd & Hk & Hi & Hl & Hr). exists n'. repeat (split; [done |]).
      split; [rewrite Hl; cbn; by rewrite <- app_assoc |]. intros k. rewrite Hr, Hbuf. done.
    + destruct (IH n Hinv) as (n' & -> & Hd & Hk & Hi & Hl & Hr). exists n'. repeat (split; [done |]).
      intros k. by rewrite Hr, Hbuf.
Qed.

(** ** A cluster *)

Record cluster := mkCluster { nodes : list node; shared : dmap }.

(** The message of a call reaches node [i]. *)
Definition deliver (i : nat) (c : call) (cl : cluster) : option (outcome * cluster) :=
  n ← nodes cl !! i;
  '(o, n', m') ← Dispatch c n (shared cl);
  Some (o, mkCluster (<[i := n']> (nodes cl)) m').

Fixpoint run_calls (calls : list (nat * call)) (cl : cluster) : option cluster :=
  match calls with
  | [] => Some cl
  | (i, c) :: calls' => '(_, cl') ← deliver i c cl; run_calls calls' cl'
  end.

Definition call_key (c : call) : string := dispatchDedupKey (c_namespace c) (c_topic c) (c_data c).

Definition fired (o : outcome) : Prop := ∃ how, o = Fired how.

(** The effects of a dispatch on the caches. *)
Lemma Dispatch_caches c n m o n' m' :
  agg_inv raw_ok None (aggregator n) → Dispatch c n m = Some (o, n', m') →
  agg_inv raw_ok None (aggregator n') ∧
  (localDedup n' = localDedup n ∨ localDedup n' = (claim (c_now c) (call_key c) (localDedup n)).2) ∧
  (m' = m ∨ m' = (claimDispatch c m).2) ∧
  (o = Fired ClaimWon → (claimDispatch c m).1 = ClaimWon ∧ m' = (claimDispatch c m).2) ∧
  (fired o → (claim (c_now c) (call_key c) (localDedup n)).1 = true ∧
             localDedup n' = (claim (c_now c) (call_key c) (localDedup n)).2).
Proof.
  intros Hinv. unfold Dispatch. fold (call_key c).
  destruct (maxTriggerDepth <=? c_depth c)%Z.
  { intros [= <- <- <-]. split; [done |]. split; [by left |]. split; [by left |]. split; [done | by intros []]. }
  destruct (claim _ _ _) as [first cache]. destruct first; cbn [negb fst snd].
  2: { intros [= <- <- <-]. split; [done |]. split; [by right |]. split; [by left |]. split; [done | by intros []]. }
  destruct (claimDispatch c m) as [won m1]. cbn [fst snd].
  destruct won; [| intros [= <- <- <-]; split; [done |]; split; [by right |]; split; [by right |];
                   split; [done | by intros []] |];
    (destruct (getMatches c) as [ms | e];
     [destruct (fan_out_spec c ms (mkNode cache (aggregator n) (subscribedKeys n) (launched n)) Hinv)
        as (n1 & -> & Hd & _ & Hi & _); cbn; intros [= <- <- <-]; cbn in Hd; rewrite Hd; split; [done |];
      split; [by right |]; split; [by right |]; by split
     | intros [= <- <- <-]; split; [done |]; split; [by right |]; split; [by right |]; split; [done | by intros []]]).
Qed.

Lemma claimDispatch_keeps `{!DMapLaws} c m k e :
  expiry k m = Some e → (c_store_now c < e)%Z → expiry k (claimDispatch c m).2 = Some e.
Proof.
  intros Hk Hlt. unfold claimDispatch. destruct (c_client c); [done | done |].
  set (key := dispatchDedupKey _ _ _). destruct (decide (k = key)) as [-> | Hne].
  - destruct (put_nx _ key _ m) as [[| | err] m'] eqn:Hput; cbn.
    + apply put_ok in Hput as [Hfree _]. specialize (Hfree _ Hk). lia.
    + apply put_found in Hput. congruence.
    + apply put_error in Hput as [Hp | [Hfree _]]; [congruence |]. specialize (Hfree _ Hk). lia.
  - pose proof (put_other (c_store_now c) key k dispatchDedupTTL m Hne) as Ho.
    destruct (put_nx _ key _ m) as [[| | err] m']; cbn in *; congruence.
Qed.

Lemma claimDispatch_won `{!DMapLaws} c m :
  (claimDispatch c m).1 = ClaimWon →
  (∀ e, expiry (call_key c) m = Some e → (e ≤ c_store_now c)%Z) ∧
  expiry (call_key c) (claimDispatch c m).2 = Some (c_store_now c + dispatchDedupTTL)%Z.
Proof.
  unfold claimDispatch. destruct (c_client c); [done | done |]. fold (call_key c).
  destruct (put_nx _ _ _ m) as [[| | err] m'] eqn:Hput; [| done | done]. intros _. by apply put_ok in Hput.
Qed.

(** A node of a cluster that started fresh, after at most [k] calls. *)
Definition node_ok (k : nat) (n : node) : Prop :=
  agg_inv raw_ok None (aggregator n) ∧ ttl (localDedup n) = localDedupTTL ∧
  maxSize (localDedup n) = localDedupMaxEntries ∧ size (entries (localDedup n)) ≤ k.

Lemma node_ok_fresh : node_ok 0 NewPubSubDispatcher.
Proof. split; [apply New_inv |]. split; [done |]. split; [done |]. cbn. by rewrite map_size_empty. Qed.

Lemma node_ok_mono k k' n : k ≤ k' → node_ok k n → node_ok k' n.
Proof. intros Hk (? & ? & ? & ?). repeat (split; [done |]). lia. Qed.

Lemma Dispatch_node_ok c n m o n' m' k :
  node_ok k n → Dispatch c n m = Some (o, n', m') → node_ok (S k) n'.
Proof.
  intros (Hi & Ht & Hm & Hs) H. destruct (Dispatch_caches _ _ _ _ _ _ Hi H) as (Hi' & Hc & _).
  split; [done |]. pose proof (claim_grows (c_now c) (call_key c) (localDedup n)).
  destruct (claim_parameters (c_now c) (call_key c) (localDedup n)) as [Hm' Ht'].
  destruct Hc as [-> | ->]; [by repeat (split; [done |]); lia | split; [congruence |]; split; [congruence | lia]].
Qed.

Lemma deliver_Some i c cl o cl' :
  deliver i c cl = Some (o, cl') →
  ∃ n n' m', nodes cl !! i = Some n ∧ Dispatch c n (shared cl) = Some (o, n', m') ∧
    nodes cl' = <[i := n']> (nodes cl) ∧ shared cl' = m'.
Proof.
  unfold deliver. intros (n & Hn & H)%bind_Some. apply bind_Some in H as ([[o1 n'] m'] & Hd & [= <- <-]).
  exists n, n', m'. done.
Qed.

Lemma deliver_nodes_ok i c cl o cl' k :
  Forall (node_ok k) (nodes cl) → deliver i c cl = Some (o, cl') → Forall (node_ok (S k)) (nodes cl').
Proof.
  intros Hall (n & n' & m' & Hn & Hd & -> & _)%deliver_Some. apply Forall_insert.
  - eapply Forall_impl; [exact Hall |]. intros x. apply node_ok_mono. lia.
  - eapply Dispatch_node_ok; [| exact Hd]. rewrite Forall_lookup in Hall. eauto.
Qed.

Lemma run_calls_nodes_ok calls cl cl' k :
  Forall (node_ok k) (nodes cl) → run_calls calls cl = Some cl' → Forall (node_ok (k + length calls)) (nodes cl').
Proof.
  revert k cl. induction calls as [| [i c] calls IH]; intros k cl Hall; cbn [run_calls length].
  { intros [= <-]. by rewrite Nat.add_0_r. }
  intros ([o cl1] & Hd & Hr)%bind_Some. rewrite <- Nat.add_succ_comm.
  by eapply IH; [eapply deliver_nodes_ok |].
Qed.

(** Entries that are alive survive the calls in between. *)
Lemma run_calls_shared `{!DMapLaws} calls cl cl' k e n0 :
  Forall (node_ok n0) (nodes cl) → run_calls calls cl = Some cl' → expiry k (shared cl) = Some e →
  Forall (λ x, (c_store_now x.2 < e)%Z) calls → expiry k (shared cl') = Some e.
Proof.
  revert n0 cl. induction calls as [| [i c] calls IH]; intros n0 cl Hall; cbn [run_calls]; [by intros [= <-] |].
  intros ([o cl1] & Hd & Hr)%bind_Some Hk Ht. apply Forall_cons in Ht as [Ht Hts]. cbn in Ht.
  eapply (IH (S n0)); [by eapply deliver_nodes_ok | exact Hr | | exact Hts].
  destruct (deliver_Some _ _ _ _ _ Hd) as (n & n' & m' & Hn & HD & _ & ->).
  rewrite Forall_lookup in Hall. destruct (Hall _ _ Hn) as [Hi _].
  destruct (Dispatch_caches _ _ _ _ _ _ Hi HD) as (_ & _ & [-> | ->] & _); [done | by apply claimDispatch_keeps].
Qed.

Lemma run_calls_local calls cl cl' i key e n n0 :
  Forall (node_ok n0) (nodes cl) → run_calls calls cl = Some cl' →
  nodes cl !! i = Some n → entries (localDedup n) !! key = Some e →
  Forall (λ x, x.1 = i → (c_now x.2 < e)%Z) calls →
  ∃ n', nodes cl' !! i = Some n' ∧ entries (localDedup n') !! key = Some e.
Proof.
  revert n0 cl n. induction calls as [| [j c] calls IH]; intros n0 cl n Hall; cbn [run_calls].
  { intros [= <-]. eauto. }
  intros ([o cl1] & Hd & Hr)%bind_Some Hn Hk Ht. apply Forall_cons in Ht as [Ht Hts]. cbn in Ht.
  pose proof (deliver_nodes_ok _ _ _ _ _ _ Hall Hd) as Hall'.
  destruct (deliver_Some _ _ _ _ _ Hd) as (n1 & n' & m' & Hn1 & HD & Hnodes & _).
  destruct (decide (j = i)) as [-> | Hne].
  - assert (n1 = n) as -> by congruence.
    apply (IH (S n0) cl1 n'); [done | done | | | done].
    + rewrite Hnodes. apply list_lookup_insert_eq. by eapply lookup_lt_Some.
    + rewrite Forall_lookup in Hall. destruct (Hall _ _ Hn) as [Hi _].
      destruct (Dispatch_caches _ _ _ _ _ _ Hi HD) as (_ & [-> | ->] & _); [done | apply claim_keeps; auto].
  - apply (IH (S n0) cl1 n); [done | done | | done | done]. by rewrite Hnodes, list_lookup_insert_ne.
Qed.

(** ** What a dispatch starts *)

Lemma Dispatch_fires c n m ms :
  agg_inv raw_ok None (aggregator n) → (c_depth c < maxTriggerDepth)%Z →
  seen (c_now c) (call_key c) (localDedup n) = false → (claimDispatch c m).1 ≠ ClaimLost → getMatches c = Ok ms →
  ∃ n', Dispatch c n m = Some (Fired (claimDispatch c m).1, n', (claimDispatch c m).2) ∧
    launched n' = launched n ++ direct c ms ∧ ∀ k, received k n' = received k n ++ buffered c k ms.
Proof.
  intros Hinv Hdepth Hseen Hclaim Hms. unfold Dispatch. fold (call_key c).
  destruct (Z.leb_spec maxTriggerDepth (c_depth c)); [lia |].
  assert ((claim (c_now c) (call_key c) (localDedup n)).1 = true) as Hfirst.
  { destruct (claim_cases (c_now c) (call_key c) (localDedup n)) as [(E & _) | [(_ & _ & ->) | (_ & _ & ->)]]; [congruence | done..]. }
  destruct (claim _ _ _) as [first cache]. cbn in Hfirst. subst first. cbn [negb].
  destruct (claimDispatch c m) as [won m1]. cbn [fst snd] in *.
  destruct (fan_out_spec c ms (mkNode cache (aggregator n) (subscribedKeys n) (launched n)) Hinv)
    as (n1 & Hf & _ & _ & _ & Hl & Hr).
  exists n1. rewrite Hms, Hf. destruct won; done.
Qed.

(** A publish of a function as a node sees it: the host function, then the
    message that libp2p delivers back when the node is subscribed to its topic,
    which the subscription's handler dispatches at depth 0. *)
Definition looped_back (c : call) : call :=
  mkCall (c_now c) (c_store_now c) (c_unix c) (c_client c) (c_db c) (c_namespace c) (c_topic c) (c_data c) 0.

Definition wasm_publish (c : call) (n : node) (m : dmap) : option (node * dmap) :=
  n1 ← (PubSubPublish true 1 (Ok tt) c n).2;
  if decide (subKey (c_namespace c) (c_topic c) ∈ subscribedKeys n1) then
    '(_, n2, m2) ← Dispatch (looped_back c) n1 m; Some (n2, m2)
  else Some (n1, m).

Lemma DispatchLocalPublish_spec c n ms :
  agg_inv raw_ok None (aggregator n) → (c_depth c < maxTriggerDepth)%Z → getMatches c = Ok ms →
  ∃ n', DispatchLocalPublish c n = Some n' ∧
    localDedup n' = localDedup n ∧ subscribedKeys n' = subscribedKeys n ∧
    agg_inv raw_ok None (aggregator n') ∧
    launched n' = launched n ++ direct c (filterWildcardMatches ms (c_topic c)) ∧
    ∀ k, received k n' = received k n ++ buffered c k (filterWildcardMatches ms (c_topic c)).
Proof.
  intros Hinv Hdepth Hms. unfold DispatchLocalPublish. destruct (Z.leb_spec maxTriggerDepth (c_depth c)); [lia |].
  rewrite Hms. by apply fan_out_spec.
Qed.

End Dispatcher.

(** ** Subscriptions *)

Lemma desired_lookup subs k s :
  desired subs !! k = Some s →
  s ∈ subs ∧ sub_Wildcard s = false ∧ k = subKey (sub_Namespace s) (sub_TopicPattern s).
Proof.
  unfold desired. induction subs as [| x subs IH] using rev_ind; [done |]. rewrite foldl_app. cbn.
  destruct (sub_Wildcard x) eqn:Hw.
  - intros H. destruct (IH H) as (? & ? & ?). split; [apply elem_of_app; by left | done].
  - intros [[<- <-] | [_ H]]%lookup_insert_Some.
    + split; [apply elem_of_app; right; by apply list_elem_of_singleton | done].
    + destruct (IH H) as (? & ? & ?). split; [apply elem_of_app; by left | done].
Qed.

Lemma desired_complete subs s :
  s ∈ subs → sub_Wildcard s = false → is_Some (desired subs !! subKey (sub_Namespace s) (sub_TopicPattern s)).
Proof.
  unfold desired. induction subs as [| x subs IH] using rev_ind; [by intros ?%elem_of_nil |].
  rewrite foldl_app. cbn. intros [Hin | ->%list_elem_of_singleton]%elem_of_app Hw.
  - destruct (sub_Wildcard x); [auto |]. rewrite lookup_insert_is_Some'. auto.
  - rewrite Hw, lookup_insert_eq. eauto.
Qed.

Lemma subscribe_new_spec sub_ok want keys k :
  NoDup want.*1 →
  k ∈ (subscribe_new sub_ok want keys).2 ↔
  k ∈ keys ∨ ∃ s, (k, s) ∈ want ∧ sub_ok (sub_TopicPattern s) = true.
Proof.
  revert keys. induction want as [| [key s] want IH]; intros keys Hnd; cbn [subscribe_new].
  { cbn. split; [auto | intros [? | (s & []%elem_of_nil & _)]; done]. }
  apply NoDup_cons in Hnd as [Hni Hnd].
  assert (∀ P : Prop, (∃ s0, (k, s0) ∈ (key, s) :: want ∧ sub_ok (sub_TopicPattern s0) = true) ∨ P ↔
    (k = key ∧ sub_ok (sub_TopicPattern s) = true) ∨ (∃ s0, (k, s0) ∈ want ∧ sub_ok (sub_TopicPattern s0) = true) ∨ P) as Hcons.
  { intros P. setoid_rewrite elem_of_cons. naive_solver. }
  destruct (decide (key ∈ keys)) as [Hin | Hnin].
  - rewrite (IH keys Hnd), (or_comm (k ∈ keys)), (or_comm (k ∈ keys)), Hcons. naive_solver.
  - destruct (subscribe_new sub_ok want _) as [reqs keys''] eqn:Hs. cbn.
    change keys'' with (reqs, keys'').2. rewrite <- Hs, (IH _ Hnd), (or_comm (k ∈ keys)), Hcons.
    destruct (sub_ok (sub_TopicPattern s)); set_solver.
Qed.

Lemma unsubscribe_old_spec want order keys k :
  k ∈ (unsubscribe_old want order keys).2 ↔ k ∈ keys ∧ (k ∈ order → is_Some (want !! k)).
Proof.
  revert keys. induction order as [| key order IH]; intros keys; cbn [unsubscribe_old].
  { cbn. split; [intros H; split; [done | by intros ?%elem_of_nil] | tauto]. }
  destruct (want !! key) as [s |] eqn:Hw.
  - rewrite IH, elem_of_cons. naive_solver.
  - destruct (unsubscribe_old want order _) as [reqs keys'] eqn:Hu. cbn. change keys' with (reqs, keys').2.
    rewrite <- Hu, IH, elem_of_difference, elem_of_singleton, elem_of_cons. split.
    + intros [[H1 H2] H3]. split; [done |]. intros [-> | H]; [done | auto].
    + intros [H1 H2]. split; [split; [done |] | auto]. intros ->. destruct H2 as [? ?]; [by left | congruence].
Qed.

(** ** Batches *)

Lemma dedup_fold msgs order last :
  NoDup order → (∀ t, t ∈ order ↔ is_Some (last !! t)) →
  let st := foldl dedup_step (order, last) msgs in
  NoDup st.1 ∧ (∀ t, t ∈ st.1 ↔ is_Some (st.2 !! t)) ∧
  ∀ t, st.2 !! t = match list.last (filter (λ x, x.1 = t) msgs) with Some x => Some x.2 | None => last !! t end.
Proof.
  revert order last. induction msgs as [| [t0 d0] msgs IH]; intros order last Hnd Hdom; [done |].
  cbn [foldl dedup_step fst snd]. destruct (IH (match last !! t0 with Some _ => order | None => order ++ [t0] end)
    (<[t0 := d0]> last)) as (H1 & H2 & H3).
  - destruct (last !! t0) eqn:Hl; [done |]. apply NoDup_app. split; [done |]. split; [| apply NoDup_singleton].
    intros t Ht ->%list_elem_of_singleton. apply Hdom in Ht as [? ?]. congruence.
  - intros t. rewrite lookup_insert_is_Some'. destruct (last !! t0) as [x |] eqn:Hl.
    + rewrite Hdom. split; [auto | intros [<- | ?]; [eauto | done]].
    + rewrite elem_of_app, list_elem_of_singleton, Hdom. naive_solver.
  - split; [done |]. split; [done |]. intros t. rewrite H3, filter_cons. cbn. case_decide as E.
    + subst t0. rewrite last_cons. destruct (list.last (filter _ msgs)); [done | by rewrite lookup_insert_eq].
    + destruct (list.last (filter _ msgs)); [done | by rewrite lookup_insert_ne].
Qed.


(** C11: the same message delivered again, to the same or another node, with
    any calls in between, by clocks that do not go back.  Two deliveries that
    both win the claim on the shared map are at least thirty seconds apart on
    its clock; and two deliveries that fire on the same node, whatever the
    state of the shared map, are at least thirty seconds apart on the clock of
    the node, unless the node's cache was full, with 4096 live entries, at the
    first of them (it then lets messages through without recording them). *)
Theorem dispatch_once payload_hash raw_ok sqlite_glob `{dm : !DMap} `{laws : !DMapLaws} nnodes m0 pre i c1 mid j c2 cl0 o1 cl1 cl2 o2 cl3 :
  run_calls payload_hash raw_ok sqlite_glob pre (mkCluster (replicate nnodes NewPubSubDispatcher) m0) = Some cl0 →
  deliver payload_hash raw_ok sqlite_glob i c1 cl0 = Some (o1, cl1) →
  run_calls payload_hash raw_ok sqlite_glob mid cl1 = Some cl2 →
  deliver payload_hash raw_ok sqlite_glob j c2 cl2 = Some (o2, cl3) →
  call_key payload_hash c1 = call_key payload_hash c2 →
  (o1 = Fired ClaimWon → o2 = Fired ClaimWon → Forall (λ x, (c_store_now x.2 ≤ c_store_now c2)%Z) mid →
   (c_store_now c1 + dispatchDedupTTL ≤ c_store_now c2)%Z) ∧
  (i = j → fired o1 → fired o2 →
   (∀ n, nodes cl0 !! i = Some n → live_count (c_now c1) (localDedup n) < localDedupMaxEntries) →
   Forall (λ x, x.1 = i → (c_now x.2 ≤ c_now c2)%Z) mid →
   (c_now c1 + localDedupTTL ≤ c_now c2)%Z).
Proof.
  intros Hpre H1 Hmid H2 Hkey.
  assert (Forall (node_ok raw_ok (length pre)) (nodes cl0)) as Hok0.
  { apply (run_calls_nodes_ok _ _ _ _ _ _ 0) in Hpre; [done |]. apply Forall_replicate, node_ok_fresh. }
  pose proof (deliver_nodes_ok _ _ _ _ _ _ _ _ _ Hok0 H1) as Hok1.
  pose proof (run_calls_nodes_ok _ _ _ _ _ _ _ Hok1 Hmid) as Hok2.
  destruct (deliver_Some _ _ _ _ _ _ _ _ H1) as (n1 & n1' & m1 & Hn1 & HD1 & Hnodes1 & Hm1).
  destruct (deliver_Some _ _ _ _ _ _ _ _ H2) as (n2 & n2' & m2 & Hn2 & HD2 & _ & _).
  pose proof (proj1 (Forall_lookup _ _) Hok0 _ _ Hn1) as (Hi1 & Httl & Hmax & Hsize).
  pose proof (proj1 (Forall_lookup _ _) Hok2 _ _ Hn2) as (Hi2 & _).
  destruct (Dispatch_caches _ _ _ _ _ _ _ _ _ Hi1 HD1) as (_ & _ & _ & Hwon1 & Hf1).
  destruct (Dispatch_caches _ _ _ _ _ _ _ _ _ Hi2 HD2) as (_ & _ & _ & Hwon2 & Hf2).
  split.
  - intros E1 E2 Ht. destruct (Hwon1 E1) as [Hw1 Hmm]. destruct (Hwon2 E2) as [Hw2 _].
    destruct (claimDispatch_won _ _ _ Hw1) as [_ He]. destruct (claimDispatch_won _ _ _ Hw2) as [Hfree _].
    destruct (Z.le_gt_cases (c_store_now c1 + dispatchDedupTTL) (c_store_now c2)) as [| Hgt]; [done |].
    rewrite <- Hkey in Hfree. apply Hfree.
    eapply run_calls_shared; [exact laws | exact Hok1 | exact Hmid | by rewrite Hm1, Hmm |].
    eapply Forall_impl; [exact Ht |]. cbn. intros. lia.
  - intros <- E1 E2 Hlen Ht. destruct (Hf1 E1) as [Hc1 Hd1]. destruct (Hf2 E2) as [Hc2 _].
    destruct (Z.le_gt_cases (c_now c1 + localDedupTTL) (c_now c2)) as [| Hgt]; [done |]. exfalso.
    assert (entries (localDedup n1') !! call_key payload_hash c1 = Some (c_now c1 + localDedupTTL)%Z) as Hrec.
    { rewrite Hd1, <- Httl. apply claim_recorded; [done |]. rewrite Hmax. by apply Hlen. }
    destruct (run_calls_local _ _ _ mid cl1 cl2 i (call_key payload_hash c1) (c_now c1 + localDedupTTL)%Z n1' _ Hok1 Hmid)
      as (n' & Hn' & He'); [| done | |].
    + rewrite Hnodes1. apply list_lookup_insert_eq. by eapply lookup_lt_Some.
    + eapply Forall_impl; [exact Ht |]. intros [? ?] Hle E. specialize (Hle E). cbn in *. lia.
    + assert (n' = n2) as -> by congruence. rewrite Hkey in He'.
      rewrite (claim_refused _ _ _ _ He' Hgt) in Hc2. done.
Qed.

(** A publish by a function starts the wildcard triggers of its topic
    directly and, when the node is also subscribed to the topic (which it is
    exactly when a trigger names it literally), once more together with the
    literal ones when the message comes back: a wildcard trigger runs once on a
    topic without a literal trigger and twice on a topic with one. *)
Theorem wasm_publish_launches payload_hash raw_ok sqlite_glob `{dm : !DMap} c n m ms :
  agg_inv raw_ok None (aggregator n) → c_namespace c ≠ EmptyString → (0 ≤ c_depth c < maxTriggerDepth)%Z →
  seen (c_now c) (call_key payload_hash c) (localDedup n) = false →
  (claimDispatch payload_hash (looped_back c) m).1 ≠ ClaimLost → getMatches sqlite_glob c = Ok ms →
  ∃ n' m', wasm_publish payload_hash raw_ok sqlite_glob c n m = Some (n', m') ∧
    launched n' = launched n ++ direct raw_ok c (filter (λ m, TopicPattern m ≠ c_topic c) ms) ++
      (if decide (subKey (c_namespace c) (c_topic c) ∈ subscribedKeys n)
       then direct raw_ok (looped_back c) ms else []).
Proof.
  intros Hinv Hns Hdepth Hseen Hclaim Hms. unfold wasm_publish, PubSubPublish. cbn [negb snd].
  destruct (Z.ltb_spec maxPublishesPerInvocation 1) as [Hb | _]; [unfold maxPublishesPerInvocation in Hb; lia |].
  apply String.eqb_neq in Hns. rewrite Hns. cbn [snd].
  destruct (DispatchLocalPublish_spec raw_ok sqlite_glob c n ms Hinv ltac:(lia) Hms)
    as (n1 & -> & Hd & Hs & Hi & Hl & _). cbn [mbind option_bind]. rewrite Hs. case_decide.
  - destruct (Dispatch_fires payload_hash raw_ok sqlite_glob (looped_back c) n1 m ms) as (n2 & -> & Hl2 & _);
      [done | done | by rewrite Hd | done | done |].
    eexists _, _. split; [reflexivity |]. by rewrite Hl2, Hl, app_assoc.
  - eexists _, _. split; [reflexivity |]. by rewrite Hl, app_nil_r.
Qed.

(** After a refresh the node is subscribed to exactly the literal patterns
    of the live triggers, less those whose subscription failed now; in whatever
    order the maps are visited. *)
Theorem Refresh_spec subs sub_ok want_order key_order reqs n n' :
  want_order ≡ₚ map_to_list (desired subs) →
  key_order ≡ₚ elements (subscribe_new sub_ok want_order (subscribedKeys n)).2 →
  Refresh true (Ok subs) sub_ok want_order key_order n = Ok (reqs, n') →
  (∀ key, key ∈ subscribedKeys n' ↔
     ∃ s, s ∈ subs ∧ sub_Wildcard s = false ∧ desired subs !! key = Some s ∧
          key = subKey (sub_Namespace s) (sub_TopicPattern s) ∧
          (key ∈ subscribedKeys n ∨ sub_ok (sub_TopicPattern s) = true)) ∧
  ((∀ topic, sub_ok topic = true) →
   ∀ s, s ∈ subs → sub_Wildcard s = false → subKey (sub_Namespace s) (sub_TopicPattern s) ∈ subscribedKeys n').
Proof.
  intros Hw Hk. unfold Refresh. cbn [negb].
  assert (NoDup want_order.*1) as Hnd by (rewrite Hw; apply NoDup_fst_map_to_list).
  destruct (subscribe_new sub_ok want_order (subscribedKeys n)) as [reqs1 keys1] eqn:Hs.
  pose proof (subscribe_new_spec sub_ok want_order (subscribedKeys n)) as Hsub. rewrite Hs in Hsub. cbn in Hsub, Hk.
  pose proof (unsubscribe_old_spec (desired subs) key_order keys1) as Hun.
  destruct (unsubscribe_old (desired subs) key_order keys1) as [reqs2 keys2]. cbn in Hun. intros [= <- <-]. cbn.
  assert (∀ key, key ∈ keys2 ↔ ∃ s, desired subs !! key = Some s ∧
            (key ∈ subscribedKeys n ∨ sub_ok (sub_TopicPattern s) = true)) as Hchar.
  { intros key. rewrite Hun, (Hsub key Hnd), Hk, elem_of_elements, (Hsub key Hnd). setoid_rewrite Hw.
    setoid_rewrite elem_of_map_to_list. split.
    - intros [H1 H2]. destruct (H2 H1) as [s Hl]. exists s. split; [done |].
      destruct H1 as [? | (s' & Hl' & Hok)]; [by left | right; congruence].
    - intros (s & Hl & H). split; [| by intros _; exists s]. destruct H as [? | ?]; [by left | right; eauto]. }
  split.
  - intros key. rewrite Hchar. split.
    + intros (s & Hl & H). destruct (desired_lookup _ _ _ Hl) as (? & ? & ?). exists s. auto.
    + intros (s & _ & _ & Hl & _ & H). eauto.
  - intros Hok s Hin Hwild. apply Hchar. destruct (desired_complete _ _ Hin Hwild) as [s' Hl']. exists s'. auto.
Qed.

(** A batch keeps one message per topic, the last, in the order in which the
    topics first appear. *)
Lemma dedupBatchByTopic_spec msgs t d :
  NoDup (dedupBatchByTopic msgs).*1 ∧
  ((t, d) ∈ dedupBatchByTopic msgs ↔ list.last (filter (λ x, x.1 = t) msgs) = Some (t, d)).
Proof.
  unfold dedupBatchByTopic. destruct (Nat.leb_spec (length msgs) 1).
  { destruct msgs as [| [t0 d0] [| ? ?]]; cbn in *; [| | lia].
    - split; [constructor | split; [by intros ?%elem_of_nil | done]].
    - split; [apply NoDup_singleton |]. rewrite list_elem_of_singleton. case_decide; cbn; naive_solver. }
  destruct (dedup_fold msgs [] ∅) as (H1 & H2 & H3).
  { constructor. } { intros t'. rewrite lookup_empty. split; [by intros ?%elem_of_nil | by intros [? ?]]. }
  destruct (foldl dedup_step ([], ∅) msgs) as [order last]. cbn [fst snd] in *.
  split; [by rewrite <- list_fmap_compose, list_fmap_id |].
  specialize (H3 t). rewrite lookup_empty in H3. rewrite list_elem_of_fmap. split.
  - intros (t' & [= -> ->] & Hin). apply H2 in Hin as [x Hx]. rewrite Hx in *. cbn.
    destruct (list.last _) as [[t1 d1] |] eqn:Hl; [| done]. cbn in H3. simplify_eq.
    assert ((t1, d1) ∈ filter (λ x, x.1 = t') msgs) as Hm by (by apply last_Some_elem_of).
    apply list_elem_of_filter in Hm as [Et _]. cbn in Et. by subst t1.
  - intros Hl. rewrite Hl in H3. exists t. rewrite H3. split; [done |]. apply H2. eauto.
Qed.

(** ** A concrete map and a concrete namespace *)

#[local] Instance demo_dmap : DMap := {|
  dmap := gmap string time;
  put_nx now k t m :=
    match m !! k with
    | Some e => if (now <? e)%Z then (PutKeyFound, m) else (PutOk, <[k := (now + t)%Z]> m)
    | None => (PutOk, <[k := (now + t)%Z]> m)
    end;
  expiry k m := m !! k
|}.

#[local] Instance demo_dmap_laws : DMapLaws.
Proof.
  split; cbn; intros.
  - destruct (m !! k) as [e |] eqn:Hk; [destruct (Z.ltb_spec now e) |]; simplify_eq; rewrite lookup_insert_eq;
      (split; [| done]); intros e' Hk'; simplify_eq; lia.
  - destruct (m !! k) as [e |] eqn:Hk; [destruct (Z.ltb_spec now e) |]; by simplify_eq.
  - destruct (m !! k) as [e |] eqn:Hk; [destruct (Z.ltb_spec now e) |]; by simplify_eq.
  - destruct (m !! k) as [e |]; [destruct (now <? e)%Z |]; cbn; [done | |]; by rewrite lookup_insert_ne.
Qed.

Definition demo_db : ps_db :=
  mkPsDb [ mkTrigger "t1" "f1" "presence:u1" true 0 0 0; mkTrigger "t2" "f2" "presence:*" true 0 0 0 ]
    [ mkFunction "f1" "sweep" "alice" "active"; mkFunction "f2" "notify" "alice" "active" ].

Definition demo_call (now : time) (db : result string ps_db) (depth : Z) : call :=
  mkCall now now 0 Connected db "alice" "presence:u1" "1" depth.

Definition demo_hash (d : string) : string := d.
Definition demo_json (d : string) : bool := negb (String.eqb d EmptyString).

(** Two nodes of one namespace. *)
Definition demo_cluster : cluster := mkCluster (replicate 2 NewPubSubDispatcher) ∅.

(** The message reaches both nodes, then the first again after the window. *)
Definition demo_first : call := demo_call 0 (Ok demo_db) 0.
Definition demo_second : call := demo_call 1 (Ok demo_db) 0.
Definition demo_late : call := demo_call (30 * Second) (Ok demo_db) 0.

Definition demo_trace : option (outcome * outcome * list nat) :=
  '(o1, cl1) ← deliver demo_hash demo_json PatternMatches 0 demo_first demo_cluster;
  cl2 ← run_calls demo_hash demo_json PatternMatches [(1%nat, demo_second)] cl1;
  '(o2, cl3) ← deliver demo_hash demo_json PatternMatches 0 demo_late cl2;
  Some (o1, o2, (λ n, length (launched n)) <$> nodes cl3).

Lemma dispatch_once_witness :
  demo_trace = Some (Fired ClaimWon, Fired ClaimWon, [4; 0]%nat) ∧
  (c_store_now demo_first + dispatchDedupTTL ≤ c_store_now demo_late)%Z.
Proof.
  assert (demo_trace = Some (Fired ClaimWon, Fired ClaimWon, [4; 0]%nat)) as Htrace by (vm_compute; reflexivity).
  split; [exact Htrace |]. unfold demo_trace in Htrace.
  apply bind_Some in Htrace as ([o1 cl1] & H1 & Htrace). apply bind_Some in Htrace as (cl2 & H2 & Htrace).
  apply bind_Some in Htrace as ([o2 cl3] & H3 & [= E1 E2 _]).
  assert (run_calls demo_hash demo_json PatternMatches [] (mkCluster (replicate 2 NewPubSubDispatcher) ∅)
          = Some demo_cluster) as H0 by reflexivity.
  assert (call_key demo_hash demo_first = call_key demo_hash demo_late) as Hkey by (vm_compute; reflexivity).
  destruct (dispatch_once _ _ _ _ _ _ _ _ _ _ _ _ _ _ _ _ _ H0 H1 H2 H3 Hkey) as [Honce _].
  apply Honce; [exact E1 | exact E2 |]. constructor; [vm_compute; discriminate | constructor].
Defined.

Definition subscribed_node : node := mkNode newLocalDedupCache New {["alice|presence:u1"%string]} [].

(** The wildcard trigger [t2] runs twice for one publish. *)
Lemma wasm_publish_launches_witness :
  ∃ n' m', wasm_publish demo_hash demo_json PatternMatches (demo_call 0 (Ok demo_db) 0) subscribed_node ∅ = Some (n', m') ∧
    i_FunctionName <$> launched n' = ["notify"; "sweep"; "notify"]%string.
Proof.
  destruct (wasm_publish_launches demo_hash demo_json PatternMatches (demo_call 0 (Ok demo_db) 0) subscribed_node ∅
              (topic_matches PatternMatches demo_db "presence:u1" "alice")) as (n' & m' & H & Hl).
  - apply New_inv.
  - discriminate.
  - split; vm_compute; congruence.
  - vm_compute. reflexivity.
  - vm_compute. discriminate.
  - reflexivity.
  - exists n', m'. split; [exact H |]. rewrite Hl. vm_compute. reflexivity.
Defined.

Definition demo_subs : list DistinctTopicSubscription :=
  [ mkSubscription "alice" "presence:*" true; mkSubscription "alice" "presence:u1" false ].

Lemma Refresh_spec_witness :
  ∃ reqs n', Refresh true (Ok demo_subs) (λ _, true)
               [("alice|presence:u1"%string, mkSubscription "alice" "presence:u1" false)]
               ["alice|presence:u1"%string] NewPubSubDispatcher = Ok (reqs, n') ∧
    reqs = [PsSubscribe "presence:u1"] ∧ "alice|presence:u1"%string ∈ subscribedKeys n'.
Proof.
  eexists _, _. split; [reflexivity |]. split; [reflexivity |].
  refine (proj2 (Refresh_spec demo_subs (λ _, true)
    [("alice|presence:u1"%string, mkSubscription "alice" "presence:u1" false)] ["alice|presence:u1"%string]
    _ NewPubSubDispatcher _ _ _ eq_refl) (λ _, eq_refl) (mkSubscription "alice" "presence:u1" false) _ eq_refl).
  - vm_compute. reflexivity.
  - vm_compute. reflexivity.
  - right. left.
Defined.

(** ** What the code does not say *)

(** The claim comes before the lookup and is not given back: when the lookup of
    the node that won fails, the publish is lost for the whole cluster. *)
Theorem lookup_failure_drops_publish :
  (λ cl, launched <$> nodes cl) <$> run_calls demo_hash demo_json PatternMatches
    [ (0%nat, demo_call 0 (Err "timeout"%string) 0); (1%nat, demo_call 1 (Ok demo_db) 0);
      (0%nat, demo_call 2 (Ok demo_db) 0) ] demo_cluster = Some [[]; []] ∧
  topic_matches PatternMatches demo_db "presence:u1" "alice" ≠ [].
Proof. split; [vm_compute; reflexivity |]. vm_compute. discriminate. Qed.

(** A batch runs at the depth of its first event: an event that is at the limit
    is handed to the function at depth 1, so a chain through an aggregating
    trigger is not bounded by [maxTriggerDepth]. *)
Definition windowed_db : ps_db :=
  mkPsDb [ mkTrigger "t3" "f2" "presence:*" true 0 1000 2 ] [ mkFunction "f2" "notify" "alice" "active" ].

Theorem aggregation_resets_depth :
  (λ n, (λ b, (ff_TriggerDepth (b_flushFn b), TriggerDepth <$> b_events b)) <$> batches (aggregator n)) <$>
    (local_batch demo_json PatternMatches (demo_call 0 (Ok windowed_db) 0) [("presence:a"%string, "1"%string)]
       NewPubSubDispatcher ≫= local_batch demo_json PatternMatches (demo_call 0 (Ok windowed_db) 4)
       [("presence:b"%string, "2"%string)])
  = Some [(1%Z, [1; maxTriggerDepth]%Z)].
Proof. vm_compute. reflexivity. Qed.
