(* ===== verification/PubSubManager.v ===== *)
(** * Topic subscriptions of a node ([core/pkg/pubsub])

    The manager of the libp2p subscriptions of a process: one subscription
    object per namespaced topic, shared by all its handlers, with a count of
    subscribers.  The objects live in a heap, because a call can hold a
    reference to one that has left the map.  Each critical section of the two
    kinds of mutex is one step; calls interleave at these steps.  A handler is
    named by its random id.  Joining and subscribing in libp2p may fail. *)

From Stdlib Require Import ZArith Lia Ascii String.
From stdpp Require Import base tactics numbers list gmap strings relations.
From S2P Require Import Prelude GoStrings.

Record topicSubscription := mkSub {
  handlers : list nat;
  refCount : Z;
  cancelled : bool
}.

(** [heap] lists the objects in the order of their creation. *)
Record Manager := mkManager {
  subscriptions : gmap string nat;
  heap : list topicSubscription
}.

Definition NewManager : Manager := mkManager ∅ [].

Definition namespacedTopic (ns topic : string) : string := (ns ++ "." ++ topic)%string.

(** The override of the namespace by the context, when it is not empty. *)
Definition effective_ns (own : string) (override : option string) : string :=
  match override with
  | Some ns => if String.eqb ns EmptyString then own else ns
  | None => own
  end.

(** ** The critical sections *)

(** [existing.handlers[id] = handler; existing.refCount++]. *)
Definition add_handler (o h : nat) (m : Manager) : Manager :=
  mkManager (subscriptions m)
    (alter (λ s, mkSub (handlers s ++ [h]) (refCount s + 1) (cancelled s)) o (heap m)).

(** The installation of a new subscription, unless another call was first. *)
Definition install (t : string) (h : nat) (m : Manager) : option nat * Manager :=
  match subscriptions m !! t with
  | Some o => (Some o, m)
  | None => (None, mkManager (<[t := length (heap m)]> (subscriptions m)) (heap m ++ [mkSub [h] 1 false]))
  end.

Definition Unsubscribe (t : string) (m : Manager) : Manager :=
  match subscriptions m !! t with
  | None => m
  | Some o =>
      match heap m !! o with
      | None => m
      | Some s =>
          let n := (refCount s - 1)%Z in
          if (n <=? 0)%Z
          then mkManager (delete t (subscriptions m)) (<[o := mkSub (handlers s) n true]> (heap m))
          else mkManager (subscriptions m) (<[o := mkSub (handlers s) n (cancelled s)]> (heap m))
      end
  end.

Definition Close (m : Manager) : Manager :=
  mkManager ∅ (imap (λ o s, mkSub (handlers s) (refCount s)
                              (cancelled s || bool_decide (o ∈ (map_to_list (subscriptions m)).*2))) (heap m)).

(** The topics of a namespace, without its prefix. *)
Definition ListTopics (ns : string) (m : Manager) : list string :=
  let prefix := (ns ++ ".")%string in
  omap (λ t, if (str_len prefix <? str_len t)%nat && HasPrefix t prefix then Some (str_drop (str_len prefix) t) else None)
    (map_to_list (subscriptions m)).*1.

(** The handlers a message on the topic reaches. *)
Definition called (t : string) (m : Manager) : list nat :=
  match subscriptions m !! t ≫= (heap m !!.) with
  | Some s => if cancelled s then [] else handlers s
  | None => []
  end.

(** ** Calls in flight *)

Inductive sub_pc :=
| SubLookup
| SubCreate
| SubInstall
| SubAdd (o : nat)
| SubDone (r : result string unit).

Record sub_call := mkSubCall { sc_topic : string; sc_handler : nat; sc_pc : sub_pc }.

Record state := mkState { manager : Manager; calls : list sub_call }.

Definition set_pc (i : nat) (c : sub_call) (pc : sub_pc) (m : Manager) (st : state) : state :=
  mkState m (<[i := mkSubCall (sc_topic c) (sc_handler c) pc]> (calls st)).

Inductive mgr_step : state → state → Prop :=
| step_call t h st :
    mgr_step st (mkState (manager st) (calls st ++ [mkSubCall t h SubLookup]))
| step_lookup i c st :
    calls st !! i = Some c → sc_pc c = SubLookup →
    mgr_step st (set_pc i c (match subscriptions (manager st) !! sc_topic c with
                             | Some o => SubAdd o
                             | None => SubCreate
                             end) (manager st) st)
| step_created i c st :
    calls st !! i = Some c → sc_pc c = SubCreate → mgr_step st (set_pc i c SubInstall (manager st) st)
| step_create_failed i c e st :
    calls st !! i = Some c → sc_pc c = SubCreate → mgr_step st (set_pc i c (SubDone (Err e)) (manager st) st)
| step_install i c st :
    calls st !! i = Some c → sc_pc c = SubInstall →
    mgr_step st (set_pc i c (match (install (sc_topic c) (sc_handler c) (manager st)).1 with
                             | Some o => SubAdd o
                             | None => SubDone (Ok tt)
                             end) (install (sc_topic c) (sc_handler c) (manager st)).2 st)
| step_add i c o st :
    calls st !! i = Some c → sc_pc c = SubAdd o →
    mgr_step st (set_pc i c (SubDone (Ok tt)) (add_handler o (sc_handler c) (manager st)) st)
| step_unsubscribe t st :
    mgr_step st (mkState (Unsubscribe t (manager st)) (calls st))
| step_close st :
    mgr_step st (mkState (Close (manager st)) (calls st)).

(** A call of [Subscribe] that nothing overtakes. *)
Definition Subscribe (t : string) (h : nat) (m : Manager) : Manager :=
  match subscriptions m !! t with
  | Some o => add_handler o h m
  | None => (install t h m).2
  end.

(** ** What every execution keeps *)

Definition live (s : topicSubscription) : Prop :=
  cancelled s = false ∧ (1 ≤ refCount s ≤ Z.of_nat (length (handlers s)))%Z.

Record mgr_inv (m : Manager) : Prop := {
  inv_live : ∀ t o, subscriptions m !! t = Some o → ∃ s, heap m !! o = Some s ∧ live s;
  inv_distinct : ∀ t1 t2 o, subscriptions m !! t1 = Some o → subscriptions m !! t2 = Some o → t1 = t2
}.

(** A handler that is somewhere in the heap. *)
Definition registered (h : nat) (m : Manager) : Prop := ∃ o s, heap m !! o = Some s ∧ h ∈ handlers s.

Record state_inv (st : state) : Prop := {
  inv_manager : mgr_inv (manager st);
  inv_add : ∀ c o, c ∈ calls st → sc_pc c = SubAdd o → o < length (heap (manager st));
  inv_done : ∀ c, c ∈ calls st → sc_pc c = SubDone (Ok tt) → registered (sc_handler c) (manager st)
}.

Lemma add_handler_inv o h m : mgr_inv m → mgr_inv (add_handler o h m).
Proof.
  intros [H1 H2]. split; cbn; [| done]. intros t o' Ho'. destruct (H1 _ _ Ho') as (s & Hs & Hc & Hr).
  destruct (decide (o' = o)) as [-> | Hne].
  - exists (mkSub (handlers s ++ [h]) (refCount s + 1) (cancelled s)). rewrite list_lookup_alter_eq, Hs.
    split; [done |]. split; [done |]. cbn. rewrite length_app. cbn. lia.
  - exists s. rewrite list_lookup_alter_ne by done. done.
Qed.

Lemma install_inv t h m : mgr_inv m → mgr_inv (install t h m).2.
Proof.
  intros [H1 H2]. unfold install. destruct (subscriptions m !! t) as [o |] eqn:Ht; [done |]. cbn.
  assert (∀ t' o', subscriptions m !! t' = Some o' → o' < length (heap m)) as Hlt.
  { intros t' o' Ho'. destruct (H1 _ _ Ho') as (s & Hs & _). by eapply lookup_lt_Some. }
  split; cbn.
  - intros t' o' [[<- <-] | [_ Ho']]%lookup_insert_Some.
    + exists (mkSub [h] 1 false). rewrite lookup_app_r, Nat.sub_diag by lia. split; [done |]. split; [done |]. cbn. lia.
    + destruct (H1 _ _ Ho') as (s & Hs & Hl). exists s. split; [by apply lookup_app_l_Some | done].
  - intros t1 t2 o' [[<- <-] | [_ Ho1]]%lookup_insert_Some [[<- E] | [_ Ho2]]%lookup_insert_Some; [done | | |].
    + apply Hlt in Ho2. lia.
    + apply Hlt in Ho1. lia.
    + by eapply H2.
Qed.

Lemma Unsubscribe_inv t m : mgr_inv m → mgr_inv (Unsubscribe t m).
Proof.
  intros [H1 H2]. unfold Unsubscribe. destruct (subscriptions m !! t) as [o |] eqn:Ht; [| done].
  destruct (H1 _ _ Ht) as (s & Hs & Hc & Hr). rewrite Hs.
  assert (o < length (heap m)) as Hlt by (by eapply lookup_lt_Some).
  destruct (Z.leb_spec (refCount s - 1) 0); split; cbn.
  - intros t' o' [Hne Ho']%lookup_delete_Some. destruct (H1 _ _ Ho') as (s' & Hs' & Hl'). exists s'. split; [| done].
    rewrite list_lookup_insert_ne; [done |]. intros ->. apply Hne. by eapply H2.
  - intros t1 t2 o' [_ Ho1]%lookup_delete_Some [_ Ho2]%lookup_delete_Some. by eapply H2.
  - intros t' o' Ho'. destruct (decide (o' = o)) as [-> | Hne].
    + eexists. rewrite list_lookup_insert_eq by done. split; [done |]. split; [done |]. cbn. lia.
    + rewrite list_lookup_insert_ne by done. eauto.
  - done.
Qed.

Lemma Close_inv m : mgr_inv (Close m).
Proof. split; cbn; intros; by simplify_map_eq. Qed.

(** No operation takes a handler out of its object. *)
Definition extends (m m' : Manager) : Prop :=
  ∀ o s, heap m !! o = Some s → ∃ s', heap m' !! o = Some s' ∧ handlers s ⊆ handlers s'.

#[global] Instance extends_pre : PreOrder extends.
Proof.
  split.
  - intros m o s Hs. by exists s.
  - intros m1 m2 m3 H12 H23 o s Hs. destruct (H12 _ _ Hs) as (s2 & Hs2 & Hsub2).
    destruct (H23 _ _ Hs2) as (s3 & Hs3 & Hsub3). exists s3. split; [done | by etrans].
Qed.

Lemma extends_length m m' : extends m m' → length (heap m) ≤ length (heap m').
Proof.
  intros H. destruct (heap m) as [| s l] eqn:Hl; [cbn; lia |]. rewrite <- Hl.
  destruct (lookup_lt_is_Some_2 (heap m) (pred (length (heap m)))) as [x Hx]; [rewrite Hl; cbn; lia |].
  destruct (H _ _ Hx) as (s' & Hs' & _). apply lookup_lt_Some in Hs'. rewrite Hl in *. cbn in *. lia.
Qed.

Lemma extends_registered m m' h : extends m m' → registered h m → registered h m'.
Proof.
  intros He (o & s & Hs & Hh). destruct (He _ _ Hs) as (s' & Hs' & Hsub). exists o, s'. split; [done | by apply Hsub].
Qed.

Lemma add_handler_extends o h m : extends m (add_handler o h m).
Proof.
  intros o' s Hs. cbn. destruct (decide (o' = o)) as [-> | Hne].
  - rewrite list_lookup_alter_eq, Hs. eexists. split; [done |]. cbn. set_solver.
  - rewrite list_lookup_alter_ne by done. by exists s.
Qed.

Lemma install_extends t h m : extends m (install t h m).2.
Proof.
  unfold install. destruct (subscriptions m !! t); [done |]. intros o s Hs. exists s. split; [| done].
  by apply lookup_app_l_Some.
Qed.

Lemma Unsubscribe_extends t m : extends m (Unsubscribe t m).
Proof.
  unfold Unsubscribe. destruct (subscriptions m !! t) as [o |]; [| done].
  destruct (heap m !! o) as [s |] eqn:Hs; [| done].
  assert (o < length (heap m)) as Hlt by (by eapply lookup_lt_Some).
  destruct (Z.leb _ _); intros o' s' Hs'; cbn;
    (destruct (decide (o' = o)) as [-> | Hne];
     [rewrite list_lookup_insert_eq by done; eexists; split; [done |]; simplify_eq; done
     | rewrite list_lookup_insert_ne by done; by exists s']).
Qed.

Lemma Close_extends m : extends m (Close m).
Proof. intros o s Hs. cbn. rewrite list_lookup_imap, Hs. eexists. split; [done |]. done. Qed.

Lemma add_registered o h m : o < length (heap m) → registered h (add_handler o h m).
Proof.
  intros [s Hs]%lookup_lt_is_Some_2. exists o, (mkSub (handlers s ++ [h]) (refCount s + 1) (cancelled s)).
  cbn. rewrite list_lookup_alter_eq, Hs. split; [done |]. set_solver.
Qed.

Lemma install_registered t h m : (install t h m).1 = None → registered h (install t h m).2.
Proof.
  unfold install. destruct (subscriptions m !! t); [done |]. intros _. exists (length (heap m)), (mkSub [h] 1 false).
  cbn. rewrite lookup_app_r, Nat.sub_diag by lia. split; [done | left].
Qed.

(** A step of one call: the other calls keep what they rely on. *)
Lemma set_pc_inv i c pc m st :
  state_inv st → calls st !! i = Some c → mgr_inv m → extends (manager st) m →
  (∀ o, pc = SubAdd o → o < length (heap m)) → (pc = SubDone (Ok tt) → registered (sc_handler c) m) →
  state_inv (set_pc i c pc m st).
Proof.
  intros [H1 H2 H3] Hi Hm He Hadd Hdone.
  assert (∀ c', c' ∈ calls (set_pc i c pc m st) → c' = mkSubCall (sc_topic c) (sc_handler c) pc ∨ c' ∈ calls st) as Hin.
  { intros c' Hc'. cbn in Hc'. apply list_elem_of_lookup in Hc' as [j Hj].
    destruct (decide (i = j)) as [<- | Hne].
    - rewrite list_lookup_insert_eq in Hj by (by eapply lookup_lt_Some). simplify_eq. by left.
    - rewrite list_lookup_insert_ne in Hj by done. right. by eapply list_elem_of_lookup_2. }
  split; [done | |].
  - intros c' o [-> | Hc']%Hin Hpc; [cbn in Hpc; auto |].
    pose proof (H2 _ _ Hc' Hpc). pose proof (extends_length _ _ He). cbn. lia.
  - intros c' [-> | Hc']%Hin Hpc; [cbn in Hpc; auto |]. eapply extends_registered; [exact He |]. auto.
Qed.

Lemma manager_moved m st :
  state_inv st → mgr_inv m → extends (manager st) m → state_inv (mkState m (calls st)).
Proof.
  intros [H1 H2 H3] Hm He. split; [done | |]; cbn.
  - intros c o Hc Hpc. pose proof (H2 _ _ Hc Hpc). pose proof (extends_length _ _ He). lia.
  - intros c Hc Hpc. eapply extends_registered; [exact He |]. auto.
Qed.

Lemma mgr_step_inv st st' :
  state_inv st → mgr_step st st' → state_inv st' ∧ extends (manager st) (manager st').
Proof.
  intros Hinv Hstep. pose proof Hinv as [H1 H2 H3].
  assert (∀ t o, subscriptions (manager st) !! t = Some o → o < length (heap (manager st))) as Hlt.
  { intros t o Ho. destruct (inv_live _ H1 _ _ Ho) as (s & Hs & _). by eapply lookup_lt_Some. }
  destruct Hstep as [t h st | i c st Hi Hpc | i c st Hi Hpc | i c e st Hi Hpc | i c st Hi Hpc | i c o st Hi Hpc | t st | st].
  - split; [| done]. split; cbn; [done | |].
    + intros c o [Hc | ->%list_elem_of_singleton]%elem_of_app Hpc; [eauto | done].
    + intros c [Hc | ->%list_elem_of_singleton]%elem_of_app Hpc; [eauto | done].
  - split; [| done]. apply set_pc_inv; [done.. | |]; destruct (subscriptions _ !! _) eqn:Ht; [| done..].
    intros o [= <-]. eauto.
  - split; [| done]. by apply set_pc_inv.
  - split; [| done]. by apply set_pc_inv.
  - split; [| apply install_extends].
    apply set_pc_inv; [done | done | by apply install_inv | apply install_extends | |].
    + unfold install. destruct (subscriptions _ !! _) eqn:Ht; [| done]. cbn. intros o [= <-]. eauto.
    + intros Hd. apply install_registered. by destruct (install _ _ _).1.
  - split; [| apply add_handler_extends].
    apply set_pc_inv; [done | done | by apply add_handler_inv | apply add_handler_extends | done |].
    intros _. apply add_registered. eapply H2; [by eapply list_elem_of_lookup_2 | done].
  - split; [| apply Unsubscribe_extends]. apply manager_moved; [done | by apply Unsubscribe_inv | apply Unsubscribe_extends].
  - split; [| apply Close_extends]. apply manager_moved; [done | apply Close_inv | apply Close_extends].
Qed.

Definition start : state := mkState NewManager [].

Lemma start_inv : state_inv start.
Proof. split; [split; cbn; intros; by simplify_map_eq | |]; cbn; by intros ? ?%elem_of_nil || intros ? ? ?%elem_of_nil. Qed.

(** However calls overlap, the object of a topic in the map is live, has
    at least one subscriber and at least as many handlers as subscribers; and
    an object keeps every handler it was ever given, because nothing takes one
    out: the handler of a call that succeeded stays in the heap. *)
Theorem manager_invariant st st' :
  rtc mgr_step start st → rtc mgr_step st st' →
  (∀ t o, subscriptions (manager st') !! t = Some o → ∃ s, heap (manager st') !! o = Some s ∧
     cancelled s = false ∧ (1 ≤ refCount s ≤ Z.of_nat (length (handlers s)))%Z) ∧
  (∀ c, c ∈ calls st' → sc_pc c = SubDone (Ok tt) → registered (sc_handler c) (manager st')) ∧
  (∀ t o, subscriptions (manager st) !! t = Some o → subscriptions (manager st') !! t = Some o →
     called t (manager st) ⊆ called t (manager st')).
Proof.
  intros Hr Hr'.
  assert (state_inv st) as Hst.
  { refine (invariant_rtc mgr_step state_inv _ _ _ Hr start_inv). intros s s' Hs Hstep. by apply (mgr_step_inv s). }
  assert (state_inv st' ∧ extends (manager st) (manager st')) as [Hst' Hext].
  { refine (invariant_rtc mgr_step (λ s, state_inv s ∧ extends (manager st) (manager s)) _ _ _ Hr' _); [| by split].
    intros s s' [Hs He] Hstep. destruct (mgr_step_inv _ _ Hs Hstep) as [Hs' He']. split; [done | by etrans]. }
  split; [| split].
  - intros t o Ho. destruct (inv_live _ (inv_manager _ Hst') _ _ Ho) as (s & Hs & Hl). by exists s.
  - apply (inv_done _ Hst').
  - intros t o Ho Ho'. destruct (inv_live _ (inv_manager _ Hst) _ _ Ho) as (s & Hs & Hc & _).
    destruct (inv_live _ (inv_manager _ Hst') _ _ Ho') as (s' & Hs' & Hc' & _).
    destruct (Hext _ _ Hs) as (s2 & Hs2 & Hsub). unfold called. rewrite Ho, Ho'. cbn. rewrite Hs, Hs', Hc, Hc'. by simplify_eq.
Qed.

(** One call, from start to end. *)
Lemma manager_invariant_witness :
  ∃ st, rtc mgr_step start st ∧ called "alice.chat" (manager st) = [1] ∧
    ∃ s, heap (manager st) !! 0 = Some s ∧ cancelled s = false ∧ (1 ≤ refCount s ≤ Z.of_nat (length (handlers s)))%Z.
Proof.
  assert (∃ st, rtc mgr_step start st ∧ called "alice.chat" (manager st) = [1] ∧
            subscriptions (manager st) !! "alice.chat" = Some 0) as (st & Hr & Hc & Ho).
  { eexists. split; [| split].
    - eapply rtc_l; [apply (step_call "alice.chat" 1) |].
      eapply rtc_l; [by eapply (step_lookup 0) |]. eapply rtc_l; [by eapply (step_created 0) |].
      eapply rtc_l; [by eapply (step_install 0) |]. apply rtc_refl.
    - reflexivity.
    - reflexivity. }
  exists st. split; [exact Hr |]. split; [exact Hc |].
  destruct (manager_invariant start st) as (Hlive & _); [apply rtc_refl | exact Hr |]. exact (Hlive _ _ Ho).
Defined.

(** ** Calls one after the other *)

Lemma Subscribe_called t h m :
  mgr_inv m → called t (Subscribe t h m) = called t m ++ [h] ∧ mgr_inv (Subscribe t h m) ∧
  is_Some (subscriptions (Subscribe t h m) !! t).
Proof.
  intros Hinv. unfold Subscribe. destruct (subscriptions m !! t) as [o |] eqn:Ht.
  - destruct (inv_live _ Hinv _ _ Ht) as (s & Hs & Hc & _). split; [| split; [by apply add_handler_inv | by exists o]].
    unfold called. cbn. rewrite Ht. cbn. by rewrite list_lookup_alter_eq, Hs; cbn; rewrite Hc.
  - split; [| split; [by apply install_inv |]].
    + unfold called, install. rewrite Ht. cbn. rewrite lookup_insert_eq. cbn. by rewrite lookup_app_r, Nat.sub_diag by lia.
    + unfold install. rewrite Ht. cbn. rewrite lookup_insert_eq. eauto.
Qed.

Definition subscribe_all (t : string) (hs : list nat) (m : Manager) : Manager :=
  foldl (λ m h, Subscribe t h m) m hs.

Definition unsubscribe_times (t : string) (k : nat) (m : Manager) : Manager := Nat.iter k (Unsubscribe t) m.

(** The object of a topic after a series of calls. *)
Definition has_object (t : string) (hs : list nat) (n : Z) (m : Manager) : Prop :=
  ∃ o, subscriptions m !! t = Some o ∧ heap m !! o = Some (mkSub hs n false).

Lemma object_called t hs n m : has_object t hs n m → called t m = hs.
Proof. intros (o & Ho & Hs). unfold called. rewrite Ho. cbn. by rewrite Hs. Qed.

Lemma subscribe_all_object t hs h m :
  subscriptions m !! t = None → has_object t (h :: hs) (Z.of_nat (S (length hs))) (subscribe_all t (h :: hs) m).
Proof.
  intros Hm. cbn [subscribe_all foldl].
  assert (has_object t [h] 1 (Subscribe t h m)) as Hfirst.
  { unfold Subscribe, install. rewrite Hm. exists (length (heap m)). cbn. rewrite lookup_insert_eq.
    by rewrite lookup_app_r, Nat.sub_diag by lia. }
  change (h :: hs) with ([h] ++ hs). replace (Z.of_nat (S (length hs))) with (1 + Z.of_nat (length hs))%Z by lia.
  revert Hfirst. generalize (Subscribe t h m) as m1, [h] as pre, 1%Z as n.
  induction hs as [| h' hs IH]; intros m1 pre n (o & Ho & Hs); cbn.
  { exists o. rewrite app_nil_r, Z.add_0_r. by split. }
  change (h' :: hs) with ([h'] ++ hs). rewrite app_assoc.
  replace (n + Z.of_nat (S (length hs)))%Z with (n + 1 + Z.of_nat (length hs))%Z by lia.
  apply IH. exists o. unfold Subscribe. rewrite Ho. cbn. split; [done |]. by rewrite list_lookup_alter_eq, Hs.
Qed.

Lemma unsubscribe_object t hs n m :
  (1 < n)%Z → has_object t hs n m → has_object t hs (n - 1) (Unsubscribe t m).
Proof.
  intros Hn (o & Ho & Hs). exists o. unfold Unsubscribe. rewrite Ho, Hs. cbn.
  destruct (Z.leb_spec (n - 1) 0); [lia |]. cbn. split; [done |].
  rewrite list_lookup_insert_eq; [done | by eapply lookup_lt_Some].
Qed.

Lemma unsubscribe_last t hs m : has_object t hs 1 m → subscriptions (Unsubscribe t m) !! t = None.
Proof. intros (o & Ho & Hs). unfold Unsubscribe. rewrite Ho, Hs. exact (lookup_delete_eq _ _). Qed.

Lemma unsubscribe_none t k m : subscriptions m !! t = None → unsubscribe_times t k m = m.
Proof.
  intros Hnone. induction k as [| k IH]; [done |].
  change (unsubscribe_times t (S k) m) with (Unsubscribe t (unsubscribe_times t k m)). rewrite IH.
  unfold Unsubscribe. by rewrite Hnone.
Qed.

(** Of n subscribers to a topic, k cancel: while one remains, messages
    still reach the handlers of all n; when the last cancels they reach
    none. *)
Theorem unsubscribed_handlers_called t hs k m :
  subscriptions m !! t = None → hs ≠ [] →
  called t (unsubscribe_times t k (subscribe_all t hs m)) = if decide (k < length hs) then hs else [].
Proof.
  intros Hm Hne. destruct hs as [| h hs]; [done |].
  pose proof (subscribe_all_object t hs h m Hm) as Hobj. cbn [length].
  assert (∀ j, j < S (length hs) →
    has_object t (h :: hs) (Z.of_nat (S (length hs)) - Z.of_nat j) (unsubscribe_times t j (subscribe_all t (h :: hs) m)))
    as Hiter.
  { induction j as [| j IH]; intros Hj; [by replace (_ - Z.of_nat 0)%Z with (Z.of_nat (S (length hs))) by lia |].
    replace (Z.of_nat (S (length hs)) - Z.of_nat (S j))%Z with (Z.of_nat (S (length hs)) - Z.of_nat j - 1)%Z by lia.
    apply unsubscribe_object; [lia | apply IH; lia]. }
  case_decide as Hk.
  - exact (object_called _ _ _ _ (Hiter k Hk)).
  - replace k with ((k - S (length hs)) + S (length hs)) by lia. unfold unsubscribe_times. rewrite Nat.iter_add.
    assert (subscriptions (unsubscribe_times t (S (length hs)) (subscribe_all t (h :: hs) m)) !! t = None) as Hnone.
    { apply (unsubscribe_last t (h :: hs)). specialize (Hiter (length hs) ltac:(lia)).
      by replace (Z.of_nat (S (length hs)) - Z.of_nat (length hs))%Z with 1%Z in Hiter by lia. }
    pose proof (unsubscribe_none t (k - S (length hs)) _ Hnone) as Hsame. unfold unsubscribe_times in *.
    rewrite Hsame. unfold called. by rewrite Hnone.
Qed.

Lemma unsubscribed_handlers_called_witness :
  called "alice.chat" (unsubscribe_times "alice.chat" 2 (subscribe_all "alice.chat" [1; 2; 3] NewManager)) = [1; 2; 3].
Proof. apply (unsubscribed_handlers_called "alice.chat" [1; 2; 3] 2 NewManager); [reflexivity | discriminate]. Defined.

(** A call that found the object of a topic can be overtaken by the
    cancellation of its last subscriber: it returns success, and no message
    ever reaches its handler. *)
Theorem subscription_lost :
  ∃ st, rtc mgr_step start st ∧
    calls st = [mkSubCall "alice.chat" 1 (SubDone (Ok tt)); mkSubCall "alice.chat" 2 (SubDone (Ok tt))] ∧
    manager st = add_handler 0 2 (Unsubscribe "alice.chat" (Subscribe "alice.chat" 1 NewManager)) ∧
    called "alice.chat" (manager st) = [].
Proof.
  eexists. split; [| split; [| split]].
  - eapply rtc_l; [apply (step_call "alice.chat" 1) |].
    eapply rtc_l; [by eapply (step_lookup 0) |]. eapply rtc_l; [by eapply (step_created 0) |].
    eapply rtc_l; [by eapply (step_install 0) |]. eapply rtc_l; [apply (step_call "alice.chat" 2) |].
    eapply rtc_l; [by eapply (step_lookup 1) |]. eapply rtc_l; [apply (step_unsubscribe "alice.chat") |].
    eapply rtc_l; [by eapply (step_add 1 _ 0) |]. apply rtc_refl.
  - reflexivity.
  - reflexivity.
  - reflexivity.
Qed.

(** ** Namespaces *)

(** Topics of different namespaces are different when the names of the
    namespaces have no dot. *)
Lemma namespacedTopic_inj ns1 ns2 t1 t2 :
  IndexByte ns1 "."%char = None → IndexByte ns2 "."%char = None →
  namespacedTopic ns1 t1 = namespacedTopic ns2 t2 → ns1 = ns2 ∧ t1 = t2.
Proof.
  unfold namespacedTopic. revert ns2. induction ns1 as [| a ns1 IH]; intros [| b ns2]; cbn.
  - by intros _ _ [= ->].
  - intros _. destruct (Ascii.eqb_spec b "."); [done |]. intros _ [= Hb _]. congruence.
  - destruct (Ascii.eqb_spec a "."); [done |]. intros _ _ [= Ha _]. congruence.
  - destruct (Ascii.eqb_spec a "."); [done |]. destruct (Ascii.eqb_spec b "."); [done |].
    destruct (IndexByte ns1 ".") eqn:H1; [done |]. destruct (IndexByte ns2 ".") eqn:H2; [done |].
    intros _ _ [= -> E]. destruct (IH ns2) as [-> ->]; done.
Qed.

(** With a dot in the name, a namespace reads and writes topics of another. *)
Theorem namespaced_topics_collide :
  namespacedTopic "alice" "chat.room1" = namespacedTopic "alice.chat" "room1".
Proof. reflexivity. Qed.
