(* ===== verification/ReactorPool.v ===== *)
(** * Pre-warmed instances of modules ([core/pkg/serverless/reactor_pool.go])

    For each compiled module the pool keeps a channel of instances that have
    been initialised ahead of the requests.  The objects of the modules live in
    a heap, because a caller keeps a reference to one that has left the map.
    One step is one critical section of the pool's mutex or one operation on a
    channel; the goroutines that warm and drain are tasks that run at any time.

    An instance is a number, in the order of creation.  Whether a warm succeeds
    is a choice of the environment.  The model records which instances were
    handed to callers and which were closed by the pool. *)

From Stdlib Require Import ZArith Lia String.
From stdpp Require Import base tactics numbers list gmap strings relations pretty.
From S2P Require Import Prelude GoStrings.

Record modulePool := mkModule {
  ready : list nat;
  inflight : nat;
  nameSeq : nat;
  lastUse : nat
}.

(** A goroutine of the pool, or a caller inside [Acquire]. *)
Inductive task :=
| AcquireReceive (cid : string) (mp : nat)
| AcquireRefill (cid : string) (mp : nat)
| Warm (cid : string) (mp : nat) (name : string)
| Drain (mp : nat).

Record reactorPool := mkPool {
  pools : gmap string nat;
  heap : list modulePool;
  useSeq : nat;
  tasks : list task;
  names : list string;
  handed : list nat;
  closed : list nat
}.

(** [names] holds the name of each instance that was created. *)
Definition created (p : reactorPool) : nat := length (names p).

Definition set_module (mp : nat) (f : modulePool → modulePool) (p : reactorPool) : reactorPool :=
  mkPool (pools p) (alter f mp (heap p)) (useSeq p) (tasks p) (names p) (handed p) (closed p).

Definition spawn (ts : list task) (p : reactorPool) : reactorPool :=
  mkPool (pools p) (heap p) (useSeq p) (tasks p ++ ts) (names p) (handed p) (closed p).

Definition set_pools (m : gmap string nat) (p : reactorPool) : reactorPool :=
  mkPool m (heap p) (useSeq p) (tasks p) (names p) (handed p) (closed p).

(** [delete i (tasks p)]: the task is over. *)
Definition finish (i : nat) (p : reactorPool) : reactorPool :=
  mkPool (pools p) (heap p) (useSeq p) (delete i (tasks p)) (names p) (handed p) (closed p).

Definition give (inst : nat) (p : reactorPool) : reactorPool :=
  mkPool (pools p) (heap p) (useSeq p) (tasks p) (names p) (handed p ++ [inst]) (closed p).

Definition close_instance (inst : nat) (p : reactorPool) : reactorPool :=
  mkPool (pools p) (heap p) (useSeq p) (tasks p) (names p) (handed p) (closed p ++ [inst]).

Definition create (name : string) (p : reactorPool) : reactorPool :=
  mkPool (pools p) (heap p) (useSeq p) (tasks p) (names p ++ [name]) (handed p) (closed p).

(** The constructor: at least one instance per module and one module. *)
Definition at_least_one (n : Z) : nat := if (n <? 1)%Z then 1 else Z.to_nat n.

Definition newReactorPool (target maxModules : Z) : nat * nat * reactorPool :=
  (at_least_one target, at_least_one maxModules, mkPool ∅ [] 0 [] [] [] []).

Definition shortCID (cid : string) : string := if (12 <? str_len cid)%nat then str_take 12 cid else cid.

Definition warm_name (cid : string) (n : nat) : string := ("reactor-" ++ shortCID cid ++ "-" ++ pretty n)%string.
Definition cold_name (cid : string) (n : nat) : string := ("reactor-" ++ shortCID cid ++ "-cold-" ++ pretty n)%string.

Section Pool.
Context (target maxModules : nat).

Definition last_use (p : reactorPool) (mp : nat) : nat := from_option lastUse 0 (heap p !! mp).

(** The loop that looks for the least recently used module. *)
Fixpoint oldest_loop (p : reactorPool) (l : list (string * nat)) (best : option (string * nat)) : option (string * nat) :=
  match l with
  | [] => best
  | (k, mp) :: l' =>
      oldest_loop p l'
        match best with
        | None => Some (k, mp)
        | Some (k0, mp0) => if (last_use p mp <? last_use p mp0)%nat then Some (k, mp) else best
        end
  end.

(** The eviction loop; the number of modules bounds its rounds. *)
Fixpoint evict_loop (fuel : nat) (p : reactorPool) : reactorPool :=
  match fuel with
  | O => p
  | S fuel' =>
      if (maxModules <? size (pools p))%nat then
        match oldest_loop p (map_to_list (pools p)) None with
        | Some (k, mp) => evict_loop fuel' (spawn [Drain mp] (set_pools (delete k (pools p)) p))
        | None => p
        end
      else p
  end.

Definition evictLRULocked (p : reactorPool) : reactorPool := evict_loop (size (pools p)) p.

Definition getOrCreatePoolLocked (cid : string) (p : reactorPool) : nat * reactorPool :=
  let '(mp, p) := match pools p !! cid with
                  | Some mp => (mp, p)
                  | None =>
                      let mp := length (heap p) in
                      (mp, mkPool (<[cid := mp]> (pools p)) (heap p ++ [mkModule [] 0 0 0]) (useSeq p) (tasks p)
                             (names p) (handed p) (closed p))
                  end in
  let p := mkPool (pools p) (heap p) (S (useSeq p)) (tasks p) (names p) (handed p) (closed p) in
  let p := set_module mp (λ m, mkModule (ready m) (inflight m) (nameSeq m) (useSeq p)) p in
  (mp, if (maxModules <? size (pools p))%nat then evictLRULocked p else p).

(** The names of [need] warms, counted from the sequence number. *)
Definition warm_names (cid : string) (from need : nat) : list string := warm_name cid <$> seq (S from) need.

Definition refill (cid : string) (mp : nat) (p : reactorPool) : reactorPool :=
  match heap p !! mp with
  | None => p
  | Some m =>
      let need := target - (length (ready m) + inflight m) in
      spawn (Warm cid mp <$> warm_names cid (nameSeq m) need)
        (set_module mp (λ m, mkModule (ready m) (inflight m + need) (nameSeq m + need) (lastUse m)) p)
  end.

(** ** Steps *)

Inductive pool_step : reactorPool → reactorPool → Prop :=
| step_acquire cid p :
    pool_step p (spawn [AcquireReceive cid (getOrCreatePoolLocked cid p).1] (getOrCreatePoolLocked cid p).2)
| step_receive i cid mp m inst rest p :
    tasks p !! i = Some (AcquireReceive cid mp) → heap p !! mp = Some m → ready m = inst :: rest →
    pool_step p (spawn [AcquireRefill cid mp]
      (give inst (set_module mp (λ m, mkModule rest (inflight m) (nameSeq m) (lastUse m)) (finish i p))))
| step_receive_empty i cid mp m p :
    tasks p !! i = Some (AcquireReceive cid mp) → heap p !! mp = Some m → ready m = [] →
    pool_step p (spawn [AcquireRefill cid mp] (finish i p))
| step_refill i cid mp p :
    tasks p !! i = Some (AcquireRefill cid mp) →
    pool_step p (refill cid mp (finish i p))
| step_warm_failed i cid mp name p :
    tasks p !! i = Some (Warm cid mp name) →
    pool_step p (set_module mp (λ m, mkModule (ready m) (pred (inflight m)) (nameSeq m) (lastUse m)) (finish i p))
| step_warm_stored i cid mp m name p :
    tasks p !! i = Some (Warm cid mp name) → heap p !! mp = Some m →
    pools p !! cid = Some mp → length (ready m) < target →
    pool_step p (create name (set_module mp
      (λ m, mkModule (ready m ++ [created p]) (pred (inflight m)) (nameSeq m) (lastUse m)) (finish i p)))
| step_warm_surplus i cid mp m name p :
    tasks p !! i = Some (Warm cid mp name) → heap p !! mp = Some m →
    ¬ (pools p !! cid = Some mp ∧ length (ready m) < target) →
    pool_step p (close_instance (created p) (create name (set_module mp
      (λ m, mkModule (ready m) (pred (inflight m)) (nameSeq m) (lastUse m)) (finish i p))))
| step_instantiate cid p :
    pool_step p
      (let '(mp, p1) := getOrCreatePoolLocked cid p in
       let p2 := set_module mp (λ m, mkModule (ready m) (inflight m) (S (nameSeq m)) (lastUse m)) p1 in
       give (created p2) (create (cold_name cid (from_option nameSeq 0 (heap p2 !! mp))) p2))
| step_instantiate_failed cid p :
    pool_step p
      (let '(mp, p1) := getOrCreatePoolLocked cid p in
       set_module mp (λ m, mkModule (ready m) (inflight m) (S (nameSeq m)) (lastUse m)) p1)
| step_invalidate cid mp p :
    pools p !! cid = Some mp →
    pool_step p (spawn [Drain mp] (set_pools (delete cid (pools p)) p))
| step_close p :
    pool_step p (spawn (Drain <$> (map_to_list (pools p)).*2) (set_pools ∅ p))
| step_drain i mp m inst rest p :
    tasks p !! i = Some (Drain mp) → heap p !! mp = Some m → ready m = inst :: rest →
    pool_step p (close_instance inst (set_module mp (λ m, mkModule rest (inflight m) (nameSeq m) (lastUse m)) p))
| step_drained i mp m p :
    tasks p !! i = Some (Drain mp) → heap p !! mp = Some m → ready m = [] →
    pool_step p (finish i p).

(** ** The invariant *)

Definition places (p : reactorPool) : list nat := handed p ++ closed p ++ concat (ready <$> heap p).

Definition is_warm (mp : nat) (t : task) : Prop := match t with Warm _ mp' _ => mp' = mp | _ => False end.
#[local] Instance is_warm_dec mp t : Decision (is_warm mp t).
Proof. destruct t; cbn; apply _. Defined.

Definition task_module (t : task) : nat :=
  match t with
  | AcquireReceive _ mp | AcquireRefill _ mp | Warm _ mp _ | Drain mp => mp
  end.

(** Every instance is in one place; a module never has or awaits more than its
    target; the instances of a module that left the map are being drained. *)
Record pool_inv (p : reactorPool) : Prop := {
  inv_places : places p ≡ₚ seq 0 (created p);
  inv_pools : ∀ cid mp, pools p !! cid = Some mp → mp < length (heap p);
  inv_tasks : ∀ t, t ∈ tasks p → task_module t < length (heap p);
  inv_inflight : ∀ mp m, heap p !! mp = Some m → inflight m = length (filter (is_warm mp) (tasks p));
  inv_target : ∀ mp m, heap p !! mp = Some m → length (ready m) + inflight m ≤ target;
  inv_drained : ∀ mp m, heap p !! mp = Some m → ready m ≠ [] →
    (∃ cid, pools p !! cid = Some mp) ∨ Drain mp ∈ tasks p
}.

(** *** Lists of ready instances *)

Lemma ready_alter f (h : list modulePool) mp m :
  h !! mp = Some m → concat (ready <$> alter f mp h) ++ ready m ≡ₚ concat (ready <$> h) ++ ready (f m).
Proof.
  revert mp. induction h as [| x h IH]; intros [| mp] Hm; cbn in *; [done | done | |].
  - simplify_eq. rewrite <- !app_assoc. rewrite (Permutation_app_comm (concat _) (ready m)).
    rewrite (Permutation_app_comm (concat _) (ready (f m))), !app_assoc.
    apply Permutation_app_tail, Permutation_app_comm.
  - rewrite <- !app_assoc. apply Permutation_app_head. exact (IH mp Hm).
Qed.

Lemma ready_alter_same f (h : list modulePool) mp :
  (∀ m, ready (f m) = ready m) → ready <$> alter f mp h = ready <$> h.
Proof.
  intros Hf. revert mp. induction h as [| x h IH]; intros [| mp]; cbn; [done | done | by rewrite Hf | by rewrite <- (IH mp)].
Qed.

(** *** Tasks *)

Lemma warms_finish mp i t (ts : list task) :
  ts !! i = Some t →
  length (filter (is_warm mp) (delete i ts)) = length (filter (is_warm mp) ts) - (if decide (is_warm mp t) then 1 else 0).
Proof.
  revert i. induction ts as [| x ts IH]; intros [| i] Hi; [done | done | |]; cbn in Hi.
  - simplify_eq. change (delete 0 (t :: ts)) with ts. rewrite filter_cons. case_decide; cbn; lia.
  - specialize (IH i Hi). change (delete (S i) (x :: ts)) with (x :: delete i ts). rewrite !filter_cons.
    destruct (decide (is_warm mp x)); [| exact IH]. cbn [length]. rewrite IH. case_decide as Ht; [| lia].
    assert (t ∈ filter (is_warm mp) ts) as Hin
      by (apply list_elem_of_filter; split; [done | by eapply list_elem_of_lookup_2]).
    destruct (filter (is_warm mp) ts); [by apply elem_of_nil in Hin | cbn; lia].
Qed.

Definition warms (mp : nat) (ts : list task) : nat := length (filter (is_warm mp) ts).

Lemma warms_app mp ts ts' : warms mp (ts ++ ts') = warms mp ts + warms mp ts'.
Proof. unfold warms. by rewrite list.filter_app, length_app. Qed.

(** A step that changes one module and some tasks. *)
Lemma inv_update p p' mp m f :
  pool_inv p → heap p !! mp = Some m → pools p' = pools p → heap p' = alter f mp (heap p) →
  places p' ≡ₚ seq 0 (created p') →
  (∀ t, t ∈ tasks p' → t ∈ tasks p ∨ task_module t < length (heap p)) →
  (∀ mp', warms mp' (tasks p') + (if decide (mp' = mp) then inflight m else 0)
          = warms mp' (tasks p) + (if decide (mp' = mp) then inflight (f m) else 0)) →
  length (ready (f m)) + inflight (f m) ≤ target →
  (ready (f m) ≠ [] → (∃ cid, pools p !! cid = Some mp) ∨ Drain mp ∈ tasks p') →
  (∀ mp', mp' ≠ mp → Drain mp' ∈ tasks p → Drain mp' ∈ tasks p') →
  pool_inv p'.
Proof.
  intros [H1 H2 H3 H4 H5 H6] Hm Hpools Hheap Hplaces Htasks Hwarm Htarget Hlive Hdrain.
  assert (length (heap p') = length (heap p)) as Hlen by (by rewrite Hheap, length_alter).
  assert (∀ mp' m', heap p' !! mp' = Some m' →
            (mp' = mp ∧ m' = f m) ∨ (mp' ≠ mp ∧ heap p !! mp' = Some m')) as Hlook.
  { intros mp' m' Hm'. rewrite Hheap in Hm'. destruct (decide (mp' = mp)) as [-> | Hne].
    - rewrite list_lookup_alter_eq, Hm in Hm'. cbn in Hm'. simplify_eq. by left.
    - rewrite list_lookup_alter_ne in Hm' by done. by right. }
  split; [done | | | | |]; rewrite ?Hpools, ?Hlen.
  - done.
  - intros t [Ht | Ht]%Htasks; auto.
  - intros mp' m' [[-> ->] | [Hne Hm']]%Hlook; fold (warms mp (tasks p')) || fold (warms mp' (tasks p')).
    + specialize (Hwarm mp). rewrite !decide_True in Hwarm by done. specialize (H4 _ _ Hm). unfold warms in *. lia.
    + specialize (Hwarm mp'). rewrite !decide_False in Hwarm by done. specialize (H4 _ _ Hm'). unfold warms in *. lia.
  - intros mp' m' [[-> ->] | [Hne Hm']]%Hlook; [done | eauto].
  - intros mp' m' [[-> ->] | [Hne Hm']]%Hlook Hr; [auto |].
    destruct (H6 _ _ Hm' Hr) as [? | Hd]; [by left | right; auto].
Qed.

(** A step that takes modules out of the map and has them drained. *)
Lemma inv_removed p m' ts :
  pool_inv p → m' ⊆ pools p → (∀ t, t ∈ ts → ∃ mp, t = Drain mp ∧ mp < length (heap p)) →
  (∀ cid mp, pools p !! cid = Some mp → m' !! cid = Some mp ∨ Drain mp ∈ ts) →
  pool_inv (spawn ts (set_pools m' p)).
Proof.
  intros [H1 H2 H3 H4 H5 H6] Hsub Hts Hdrain. split; cbn; [done | | | | done |].
  - intros cid mp Hm. eapply H2, lookup_weaken; eauto.
  - intros t [Ht | Ht]%elem_of_app; [auto |]. destruct (Hts t Ht) as (mp & -> & Hlt). done.
  - intros mp m Hm. fold (warms mp (tasks p ++ ts)). rewrite warms_app. rewrite (H4 _ _ Hm). fold (warms mp (tasks p)).
    assert (warms mp ts = 0) as ->; [| lia]. unfold warms.
    destruct (filter (is_warm mp) ts) as [| t l] eqn:Hf; [done |]. exfalso.
    assert (t ∈ filter (is_warm mp) ts) as Hin by (rewrite Hf; left).
    apply list_elem_of_filter in Hin as [Hw Ht]. destruct (Hts t Ht) as (mp' & -> & _). done.
  - intros mp m Hm Hr. rewrite elem_of_app. destruct (H6 _ _ Hm Hr) as [[cid Hc] | Hd]; [| by right; left].
    destruct (Hdrain _ _ Hc) as [? | ?]; [left; eauto | by right; right].
Qed.

Lemma removed_one_inv k mp p :
  pool_inv p → pools p !! k = Some mp → pool_inv (spawn [Drain mp] (set_pools (delete k (pools p)) p)).
Proof.
  intros Hinv Hk. apply inv_removed; [done | apply delete_subseteq | |].
  - intros t ->%list_elem_of_singleton. exists mp. split; [done | by eapply inv_pools].
  - intros cid mp' Hc. destruct (decide (cid = k)) as [-> | Hne].
    + right. apply list_elem_of_singleton. congruence.
    + left. by rewrite lookup_delete_ne.
Qed.

Lemma seq_inv (p : reactorPool) n :
  pool_inv p → pool_inv (mkPool (pools p) (heap p) n (tasks p) (names p) (handed p) (closed p)).
Proof. by intros [H1 H2 H3 H4 H5 H6]. Qed.

Lemma add_module_inv cid p :
  pool_inv p →
  pool_inv (mkPool (<[cid := length (heap p)]> (pools p)) (heap p ++ [mkModule [] 0 0 0]) (useSeq p) (tasks p)
              (names p) (handed p) (closed p)) ∨ is_Some (pools p !! cid).
Proof.
  intros [H1 H2 H3 H4 H5 H6]. destruct (pools p !! cid) as [mp0 |] eqn:Hnone; [by right; eexists |]. left.
  assert (∀ mp m, (heap p ++ [mkModule [] 0 0 0]) !! mp = Some m →
    heap p !! mp = Some m ∨ (mp = length (heap p) ∧ m = mkModule [] 0 0 0)) as Hlook.
  { intros mp m Hm. apply lookup_app_Some in Hm as [? | [Hge Hm]]; [by left | right].
    destruct (mp - length (heap p)) as [| k] eqn:E; cbn in Hm; [| done]. simplify_eq. split; [lia | done]. }
  split; cbn; rewrite ?length_app; cbn.
  - unfold places. cbn. rewrite fmap_app, concat_app. cbn. by rewrite !app_nil_r.
  - intros cid' mp [[<- <-] | [_ Hm]]%lookup_insert_Some; [lia |]. specialize (H2 _ _ Hm). lia.
  - intros t Ht. specialize (H3 t Ht). lia.
  - intros mp m [Hm | [-> ->]]%Hlook; [eauto |]. cbn. symmetry.
    destruct (filter _ (tasks p)) as [| t l] eqn:Hf; [done | exfalso].
    assert (t ∈ filter (is_warm (length (heap p))) (tasks p)) as Hin by (rewrite Hf; left).
    apply list_elem_of_filter in Hin as [Hw Ht]. specialize (H3 t Ht). destruct t; try done. cbn in *. lia.
  - intros mp m [Hm | [-> ->]]%Hlook; [eauto | cbn; lia].
  - intros mp m [Hm | [-> ->]]%Hlook Hr; [| done]. destruct (H6 _ _ Hm Hr) as [[c Hc] | ?]; [left | by right].
    exists c. rewrite lookup_insert_ne; [done | congruence].
Qed.

(** Changing the bookkeeping of a module, not its instances. *)
Lemma touch_inv mp f p :
  pool_inv p → (∀ m, ready (f m) = ready m ∧ inflight (f m) = inflight m) → pool_inv (set_module mp f p).
Proof.
  intros Hinv Hf. destruct (heap p !! mp) as [m |] eqn:Hm.
  - destruct (Hf m) as [Hr Hi].
    apply (inv_update p _ mp m f); [done | done | done | done | | by left | | | |]; cbn.
    + unfold places. cbn. rewrite ready_alter_same by (intros; apply Hf). apply Hinv.
    + intros mp'. by rewrite Hi.
    + rewrite Hr, Hi. by eapply inv_target.
    + rewrite Hr. by eapply inv_drained.
    + done.
  - unfold set_module. replace (alter f mp (heap p)) with (heap p); [by destruct p |].
    symmetry. apply list_eq. intros j. destruct (decide (j = mp)) as [-> | Hne]; [by rewrite list_lookup_alter_eq, Hm | by rewrite list_lookup_alter_ne].
Qed.

Lemma oldest_loop_elem p l best k mp :
  oldest_loop p l best = Some (k, mp) → (k, mp) ∈ l ∨ best = Some (k, mp).
Proof.
  revert best. induction l as [| [k0 mp0] l IH]; intros best; cbn [oldest_loop]; [by right |].
  intros [H | H]%IH; [left; by right |].
  destruct best as [[k1 mp1] |]; [destruct (_ <? _)%nat |]; simplify_eq; [left; by left | by right | left; by left].
Qed.

Lemma oldest_loop_some p l best : l ≠ [] ∨ is_Some best → is_Some (oldest_loop p l best).
Proof.
  revert best. induction l as [| [k0 mp0] l IH]; intros best H; cbn [oldest_loop]; [by destruct H |].
  apply IH. right. destruct best as [[k1 mp1] |]; [destruct (_ <? _)%nat |]; eauto.
Qed.

Lemma evict_loop_inv fuel p :
  pool_inv p →
  pool_inv (evict_loop fuel p) ∧ size (pools (evict_loop fuel p)) ≤ maxModules `max` (size (pools p) - fuel) ∧
  heap (evict_loop fuel p) = heap p ∧ names (evict_loop fuel p) = names p ∧ handed (evict_loop fuel p) = handed p ∧
  (∀ t, t ∈ tasks p → t ∈ tasks (evict_loop fuel p)).
Proof.
  revert p. induction fuel as [| fuel IH]; intros p Hinv; cbn [evict_loop].
  { split; [done |]. split; [lia | done]. }
  destruct (Nat.ltb_spec maxModules (size (pools p))) as [Hgt | Hle]; [| split; [done |]; split; [lia | done]].
  destruct (oldest_loop p (map_to_list (pools p)) None) as [[k mp] |] eqn:Ho.
  - apply oldest_loop_elem in Ho as [Ho | Ho]; [| done]. apply elem_of_map_to_list in Ho.
    destruct (IH (spawn [Drain mp] (set_pools (delete k (pools p)) p))) as (Hi & Hs & Hh & Hn & Hg & Ht).
    { by apply removed_one_inv. }
    split; [done |]. split; [| split; [done | split; [done | split; [done |]]]].
    + cbn in Hs. rewrite map_size_delete, Ho in Hs. cbn in Hs. lia.
    + intros t Hin. apply Ht. cbn. apply elem_of_app. by left.
  - exfalso. destruct (oldest_loop_some p (map_to_list (pools p)) None) as [x Hx]; [| congruence].
    left. intros E. apply (f_equal length) in E. rewrite length_map_to_list in E. cbn in E. lia.
Qed.

Lemma getOrCreate_inv cid p :
  pool_inv p → size (pools p) ≤ maxModules →
  let '(mp, p') := getOrCreatePoolLocked cid p in
  pool_inv p' ∧ size (pools p') ≤ maxModules ∧ mp < length (heap p') ∧
  names p' = names p ∧ handed p' = handed p ∧ ∀ t, t ∈ tasks p → t ∈ tasks p'.
Proof.
  intros Hinv Hsize. unfold getOrCreatePoolLocked.
  set (q := match pools p !! cid with Some mp => (mp, p) | None => _ end).
  assert (pool_inv q.2 ∧ size (pools q.2) ≤ S maxModules ∧ q.1 < length (heap q.2) ∧
          names q.2 = names p ∧ handed q.2 = handed p ∧ tasks q.2 = tasks p) as (Hq & Hs & Hmp & Hn & Hh & Ht).
  { unfold q. destruct (pools p !! cid) as [mp |] eqn:Hc; cbn.
    - split; [done |]. split; [lia |]. split; [by eapply inv_pools | done].
    - split; [destruct (add_module_inv cid p Hinv) as [? | [? ?]]; [done | congruence] |].
      split; [rewrite map_size_insert, Hc; cbn; lia |]. split; [rewrite length_app; cbn; lia | done]. }
  destruct q as [mp p1]. cbn [fst snd] in *.
  set (p2 := set_module mp _ _).
  assert (pool_inv p2) as H2 by (apply touch_inv; [by apply seq_inv | done]).
  assert (length (heap p2) = length (heap p1)) as Hlen by (cbn; apply length_alter).
  assert (tasks p2 = tasks p) as Ht2 by (cbn; done).
  destruct (Nat.ltb_spec maxModules (size (pools p2))) as [Hgt | Hle].
  - destruct (evict_loop_inv (size (pools p2)) p2 H2) as (Hi & Hsz & Heap & Hnm & Hhd & Htk). fold (evictLRULocked p2) in *.
    split; [done |]. split; [lia |]. split; [rewrite Heap, Hlen; done |]. split; [by rewrite Hnm |].
    split; [by rewrite Hhd |]. intros t Hin. apply Htk. by rewrite Ht2.
  - split; [done |]. split; [done |]. split; [by rewrite Hlen |]. split; [done |]. split; [done |].
    intros t Hin. by rewrite Ht2.
Qed.

(** A new task that neither warms nor drains. *)
Lemma spawn_inv t p :
  pool_inv p → task_module t < length (heap p) → (∀ mp, ¬ is_warm mp t) → pool_inv (spawn [t] p).
Proof.
  intros [H1 H2 H3 H4 H5 H6] Hlt Hw. split; cbn; [done | done | | | done |].
  - intros t' [? | ->%list_elem_of_singleton]%elem_of_app; auto.
  - intros mp m Hm. fold (warms mp (tasks p ++ [t])). rewrite warms_app, (H4 _ _ Hm). unfold warms at 2.
    rewrite filter_cons, decide_False by done. cbn. unfold warms. lia.
  - intros mp m Hm Hr. destruct (H6 _ _ Hm Hr) as [? | ?]; [by left | right; apply elem_of_app; by left].
Qed.

(** A task that neither warms nor drains is over. *)
Lemma finish_inv i t p :
  pool_inv p → tasks p !! i = Some t → (∀ mp, ¬ is_warm mp t) →
  (∀ mp m, t = Drain mp → heap p !! mp = Some m → ready m = []) → pool_inv (finish i p).
Proof.
  intros [H1 H2 H3 H4 H5 H6] Hi Hw Hd. split; cbn; [done | done | | | done |].
  - intros t' Ht'. apply H3. by eapply list_elem_of_delete_inv.
  - intros mp m Hm. rewrite (warms_finish mp i t), decide_False, (H4 _ _ Hm) by done. lia.
  - intros mp m Hm Hr. destruct (H6 _ _ Hm Hr) as [? | Hin]; [by left | right].
    eapply elem_of_delete_other; [done | done |]. intros E. by rewrite (Hd mp m) in Hr.
Qed.

(** *** Steps preserve the invariant *)

Lemma warms_warm mp' cid mp names :
  warms mp' (Warm cid mp <$> names) = if decide (mp' = mp) then length names else 0.
Proof.
  unfold warms. induction names as [| n l IH]; [by destruct (decide (mp' = mp)) |].
  change (Warm cid mp <$> n :: l) with (Warm cid mp n :: (Warm cid mp <$> l)). rewrite filter_cons.
  destruct (decide (mp' = mp)) as [-> | Hne].
  - rewrite decide_True by done. cbn [length]. by rewrite IH.
  - rewrite decide_False by (cbn; congruence). exact IH.
Qed.

Lemma refill_inv cid mp p : pool_inv p → pool_inv (refill cid mp p).
Proof.
  intros Hinv. unfold refill. destruct (heap p !! mp) as [m |] eqn:Hm; [| done].
  pose proof (inv_target p Hinv _ _ Hm) as Htarget.
  eapply (inv_update p _ mp m); [done | done | done | done | | | | | |]; cbn -[warms].
  - unfold places. cbn. rewrite ready_alter_same by done. apply Hinv.
  - intros t [? | Ht]%elem_of_app; [by left | right].
    apply list_elem_of_fmap in Ht as (n & -> & _). cbn. by eapply lookup_lt_Some.
  - intros mp'. rewrite warms_app, warms_warm. unfold warm_names. rewrite length_fmap, length_seq.
    case_decide; lia.
  - lia.
  - intros Hr. destruct (inv_drained p Hinv _ _ Hm Hr) as [? | ?]; [by left | right; apply elem_of_app; by left].
  - intros mp' _ ?. apply elem_of_app. by left.
Qed.

(** A ready instance is taken from its channel. *)
Lemma ready_taken (p : reactorPool) mp m inst rest f :
  heap p !! mp = Some m → ready m = inst :: rest → ready (f m) = rest →
  inst :: concat (ready <$> alter f mp (heap p)) ≡ₚ concat (ready <$> heap p).
Proof.
  intros Hm Hr Hf. pose proof (ready_alter f _ _ _ Hm) as Hperm. rewrite Hr, Hf in Hperm.
  apply (Permutation_app_inv_r rest). rewrite <- Hperm. cbn. apply Permutation_middle.
Qed.

Lemma taken_inv p p' mp m inst rest :
  pool_inv p → heap p !! mp = Some m → ready m = inst :: rest →
  pools p' = pools p → tasks p' = tasks p → names p' = names p →
  heap p' = alter (λ m, mkModule rest (inflight m) (nameSeq m) (lastUse m)) mp (heap p) →
  handed p' ++ closed p' ≡ₚ inst :: handed p ++ closed p →
  pool_inv p'.
Proof.
  intros Hinv Hm Hr Hp Ht Hn Hh Hplaces.
  eapply (inv_update p _ mp m); [done | done | done | exact Hh | | | | | |]; rewrite ?Ht.
  - unfold places, created. rewrite app_assoc, Hplaces, Hn, Hh. rewrite <- (inv_places p Hinv). unfold places.
    rewrite <- (ready_taken p mp m inst rest (λ m, mkModule rest (inflight m) (nameSeq m) (lastUse m)) Hm Hr eq_refl), app_assoc. cbn. apply Permutation_middle.
  - by left.
  - done.
  - pose proof (inv_target p Hinv _ _ Hm) as H. rewrite Hr in H. cbn in *. lia.
  - intros _. apply (inv_drained p Hinv _ _ Hm). by rewrite Hr.
  - done.
Qed.

(** A warm is over: one task and one count less, and perhaps one instance more. *)
Lemma warmed_inv p p' i cid mp m name f :
  pool_inv p → tasks p !! i = Some (Warm cid mp name) → heap p !! mp = Some m →
  pools p' = pools p → tasks p' = delete i (tasks p) → heap p' = alter f mp (heap p) →
  inflight (f m) = pred (inflight m) →
  ready (f m) = ready m ∨ (length (ready (f m)) = S (length (ready m)) ∧ pools p !! cid = Some mp) →
  places p' ≡ₚ seq 0 (created p') →
  pool_inv p'.
Proof.
  intros Hinv Hi Hm Hp Ht Hh Hf Hr Hplaces.
  assert (1 ≤ inflight m) as Hpos.
  { rewrite (inv_inflight p Hinv _ _ Hm).
    pose proof (list_elem_of_lookup_2 _ _ _ Hi) as Hin.
    assert (Warm cid mp name ∈ filter (is_warm mp) (tasks p)) as Hin' by (by apply list_elem_of_filter).
    destruct (filter (is_warm mp) (tasks p)); [by apply elem_of_nil in Hin' | cbn; lia]. }
  pose proof (inv_target p Hinv _ _ Hm) as Htarget.
  eapply (inv_update p _ mp m); [done | done | done | exact Hh | done | | | | |]; rewrite ?Ht.
  - intros t Hin%list_elem_of_delete_inv. by left.
  - intros mp'. unfold warms. rewrite (warms_finish mp' i _ _ Hi), Hf. cbn [is_warm].
    destruct (decide (mp' = mp)) as [-> | Hne].
    + rewrite decide_True by done. rewrite <- (inv_inflight p Hinv _ _ Hm). lia.
    + rewrite decide_False by (cbn; congruence). lia.
  - rewrite Hf. destruct Hr as [-> | [-> _]]; lia.
  - intros Hne. destruct Hr as [Hr | [_ Hc]]; [| left; eauto]. rewrite Hr in Hne.
    destruct (inv_drained p Hinv _ _ Hm Hne) as [? | ?]; [by left | right].
    by eapply elem_of_delete_other.
  - intros mp' _ Hd. by eapply elem_of_delete_other.
Qed.

(** A new instance joins the instances of one place. *)
Lemma places_new (p p' : reactorPool) n :
  pool_inv p → names p' = names p ++ [n] → places p' ≡ₚ places p ++ [created p] →
  places p' ≡ₚ seq 0 (created p').
Proof.
  intros Hinv Hn ->. unfold created in *. rewrite Hn, length_app, Nat.add_1_r, seq_S.
  by rewrite (inv_places p Hinv).
Qed.

Lemma ready_stored (h : list modulePool) mp m x f :
  h !! mp = Some m → ready (f m) = ready m ++ [x] →
  concat (ready <$> alter f mp h) ≡ₚ concat (ready <$> h) ++ [x].
Proof.
  intros Hm Hf. pose proof (ready_alter f _ _ _ Hm) as Hperm. rewrite Hf in Hperm.
  apply (Permutation_app_inv_r (ready m)). rewrite Hperm, <- app_assoc.
  apply Permutation_app_head, Permutation_app_comm.
Qed.

(** A cold instance goes to its caller. *)
Lemma given_inv n p : pool_inv p → pool_inv (give (created p) (create n p)).
Proof.
  intros Hinv. assert (places (give (created p) (create n p)) ≡ₚ places p ++ [created p]) as Hp.
  { unfold places. cbn. rewrite <- !app_assoc. apply Permutation_app_head.
    by rewrite (Permutation_app_comm [created p]), <- app_assoc. }
  split; [by eapply places_new | apply Hinv..].
Qed.

Lemma pool_step_inv p p' :
  pool_step p p' → pool_inv p → size (pools p) ≤ maxModules → pool_inv p' ∧ size (pools p') ≤ maxModules.
Proof.
  intros Hstep Hinv Hsize. destruct Hstep.
  - pose proof (getOrCreate_inv cid p Hinv Hsize) as H.
    destruct (getOrCreatePoolLocked cid p) as [mp p']. destruct H as (Hi & Hs & Hl & _). cbn [fst snd].
    split; [by apply spawn_inv; auto | done].
  - split; [| done]. apply spawn_inv; [| cbn; rewrite length_alter; by eapply lookup_lt_Some | auto].
    eapply (taken_inv (finish i p)); [| exact H0 | exact H1 | done | done | done | done |].
    + by eapply finish_inv; eauto.
    + cbn. rewrite <- app_assoc. cbn. symmetry. apply Permutation_middle.
  - split; [| done]. apply spawn_inv; [by eapply finish_inv; eauto | cbn; by eapply lookup_lt_Some | auto].
  - split; [apply refill_inv; by eapply finish_inv; eauto |]. unfold refill. by destruct (heap _ !! mp).
  - split; [| done]. pose proof (inv_tasks p Hinv _ (list_elem_of_lookup_2 _ _ _ H)) as Hlt.
    apply lookup_lt_is_Some_2 in Hlt as [m Hm]. cbn in Hm.
    eapply (warmed_inv p); [done | exact H | exact Hm | done | done | done | done | by left |].
    unfold places. cbn. rewrite ready_alter_same by done. apply Hinv.
  - split; [| done].
    eapply (warmed_inv p); [done | exact H | exact H0 | done | done | done | done | |].
    + right. split; [cbn; rewrite length_app; cbn; lia | done].
    + eapply (places_new p); [done | done |]. unfold places. cbn.
      rewrite (ready_stored _ _ m (created p)) by done. by rewrite !app_assoc.
  - split; [| done].
    eapply (warmed_inv p); [done | exact H | exact H0 | done | done | done | done | by left |].
    eapply (places_new p); [done | done |]. unfold places. cbn. rewrite ready_alter_same by done.
    rewrite <- !app_assoc. apply Permutation_app_head, Permutation_app_head, Permutation_app_comm.
  - pose proof (getOrCreate_inv cid p Hinv Hsize) as H.
    destruct (getOrCreatePoolLocked cid p) as [mp p']. destruct H as (Hi & Hs & _).
    split; [by apply given_inv, touch_inv | done].
  - pose proof (getOrCreate_inv cid p Hinv Hsize) as H.
    destruct (getOrCreatePoolLocked cid p) as [mp p']. destruct H as (Hi & Hs & _).
    split; [by apply touch_inv | done].
  - split; [by apply removed_one_inv | cbn; rewrite map_size_delete, H; cbn; lia].
  - split; [| cbn; rewrite map_size_empty; lia].
    apply inv_removed; [done | apply map_empty_subseteq | |].
    + intros t (mp & -> & Hin)%list_elem_of_fmap. exists mp. split; [done |].
      apply list_elem_of_fmap in Hin as ([cid mp'] & -> & Hin). apply elem_of_map_to_list in Hin. by eapply inv_pools.
    + intros cid mp Hc. right. apply list_elem_of_fmap_2, list_elem_of_fmap. exists (cid, mp).
      by rewrite elem_of_map_to_list.
  - split; [| done]. eapply (taken_inv p); [done | exact H0 | exact H1 | done | done | done | done |].
    cbn. rewrite app_assoc. by rewrite (Permutation_app_comm _ [inst]).
  - split; [| done]. eapply finish_inv; eauto. intros mp' m' E Hm'. simplify_eq. done.
Qed.

(** ** The least recently used module *)

(** No use is later than the clock, and two modules never share a use. *)
Record use_inv (p : reactorPool) : Prop := {
  use_bound : ∀ mp m, heap p !! mp = Some m → lastUse m ≤ useSeq p;
  use_heap : ∀ cid mp, pools p !! cid = Some mp → mp < length (heap p);
  use_inj : ∀ cid cid' mp, pools p !! cid = Some mp → pools p !! cid' = Some mp → cid = cid'
}.

Lemma oldest_loop_least p l best k mp :
  oldest_loop p l best = Some (k, mp) →
  (∀ k' mp', (k', mp') ∈ l ∨ best = Some (k', mp') → last_use p mp ≤ last_use p mp').
Proof.
  revert best. induction l as [| [k0 mp0] l IH]; intros best Ho k' mp' Hin; cbn [oldest_loop] in Ho.
  { destruct Hin as [Hin | Hin]; [by apply elem_of_nil in Hin | by simplify_eq]. }
  specialize (IH _ Ho). destruct Hin as [[Hin | Hin]%elem_of_cons | ->].
  - simplify_eq. destruct best as [[k1 mp1] |]; [| by eapply IH; right].
    destruct (Nat.ltb_spec (last_use p mp0) (last_use p mp1)); [by eapply IH; right |].
    transitivity (last_use p mp1); [by eapply IH; right | done].
  - eapply IH. by left.
  - destruct (Nat.ltb_spec (last_use p mp0) (last_use p mp')); [| by eapply IH; right].
    transitivity (last_use p mp0); [by eapply IH; right | lia].
Qed.

(** The module used last survives the eviction, whatever its length. *)
Lemma evict_loop_keeps fuel p cid mp :
  1 ≤ maxModules → pools p !! cid = Some mp →
  (∀ cid' mp', pools p !! cid' = Some mp' → cid' ≠ cid → last_use p mp' < last_use p mp) →
  pools (evict_loop fuel p) !! cid = Some mp.
Proof.
  intros Hmax. revert p. induction fuel as [| fuel IH]; intros p Hc Hlast; cbn [evict_loop]; [done |].
  destruct (Nat.ltb_spec maxModules (size (pools p))) as [Hgt | Hle]; [| done].
  destruct (oldest_loop p _ None) as [[k mp0] |] eqn:Ho; [| done].
  assert (k ≠ cid) as Hne.
  { intros ->. assert (∃ cid' mp', pools p !! cid' = Some mp' ∧ cid' ≠ cid) as (cid' & mp' & Hc' & Hne').
    { destruct (decide (delete cid (pools p) = ∅)) as [He | (cid' & mp' & H)%map_choose].
      - apply (f_equal size) in He. rewrite map_size_delete, Hc, map_size_empty in He. cbn in He. lia.
      - apply lookup_delete_Some in H as [? ?]. eauto. }
    pose proof (oldest_loop_least _ _ _ _ _ Ho cid' mp' (or_introl (proj2 (elem_of_map_to_list _ _ _) Hc'))) as Hle.
    apply oldest_loop_elem in Ho as [Ho | Ho]; [| done]. apply elem_of_map_to_list in Ho. simplify_eq.
    specialize (Hlast _ _ Hc' Hne'). lia. }
  apply IH; cbn; [by rewrite lookup_delete_ne |].
  intros cid' mp' [_ Hc']%lookup_delete_Some Hne'. exact (Hlast _ _ Hc' Hne').
Qed.

Lemma use_frame p p' :
  use_inv p → pools p' ⊆ pools p → lastUse <$> heap p' = lastUse <$> heap p → useSeq p' = useSeq p → use_inv p'.
Proof.
  intros [H1 H2 H3] Hp Hh Hu.
  assert (length (heap p') = length (heap p)) as Hlen
    by (apply (f_equal length) in Hh; by rewrite !length_fmap in Hh).
  split.
  - intros mp m Hm. rewrite Hu. apply (f_equal (lookup mp)) in Hh. rewrite !list_lookup_fmap, Hm in Hh. cbn in Hh.
    destruct (heap p !! mp) as [m' |] eqn:Hm'; cbn in Hh; [| done]. simplify_eq. specialize (H1 _ _ Hm'). lia.
  - intros cid mp Hc. rewrite Hlen. eapply H2, lookup_weaken; eauto.
  - intros cid cid' mp Hc Hc'. eapply H3; eapply lookup_weaken; eauto.
Qed.

Lemma lastUse_alter f (h : list modulePool) mp :
  (∀ m, lastUse (f m) = lastUse m) → lastUse <$> alter f mp h = lastUse <$> h.
Proof.
  intros Hf. revert mp. induction h as [| x h IH]; intros [| mp]; cbn; [done | done | by rewrite Hf | by rewrite <- (IH mp)].
Qed.

Lemma evict_loop_use fuel p :
  pools (evict_loop fuel p) ⊆ pools p ∧ heap (evict_loop fuel p) = heap p ∧ useSeq (evict_loop fuel p) = useSeq p.
Proof.
  revert p. induction fuel as [| fuel IH]; intros p; cbn [evict_loop]; [done |].
  destruct (_ <? _)%nat; [| done]. destruct (oldest_loop p _ None) as [[k mp] |]; [| done].
  destruct (IH (spawn [Drain mp] (set_pools (delete k (pools p)) p))) as (H1 & H2 & H3). cbn in *.
  split; [| done]. etrans; [exact H1 | apply delete_subseteq].
Qed.

(** The pool after the module was found or made and its use recorded. *)
Lemma touched_use cid p q :
  use_inv p →
  q = (match pools p !! cid with
       | Some mp => (mp, p)
       | None => (length (heap p), mkPool (<[cid := length (heap p)]> (pools p)) (heap p ++ [mkModule [] 0 0 0])
                                     (useSeq p) (tasks p) (names p) (handed p) (closed p))
       end) →
  let p2 := set_module q.1 (λ m, mkModule (ready m) (inflight m) (nameSeq m) (S (useSeq p)))
              (mkPool (pools q.2) (heap q.2) (S (useSeq p)) (tasks q.2) (names q.2) (handed q.2) (closed q.2)) in
  use_inv p2 ∧ pools p2 !! cid = Some q.1 ∧ useSeq q.2 = useSeq p ∧
  (∀ cid' mp', pools p2 !! cid' = Some mp' → cid' ≠ cid → last_use p2 mp' < last_use p2 q.1).
Proof.
  intros [H1 H2 H3] ->.
  set (q := match pools p !! cid with Some mp => (mp, p) | None => _ end).
  assert (pools q.2 !! cid = Some q.1 ∧ useSeq q.2 = useSeq p ∧ use_inv q.2) as (Hc & Hu & [Q1 Q2 Q3]).
  { unfold q. destruct (pools p !! cid) as [mp |] eqn:Hc; cbn; [by split_and!|].
    split; [by rewrite lookup_insert_eq |]. split; [done |]. split; cbn.
    - intros mp m [Hm | [Hge Hm]]%lookup_app_Some; [eauto |].
      apply list_lookup_singleton_Some in Hm as [_ <-]. cbn. lia.
    - intros cid' mp [[_ <-] | [_ Hm]]%lookup_insert_Some; rewrite length_app; cbn; [lia |]. specialize (H2 _ _ Hm). lia.
    - intros c c' mp [[<- <-] | [Hn Hm]]%lookup_insert_Some [[<- E] | [Hn' Hm']]%lookup_insert_Some; eauto.
      + specialize (H2 _ _ Hm'). lia.
      + specialize (H2 _ _ Hm). lia. }
  intros p2. clearbody q. destruct q as [mp p1]. unfold p2. clear p2. cbn [fst snd] in *. set (p2 := set_module mp _ _).
  assert (mp < length (heap p1)) as Hlt by eauto.
  assert (∀ j, heap p2 !! j = if decide (j = mp) then (λ m, mkModule (ready m) (inflight m) (nameSeq m) (S (useSeq p))) <$> heap p1 !! j
                              else heap p1 !! j) as Hlook.
  { intros j. cbn. case_decide; subst; [apply list_lookup_alter_eq | by apply list_lookup_alter_ne]. }
  split; [split |]; cbn [useSeq pools p2 set_module].
  - intros j m Hm. rewrite Hlook in Hm. case_decide; [| specialize (Q1 _ _ Hm); cbn; lia].
    apply fmap_Some in Hm as (m' & _ & ->). cbn. lia.
  - intros c j Hj. cbn. rewrite length_alter. eauto.
  - eauto.
  - split; [done |]. split; [done |]. intros cid' mp' Hc' Hne. unfold last_use. rewrite !Hlook.
    rewrite decide_False by (intros ->; apply Hne; eauto). rewrite decide_True by done.
    apply lookup_lt_is_Some_2 in Hlt as [m Hm]. rewrite Hm. cbn.
    destruct (heap p1 !! mp') as [m' |] eqn:Hm'; cbn; [| lia]. specialize (Q1 _ _ Hm'). lia.
Qed.

Lemma getOrCreate_use cid p :
  use_inv p →
  use_inv (getOrCreatePoolLocked cid p).2 ∧
  (1 ≤ maxModules → pools (getOrCreatePoolLocked cid p).2 !! cid = Some (getOrCreatePoolLocked cid p).1).
Proof.
  intros Hinv. unfold getOrCreatePoolLocked.
  destruct (touched_use cid p _ Hinv eq_refl) as (Hu & Hc & He & Hlast).
  set (q := match pools p !! cid with Some mp => (mp, p) | None => _ end) in *. clearbody q.
  destruct q as [mp p1]. cbn [fst snd] in *. rewrite He.
  cbn [useSeq].
  set (p2 := set_module mp _ _) in *. clearbody p2.
  destruct (maxModules <? size (pools p2))%nat; cbn [fst snd]; [| done].
  destruct (evict_loop_use (size (pools p2)) p2) as (E1 & E2 & E3). split.
  - eapply use_frame; eauto. unfold evictLRULocked. by rewrite E2.
  - intros Hmax. by apply evict_loop_keeps.
Qed.

Lemma pool_step_use p p' : pool_step p p' → use_inv p → use_inv p'.
Proof.
  intros Hstep Hinv.
  destruct Hstep; try (eapply use_frame; [exact Hinv | done | cbn; by rewrite ?lastUse_alter | done]).
  - destruct (getOrCreate_use cid p Hinv) as [Hu _]. by eapply use_frame; [exact Hu | ..].
  - unfold refill. destruct (heap _ !! mp); eapply use_frame; [exact Hinv | done | cbn; by rewrite lastUse_alter | done | exact Hinv | done..].
  - destruct (getOrCreate_use cid p Hinv) as [Hu _]. destruct (getOrCreatePoolLocked cid p) as [mp p1].
    eapply use_frame; [exact Hu | done | cbn; by rewrite lastUse_alter | done].
  - destruct (getOrCreate_use cid p Hinv) as [Hu _]. destruct (getOrCreatePoolLocked cid p) as [mp p1].
    eapply use_frame; [exact Hu | done | cbn; by rewrite lastUse_alter | done].
  - eapply use_frame; [exact Hinv | cbn; apply delete_subseteq | done | done].
  - eapply use_frame; [exact Hinv | cbn; apply map_empty_subseteq | done | done].
Qed.

(** ** Reachable pools *)

Lemma reachable_inv p :
  rtc pool_step (mkPool ∅ [] 0 [] [] [] []) p → pool_inv p ∧ size (pools p) ≤ maxModules ∧ use_inv p.
Proof.
  intros Hrtc.
  apply (rtc_ind_r (R := pool_step) (λ q, pool_inv q ∧ size (pools q) ≤ maxModules ∧ use_inv q) (mkPool ∅ [] 0 [] [] [] [])); [| | done].
  - split; [by split; cbn; try set_solver |]. split; [cbn [pools]; rewrite map_size_empty; lia |]. by split.
  - intros q q' _ Hstep (Hi & Hs & Hu). destruct (pool_step_inv q q' Hstep Hi Hs) as [? ?].
    split; [done |]. split; [done |]. by eapply pool_step_use.
Qed.

(** An instance that exists and was neither handed out nor closed is ready in
    a module that is live or being drained. *)
Lemma instance_accounted p i :
  pool_inv p → i < created p → i ∈ handed p ∨ i ∈ closed p ∨
  ∃ mp m, heap p !! mp = Some m ∧ i ∈ ready m ∧ ((∃ cid, pools p !! cid = Some mp) ∨ Drain mp ∈ tasks p).
Proof.
  intros Hinv Hi. assert (i ∈ places p) as Hin by (rewrite (inv_places p Hinv); apply elem_of_seq; lia).
  apply elem_of_app in Hin as [? | [? | Hin]%elem_of_app]; [by left | by right; left | right; right].
  apply list_elem_of_In, in_concat in Hin as (l & Hl & Hin). apply list_elem_of_In in Hl, Hin.
  apply list_elem_of_fmap in Hl as (m & -> & Hm). apply list_elem_of_lookup in Hm as [mp Hm].
  exists mp, m. split; [done |]. split; [done |]. apply (inv_drained p Hinv _ _ Hm). intros E. rewrite E in Hin.
  by apply elem_of_nil in Hin.
Qed.

End Pool.

Lemma at_least_one_pos n : 1 ≤ at_least_one n.
Proof. unfold at_least_one. destruct (Z.ltb_spec n 1); lia. Qed.

(** C26: whatever the order in which callers acquire, instantiate, invalidate
    and close and the background warms and drains run, no instance is given to
    two callers, given away twice, or both given away and closed or still ready
    for another: the instances handed out, closed and ready are pairwise
    different.  None is lost either: every instance ever made was handed to a
    caller, was closed by the pool, or waits in a module that is in the map or
    has a drain under way.  A module never has more than the target ready, and
    there are never more modules than the cap. *)
Theorem reactor_one_shot tgt maxM p :
  let '(target, maxModules, p0) := newReactorPool tgt maxM in
  rtc (pool_step target maxModules) p0 p →
  NoDup (handed p ++ closed p ++ concat (ready <$> heap p)) ∧
  (∀ i, i < created p → i ∈ handed p ∨ i ∈ closed p ∨
    ∃ mp m, heap p !! mp = Some m ∧ i ∈ ready m ∧ ((∃ cid, pools p !! cid = Some mp) ∨ Drain mp ∈ tasks p)) ∧
  (∀ mp m, heap p !! mp = Some m → length (ready m) ≤ target) ∧
  size (pools p) ≤ maxModules.
Proof.
  cbn. intros Hrtc. destruct (reachable_inv _ _ p Hrtc) as (Hinv & Hsize & _).
  split; [fold (places p); rewrite (inv_places _ p Hinv); apply NoDup_seq |].
  split; [intros i Hi; by eapply instance_accounted |]. split; [| done].
  intros mp m Hm. pose proof (inv_target _ p Hinv _ _ Hm). lia.
Qed.

(** The module just used survives its own eviction: in a reachable pool a
    call leaves the module it returns in the map. *)
Theorem touched_never_evicted tgt maxM p cid :
  let '(target, maxModules, p0) := newReactorPool tgt maxM in
  rtc (pool_step target maxModules) p0 p →
  let '(mp, p') := getOrCreatePoolLocked maxModules cid p in pools p' !! cid = Some mp.
Proof.
  cbn. intros Hrtc. destruct (reachable_inv _ _ p Hrtc) as (_ & _ & Hu).
  destruct (getOrCreate_use (at_least_one maxM) cid p Hu) as [_ Hk]. specialize (Hk (at_least_one_pos _)).
  by destruct (getOrCreatePoolLocked _ cid p).
Qed.

(** ** A concrete run *)

(** Two modules with room for one; the first instance of the first module is
    handed out; the module is invalidated and asked for again. *)
Definition p_warmed : reactorPool :=
  mkPool {["a" := 0]} [mkModule [0] 0 1 1] 1 [] ["reactor-a-1"] [] [].
Definition p_reused : reactorPool :=
  mkPool {["a" := 1]} [mkModule [] 1 2 2; mkModule [] 1 1 3] 3
    [Warm "a" 0 "reactor-a-2"; Warm "a" 1 "reactor-a-1"] ["reactor-a-1"] [0] [].

Ltac pool_run step := eapply rtc_l; [step | vm_compute].

Lemma p_warmed_reachable : rtc (pool_step 1 1) (newReactorPool 1 1).2 p_warmed.
Proof.
  pool_run ltac:(apply (step_acquire 1 1 "a")).
  pool_run ltac:(by eapply (step_receive_empty 1 1 0 "a" 0)).
  pool_run ltac:(by eapply (step_refill 1 1 0 "a" 0)).
  pool_run ltac:(eapply (step_warm_stored 1 1 0 "a" 0); [done | done | done | cbn; lia]).
  apply rtc_refl.
Qed.

Lemma p_reused_reachable : rtc (pool_step 1 1) p_warmed p_reused.
Proof.
  pool_run ltac:(apply (step_acquire 1 1 "a")).
  pool_run ltac:(by eapply (step_receive 1 1 0 "a" 0)).
  pool_run ltac:(by eapply (step_refill 1 1 0 "a" 0)).
  pool_run ltac:(by eapply (step_invalidate 1 1 "a" 0)).
  pool_run ltac:(by eapply (step_drained 1 1 1 0)).
  pool_run ltac:(apply (step_acquire 1 1 "a")).
  pool_run ltac:(by eapply (step_receive_empty 1 1 1 "a" 1)).
  pool_run ltac:(by eapply (step_refill 1 1 1 "a" 1)).
  apply rtc_refl.
Qed.

Lemma reactor_one_shot_witness :
  rtc (pool_step 1 1) (newReactorPool 1 1).2 p_reused ∧ NoDup (handed p_reused ++ closed p_reused ++ concat (ready <$> heap p_reused)).
Proof.
  assert (rtc (pool_step 1 1) (newReactorPool 1 1).2 p_reused) as H
    by (etrans; [apply p_warmed_reachable | apply p_reused_reachable]).
  split; [exact H |]. exact (proj1 (reactor_one_shot 1 1 p_reused H)).
Defined.

(** The counter of names belongs to the object of the module, which a
    redeploy replaces: while the instance ["reactor-a-1"] is with a caller,
    the pool asks for another of the same name. *)
Theorem names_repeat :
  ∃ p inst name mp,
    rtc (pool_step 1 1) (newReactorPool 1 1).2 p ∧ inst ∈ handed p ∧ names p !! inst = Some name ∧
    Warm "a" mp name ∈ tasks p.
Proof.
  exists p_reused, 0, "reactor-a-1", 1.
  split; [etrans; [apply p_warmed_reachable | apply p_reused_reachable] |].
  split; [left |]. split; [done |]. right. left.
Qed.

(** Names of different modules can be equal too: only twelve characters of
    the identifier are in a name. *)
Theorem names_collide :
  warm_name "bafybeihdwdca" 1 = warm_name "bafybeihdwdcb" 1 ∧ "bafybeihdwdca"%string ≠ "bafybeihdwdcb"%string.
Proof. by vm_compute. Qed.
