(* ===== verification/Ip.v ===== *)
(** * Internet addresses

    What the sources use of Go's [net] package: [ParseIP] (with the parsers of
    [net/netip] it calls), [SplitHostPort], [To4], [To16] and the predicates on
    address ranges; then two users of it that decide on security.  The guard of
    the push URLs a tenant may set ([core/pkg/push/url_guard.go]) and the order
    of addresses by which the voters of the database cluster are chosen
    ([compareIPs] in [core/pkg/rqlite/cluster_discovery_membership.go]).

    An address is a list of 4 or 16 bytes, each a number.  An absent address
    ([nil]) is [None]. *)

From Stdlib Require Import ZArith Lia Ascii String.
From stdpp Require Import base tactics numbers list strings pretty.
From S2P Require Import Prelude GoStrings.

#[local] Open Scope Z_scope.

Abbreviation IP := (list Z).

(** ** Parsing *)

(** [parseIPv4Fields]: [fields] are the octets so far, [prev] the previous
    character. *)
Fixpoint ipv4_loop (s : string) (prev : option ascii) (val : Z) (digLen : nat) (fields : list Z) : option (list Z) :=
  match s with
  | EmptyString => if (length fields <? 3)%nat then None else Some (fields ++ [val])
  | String c s' =>
      match digit_value c with
      | Some d =>
          if (digLen =? 1)%nat && (val =? 0) then None
          else
            let val := val * 10 + d in
            if 255 <? val then None else ipv4_loop s' (Some c) val (S digLen) fields
      | None =>
          if Ascii.eqb c "." then
            if bool_decide (prev = None) || String.eqb s' EmptyString || bool_decide (prev = Some "."%char) then None
            else if (length fields =? 3)%nat then None
            else ipv4_loop s' (Some c) 0 0 (fields ++ [val])
          else None
      end
  end.

Definition parseIPv4Fields (s : string) : option (list Z) := ipv4_loop s None 0 0 [].

Definition hex_digit (c : ascii) : option Z :=
  let n := Z.of_N (N_of_ascii c) in
  if (48 <=? n) && (n <=? 57) then Some (n - 48)
  else if (97 <=? n) && (n <=? 102) then Some (n - 97 + 10)
  else if (65 <=? n) && (n <=? 70) then Some (n - 65 + 10)
  else None.

(** A group of hexadecimal digits: its value, its length and the rest. *)
Fixpoint hex_run (s : string) (off : nat) (acc : Z) : option (Z * nat * string) :=
  match s with
  | EmptyString => Some (acc, off, s)
  | String c s' =>
      match hex_digit c with
      | Some d =>
          let acc := acc * 16 + d in
          if (3 <? off)%nat then None else if 65535 <? acc then None else hex_run s' (S off) acc
      | None => Some (acc, off, s)
      end
  end.

(** The loop over the groups of [parseIPv6]: eight rounds fill the address. *)
Fixpoint ipv6_loop (rounds : nat) (s : string) (ip : list Z) (ellipsis : option nat)
    : option (list Z * option nat * string) :=
  match rounds with
  | O => Some (ip, ellipsis, s)
  | S rounds' =>
      match hex_run s 0 0 with
      | None | Some (_, O, _) => None
      | Some (acc, S _, rest) =>
          if HasPrefix rest "." then
            if bool_decide (ellipsis = None) && negb (length ip =? 12)%nat then None
            else if (16 <? length ip + 4)%nat then None
            else match parseIPv4Fields s with
                 | Some f => Some (ip ++ f, ellipsis, EmptyString)
                 | None => None
                 end
          else
            let ip := ip ++ [acc / 256; acc mod 256] in
            match rest with
            | EmptyString => Some (ip, ellipsis, rest)
            | String c s1 =>
                if negb (Ascii.eqb c ":") then None
                else match s1 with
                     | EmptyString => None
                     | String c1 s2 =>
                         if Ascii.eqb c1 ":" then
                           match ellipsis with
                           | Some _ => None
                           | None =>
                               match s2 with
                               | EmptyString => Some (ip, Some (length ip), s2)
                               | _ => ipv6_loop rounds' s2 ip (Some (length ip))
                               end
                           end
                         else ipv6_loop rounds' s1 ip ellipsis
                     end
            end
      end
  end.

(** The zeros an ellipsis stands for. *)
Definition expand_ellipsis (ip : list Z) (ellipsis : option nat) : option (list Z) :=
  match ellipsis with
  | Some e => if (length ip <? 16)%nat then Some (take e ip ++ replicate (16 - length ip) 0 ++ drop e ip) else None
  | None => if (length ip <? 16)%nat then None else Some ip
  end.

(** An address with a zone is not an IP for [net.ParseIP]. *)
Definition parseIPv6 (s : string) : option (list Z) :=
  if str_mem "%" s then None
  else
    let '(s, ellipsis) := if HasPrefix s "::" then (str_drop 2 s, Some O) else (s, None) in
    if bool_decide (ellipsis = Some O) && String.eqb s EmptyString then Some (replicate 16 0)
    else match ipv6_loop 8 s [] ellipsis with
         | Some (ip, ellipsis, EmptyString) => expand_ellipsis ip ellipsis
         | _ => None
         end.

Definition v4InV6Prefix : list Z := replicate 10 0 ++ [255; 255].

Fixpoint first_mark (s : string) : option ascii :=
  match s with
  | EmptyString => None
  | String c s' =>
      if Ascii.eqb c "." || Ascii.eqb c ":" || Ascii.eqb c "%" then Some c else first_mark s'
  end.

Definition ParseIP (s : string) : option IP :=
  match first_mark s with
  | Some "."%char => app v4InV6Prefix <$> parseIPv4Fields s
  | Some ":"%char => parseIPv6 s
  | _ => None
  end.

Fixpoint LastIndexByte (s : string) (c : ascii) : option nat :=
  match s with
  | EmptyString => None
  | String a s' =>
      match LastIndexByte s' c with
      | Some i => Some (S i)
      | None => if Ascii.eqb a c then Some O else None
      end
  end.

(** [net.SplitHostPort]; the errors are not told apart. *)
Definition SplitHostPort (hostport : string) : option (string * string) :=
  match LastIndexByte hostport ":" with
  | None => None
  | Some i =>
      let port := str_drop (S i) hostport in
      if HasPrefix hostport "[" then
        match IndexByte hostport "]" with
        | Some e =>
            if (S e =? i)%nat && negb (str_mem "[" (str_drop 1 hostport)) && negb (str_mem "]" (str_drop (S e) hostport))
            then Some (str_drop 1 (str_take e hostport), port) else None
        | None => None
        end
      else
        let host := str_take i hostport in
        if str_mem ":" host || str_mem "[" hostport || str_mem "]" hostport then None else Some (host, port)
  end.

(** ** Ranges *)

Definition To4 (ip : IP) : option IP :=
  if (length ip =? 4)%nat then Some ip
  else if (length ip =? 16)%nat && bool_decide (take 12 ip = v4InV6Prefix) then Some (drop 12 ip)
  else None.

Definition To16 (ip : IP) : option IP :=
  if (length ip =? 4)%nat then Some (v4InV6Prefix ++ ip) else if (length ip =? 16)%nat then Some ip else None.

(** [ip[i]]; every use is behind a test of the length. *)
Definition byte_at (ip : IP) (i : nat) : Z := nth i ip 0.

Definition IPv6unspecified : IP := replicate 16 0.
Definition IPv6loopback : IP := replicate 15 0 ++ [1].
Definition IPv4zero : IP := v4InV6Prefix ++ [0; 0; 0; 0].

(** [IP.Equal]: an IPv4 address and its form in IPv6 are equal. *)
Definition ip_equal (a b : IP) : bool :=
  if (length a =? length b)%nat then bool_decide (a = b)
  else if (length a =? 4)%nat && (length b =? 16)%nat then bool_decide (take 12 b = v4InV6Prefix) && bool_decide (a = drop 12 b)
  else if (length a =? 16)%nat && (length b =? 4)%nat then bool_decide (take 12 a = v4InV6Prefix) && bool_decide (drop 12 a = b)
  else false.

Definition IsUnspecified (ip : IP) : bool := ip_equal ip IPv4zero || ip_equal ip IPv6unspecified.

Definition IsLoopback (ip : IP) : bool :=
  match To4 ip with
  | Some ip4 => byte_at ip4 0 =? 127
  | None => ip_equal ip IPv6loopback
  end.

Definition IsPrivate (ip : IP) : bool :=
  match To4 ip with
  | Some ip4 =>
      (byte_at ip4 0 =? 10) || ((byte_at ip4 0 =? 172) && (Z.land (byte_at ip4 1) 240 =? 16))
      || ((byte_at ip4 0 =? 192) && (byte_at ip4 1 =? 168))
  | None => (length ip =? 16)%nat && (Z.land (byte_at ip 0) 254 =? 252)
  end.

Definition IsMulticast (ip : IP) : bool :=
  match To4 ip with
  | Some ip4 => Z.land (byte_at ip4 0) 240 =? 224
  | None => (length ip =? 16)%nat && (byte_at ip 0 =? 255)
  end.

Definition IsInterfaceLocalMulticast (ip : IP) : bool :=
  (length ip =? 16)%nat && (byte_at ip 0 =? 255) && (Z.land (byte_at ip 1) 15 =? 1).

Definition IsLinkLocalMulticast (ip : IP) : bool :=
  match To4 ip with
  | Some ip4 => (byte_at ip4 0 =? 224) && (byte_at ip4 1 =? 0) && (byte_at ip4 2 =? 0)
  | None => (length ip =? 16)%nat && (byte_at ip 0 =? 255) && (Z.land (byte_at ip 1) 15 =? 2)
  end.

Definition IsLinkLocalUnicast (ip : IP) : bool :=
  match To4 ip with
  | Some ip4 => (byte_at ip4 0 =? 169) && (byte_at ip4 1 =? 254)
  | None => (length ip =? 16)%nat && (byte_at ip 0 =? 254) && (Z.land (byte_at ip 1) 192 =? 128)
  end.

Definition nat64_prefix : list Z := [0; 100; 255; 155; 0; 0; 0; 0; 0; 0; 0; 0].

(** An absent address counts as reserved. *)
Definition isReservedIP (ip : option IP) : bool :=
  match ip with
  | None => true
  | Some ip =>
      match To4 ip with
      | Some ip4 => (byte_at ip4 0 =? 100) && (64 <=? byte_at ip4 1) && (byte_at ip4 1 <=? 127)
      | None => match To16 ip with
                | Some ip16 => bool_decide (take 12 ip16 = nat64_prefix)
                | None => false
                end
      end || IsLoopback ip || IsLinkLocalUnicast ip || IsLinkLocalMulticast ip || IsInterfaceLocalMulticast ip
      || IsMulticast ip || IsPrivate ip || IsUnspecified ip
  end.

Example parse_examples :
  ParseIP "10.0.0.1" = Some (v4InV6Prefix ++ [10; 0; 0; 1]) ∧ ParseIP "::1" = Some IPv6loopback ∧
  ParseIP "fe80::1:a" = Some ([254; 128] ++ replicate 11 0 ++ [1; 0; 10]) ∧
  ParseIP "64:ff9b::10.0.0.1" = Some (nat64_prefix ++ [10; 0; 0; 1]) ∧
  ParseIP "1:2:3:4:5:6:7::" = Some [0; 1; 0; 2; 0; 3; 0; 4; 0; 5; 0; 6; 0; 7; 0; 0] ∧
  ParseIP "010.0.0.1" = None ∧ ParseIP "2130706433" = None ∧ ParseIP "1:2:3:4:5:6:7:8::" = None ∧
  ParseIP "::1%lo" = None ∧ ParseIP "1.2.3" = None ∧ ParseIP "1.2.3.4." = None.
Proof. by vm_compute. Qed.

(** ** Addresses as numbers *)

Definition bytes (l : list Z) : Prop := Forall (λ b, 0 ≤ b < 256) l.

Definition ip_value (l : list Z) : Z := foldl (λ a b, a * 256 + b) 0 l.

Lemma ip_value_from a l : foldl (λ a b, a * 256 + b) a l = a * 256 ^ Z.of_nat (length l) + ip_value l.
Proof.
  unfold ip_value. revert a. induction l as [| b l IH]; intros a; cbn [foldl length]; [cbn; lia |].
  rewrite IH, (IH (0 * 256 + b)). rewrite Nat2Z.inj_succ, Z.pow_succ_r by lia. lia.
Qed.

Lemma ip_value_app l k : ip_value (l ++ k) = ip_value l * 256 ^ Z.of_nat (length k) + ip_value k.
Proof. unfold ip_value at 1. rewrite foldl_app. apply ip_value_from. Qed.

Lemma ip_value_bound l : bytes l → 0 ≤ ip_value l < 256 ^ Z.of_nat (length l).
Proof.
  intros Hl. induction l as [| b l IH] using rev_ind; [cbn; lia |].
  apply Forall_app in Hl as [Hl Hb]. apply Forall_inv in Hb. specialize (IH Hl).
  rewrite ip_value_app, length_app, Nat2Z.inj_add, Z.pow_add_r by lia.
  change (ip_value [b]) with (0 * 256 + b). change (Z.of_nat (length [b])) with 1. rewrite Z.pow_1_r.
  set (x := 256 ^ Z.of_nat (length l)) in *. lia.
Qed.

Lemma ip_value_inj l k : bytes l → bytes k → length l = length k → ip_value l = ip_value k → l = k.
Proof.
  intros Hl Hk. revert k Hk. induction l as [| b l IH] using rev_ind; intros k Hk Hlen Hv.
  - by destruct k.
  - destruct k as [| c k _] using rev_ind; [rewrite length_app in Hlen; cbn in Hlen; lia |].
    apply Forall_app in Hl as [Hl Hb], Hk as [Hk Hc]. apply Forall_inv in Hb, Hc.
    rewrite !length_app in Hlen. cbn in Hlen. rewrite !ip_value_app in Hv.
    change (ip_value [b]) with (0 * 256 + b) in Hv. change (ip_value [c]) with (0 * 256 + c) in Hv.
    change (Z.of_nat (length [b])) with 1 in Hv. change (Z.of_nat (length [c])) with 1 in Hv.
    rewrite Z.pow_1_r in Hv. assert (b = c) as -> by lia. f_equal. apply IH; [done | done | lia | lia].
Qed.

(** [v] is in the block of [len] leading bits of [base]. *)
Definition in_block (ip base : IP) (len : Z) : Prop :=
  ip_value ip / 2 ^ (128 - len) = ip_value base / 2 ^ (128 - len).

(** A block of [8 q + 8 - t] bits: [q] bytes and the upper bits of the next. *)
Lemma ip_prefix l b r t :
  bytes r → (length l + S (length r) = 16)%nat → 0 ≤ b < 256 → 0 ≤ t ≤ 8 →
  ip_value (l ++ b :: r) / 2 ^ (128 - (8 * Z.of_nat (length l) + 8 - t)) = ip_value l * 2 ^ (8 - t) + b / 2 ^ t.
Proof.
  intros Hr Hlen Hb Ht. change (b :: r) with ([b] ++ r). rewrite app_assoc, ip_value_app.
  pose proof (ip_value_bound r Hr) as Hv.
  replace (128 - (8 * Z.of_nat (length l) + 8 - t)) with (8 * Z.of_nat (length r) + t) by lia.
  replace (2 ^ (8 * Z.of_nat (length r) + t)) with (256 ^ Z.of_nat (length r) * 2 ^ t).
  2:{ rewrite Z.pow_add_r, Z.pow_mul_r by lia. done. }
  rewrite <- Z.div_div by lia. rewrite Z.div_add_l by lia. rewrite (Z.div_small (ip_value r)), Z.add_0_r by done.
  rewrite ip_value_app. change (ip_value [b]) with (0 * 256 + b). change (Z.of_nat (length [b])) with 1.
  rewrite Z.pow_1_r. replace 256 with (2 ^ (8 - t) * 2 ^ t) at 1 by (rewrite <- Z.pow_add_r by lia; by replace (8 - t + t) with 8 by lia).
  rewrite Z.mul_assoc, Z.mul_0_l, Z.add_0_l. apply Z.div_add_l. lia.
Qed.

Lemma in_block_bytes l b r l' b' r' t :
  bytes (l ++ b :: r) → bytes (l' ++ b' :: r') → length l = length l' → length r = length r' →
  (length l + S (length r) = 16)%nat → 0 ≤ t ≤ 8 →
  in_block (l ++ b :: r) (l' ++ b' :: r') (8 * Z.of_nat (length l) + 8 - t) ↔ l = l' ∧ b / 2 ^ t = b' / 2 ^ t.
Proof.
  intros H H' Hl Hr Hlen Ht. unfold in_block.
  apply Forall_app in H as [H1 [H2 H3]%Forall_cons], H' as [H1' [H2' H3']%Forall_cons].
  rewrite ip_prefix by done. rewrite Hl. rewrite ip_prefix by (done || lia).
  assert (∀ x, 0 ≤ x < 256 → 0 ≤ x / 2 ^ t < 2 ^ (8 - t)) as Hdiv.
  { intros x Hx. split; [apply Z.div_pos; lia |]. apply Z.div_lt_upper_bound; [lia |].
    rewrite <- Z.pow_add_r by lia. replace (t + (8 - t)) with 8 by lia. lia. }
  specialize (Hdiv b H2) as Hd. specialize (Hdiv b' H2') as Hd'. split.
  - intros E. assert (ip_value l = ip_value l') by nia. split; [by apply ip_value_inj | nia].
  - by intros [-> ->].
Qed.

(** The reserved ranges, as prefixes of 128-bit addresses. *)
Definition reserved_blocks : list (string * Z) :=
  [("0.0.0.0", 128); ("10.0.0.0", 104); ("100.64.0.0", 106); ("127.0.0.0", 104); ("169.254.0.0", 112);
   ("172.16.0.0", 108); ("192.168.0.0", 112); ("224.0.0.0", 100); ("::", 128); ("::1", 128);
   ("64:ff9b::", 96); ("fc00::", 7); ("fe80::", 10); ("ff00::", 8)].

Definition reserved (ip : IP) : Prop :=
  Exists (λ '(base, len), in_block ip (default [] (ParseIP base)) len) reserved_blocks.

Lemma byte_cases (P : Z → bool) : forallb P (seqZ 0 256) = true → ∀ b, 0 ≤ b < 256 → P b = true.
Proof.
  intros H b Hb. rewrite forallb_forall in H. apply H, list_elem_of_In, elem_of_seqZ. lia.
Qed.

(** Masks and intervals of a byte. *)
Lemma land_interval b m v lo hi :
  forallb (λ b, Bool.eqb (Z.land b m =? v) ((lo <=? b) && (b <=? hi))) (seqZ 0 256) = true →
  0 ≤ b < 256 → Z.land b m = v ↔ lo ≤ b ≤ hi.
Proof.
  intros H Hb. pose proof (byte_cases _ H b Hb) as E. apply Bool.eqb_prop in E.
  rewrite <- Z.eqb_eq, E, andb_true_iff, !Z.leb_le. lia.
Qed.

Lemma block_interval ip base q t len lo hi :
  bytes ip → forallb (λ x, (0 <=? x) && (x <? 256)) base = true → length ip = 16%nat → length base = 16%nat →
  (q < 16)%nat → 0 ≤ t ≤ 8 → len = 8 * Z.of_nat q + 8 - t →
  forallb (λ x, Bool.eqb (x / 2 ^ t =? byte_at base q / 2 ^ t) ((lo <=? x) && (x <=? hi))) (seqZ 0 256) = true →
  in_block ip base len ↔ take q ip = take q base ∧ lo ≤ byte_at ip q ≤ hi.
Proof.
  intros H1 H2 Hl Hl' Hq Ht -> Hi. unfold byte_at in *.
  assert (bytes base) as H3.
  { apply Forall_forall. intros x Hx. rewrite forallb_forall in H2.
    apply list_elem_of_In, H2 in Hx. rewrite andb_true_iff, Z.leb_le, Z.ltb_lt in Hx. exact Hx. }
  assert (∀ l : IP, length l = 16%nat → l = take q l ++ nth q l 0 :: drop (S q) l) as Hsplit.
  { intros l Hlen. rewrite <- (take_drop_middle l q (nth q l 0)) at 1; [done |].
    destruct (nth_lookup_or_length l q 0); [done | lia]. }
  set (x := nth q ip 0) in *. set (y := nth q base 0) in *.
  assert (0 ≤ x < 256) as Hx.
  { pose proof (Hsplit ip Hl) as E. fold x in E. unfold bytes in H1. rewrite E in H1.
    by apply Forall_app in H1 as [_ [Hb _]%Forall_cons]. }
  rewrite (Hsplit ip Hl) in H1 |- * at 1. rewrite (Hsplit base Hl') in H3 |- * at 1.
  fold x y in H1, H3 |- *.
  replace (Z.of_nat q) with (Z.of_nat (length (take q ip))) by (rewrite length_take; lia).
  rewrite in_block_bytes; [| done | done | rewrite !length_take; lia | rewrite !length_drop; lia
    | rewrite length_take, length_drop; lia | done].
  pose proof (byte_cases _ Hi x Hx) as E. apply Bool.eqb_prop in E.
  by rewrite <- Z.eqb_eq, E, andb_true_iff, !Z.leb_le.
Qed.

Lemma cons_eq_iff (x y : Z) l k : x :: l = y :: k ↔ x = y ∧ l = k.
Proof. naive_solver. Qed.
Lemma nil_eq_iff : ([] : list Z) = [] ↔ True.
Proof. done. Qed.

(** Turns a block into conditions on bytes. *)
Ltac block q t len lo hi :=
  match goal with |- in_block _ (default [] (ParseIP ?s)) _ ↔ _ =>
    let v := eval vm_compute in (ParseIP s) in change (ParseIP s) with v end;
  cbn [default from_option id]; rewrite (block_interval _ _ q t len lo hi) by (done || lia);
  unfold byte_at, v4InV6Prefix, nat64_prefix, IPv6unspecified, IPv6loopback; cbn [take drop nth replicate app];
  rewrite ?cons_eq_iff, ?nil_eq_iff; lia.

Section Blocks.
Context (b0 b1 b2 b3 b4 b5 b6 b7 b8 b9 b10 b11 b12 b13 b14 b15 : Z).
Let ip : IP := [b0; b1; b2; b3; b4; b5; b6; b7; b8; b9; b10; b11; b12; b13; b14; b15].
Context (ip_bytes : bytes ip).

Lemma block_is s len (C : Prop) :
  (in_block ip (default [] (ParseIP s)) len ↔ C) → in_block ip (default [] (ParseIP s)) len ↔ C.
Proof. done. Qed.

Lemma reserved_bytes :
  reserved ip ↔
  (take 12 ip = v4InV6Prefix ∧
    ((b12 = 0 ∧ b13 = 0 ∧ b14 = 0 ∧ b15 = 0) ∨ b12 = 10 ∨ (b12 = 100 ∧ 64 ≤ b13 ≤ 127) ∨ b12 = 127 ∨
     (b12 = 169 ∧ b13 = 254) ∨ (b12 = 172 ∧ 16 ≤ b13 ≤ 31) ∨ (b12 = 192 ∧ b13 = 168) ∨ 224 ≤ b12 ≤ 239)) ∨
  ip = IPv6unspecified ∨ ip = IPv6loopback ∨ take 12 ip = nat64_prefix ∨
  252 ≤ b0 ≤ 253 ∨ (b0 = 254 ∧ 128 ≤ b1 ≤ 191) ∨ b0 = 255.
Proof.
  set (P := take 12 ip = v4InV6Prefix). unfold reserved, reserved_blocks. rewrite !Exists_cons, Exists_nil.
  rewrite (block_is "0.0.0.0" 128 (P ∧ b12 = 0 ∧ b13 = 0 ∧ b14 = 0 ∧ b15 = 0)) by (cbv delta [P ip]; block 15%nat 0 128 0 0).
  rewrite (block_is "10.0.0.0" 104 (P ∧ b12 = 10)) by (cbv delta [P ip]; block 12%nat 0 104 10 10).
  rewrite (block_is "100.64.0.0" 106 (P ∧ b12 = 100 ∧ 64 ≤ b13 ≤ 127)) by (cbv delta [P ip]; block 13%nat 6 106 64 127).
  rewrite (block_is "127.0.0.0" 104 (P ∧ b12 = 127)) by (cbv delta [P ip]; block 12%nat 0 104 127 127).
  rewrite (block_is "169.254.0.0" 112 (P ∧ b12 = 169 ∧ b13 = 254)) by (cbv delta [P ip]; block 13%nat 0 112 254 254).
  rewrite (block_is "172.16.0.0" 108 (P ∧ b12 = 172 ∧ 16 ≤ b13 ≤ 31)) by (cbv delta [P ip]; block 13%nat 4 108 16 31).
  rewrite (block_is "192.168.0.0" 112 (P ∧ b12 = 192 ∧ b13 = 168)) by (cbv delta [P ip]; block 13%nat 0 112 168 168).
  rewrite (block_is "224.0.0.0" 100 (P ∧ 224 ≤ b12 ≤ 239)) by (cbv delta [P ip]; block 12%nat 4 100 224 239).
  rewrite (block_is "::" 128 (ip = IPv6unspecified)) by (cbv delta [P ip]; block 15%nat 0 128 0 0).
  rewrite (block_is "::1" 128 (ip = IPv6loopback)) by (cbv delta [P ip]; block 15%nat 0 128 1 1).
  rewrite (block_is "64:ff9b::" 96 (take 12 ip = nat64_prefix)) by (cbv delta [P ip]; block 11%nat 0 96 0 0).
  rewrite (block_is "fc00::" 7 (252 ≤ b0 ≤ 253)) by (cbv delta [P ip]; block 0%nat 1 7 252 253).
  rewrite (block_is "fe80::" 10 (b0 = 254 ∧ 128 ≤ b1 ≤ 191)) by (cbv delta [P ip]; block 1%nat 6 10 128 191).
  rewrite (block_is "ff00::" 8 (b0 = 255)) by (cbv delta [P ip]; block 0%nat 0 8 255 255).
  clearbody P. tauto.
Qed.

Lemma byte_in b : In b ip → 0 ≤ b < 256.
Proof. intros H. unfold bytes in ip_bytes. rewrite Forall_forall in ip_bytes. apply ip_bytes. by apply list_elem_of_In. Qed.

Lemma To4_mapped : take 12 ip = v4InV6Prefix → To4 ip = Some [b12; b13; b14; b15].
Proof. intros H. unfold To4. cbn [length ip Nat.eqb andb]. by rewrite bool_decide_eq_true_2. Qed.

Lemma To4_other : take 12 ip ≠ v4InV6Prefix → To4 ip = None.
Proof. intros H. unfold To4. cbn [length ip Nat.eqb andb]. by rewrite bool_decide_eq_false_2. Qed.

Ltac to_prop := rewrite ?orb_true_iff, ?andb_true_iff, ?Z.eqb_eq, ?Z.leb_le, ?bool_decide_eq_true.

(** Both sides are about the same bytes; every case is arithmetic. *)
Ltac by_cases := split; intros; repeat (destruct_or! || destruct_and!); simplify_eq; try tauto; try lia.

Lemma isReserved_mapped :
  take 12 ip = v4InV6Prefix →
  isReservedIP (Some ip) = true ↔
  (b12 = 0 ∧ b13 = 0 ∧ b14 = 0 ∧ b15 = 0) ∨ b12 = 10 ∨ (b12 = 100 ∧ 64 ≤ b13 ≤ 127) ∨ b12 = 127 ∨
  (b12 = 169 ∧ b13 = 254) ∨ (b12 = 172 ∧ 16 ≤ b13 ≤ 31) ∨ (b12 = 192 ∧ b13 = 168) ∨ 224 ≤ b12 ≤ 239.
Proof.
  intros HP. assert (b0 = 0) as H0 by (by injection HP). assert (b10 = 255) as H10 by (by injection HP).
  unfold isReservedIP, IsLoopback, IsLinkLocalUnicast, IsLinkLocalMulticast, IsInterfaceLocalMulticast, IsMulticast,
    IsPrivate, IsUnspecified, ip_equal. rewrite !(To4_mapped HP). unfold byte_at at 1.
  change (length ip) with 16%nat. change (length IPv4zero) with 16%nat. change (length IPv6unspecified) with 16%nat.
  change (byte_at ip 0) with b0. unfold byte_at. cbn [nth Nat.eqb andb].
  to_prop. rewrite (land_interval b12 240 224 224 239), (land_interval b13 240 16 16 31)
    by (done || apply byte_in; cbn; tauto).
  assert (ip = IPv4zero ↔ b12 = 0 ∧ b13 = 0 ∧ b14 = 0 ∧ b15 = 0) as ->.
  { split; [intros E; by injection E |]. intros (E12 & E13 & E14 & E15). unfold ip. rewrite E12, E13, E14, E15.
    by injection HP as -> -> -> -> -> -> -> -> -> -> -> ->. }
  assert (ip = IPv6unspecified ↔ False) as ->
    by (split; [intros E; injection E; lia | done]).
  rewrite H0. clear. by_cases.
Qed.

Lemma isReserved_other :
  take 12 ip ≠ v4InV6Prefix →
  isReservedIP (Some ip) = true ↔
  ip = IPv6unspecified ∨ ip = IPv6loopback ∨ take 12 ip = nat64_prefix ∨
  252 ≤ b0 ≤ 253 ∨ (b0 = 254 ∧ 128 ≤ b1 ≤ 191) ∨ b0 = 255.
Proof.
  intros HP.
  unfold isReservedIP, IsLoopback, IsLinkLocalUnicast, IsLinkLocalMulticast, IsInterfaceLocalMulticast, IsMulticast,
    IsPrivate, IsUnspecified, ip_equal. rewrite !(To4_other HP). unfold To16.
  change (length ip) with 16%nat. change (length IPv4zero) with 16%nat. change (length IPv6unspecified) with 16%nat.
  change (length IPv6loopback) with 16%nat. cbn [Nat.eqb andb].
  change (byte_at ip 0) with b0. change (byte_at ip 1) with b1.
  to_prop. rewrite (land_interval b0 254 252 252 253), (land_interval b1 192 128 128 191)
    by (done || apply byte_in; cbn; tauto).
  assert (ip = IPv4zero ↔ False) as -> by (split; [intros E; apply HP; by rewrite E | done]).
  generalize (Z.land b1 15). intros z. clear. tauto || by_cases.
Qed.

Lemma isReservedIP_reserved : isReservedIP (Some ip) = true ↔ reserved ip.
Proof.
  rewrite reserved_bytes. destruct (decide (take 12 ip = v4InV6Prefix)) as [HP | HP].
  - rewrite isReserved_mapped by done.
    assert (b0 = 0 ∧ b10 = 255 ∧ b2 = 0) as (H0 & H10 & H2) by (by injection HP).
    assert (ip ≠ IPv6unspecified) by (intros E; injection E; lia).
    assert (ip ≠ IPv6loopback) by (intros E; injection E; lia).
    assert (take 12 ip ≠ nat64_prefix) by (intros E; injection E; lia).
    rewrite H0. split; [intros HR; left; by split |]. intros [[_ HR] | [HR | [HR | [HR | [HR | [HR | HR]]]]]]; [exact HR | done | done | done | lia..].
  - rewrite isReserved_other by done. tauto.
Qed.

End Blocks.

(** ** What the parsers return *)

Lemma digit_value_range c d : digit_value c = Some d → 0 ≤ d ≤ 9.
Proof.
  unfold digit_value. destruct ((48 <=? N_of_ascii c)%N && (N_of_ascii c <=? 57)%N) eqn:E; [| done].
  apply andb_true_iff in E as [E1%N.leb_le E2%N.leb_le]. intros [= <-]. lia.
Qed.

Lemma ipv4_loop_wf s prev val digLen fields r :
  bytes fields → 0 ≤ val < 256 → (length fields ≤ 3)%nat → ipv4_loop s prev val digLen fields = Some r →
  bytes r ∧ length r = 4%nat.
Proof.
  revert prev val digLen fields. induction s as [| c s IH]; intros prev val digLen fields Hf Hv Hl; cbn [ipv4_loop].
  - destruct (Nat.ltb_spec (length fields) 3); [done |]. intros [= <-]. split; [| rewrite length_app; cbn; lia].
    apply Forall_app. split; [done | by constructor].
  - destruct (digit_value c) as [d |] eqn:Hd.
    + apply digit_value_range in Hd. destruct (_ && _); [done |].
      destruct (Z.ltb_spec 255 (val * 10 + d)); [done |]. apply IH; [done | lia | done].
    + destruct (Ascii.eqb c "."); [| done]. destruct (_ || _ || _); [done |].
      destruct (Nat.eqb_spec (length fields) 3); [done |]. apply IH; [| lia | rewrite length_app; cbn; lia].
      apply Forall_app. split; [done | by constructor].
Qed.

Lemma parseIPv4Fields_wf s r : parseIPv4Fields s = Some r → bytes r ∧ length r = 4%nat.
Proof. apply ipv4_loop_wf; [constructor | lia | cbn; lia]. Qed.

Lemma hex_run_range s off acc v n r : 0 ≤ acc < 65536 → hex_run s off acc = Some (v, n, r) → 0 ≤ v < 65536.
Proof.
  revert off acc. induction s as [| c s IH]; intros off acc Ha; cbn [hex_run]; [naive_solver |].
  destruct (hex_digit c) as [d |] eqn:Hd; [| naive_solver].
  assert (0 ≤ d) as Hd0.
  { unfold hex_digit in Hd. destruct (_ && _) eqn:E1; [simplify_eq; lia |].
    destruct ((97 <=? _) && _) eqn:E2; [simplify_eq; lia |]. destruct ((65 <=? _) && _) eqn:E3; [simplify_eq; lia | done]. }
  destruct (3 <? off)%nat; [done |]. destruct (Z.ltb_spec 65535 (acc * 16 + d)); [done |]. apply IH. lia.
Qed.

Lemma ipv6_loop_wf rounds s ip ell ip' ell' s' :
  bytes ip → (length ip + 2 * rounds = 16)%nat → (∀ e, ell = Some e → (e ≤ length ip)%nat) →
  ipv6_loop rounds s ip ell = Some (ip', ell', s') →
  bytes ip' ∧ (length ip' ≤ 16)%nat ∧ (∀ e, ell' = Some e → (e <= length ip')%nat).
Proof.
  revert s ip ell. induction rounds as [| rounds IH]; intros s ip ell Hb Hl He; cbn [ipv6_loop].
  { intros [= <- <- <-]. split; [done |]. split; [lia | done]. }
  destruct (hex_run s 0 0) as [[[acc [| n]] rest] |] eqn:Hh; [done | | done].
  apply hex_run_range in Hh; [| lia].
  destruct (HasPrefix rest "."%string).
  - destruct (_ && _); [done |]. destruct (Nat.ltb_spec 16 (length ip + 4)); [done |].
    destruct (parseIPv4Fields s) as [f |] eqn:Hf; [| done]. apply parseIPv4Fields_wf in Hf as [Hf1 Hf2].
    intros [= <- <- <-]. rewrite length_app, Hf2. split; [by apply Forall_app |]. split; [lia |].
    intros e Hell. specialize (He e Hell). lia.
  - set (ip2 := ip ++ [acc / 256; acc mod 256]).
    assert (bytes ip2) as Hb2.
    { apply Forall_app. split; [done |]. constructor; [| constructor; [| constructor]].
      - split; [apply Z.div_pos; lia | apply Z.div_lt_upper_bound; lia].
      - apply Z.mod_pos_bound. lia. }
    assert (length ip2 = length ip + 2)%nat as Hl2 by (unfold ip2; by rewrite length_app).
    assert (∀ e, ell = Some e → (e ≤ length ip2)%nat) as He2 by (intros e Hell; specialize (He e Hell); lia).
    assert (∀ e, Some (length ip2) = Some e → (e ≤ length ip2)%nat) as He3 by (intros e [= <-]; lia).
    destruct rest as [| c s1]; [intros [= <- <- <-]; split; [done | split; [lia | done]] |].
    destruct (negb _); [done |]. destruct s1 as [| c1 s2]; [done |].
    destruct (Ascii.eqb c1 ":"); [| by apply IH; [| lia |]].
    destruct ell as [e |]; [done |]. destruct s2 as [| c2 s3].
    + intros [= <- <- <-]. split; [done | split; [lia | done]].
    + apply IH; [done | lia | done].
Qed.

Lemma ParseIP_wf s ip : ParseIP s = Some ip → bytes ip ∧ length ip = 16%nat.
Proof.
  unfold ParseIP. assert (∀ n : nat, bytes (replicate n 0)) as Hz by (intros n; apply Forall_replicate; lia).
  destruct (first_mark s) as [c |]; [| done].
  assert (∀ ip, app v4InV6Prefix <$> parseIPv4Fields s = Some ip → bytes ip ∧ length ip = 16%nat) as H4.
  { intros ip4 (f & Hf & ->)%fmap_Some. apply parseIPv4Fields_wf in Hf as [Hf1 Hf2]. split.
    - apply Forall_app. split; [| done]. apply Forall_app. split; [apply Hz |]. by repeat constructor.
    - by rewrite length_app, Hf2. }
  assert (∀ ip, parseIPv6 s = Some ip → bytes ip ∧ length ip = 16%nat) as H6.
  { unfold parseIPv6. intros ip6. destruct (str_mem "%" s); [done |].
    set (x := if HasPrefix s "::" then _ else _). destruct x as [s1 ell] eqn:Hx.
    assert (∀ e, ell = Some e → (e ≤ 0)%nat) as He by (intros e ->; subst x; destruct (HasPrefix s "::"); by simplify_eq).
    destruct (_ && _); [intros [= <-]; split; [apply (Hz 16%nat) | done] |].
    destruct (ipv6_loop 8 s1 [] ell) as [[[ip' ell'] [|]] |] eqn:Hl; [| done | done].
    apply ipv6_loop_wf in Hl as (Hb & Hn & He'); [| constructor | done | done].
    unfold expand_ellipsis. destruct ell' as [e |]; destruct (Nat.ltb_spec (length ip') 16); intros [= <-].
    - specialize (He' e eq_refl). split.
      + apply Forall_app. split; [by apply Forall_take |]. apply Forall_app. split; [apply Hz | by apply Forall_drop].
      + rewrite !length_app, length_replicate, length_take, length_drop. lia.
    - split; [done | lia]. }
  destruct c as [[] [] [] [] [] [] [] []]; try done; auto.
Qed.

(** Every address of 16 bytes. *)
Lemma reserved_16 ip : bytes ip → length ip = 16%nat → isReservedIP (Some ip) = true ↔ reserved ip.
Proof.
  intros Hb Hl. do 16 (destruct ip as [| ? ip]; [done |]). destruct ip; [| done]. by apply isReservedIP_reserved.
Qed.

Lemma reserved_4 ip :
  bytes ip → length ip = 4%nat → isReservedIP (Some ip) = true ↔ reserved (v4InV6Prefix ++ ip).
Proof.
  intros Hb Hl. rewrite <- reserved_16.
  - do 4 (destruct ip as [| ? ip]; [done |]). destruct ip; [| done].
    set (ip := [z; z0; z1; z2]). assert (To4 (v4InV6Prefix ++ ip) = To4 ip) as E4 by done.
    assert (IsUnspecified (v4InV6Prefix ++ ip) = IsUnspecified ip) as Eu.
    { unfold IsUnspecified. change (ip_equal ip IPv6unspecified) with false.
      change (ip_equal ip IPv4zero) with (bool_decide (ip = [0; 0; 0; 0])).
      change (ip_equal (v4InV6Prefix ++ ip) IPv4zero) with (bool_decide (v4InV6Prefix ++ ip = IPv4zero)).
      change (ip_equal (v4InV6Prefix ++ ip) IPv6unspecified) with (bool_decide (v4InV6Prefix ++ ip = IPv6unspecified)).
      rewrite (bool_decide_eq_false_2 (_ = IPv6unspecified)) by done.
      f_equal. apply bool_decide_ext. unfold ip; split; [by intros [= -> -> -> ->] | by intros [= -> -> -> ->]]. }
    unfold isReservedIP, IsLoopback, IsLinkLocalUnicast, IsLinkLocalMulticast, IsMulticast, IsPrivate. by rewrite E4, Eu.
  - apply Forall_app. split; [| done]. by repeat constructor.
  - by rewrite length_app, Hl.
Qed.

(** ** Texts of IPv4 addresses *)

Definition digit (d : Z) : ascii := ascii_of_N (Z.to_N (48 + d)).

(** An octet in decimal, without leading zeros. *)
Definition octet (n : Z) : string :=
  if n <? 10 then str_single (digit n)
  else if n <? 100 then String (digit (n / 10)) (str_single (digit (n mod 10)))
  else String (digit (n / 100)) (String (digit (n / 10 mod 10)) (str_single (digit (n mod 10)))).

Definition dotted (a b c d : Z) : string := octet a +:+ "." +:+ octet b +:+ "." +:+ octet c +:+ "." +:+ octet d.

Lemma digit_value_digit d : 0 ≤ d ≤ 9 → digit_value (digit d) = Some d.
Proof.
  intros H. unfold digit_value, digit. rewrite N_ascii_embedding by lia.
  destruct (N.leb_spec 48 (Z.to_N (48 + d))); [| lia]. destruct (N.leb_spec (Z.to_N (48 + d)) 57); [| lia].
  cbn [andb]. f_equal. lia.
Qed.

Lemma digit_mark d c : 0 ≤ d ≤ 9 → digit_value c = None → Ascii.eqb (digit d) c = false.
Proof. intros H Hc. apply Ascii.eqb_neq. intros <-. by rewrite digit_value_digit in Hc. Qed.

Lemma ipv4_digit d s prev val k fields :
  0 ≤ d ≤ 9 → val = 0 ∧ k = O ∨ 0 < val → val * 10 + d < 256 →
  ipv4_loop (String (digit d) s) prev val k fields = ipv4_loop s (Some (digit d)) (val * 10 + d) (S k) fields.
Proof.
  intros Hd Hz Hv. cbn [ipv4_loop]. rewrite digit_value_digit by done.
  assert ((k =? 1)%nat && (val =? 0) = false) as ->.
  { apply andb_false_iff. destruct Hz as [[-> ->] | Hz]; [by left | right; apply Z.eqb_neq; lia]. }
  by destruct (Z.ltb_spec 255 (val * 10 + d)); [lia |].
Qed.

Lemma ipv4_octet n s prev fields :
  0 ≤ n < 256 →
  ∃ d k, 0 ≤ d ≤ 9 ∧ ipv4_loop (octet n +:+ s) prev 0 0 fields = ipv4_loop s (Some (digit d)) n k fields.
Proof.
  intros Hn. unfold octet. destruct (Z.ltb_spec n 10); [| destruct (Z.ltb_spec n 100)].
  - exists n, 1%nat. split; [lia |]. cbn [str_single String.append]. by rewrite ipv4_digit by (lia || auto).
  - assert (0 ≤ n mod 10 ≤ 9 ∧ 1 ≤ n / 10 ≤ 9 ∧ n = n / 10 * 10 + n mod 10) as (H1 & H2 & H3)
      by (pose proof (Z.div_mod n 10); pose proof (Z.mod_pos_bound n 10); lia).
    exists (n mod 10), 2%nat. split; [done |]. cbn [str_single String.append].
    rewrite !ipv4_digit by (lia || auto). by rewrite Z.mul_0_l, Z.add_0_l, <- H3.
  - assert (0 ≤ n mod 10 ≤ 9 ∧ 0 ≤ n / 10 mod 10 ≤ 9 ∧ 1 ≤ n / 100 ≤ 9 ∧ n = (n / 100 * 10 + n / 10 mod 10) * 10 + n mod 10)
      as (H1 & H2 & H3 & H4).
    { pose proof (Z.div_mod n 10). pose proof (Z.mod_pos_bound n 10). pose proof (Z.div_mod (n / 10) 10).
      pose proof (Z.mod_pos_bound (n / 10) 10). replace (n / 100) with (n / 10 / 10) by (by rewrite Z.div_div). lia. }
    exists (n mod 10), 3%nat. split; [done |]. cbn [str_single String.append].
    rewrite !ipv4_digit by (lia || auto). by rewrite Z.mul_0_l, Z.add_0_l, <- H4.
Qed.

Lemma ipv4_dot s prev val k fields d :
  0 ≤ d ≤ 9 → prev = Some (digit d) → s ≠ EmptyString → length fields ≠ 3%nat →
  ipv4_loop (String "." s) prev val k fields = ipv4_loop s (Some "."%char) 0 0 (fields ++ [val]).
Proof.
  intros Hd -> Hs Hl. cbn.
  rewrite bool_decide_eq_false_2 by (intros E; injection E as E; by pose proof (digit_mark d "." Hd eq_refl) as H; rewrite E in H).
  destruct (String.eqb_spec s EmptyString); [done |]. by destruct (Nat.eqb_spec (length fields) 3).
Qed.

Lemma octet_nonempty n s : octet n +:+ s ≠ EmptyString.
Proof. unfold octet. destruct (n <? 10); [done |]. by destruct (n <? 100). Qed.

Lemma first_mark_octet n s : 0 ≤ n < 256 → first_mark (octet n +:+ s) = first_mark s.
Proof.
  intros Hn. assert (∀ d s, 0 ≤ d ≤ 9 → first_mark (String (digit d) s) = first_mark s) as Hd.
  { intros d t H. cbn [first_mark]. by rewrite !digit_mark. }
  pose proof (Z.mod_pos_bound n 10). pose proof (Z.mod_pos_bound (n / 10) 10).
  unfold octet. destruct (Z.ltb_spec n 10); [apply Hd; lia |].
  destruct (Z.ltb_spec n 100); cbn [str_single String.append].
  - rewrite !Hd; [done | lia |]. split; [apply Z.div_pos; lia | apply Z.lt_succ_r, Z.div_lt_upper_bound; lia].
  - rewrite !Hd; [done | lia | lia |]. split; [apply Z.div_pos; lia | apply Z.lt_succ_r, Z.div_lt_upper_bound; lia].
Qed.

(** The text of an IPv4 address parses to it. *)
Lemma ParseIP_dotted a b c d :
  bytes [a; b; c; d] → ParseIP (dotted a b c d) = Some (v4InV6Prefix ++ [a; b; c; d]).
Proof.
  intros [Ha [Hb [Hc [Hd _]%Forall_cons]%Forall_cons]%Forall_cons]%Forall_cons. unfold ParseIP, dotted, parseIPv4Fields.
  rewrite first_mark_octet by done. cbn [String.append first_mark Ascii.eqb Bool.eqb orb].
  destruct (ipv4_octet a ("." +:+ octet b +:+ "." +:+ octet c +:+ "." +:+ octet d) None [] Ha) as (x & k & Hx & E).
  cbn [String.append] in E. rewrite E. clear E.
  rewrite (ipv4_dot _ _ a k [] x) by (done || apply octet_nonempty).
  edestruct (ipv4_octet b) as (x2 & k2 & Hx2 & E); [exact Hb |]. rewrite E. clear E.
  rewrite (ipv4_dot _ _ b k2 _ x2) by (done || apply octet_nonempty).
  edestruct (ipv4_octet c) as (x3 & k3 & Hx3 & E); [exact Hc |]. rewrite E. clear E.
  rewrite (ipv4_dot _ _ c k3 _ x3); [| done | done | rewrite <- (str_app_nil_r (octet d)); apply octet_nonempty | done].
  edestruct (ipv4_octet d EmptyString) as (x4 & k4 & Hx4 & E); [exact Hd |]. rewrite str_app_nil_r in E. by rewrite E.
Qed.
