(* ===== verification/UrlGuard.v ===== *)
(** * Push targets of tenants ([core/pkg/push/url_guard.go])

    A tenant may name the server its notifications are posted to; the guard
    keeps it from naming an internal one.  [url.Parse] and the resolver of
    names are arguments: the guard only reads the scheme and the host name of a
    parsed URL and the addresses of a name, and the theorems hold for every
    parser and resolver. *)

From Stdlib Require Import ZArith Lia Ascii String.
From stdpp Require Import base tactics numbers list strings.
From S2P Require Import Prelude GoStrings Ip.

#[local] Open Scope Z_scope.

Record URL := mkURL { Scheme : string; Hostname : string }.

Inductive guard_error :=
| InvalidURL
| WrongScheme (scheme : string)
| MissingHost
| ReservedAddress (host : string)
| NumericHost (host : string)
| ResolvesToReserved (host : string) (ip : IP).

Fixpoint digits_and_dots (s : string) : bool :=
  match s with
  | EmptyString => true
  | String c s' => (Ascii.eqb c "." || bool_decide (is_Some (digit_value c))) && digits_and_dots s'
  end.

(** The loop over the resolved addresses. *)
Fixpoint check_resolved (host : string) (ips : list IP) : result guard_error unit :=
  match ips with
  | [] => Ok tt
  | ip :: ips' => if isReservedIP (Some ip) then Err (ResolvesToReserved host ip) else check_resolved host ips'
  end.

(** The address is in no reserved block; an IPv4 address counts as its form
    in IPv6. *)
Definition public (ip : IP) : Prop := ∀ ip16, To16 ip = Some ip16 → ¬ reserved ip16.

Lemma not_reserved_public ip : bytes ip → isReservedIP (Some ip) = false → public ip.
Proof.
  intros Hb Hr ip16. unfold To16. destruct (Nat.eqb_spec (length ip) 4) as [H4 | _].
  - intros <-%(inj Some). rewrite <- reserved_4 by done. by rewrite Hr.
  - destruct (Nat.eqb_spec (length ip) 16) as [H16 | _]; [| done]. intros <-%(inj Some).
    rewrite <- reserved_16 by done. by rewrite Hr.
Qed.

Lemma literal_reserved host ip : ParseIP host = Some ip → isReservedIP (Some ip) = true ↔ ¬ public ip.
Proof.
  intros Hp. pose proof (ParseIP_wf _ _ Hp) as [Hb Hl]. unfold public, To16. rewrite Hl. cbn [Nat.eqb].
  rewrite reserved_16 by done. split; [intros Hr Hn; by eapply Hn |]. intros Hn.
  destruct (isReservedIP (Some ip)) eqn:E; [by apply reserved_16 |]. exfalso. apply Hn. intros ip16 Hi%(inj Some). subst ip16.
  rewrite <- reserved_16 by done. congruence.
Qed.

Lemma check_resolved_ok host ips : check_resolved host ips = Ok tt ↔ Forall (λ ip, isReservedIP (Some ip) = false) ips.
Proof.
  induction ips as [| ip ips IH]; cbn [check_resolved]; [by split; [constructor |] |].
  rewrite Forall_cons, <- IH. destruct (isReservedIP (Some ip)); naive_solver.
Qed.

Section Guard.
Context `{UnicodeCase} (Parse : string → option URL).

Definition looksLikeNumericHost (host : string) : bool :=
  if String.eqb host EmptyString then false
  else if HasPrefix (ToLower host) "0x" then true
  else digits_and_dots host.

Definition CheckBaseURLSyntax (baseURL : string) : result guard_error unit :=
  if String.eqb baseURL EmptyString then Ok tt
  else match Parse baseURL with
       | None => Err InvalidURL
       | Some u =>
           if negb (String.eqb (Scheme u) "http") && negb (String.eqb (Scheme u) "https") then Err (WrongScheme (Scheme u))
           else
             let host := Hostname u in
             if String.eqb host EmptyString then Err MissingHost
             else match ParseIP host with
                  | Some ip => if isReservedIP (Some ip) then Err (ReservedAddress host) else Ok tt
                  | None => if looksLikeNumericHost host then Err (NumericHost host) else Ok tt
                  end
       end.

Definition CheckBaseURLResolvable (lookupIP : string → option (list IP)) (baseURL : string) : result guard_error unit :=
  match CheckBaseURLSyntax baseURL with
  | Err e => Err e
  | Ok _ =>
      if String.eqb baseURL EmptyString then Ok tt
      else match Parse baseURL with
           | None => Ok tt
           | Some u =>
               let host := Hostname u in
               match ParseIP host with
               | Some _ => Ok tt
               | None => match lookupIP host with
                         | None | Some [] => Ok tt
                         | Some ips => check_resolved host ips
                         end
               end
           end
  end.

Definition IsInternalBaseURL (baseURL : string) : bool :=
  match Parse baseURL with
  | None => false
  | Some u =>
      let host := Hostname u in
      match ParseIP host with
      | Some ip => isReservedIP (Some ip)
      | None => looksLikeNumericHost host
      end
  end.

(** ** What an accepted URL cannot reach *)

(** What the check of the syntax lets through, exactly. *)
Lemma CheckBaseURLSyntax_spec baseURL :
  CheckBaseURLSyntax baseURL = Ok tt ↔
  baseURL = EmptyString ∨
  ∃ u, Parse baseURL = Some u ∧ (Scheme u = "http"%string ∨ Scheme u = "https"%string) ∧ Hostname u ≠ EmptyString ∧
    match ParseIP (Hostname u) with
    | Some ip => public ip
    | None => looksLikeNumericHost (Hostname u) = false
    end.
Proof.
  unfold CheckBaseURLSyntax. destruct (String.eqb_spec baseURL EmptyString) as [-> | Hne]; [naive_solver |].
  destruct (Parse baseURL) as [u |]; [| naive_solver].
  transitivity ((Scheme u = "http"%string ∨ Scheme u = "https"%string) ∧ Hostname u ≠ EmptyString ∧
    match ParseIP (Hostname u) with Some ip => public ip | None => looksLikeNumericHost (Hostname u) = false end).
  2:{ split; [intros Hok; right; by exists u | by intros [? | (u' & [= <-] & Hok)]]. }
  destruct (String.eqb_spec (Hostname u) EmptyString).
  { destruct (_ && _); naive_solver. }
  destruct (String.eqb_spec (Scheme u) "http"), (String.eqb_spec (Scheme u) "https"); cbn [negb andb]; try naive_solver;
    (destruct (ParseIP (Hostname u)) as [ip |] eqn:Hip; [| destruct (looksLikeNumericHost _); naive_solver];
     pose proof (literal_reserved _ _ Hip) as Hl; pose proof (ParseIP_wf _ _ Hip) as [Hb _];
     pose proof (not_reserved_public ip Hb) as Hp; destruct (isReservedIP (Some ip)); naive_solver).
Qed.

End Guard.

(** The guard of the push targets, whatever the parser of URLs and the
    resolver do.  A target it accepts is the empty text or has scheme http or
    https, a host that is not a number in disguise and, when the host is an
    address, one outside of every reserved block; when the host is a name, no
    address it resolved to is in such a block.  A target with a public literal
    address is accepted, and the test of stored targets finds exactly the
    reserved literals and the disguised numbers. *)
Theorem push_target_guarded `{UnicodeCase} Parse lookupIP baseURL :
  (∀ host ips ip, lookupIP host = Some ips → ip ∈ ips → bytes ip) →
  (CheckBaseURLResolvable Parse lookupIP baseURL = Ok tt →
     baseURL = EmptyString ∨
     ∃ u, Parse baseURL = Some u ∧ (Scheme u = "http"%string ∨ Scheme u = "https"%string) ∧ Hostname u ≠ EmptyString ∧
       (∀ ip, ParseIP (Hostname u) = Some ip → public ip) ∧
       (ParseIP (Hostname u) = None → looksLikeNumericHost (Hostname u) = false ∧
          ∀ ips, lookupIP (Hostname u) = Some ips → Forall public ips)) ∧
  (∀ u ip, Parse baseURL = Some u → ParseIP (Hostname u) = Some ip →
     (Scheme u = "http"%string ∨ Scheme u = "https"%string) → public ip →
     CheckBaseURLResolvable Parse lookupIP baseURL = Ok tt) ∧
  (IsInternalBaseURL Parse baseURL = true ↔
     ∃ u, Parse baseURL = Some u ∧
       match ParseIP (Hostname u) with Some ip => ¬ public ip | None => looksLikeNumericHost (Hostname u) = true end).
Proof.
  intros Hbytes. split; [| split].
  - unfold CheckBaseURLResolvable. destruct (CheckBaseURLSyntax Parse baseURL) as [[] |] eqn:Hs; [| done].
    apply CheckBaseURLSyntax_spec in Hs as [-> | (u & Hu & Hscheme & Hhost & Hip)]; [by left |].
    destruct (String.eqb_spec baseURL EmptyString) as [-> | _]; [by left |]. rewrite Hu. intros Hok. right.
    exists u. do 3 (split; [done |]).
    destruct (ParseIP (Hostname u)) as [ip |]; [split; [by intros ? [= <-] | done] |].
    split; [done |]. intros _. split; [done |]. intros ips Hips. rewrite Hips in Hok. destruct ips as [| ip ips]; [constructor |].
    apply check_resolved_ok in Hok. apply Forall_forall. intros ip' Hin. rewrite Forall_forall in Hok.
    apply not_reserved_public; [by eapply Hbytes | by apply Hok].
  - intros u ip Hu Hip Hscheme Hpub. unfold CheckBaseURLResolvable.
    destruct (decide (baseURL = EmptyString)) as [-> | Hne]; [done |].
    assert (CheckBaseURLSyntax Parse baseURL = Ok tt) as ->.
    { apply CheckBaseURLSyntax_spec. right. exists u. rewrite Hip. do 2 (split; [done |]). split; [| done].
      intros E. by rewrite E in Hip. }
    destruct (String.eqb_spec baseURL EmptyString); [done |]. by rewrite Hu, Hip.
  - unfold IsInternalBaseURL. destruct (Parse baseURL) as [u |]; [| naive_solver].
    split; [intros Hi; exists u; split; [done |] | intros (u' & [= <-] & Hi)];
      (destruct (ParseIP (Hostname u)) as [ip |] eqn:Hip; [by apply (literal_reserved _ _ Hip) | done]).
Qed.

(** A parser and a resolver for the examples. *)
Definition fixed_url (u : URL) (s : string) : option URL := Some u.

Lemma push_target_guarded_witness :
  CheckBaseURLResolvable (fixed_url (mkURL "https" "93.184.216.34")) (λ _, None) "https://93.184.216.34" = Ok tt ∧
  IsInternalBaseURL (fixed_url (mkURL "http" "169.254.169.254")) "http://169.254.169.254" = true.
Proof.
  split; [| by vm_compute].
  refine (proj1 (proj2 (push_target_guarded (fixed_url (mkURL "https" "93.184.216.34")) (λ _, None) "https://93.184.216.34" _))
    (mkURL "https" "93.184.216.34") (v4InV6Prefix ++ [93; 184; 216; 34]) eq_refl _ _ _).
  - done.
  - by vm_compute.
  - by right.
  - intros ip16 <-%(inj Some). rewrite <- reserved_16; [by vm_compute | | done].
    repeat (constructor; [lia |]). constructor.
Defined.

(** The literal test does not see an address with a zone: the text of such an
    address is not an IP for [net.ParseIP] and has a letter, so that it counts
    as a name; both checks that do not resolve names let it through. *)
Theorem zone_passes_literal_checks :
  let local := fixed_url (mkURL "http" "::1%lo") in
  CheckBaseURLSyntax local "http://[::1%25lo]:8090" = Ok tt ∧ IsInternalBaseURL local "http://[::1%25lo]:8090" = false ∧
  isReservedIP (ParseIP "::1") = true.
Proof. by vm_compute. Qed.

(** A name that does not resolve at the time of the check is accepted. *)
Theorem unresolved_name_accepted :
  CheckBaseURLResolvable (fixed_url (mkURL "http" "metadata.internal")) (λ _, None) "http://metadata.internal" = Ok tt.
Proof. by vm_compute. Qed.
