(* ===== verification/Voters.v ===== *)
(** * Voters of the database cluster
      ([core/pkg/rqlite/voter_reconciliation.go], [computeVoterSet] and its
      order in [core/pkg/rqlite/cluster_discovery_membership.go])

    At most five nodes of the Raft cluster vote.  Every node computes the same
    five from the addresses; the leader compares them with the configuration
    and corrects one node per cycle, by joining it again or by removing and
    re-adding it.  A cycle is a program of requests to the local rqlite server
    ([DbProg]); a request can fail or take effect without an answer, and between
    requests others can change the configuration, the leader and which nodes
    are reachable.

    The server itself is the interface [RaftApi]: how it lists its members and
    what a removal and a join do to the configuration. *)

From Stdlib Require Import ZArith Lia Ascii String.
From stdpp Require Import base tactics numbers list gmap strings sorting relations.
From S2P Require Import Prelude GoStrings GoSort DbProg Ip.

Local Open Scope go_scope.

(** ** The order of addresses *)

Definition extractIPForSort (raftAddr : string) : string :=
  match SplitHostPort raftAddr with
  | Some (host, _) => host
  | None => raftAddr
  end.

(** The loop over the 16 bytes. *)
Fixpoint bytes_lt (a b : list Z) : bool :=
  match a, b with
  | x :: a', y :: b' => if (x =? y)%Z then bytes_lt a' b' else (x <? y)%Z
  | _, _ => false
  end.

Definition compareIPs (a b : string) : bool :=
  match ParseIP a, ParseIP b with
  | Some ipA, Some ipB => bytes_lt ipA ipB
  | _, _ => String.ltb a b
  end.

Definition addr_less (a b : string) : bool := compareIPs (extractIPForSort a) (extractIPForSort b).

Definition MaxDefaultVoters : nat := 5.

Definition computeVoterSet (raftAddrs : list string) (maxVoters : nat) : gset string :=
  list_to_set (take maxVoters (sort_Slice addr_less raftAddrs)).

(** The peers a node knows, as raft addresses. *)
Definition IsVoterLocked (knownPeers : list string) (raftAddress : string) : bool :=
  if (length knownPeers <=? MaxDefaultVoters)%nat then true
  else bool_decide (raftAddress ∈ computeVoterSet knownPeers MaxDefaultVoters).

(** The entries of [peers.json]: address and [non_voter]. *)
Definition getPeersJSONUnlocked (knownPeers : list string) : list (string * bool) :=
  let voterSet := computeVoterSet knownPeers MaxDefaultVoters in
  (λ addr, (addr, negb (bool_decide (addr ∈ voterSet)))) <$> knownPeers.

(** ** The cluster *)

Record cluster := mkCluster {
  members : gmap string bool;
  unreachable : gset string;
  State : string;
  LeaderID : string;
  Term : Z
}.

Definition set_members (m : gmap string bool) (c : cluster) : cluster :=
  mkCluster m (unreachable c) (State c) (LeaderID c) (Term c).

Record RQLiteNode := mkNode { ID : string; Voter : bool; Reachable : bool }.

(** A join of an unknown node adds it with the flag of the request; a join of
    a member leaves its flag or changes it to the one of the request. *)
Class RaftApi := {
  listing : gmap string bool → list (string * bool);
  remove : string → cluster → result string cluster;
  join : string → bool → cluster → result string cluster;
  listing_members : ∀ m, listing m ≡ₚ map_to_list m;
  remove_ok : ∀ id c c', remove id c = Ok c' → c' = set_members (delete id (members c)) c;
  join_ok : ∀ id v c c', join id v c = Ok c' →
    ∃ v', c' = set_members (<[id := v']> (members c)) c ∧ (v' = v ∨ members c !! id = Some v')
}.

(** A server that adds a node it does not have, and takes the repetition of a
    join.  What it does when a member asks for another flag is left open. *)
Definition joins_new `{api : RaftApi} : Prop :=
  ∀ id v c, members c !! id = None ∨ members c !! id = Some v → join id v c = Ok (set_members (<[id := v]> (members c)) c).

Section Reconcile.
Context `{api : RaftApi}.

Definition nodes_of (c : cluster) : list RQLiteNode :=
  (λ kv, mkNode kv.1 kv.2 (bool_decide (kv.1 ∉ unreachable c))) <$> listing (members c).

Definition getAllClusterNodes : prog cluster (result string (list RQLiteNode)) := Query nodes_of Ret.

Definition getRQLiteStatus : prog cluster (result string (string * string * Z)) :=
  Query (λ c, (State c, LeaderID c, Term c)) Ret.

Definition removeClusterNode (nodeID : string) : prog cluster (result string unit) := Exec (remove nodeID) Ret.

Definition joinClusterNode (nodeID : string) (voter : bool) : prog cluster (result string unit) :=
  Exec (join nodeID voter) Ret.

Definition reachable_voters (nodes : list RQLiteNode) : nat := length (filter (λ n, Voter n ∧ Reachable n) nodes).

(** The attempts to join again after a removal; the last resort is the
    original status. *)
Fixpoint rejoin (attempts : nat) (nodeID : string) (voter : bool) (lastErr : string) : prog cluster (result string unit) :=
  match attempts with
  | O => do! _ := joinClusterNode nodeID (negb voter) in
         Ret (Err ("rejoin node after 5 attempts: " +:+ lastErr))
  | S attempts' =>
      do! r := joinClusterNode nodeID voter in
      match r with
      | Err e => rejoin attempts' nodeID voter e
      | Ok _ => Ret (Ok tt)
      end
  end.

Definition quorum_precheck (nodeID : string) : prog cluster (result string unit) :=
  do! r := getAllClusterNodes in
  match r with
  | Err e => Ret (Err ("quorum pre-check: " +:+ e))
  | Ok nodes =>
      if negb (bool_decide (Exists (λ n, ID n = nodeID ∧ Reachable n) nodes))
      then Ret (Err ("target node " +:+ nodeID +:+ " is not reachable, skipping voter change"))
      else if (reachable_voters nodes <=? 2)%nat
      then Ret (Err "cannot remove voter: quorum would be lost")
      else Ret (Ok tt)
  end.

Definition changeNodeVoterStatus (nodeID : string) (voter : bool) : prog cluster (result string unit) :=
  do! pre := (if voter then Ret (Ok tt) else quorum_precheck nodeID) in
  match pre with
  | Err e => Ret (Err e)
  | Ok _ =>
      do! r := getAllClusterNodes in
      match r with
      | Err e => Ret (Err ("fresh quorum check: " +:+ e))
      | Ok nodes =>
          match filter (λ n, ¬ Reachable n) nodes with
          | n :: _ => Ret (Err ("node " +:+ ID n +:+ " is unreachable, aborting voter change"))
          | [] =>
              do! r := removeClusterNode nodeID in
              match r with
              | Err e => Ret (Err ("remove node: " +:+ e))
              | Ok _ => rejoin 5 nodeID voter EmptyString
              end
          end
      end
  end.

Definition voterChangeCooldown : Z := 600.

Definition in_cooldown (cooldowns : gmap string Z) (now : Z) (id : string) : bool :=
  match cooldowns !! id with
  | Some cooldownUntil => (now <? cooldownUntil)%Z
  | None => false
  end.

(** The answer of a cycle: its error and the cooldowns.  [now] is the time of
    the cycle and [later] the one of a failure in it. *)
Definition cycle_result : Type := result string unit * gmap string Z.

Definition changed (cooldowns : gmap string Z) (later : Z) (id : string) (r : result string unit) : prog cluster cycle_result :=
  match r with
  | Ok _ => Ret (Ok tt, cooldowns)
  | Err e => Ret (Err e, <[id := (later + voterChangeCooldown)%Z]> cooldowns)
  end.

(** The search for one node to correct. *)
Fixpoint fix_one (cooldowns : gmap string Z) (now later : Z) (desired : gset string) (leader : string)
    (nodes : list RQLiteNode) : prog cluster cycle_result :=
  match nodes with
  | [] => Ret (Ok tt, cooldowns)
  | n :: nodes' =>
      let shouldBeVoter := bool_decide (ID n ∈ desired) in
      let continue := fix_one cooldowns now later desired leader nodes' in
      if in_cooldown cooldowns now (ID n) then continue
      else if Voter n && negb shouldBeVoter then
        if String.eqb (ID n) leader then continue
        else do! r := changeNodeVoterStatus (ID n) false in changed cooldowns later (ID n) r
      else if negb (Voter n) && shouldBeVoter then
        do! r := joinClusterNode (ID n) true in
        match r with
        | Ok _ => Ret (Ok tt, cooldowns)
        | Err _ => do! r := changeNodeVoterStatus (ID n) true in changed cooldowns later (ID n) r
        end
      else continue
  end.

Definition reconcileVoters (cooldowns : gmap string Z) (now later : Z) : prog cluster cycle_result :=
  do! r := getRQLiteStatus in
  match r with
  | Err e => Ret (Err ("get status: " +:+ e), cooldowns)
  | Ok (state, leader, term) =>
      if negb (String.eqb state "Leader") then Ret (Ok tt, cooldowns)
      else
        do! r := getAllClusterNodes in
        match r with
        | Err e => Ret (Err ("get all nodes: " +:+ e), cooldowns)
        | Ok nodes =>
            if (length nodes <=? MaxDefaultVoters)%nat then Ret (Ok tt, cooldowns)
            else if negb (bool_decide (Forall (λ n, Reachable n) nodes)) then Ret (Ok tt, cooldowns)
            else
              do! r2 := getRQLiteStatus in
              match r2 with
              | Err _ => Ret (Err "leader state changed during reconciliation check", cooldowns)
              | Ok (state2, _, term2) =>
                  if negb (String.eqb state2 "Leader") || negb (term2 =? term)%Z
                  then Ret (Err "leader state changed during reconciliation check", cooldowns)
                  else
                    let desiredVoters := computeVoterSet (ID <$> nodes) MaxDefaultVoters in
                    if negb (bool_decide (leader ∈ desiredVoters)) then Ret (Ok tt, cooldowns)
                    else fix_one cooldowns now later desiredVoters leader nodes
              end
        end
  end.

(** [recoverOrphanedNodes]: the discovered peers that are not members join. *)
Fixpoint rejoin_orphans (self : string) (all : list string) (raftNodes : gset string) (peers : list string) : prog cluster unit :=
  match peers with
  | [] => Ret tt
  | peer :: peers' =>
      if String.eqb peer self || bool_decide (peer ∈ raftNodes) then rejoin_orphans self all raftNodes peers'
      else
        do! _ := joinClusterNode peer (bool_decide (peer ∈ computeVoterSet all MaxDefaultVoters)) in
        rejoin_orphans self all raftNodes peers'
  end.

Definition recoverOrphanedNodes (self : string) (discoveryPeers : list string) : prog cluster unit :=
  do! r := getRQLiteStatus in
  match r with
  | Err _ => Ret tt
  | Ok (state, _, _) =>
      if negb (String.eqb state "Leader") then Ret tt
      else
        do! r := getAllClusterNodes in
        match r with
        | Err _ => Ret tt
        | Ok nodes => rejoin_orphans self discoveryPeers (list_to_set (ID <$> nodes)) discoveryPeers
        end
  end.

End Reconcile.

(** ** The voter set *)

(** The number of the address of a node, when it is one. *)
Definition addr_value (addr : string) : Z := from_option ip_value 0%Z (ParseIP (extractIPForSort addr)).

Definition numeric (addr : string) : Prop := is_Some (ParseIP (extractIPForSort addr)).

Lemma bytes_lt_value a b :
  bytes a → bytes b → length a = length b → bytes_lt a b = (ip_value a <? ip_value b)%Z.
Proof.
  revert b. induction a as [| x a IH]; intros [| y b] Ha Hb Hl; cbn [bytes_lt]; [done | done | done |].
  apply Forall_cons in Ha as [Hx Ha], Hb as [Hy Hb]. cbn in Hl.
  change (x :: a) with ([x] ++ a). change (y :: b) with ([y] ++ b). rewrite !ip_value_app.
  change (ip_value [x]) with (0 * 256 + x)%Z. change (ip_value [y]) with (0 * 256 + y)%Z.
  assert (length b = length a) as Hlen by lia.
  pose proof (ip_value_bound a Ha) as Ba. pose proof (ip_value_bound b Hb) as Bb. rewrite Hlen in Bb |- *.
  set (P := (256 ^ Z.of_nat (length a))%Z) in *. destruct (Z.eqb_spec x y) as [-> | Hne].
  - rewrite IH by (done || lia). destruct (Z.ltb_spec (ip_value a) (ip_value b)), (Z.ltb_spec ((0 * 256 + y) * P + ip_value a) ((0 * 256 + y) * P + ip_value b)); (done || lia).
  - destruct (Z.ltb_spec x y), (Z.ltb_spec ((0 * 256 + x) * P + ip_value a) ((0 * 256 + y) * P + ip_value b)); (done || nia).
Qed.

Lemma addr_less_value a b : numeric a → numeric b → addr_less a b = (addr_value a <? addr_value b)%Z.
Proof.
  unfold addr_less, addr_value, compareIPs. intros [ia Ha] [ib Hb]. rewrite Ha, Hb. cbn.
  destruct (ParseIP_wf _ _ Ha), (ParseIP_wf _ _ Hb). apply bytes_lt_value; [done | done | congruence].
Qed.

(** Nodes with addresses of their own. *)
Definition distinct_ips (l : list string) : Prop := Forall numeric l ∧ NoDup (addr_value <$> l).

Lemma computeVoterSet_rank l k a :
  distinct_ips l →
  a ∈ computeVoterSet l k ↔ a ∈ l ∧ length (filter (λ b, (addr_value b < addr_value a)%Z) l) < k.
Proof.
  intros [Hn Hd]. unfold computeVoterSet. rewrite elem_of_list_to_set. apply sort_Slice_rank; [| done].
  intros x y Hx Hy. rewrite Forall_forall in Hn. apply addr_less_value; auto.
Qed.

Lemma computeVoterSet_perm l l' k : distinct_ips l → l ≡ₚ l' → computeVoterSet l k = computeVoterSet l' k.
Proof.
  intros Hd Hp. assert (distinct_ips l') as Hd' by (destruct Hd; split; by rewrite <- Hp).
  apply set_eq. intros a. rewrite !computeVoterSet_rank by done. by rewrite Hp.
Qed.

(** ** A cycle with faults

    Requests may fail, or be executed without an answer.  Between them the
    others act: [env] says what they may do to the cluster.  [own] are the
    requests of the cycle, the latest first, each with the cluster at that
    moment and the one it left. *)

Abbreviation cycle_state A := (cluster * prog cluster A * list (cluster * cluster))%type (only parsing).

Inductive cycle_step (env : cluster → cluster → Prop) {A : Type} : cycle_state A → cycle_state A → Prop :=
| cycle_request c p own c' p' : prog_step [] c p c' p' → cycle_step env (c, p, own) (c', p', (c, c') :: own)
| cycle_environment c c' p own : env c c' → cycle_step env (c, p, own) (c', p, own).

(** Others who leave the configuration and the leader alone: nodes may become
    reachable or not and the term may change. *)
Definition quiet (c c' : cluster) : Prop := members c' = members c ∧ LeaderID c' = LeaderID c.

(** [safe m p]: whatever answers the program gets in configuration [m], every
    configuration it makes satisfies [G]. *)
Section Safe.
Context (leader : string) (G : gmap string bool → Prop).

Fixpoint safe {A : Type} (Q : A → gmap string bool → Prop) (m : gmap string bool) (p : prog cluster A) : Prop :=
  match p with
  | Ret a => Q a m
  | Query q k =>
      (∀ c, members c = m → LeaderID c = leader → safe Q m (k (Ok (q c)))) ∧ ∀ e, safe Q m (k (Err e))
  | Exec w k =>
      (∀ c c', members c = m → LeaderID c = leader → w c = Ok c' →
         LeaderID c' = leader ∧ G (members c') ∧
         safe Q (members c') (k (Ok tt)) ∧ ∀ e, safe Q (members c') (k (Err e))) ∧
      ∀ e, safe Q m (k (Err e))
  | Update _ _ => False
  end.

Lemma safe_bind {A B : Type} (Q : A → gmap string bool → Prop) (R : B → gmap string bool → Prop) m p f :
  safe Q m p → (∀ a m', Q a m' → safe R m' (f a)) → safe R m (prog_bind p f).
Proof.
  intros Hp Hf. revert m Hp. induction p as [a | C q k IH | w k IH | C w k IH]; intros m Hp; cbn in *; [auto | | | done].
  - destruct Hp as [H1 H2]. split; auto.
  - destruct Hp as [H1 H2]. split; [| auto]. intros c c' Hm Hl Hw. destruct (H1 c c' Hm Hl Hw) as (H3 & H4 & H5 & H6). auto.
Qed.

Context (env : cluster → cluster → Prop) (env_quiet : ∀ a b, env a b → quiet a b).

Lemma safe_step {A : Type} (Q : A → gmap string bool → Prop) c p own c' p' own' :
  cycle_step env (c, p, own) (c', p', own') → LeaderID c = leader → G (members c) → safe Q (members c) p →
  LeaderID c' = leader ∧ G (members c') ∧ safe Q (members c') p'.
Proof.
  intros Hstep Hl HG Hs. inversion Hstep as [? ? ? ? ? Hp | ? ? ? ? He]; subst.
  - destruct Hp as [B q k d d0 Hin | B q k d e | w k d d' Hw | w k d e Hw | w k d e | w k d d' e Hw | B w k d | B w k d e | B w k d e];
      cbn in Hs; try done; destruct Hs as [H1 H2]; auto.
    + apply list_elem_of_singleton in Hin as ->. auto.
    + destruct (H1 d d' eq_refl Hl Hw) as (H3 & H4 & H5 & _). auto.
    + destruct (H1 d d' eq_refl Hl Hw) as (H3 & H4 & _ & H6). auto.
  - destruct (env_quiet _ _ He) as [Hm Hl']. rewrite Hm, Hl'. auto.
Qed.

Lemma safe_rtc {A : Type} (Q : A → gmap string bool → Prop) (s s' : cycle_state A) :
  rtc (cycle_step env) s s' → LeaderID s.1.1 = leader → G (members s.1.1) → safe Q (members s.1.1) s.1.2 →
  LeaderID s'.1.1 = leader ∧ G (members s'.1.1) ∧ safe Q (members s'.1.1) s'.1.2.
Proof.
  induction 1 as [s | [[c1 p1] o1] [[c2 p2] o2] s3 Hs _ IH]; [done |]. intros Hl HG Hp.
  destruct (safe_step _ _ _ _ _ _ _ Hs Hl HG Hp) as (H1 & H2 & H3). auto.
Qed.

End Safe.

(** *** Counting voters *)

Definition voters (m : gmap string bool) : nat := length (filter (λ kv : string * bool, kv.2 = true) (map_to_list m)).

Lemma voters_delete (m : gmap string bool) (x : string) (b : bool) :
  m !! x = Some b → voters m = voters (delete x m) + (if b then 1 else 0).
Proof.
  intros Hx. unfold voters. rewrite <- (map_to_list_delete m x b Hx). rewrite filter_cons. cbn [snd].
  destruct b; [rewrite decide_True by done; cbn; lia | rewrite decide_False by done; lia].
Qed.

Lemma voters_delete_le (m : gmap string bool) x : voters (delete x m) ≤ voters m ≤ S (voters (delete x m)).
Proof.
  destruct (m !! x) as [b |] eqn:Hx; [rewrite (voters_delete m x b Hx); destruct b; lia |].
  rewrite delete_id by done. lia.
Qed.

(** The configuration differs from the first one at most at [x]. *)
Definition only_at (x : string) (m0 m : gmap string bool) : Prop := ∀ n, n ≠ x → m !! n = m0 !! n.

Lemma only_at_delete x m0 m : only_at x m0 m → delete x m = delete x m0.
Proof.
  intros H. apply map_eq. intros n. destruct (decide (n = x)) as [-> | Hne]; [by rewrite !lookup_delete_eq |].
  rewrite !lookup_delete_ne by done. auto.
Qed.

(** A step of the reconciliation is harmless: one node other than the leader
    is touched, and the change costs the cluster at most its third voter. *)
Definition harmless (leader : string) (m0 m : gmap string bool) : Prop :=
  (∃ x, x ≠ leader ∧ only_at x m0 m) ∧ (2 ≤ voters m ∨ voters m0 ≤ voters m).

(** The node [x] may be taken out for a while. *)
Definition removable (x : string) (m0 : gmap string bool) : Prop :=
  2 ≤ voters (delete x m0) ∨ voters m0 ≤ voters (delete x m0).

Lemma only_at_harmless leader x m0 m :
  x ≠ leader → removable x m0 → only_at x m0 m → harmless leader m0 m.
Proof.
  intros Hx Hr Ho. split; [by exists x |]. pose proof (voters_delete_le m x) as Hv.
  rewrite (only_at_delete x m0 m Ho) in Hv. destruct Hr; [left | right]; lia.
Qed.

Section ReconcileSafe.
Context `{api : RaftApi} (leader : string) (m0 : gmap string bool).
Context (leader_votes : m0 !! leader = Some true).

Abbreviation safely := (safe leader (harmless leader m0)).

(** What a program that only touches [x] leaves. *)
Definition touching (x : string) {A : Type} (_ : A) (m : gmap string bool) : Prop := only_at x m0 m.

Lemma join_safe x b m :
  x ≠ leader → removable x m0 → only_at x m0 m → safely (touching x) m (joinClusterNode x b).
Proof.
  intros Hx Hr Ho. split; [| done]. intros c c' Hm Hl (v' & -> & _)%join_ok. cbn.
  assert (only_at x m0 (<[x := v']> (members c))) as Ho'
    by (intros n Hn; rewrite lookup_insert_ne by done; rewrite Hm; auto).
  split; [done |]. split; [by eapply only_at_harmless | done].
Qed.

Lemma rejoin_safe attempts x b e m :
  x ≠ leader → removable x m0 → only_at x m0 m → safely (touching x) m (rejoin attempts x b e).
Proof.
  intros Hx Hr. revert e m. induction attempts as [| attempts IH]; intros e m Ho; cbn [rejoin];
    (eapply safe_bind; [by apply join_safe |]); intros r m' Hm'; [done |].
  destruct r; [done | by apply IH].
Qed.

(** The two checks and the removal. *)
Lemma change_removable_safe x b m :
  x ≠ leader → removable x m0 → only_at x m0 m →
  safely (touching x) m
    (do! r := getAllClusterNodes in
     match r with
     | Err e => Ret (Err ("fresh quorum check: " +:+ e))
     | Ok nodes =>
         match filter (λ n, ¬ Reachable n) nodes with
         | n :: _ => Ret (Err ("node " +:+ ID n +:+ " is unreachable, aborting voter change"))
         | [] =>
             do! r := removeClusterNode x in
             match r with
             | Err e => Ret (Err ("remove node: " +:+ e))
             | Ok _ => rejoin 5 x b EmptyString
             end
         end
     end).
Proof.
  intros Hx Hr Ho. split; [| done]. intros c Hm Hl. cbn [prog_bind].
  destruct (filter _ (nodes_of c)); [| done]. split; [| done].
  intros c1 c2 Hm1 Hl1 ->%remove_ok. cbn [members set_members LeaderID].
  assert (only_at x m0 (delete x (members c1))) as Ho'
    by (intros n Hn; rewrite lookup_delete_ne by done; rewrite Hm1; auto).
  split; [done |]. split; [by eapply only_at_harmless |].
  split; [exact (rejoin_safe 5 x b _ _ Hx Hr Ho') | done].
Qed.

Lemma nodes_of_elem c n : n ∈ nodes_of c → members c !! ID n = Some (Voter n).
Proof.
  intros ([k b] & -> & Hin)%list_elem_of_fmap. rewrite listing_members in Hin. by apply elem_of_map_to_list in Hin.
Qed.

Lemma reachable_voters_le c : reachable_voters (nodes_of c) ≤ voters (members c).
Proof.
  unfold reachable_voters, voters, nodes_of. rewrite <- (listing_members (members c)).
  induction (listing (members c)) as [| [k b] l IH]; [done |]. rewrite fmap_cons, !filter_cons. cbn [Voter Reachable fst snd].
  destruct b; [rewrite (decide_True (P := true = true)) by done | rewrite (decide_False (P := false = true)) by done];
    case_decide; cbn in *; (lia || naive_solver lia).
Qed.

(** Demotion: the count of voters makes the node removable. *)
Lemma demote_safe x m :
  x ≠ leader → m = m0 → safely (touching x) m (changeNodeVoterStatus x false).
Proof.
  intros Hx ->. unfold changeNodeVoterStatus.
  eapply (safe_bind _ _ (λ pre m, m = m0 ∧ (pre = Ok tt → removable x m0))).
  - split; [| done]. intros c Hm Hl. cbn [prog_bind].
    destruct (negb _); [done |]. destruct (Nat.leb_spec (reachable_voters (nodes_of c)) 2); [done |].
    split; [done |]. intros _. pose proof (reachable_voters_le c). rewrite Hm in *.
    pose proof (voters_delete_le m0 x). left. lia.
  - intros [[] | e] m [-> Hr]; [| by intros n Hn]. apply change_removable_safe; auto. by intros n Hn.
Qed.

Lemma promote_safe x m :
  x ≠ leader → removable x m0 → only_at x m0 m → safely (touching x) m (changeNodeVoterStatus x true).
Proof. apply change_removable_safe. Qed.

Lemma changed_safe cd later x r m : only_at x m0 m → safely (λ _ _, True) m (changed cd later x r).
Proof. by destruct r. Qed.

Lemma fix_one_safe cd now later desired nodes :
  (∀ n, n ∈ nodes → m0 !! ID n = Some (Voter n)) →
  safely (λ _ _, True) m0 (fix_one cd now later desired leader nodes).
Proof.
  induction nodes as [| n nodes IH]; intros Hn; cbn [fix_one]; [done |].
  specialize (IH (λ n' H, Hn n' (list_elem_of_further _ _ _ H))). pose proof (Hn n (list_elem_of_here _ _)) as Hv.
  destruct (in_cooldown cd now (ID n)); [exact IH |].
  destruct (Voter n) eqn:Ev; cbn [andb negb].
  - destruct (bool_decide (ID n ∈ desired)); cbn [negb]; [exact IH |].
    destruct (String.eqb_spec (ID n) leader) as [| Hne]; [exact IH |].
    eapply safe_bind; [by apply demote_safe |]. intros r m Hm. by apply changed_safe.
  - destruct (bool_decide (ID n ∈ desired)); [| exact IH].
    assert (ID n ≠ leader) as Hne by congruence.
    assert (removable (ID n) m0) as Hr by (right; rewrite (voters_delete m0 _ _ Hv); lia).
    eapply safe_bind; [by apply join_safe; [done | done | intros k Hk] |]. intros [[] | e] m Hm; [done |].
    eapply safe_bind; [by apply promote_safe |]. intros r m' Hm'. by apply changed_safe.
Qed.

Lemma reconcile_safely cd now later : safely (λ _ _, True) m0 (reconcileVoters cd now later).
Proof.
  unfold reconcileVoters. split; [| done]. intros c Hm Hl. cbn [prog_bind].
  destruct (negb _); [done |]. split; [| done]. intros c1 Hm1 Hl1. cbn [prog_bind].
  destruct (_ <=? _)%nat; [done |]. destruct (negb _); [done |]. split; [| done]. intros c2 Hm2 Hl2. cbn [prog_bind].
  destruct (_ || _); [done |]. destruct (negb _); [done |]. rewrite Hl. apply fix_one_safe.
  intros n Hn%nodes_of_elem. by rewrite Hm1 in Hn.
Qed.

End ReconcileSafe.

Definition desired_voters `{api : RaftApi} (m : gmap string bool) : gset string := computeVoterSet (listing m).*1 MaxDefaultVoters.

(** *** What the cycle itself does, whatever others do

    [seen] are the clusters at the moments of its requests so far. *)
Section OneNode.
Context `{api : RaftApi}.

(** The node a cycle corrects: a listing of the cycle shows its status to be
    wrong, and a voter is not the one that the status named as the leader. *)
Definition chosen (x : string) (seen : list cluster) : Prop :=
  ∃ status listed b, status ∈ seen ∧ listed ∈ seen ∧ State status = "Leader"%string ∧
    members listed !! x = Some b ∧ b ≠ bool_decide (x ∈ desired_voters (members listed)) ∧ (b = true → x ≠ LeaderID status).

(** What a removal needs: a listing with every member reachable, and one with
    three reachable voters or with the node itself among the non-voters. *)
Definition checked (x : string) (seen : list cluster) : Prop :=
  (∃ c, c ∈ seen ∧ ∀ n, n ∈ nodes_of c → Reachable n) ∧
  ∃ c, c ∈ seen ∧ (3 ≤ reachable_voters (nodes_of c) ∨ members c !! x = Some false).

Lemma checked_mono x seen seen' : seen ⊆ seen' → checked x seen → checked x seen'.
Proof. intros H [(c & ? & ?) (c' & ? & ?)]. split; eauto. Qed.

(** A request that changes the configuration at [x] only, and takes [x] out
    only after the checks. *)
Definition tidy_write (x : string) (seen : list cluster) (c c' : cluster) : Prop :=
  only_at x (members c) (members c') ∧ (is_Some (members c !! x) → members c' !! x = None → checked x seen).

Fixpoint tidy {A : Type} (x : string) (seen : list cluster) (p : prog cluster A) : Prop :=
  match p with
  | Ret _ => True
  | Query q k => (∀ c, tidy x (c :: seen) (k (Ok (q c)))) ∧ ∀ e, tidy x seen (k (Err e))
  | Exec w k => (∀ c c', w c = Ok c' → tidy_write x seen c c') ∧ ∀ r, tidy x seen (k r)
  | Update _ _ => False
  end.

(** A program that chooses its node before the first change. *)
Fixpoint one_node {A : Type} (seen : list cluster) (p : prog cluster A) : Prop :=
  match p with
  | Ret _ => True
  | Query q k => (∀ c, one_node (c :: seen) (k (Ok (q c)))) ∧ ∀ e, one_node seen (k (Err e))
  | Exec w k => ∃ x, chosen x seen ∧ tidy x seen (Exec w k)
  | Update _ _ => False
  end.

Lemma tidy_mono {A : Type} x seen seen' (p : prog cluster A) : seen ⊆ seen' → tidy x seen p → tidy x seen' p.
Proof.
  revert seen seen'. induction p as [a | B q k IH | w k IH | B w k IH]; intros seen seen' Hsub; cbn [tidy]; [done | | | done].
  - intros [H1 H2]. split; [| naive_solver]. intros c. apply (IH _ (c :: seen)); [set_solver | done].
  - intros [H1 H2]. split; [| naive_solver]. intros c c' Hw. destruct (H1 c c' Hw) as [H3 H4]. split; [done |].
    intros Hi Hn. eapply checked_mono; [exact Hsub | auto].
Qed.

Lemma tidy_bind {A B : Type} x seen (p : prog cluster A) (f : A → prog cluster B) :
  tidy x seen p → (∀ a seen', seen ⊆ seen' → tidy x seen' (f a)) → tidy x seen (prog_bind p f).
Proof.
  revert seen. induction p as [a | C q k IH | w k IH | C w k IH]; intros seen Hp Hf; cbn in *; [by apply Hf | | | done].
  - destruct Hp as [H1 H2]. split; [| auto]. intros c. apply IH; [done |]. intros a seen' Hs. apply Hf. set_solver.
  - destruct Hp as [H1 H2]. split; [done |]. auto.
Qed.

Lemma tidy_join x b seen : tidy x seen (joinClusterNode x b).
Proof.
  split; [| done]. intros c c' (v & -> & _)%join_ok. split; cbn [members set_members].
  - intros n Hn. by rewrite lookup_insert_ne.
  - by rewrite lookup_insert_eq.
Qed.

Lemma tidy_rejoin attempts x b e seen : tidy x seen (rejoin attempts x b e).
Proof.
  revert e seen. induction attempts as [| attempts IH]; intros e seen; cbn [rejoin]; (apply tidy_bind; [apply tidy_join |]); [done |].
  intros [[] | e'] seen' _; [done | apply IH].
Qed.

(** The change itself: [known] says that the node was seen as a non-voter when
    it is to become a voter. *)
Lemma tidy_change x b seen :
  (b = true → ∃ c, c ∈ seen ∧ members c !! x = Some false) → tidy x seen (changeNodeVoterStatus x b).
Proof.
  intros Hknown. unfold changeNodeVoterStatus.
  assert (∀ seen', (∃ c, c ∈ seen' ∧ (3 ≤ reachable_voters (nodes_of c) ∨ members c !! x = Some false)) → tidy x seen'
    (do! r := getAllClusterNodes in
     match r with
     | Err e => Ret (Err ("fresh quorum check: " +:+ e))
     | Ok nodes =>
         match filter (λ n, ¬ Reachable n) nodes with
         | n :: _ => Ret (Err ("node " +:+ ID n +:+ " is unreachable, aborting voter change"))
         | [] =>
             do! r := removeClusterNode x in
             match r with
             | Err e => Ret (Err ("remove node: " +:+ e))
             | Ok _ => rejoin 5 x b EmptyString
             end
         end
     end)) as Hrest.
  { intros seen' Hvot. split; [| done]. intros c. cbn [prog_bind].
    destruct (filter (λ n, ¬ Reachable n) (nodes_of c)) as [| n l] eqn:Hf; [| done]. split.
    - intros c1 c2 ->%remove_ok. split; cbn [members set_members]; [intros n Hn; by rewrite lookup_delete_ne |]. intros _ _. split.
      + exists c. split; [left |]. intros n Hn. destruct (decide (Reachable n)) as [| Hnr]; [done | exfalso].
        assert (n ∈ filter (λ n, ¬ Reachable n) (nodes_of c)) as Hin by by apply list_elem_of_filter. rewrite Hf in Hin. by apply elem_of_nil in Hin.
      + destruct Hvot as (c0 & Hc0 & Hv). exists c0. split; [by right | done].
    - intros [[] | e]; [apply tidy_rejoin | done]. }
  destruct b.
  - cbn [prog_bind]. apply Hrest. destruct (Hknown eq_refl) as (c & Hc & Hm). exists c. split; [done | by right].
  - unfold quorum_precheck. split; [| done]. intros c. cbn [prog_bind].
    destruct (negb _); [done |]. destruct (Nat.leb_spec (reachable_voters (nodes_of c)) 2); [done |].
    apply Hrest. exists c. split; [left | left; lia].
Qed.

Lemma one_node_fix cd now later seen status listed nodes :
  status ∈ seen → listed ∈ seen → State status = "Leader"%string → (∀ n, n ∈ nodes → members listed !! ID n = Some (Voter n)) →
  one_node seen (fix_one cd now later (desired_voters (members listed)) (LeaderID status) nodes).
Proof.
  intros Hs Hl Hst. induction nodes as [| n nodes IH]; intros Hn; cbn [fix_one]; [done |].
  specialize (IH (λ n' H, Hn n' (list_elem_of_further _ _ _ H))). pose proof (Hn n (list_elem_of_here _ _)) as Hv.
  destruct (in_cooldown cd now (ID n)); [exact IH |].
  assert (∀ r seen', tidy (ID n) seen' (changed cd later (ID n) r)) as Hch by by intros [].
  destruct (decide (ID n ∈ desired_voters (members listed))) as [Hd | Hd]; destruct (Voter n) eqn:Ev;
    rewrite ?(bool_decide_eq_true_2 _ Hd), ?(bool_decide_eq_false_2 _ Hd); cbn [andb negb]; try exact IH.
  - exists (ID n). split; [exists status, listed, false; rewrite (bool_decide_eq_true_2 _ Hd); naive_solver |].
    change (tidy (ID n) seen (do! r := joinClusterNode (ID n) true in
        match r with
        | Ok _ => Ret (Ok tt, cd)
        | Err _ => do! r := changeNodeVoterStatus (ID n) true in changed cd later (ID n) r
        end)).
    apply tidy_bind; [apply tidy_join |]. intros [[] | e] seen' Hsub; [done |]. apply tidy_bind; [| auto].
    apply tidy_change. intros _. exists listed. auto.
  - destruct (String.eqb_spec (ID n) (LeaderID status)) as [| Hne]; [exact IH |].
    assert (chosen (ID n) seen) as Hc by (exists status, listed, true; rewrite (bool_decide_eq_false_2 _ Hd); naive_solver).
    assert (∀ seen', seen ⊆ seen' → tidy (ID n) seen' (do! r := changeNodeVoterStatus (ID n) false in changed cd later (ID n) r)) as Ht.
    { intros seen' _. apply tidy_bind; [by apply tidy_change | auto]. }
    revert Ht. generalize (do! r := changeNodeVoterStatus (ID n) false in changed cd later (ID n) r). intros p Ht. clear -Ht Hc.
    assert (∃ x, chosen x seen ∧ tidy x seen p) as (x & Hx & Hp) by (exists (ID n); split; [done | by apply Ht]). clear Ht Hc.
    revert seen Hx Hp. induction p as [a | B q k IHp | w k IHp | B w k IHp]; intros seen Hx Hp; cbn in *; [done | | by exists x | done].
    destruct Hp as [H1 H2]. split; [| auto]. intros c. apply IHp; [| done].
    destruct Hx as (s0 & l0 & b0 & ? & ? & ?). exists s0, l0, b0. split; [by right |]. split; [by right | done].
Qed.

Lemma one_node_reconcile cd now later : one_node [] (reconcileVoters cd now later).
Proof.
  unfold reconcileVoters. split; [| done]. intros c. cbn [prog_bind].
  destruct (String.eqb_spec (State c) "Leader"); cbn [negb]; [| done]. split; [| done]. intros c1. cbn [prog_bind].
  destruct (_ <=? _)%nat; [done |]. destruct (negb _); [done |]. split; [| done]. intros c2. cbn [prog_bind].
  destruct (_ || _); [done |]. destruct (negb _); [done |].
  assert (ID <$> nodes_of c1 = (listing (members c1)).*1) as -> by (unfold nodes_of; rewrite <- list_fmap_compose; by apply list_fmap_ext).
  apply (one_node_fix cd now later [c2; c1; c] c c1); [set_solver | set_solver | done | apply nodes_of_elem].
Qed.

(** What holds of the requests so far. *)
Definition own_ok (own : list (cluster * cluster)) : Prop :=
  (∀ a b, (a, b) ∈ own → members b = members a) ∨
  ∃ x, chosen x own.*1 ∧ ∀ i a b, own !! i = Some (a, b) → tidy_write x (drop (S i) own).*1 a b.

Definition cycle_inv {A : Type} (st : cycle_state A) : Prop :=
  let '(_, p, own) := st in
  ((∀ a b, (a, b) ∈ own → members b = members a) ∧ one_node own.*1 p) ∨
  ∃ x, chosen x own.*1 ∧ tidy x own.*1 p ∧ ∀ i a b, own !! i = Some (a, b) → tidy_write x (drop (S i) own).*1 a b.

Lemma same_tidy x seen a b : members b = members a → tidy_write x seen a b.
Proof. intros E. split; [by intros n _; rewrite E |]. rewrite E. intros [? ?]. congruence. Qed.

Lemma chosen_mono x seen seen' : seen ⊆ seen' → chosen x seen → chosen x seen'.
Proof. intros H (s & l & b & ? & ? & ?). exists s, l, b. auto. Qed.

(** A request that leaves the program tidy. *)
Lemma tidy_request {A : Type} x seen c (p : prog cluster A) c' p' :
  prog_step [] c p c' p' → tidy x seen p → tidy x (c :: seen) p' ∧ tidy_write x seen c c'.
Proof.
  intros Hp Ht. assert (seen ⊆ c :: seen) as Hsub by set_solver.
  destruct Hp as [B q k d d0 Hin | B q k d e | w k d d' Hw | w k d e Hw | w k d e | w k d d' e Hw | B w k d | B w k d e | B w k d e];
    cbn [tidy] in Ht; try done; destruct Ht as [H1 H2].
  - apply list_elem_of_singleton in Hin as ->. split; [done | by apply same_tidy].
  - split; [by eapply tidy_mono | by apply same_tidy].
  - split; [by eapply tidy_mono | by apply H1].
  - split; [by eapply tidy_mono | by apply same_tidy].
  - split; [by eapply tidy_mono | by apply same_tidy].
  - split; [by eapply tidy_mono | by apply H1].
Qed.

Lemma one_node_mono {A : Type} seen seen' (p : prog cluster A) : seen ⊆ seen' → one_node seen p → one_node seen' p.
Proof.
  revert seen seen'. induction p as [a | B q k IH | w k IH | B w k IH]; intros seen seen' Hsub; cbn [one_node]; [done | | | done].
  - intros [H1 H2]. split; [| naive_solver]. intros c. apply (IH _ (c :: seen)); [set_solver | done].
  - intros (x & Hc & Ht). exists x. split; [by eapply chosen_mono | by eapply tidy_mono].
Qed.

(** Before the first change a request is a query. *)
Lemma one_node_request {A : Type} seen c (p : prog cluster A) c' p' :
  prog_step [] c p c' p' → one_node seen p →
  (members c' = members c ∧ one_node (c :: seen) p') ∨ ∃ x, chosen x seen ∧ tidy x seen p.
Proof.
  intros Hp Ht. assert (seen ⊆ c :: seen) as Hsub by set_solver.
  destruct Hp as [B q k d d0 Hin | B q k d e | w k d d' Hw | w k d e Hw | w k d e | w k d d' e Hw | B w k d | B w k d e | B w k d e];
    cbn [one_node] in Ht; try done; try (by right); left; (split; [done |]); destruct Ht as [H1 H2].
  - apply list_elem_of_singleton in Hin as ->. apply H1.
  - by eapply one_node_mono.
Qed.

Lemma cycle_inv_step env {A : Type} (st st' : cycle_state A) : cycle_inv st → cycle_step env st st' → cycle_inv st'.
Proof.
  intros Hinv Hs. destruct Hs as [c p own c' p' Hp | c c' p own _]; [| exact Hinv].
  assert (∀ x, chosen x own.*1 → tidy x own.*1 p → (∀ i a b, own !! i = Some (a, b) → tidy_write x (drop (S i) own).*1 a b) →
    cycle_inv (c', p', (c, c') :: own)) as Htidy.
  { intros x Hc Ht Hw. right. exists x. destruct (tidy_request _ _ _ _ _ _ Hp Ht) as [Ht' Hw']. rewrite fmap_cons.
    split; [eapply chosen_mono; [| done]; set_solver |]. split; [done |]. intros [| i] a b; cbn; [by intros [= <- <-] | apply Hw]. }
  destruct Hinv as [[Hsame Hone] | (x & Hc & Ht & Hw)]; [| by apply (Htidy x)].
  destruct (one_node_request _ _ _ _ _ Hp Hone) as [[Hm Ho] | (x & Hc & Ht)].
  - left. split; [| by rewrite fmap_cons]. intros a b [[= -> ->] | Hin]%elem_of_cons; [done | by apply Hsame].
  - apply (Htidy x); [done | done |]. intros i a b Hi. apply same_tidy, Hsame. by eapply list_elem_of_lookup_2.
Qed.

Lemma cycle_own env cd now later c0 c p own :
  rtc (cycle_step env) (c0, reconcileVoters cd now later, []) (c, p, own) → own_ok own.
Proof.
  intros Hr. assert (cycle_inv (c, p, own)) as [[Hs _] | (x & Hc & _ & Hw)]; [| by left | right; by exists x].
  apply (invariant_rtc (cycle_step env) cycle_inv (cycle_inv_step env) _ _ Hr). left. split; [by intros ? ? ?%elem_of_nil | apply one_node_reconcile].
Qed.
End OneNode.

(** ** A cycle without faults *)

Section Converge.
Context `{api : RaftApi}.
Context (join_sets : joins_new).
Context (remove_deletes : ∀ id c, remove id c = Ok (set_members (delete id (members c)) c)).

(** A stable cluster: this node leads, there are more members than voters
    wanted, every member answers and has an address of its own, this node is
    among the wanted voters, and all of these vote. *)
Record stable (c : cluster) : Prop := {
  stable_leader : State c = "Leader"%string;
  stable_size : MaxDefaultVoters < size (members c);
  stable_reachable : ∀ id, id ∈ dom (members c) → id ∉ unreachable c;
  stable_ips : distinct_ips (map_to_list (members c)).*1;
  stable_wanted : LeaderID c ∈ desired_voters (members c);
  stable_voting : ∀ id, id ∈ desired_voters (members c) → members c !! id = Some true
}.

Lemma stable_quorum c :
  stable c → 3 ≤ length (filter (λ kv : string * bool, kv.2 = true ∧ kv.1 ∈ desired_voters (members c)) (map_to_list (members c))).
Proof.
  intros [_ Hsize _ _ _ Hvote].
  set (l := sort_Slice addr_less (listing (members c)).*1).
  assert (l ≡ₚ (map_to_list (members c)).*1) as Hl by (unfold l; by rewrite sort_Slice_perm, listing_members).
  assert (NoDup (take MaxDefaultVoters l)) as Hnd.
  { apply (sublist_NoDup _ l); [| apply sublist_take]. rewrite Hl. apply NoDup_fst_map_to_list. }
  assert (length (take MaxDefaultVoters l) = MaxDefaultVoters) as Hlen.
  { rewrite length_take, Hl, length_fmap, length_map_to_list. lia. }
  assert (length (take MaxDefaultVoters l) ≤ length (filter (λ kv : string * bool, kv.2 = true ∧ kv.1 ∈ desired_voters (members c)) (map_to_list (members c))).*1) as Hle.
  { apply submseteq_length, NoDup_submseteq; [done |]. intros id Hid.
    assert (id ∈ desired_voters (members c)) as Hd by (unfold desired_voters, computeVoterSet; by apply elem_of_list_to_set).
    apply list_elem_of_fmap. exists (id, true). split; [done |]. apply list_elem_of_filter. split; [done |]. apply elem_of_map_to_list. by apply Hvote. }
  rewrite length_fmap in Hle. unfold MaxDefaultVoters in *. lia.
Qed.

(** The nodes whose status is wrong. *)
Definition wrong (desired : gset string) (m : gmap string bool) : nat :=
  length (filter (λ kv : string * bool, kv.2 ≠ bool_decide (kv.1 ∈ desired)) (map_to_list m)).

Lemma count_insert (P : string * bool → Prop) `{∀ kv, Decision (P kv)} (m : gmap string bool) x b b' :
  m !! x = Some b →
  length (filter P (map_to_list (<[x := b']> m))) + (if decide (P (x, b)) then 1 else 0)
  = length (filter P (map_to_list m)) + (if decide (P (x, b')) then 1 else 0).
Proof.
  intros Hx. rewrite <- (insert_delete_id m x b Hx) at 2. rewrite <- (insert_delete_eq m x b').
  rewrite !map_to_list_insert by apply lookup_delete_eq. rewrite !filter_cons.
  repeat case_decide; cbn; lia.
Qed.

Lemma desired_insert m x b b' :
  distinct_ips (map_to_list m).*1 → m !! x = Some b → desired_voters (<[x := b']> m) = desired_voters m.
Proof.
  intros Hd Hx. unfold desired_voters.
  assert ((map_to_list (<[x := b']> m)).*1 ≡ₚ (map_to_list m).*1) as Hp.
  { rewrite <- (insert_delete_id m x b Hx) at 2. rewrite <- (insert_delete_eq m x b').
    by rewrite !map_to_list_insert by apply lookup_delete_eq. }
  rewrite (computeVoterSet_perm (listing _).*1 (map_to_list m).*1).
  - symmetry. apply computeVoterSet_perm; [| by rewrite listing_members]. destruct Hd; split; by rewrite listing_members.
  - destruct Hd. split; by rewrite listing_members, Hp.
  - by rewrite listing_members.
Qed.

Lemma stable_insert c x b :
  stable c → members c !! x = Some b →
  stable (set_members (<[x := bool_decide (x ∈ desired_voters (members c))]> (members c)) c).
Proof.
  intros [H1 H2 H3 H4 H5 H6] Hx. set (b' := bool_decide _).
  assert (desired_voters (<[x := b']> (members c)) = desired_voters (members c)) as Hd by (by eapply desired_insert).
  split; cbn [members set_members State LeaderID unreachable]; rewrite ?Hd; [done | | | | done |].
  - rewrite map_size_insert_Some; eauto.
  - intros id. rewrite dom_insert_lookup_L by eauto. auto.
  - assert ((map_to_list (<[x := b']> (members c))).*1 ≡ₚ (map_to_list (members c)).*1) as Hp.
    { rewrite <- (insert_delete_id (members c) x b Hx) at 2. rewrite <- (insert_delete_eq (members c) x b').
      by rewrite !map_to_list_insert by apply lookup_delete_eq. }
    destruct H4. split; by rewrite Hp.
  - intros id Hid. destruct (decide (id = x)) as [-> | Hne]; [| by rewrite lookup_insert_ne; auto].
    rewrite lookup_insert_eq. unfold b'. by rewrite bool_decide_eq_true_2.
Qed.

(** One node is set right. *)
Definition corrected (c : cluster) (x : string) : cluster :=
  set_members (<[x := bool_decide (x ∈ desired_voters (members c))]> (members c)) c.

Lemma run_demote c x :
  stable c → members c !! x = Some true → x ∉ desired_voters (members c) →
  run (changeNodeVoterStatus x false) c = (Ok tt, corrected c x).
Proof.
  intros Hst Hx Hnd. unfold changeNodeVoterStatus. rewrite run_bind.
  assert (∀ n, n ∈ nodes_of c → Reachable n) as Hreach.
  { intros n ([k b] & -> & Hin)%list_elem_of_fmap. rewrite listing_members in Hin. apply elem_of_map_to_list in Hin. cbn.
    apply bool_decide_pack, (stable_reachable c Hst). apply elem_of_dom. by eexists. }
  assert (run (quorum_precheck x) c = (Ok tt, c)) as ->.
  { unfold quorum_precheck. cbn [prog_bind run getAllClusterNodes].
    rewrite bool_decide_eq_true_2.
    2:{ apply Exists_exists. exists (mkNode x true true). split; [| done]. apply list_elem_of_fmap. exists (x, true).
        rewrite listing_members, elem_of_map_to_list. split; [| done]. cbn. f_equal. symmetry. apply bool_decide_eq_true_2.
        apply (stable_reachable c Hst), elem_of_dom. by eexists. }
    cbn [negb]. destruct (Nat.leb_spec (reachable_voters (nodes_of c)) 2) as [Hle |]; [| done]. exfalso.
    pose proof (stable_quorum c Hst) as Hq. unfold reachable_voters, nodes_of in Hle.
    rewrite <- (listing_members (members c)) in Hq. cbn.
    assert (∀ l, (∀ kv, kv ∈ l → kv.1 ∉ unreachable c) →
      length (filter (λ kv : string * bool, kv.2 = true ∧ kv.1 ∈ desired_voters (members c)) l) ≤
      length (filter (λ n, Voter n ∧ Reachable n) ((λ kv, mkNode kv.1 kv.2 (bool_decide (kv.1 ∉ unreachable c))) <$> l))) as Hl.
    { induction l as [| [k b] l IH]; intros Hl; [done |]. specialize (IH (λ kv H, Hl kv (list_elem_of_further _ _ _ H))).
      rewrite fmap_cons, !filter_cons. cbn [Voter Reachable fst snd].
      pose proof (Hl (k, b) (list_elem_of_here _ _)) as Hk. cbn in Hk.
      destruct (decide (b = true ∧ k ∈ desired_voters (members c))) as [[-> _] |].
      - rewrite decide_True by (split; [done | by apply bool_decide_pack]). cbn [length]. lia.
      - case_decide; cbn [length]; lia. }
    specialize (Hl (listing (members c))). assert (3 ≤ 2); [| lia]. etrans; [exact Hq |]. etrans; [apply Hl | exact Hle].
    intros [k b] Hin. rewrite listing_members in Hin. apply elem_of_map_to_list in Hin. apply (stable_reachable c Hst), elem_of_dom.
    by eexists. }
  cbn [fst snd]. cbn [prog_bind run getAllClusterNodes].
  assert (filter (λ n, ¬ Reachable n) (nodes_of c) = []) as ->.
  { destruct (filter _ (nodes_of c)) as [| n l] eqn:Hf; [done | exfalso].
    assert (n ∈ filter (λ n, ¬ Reachable n) (nodes_of c)) as Hn by (rewrite Hf; left).
    apply list_elem_of_filter in Hn as [Hnot Hn]. by apply Hnot, Hreach. }
  cbn [prog_bind run removeClusterNode]. rewrite remove_deletes.
  change (rejoin 5 x false EmptyString) with
    (do! r := joinClusterNode x false in match r with Err e => rejoin 4 x false e | Ok _ => Ret (Ok tt) end).
  cbn [prog_bind run joinClusterNode]. rewrite join_sets by (left; apply lookup_delete_eq). cbn [run members set_members]. f_equal.
  unfold corrected, set_members. cbn. rewrite bool_decide_eq_false_2 by done. by rewrite insert_delete_eq.
Qed.

(** The search finds the first wrong node and sets it right. *)
Lemma run_fix_one c now later nodes :
  stable c → (∀ n, n ∈ nodes → members c !! ID n = Some (Voter n)) →
  let desired := desired_voters (members c) in
  match filter (λ n, Voter n ≠ bool_decide (ID n ∈ desired)) nodes with
  | [] => run (fix_one ∅ now later desired (LeaderID c) nodes) c = ((Ok tt, ∅), c)
  | n :: _ => run (fix_one ∅ now later desired (LeaderID c) nodes) c = ((Ok tt, ∅), corrected c (ID n))
  end.
Proof.
  intros Hst Hn desired. induction nodes as [| n nodes IH]; [done |]. rewrite filter_cons. cbn [fix_one].
  specialize (IH (λ n' H, Hn n' (list_elem_of_further _ _ _ H))). pose proof (Hn n (list_elem_of_here _ _)) as Hv.
  assert (in_cooldown ∅ now (ID n) = false) as -> by (unfold in_cooldown; by rewrite lookup_empty).
  destruct (decide (ID n ∈ desired)) as [Hd | Hd]; destruct (Voter n) eqn:Ev;
    rewrite ?(bool_decide_eq_true_2 (ID n ∈ desired) Hd), ?(bool_decide_eq_false_2 (ID n ∈ desired) Hd); cbn [andb negb].
  - rewrite decide_False by congruence. exact IH.
  - exfalso. pose proof (stable_voting c Hst (ID n) Hd). congruence.
  - rewrite decide_True by congruence. destruct (String.eqb_spec (ID n) (LeaderID c)) as [E | _].
    { exfalso. apply Hd. rewrite E. apply Hst. }
    rewrite run_bind, run_demote by done. done.
  - rewrite decide_False by congruence. exact IH.
Qed.

Lemma nodes_listing c : ID <$> nodes_of c = (listing (members c)).*1.
Proof. unfold nodes_of. rewrite <- list_fmap_compose. by apply list_fmap_ext. Qed.

Lemma wrong_nodes c desired :
  length (filter (λ n, Voter n ≠ bool_decide (ID n ∈ desired)) (nodes_of c)) = wrong desired (members c).
Proof.
  unfold wrong, nodes_of. rewrite <- (listing_members (members c)).
  induction (listing (members c)) as [| [k b] l IH]; [done |]. rewrite fmap_cons, !filter_cons. cbn [Voter ID fst snd].
  case_decide; cbn [length]; by rewrite IH.
Qed.

Lemma run_reconcile c now later :
  stable c →
  let desired := desired_voters (members c) in
  match filter (λ n, Voter n ≠ bool_decide (ID n ∈ desired)) (nodes_of c) with
  | [] => run (reconcileVoters ∅ now later) c = ((Ok tt, ∅), c)
  | n :: _ => run (reconcileVoters ∅ now later) c = ((Ok tt, ∅), corrected c (ID n))
  end.
Proof.
  intros Hst desired.
  assert (run (reconcileVoters ∅ now later) c = run (fix_one ∅ now later desired (LeaderID c) (nodes_of c)) c) as ->;
    [| apply run_fix_one; [done | apply nodes_of_elem]].
  unfold reconcileVoters. cbn [prog_bind run getRQLiteStatus getAllClusterNodes].
  rewrite (stable_leader c Hst). cbn [String.eqb Ascii.eqb Bool.eqb negb prog_bind run].
  assert (length (nodes_of c) = size (members c)) as Hlen
    by (unfold nodes_of; rewrite length_fmap, listing_members; apply length_map_to_list).
  rewrite Hlen. destruct (Nat.leb_spec (size (members c)) MaxDefaultVoters) as [Hle |]; [pose proof (stable_size c Hst); lia |].
  rewrite bool_decide_eq_true_2.
  2:{ apply Forall_forall. intros n ([k b] & -> & Hin)%list_elem_of_fmap. rewrite listing_members in Hin.
      apply elem_of_map_to_list in Hin. apply bool_decide_pack, (stable_reachable c Hst), elem_of_dom. by eexists. }
  cbn [negb prog_bind run]. rewrite (stable_leader c Hst), Z.eqb_refl. cbn [String.eqb Ascii.eqb Bool.eqb negb orb].
  rewrite nodes_listing. fold (desired_voters (members c)). rewrite bool_decide_eq_true_2 by apply Hst. done.
Qed.

(** Cycles one after the other; the clock readings are the list. *)
Fixpoint cycles (ts : list (Z * Z)) (cooldowns : gmap string Z) (c : cluster) : cluster :=
  match ts with
  | [] => c
  | (now, later) :: ts' =>
      let '((_, cooldowns'), c') := run (reconcileVoters cooldowns now later) c in cycles ts' cooldowns' c'
  end.

Lemma cycles_correct ts c :
  stable c → wrong (desired_voters (members c)) (members c) ≤ length ts →
  dom (members (cycles ts ∅ c)) = dom (members c) ∧
  ∀ id b, members (cycles ts ∅ c) !! id = Some b → b = bool_decide (id ∈ desired_voters (members c)).
Proof.
  revert c. induction ts as [| [now later] ts IH]; intros c Hst Hw.
  { cbn [cycles]. split; [done |]. intros id b Hid. cbn in Hw. unfold wrong in Hw.
    destruct (decide (b = bool_decide (id ∈ desired_voters (members c)))) as [| Hne]; [done | exfalso].
    assert ((id, b) ∈ filter (λ kv : string * bool, kv.2 ≠ bool_decide (kv.1 ∈ desired_voters (members c))) (map_to_list (members c))) as Hin
      by (apply list_elem_of_filter; split; [done | by apply elem_of_map_to_list]).
    destruct (filter _ _); [by apply elem_of_nil in Hin | cbn in Hw; lia]. }
  cbn [cycles]. pose proof (run_reconcile c now later Hst) as Hrun. cbn zeta in Hrun.
  pose proof (wrong_nodes c (desired_voters (members c))) as Hwn.
  destruct (filter _ (nodes_of c)) as [| n l] eqn:Hf; rewrite Hrun.
  - apply IH; [done |]. rewrite <- Hwn. cbn. lia.
  - assert (n ∈ filter (λ n, Voter n ≠ bool_decide (ID n ∈ desired_voters (members c))) (nodes_of c)) as Hin by (rewrite Hf; left).
    apply list_elem_of_filter in Hin as [Hne Hin]. apply nodes_of_elem in Hin.
    assert (desired_voters (members (corrected c (ID n))) = desired_voters (members c)) as Hd
      by (eapply desired_insert; [apply Hst | exact Hin]).
    destruct (IH (corrected c (ID n))) as [H1 H2].
    + by eapply stable_insert.
    + rewrite Hd. pose proof (count_insert (λ kv : string * bool, kv.2 ≠ bool_decide (kv.1 ∈ desired_voters (members c)))
        (members c) (ID n) (Voter n) (bool_decide (ID n ∈ desired_voters (members c))) Hin) as Hc.
      cbn [fst snd] in Hc. rewrite decide_True, decide_False in Hc by naive_solver.
      unfold wrong in Hw |- *. cbn [members corrected set_members length] in *. lia.
    + rewrite Hd in H2. split; [| done]. rewrite H1. unfold corrected. cbn [members set_members].
      apply dom_insert_lookup_L. by eexists.
Qed.

End Converge.

(** ** Theorems *)

(** When every node has an IP address of its own, the voters computed from
    a list of peers are the [k] numerically lowest addresses (a node votes
    exactly when fewer than [k] addresses are lower; there are [k] voters, or
    all nodes when there are fewer), in whatever order the peers are listed,
    and the entries of peers.json agree with [IsVoterLocked]. *)
Theorem voter_set_lowest l l' k :
  distinct_ips l → l ≡ₚ l' →
  computeVoterSet l k = computeVoterSet l' k ∧
  (∀ a, a ∈ computeVoterSet l k ↔ a ∈ l ∧ length (filter (λ b, (addr_value b < addr_value a)%Z) l) < k) ∧
  size (computeVoterSet l k) = k `min` length l ∧
  (MaxDefaultVoters < length l → ∀ addr nv, (addr, nv) ∈ getPeersJSONUnlocked l → nv = negb (IsVoterLocked l addr)).
Proof.
  intros Hd Hp. split; [by apply computeVoterSet_perm |]. split; [intros a; by apply computeVoterSet_rank |]. split.
  - unfold computeVoterSet. rewrite size_list_to_set; [rewrite length_take, sort_Slice_perm; lia |].
    apply (sublist_NoDup _ (sort_Slice addr_less l)); [| apply sublist_take]. rewrite sort_Slice_perm.
    destruct Hd as [_ Hnd]. by apply NoDup_fmap_1 in Hnd.
  - intros Hlen addr nv (a & Ha & _)%list_elem_of_fmap. simplify_eq. unfold IsVoterLocked.
    by destruct (Nat.leb_spec (length l) MaxDefaultVoters); [lia |].
Qed.

Definition six : list string :=
  ["10.0.0.10:7001"; "10.0.0.2:7001"; "10.0.0.1:7001"; "10.0.0.4:7001"; "10.0.0.3:7001"; "10.0.0.5:7001"].

Lemma six_distinct : distinct_ips six.
Proof.
  split; [repeat (constructor; [by eexists; vm_compute |]); constructor |].
  apply (bool_decide_unpack (NoDup (addr_value <$> six))). by vm_compute.
Qed.

Lemma voter_set_lowest_witness :
  distinct_ips six ∧ computeVoterSet six 5 = computeVoterSet (reverse six) 5 ∧ size (computeVoterSet six 5) = 5 ∧
  "10.0.0.10:7001" ∉ computeVoterSet six 5.
Proof.
  destruct (voter_set_lowest six (reverse six) 5 six_distinct (symmetry (reverse_Permutation six))) as (H1 & H2 & H3 & _).
  split; [exact six_distinct |]. split; [exact H1 |]. split; [exact H3 |].
  intros H. apply H2 in H as [_ H]. vm_compute in H. lia.
Defined.

(** Two nodes on one address: the voter is the one listed first. *)
Theorem shared_ip_order_matters :
  computeVoterSet ["10.0.0.1:7001"; "10.0.0.1:7002"] 1 ≠ computeVoterSet ["10.0.0.1:7002"; "10.0.0.1:7001"] 1.
Proof.
  intros E. assert ("10.0.0.1:7001" ∈ computeVoterSet ["10.0.0.1:7002"; "10.0.0.1:7001"] 1) as H
    by (rewrite <- E; by vm_compute). by vm_compute in H.
Qed.

(** With a host name among the addresses the comparison has a cycle. *)
Theorem compareIPs_cycle :
  compareIPs "10.0.0.2" "10.0.0.10" = true ∧ compareIPs "10.0.0.10" "10.0.0.1x" = true ∧
  compareIPs "10.0.0.1x" "10.0.0.2" = true.
Proof. by vm_compute. Qed.

(** C20: a cycle of the reconciliation.  Whatever others do to the cluster
    meanwhile (nodes join, leave or are recovered, leaders change, nodes become
    unreachable) and whatever requests fail or are executed without an answer:
    the requests of the cycle change the configuration at one node only, whose
    status a listing of the cycle showed to be wrong and which, as a voter, is
    not the leader the status of the cycle named; and they take the node out
    only after a listing in which every member was reachable and one with
    three reachable voters or with the node among the non-voters.  When nobody
    else changes the configuration and the leader (a voter) stays, then at
    every moment the configuration differs from the one at the start at most at
    one node, not the leader, and at least two voters remain unless there are
    as many as at the start. *)
Theorem reconcile_safe `{api : RaftApi} env cooldowns now later c0 c p own :
  rtc (cycle_step env) (c0, reconcileVoters cooldowns now later, []) (c, p, own) →
  ((∀ a b, (a, b) ∈ own → members b = members a) ∨
   ∃ x status listed b0, status ∈ own.*1 ∧ listed ∈ own.*1 ∧ State status = "Leader"%string ∧
     members listed !! x = Some b0 ∧ b0 ≠ bool_decide (x ∈ desired_voters (members listed)) ∧ (b0 = true → x ≠ LeaderID status) ∧
     ∀ i a b, own !! i = Some (a, b) → (∀ n, n ≠ x → members b !! n = members a !! n) ∧
       (is_Some (members a !! x) → members b !! x = None →
        (∃ c, c ∈ (drop (S i) own).*1 ∧ ∀ n, n ∈ nodes_of c → Reachable n) ∧
        ∃ c, c ∈ (drop (S i) own).*1 ∧ (3 ≤ reachable_voters (nodes_of c) ∨ members c !! x = Some false))) ∧
  ((∀ a b, env a b → quiet a b) → members c0 !! LeaderID c0 = Some true →
   (∃ x, x ≠ LeaderID c0 ∧ ∀ n, n ≠ x → members c !! n = members c0 !! n) ∧
   (2 ≤ voters (members c) ∨ voters (members c0) ≤ voters (members c))).
Proof.
  intros Hr. split.
  - destruct (cycle_own _ _ _ _ _ _ _ _ Hr) as [| (x & (status & listed & b & H1 & H2 & H3 & H4 & H5 & H6) & Hw)]; [by left |].
    right. exists x, status, listed, b. repeat (split; [done |]). exact Hw.
  - intros Hquiet Hl.
    destruct (safe_rtc (LeaderID c0) (harmless (LeaderID c0) (members c0)) env Hquiet (λ _ _, True) _ _ Hr) as (_ & H & _); cbn [fst snd].
    + done.
    + split; [| by right]. exists (LeaderID c0 +:+ "x"). split; [| done].
      intros E. apply (f_equal str_len) in E. rewrite str_len_app in E. cbn in E. lia.
    + by apply reconcile_safely.
    + exact H.
Qed.

(** A server that takes the flag of every join, and one that ignores the join
    of a node it already has. *)
#[export] Instance direct_api : RaftApi.
Proof.
  refine (Build_RaftApi map_to_list (λ id c, Ok (set_members (delete id (members c)) c))
    (λ id v c, Ok (set_members (<[id := v]> (members c)) c)) _ _ _).
  - done.
  - by intros id c c' [= <-].
  - intros id v c c' [= <-]. exists v. split; [done | by left].
Defined.

Definition ignoring_api : RaftApi.
Proof.
  refine (Build_RaftApi map_to_list (λ id c, Ok (set_members (delete id (members c)) c))
    (λ id v c, if decide (is_Some (members c !! id)) then Ok c else Ok (set_members (<[id := v]> (members c)) c)) _ _ _).
  - done.
  - by intros id c c' [= <-].
  - intros id v c c'. case_decide as Hs.
    + intros [= <-]. destruct Hs as [b Hb]. exists b. split; [| by right]. unfold set_members.
      rewrite insert_id by done. by destruct c.
    + intros [= <-]. exists v. split; [done | by left].
Defined.

(** Six nodes: the lowest five should vote, the sixth does and the second does not. *)
Definition c6 : cluster :=
  mkCluster (<["10.0.0.2:7001" := false]> (list_to_map ((λ a, (a, true)) <$> six))) ∅ "Leader" "10.0.0.1:7001" 7.

(** A run without faults and with nobody else is one of the executions. *)
Lemma run_cycle {A : Type} (p : prog cluster A) c own :
  ∃ own', rtc (cycle_step eq) (c, p, own) ((run p c).2, Ret (run p c).1, own').
Proof.
  revert c own. induction p as [a | B q k IH | w k IH | B w k IH]; intros c own; cbn [run].
  - eexists. apply rtc_refl.
  - destruct (IH (Ok (q c)) c ((c, c) :: own)) as [own' Hr]. exists own'. eapply rtc_l; [| exact Hr]. apply cycle_request, query_answered. left.
  - destruct (w c) as [c' | e] eqn:Hw.
    + destruct (IH (Ok tt) c' ((c, c') :: own)) as [own' Hr]. exists own'. eapply rtc_l; [| exact Hr]. by apply cycle_request, exec_done.
    + destruct (IH (Err e) c ((c, c) :: own)) as [own' Hr]. exists own'. eapply rtc_l; [| exact Hr]. by apply cycle_request, exec_rejected.
  - destruct (IH (Ok (w c).1) (w c).2 ((c, (w c).2) :: own)) as [own' Hr]. exists own'. eapply rtc_l; [| exact Hr]. apply cycle_request, update_done.
Qed.

Lemma reconcile_safe_witness :
  members c6 !! LeaderID c6 = Some true ∧
  ∃ x, x ≠ LeaderID c6 ∧ ∀ n, n ≠ x → members (run (reconcileVoters ∅ 0 0) c6).2 !! n = members c6 !! n.
Proof.
  assert (members c6 !! LeaderID c6 = Some true) as Hl by (by vm_compute). split; [exact Hl |].
  destruct (run_cycle (reconcileVoters ∅ 0 0) c6 []) as [own Hr].
  exact (proj1 (proj2 (reconcile_safe eq ∅ 0 0 c6 _ _ own Hr) (λ a b E, match E with eq_refl => conj eq_refl eq_refl end) Hl)).
Defined.

(** C25: surplus voters are demoted.  Without faults, in a cluster that is
    stable (this node leads and is among the wanted voters, there are more
    members than these, all members answer and have addresses of their own,
    and every wanted voter votes), on a server that adds a node it does not
    have, after as many cycles as there are surplus voters exactly the wanted
    nodes vote, and the members are the same.  (When a wanted node does not
    vote, this depends on what the server does with the join of a member, see
    [promotion_ignored].) *)
Theorem reconcile_converges `{api : RaftApi} ts c :
  joins_new → (∀ id c, remove id c = Ok (set_members (delete id (members c)) c)) →
  stable c → wrong (desired_voters (members c)) (members c) ≤ length ts →
  dom (members (cycles ts ∅ c)) = dom (members c) ∧
  ∀ id b, members (cycles ts ∅ c) !! id = Some b → b = bool_decide (id ∈ desired_voters (members c)).
Proof. intros H1 H2. by apply cycles_correct. Qed.

(** Eight nodes that all vote; the lowest five should. *)
Definition eight : list string := six ++ ["10.0.0.11:7001"; "10.0.0.12:7001"]%string.
Definition c8 : cluster := mkCluster (list_to_map ((λ a, (a, true)) <$> eight)) ∅ "Leader" "10.0.0.1:7001" 7.

Lemma ignoring_joins_new : @joins_new ignoring_api.
Proof.
  intros id v c H. cbn. case_decide as Hs; [| done]. destruct H as [H | H]; [rewrite H in Hs; by destruct Hs |].
  unfold set_members. rewrite insert_id by done. by destruct c.
Qed.

Lemma c8_stable : @stable ignoring_api c8.
Proof.
  split.
  - done.
  - by vm_compute; lia.
  - intros id _. apply not_elem_of_empty.
  - assert ((map_to_list (members c8)).*1 ≡ₚ eight) as Hp by (apply (bool_decide_unpack _); by vm_compute).
    assert (distinct_ips eight) as [H1 H2] by (split; apply (bool_decide_unpack _); by vm_compute). split; by rewrite Hp.
  - by vm_compute.
  - intros id Hid. assert (id ∈ eight) as Hin.
    { assert (@desired_voters ignoring_api (members c8) ⊆ list_to_set eight) as Hs by (apply (bool_decide_unpack _); by vm_compute).
      apply Hs in Hid. by apply elem_of_list_to_set in Hid. }
    revert id Hid Hin. clear. intros id _. revert id. apply Forall_forall. apply (bool_decide_unpack _). by vm_compute.
Qed.

Lemma reconcile_converges_witness :
  @stable ignoring_api c8 ∧
  ∀ b, members (@cycles ignoring_api [(0, 0); (0, 0); (0, 0)] ∅ c8)%Z !! "10.0.0.12:7001" = Some b → b = false.
Proof.
  split; [exact c8_stable |]. intros b Hb.
  destruct (@reconcile_converges ignoring_api [(0, 0); (0, 0); (0, 0)]%Z c8 ignoring_joins_new (λ _ _, eq_refl) c8_stable) as [_ H];
    [by vm_compute; lia |].
  rewrite (H _ _ Hb). by vm_compute.
Defined.

(** A promotion trusts the answer of the join: with a server that answers a
    join of a member with success and changes nothing, the node that should
    vote never does, and the other wrong nodes behind it are never reached. *)
Definition c5 : cluster :=
  mkCluster (<["10.0.0.2:7001" := false]> (<["10.0.0.6:7001" := false]>
    (list_to_map ((λ a, (a, true)) <$> ["10.0.0.1:7001"; "10.0.0.3:7001"; "10.0.0.4:7001"; "10.0.0.5:7001"]))))
    ∅ "Leader" "10.0.0.1:7001" 7.

Theorem promotion_ignored ts :
  @cycles ignoring_api ts ∅ c5 = c5 ∧ "10.0.0.2:7001" ∈ @desired_voters ignoring_api (members c5) ∧
  members c5 !! "10.0.0.2:7001" = Some false.
Proof.
  split; [| by vm_compute]. induction ts as [| [now later] ts IH]; [done |]. cbn [cycles].
  assert (run (@reconcileVoters ignoring_api ∅ now later) c5 = ((Ok tt, ∅), c5)) as -> by (by vm_compute). exact IH.
Qed.

(** ** Orphans *)

Lemma if_decide_ext {A : Type} (P Q : Prop) `{!Decision P, !Decision Q} (a b : A) :
  (P ↔ Q) → (if bool_decide P then a else b) = (if bool_decide Q then a else b).
Proof. intros H. by rewrite (bool_decide_ext P Q H). Qed.

Lemma run_rejoin_orphans `{api : RaftApi} self all raftNodes peers c :
  joins_new →
  (∀ n, n ∉ raftNodes → members c !! n = None ∨ members c !! n = Some (bool_decide (n ∈ computeVoterSet all MaxDefaultVoters))) →
  ∀ n, members (run (rejoin_orphans self all raftNodes peers) c).2 !! n =
       if bool_decide (n ∈ peers ∧ n ≠ self ∧ n ∉ raftNodes)
       then Some (bool_decide (n ∈ computeVoterSet all MaxDefaultVoters)) else members c !! n.
Proof.
  intros Hjoin. revert c. induction peers as [| x peers IH]; intros c Hnew n; cbn [rejoin_orphans].
  { rewrite bool_decide_eq_false_2; [done |]. intros [H _]. by apply elem_of_nil in H. }
  destruct (String.eqb_spec x self) as [-> | Hself]; cbn [orb]; [| destruct (decide (x ∈ raftNodes)) as [Hx | Hx]].
  - rewrite IH by done. apply if_decide_ext. set_solver.
  - rewrite bool_decide_eq_true_2 by done. rewrite IH by done. apply if_decide_ext. set_solver.
  - rewrite bool_decide_eq_false_2 by done. cbn [prog_bind run joinClusterNode]. rewrite Hjoin by by apply Hnew. rewrite IH.
    2: { intros y Hy. cbn [members set_members]. destruct (decide (y = x)) as [-> | Hyx]; [right; apply lookup_insert_eq |].
         rewrite lookup_insert_ne by done. by apply Hnew. }
    cbn [members set_members]. destruct (decide (n = x)) as [-> | Hne].
    + rewrite lookup_insert_eq. rewrite (bool_decide_eq_true_2 (x ∈ x :: peers ∧ _)) by set_solver. by case_bool_decide.
    + rewrite lookup_insert_ne by done. apply if_decide_ext. set_solver.
Qed.

(** Recovery alone: the discovered peers that are not members, this node
    excepted, join with the status computed from the discovered addresses, and
    no member changes. *)
Theorem orphans_rejoin `{api : RaftApi} self peers c n :
  joins_new → State c = "Leader" →
  members (run (recoverOrphanedNodes self peers) c).2 !! n =
  if bool_decide (n ∈ peers ∧ n ≠ self ∧ members c !! n = None)
  then Some (bool_decide (n ∈ computeVoterSet peers MaxDefaultVoters)) else members c !! n.
Proof.
  intros Hjoin Hstate. unfold recoverOrphanedNodes. cbn [prog_bind run getRQLiteStatus getAllClusterNodes].
  rewrite Hstate. cbn [String.eqb Ascii.eqb Bool.eqb negb prog_bind run].
  rewrite run_rejoin_orphans; [| done |].
  2: { intros x Hx. left. destruct (members c !! x) as [b |] eqn:E; [| done]. exfalso. apply Hx.
       rewrite nodes_listing, elem_of_list_to_set, listing_members. apply list_elem_of_fmap. exists (x, b). split; [done | by apply elem_of_map_to_list]. }
  apply if_decide_ext. rewrite nodes_listing, elem_of_list_to_set, listing_members.
  rewrite list_elem_of_fmap, <- not_elem_of_dom. unfold not. rewrite elem_of_dom. split.
  - intros (H1 & H2 & H3). split; [done |]. split; [done |]. intros [b Hb]. apply H3. exists (n, b). split; [done |].
    by apply elem_of_map_to_list.
  - intros (H1 & H2 & H3). split; [done |]. split; [done |]. intros ([k b] & -> & Hin).
    apply H3. exists b. by apply elem_of_map_to_list in Hin.
Qed.
