(* ===== verification/SqlSplit.v ===== *)
(** * Splitting SQL scripts ([splitSQLStatements] and the filter of
      transaction statements in [core/pkg/rqlite/migrations.go])

    The splitter walks over the characters of a script with one character of
    lookahead.  Its four flags are never set together, so that they are one
    [mode] here.  The source walks over code points; all characters it tests
    are ASCII, so that on valid UTF-8 the walk over bytes is the same. *)

From Stdlib Require Import ZArith Lia Ascii String.
From stdpp Require Import base tactics list strings.
From S2P Require Import Prelude GoStrings.

Inductive mode := Plain | InLineComment | InBlockComment | InSingle | InDouble.

#[export] Instance mode_eq_dec : EqDecision mode.
Proof. solve_decision. Defined.

Definition newline : ascii := "010"%char.
Definition quote : ascii := "039"%char.
Definition dquote : ascii := "034"%char.

(** [runes[i+1]], or 0 at the end. *)
Definition peek (s : string) : ascii := match s with String c _ => c | EmptyString => "000"%char end.

Definition skip (s : string) : string := match s with String _ s' => s' | EmptyString => EmptyString end.

(** The fragment is a statement unless it is blank. *)
Definition emit (b : string) : list string :=
  let stmt := TrimSpace b in if String.eqb stmt EmptyString then [] else [stmt].

(** The loop: [b] is the fragment so far, [fuel] the characters left. *)
Fixpoint split_loop (fuel : nat) (m : mode) (b s : string) : list string :=
  match fuel, s with
  | S fuel', String ch s' =>
      let write := b +:+ str_single ch in
      match m with
      | InLineComment => split_loop fuel' (if Ascii.eqb ch newline then Plain else InLineComment) b s'
      | InBlockComment =>
          if Ascii.eqb ch "*" && Ascii.eqb (peek s') "/" then split_loop fuel' Plain b (skip s')
          else split_loop fuel' InBlockComment b s'
      | Plain =>
          if Ascii.eqb ch "-" && Ascii.eqb (peek s') "-" then split_loop fuel' InLineComment b (skip s')
          else if Ascii.eqb ch "/" && Ascii.eqb (peek s') "*" then split_loop fuel' InBlockComment b (skip s')
          else if Ascii.eqb ch quote then split_loop fuel' InSingle write s'
          else if Ascii.eqb ch dquote then split_loop fuel' InDouble write s'
          else if Ascii.eqb ch ";" then emit b ++ split_loop fuel' Plain EmptyString s'
          else split_loop fuel' Plain write s'
      | InSingle =>
          if Ascii.eqb ch quote then
            if Ascii.eqb (peek s') quote then split_loop fuel' InSingle write (skip s')
            else split_loop fuel' Plain write s'
          else split_loop fuel' InSingle write s'
      | InDouble =>
          if Ascii.eqb ch dquote then
            if Ascii.eqb (peek s') dquote then split_loop fuel' InDouble write (skip s')
            else split_loop fuel' Plain write s'
          else split_loop fuel' InDouble write s'
      end
  | _, _ => emit b
  end.

Definition splitSQLStatements (script : string) : list string := split_loop (str_len script) Plain EmptyString script.

Section Txn.
Context `{UnicodeCase}.

Definition isTxnControl (s : string) : bool :=
  bool_decide (ToUpper (TrimSpace s) ∈ ["BEGIN"; "BEGIN TRANSACTION"; "COMMIT"; "END"; "ROLLBACK"]).

Definition filterOutTxnControls (stmts : list string) : list string := filter (λ s, isTxnControl s = false) stmts.

End Txn.

(** More fuel changes nothing: every round consumes a character. *)
Lemma skip_len s : str_len (skip s) ≤ str_len s.
Proof. destruct s; cbn; lia. Qed.

Lemma split_loop_fuel fuel fuel' m b s :
  str_len s ≤ fuel → str_len s ≤ fuel' → split_loop fuel m b s = split_loop fuel' m b s.
Proof.
  revert fuel' m b s. induction fuel as [| fuel IH]; intros [| fuel'] m b [| ch s] H1 H2; cbn in H1, H2; try lia; try done.
  pose proof (skip_len s). cbn [split_loop].
  destruct m; repeat (case_match; try (apply IH; lia)); try (f_equal; apply IH; lia).
Qed.

(** ** Texts that are one statement *)

(** The mode at the end of a text without comments, separators at the top
    level and doubled quotes. *)
Fixpoint lex (m : mode) (s : string) : option mode :=
  match s with
  | EmptyString => Some m
  | String ch s' =>
      match m with
      | Plain =>
          if Ascii.eqb ch "-" && Ascii.eqb (peek s') "-" then None
          else if Ascii.eqb ch "/" && Ascii.eqb (peek s') "*" then None
          else if Ascii.eqb ch quote then lex InSingle s'
          else if Ascii.eqb ch dquote then lex InDouble s'
          else if Ascii.eqb ch ";" then None
          else lex Plain s'
      | InSingle =>
          if Ascii.eqb ch quote then if Ascii.eqb (peek s') quote then None else lex Plain s'
          else lex InSingle s'
      | InDouble =>
          if Ascii.eqb ch dquote then if Ascii.eqb (peek s') dquote then None else lex Plain s'
          else lex InDouble s'
      | InLineComment | InBlockComment => None
      end
  end.

Definition is_statement (s : string) : Prop := lex Plain s = Some Plain ∧ TrimSpace s = s ∧ s ≠ EmptyString.

Lemma peek_app s t : peek t = ";"%char → peek (s +:+ t) = if String.eqb s EmptyString then ";"%char else peek s.
Proof. by destruct s. Qed.

(** The loop copies such a text up to the separator behind it. *)
Lemma split_lex fuel m b s t m' :
  lex m s = Some m' → peek t = ";"%char → str_len s + str_len t ≤ fuel →
  split_loop fuel m b (s +:+ t) = split_loop fuel m' (b +:+ s) t.
Proof.
  revert fuel m b. induction s as [| ch s IH]; intros fuel m b Hl Ht Hf.
  { cbn in Hl |- *. simplify_eq. by rewrite str_app_nil_r. }
  cbn [String.append]. cbn in Hf. destruct fuel as [| fuel]; [lia |].
  assert (∀ mm, lex mm s = Some m' → split_loop fuel mm (b +:+ str_single ch) (s +:+ t) = split_loop (S fuel) m' (b +:+ String ch s) t) as Hgo.
  { intros mm Hmm. rewrite (IH fuel mm _ Hmm Ht) by lia. rewrite <- str_app_assoc. apply split_loop_fuel; lia. }
  assert (∀ c, c ≠ ";"%char → Ascii.eqb (peek s) c = false → Ascii.eqb (peek (s +:+ t)) c = false) as Hpeek.
  { intros c Hc Hp. rewrite peek_app by done. case_match; [| done]. by apply Ascii.eqb_neq. }
  set (R := split_loop (S fuel) m' (b +:+ String ch s) t) in *. clearbody R. cbn [split_loop].
  destruct m; cbn [lex] in Hl; try done.
  - destruct (Ascii.eqb ch "-"), (Ascii.eqb (peek s) "-") eqn:E1; cbn [andb] in Hl |- *; try done;
      rewrite ?(Hpeek "-"%char) by done; cbn [andb];
      destruct (Ascii.eqb ch "/"), (Ascii.eqb (peek s) "*") eqn:E2; cbn [andb] in Hl |- *; try done;
      rewrite ?(Hpeek "*"%char) by done; cbn [andb];
      repeat (case_match; try done); by apply Hgo.
  - destruct (Ascii.eqb ch quote); [| by apply Hgo]. destruct (Ascii.eqb (peek s) quote) eqn:E; [done |].
    rewrite (Hpeek quote) by done. by apply Hgo.
  - destruct (Ascii.eqb ch dquote); [| by apply Hgo]. destruct (Ascii.eqb (peek s) dquote) eqn:E; [done |].
    rewrite (Hpeek dquote) by done. by apply Hgo.
Qed.

(** ** Scripts *)

(** The parts of a script: statements and comments, each on lines of their own. *)
Inductive item := Stmt (s : string) | Line (c : string) | Block (c : string).

Definition print_item (i : item) : string :=
  match i with
  | Stmt s => s +:+ ";" +:+ str_single newline
  | Line c => "--" +:+ c +:+ str_single newline
  | Block c => "/*" +:+ c +:+ "*/" +:+ str_single newline
  end.

Definition print (l : list item) : string := foldr (λ i s, print_item i +:+ s) EmptyString l.

Definition ok_item (i : item) : Prop :=
  match i with
  | Stmt s => is_statement s
  | Line c => str_mem newline c = false
  | Block c => Contains (c +:+ "*") "*/" = false
  end.

Definition statements (l : list item) : list string := omap (λ i, match i with Stmt s => Some s | _ => None end) l.

(** White space in front of a text does not matter. *)
Definition blank (b : string) : Prop := ∀ s, TrimSpace (b +:+ s) = TrimSpace s.

Lemma blank_newline b : blank b → blank (b +:+ str_single newline).
Proof. intros Hb s. by rewrite <- str_app_assoc, Hb. Qed.

Lemma line_comment fuel b c t :
  str_mem newline c = false → S (str_len c + str_len t) ≤ fuel →
  split_loop fuel InLineComment b (c +:+ String newline t) = split_loop fuel Plain b t.
Proof.
  revert fuel. induction c as [| ch c IH]; intros [| fuel] Hc Hf; cbn in Hf; try lia.
  - rewrite (split_loop_fuel (S fuel) fuel Plain b t) by lia. cbn [String.append split_loop]. by rewrite Ascii.eqb_refl.
  - rewrite (split_loop_fuel (S fuel) fuel Plain b t) by lia. cbn [String.append split_loop].
    change (Ascii.eqb newline ch || str_mem newline c = false) in Hc. apply orb_false_iff in Hc as [Hch Hc].
    rewrite Ascii.eqb_sym, Hch. by rewrite IH by (done || lia).
Qed.

Lemma block_comment fuel b c t :
  Contains (c +:+ "*") "*/" = false → S (S (str_len c + str_len t)) ≤ fuel →
  split_loop fuel InBlockComment b (c +:+ String "*" (String "/" t)) = split_loop fuel Plain b t.
Proof.
  revert fuel. induction c as [| ch c IH]; intros [| fuel] Hc Hf; cbn in Hf; try lia.
  - rewrite (split_loop_fuel (S fuel) fuel Plain b t) by lia. done.
  - rewrite (split_loop_fuel (S fuel) fuel Plain b t) by lia. cbn [String.append split_loop].
    change (Contains (String ch c +:+ "*") "*/") with
      ((Ascii.eqb "*" ch && HasPrefix (c +:+ "*") "/") || Contains (c +:+ "*") "*/") in Hc.
    apply orb_false_iff in Hc as [Hch Hc].
    assert (Ascii.eqb ch "*" && Ascii.eqb (peek (c +:+ String "*" (String "/" t))) "/" = false) as ->.
    { rewrite Ascii.eqb_sym. destruct (Ascii.eqb "*" ch); [| done]. cbn [andb] in *.
      destruct c as [| c0 c]; [done |].
      change (Ascii.eqb "/" c0 && true = false) in Hch. rewrite andb_true_r in Hch. cbn [String.append peek].
      by rewrite Ascii.eqb_sym. }
    by rewrite IH by (done || lia).
Qed.

Lemma emit_blank b : blank b → emit b = [].
Proof. intros Hb. unfold emit. specialize (Hb EmptyString). rewrite str_app_nil_r in Hb. by rewrite Hb. Qed.

Lemma emit_statement b s : blank b → is_statement s → emit (b +:+ s) = [s].
Proof.
  intros Hb (_ & Ht & Hne). unfold emit. rewrite Hb, Ht. by destruct (String.eqb_spec s EmptyString).
Qed.

Lemma plain_newline fuel b t :
  str_len t < fuel → split_loop fuel Plain b (String newline t) = split_loop fuel Plain (b +:+ str_single newline) t.
Proof.
  intros Hf. destruct fuel as [| fuel]; [lia |].
  rewrite (split_loop_fuel (S fuel) fuel Plain (b +:+ _) t) by lia. done.
Qed.

Lemma split_items l fuel b :
  Forall ok_item l → blank b → str_len (print l) ≤ fuel → split_loop fuel Plain b (print l) = statements l.
Proof.
  revert fuel b. induction l as [| i l IH]; intros fuel b Hok Hb Hf.
  { cbn. destruct fuel; by apply emit_blank. }
  apply Forall_cons in Hok as [Hi Hok]. change (print (i :: l)) with (print_item i +:+ print l) in *.
  rewrite str_len_app in Hf. destruct i as [s | c | c]; cbn [print_item] in *; rewrite !str_len_app in Hf; cbn [str_len str_single] in Hf.
  - rewrite <- !str_app_assoc. rewrite (split_lex fuel Plain b s _ Plain); [| apply Hi | done | cbn; lia].
    destruct fuel as [| fuel]; [lia |]. cbn [String.append str_single].
    change (split_loop (S fuel) Plain (b +:+ s) (String ";" (String newline (print l))))
      with (emit (b +:+ s) ++ split_loop fuel Plain EmptyString (String newline (print l))).
    rewrite emit_statement by done. rewrite plain_newline by lia. cbn [app statements omap list_omap]. f_equal.
    apply IH; [done | | lia]. by apply (blank_newline EmptyString).
  - rewrite <- !str_app_assoc. destruct fuel as [| fuel]; [lia |].
    change (split_loop (S fuel) Plain b ("--" +:+ c +:+ str_single newline +:+ print l))
      with (split_loop fuel InLineComment b (c +:+ String newline (print l))).
    rewrite line_comment by (done || lia). apply IH; [done | done | lia].
  - rewrite <- !str_app_assoc. destruct fuel as [| fuel]; [lia |].
    change (split_loop (S fuel) Plain b ("/*" +:+ c +:+ "*/" +:+ str_single newline +:+ print l))
      with (split_loop fuel InBlockComment b (c +:+ String "*" (String "/" (String newline (print l))))).
    rewrite block_comment by (done || cbn; lia). rewrite plain_newline by lia. apply IH; [done | by apply blank_newline | lia].
Qed.

(** Splitting a script gives back its statements: a script of statements,
    each closed by a semicolon, and of comments of both kinds between them is
    split into exactly these statements, in their order and unchanged; quoted
    texts in them may hold semicolons and the marks of comments. *)
Theorem split_roundtrip l : Forall ok_item l → splitSQLStatements (print l) = statements l.
Proof. intros Hok. by apply split_items. Qed.

Lemma split_roundtrip_witness :
  splitSQLStatements (print [Line " users"; Stmt "CREATE TABLE t (a TEXT DEFAULT '; -- /*')"; Block " x; ** "; Stmt "DROP TABLE u"])
  = ["CREATE TABLE t (a TEXT DEFAULT '; -- /*')"; "DROP TABLE u"].
Proof.
  apply (split_roundtrip [Line " users"; Stmt "CREATE TABLE t (a TEXT DEFAULT '; -- /*')"; Block " x; ** "; Stmt "DROP TABLE u"]).
  repeat (constructor; [by vm_compute |]). constructor.
Defined.

(** ** What the splitter changes *)

(** A doubled quote, which stands for a quote in a text, loses one of its two
    characters: the text ends in the middle. *)
Theorem doubled_quote_lost :
  splitSQLStatements "INSERT INTO t VALUES ('it''s')" = ["INSERT INTO t VALUES ('it's')"].
Proof. by vm_compute. Qed.

(** A comment between two words is removed with the end of its line, and the
    words become one. *)
Theorem comment_joins_words :
  splitSQLStatements ("SELECT a-- the key" +:+ str_single newline +:+ "FROM t") = ["SELECT aFROM t"].
Proof. by vm_compute. Qed.

(** The body of a trigger is cut at its semicolon, and its end is dropped. *)
Theorem trigger_body_cut :
  filterOutTxnControls (splitSQLStatements "CREATE TRIGGER g AFTER INSERT ON t BEGIN DELETE FROM u; END;")
  = ["CREATE TRIGGER g AFTER INSERT ON t BEGIN DELETE FROM u"].
Proof. by vm_compute. Qed.
