(* ===== verification/Migrations.v ===== *)
(** * Schema migrations ([core/pkg/rqlite/migrations.go],
      [core/migrations/contract.go])

    A directory of numbered scripts is applied in the order of the numbers;
    the numbers of the applied ones are rows of [schema_migrations], and at the
    start of a gateway the highest row is compared with the highest number.

    The database is the interface [MigrationDb]: what a statement does and
    which rows [schema_migrations] has.  The runner is a program of statements
    ([DbProg]); [trace] is the list of statements that a run executed or found
    already in effect. *)

From Stdlib Require Import ZArith Lia Ascii String.
From stdpp Require Import base tactics numbers list gmap strings sorting.
From S2P Require Import Prelude GoStrings GoSort DbProg SqlSplit.

Local Open Scope go_scope.

Record migrationFile := mkFile { Version : Z; Name : string; Content : string }.

(** ** Numbers of files *)

(** The leading digits of a name. *)
Fixpoint digit_prefix (s : string) : string :=
  match s with
  | String c s' => match digit_value c with
                   | Some _ => String c (digit_prefix s')
                   | None => EmptyString
                   end
  | EmptyString => EmptyString
  end.

Definition parseVersionPrefix (name : string) : option Z :=
  let p := digit_prefix name in
  if String.eqb p EmptyString then None else Atoi p.

(** The other parser, of the contract: the text before the first underscore. *)
Definition parseVersion (filename : string) : option Z :=
  match IndexByte filename "_" with
  | None | Some O => None
  | Some idx => Atoi (str_take idx filename)
  end.

Definition version_less (a b : migrationFile) : bool := (Version a <? Version b)%Z.

Section Files.
Context `{UnicodeCase}.

(** The files of a directory with their contents, in the order of the names. *)
Definition migration_of (entry : string * string) : option migrationFile :=
  if negb (HasSuffix (ToLower entry.1) ".sql") then None
  else match parseVersionPrefix entry.1 with
       | Some ver => Some (mkFile ver entry.1 entry.2)
       | None => None
       end.

Definition readMigrationFilesFromFS (entries : list (string * string)) : list migrationFile :=
  sort_Slice version_less (omap migration_of entries).

(** Several directories: the first number that appears twice is an error. *)
Fixpoint collect (seen : list Z) (files : list migrationFile) : option (list migrationFile) :=
  match files with
  | [] => Some []
  | f :: files' =>
      if decide (Version f ∈ seen) then None
      else (λ l, f :: l) <$> collect (Version f :: seen) files'
  end.

Definition readMigrationFilesFromDirs (dirs : list (list (string * string))) : option (list migrationFile) :=
  sort_Slice version_less <$> collect [] (mjoin (readMigrationFilesFromFS <$> dirs)).

End Files.

(** [strings.TrimSuffix] *)
Definition TrimSuffix (s suf : string) : string :=
  if HasSuffix s suf then str_take (str_len s - str_len suf) s else s.

(** The list of the contract, from the names of the embedded files. *)
Record MigrationInfo := mkInfo { info_Version : Z; info_Name : string; info_Path : string }.

Definition info_less (a b : MigrationInfo) : bool := (info_Version a <? info_Version b)%Z.

Definition info_of (name : string) : option MigrationInfo :=
  if negb (HasSuffix name ".sql") then None
  else match parseVersion name with
       | Some v => Some (mkInfo v (TrimSuffix name ".sql") name)
       | None => None
       end.

Definition mustListMigrations (names : list string) : list MigrationInfo := sort_Slice info_less (omap info_of names).

(** ** The database *)

Class MigrationDb (D : Type) := {
  exec : string → D → result string D;
  rows : D → option (gset Z);
  create_table : D → D;
  record : Z → D → D;
  create_rows : ∀ d, rows (create_table d) = Some (default ∅ (rows d));
  record_rows : ∀ v d vs, rows d = Some vs → rows (record v d) = Some ({[v]} ∪ vs)
}.

(** A database with the statements that were executed. *)
Record traced (D : Type) := mkTraced { db : D; trace : list string }.
#[global] Arguments mkTraced {D} db trace.
#[global] Arguments db {D} t.
#[global] Arguments trace {D} t.

Section Runner.
Context `{UnicodeCase} {D : Type} `{MigrationDb D}.

Definition isAlreadyAppliedError (msg : string) : bool :=
  let msg := ToLower msg in Contains msg "duplicate column name" || Contains msg "already exists".

Definition isNoSuchTable (msg : string) : bool :=
  let msg := ToLower msg in Contains msg "no such table" || Contains msg "does not exist".

Definition ensureMigrationsTable : prog (traced D) (result string unit) :=
  Exec (λ t, Ok (mkTraced (create_table (db t)) (trace t))) Ret.

Definition loadAppliedVersions : prog (traced D) (result string (gset Z)) :=
  Query (λ t, rows (db t)) (λ r,
    match r with
    | Ok (Some vs) => Ret (Ok vs)
    | Ok None => do! e := ensureMigrationsTable in
                 Ret (match e with Ok _ => Ok ∅ | Err e => Err e end)
    | Err e => if isNoSuchTable e then do! e := ensureMigrationsTable in
                                       Ret (match e with Ok _ => Ok ∅ | Err e => Err e end)
               else Ret (Err e)
    end).

(** One statement: an answer that it is already in effect is no error.  The
    trace has the statements that count as done. *)
Definition exec_stmt (stmt : string) (t : traced D) : result string (traced D) :=
  match exec stmt (db t) with
  | Ok d => Ok (mkTraced d (trace t ++ [stmt]))
  | Err e => if isAlreadyAppliedError e then Ok (mkTraced (db t) (trace t ++ [stmt])) else Err e
  end.

Fixpoint exec_all (stmts : list string) : prog (traced D) (result string unit) :=
  match stmts with
  | [] => Ret (Ok tt)
  | stmt :: stmts' =>
      if String.eqb (TrimSpace stmt) EmptyString then exec_all stmts'
      else Exec (exec_stmt stmt) (λ r,
             match r with
             | Ok _ => exec_all stmts'
             | Err e => if isAlreadyAppliedError e then exec_all stmts' else Ret (Err ("exec stmt failed: " +:+ e))
             end)
  end.

Definition script_statements (script : string) : list string :=
  let s := TrimSpace script in
  if String.eqb s EmptyString then [] else filterOutTxnControls (splitSQLStatements s).

Definition applySQL (script : string) : prog (traced D) (result string unit) := exec_all (script_statements script).

Definition record_version (v : Z) (t : traced D) : result string (traced D) :=
  match rows (db t) with
  | Some _ => Ok (mkTraced (record v (db t)) (trace t))
  | None => Err "no such table: schema_migrations"
  end.

Fixpoint apply_files (applied : gset Z) (files : list migrationFile) : prog (traced D) (result string unit) :=
  match files with
  | [] => Ret (Ok tt)
  | mf :: files' =>
      if decide (Version mf ∈ applied) then apply_files applied files'
      else
        do! r := applySQL (Content mf) in
        match r with
        | Err e => Ret (Err ("apply migration: " +:+ e))
        | Ok _ =>
            Exec (record_version (Version mf)) (λ r,
              match r with
              | Err e => Ret (Err ("record migration: " +:+ e))
              | Ok _ => apply_files applied files'
              end)
        end
  end.

(** [ApplyMigrations] and [ApplyEmbeddedMigrations], on the files read. *)
Definition apply_migrations (files : list migrationFile) : prog (traced D) (result string unit) :=
  do! r := ensureMigrationsTable in
  match r with
  | Err e => Ret (Err ("ensure schema_migrations: " +:+ e))
  | Ok _ =>
      match files with
      | [] => Ret (Ok tt)
      | _ =>
          do! r := loadAppliedVersions in
          match r with
          | Err e => Ret (Err ("load applied versions: " +:+ e))
          | Ok applied => apply_files applied files
          end
      end
  end.

Definition ApplyEmbeddedMigrations (entries : list (string * string)) : prog (traced D) (result string unit) :=
  apply_migrations (readMigrationFilesFromFS entries).

Definition ApplyMigrationsDirs (dirs : list (list (string * string))) : prog (traced D) (result string unit) :=
  do! r := ensureMigrationsTable in
  match r with
  | Err e => Ret (Err ("ensure schema_migrations: " +:+ e))
  | Ok _ =>
      match readMigrationFilesFromDirs dirs with
      | None => Ret (Err "duplicate migration version detected; ensure global version uniqueness")
      | Some [] => Ret (Ok tt)
      | Some files =>
          do! r := loadAppliedVersions in
          match r with
          | Err e => Ret (Err ("load applied versions: " +:+ e))
          | Ok applied => apply_files applied files
          end
      end
  end.

(** ** The contract *)

(** [COALESCE(MAX(version), 0)] *)
Definition max_version (vs : gset Z) : Z :=
  match elements vs with
  | [] => 0
  | v :: l => foldr Z.max v l
  end.

(** [None]: the panic without embedded migrations. *)
Definition RequiredVersion (all : list MigrationInfo) : option Z := info_Version <$> last all.

Record SchemaMismatchError := mkMismatch { required : Z; applied : Z; Pending : list MigrationInfo }.

Definition pending_after (v : Z) (all : list MigrationInfo) : list MigrationInfo :=
  filter (λ m, (v < info_Version m)%Z) all.

Definition AppliedVersion (d : D) : result string Z :=
  match rows d with
  | None => Err "migrations: query schema_migrations"
  | Some vs => Ok (max_version vs)
  end.

(** An accepted schema is [Ok None]. *)
Definition AssertSchema (all : list MigrationInfo) (d : D) : result string (option SchemaMismatchError) :=
  match RequiredVersion all with
  | None => Err "panic: migrations: no embedded migrations found"
  | Some req =>
      match AppliedVersion d with
      | Err e => Err ("migrations.AssertSchema: " +:+ e)
      | Ok v => if (req <=? v)%Z then Ok None else Ok (Some (mkMismatch req v (pending_after v all)))
      end
  end.

Definition PendingMigrations (all : list MigrationInfo) (d : D) : result string (list MigrationInfo) :=
  match AppliedVersion d with
  | Err e => Err e
  | Ok v => Ok (pending_after v all)
  end.

End Runner.

(** ** What a run does *)

Section RunnerProofs.
Context `{UnicodeCase} {D : Type} `{MigrationDb D}.

(** Scripts may add rows to [schema_migrations] and never delete one. *)
Context (exec_rows : ∀ stmt d d' vs, exec stmt d = Ok d' → rows d = Some vs → ∃ vs', rows d' = Some vs' ∧ vs ⊆ vs').

Definition not_blank (stmt : string) : Prop := TrimSpace stmt ≠ EmptyString.

(** The statements of a file that are executed. *)
Definition file_statements (f : migrationFile) : list string := filter not_blank (script_statements (Content f)).

(** A statement that fails for good. *)
Definition fails (stmt : string) (d : D) : Prop := ∃ e, exec stmt d = Err e ∧ isAlreadyAppliedError e = false.

Definition grown (t t' : traced D) : Prop :=
  ∀ vs, rows (db t) = Some vs → ∃ vs', rows (db t') = Some vs' ∧ vs ⊆ vs'.

#[local] Instance grown_preorder : PreOrder grown.
Proof.
  split; [by intros t vs Hvs; exists vs |]. intros t1 t2 t3 H12 H23 vs Hvs.
  destruct (H12 vs Hvs) as (vs2 & H2 & Hs2). destruct (H23 vs2 H2) as (vs3 & H3 & Hs3).
  exists vs3. split; [done | by etrans].
Qed.

Lemma exec_stmt_cases stmt t :
  (∃ t', exec_stmt stmt t = Ok t' ∧ trace t' = trace t ++ [stmt] ∧ grown t t') ∨
  (∃ e, exec_stmt stmt t = Err e ∧ isAlreadyAppliedError e = false ∧ fails stmt (db t)).
Proof.
  unfold exec_stmt, fails. destruct (exec stmt (db t)) as [d | e] eqn:He.
  - left. eexists. split; [done |]. split; [done |]. intros vs Hvs. cbn. eauto.
  - destruct (isAlreadyAppliedError e) eqn:Ha; [| right; eauto 10].
    left. eexists. split; [done |]. split; [done |]. intros vs Hvs. cbn. eauto.
Qed.

Lemma run_exec_all stmts t :
  grown t (run (exec_all stmts) t).2 ∧
  match (run (exec_all stmts) t).1 with
  | Ok _ => trace (run (exec_all stmts) t).2 = trace t ++ filter not_blank stmts
  | Err _ => ∃ k stmt, filter not_blank stmts !! k = Some stmt ∧ fails stmt (db (run (exec_all stmts) t).2) ∧
      trace (run (exec_all stmts) t).2 = trace t ++ take k (filter not_blank stmts)
  end.
Proof.
  revert t. induction stmts as [| stmt stmts IH]; intros t; cbn [exec_all].
  { cbn. split; [done |]. by rewrite app_nil_r. }
  rewrite filter_cons. destruct (String.eqb_spec (TrimSpace stmt) EmptyString) as [Hb | Hb].
  { rewrite decide_False by (by intros Hn). apply IH. }
  rewrite decide_True by done. cbn [run].
  destruct (exec_stmt_cases stmt t) as [(t' & -> & Ht & Hg) | (e & -> & Ha & Hf)].
  - destruct (IH t') as [IH1 IH2]. split; [by etrans |].
    destruct (run (exec_all stmts) t').1; rewrite Ht in IH2.
    + by rewrite <- app_assoc in IH2.
    + destruct IH2 as (k & s & Hk & Hs & Htr). exists (S k), s. split; [done |]. split; [done |].
      by rewrite <- app_assoc in Htr.
  - rewrite Ha. cbn. split; [done |]. exists 0, stmt. split; [done |]. split; [done |]. by rewrite app_nil_r.
Qed.

Lemma run_apply_files (applied : gset Z) files t vs :
  rows (db t) = Some vs →
  let pending := filter (λ f, Version f ∉ applied) files in
  grown t (run (apply_files applied files) t).2 ∧
  match (run (apply_files applied files) t).1 with
  | Ok _ =>
      trace (run (apply_files applied files) t).2 = trace t ++ mjoin (file_statements <$> pending) ∧
      ∃ vs', rows (db (run (apply_files applied files) t).2) = Some vs' ∧ ∀ f, f ∈ pending → Version f ∈ vs'
  | Err _ =>
      ∃ pre f post k stmt, pending = pre ++ f :: post ∧ file_statements f !! k = Some stmt ∧
        fails stmt (db (run (apply_files applied files) t).2) ∧
        trace (run (apply_files applied files) t).2
          = trace t ++ mjoin (file_statements <$> pre) ++ take k (file_statements f) ∧
        ∃ vs', rows (db (run (apply_files applied files) t).2) = Some vs' ∧ ∀ g, g ∈ pre → Version g ∈ vs'
  end.
Proof.
  revert t vs. induction files as [| f files IH]; intros t vs Hvs pending; cbn [apply_files].
  { cbn. split; [done |]. split; [by rewrite app_nil_r |]. exists vs. split; [done |]. intros f Hf. by apply elem_of_nil in Hf. }
  unfold pending. rewrite filter_cons. destruct (decide (Version f ∈ applied)) as [Hin | Hni].
  { rewrite decide_False by naive_solver. by eapply IH. }
  rewrite decide_True by done. rewrite run_bind. unfold applySQL.
  destruct (run_exec_all (script_statements (Content f)) t) as [Hg Hr].
  set (t1 := (run (exec_all (script_statements (Content f))) t).2) in *.
  destruct (Hg vs Hvs) as (vs1 & Hvs1 & Hsub1).
  destruct (run (exec_all (script_statements (Content f))) t).1 as [[] | e].
  - fold (file_statements f) in Hr.
    set (t2 := mkTraced (record (Version f) (db t1)) (trace t1)).
    assert (∀ A (k : _ → prog (traced D) A), run (Exec (record_version (Version f)) k) t1 = run (k (Ok tt)) t2) as Hrec
      by (intros A k; cbn [run]; unfold record_version; by rewrite Hvs1).
    rewrite Hrec.
    assert (rows (db t2) = Some ({[Version f]} ∪ vs1)) as Hvs2 by (by apply record_rows).
    destruct (IH t2 _ Hvs2) as [IH1 IH2].
    assert (grown t1 t2) as Hg2.
    { intros vs' Hvs'. exists ({[Version f]} ∪ vs'). rewrite Hvs1 in Hvs'. simplify_eq. split; [done | set_solver]. }
    split; [etrans; [exact Hg |]; by etrans |].
    destruct (IH1 _ Hvs2) as (vs3 & Hvs3 & Hsub3).
    destruct (run (apply_files applied files) t2).1 as [[] | e].
    + destruct IH2 as (Htr & vs' & Hvs' & Hall). split.
      * rewrite Htr. cbn [trace t2]. rewrite Hr, <- app_assoc. done.
      * exists vs'. split; [done |]. simplify_eq. intros g [-> | Hg']%elem_of_cons; [set_solver | auto].
    + destruct IH2 as (pre & g & post & k & stmt & Hp & Hk & Hf & Htr & vs' & Hvs' & Hall).
      exists (f :: pre), g, post, k, stmt. rewrite Hp. split; [done |]. split; [done |]. split; [done |]. split.
      * rewrite Htr. cbn [trace t2]. rewrite Hr. cbn. by rewrite <- !app_assoc.
      * exists vs'. split; [done |]. simplify_eq. intros g' [-> | Hg']%elem_of_cons; [set_solver | auto].
  - cbn [run fst snd]. split; [done |]. destruct Hr as (k & stmt & Hk & Hf & Htr).
    exists [], f, (filter (λ f, Version f ∉ applied) files), k, stmt. split; [done |]. split; [done |]. split; [done |].
    split; [done |]. exists vs1. split; [done |]. intros g Hg'. by apply elem_of_nil in Hg'.
Qed.

End RunnerProofs.

(** ** The numbers of names *)

Lemma digits_prefix acc s z u : digits_value acc s = Some z → digit_prefix (s +:+ String "_" u) = s.
Proof.
  revert acc. induction s as [| c s IH]; intros acc; cbn [digits_value String.append digit_prefix]; [done |].
  destruct (digit_value c); [| done]. intros Hd. f_equal. by eapply IH.
Qed.

Lemma Atoi_digits c s d v : digit_value c = Some d → Atoi (String c s) = Some v → is_Some (digits_value 0 (String c s)).
Proof.
  intros Hc Ha. assert (Atoi (String c s) = match digits_value 0 (String c s) with
    | Some z => if (minInt64 <=? z)%Z && (z <=? maxInt64)%Z then Some z else None | None => None end) as E.
  { destruct c as [[] [] [] [] [] [] [] []]; done. }
  rewrite E in Ha. destruct (digits_value 0 (String c s)); [by eexists | done].
Qed.

(** A name that begins with a digit has the same number for both parsers. *)
Lemma parsers_agree name v :
  is_Some (digit_value (peek name)) → parseVersion name = Some v → parseVersionPrefix name = Some v.
Proof.
  intros Hd. unfold parseVersion, parseVersionPrefix.
  destruct (IndexByte name "_") as [[| idx] |] eqn:Hi; [done | | done].
  apply IndexByte_Some in Hi as (t & u & -> & Hlen & _). rewrite <- Hlen, str_take_app. intros Ha.
  destruct t as [| c t]; [done |]. destruct Hd as [d Hd]. cbn in Hd.
  destruct (Atoi_digits c t d v Hd Ha) as [z Hz]. by rewrite (digits_prefix 0 (String c t) z u Hz).
Qed.

Lemma lower_suffix name : HasSuffix name ".sql" = true → HasSuffix (str_map lower_byte name) ".sql" = true.
Proof.
  rewrite !HasSuffix_spec. intros [r ->]. exists (str_map lower_byte r).
  induction r as [| c r IH]; [done |]. cbn [String.append str_map]. by rewrite IH.
Qed.

Lemma max_version_le vs v : v ∈ vs → (v ≤ max_version vs)%Z.
Proof.
  intros Hv%elem_of_elements. unfold max_version. destruct (elements vs) as [| w l]; [by apply elem_of_nil in Hv |].
  apply elem_of_cons in Hv as [-> | Hv].
  - clear. induction l as [| x l IH]; cbn; lia.
  - induction l as [| x l IH]; [by apply elem_of_nil in Hv |]. cbn. apply elem_of_cons in Hv as [-> | Hv]; [lia |].
    specialize (IH Hv). lia.
Qed.

(** The files of the runner in their order. *)
Lemma files_elem `{UnicodeCase} entries f :
  f ∈ readMigrationFilesFromFS entries ↔ ∃ e, e ∈ entries ∧ migration_of e = Some f.
Proof. unfold readMigrationFilesFromFS. rewrite sort_Slice_perm. apply list_elem_of_omap. Qed.

Section Contract.
Context `{UnicodeCase} {D : Type} `{MigrationDb D}.
Context (exec_rows : ∀ stmt d d' vs, exec stmt d = Ok d' → rows d = Some vs → ∃ vs', rows d' = Some vs' ∧ vs ⊆ vs').

(** A whole run, from the rows at its start. *)
Lemma run_apply_migrations files t :
  let old := default ∅ (rows (db t)) in
  let pending := filter (λ f, Version f ∉ old) files in
  let r := run (apply_migrations files) t in
  match r.1 with
  | Ok _ =>
      trace r.2 = trace t ++ mjoin (file_statements <$> pending) ∧
      ∃ vs, rows (db r.2) = Some vs ∧ old ⊆ vs ∧ ∀ f, f ∈ files → Version f ∈ vs
  | Err _ =>
      ∃ pre f post k stmt, pending = pre ++ f :: post ∧ file_statements f !! k = Some stmt ∧ fails stmt (db r.2) ∧
        trace r.2 = trace t ++ mjoin (file_statements <$> pre) ++ take k (file_statements f) ∧
        ∃ vs, rows (db r.2) = Some vs ∧ old ⊆ vs ∧ ∀ g, g ∈ pre → Version g ∈ vs
  end.
Proof.
  intros old pending r. set (t0 := mkTraced (create_table (db t)) (trace t)).
  assert (rows (db t0) = Some old) as Hrows0 by (apply create_rows).
  destruct files as [| f files].
  { subst r. cbn. rewrite app_nil_r. split; [done |]. exists old. split; [done |]. split; [done |].
    intros f Hf. by apply elem_of_nil in Hf. }
  assert (r = run (apply_files old (f :: files)) t0) as ->.
  { subst r. unfold apply_migrations. cbn [prog_bind run ensureMigrationsTable]. fold t0.
    unfold loadAppliedVersions. cbn [prog_bind run]. rewrite Hrows0. done. }
  set (fs := f :: files) in *. clearbody fs.
  destruct (run_apply_files exec_rows old fs t0 old Hrows0) as [Hg Hr]. fold pending in Hr.
  destruct (Hg _ Hrows0) as (vs0 & Hvs0 & Hsub).
  destruct (run (apply_files old fs) t0).1.
  - destruct Hr as (Htr & vs & Hvs & Hall). split; [done |]. exists vs. simplify_eq. split; [done |]. split; [done |].
    intros g Hg'. destruct (decide (Version g ∈ old)); [set_solver |]. apply Hall, list_elem_of_filter. done.
  - destruct Hr as (pre & g & post & k & stmt & H1 & H2 & H3 & H4 & vs & Hvs & Hall).
    exists pre, g, post, k, stmt. do 4 (split; [done |]). exists vs. simplify_eq. done.
Qed.

End Contract.

(** C28: a run of the embedded migrations, with statements that may fail: it
    executes the scripts without a row in [schema_migrations] in the order of
    their numbers and each statement of a script once, and skips the others.
    A run that succeeds leaves a row for every script.  A run that fails
    stopped at the first statement that failed for another reason than being
    already in effect; all scripts before it are recorded, so that the next
    run begins with the script of that statement. *)
Theorem migrations_in_order `{UnicodeCase} {D : Type} `{MigrationDb D} entries t :
  (∀ stmt d d' vs, exec stmt d = Ok d' → rows d = Some vs → ∃ vs', rows d' = Some vs' ∧ vs ⊆ vs') →
  NoDup (Version <$> omap migration_of entries) →
  let old := default ∅ (rows (db t)) in
  let files := readMigrationFilesFromFS entries in
  let pending := filter (λ f, Version f ∉ old) files in
  let r := run (ApplyEmbeddedMigrations entries) t in
  (∀ i j f g, i < j → files !! i = Some f → files !! j = Some g → (Version f < Version g)%Z) ∧
  match r.1 with
  | Ok _ =>
      trace r.2 = trace t ++ mjoin (file_statements <$> pending) ∧
      ∃ vs, rows (db r.2) = Some vs ∧ old ⊆ vs ∧ ∀ f, f ∈ files → Version f ∈ vs
  | Err _ =>
      ∃ pre f post k stmt, pending = pre ++ f :: post ∧ file_statements f !! k = Some stmt ∧ fails stmt (db r.2) ∧
        trace r.2 = trace t ++ mjoin (file_statements <$> pre) ++ take k (file_statements f) ∧
        ∃ vs, rows (db r.2) = Some vs ∧ old ⊆ vs ∧ ∀ g, g ∈ pre → Version g ∈ vs
  end.
Proof.
  intros Hexec Hnd old files pending r. split.
  - intros i j f g Hij Hf Hg. by eapply (sort_Slice_ascending version_less Version (omap migration_of entries)).
  - apply run_apply_migrations. done.
Qed.

(** A successful run satisfies the contract that a gateway checks at its
    start, when every script's name is ASCII and begins with a digit: the two
    parsers of names agree, and the highest row is at least the highest
    number. *)
Theorem migrated_schema_accepted `{UnicodeCase} {D : Type} `{MigrationDb D} entries (t : traced D) :
  (∀ stmt d d' vs, exec stmt d = Ok d' → rows d = Some vs → ∃ vs', rows d' = Some vs' ∧ vs ⊆ vs') →
  (∀ e, e ∈ entries → HasSuffix e.1 ".sql" = true → is_ascii e.1 = true ∧ is_Some (digit_value (peek e.1))) →
  mustListMigrations entries.*1 ≠ [] →
  (run (ApplyEmbeddedMigrations entries) t).1 = Ok tt →
  AssertSchema (mustListMigrations entries.*1) (db (run (ApplyEmbeddedMigrations entries) t).2) = Ok None.
Proof.
  intros Hexec Hnames Hne Hok.
  pose proof (run_apply_migrations Hexec (readMigrationFilesFromFS entries) t) as Hr. cbn zeta in Hr.
  fold (ApplyEmbeddedMigrations (D := D) entries) in Hr. rewrite Hok in Hr. destruct Hr as (_ & vs & Hvs & _ & Hall).
  unfold AssertSchema, AppliedVersion, RequiredVersion. rewrite Hvs.
  destruct (last (mustListMigrations entries.*1)) as [f |] eqn:Hl; [| by apply last_None in Hl]. cbn [fmap option_fmap option_map].
  assert (info_Version f ≤ max_version vs)%Z as Hle; [| by apply Z.leb_le in Hle; rewrite Hle].
  apply last_Some_elem_of in Hl. unfold mustListMigrations in Hl. rewrite sort_Slice_perm in Hl.
  apply list_elem_of_omap in Hl as (name & Hin & Hi).
  apply list_elem_of_fmap in Hin as ([n content] & -> & Hin). cbn [fst] in Hi.
  unfold info_of in Hi. destruct (HasSuffix n ".sql") eqn:Hsuf; [| done]. cbn [negb] in Hi.
  destruct (Hnames _ Hin Hsuf) as [Hascii Hdigit]. cbn [fst] in *.
  destruct (parseVersion n) as [v |] eqn:Hv; [| done]. simplify_eq. cbn [info_Version].
  apply max_version_le, (Hall (mkFile v n content)), files_elem. exists (n, content). split; [done |].
  unfold migration_of. cbn [fst snd]. rewrite ToLower_ascii by done. rewrite lower_suffix by done. cbn [negb].
  by rewrite (parsers_agree n v).
Qed.

(** ** Runs *)

(** A database that knows which tables exist: a [CREATE TABLE] of an existing
    one is refused as SQLite does, another statement is accepted unless it is
    listed as failing. *)
Module Example.

Record sqlite := mkSqlite { versions : option (gset Z); created : gset string; failing : list string }.

Definition sqlite_exec (stmt : string) (d : sqlite) : result string sqlite :=
  if decide (stmt ∈ failing d) then Err "database is locked"
  else if decide (stmt ∈ created d) then Err "table t already exists"
  else Ok (mkSqlite (versions d) ({[stmt]} ∪ created d) (failing d)).

Definition sqlite_create (d : sqlite) : sqlite := mkSqlite (Some (default ∅ (versions d))) (created d) (failing d).
Definition sqlite_record (v : Z) (d : sqlite) : sqlite :=
  mkSqlite ((λ vs, {[v]} ∪ vs) <$> versions d) (created d) (failing d).

Lemma sqlite_create_rows d : versions (sqlite_create d) = Some (default ∅ (versions d)).
Proof. done. Qed.

Lemma sqlite_record_rows v d vs : versions d = Some vs → versions (sqlite_record v d) = Some ({[v]} ∪ vs).
Proof. cbn. by intros ->. Qed.

#[export] Instance sqlite_db : MigrationDb sqlite :=
  {| exec := sqlite_exec; rows := versions; create_table := sqlite_create; record := sqlite_record;
     create_rows := sqlite_create_rows; record_rows := sqlite_record_rows |}.

Lemma sqlite_grows stmt (d d' : sqlite) vs :
  exec stmt d = Ok d' → rows d = Some vs → ∃ vs', rows d' = Some vs' ∧ vs ⊆ vs'.
Proof. cbn. unfold sqlite_exec. intros He Hvs. repeat case_decide; simplify_eq. by exists vs. Qed.

Definition entries : list (string * string) :=
  [ ("002_b.sql", "CREATE TABLE b(x); CREATE INDEX i;"); ("001_a.sql", "BEGIN; CREATE TABLE a(x); COMMIT;"); ("README.md", "") ].

Definition fresh : traced sqlite := mkTraced (mkSqlite None ∅ ["CREATE INDEX i"]) [].

(** The same database when the failing statement no longer fails. *)
Definition repaired (t : traced sqlite) : traced sqlite :=
  mkTraced (mkSqlite (versions (db t)) (created (db t)) []) [].

End Example.
Import Example.

Lemma migrations_in_order_witness :
  let r := run (ApplyEmbeddedMigrations entries) fresh in
  r.1 = Err "apply migration: exec stmt failed: database is locked" ∧
  ∃ pre f post k stmt,
    filter (λ f, Version f ∉ (∅ : gset Z)) (readMigrationFilesFromFS entries) = pre ++ f :: post ∧
    file_statements f !! k = Some stmt ∧ fails stmt (db r.2) ∧
    trace r.2 = mjoin (file_statements <$> pre) ++ take k (file_statements f) ∧
    ∃ vs, rows (db r.2) = Some vs ∧ ∅ ⊆ vs ∧ ∀ g, g ∈ pre → Version g ∈ vs.
Proof.
  intros r. assert (r.1 = Err "apply migration: exec stmt failed: database is locked") as Hr by (by vm_compute).
  split; [exact Hr |].
  assert (NoDup (Version <$> omap migration_of entries)) as Hnd
    by (apply (bool_decide_eq_true_1 _); vm_compute; reflexivity).
  destruct (migrations_in_order entries fresh sqlite_grows Hnd) as [_ Hm].
  fold r in Hm. rewrite Hr in Hm. exact Hm.
Defined.

Lemma migrated_schema_accepted_witness :
  let t := repaired (run (ApplyEmbeddedMigrations entries) fresh).2 in
  (run (ApplyEmbeddedMigrations entries) t).1 = Ok tt ∧
  AssertSchema (mustListMigrations entries.*1) (db (run (ApplyEmbeddedMigrations entries) t).2) = Ok None.
Proof.
  intros t. assert ((run (ApplyEmbeddedMigrations entries) t).1 = Ok tt) as Hr by (by vm_compute).
  split; [exact Hr |]. apply migrated_schema_accepted; [exact sqlite_grows | | | exact Hr].
  - clear Hr. intros e He. repeat (apply elem_of_cons in He as [-> | He]; [cbn [fst]; intros Hs; first [discriminate Hs | split; [reflexivity | eexists; reflexivity]] |]). apply elem_of_nil in He. destruct He.
  - clear Hr. vm_compute. discriminate.
Defined.

(** Two scripts with one number in one directory: when the second fails, its
    number is recorded already, and no later run executes it. *)
Theorem duplicate_number_lost :
  let twice := [("001_a.sql", "CREATE TABLE a(x)"); ("001_b.sql", "CREATE INDEX i")] in
  let r := run (ApplyEmbeddedMigrations twice) fresh in
  r.1 = Err "apply migration: exec stmt failed: database is locked" ∧
  run (ApplyEmbeddedMigrations twice) (repaired r.2) = (Ok tt, repaired r.2) ∧
  (run (ApplyMigrationsDirs [twice]) fresh).1
    = Err "duplicate migration version detected; ensure global version uniqueness".
Proof. by vm_compute. Qed.

(** The contract compares the highest numbers only: a database in which an
    earlier script never ran is accepted. *)
Theorem gap_accepted :
  let d := mkSqlite (Some {[ 2%Z ]}) ∅ [] in
  AssertSchema (mustListMigrations entries.*1) d = Ok None ∧
  trace (run (ApplyEmbeddedMigrations entries) (mkTraced d [])).2 = ["CREATE TABLE a(x)"].
Proof. by vm_compute. Qed.

(** A name without an underscore is a script for the runner and none for the
    contract; a signed number is the converse. *)
Theorem parsers_differ :
  parseVersionPrefix "7.sql" = Some 7%Z ∧ parseVersion "7.sql" = None ∧
  parseVersionPrefix "+8_x.sql" = None ∧ parseVersion "+8_x.sql" = Some 8%Z.
Proof. by vm_compute. Qed.
