(* ===== verification/Scanner.v ===== *)
(** * Rows of a query as structs ([core/pkg/rqlite/scanner.go])

    A query answers with named columns; the scanner assigns each to the field
    of the struct whose name is the same up to case and underscores.  Columns
    without such a field are skipped and fields without a column keep their
    zero value.  Values are what the stores of this library use: texts and
    integers (the driver's numbers, below 2^53) and NULL. *)

From Stdlib Require Import ZArith Lia Ascii String.
From stdpp Require Import base tactics numbers list gmap strings pretty.
From S2P Require Import Prelude GoStrings.

Inductive sql_value := VNull | VText (s : string) | VInt (z : Z).

(** The kinds of the fields and their values. *)
Inductive field_kind := KString | KInt.
Inductive field_value := FString (s : string) | FInt (z : Z).

Record struct_field := mkField { field_name : string; tag : string; kind : field_kind }.

Definition zero_value (k : field_kind) : field_value :=
  match k with KString => FString EmptyString | KInt => FInt 0 end.

(** [strings.ReplaceAll(s, "_", "")] *)
Fixpoint drop_underscores (s : string) : string :=
  match s with
  | EmptyString => EmptyString
  | String c s' => if Ascii.eqb c "_" then drop_underscores s' else String c (drop_underscores s')
  end.

(** [strings.Split(tag, ",")[0]] *)
Definition tag_name (t : string) : string :=
  match IndexByte t "," with Some i => str_take i t | None => t end.

Section Scan.
Context `{UnicodeCase}.

(** [fmt.Sscan] of a text into an integer, zero when it fails. *)
Context (Sscan : string → Z).

Definition normalizeColumnKey (s : string) : string := drop_underscores (ToLower s).

Definition field_column (f : struct_field) : string :=
  let col := if String.eqb (tag f) EmptyString then EmptyString else tag_name (tag f) in
  if String.eqb col EmptyString then field_name f else col.

(** Field numbers by column; of two fields with one key the later counts. *)
Definition index_from (i : nat) (fields : list struct_field) : gmap string nat :=
  foldl (λ m jf, <[normalizeColumnKey (field_column jf.2) := jf.1]> m) ∅ (zip (seq i (length fields)) fields).

Definition buildFieldIndex (fields : list struct_field) : gmap string nat := index_from 0 fields.

(** [None] leaves the field as it is. *)
Definition setReflectValue (k : field_kind) (raw : sql_value) : option field_value :=
  match raw, k with
  | VNull, _ => None
  | VText s, KString => Some (FString s)
  | VInt z, KString => Some (FString (pretty z))
  | VInt z, KInt => Some (FInt z)
  | VText s, KInt => Some (FInt (Sscan s))
  end.

Definition set_field (fields : list struct_field) (dest : list field_value) (idx : nat) (raw : sql_value) : list field_value :=
  match fields !! idx with
  | Some f => match setReflectValue (kind f) raw with
              | Some v => <[idx := v]> dest
              | None => dest
              end
  | None => dest
  end.

Fixpoint scan_columns (fields : list struct_field) (cols : list (string * sql_value)) (dest : list field_value) : list field_value :=
  match cols with
  | [] => dest
  | (c, raw) :: cols' =>
      scan_columns fields cols'
        (match buildFieldIndex fields !! normalizeColumnKey c with
         | Some idx => set_field fields dest idx raw
         | None => dest
         end)
  end.

Definition scanCurrentRowIntoStruct (fields : list struct_field) (cols : list (string * sql_value)) : list field_value :=
  scan_columns fields cols (zero_value ∘ kind <$> fields).

End Scan.

(** ** What a scan does *)

Section ScanProofs.
Context `{UnicodeCase} (Sscan : string → Z).

Definition field_key (f : struct_field) : string := normalizeColumnKey (field_column f).

(** The value a column gives to a field. *)
Definition assigned (f : struct_field) (raw : sql_value) : field_value :=
  default (zero_value (kind f)) (setReflectValue Sscan (kind f) raw).

Lemma index_lookup i fields (m : gmap string nat) k :
  NoDup (field_key <$> fields) →
  foldl (λ m jf, <[field_key jf.2 := jf.1]> m) m (zip (seq i (length fields)) fields) !! k =
  match list_find (λ f, field_key f = k) fields with Some (j, _) => Some (i + j) | None => m !! k end.
Proof.
  revert i m. induction fields as [| f fields IH]; intros i m Hnd; [done |].
  cbn [fmap list_fmap] in Hnd. apply NoDup_cons in Hnd as [Hni Hnd]. cbn [length seq zip zip_with foldl]. rewrite IH by done.
  cbn [list_find]. case_decide as Hk.
  - destruct (list_find _ fields) as [[j g] |] eqn:Hf.
    + apply list_find_Some in Hf as (Hg & Hg2 & _). exfalso. apply Hni. rewrite Hk, <- Hg2.
      apply list_elem_of_fmap. exists g. split; [done |]. by eapply list_elem_of_lookup_2.
    + cbn. subst k. rewrite lookup_insert_eq. f_equal. lia.
  - destruct (list_find _ fields) as [[j g] |]; cbn; [f_equal; lia |]. by rewrite lookup_insert_ne.
Qed.

Lemma index_Some fields i f :
  NoDup (field_key <$> fields) → fields !! i = Some f → buildFieldIndex fields !! field_key f = Some i.
Proof.
  intros Hnd Hi. unfold buildFieldIndex, index_from. change (λ m jf, <[normalizeColumnKey (field_column jf.2) := jf.1]> m)
    with (λ (m : gmap string nat) (jf : nat * struct_field), <[field_key jf.2 := jf.1]> m).
  rewrite index_lookup by done.
  assert (list_find (λ g, field_key g = field_key f) fields = Some (i, f)) as ->; [| done].
  apply list_find_Some. split; [done |]. split; [done |]. intros j g Hj Hlt Hg.
  assert (j = i) as E; [| lia].
  eapply (NoDup_lookup (field_key <$> fields)); [done | |]; rewrite list_lookup_fmap; [by rewrite Hj; cbn; rewrite Hg | by rewrite Hi].
Qed.

Lemma index_inv fields k i :
  NoDup (field_key <$> fields) → buildFieldIndex fields !! k = Some i → ∃ f, fields !! i = Some f ∧ field_key f = k.
Proof.
  intros Hnd. unfold buildFieldIndex, index_from. change (λ m jf, <[normalizeColumnKey (field_column jf.2) := jf.1]> m)
    with (λ (m : gmap string nat) (jf : nat * struct_field), <[field_key jf.2 := jf.1]> m).
  rewrite index_lookup by done. destruct (list_find _ fields) as [[j g] |] eqn:Hf; [| by rewrite lookup_empty].
  intros [= <-]. apply list_find_Some in Hf as (Hg & Hg2 & _). by exists g.
Qed.

Lemma set_field_length fields dest idx raw : length (set_field Sscan fields dest idx raw) = length dest.
Proof.
  unfold set_field. destruct (fields !! idx); [| done]. destruct (setReflectValue _ _ _); [apply length_insert | done].
Qed.

(** A field that no column names is left alone. *)
Lemma scan_columns_other fields cols dest i f :
  NoDup (field_key <$> fields) → fields !! i = Some f → (∀ c raw, (c, raw) ∈ cols → normalizeColumnKey c ≠ field_key f) →
  scan_columns Sscan fields cols dest !! i = dest !! i.
Proof.
  intros Hnd Hi. revert dest. induction cols as [| [c raw] cols IH]; intros dest Hc; [done |]. cbn [scan_columns].
  rewrite IH by (intros c' raw' Hin; eapply Hc; by right).
  destruct (buildFieldIndex fields !! normalizeColumnKey c) as [j |] eqn:Hj; [| done].
  apply index_inv in Hj as (g & Hg & Hkey); [| done].
  assert (j ≠ i) as Hne.
  { intros ->. simplify_eq. eapply Hc; [by left | done]. }
  unfold set_field. rewrite Hg. destruct (setReflectValue _ _ _); [by apply list_lookup_insert_ne | done].
Qed.

Lemma scan_columns_field fields cols dest i f c raw :
  NoDup (field_key <$> fields) → NoDup (normalizeColumnKey <$> cols.*1) → fields !! i = Some f →
  dest !! i = Some (zero_value (kind f)) → (c, raw) ∈ cols → normalizeColumnKey c = field_key f →
  scan_columns Sscan fields cols dest !! i = Some (assigned f raw).
Proof.
  intros Hnd. revert dest. induction cols as [| [c' raw'] cols IH]; intros dest Hcols Hi Hz Hin Hk.
  { by apply elem_of_nil in Hin. }
  cbn [fmap list_fmap] in Hcols. apply NoDup_cons in Hcols as [Hni Hcols]. cbn [scan_columns].
  apply elem_of_cons in Hin as [E | Hin].
  - injection E as <- <-. rewrite Hk, (index_Some fields i f) by done.
    rewrite (scan_columns_other fields cols _ i f); [| done | done |].
    + unfold set_field, assigned. rewrite Hi. destruct (setReflectValue Sscan (kind f) raw); [| done].
      apply list_lookup_insert_eq. by eapply lookup_lt_Some.
    + intros c' raw' Hin Hk'. apply Hni. cbn [fst]. rewrite Hk, <- Hk'. apply list_elem_of_fmap. exists c'. split; [done |].
      apply list_elem_of_fmap. by exists (c', raw').
  - apply IH; [done | done | | done | done].
    destruct (buildFieldIndex fields !! normalizeColumnKey c') as [j |] eqn:Hj; [| done].
    apply index_inv in Hj as (g & Hg & Hkey); [| done].
    assert (j ≠ i) as Hne.
    { intros ->. simplify_eq. apply Hni. cbn [fst]. rewrite <- Hkey, <- Hk. apply list_elem_of_fmap. exists c. split; [done |].
      apply list_elem_of_fmap. by exists (c, raw). }
    unfold set_field. rewrite Hg. destruct (setReflectValue _ _ _); [by rewrite list_lookup_insert_ne | done].
Qed.

Lemma scan_length fields cols : length (scanCurrentRowIntoStruct Sscan fields cols) = length fields.
Proof.
  unfold scanCurrentRowIntoStruct. assert (length (zero_value ∘ kind <$> fields) = length fields) as Hl by apply length_fmap.
  revert Hl. generalize (zero_value ∘ kind <$> fields) as dest. induction cols as [| [c raw] cols IH]; intros dest Hl; [done |].
  cbn [scan_columns]. apply IH. destruct (buildFieldIndex fields !! _); [by rewrite set_field_length | done].
Qed.

End ScanProofs.

(** Every field has the value of the column of its name, or its zero value when
    there is no such column or its value is NULL: when the names of the fields
    and of the columns are different up to case and underscores. *)
Theorem scan_row_spec `{UnicodeCase} Sscan fields cols i f :
  NoDup (field_key <$> fields) → NoDup (normalizeColumnKey <$> cols.*1) → fields !! i = Some f →
  scanCurrentRowIntoStruct Sscan fields cols !! i =
    Some (from_option (λ cr, assigned Sscan f cr.2) (zero_value (kind f))
      (snd <$> list_find (λ cr, normalizeColumnKey cr.1 = field_key f) cols)).
Proof.
  intros Hnd Hcols Hi. unfold scanCurrentRowIntoStruct.
  assert ((zero_value ∘ kind <$> fields) !! i = Some (zero_value (kind f))) as Hz by (by rewrite list_lookup_fmap, Hi).
  destruct (list_find _ cols) as [[j [c raw]] |] eqn:Hf; cbn.
  - apply list_find_Some in Hf as (Hj & Hk & _). eapply scan_columns_field; eauto using list_elem_of_lookup_2.
  - rewrite (scan_columns_other Sscan fields cols _ i f); [done | done | done |].
    intros c raw Hin Hk. apply list_find_None in Hf. rewrite Forall_forall in Hf. exact (Hf _ Hin Hk).
Qed.

(** Snake case names the fields, an expression without an alias does not. *)
Lemma scan_example :
  scanCurrentRowIntoStruct (λ _, 0%Z) [mkField "TokenEncrypted" EmptyString KString; mkField "Platform" EmptyString KString]
    [("token_encrypted"%string, VText "x"); ("COALESCE(platform, '')"%string, VText "ios")]
  = [FString "x"; FString EmptyString].
Proof. by vm_compute. Qed.
