(* ===== verification/PushDevices.v ===== *)
(** * Devices for push notifications ([core/pkg/push/device_store_rqlite.go],
      [core/pkg/secrets/encrypt.go], [core/pkg/gateway/handlers/push])

    The table [push_devices] has one row per namespace, user and device, with
    the encrypted token of the device and a fingerprint of it.  The operations
    of the store and the handlers over them are programs of [DbProg], so that
    requests on all gateways interleave.  A result row is scanned by the names
    of its columns ([Scanner]). *)

From Stdlib Require Import ZArith Lia Ascii String.
From stdpp Require Import base tactics numbers list gmap strings.
From S2P Require Import Prelude GoStrings DbProg Scopes Jwt AuthPipeline Scanner.

Local Open Scope go_scope.

(** ** Tokens at rest *)

(** AES-GCM with base64 around it, under one key, and the keyed fingerprint:
    the hexadecimal text of an HMAC. *)
Class TokenCrypto := {
  seal : string → string → string;
  open : string → option string;
  hmac_hex : string → string;
  open_seal : ∀ nonce t, open (seal nonce t) = Some t;
  hmac_hex_nonempty : ∀ t, hmac_hex t ≠ EmptyString
}.

Definition encryptedPrefix : string := "enc:".

Section Secrets.
Context `{TokenCrypto}.

Definition Encrypt (nonce plaintext : string) : string := encryptedPrefix +:+ seal nonce plaintext.

(** A text without the prefix is returned as it is. *)
Definition Decrypt (ciphertext : string) : option string :=
  if negb (HasPrefix ciphertext encryptedPrefix) then Some ciphertext
  else open (str_drop (str_len encryptedPrefix) ciphertext).

Definition IsEncrypted (value : string) : bool := HasPrefix value encryptedPrefix.

Lemma Decrypt_Encrypt nonce t : Decrypt (Encrypt nonce t) = Some t.
Proof.
  unfold Decrypt, Encrypt. rewrite (proj2 (HasPrefix_spec _ encryptedPrefix)) by eauto.
  cbn [negb]. rewrite str_drop_app. apply open_seal.
Qed.

End Secrets.

(** ** The table *)

Record PushDevice := mkDevice {
  dev_ID : string; dev_Namespace : string; dev_UserID : string; dev_DeviceID : string;
  dev_Provider : string; Token : string; dev_Platform : string; AppVer : string;
  dev_CreatedAt : Z; dev_UpdatedAt : Z; dev_LastSeen : Z
}.

(** A row: [platform], [app_version], [last_seen] and [token_fp] may be NULL. *)
Record push_row := mkRow {
  ID : string; Namespace : string; UserID : string; DeviceID : string; Provider : string;
  TokenEncrypted : string; token_fp : option string;
  Platform : option string; AppVersion : option string;
  CreatedAt : Z; UpdatedAt : Z; LastSeen : option Z
}.

Abbreviation device_key := (string * string * string)%type (only parsing).

Definition row_key (r : push_row) : device_key := (Namespace r, UserID r, DeviceID r).

(** [issued] are the ids that were ever inserted, with the device they were
    inserted for. *)
Record push_db := mkDb { devices : list push_row; issued : gmap string device_key }.

(** [ON CONFLICT DO UPDATE]: the id, the key and the creation time stay. *)
Definition replaced (old new : push_row) : push_row :=
  mkRow (ID old) (Namespace old) (UserID old) (DeviceID old) (Provider new) (TokenEncrypted new) (token_fp new)
    (Platform new) (AppVersion new) (CreatedAt old) (UpdatedAt new) (LastSeen new).

Definition replace_at (r x : push_row) : push_row := if decide (row_key x = row_key r) then replaced x r else x.

(** The primary key is the id; an id that was issued does not come back. *)
Definition upsert_row (r : push_row) (d : push_db) : result string push_db :=
  if decide (is_Some (issued d !! ID r)) then Err "UNIQUE constraint failed: push_devices.id"
  else if decide (Exists (λ x, row_key x = row_key r) (devices d))
  then Ok (mkDb (replace_at r <$> devices d) (issued d))
  else Ok (mkDb (devices d ++ [r]) (<[ID r := row_key r]> (issued d))).

(** A DELETE, with the number of rows it removed. *)
Definition delete_rows (P : push_row → Prop) `{!∀ r, Decision (P r)} (d : push_db) : nat * push_db :=
  (length (filter P (devices d)), mkDb (filter (λ r, ¬ P r) (devices d)) (issued d)).

Definition set_fp (id fp : string) (r : push_row) : push_row :=
  if decide (ID r = id) then
    mkRow (ID r) (Namespace r) (UserID r) (DeviceID r) (Provider r) (TokenEncrypted r) (Some fp)
      (Platform r) (AppVersion r) (CreatedAt r) (UpdatedAt r) (LastSeen r)
  else r.

Definition text_or_null (v : option string) : sql_value := from_option VText VNull v.

(** The columns of the listing, by the names the database gives them: an
    expression without an alias is named by its text. *)
Definition device_columns (r : push_row) : list (string * sql_value) :=
  [ ("id", VText (ID r)); ("namespace", VText (Namespace r)); ("user_id", VText (UserID r));
    ("device_id", VText (DeviceID r)); ("provider", VText (Provider r)); ("token_encrypted", VText (TokenEncrypted r));
    ("COALESCE(platform, '')", VText (default EmptyString (Platform r)));
    ("COALESCE(app_version, '')", VText (default EmptyString (AppVersion r)));
    ("created_at", VInt (CreatedAt r)); ("updated_at", VInt (UpdatedAt r));
    ("COALESCE(last_seen, 0)", VInt (default 0%Z (LastSeen r))) ]%string.

(** The scan target. *)
Definition string_field (name : string) : struct_field := mkField name EmptyString KString.
Definition int_field (name : string) : struct_field := mkField name EmptyString KInt.

Definition deviceRow : list struct_field :=
  [ string_field "ID"; string_field "Namespace"; string_field "UserID"; string_field "DeviceID"; string_field "Provider";
    string_field "TokenEncrypted"; string_field "Platform"; string_field "AppVersion";
    int_field "CreatedAt"; int_field "UpdatedAt"; int_field "LastSeen" ].

Definition text_of (v : option field_value) : string := match v with Some (FString s) => s | _ => EmptyString end.
Definition int_of (v : option field_value) : Z := match v with Some (FInt z) => z | _ => 0%Z end.

(** ** The store *)

Section Store.
Context `{UnicodeCase} `{TokenCrypto} (Sscan : string → Z).

Definition tokenFingerprint (token : string) : string := hmac_hex token.

Definition select_id (key : device_key) (d : push_db) : list string :=
  ID <$> filter (λ r, row_key r = key) (devices d).

Definition resolveDeviceID (namespace userID deviceID : string) : prog push_db (result string string) :=
  Query (select_id (namespace, userID, deviceID)) (λ res,
    match res with
    | Err e => Ret (Err ("query device id: " +:+ e))
    | Ok [] => Ret (Err "device not found after upsert")
    | Ok (id :: _) => Ret (Ok id)
    end).

Definition owns_token (namespace tokenFP keepID : string) (r : push_row) : Prop :=
  Namespace r = namespace ∧ token_fp r = Some tokenFP ∧ ID r ≠ keepID.
#[global] Instance owns_token_dec ns fp id r : Decision (owns_token ns fp id r).
Proof. unfold owns_token. apply _. Defined.

Definition evictOtherOwnersOfToken (namespace tokenFP keepID : string) : prog push_db (result string unit) :=
  if String.eqb tokenFP EmptyString then Ret (Ok tt)
  else Update (delete_rows (owns_token namespace tokenFP keepID)) (λ res,
         match res with
         | Err e => Ret (Err ("evict other owners of token: " +:+ e))
         | Ok _ => Ret (Ok tt)
         end).

Definition new_row (id nonce : string) (now : Z) (dev : PushDevice) : push_row :=
  mkRow id (dev_Namespace dev) (dev_UserID dev) (dev_DeviceID dev) (dev_Provider dev) (Encrypt nonce (Token dev))
    (Some (tokenFingerprint (Token dev))) (Some (dev_Platform dev)) (Some (AppVer dev))
    (if (dev_CreatedAt dev =? 0)%Z then now else dev_CreatedAt dev) now (Some (dev_LastSeen dev)).

Definition Upsert (uuid nonce : string) (now : Z) (dev : PushDevice) : prog push_db (result string string) :=
  if String.eqb (dev_Namespace dev) EmptyString || String.eqb (dev_UserID dev) EmptyString
     || String.eqb (dev_DeviceID dev) EmptyString
  then Ret (Err "namespace, user_id, device_id required")
  else if String.eqb (dev_Provider dev) EmptyString then Ret (Err "provider required")
  else if String.eqb (Token dev) EmptyString then Ret (Err "push: empty device token")
  else
    let id := if String.eqb (dev_ID dev) EmptyString then uuid else dev_ID dev in
    Exec (upsert_row (new_row id nonce now dev)) (λ r,
      match r with
      | Err e => Ret (Err ("upsert push device: " +:+ e))
      | Ok _ =>
          do! res := resolveDeviceID (dev_Namespace dev) (dev_UserID dev) (dev_DeviceID dev) in
          match res with
          | Err _ => Ret (Ok id)
          | Ok persistedID =>
              do! _ := evictOtherOwnersOfToken (dev_Namespace dev) (tokenFingerprint (Token dev)) persistedID in
              Ret (Ok persistedID)
          end
      end).

(** The loop of the backfill over the rows it read, with the number of
    updates. *)
Fixpoint backfill_rows (rows : list (string * string)) (updated : nat) : prog push_db nat :=
  match rows with
  | [] => Ret updated
  | (id, enc) :: rows' =>
      match Decrypt enc with
      | None => backfill_rows rows' updated
      | Some token =>
          Exec (λ d, Ok (mkDb (set_fp id (tokenFingerprint token) <$> devices d) (issued d))) (λ r,
            match r with
            | Err _ => backfill_rows rows' updated
            | Ok _ => backfill_rows rows' (S updated)
            end)
      end
  end.

Definition no_fp (r : push_row) : Prop := token_fp r = None ∨ token_fp r = Some EmptyString.
#[global] Instance no_fp_dec r : Decision (no_fp r).
Proof. unfold no_fp. apply _. Defined.

Definition select_no_fp (d : push_db) : list (string * string) :=
  (λ r, (ID r, TokenEncrypted r)) <$> filter no_fp (devices d).

Definition BackfillTokenFP : prog push_db (result string nat) :=
  Query select_no_fp (λ res,
    match res with
    | Err e => Ret (Err ("query rows needing token_fp backfill: " +:+ e))
    | Ok rows => do! n := backfill_rows rows 0 in Ret (Ok n)
    end).

Definition DeleteDevice (namespace id : string) : prog push_db (result string unit) :=
  if String.eqb namespace EmptyString || String.eqb id EmptyString then Ret (Err "namespace and id required")
  else Update (delete_rows (λ r, ID r = id ∧ Namespace r = namespace)) (λ res,
         match res with
         | Err e => Ret (Err ("delete push device: " +:+ e))
         | Ok O => Ret (Err ("push device not found: " +:+ id))
         | Ok (S _) => Ret (Ok tt)
         end).

(** One row of the listing: scanned, then decrypted; without its token the
    device is left out. *)
Definition listed_device (cols : list (string * sql_value)) : option PushDevice :=
  let r := scanCurrentRowIntoStruct Sscan deviceRow cols in
  match Decrypt (text_of (r !! 5)) with
  | None => None
  | Some token =>
      Some (mkDevice (text_of (r !! 0)) (text_of (r !! 1)) (text_of (r !! 2)) (text_of (r !! 3)) (text_of (r !! 4)) token
              (text_of (r !! 6)) (text_of (r !! 7)) (int_of (r !! 8)) (int_of (r !! 9)) (int_of (r !! 10)))
  end.

Definition select_devices (namespace userID : string) (d : push_db) : list (list (string * sql_value)) :=
  device_columns <$> filter (λ r, Namespace r = namespace ∧ UserID r = userID) (devices d).

Definition ListForUser (namespace userID : string) : prog push_db (result string (list PushDevice)) :=
  if String.eqb namespace EmptyString || String.eqb userID EmptyString then Ret (Ok [])
  else Query (select_devices namespace userID) (λ res,
         match res with
         | Err e => Ret (Err ("query push devices: " +:+ e))
         | Ok rows => Ret (Ok (omap listed_device rows))
         end).

End Store.

(** ** The handlers *)

Record RegisterDeviceRequest := mkRegister {
  body_DeviceID : string; body_Provider : string; body_Token : string;
  body_Platform : string; body_AppVersion : string
}.

Record PushDeviceView := mkView {
  view_ID : string; view_DeviceID : string; view_Provider : string; view_Platform : string; view_AppVersion : string;
  view_CreatedAt : Z; view_UpdatedAt : Z; view_LastSeen : Z
}.

(** What is written to the client. *)
Inductive push_reply :=
| writeError (code : Z) (message : string)
| Registered (id deviceID : string)
| DeviceList (views : list PushDeviceView)
| StatusOk.

Definition resolveNamespace (c : context) : string := default EmptyString (ctxNamespace c).

Definition accountIDClaim : string := "account_id".

Definition resolveCallerUserID (c : context) : string :=
  match ctxJWT c with
  | None => EmptyString
  | Some claims =>
      match Custom claims !! accountIDClaim with
      | Some rootID => if String.eqb rootID EmptyString then Sub claims else rootID
      | None => Sub claims
      end
  end.

Definition resolveAdminCaller (c : context) : string :=
  if negb (String.eqb (resolveCallerUserID c) EmptyString) then resolveCallerUserID c
  else if negb (String.eqb (resolveNamespace c) EmptyString) then "apikey:" +:+ resolveNamespace c
  else EmptyString.

Definition validProviders : list string := ["ntfy"; "expo"; "apns"; "apns_voip"]%string.
Definition MaxTokenBytes : nat := 512.

(** [strings.IndexAny(rest, "?#/")] cuts the rest of the path. *)
Fixpoint until_mark (s : string) : string :=
  match s with
  | EmptyString => EmptyString
  | String c s' => if Ascii.eqb c "?" || Ascii.eqb c "#" || Ascii.eqb c "/" then EmptyString else String c (until_mark s')
  end.

Definition extractIDFromPath (urlPath prefix : string) : string :=
  if negb (HasPrefix urlPath prefix) then EmptyString else until_mark (str_drop (str_len prefix) urlPath).

Section Handlers.
Context `{UnicodeCase} `{TokenCrypto} (Sscan : string → Z).

(** The store may be absent ([store]); the body is what the decoder returned. *)
Definition RegisterDeviceHandler (store : bool) (uuid nonce : string) (now now' : Z) (method : string) (c : context)
    (body : option RegisterDeviceRequest) : prog push_db push_reply :=
  if negb store then Ret (writeError 503 "push: device store not configured")
  else if negb (String.eqb method "POST") then Ret (writeError 405 "method not allowed")
  else
    let ns := resolveNamespace c in
    if String.eqb ns EmptyString then Ret (writeError 403 "namespace not resolved")
    else
      let userID := resolveCallerUserID c in
      if String.eqb userID EmptyString then Ret (writeError 401 "user authentication required")
      else match body with
      | None => Ret (writeError 400 "invalid body")
      | Some b =>
          let deviceID := TrimSpace (body_DeviceID b) in
          let provider := TrimSpace (body_Provider b) in
          let token := TrimSpace (body_Token b) in
          if String.eqb deviceID EmptyString then Ret (writeError 400 "device_id required")
          else if negb (bool_decide (provider ∈ validProviders)) then Ret (writeError 400 ("unknown provider: " +:+ provider))
          else if String.eqb token EmptyString then Ret (writeError 400 "token required")
          else if (MaxTokenBytes <? str_len token)%nat then Ret (writeError 400 "token too long")
          else
            do! r := Upsert uuid nonce now'
                       (mkDevice EmptyString ns userID deviceID provider token (body_Platform b) (body_AppVersion b) 0 0 now) in
            match r with
            | Err _ => Ret (writeError 500 "registration failed")
            | Ok id => Ret (Registered id deviceID)
            end
      end.

Definition view_of (d : PushDevice) : PushDeviceView :=
  mkView (dev_ID d) (dev_DeviceID d) (dev_Provider d) (dev_Platform d) (AppVer d)
    (dev_CreatedAt d) (dev_UpdatedAt d) (dev_LastSeen d).

Definition ListDevicesHandler (store : bool) (method : string) (c : context) : prog push_db push_reply :=
  if negb store then Ret (writeError 503 "push: device store not configured")
  else if negb (String.eqb method "GET") then Ret (writeError 405 "method not allowed")
  else
    let ns := resolveNamespace c in
    if String.eqb ns EmptyString then Ret (writeError 403 "namespace not resolved")
    else
      let userID := resolveCallerUserID c in
      if String.eqb userID EmptyString then Ret (writeError 401 "user authentication required")
      else
        do! r := ListForUser Sscan ns userID in
        match r with
        | Err _ => Ret (writeError 500 "list failed")
        | Ok devs => Ret (DeviceList (view_of <$> devs))
        end.

Definition DeleteDeviceHandler (store : bool) (method urlPath : string) (c : context) : prog push_db push_reply :=
  if negb store then Ret (writeError 503 "push: device store not configured")
  else if negb (String.eqb method "DELETE") then Ret (writeError 405 "method not allowed")
  else
    let ns := resolveNamespace c in
    if String.eqb ns EmptyString then Ret (writeError 403 "namespace not resolved")
    else
      let userID := resolveCallerUserID c in
      if String.eqb userID EmptyString then Ret (writeError 401 "user authentication required")
      else
        let id := extractIDFromPath urlPath "/v1/push/devices/" in
        if String.eqb id EmptyString then Ret (writeError 400 "device id required in path")
        else
          do! r := ListForUser Sscan ns userID in
          match r with
          | Err _ => Ret (writeError 500 "lookup failed")
          | Ok devs =>
              if negb (bool_decide (Exists (λ d, dev_ID d = id) devs)) then Ret (writeError 404 "not found")
              else
                do! r := DeleteDevice ns id in
                match r with
                | Err _ => Ret (writeError 500 "delete failed")
                | Ok _ => Ret StatusOk
                end
          end.

End Handlers.

(** ** The listing *)

(** Every column with an expression is lost: whatever the row has, platform,
    version and last contact are listed as empty. *)
Lemma scan_device `{UnicodeCase} Sscan r :
  scanCurrentRowIntoStruct Sscan deviceRow (device_columns r) =
  [FString (ID r); FString (Namespace r); FString (UserID r); FString (DeviceID r); FString (Provider r);
   FString (TokenEncrypted r); FString EmptyString; FString EmptyString; FInt (CreatedAt r); FInt (UpdatedAt r); FInt 0].
Proof. vm_compute. reflexivity. Qed.

Definition device_of (r : push_row) (token : string) : PushDevice :=
  mkDevice (ID r) (Namespace r) (UserID r) (DeviceID r) (Provider r) token EmptyString EmptyString
    (CreatedAt r) (UpdatedAt r) 0.

Lemma listed_device_row `{UnicodeCase} `{TokenCrypto} Sscan r :
  listed_device Sscan (device_columns r) = device_of r <$> Decrypt (TokenEncrypted r).
Proof. unfold listed_device. rewrite scan_device. cbn [lookup list_lookup text_of int_of]. by destruct (Decrypt _). Qed.

Lemma listed_elem `{UnicodeCase} `{TokenCrypto} Sscan ns user d dev :
  dev ∈ omap (listed_device Sscan) (select_devices ns user d) ↔
  ∃ r t, r ∈ devices d ∧ Namespace r = ns ∧ UserID r = user ∧ Decrypt (TokenEncrypted r) = Some t ∧ dev = device_of r t.
Proof.
  unfold select_devices. rewrite list_elem_of_omap. split.
  - intros (cols & Hin & Hl). apply list_elem_of_fmap in Hin as (r & -> & Hr). apply list_elem_of_filter in Hr as [[H1 H2] H3].
    rewrite listed_device_row in Hl. destruct (Decrypt (TokenEncrypted r)) as [t |] eqn:Hd; [| done].
    injection Hl as <-. by exists r, t.
  - intros (r & t & Hr & Hns & Hu & Hd & ->). exists (device_columns r). split.
    + apply list_elem_of_fmap. exists r. split; [done |]. by apply list_elem_of_filter.
    + by rewrite listed_device_row, Hd.
Qed.

(** ** The invariant *)

Record dev_inv (d : push_db) : Prop := {
  inv_ids : NoDup (ID <$> devices d);
  inv_keys : NoDup (row_key <$> devices d);
  inv_issued : ∀ r, r ∈ devices d → issued d !! ID r = Some (row_key r)
}.

Definition more_issued (d d' : push_db) : Prop := issued d ⊆ issued d'.
#[global] Instance more_issued_pre : PreOrder more_issued.
Proof. unfold more_issued. split; [intros d; reflexivity | intros d1 d2 d3; apply transitivity]. Qed.

Lemma same_id d r x : dev_inv d → r ∈ devices d → x ∈ devices d → ID x = ID r → x = r.
Proof. intros Hinv Hr Hx E. by eapply (NoDup_fmap_elem ID); [apply inv_ids | ..]. Qed.

Lemma same_key d r x : dev_inv d → r ∈ devices d → x ∈ devices d → row_key x = row_key r → x = r.
Proof. intros Hinv Hr Hx E. by eapply (NoDup_fmap_elem row_key); [apply inv_keys | ..]. Qed.

(** A change of rows that keeps ids and keys. *)
Lemma fmap_inv f d :
  (∀ r, ID (f r) = ID r ∧ row_key (f r) = row_key r) → dev_inv d → dev_inv (mkDb (f <$> devices d) (issued d)).
Proof.
  intros Hf [H1 H2 H3]. split; cbn.
  - rewrite <- list_fmap_compose. erewrite list_fmap_ext; [exact H1 |]. intros i r _. apply Hf.
  - rewrite <- list_fmap_compose. erewrite list_fmap_ext; [exact H2 |]. intros i r _. apply Hf.
  - intros r Hr. apply list_elem_of_fmap in Hr as (x & -> & Hx). destruct (Hf x) as [-> ->]. auto.
Qed.

Lemma delete_devices_inv P `{!∀ r, Decision (P r)} d : dev_inv d → dev_inv (delete_rows P d).2.
Proof.
  intros [H1 H2 H3].
  assert (sublist (filter (λ r, ¬ P r) (devices d)) (devices d)) as Hs by apply sublist_filter.
  split; cbn.
  - eapply sublist_NoDup; [exact H1 |]. by apply fmap_sublist.
  - eapply sublist_NoDup; [exact H2 |]. by apply fmap_sublist.
  - intros r Hr. apply H3. by apply list_elem_of_filter in Hr as [_ Hr].
Qed.

Lemma replace_at_same r x : ID (replace_at r x) = ID x ∧ row_key (replace_at r x) = row_key x.
Proof. unfold replace_at. by case_decide. Qed.

Lemma set_fp_same id fp x : ID (set_fp id fp x) = ID x ∧ row_key (set_fp id fp x) = row_key x.
Proof. unfold set_fp. by case_decide. Qed.

Lemma upsert_inv r d d' : dev_inv d → upsert_row r d = Ok d' → dev_inv d' ∧ more_issued d d'.
Proof.
  intros Hinv. unfold upsert_row. case_decide as Hi; [done |]. case_decide as He; intros [= <-].
  { split; [| by unfold more_issued]. apply fmap_inv; [| done]. intros x. apply replace_at_same. }
  apply eq_None_not_Some in Hi. split; [| by apply insert_subseteq].
  destruct Hinv as [H1 H2 H3].
  assert (∀ x, x ∈ devices d → row_key x ≠ row_key r) as Hfresh by (intros x Hx E; apply He, Exists_exists; eauto).
  split; cbn.
  - rewrite fmap_app. cbn. apply NoDup_app. split; [done |]. split; [| apply NoDup_singleton].
    intros id Hid E%list_elem_of_singleton. subst id. apply list_elem_of_fmap in Hid as (x & Hx & Hin).
    specialize (H3 _ Hin). congruence.
  - rewrite fmap_app. cbn. apply NoDup_app. split; [done |]. split; [| apply NoDup_singleton].
    intros k Hk E%list_elem_of_singleton. subst k. apply list_elem_of_fmap in Hk as (x & Hx & Hin).
    by eapply Hfresh.
  - intros x [Hx | ->%list_elem_of_singleton]%elem_of_app; [| apply lookup_insert_eq].
    rewrite lookup_insert_ne; [auto |]. intros E. specialize (H3 _ Hx). congruence.
Qed.

(** ** Requests on all gateways *)

Inductive push_op :=
| OpRegister (uuid nonce : string) (now now' : Z) (method : string) (c : context) (body : option RegisterDeviceRequest)
| OpList (method : string) (c : context)
| OpDelete (method urlPath : string) (c : context)
| OpBackfill.

Section Requests.
Context `{UnicodeCase} `{TokenCrypto} (Sscan : string → Z).

Definition push_prog (op : push_op) : prog push_db push_reply :=
  match op with
  | OpRegister uuid nonce now now' method c body => RegisterDeviceHandler true uuid nonce now now' method c body
  | OpList method c => ListDevicesHandler Sscan true method c
  | OpDelete method urlPath c => DeleteDeviceHandler Sscan true method urlPath c
  | OpBackfill => do! _ := BackfillTokenFP in Ret StatusOk
  end.

(** A request that has nothing to do with the device of a row: another device
    and, in the same namespace, another token; a delete of another user. *)
Definition spares (r0 : push_row) (op : push_op) : Prop :=
  match op with
  | OpRegister _ _ _ _ _ c (Some b) =>
      (resolveNamespace c, resolveCallerUserID c, TrimSpace (body_DeviceID b)) ≠ row_key r0 ∧
      (resolveNamespace c = Namespace r0 → token_fp r0 ≠ Some (tokenFingerprint (TrimSpace (body_Token b))))
  | OpDelete _ _ c => (resolveNamespace c, resolveCallerUserID c) ≠ (Namespace r0, UserID r0)
  | _ => True
  end.

Section Row.
Context (r0 : push_row) (Hfp0 : ¬ no_fp r0).

Definition row_kept (d : push_db) : Prop := dev_inv d ∧ r0 ∈ devices d.

Abbreviation row_keeps := (keeps row_kept more_issued) (only parsing).

(** A program that only returns. *)
Ltac returns := let d := fresh in intros d ? ?; exact I.

Definition anything {A : Type} (_ : A) (_ : push_db) : Prop := True.

Lemma upsert_kept r d d' :
  row_key r ≠ row_key r0 → row_kept d → upsert_row r d = Ok d' → row_kept d' ∧ more_issued d d'.
Proof.
  intros Hne [Hinv Hr] Hu. destruct (upsert_inv _ _ _ Hinv Hu) as [Hinv' Hm]. split; [| done]. split; [done |].
  revert Hu. unfold upsert_row. case_decide; [done |]. case_decide; intros [= <-]; cbn.
  - apply list_elem_of_fmap. exists r0. split; [| done]. unfold replace_at. by rewrite decide_False by congruence.
  - apply elem_of_app. by left.
Qed.

Lemma delete_kept P `{!∀ r, Decision (P r)} d :
  ¬ P r0 → row_kept d → row_kept (delete_rows P d).2 ∧ more_issued d (delete_rows P d).2.
Proof.
  intros HP [Hinv Hr]. split; [| by unfold more_issued]. split; [by apply delete_devices_inv |]. by apply list_elem_of_filter.
Qed.

Lemma set_fp_kept id fp d :
  id ≠ ID r0 → row_kept d →
  row_kept (mkDb (set_fp id fp <$> devices d) (issued d)) ∧ more_issued d (mkDb (set_fp id fp <$> devices d) (issued d)).
Proof.
  intros Hne [Hinv Hr]. split; [| by unfold more_issued]. split.
  - apply fmap_inv; [| done]. intros x. apply set_fp_same.
  - cbn. apply list_elem_of_fmap. exists r0. split; [| done]. unfold set_fp. by rewrite decide_False by congruence.
Qed.

Lemma Upsert_keeps uuid nonce now dev K :
  (dev_Namespace dev, dev_UserID dev, dev_DeviceID dev) ≠ row_key r0 →
  (dev_Namespace dev = Namespace r0 → token_fp r0 ≠ Some (tokenFingerprint (Token dev))) →
  row_keeps anything K (Upsert uuid nonce now dev).
Proof.
  intros Hkey Htok. unfold Upsert. do 3 (case_match; [returns |]).
  cbn [keeps]. split; [| split; [| intros e; returns]].
  { intros d d' Hd _ Hu. eapply upsert_kept; [| exact Hd | exact Hu]. exact Hkey. }
  unfold resolveDeviceID. cbn [prog_bind keeps]. split; [| intros e; returns].
  intros d0 Hd0. destruct (select_id _ d0) as [| pid rest]; cbn [prog_bind]; [returns|].
  unfold evictOtherOwnersOfToken. destruct (String.eqb (tokenFingerprint (Token dev)) EmptyString); cbn [prog_bind keeps]; [returns|].
  split; [| split; [intros b; returns | intros e; returns]].
  intros d Hd _. apply delete_kept; [| done]. intros (Hns & Hfp & _). by apply Htok.
Qed.

Lemma backfill_keeps rows n K :
  Forall (λ x, x.1 ≠ ID r0) rows → row_keeps anything K (backfill_rows rows n).
Proof.
  revert n K. induction rows as [| [id enc] rows IH]; intros n K Hall; [returns|].
  apply Forall_cons in Hall as [Hid Hall]. cbn [backfill_rows fst] in *.
  destruct (Decrypt enc) as [token |]; [| by apply IH]. cbn [keeps]. split; [| split].
  - intros d d' Hd _ [= <-]. by apply set_fp_kept.
  - by apply IH.
  - intros e. by apply IH.
Qed.

Lemma Backfill_keeps K : row_keeps anything K BackfillTokenFP.
Proof.
  unfold BackfillTokenFP. cbn [keeps]. split; [| intros e; returns].
  intros d0 [Hinv Hr]. eapply keeps_bind; [apply backfill_keeps | intros n; returns].
  apply Forall_forall. intros [id enc] Hin. apply list_elem_of_fmap in Hin as (x & [= -> ->] & Hx).
  apply list_elem_of_filter in Hx as [Hno Hx]. cbn. intros E. apply Hfp0.
  by rewrite <- (same_id d0 r0 x).
Qed.

Lemma Delete_keeps store method urlPath c K :
  (resolveNamespace c, resolveCallerUserID c) ≠ (Namespace r0, UserID r0) →
  row_keeps anything K (DeleteDeviceHandler Sscan store method urlPath c).
Proof.
  intros Hown. unfold DeleteDeviceHandler. do 2 (case_match; [returns |]).
  destruct (String.eqb (resolveNamespace c) EmptyString) eqn:E1; [returns |].
  destruct (String.eqb (resolveCallerUserID c) EmptyString) eqn:E2; [returns |].
  destruct (String.eqb (extractIDFromPath urlPath "/v1/push/devices/") EmptyString) eqn:E3; [returns |].
  unfold ListForUser. rewrite E1, E2. cbn [orb prog_bind keeps].
  split; [| intros e; returns]. intros d0 Hd0. case_match eqn:Hex; [returns|].
  apply negb_false_iff, bool_decide_eq_true, Exists_exists in Hex as (dev & Hdev & Hid).
  apply listed_elem in Hdev as (x & t & Hx & Hns & Hu & _ & ->). cbn in Hid.
  unfold DeleteDevice. rewrite E1, E3. cbn [orb prog_bind keeps].
  split; [| split; [intros [| b]; returns | intros e; returns]].
  intros d Hd [_ Hle]. apply delete_kept; [| done]. intros [E _]. apply Hown.
  destruct Hd0 as [Hinv0 _], Hd as [Hinv Hr]. pose proof (inv_issued _ Hinv0 _ Hx) as Hix. pose proof (inv_issued _ Hinv _ Hr) as Hir.
  assert (row_key x = row_key r0) as [= Ea Eb _]; [| by rewrite <- Hns, <- Hu, Ea, Eb].
  apply (lookup_weaken _ _ _ _ Hix) in Hle. rewrite Hid, <- E in Hle. congruence.
Qed.

Lemma request_keeps op K : spares r0 op → row_keeps anything K (push_prog op).
Proof.
  destruct op as [uuid nonce now now' method c body | method c | method urlPath c |]; cbn [spares push_prog].
  - intros Hs. unfold RegisterDeviceHandler. repeat (case_match; try returns).
    destruct Hs as [Hkey Htok]. eapply keeps_bind; [by apply Upsert_keeps |]. intros [id | e]; returns.
  - intros _. unfold ListDevicesHandler. repeat (case_match; try returns).
    eapply (keeps_bind _ _ anything); [| intros [devs | e]; returns].
    unfold ListForUser. case_match; [returns|]. cbn [keeps]. split; [intros d0 _; returns | intros e; returns].
  - intros Hs. by apply Delete_keeps.
  - intros _. eapply keeps_bind; [apply Backfill_keeps | intros n; returns].
Qed.

End Row.
End Requests.

(** ** A registration alone *)

Section Registration.
Context `{UnicodeCase} `{TokenCrypto}.

Definition dev_key (dev : PushDevice) : device_key := (dev_Namespace dev, dev_UserID dev, dev_DeviceID dev).

Definition complete (dev : PushDevice) : Prop :=
  dev_Namespace dev ≠ EmptyString ∧ dev_UserID dev ≠ EmptyString ∧ dev_DeviceID dev ≠ EmptyString ∧
  dev_Provider dev ≠ EmptyString ∧ Token dev ≠ EmptyString ∧ dev_ID dev = EmptyString.

(** The row after the upsert: the old one with the new token, or a new one. *)
Definition upserted (id nonce : string) (now : Z) (dev : PushDevice) (d : push_db) : push_row :=
  let nr := new_row id nonce now dev in
  match list_find (λ x, row_key x = dev_key dev) (devices d) with
  | Some (_, x) => replaced x nr
  | None => nr
  end.

Lemma upsert_elem id nonce now dev d :
  dev_inv d → issued d !! id = None →
  ∃ d1, upsert_row (new_row id nonce now dev) d = Ok d1 ∧
    ∀ x, x ∈ devices d1 ↔ x = upserted id nonce now dev d ∨ (x ∈ devices d ∧ row_key x ≠ dev_key dev).
Proof.
  intros Hinv Hid. unfold upsert_row, upserted. rewrite decide_False by (cbn; rewrite Hid; by intros []).
  change (row_key (new_row id nonce now dev)) with (dev_key dev).
  destruct (list_find (λ x, row_key x = dev_key dev) (devices d)) as [[i x0] |] eqn:Hf.
  - apply list_find_Some in Hf as (Hi & Hk & _). apply list_elem_of_lookup_2 in Hi.
    rewrite decide_True by (apply Exists_exists; eauto). eexists. split; [done |]. intros x. cbn [devices].
    rewrite list_elem_of_fmap. split.
    + intros (y & -> & Hy). unfold replace_at. change (row_key (new_row id nonce now dev)) with (dev_key dev).
      case_decide as E; [| by right]. left. by rewrite (same_key d x0 y) by congruence.
    + intros [-> | [Hx Hne]].
      * exists x0. split; [| done]. unfold replace_at. by rewrite decide_True by done.
      * exists x. split; [| done]. unfold replace_at. by rewrite decide_False by done.
  - apply list_find_None in Hf. rewrite Forall_forall in Hf.
    rewrite decide_False by (intros (x & Hx & E)%Exists_exists; by eapply Hf). eexists. split; [done |].
    intros x. cbn [devices]. rewrite elem_of_app, list_elem_of_singleton. split; [intros [Hx | ->] | intros [-> | [Hx _]]]; auto.
Qed.

Lemma upserted_key id nonce now dev d : row_key (upserted id nonce now dev d) = dev_key dev.
Proof.
  unfold upserted. destruct (list_find _ _) as [[i x] |] eqn:Hf; [| done]. by apply list_find_Some in Hf as (_ & Hk & _).
Qed.

Lemma upserted_token id nonce now dev d :
  TokenEncrypted (upserted id nonce now dev d) = Encrypt nonce (Token dev) ∧
  token_fp (upserted id nonce now dev d) = Some (tokenFingerprint (Token dev)).
Proof. unfold upserted. by destruct (list_find _ _) as [[i x] |]. Qed.

Lemma select_id_of d r : dev_inv d → r ∈ devices d → ∃ rest, select_id (row_key r) d = ID r :: rest.
Proof.
  intros Hinv Hr. unfold select_id.
  destruct (filter (λ x, row_key x = row_key r) (devices d)) as [| y l] eqn:Hf.
  - assert (r ∈ filter (λ x, row_key x = row_key r) (devices d)) as Hin by (by apply list_elem_of_filter).
    rewrite Hf in Hin. by apply elem_of_nil in Hin.
  - assert (y ∈ filter (λ x, row_key x = row_key r) (devices d)) as Hin by (rewrite Hf; by left).
    apply list_elem_of_filter in Hin as [Hk Hy]. rewrite (same_key d r y) by done. by exists (ID <$> l).
Qed.

Lemma run_Upsert uuid nonce now dev d :
  complete dev → dev_inv d → issued d !! uuid = None →
  let r := upserted uuid nonce now dev d in
  ∃ d', run (Upsert uuid nonce now dev) d = (Ok (ID r), d') ∧ dev_inv d' ∧
    ∀ x, x ∈ devices d' ↔ x = r ∨
      (x ∈ devices d ∧ row_key x ≠ dev_key dev ∧
       ¬ (Namespace x = dev_Namespace dev ∧ token_fp x = Some (tokenFingerprint (Token dev)))).
Proof.
  intros (H1 & H2 & H3 & H4 & H5 & H6) Hinv Hid r. unfold Upsert.
  apply String.eqb_neq in H1, H2, H3, H4, H5. apply String.eqb_eq in H6. rewrite H1, H2, H3, H4, H5, H6. cbn [orb run].
  destruct (upsert_elem uuid nonce now dev d Hinv Hid) as (d1 & Hu & Hin). rewrite Hu. fold r in Hin.
  destruct (upsert_inv _ _ _ Hinv Hu) as [Hinv1 _].
  assert (r ∈ devices d1) as Hr by (apply Hin; by left).
  assert (row_key r = dev_key dev) as Hkey by apply upserted_key.
  destruct (select_id_of d1 r Hinv1 Hr) as [rest Hsel]. rewrite Hkey in Hsel. unfold dev_key in Hsel.
  unfold resolveDeviceID. cbn [prog_bind run]. rewrite Hsel. unfold evictOtherOwnersOfToken.
  rewrite (proj2 (String.eqb_neq _ _) (hmac_hex_nonempty _)). cbn [prog_bind run].
  eexists. split; [done |]. split; [by apply delete_devices_inv |].
  intros x. cbn [delete_rows snd devices]. rewrite list_elem_of_filter, Hin. unfold owns_token. split.
  - intros [Hn [-> | [Hx Hne]]]; [by left |]. right. split; [done |]. split; [done |]. intros [Hns Hfp]. apply Hn.
    split; [done |]. split; [done |]. intros E. apply Hne. rewrite <- Hkey. f_equal.
    apply (same_id d1 r x); [done | done | apply Hin; by right | done].
  - intros [-> | (Hx & Hne & Hn)]; [split; [tauto | by left] |]. split; [tauto | by right].
Qed.

End Registration.

(** ** Theorems *)

(** A registration takes over its token.  Alone, the registration of a
    device with an unused id succeeds and returns the id of its row, the one it
    had if it was registered before.  Afterwards the user's devices list this
    device with this token, the table has one row per device and id, no other
    row of the namespace has the token when the fingerprints were right (and
    they stay right), and all rows of other devices with another fingerprint or
    in another namespace are as they were. *)
Theorem register_exclusive `{UnicodeCase} `{TokenCrypto} Sscan uuid nonce now dev d :
  complete dev → dev_inv d → issued d !! uuid = None →
  let fps_right (d : push_db) := ∀ x, x ∈ devices d → ∃ t, Decrypt (TokenEncrypted x) = Some t ∧ token_fp x = Some (tokenFingerprint t) in
  ∃ id d', run (Upsert uuid nonce now dev) d = (Ok id, d') ∧
    (∀ x, x ∈ devices d → row_key x = dev_key dev → id = ID x) ∧
    dev_inv d' ∧
    (∃ listed, run (ListForUser Sscan (dev_Namespace dev) (dev_UserID dev)) d' = (Ok listed, d') ∧
       ∃ v, v ∈ listed ∧ dev_ID v = id ∧ dev_DeviceID v = dev_DeviceID dev ∧ Token v = Token dev) ∧
    (fps_right d → fps_right d' ∧
       ∀ x, x ∈ devices d' → Namespace x = dev_Namespace dev → Decrypt (TokenEncrypted x) = Some (Token dev) → ID x = id) ∧
    (∀ x, row_key x ≠ dev_key dev → (Namespace x = dev_Namespace dev → token_fp x ≠ Some (tokenFingerprint (Token dev))) →
       (x ∈ devices d' ↔ x ∈ devices d)).
Proof.
  intros Hc Hinv Hid fps_right. destruct (run_Upsert uuid nonce now dev d Hc Hinv Hid) as (d' & Hrun & Hinv' & Hin).
  set (r := upserted uuid nonce now dev d) in *.
  pose proof (upserted_key uuid nonce now dev d) as Hkey. fold r in Hkey.
  destruct (upserted_token uuid nonce now dev d) as [Htok Hfp]. fold r in Htok, Hfp.
  exists (ID r), d'. split; [done |]. split.
  { intros x Hx Hk. unfold r, upserted. destruct (list_find _ _) as [[i y] |] eqn:Hf.
    - apply list_find_Some in Hf as (Hi & Hy & _). apply list_elem_of_lookup_2 in Hi. by rewrite (same_key d x y) by congruence.
    - apply list_find_None in Hf. rewrite Forall_forall in Hf. by destruct (Hf _ Hx). }
  split; [done |]. split; [| split].
  - destruct Hc as (H1 & H2 & _). unfold ListForUser. apply String.eqb_neq in H1, H2. rewrite H1, H2. cbn [orb run].
    eexists. split; [done |]. exists (device_of r (Token dev)). injection Hkey as Hns Hu Hdv. split; [| done].
    apply listed_elem. exists r, (Token dev). split; [apply Hin; by left |]. by rewrite Htok, Decrypt_Encrypt.
  - intros Hfps. split.
    + intros x [-> | (Hx & _)]%Hin; [| auto]. exists (Token dev). by rewrite Htok, Decrypt_Encrypt.
    + intros x [-> | (Hx & _ & Hn)]%Hin Hns Hd; [done |]. destruct (Hfps _ Hx) as (t & Ht & Hfx). destruct Hn. split; [done |].
      congruence.
  - intros x Hk Hn. rewrite Hin. split; [intros [-> | (Hx & _)]; done |]. intros Hx. right. naive_solver.
Qed.

(** Devices are isolated.  Whatever requests all gateways serve at once,
    with failing, lagging and unacknowledged statements: the row of a device
    with a fingerprint stays in the table as it is, unless its user deletes a
    device, the device registers again, or its token is registered for another
    device of the namespace; and there is always one row per id and per
    device. *)
Theorem device_isolated `{UnicodeCase} `{TokenCrypto} Sscan d0 ops s r0 :
  dev_inv d0 → r0 ∈ devices d0 → ¬ no_fp r0 → Forall (spares r0) ops →
  rtc sys_step (mkSys d0 [] ((λ op, (op, push_prog Sscan op)) <$> ops)) s →
  dev_inv (current s) ∧ r0 ∈ devices (current s).
Proof.
  intros Hinv Hr Hfp Hops Hrtc.
  apply (sys_guarantee (row_kept r0) more_issued (λ _, anything)) in Hrtc as [Hkept _]; [done | done |].
  apply Forall_fmap. eapply Forall_impl; [exact Hops |]. intros op Hop. cbn. by apply request_keeps.
Qed.

(** ** Concrete runs *)

(** A cipher that only marks, and a fingerprint that is the token. *)
Lemma mark_open nonce t :
  (λ c, match IndexByte c "." with Some i => Some (str_drop (S i) c) | None => None end)
    ((λ _ t, String "." t) (nonce : string) t) = Some t.
Proof. done. Qed.

Lemma mark_nonempty t : String "#" t ≠ EmptyString.
Proof. done. Qed.

#[export] Instance mark_crypto : TokenCrypto :=
  {| seal := λ _ t, String "." t;
     open := λ c, match IndexByte c "." with Some i => Some (str_drop (S i) c) | None => None end;
     hmac_hex := String "#";
     open_seal := mark_open;
     hmac_hex_nonempty := mark_nonempty |}.

Definition phone (user token : string) : PushDevice :=
  mkDevice EmptyString "app" user "phone" "apns" token "ios" "1.0" 0 0 7.

Definition empty_db : push_db := mkDb [] ∅.

Definition after (p : prog push_db (result string string)) (d : push_db) : push_db := (run p d).2.

(** Anna's phone, then Ben signs in on it. *)
Definition anna : push_db := after (Upsert "id1" "n" 100 (phone "anna" "T")) empty_db.
Definition ben : push_db := after (Upsert "id2" "n" 200 (phone "ben" "T")) anna.

Lemma anna_inv : dev_inv anna.
Proof.
  split; [apply (bool_decide_unpack _); by vm_compute.. |].
  assert (devices anna = [mkRow "id1" "app" "anna" "phone" "apns" "enc:.T" (Some "#T"%string) (Some "ios"%string) (Some "1.0"%string)
            100 100 (Some 7%Z)]) as E by (by vm_compute).
  rewrite E. intros r ->%list_elem_of_singleton. by vm_compute.
Qed.

Lemma register_exclusive_witness :
  ∃ d', run (Upsert "id2" "n" 200 (phone "ben" "T")) anna = (Ok "id2"%string, d') ∧ dev_inv d' ∧
  (length (devices d') = 1).
Proof.
  assert (complete (phone "ben" "T")) as Hc by done.
  destruct (register_exclusive (λ _, 0%Z) "id2" "n" 200 (phone "ben" "T") anna Hc anna_inv ltac:(by vm_compute))
    as (id & d' & Hrun & _ & Hinv & _).
  assert (run (Upsert "id2" "n" 200 (phone "ben" "T")) anna = (Ok "id2"%string, ben)) as E by (by vm_compute).
  rewrite E in Hrun. injection Hrun as <- <-. exists ben. split; [done |]. split; [done |]. by vm_compute.
Defined.

Definition as_user (user : string) : context :=
  with_namespace "app" (with_jwt (mkClaims EmptyString user EmptyString 0 0 0 "app" ∅) emptyContext).

Definition anna_row : push_row :=
  mkRow "id1" "app" "anna" "phone" "apns" "enc:.T" (Some "#T"%string) (Some "ios"%string) (Some "1.0"%string) 100 100 (Some 7%Z).

(** Ben registers another phone while he tries to delete Anna's. *)
Definition ben_registers : push_op :=
  OpRegister "id2" "n" 200 200 "POST" (as_user "ben") (Some (mkRegister "phone" "apns" "U" "ios" "1.0")).
Definition ben_deletes : push_op := OpDelete "DELETE" "/v1/push/devices/id1" (as_user "ben").

Lemma device_isolated_witness :
  ∃ s, rtc sys_step (mkSys anna [] ((λ op, (op, push_prog (λ _, 0%Z) op)) <$> [ben_deletes; ben_registers])) s ∧
    length (devices (current s)) = 2 ∧ anna_row ∈ devices (current s).
Proof.
  destruct (sys_overtake ben_deletes ben_registers (push_prog (λ _, 0%Z) ben_deletes)
              (push_prog (λ _, 0%Z) ben_registers) 1 anna) as (s & Hr & _ & Hc).
  exists s. split; [exact Hr |]. split; [rewrite Hc; by vm_compute |].
  refine (proj2 (device_isolated (λ _, 0%Z) anna [ben_deletes; ben_registers] s anna_row anna_inv _ _ _ Hr)).
  - assert (devices anna = [anna_row]) as -> by (by vm_compute). by left.
  - by intros [E | E].
  - repeat constructor; cbn; by intros E.
Defined.

(** The listing has the device, and never its platform, version or last
    contact. *)
Theorem listing_incomplete :
  run (ListForUser (λ _, 0%Z) "app" "ben") ben
  = (Ok [mkDevice "id2" "app" "ben" "phone" "apns" "T" EmptyString EmptyString 200 200 0], ben) ∧
  ∀ r t, dev_Platform (device_of r t) = EmptyString ∧ AppVer (device_of r t) = EmptyString ∧ dev_LastSeen (device_of r t) = 0%Z.
Proof. by vm_compute. Qed.

(** Two users register one token at once: each evicts the other's row. *)
Theorem registrations_cross :
  let p1 := Upsert "id1" "n" 100 (phone "anna" "T") in
  let p2 := Upsert "id2" "n" 100 (phone "ben" "T") in
  let s1 := advance 2 p1 empty_db in
  let s2 := advance 2 p2 s1.2 in
  let s3 := advance 2 s1.1 s2.2 in
  let s4 := advance 2 s2.1 s3.2 in
  s3.1 = Ret (Ok "id1"%string) ∧ s4.1 = Ret (Ok "id2"%string) ∧ devices s4.2 = [].
Proof. by vm_compute. Qed.

(** A row without a fingerprint. *)
Definition old_row : push_row :=
  mkRow "id0" "app" "anna" "phone" "apns" "enc:.A" None None None 1 1 None.
Definition old_db : push_db := mkDb [old_row] {[ "id0"%string := row_key old_row ]}.

(** The backfill writes by id what it computed from an earlier reading: when
    the device registers a new token in between, its row gets the fingerprint
    of the old one, and a later registration of the new token by another user
    does not find it. *)
Theorem backfill_overwrites :
  let s1 := advance 1 BackfillTokenFP old_db in
  let d2 := after (Upsert "id1" "n" 100 (phone "anna" "B")) s1.2 in
  let d3 := (run s1.1 d2).2 in
  let d4 := after (Upsert "id2" "n" 200 (phone "ben" "B")) d3 in
  token_fp <$> devices d2 = [Some "#B"%string] ∧ token_fp <$> devices d3 = [Some "#A"%string] ∧
  (λ r, (UserID r, Decrypt (TokenEncrypted r))) <$> devices d4
    = [("anna"%string, Some "B"%string); ("ben"%string, Some "B"%string)].
Proof. by vm_compute. Qed.

(** The owner of a row that cannot be decrypted cannot delete it. *)
Theorem undecryptable_stays :
  let d := mkDb [mkRow "id0" "app" "ben" "phone" "apns" "enc:broken" None None None 1 1 None] {[ "id0"%string := ("app", "ben", "phone")%string ]} in
  run (DeleteDeviceHandler (λ _, 0%Z) true "DELETE" "/v1/push/devices/id0" (as_user "ben")) d = (writeError 404 "not found", d).
Proof. by vm_compute. Qed.
