(* ===== verification/TtlCache.v ===== *)
(** * Caches with a time to live and a bound

    The managers of push dispatchers ([core/pkg/push/manager.go]), of provider
    credentials ([core/pkg/push/credentials/manager.go]) and of rate limiters
    ([core/pkg/ratelimit/manager.go]) keep what they built from the database in
    the same structure: a map from keys to elements of a list in the order of
    use, where an element older than [ttl] is dropped when it is found and the
    end of the list is dropped when there are more than [cap].

    A lookup is two critical sections with the building in between, so calls,
    builds and invalidations interleave ([cache_step]).  [source k t v] says
    that building for [k] from what was read at time [t] gave [v]. *)

From Stdlib Require Import ZArith Lia.
From stdpp Require Import base tactics numbers list gmap.
From S2P Require Import Prelude.

(** Filtering out what is not there. *)
Lemma filter_absent {A B : Type} `{EqDecision B} (f : A → B) b (l : list A) : b ∉ f <$> l → filter (λ x, f x ≠ b) l = l.
Proof.
  induction l as [| x l IH]; intros Hni; [done |]. cbn [fmap list_fmap] in Hni. apply not_elem_of_cons in Hni as [Hne Hni].
  rewrite filter_cons, decide_True by congruence. by rewrite IH.
Qed.

Section Cache.
Context {K V : Type} `{Countable K}.

(** An element of the list: a pointer, its key and value and the time at which
    it was inserted.  [readAt] is not in the code: when the value was read. *)
Record cacheEntry := mkEntry { elem : nat; ekey : K; evalue : V; readAt : time; builtAt : time }.

Record lru_cache := mkCache {
  cache : gmap K nat;
  lru : list cacheEntry;  (* the front first *)
  next_elem : nat
}.

Definition empty_cache : lru_cache := mkCache ∅ [] 0.

Definition find_elem (h : nat) (c : lru_cache) : option cacheEntry :=
  snd <$> list_find (λ e, elem e = h) (lru c).

(** [lru.Remove(el); delete(cache, key)] *)
Definition remove_elem (h : nat) (k : K) (c : lru_cache) : lru_cache :=
  mkCache (delete k (cache c)) (filter (λ e, elem e ≠ h) (lru c)) (next_elem c).

Definition move_to_front (e : cacheEntry) (c : lru_cache) : lru_cache :=
  mkCache (cache c) (e :: filter (λ e', elem e' ≠ elem e) (lru c)) (next_elem c).

Definition push_front (k : K) (v : V) (read now : time) (c : lru_cache) : lru_cache :=
  mkCache (<[k := next_elem c]> (cache c)) (mkEntry (next_elem c) k v read now :: lru c) (S (next_elem c)).

(** The first critical section: an entry that is fresh is used, an older one is
    dropped. *)
Definition lookup_fresh (ttl now : time) (k : K) (c : lru_cache) : option cacheEntry * lru_cache :=
  match cache c !! k with
  | None => (None, c)
  | Some h =>
      match find_elem h c with
      | None => (None, c)
      | Some e => if (now - builtAt e <? ttl)%Z then (Some e, move_to_front e c) else (None, remove_elem h k c)
      end
  end.

Definition drop_back (c : lru_cache) : lru_cache :=
  match last (lru c) with
  | Some e => remove_elem (elem e) (ekey e) c
  | None => c
  end.

(** The dispatchers: room is made before the insertion. *)
Definition insert_making_room (cap : nat) (k : K) (v : V) (read now : time) (c : lru_cache) : lru_cache :=
  push_front k v read now (if (cap <=? length (lru c))%nat then drop_back c else c).

(** Credentials and limiters: the end is dropped after it. *)
Fixpoint shrink (fuel cap : nat) (c : lru_cache) : lru_cache :=
  match fuel with
  | O => c
  | S fuel' => if (length (lru c) <=? cap)%nat then c else shrink fuel' cap (drop_back c)
  end.

Definition insert_shrinking (cap : nat) (k : K) (v : V) (read now : time) (c : lru_cache) : lru_cache :=
  let c := push_front k v read now c in shrink (length (lru c)) cap c.

Definition Invalidate (k : K) (c : lru_cache) : lru_cache :=
  match cache c !! k with
  | Some h => remove_elem h k c
  | None => c
  end.

(** The second critical section, with either insertion. *)
Section Insert.
Context (insert : K → V → time → time → lru_cache → lru_cache).

Definition insert_checked (ttl now : time) (k : K) (v : V) (read : time) (c : lru_cache) : (V * time) * lru_cache :=
  match lookup_fresh ttl now k c with
  | (Some e, c') => ((evalue e, readAt e), c')
  | (None, c') => ((v, read), insert k v read now c')
  end.

End Insert.

(** ** The invariant *)

Record cache_wf (c : lru_cache) : Prop := {
  wf_keys : NoDup (ekey <$> lru c);
  wf_elems : NoDup (elem <$> lru c);
  wf_next : ∀ e, e ∈ lru c → elem e < next_elem c;
  wf_index : ∀ k h, cache c !! k = Some h ↔ ∃ e, e ∈ lru c ∧ ekey e = k ∧ elem e = h
}.

Lemma empty_wf : cache_wf empty_cache.
Proof.
  split; [constructor | constructor | |].
  - intros e He. by apply elem_of_nil in He.
  - intros k h. split; [done |]. intros (e & He & _). by apply elem_of_nil in He.
Qed.

Lemma wf_lookup c e : cache_wf c → e ∈ lru c → cache c !! ekey e = Some (elem e).
Proof. intros Hwf He. apply wf_index; eauto. Qed.

Lemma find_elem_Some c h e : find_elem h c = Some e → e ∈ lru c ∧ elem e = h.
Proof.
  unfold find_elem. destruct (list_find _ _) as [[i x] |] eqn:Hf; [| done]. intros [= <-].
  apply list_find_Some in Hf as (Hi & Hx & _). split; [by eapply list_elem_of_lookup_2 | done].
Qed.

(** Fewer entries. *)
Lemma remove_wf c h k : cache_wf c → cache c !! k = Some h → cache_wf (remove_elem h k c).
Proof.
  intros Hwf Hk. destruct (proj1 (wf_index _ Hwf k h) Hk) as (e0 & He0 & <- & <-).
  assert (sublist (filter (λ e, elem e ≠ elem e0) (lru c)) (lru c)) as Hs by apply sublist_filter.
  split; cbn.
  - eapply sublist_NoDup; [apply (wf_keys _ Hwf) | by apply fmap_sublist].
  - eapply sublist_NoDup; [apply (wf_elems _ Hwf) | by apply fmap_sublist].
  - intros e He. apply (wf_next _ Hwf). by apply list_elem_of_filter in He as [_ He].
  - intros k h. rewrite lookup_delete_Some, (wf_index _ Hwf). split.
    + intros [Hne (e & He & <- & <-)]. exists e. split; [| done]. apply list_elem_of_filter. split; [| done].
      intros E. apply Hne. f_equal. by eapply (NoDup_fmap_elem elem); [apply (wf_elems _ Hwf) | ..].
    + intros (e & (Hne & He)%list_elem_of_filter & <- & <-). split; [| by exists e].
      intros E. apply Hne. f_equal. by eapply (NoDup_fmap_elem ekey); [apply (wf_keys _ Hwf) | ..].
Qed.

Lemma remove_length c h k : cache_wf c → cache c !! k = Some h → S (length (lru (remove_elem h k c))) = length (lru c).
Proof.
  intros Hwf Hk. destruct (proj1 (wf_index _ Hwf k h) Hk) as (e0 & He0 & <- & <-). cbn.
  pose proof (wf_elems _ Hwf) as Hnd. clear Hk. induction (lru c) as [| e l IH]; [by apply elem_of_nil in He0 |].
  cbn [fmap list_fmap] in Hnd. apply NoDup_cons in Hnd as [Hni Hnd]. rewrite filter_cons. case_decide as Hd.
  - cbn. f_equal. apply elem_of_cons in He0 as [-> | He0]; [done |]. by apply IH.
  - destruct (decide (elem e = elem e0)) as [E |]; [| done]. cbn. f_equal.
    by rewrite filter_absent by (by rewrite <- E).
Qed.

Lemma move_perm c e : cache_wf c → e ∈ lru c → lru (move_to_front e c) ≡ₚ lru c.
Proof.
  intros Hwf He. cbn. pose proof (wf_elems _ Hwf) as Hnd. revert He Hnd. induction (lru c) as [| x l IH]; intros He Hnd.
  { by apply elem_of_nil in He. }
  cbn [fmap list_fmap] in Hnd. apply NoDup_cons in Hnd as [Hni Hnd]. rewrite filter_cons. case_decide as Hd.
  - apply elem_of_cons in He as [-> | He]; [done |]. rewrite perm_swap. by rewrite IH.
  - destruct (decide (elem x = elem e)) as [E |]; [| done].
    assert (x = e) as ->.
    { apply elem_of_cons in He as [-> | He]; [done |]. destruct Hni. rewrite E. by apply list_elem_of_fmap_2. }
    by rewrite filter_absent.
Qed.

Lemma move_wf c e : cache_wf c → e ∈ lru c → cache_wf (move_to_front e c).
Proof.
  intros Hwf He. pose proof (move_perm c e Hwf He) as Hp. split.
  - rewrite Hp. apply Hwf.
  - rewrite Hp. apply Hwf.
  - intros x Hx. rewrite Hp in Hx. by apply (wf_next _ Hwf).
  - intros k h. cbn [cache move_to_front]. rewrite (wf_index _ Hwf). by setoid_rewrite Hp.
Qed.

Lemma push_wf c k v read now : cache_wf c → cache c !! k = None → cache_wf (push_front k v read now c).
Proof.
  intros Hwf Hk. split; cbn.
  - apply NoDup_cons. split; [| apply Hwf]. intros (e & E & He)%list_elem_of_fmap.
    rewrite E, (wf_lookup c e) in Hk by done. done.
  - apply NoDup_cons. split; [| apply Hwf]. intros (e & E & He)%list_elem_of_fmap.
    pose proof (wf_next _ Hwf _ He). lia.
  - intros e [-> | He]%elem_of_cons; [cbn; lia |]. pose proof (wf_next _ Hwf _ He). lia.
  - intros k' h. rewrite lookup_insert_Some, (wf_index _ Hwf). split.
    + intros [[<- <-] | [Hne (e & He & <- & <-)]]; [by eexists; split; [left |] |]. exists e. split; [by right | done].
    + intros (e & [-> | He]%elem_of_cons & <- & <-); [by left |]. right. split; [| by exists e].
      intros ->. rewrite (wf_lookup c e) in Hk by done. done.
Qed.

End Cache.

#[global] Arguments cacheEntry : clear implicits.
#[global] Arguments lru_cache K V {_ _}.

(** ** The critical sections keep the invariant *)

Section Sections.
Context {K V : Type} `{Countable K}.
Implicit Types c : lru_cache K V.

Lemma lookup_fresh_spec ttl now (k : K) c r c' :
  cache_wf c → lookup_fresh ttl now k c = (r, c') →
  cache_wf c' ∧ length (lru c') ≤ length (lru c) ∧ (∀ e, e ∈ lru c' → e ∈ lru c) ∧
  match r with
  | Some e => e ∈ lru c ∧ ekey e = k ∧ (now - builtAt e < ttl)%Z
  | None => cache c' !! k = None
  end.
Proof.
  intros Hwf. unfold lookup_fresh. destruct (cache c !! k) as [h |] eqn:Hk; [| by intros [= <- <-]].
  destruct (find_elem h c) as [e |] eqn:Hf.
  - apply find_elem_Some in Hf as [He Hh].
    assert (ekey e = k) as Hek.
    { apply (wf_index _ Hwf) in Hk as (e' & He' & <- & Hh'). f_equal.
      eapply (NoDup_fmap_elem elem); [apply (wf_elems _ Hwf) | done | done | congruence]. }
    destruct (Z.ltb_spec (now - builtAt e) ttl) as [Hfresh | Hold]; intros [= <- <-].
    + pose proof (move_perm c e Hwf He) as Hp. split; [by apply move_wf |]. split; [by rewrite Hp |].
      split; [| done]. intros x Hx. by rewrite Hp in Hx.
    + split; [by apply remove_wf |]. pose proof (remove_length c h k Hwf Hk). split; [lia |].
      split; [| apply lookup_delete_eq]. intros x Hx. by apply list_elem_of_filter in Hx as [_ Hx].
  - exfalso. apply (wf_index _ Hwf) in Hk as (e & He & _ & <-). unfold find_elem in Hf.
    destruct (list_find _ _) eqn:Hl; [done |]. apply list_find_None in Hl. rewrite Forall_forall in Hl. by eapply Hl.
Qed.

Lemma drop_back_spec c :
  cache_wf c → cache_wf (drop_back c) ∧ length (lru (drop_back c)) = pred (length (lru c)) ∧
  (∀ e, e ∈ lru (drop_back c) → e ∈ lru c) ∧ ∀ k : K, cache c !! k = None → cache (drop_back c) !! k = None.
Proof.
  intros Hwf. unfold drop_back. destruct (last (lru c)) as [e |] eqn:Hl.
  - apply last_Some_elem_of in Hl. pose proof (wf_lookup c e Hwf Hl) as Hk. split; [by apply remove_wf |].
    pose proof (remove_length c _ _ Hwf Hk). split; [lia |]. split.
    + intros x Hx. by apply list_elem_of_filter in Hx as [_ Hx].
    + intros k Hn. by apply lookup_delete_None; right.
  - apply last_None in Hl. rewrite Hl. done.
Qed.

(** What the machine needs of an insertion. *)
Class BoundedInsert (cap : nat) (insert : K → V → time → time → lru_cache K V → lru_cache K V) : Prop :=
  insert_spec k v read now c :
    cache_wf c → cache c !! k = None → length (lru c) ≤ cap →
    cache_wf (insert k v read now c) ∧ length (lru (insert k v read now c)) ≤ cap ∧
    ∀ e, e ∈ lru (insert k v read now c) →
      e ∈ lru c ∨ (ekey e = k ∧ evalue e = v ∧ readAt e = read ∧ builtAt e = now).

#[export] Instance making_room_bounded cap : 0 < cap → BoundedInsert cap (insert_making_room cap).
Proof.
  intros Hcap k v read now c Hwf Hk Hlen. unfold insert_making_room.
  destruct (drop_back_spec c Hwf) as (Hwf' & Hlen' & Hin & Hnone).
  destruct (Nat.leb_spec cap (length (lru c))).
  - split; [apply push_wf; auto |]. split; [cbn; lia |]. intros e [-> | He]%elem_of_cons; [by right | left; auto].
  - split; [by apply push_wf |]. split; [cbn; lia |]. intros e [-> | He]%elem_of_cons; [by right | by left].
Qed.

Lemma shrink_spec fuel cap c :
  cache_wf c → length (lru c) ≤ fuel + cap →
  cache_wf (shrink fuel cap c) ∧ length (lru (shrink fuel cap c)) ≤ cap ∧ ∀ e, e ∈ lru (shrink fuel cap c) → e ∈ lru c.
Proof.
  revert c. induction fuel as [| fuel IH]; intros c Hwf Hlen; cbn [shrink]; [done |].
  destruct (Nat.leb_spec (length (lru c)) cap); [done |].
  destruct (drop_back_spec c Hwf) as (Hwf' & Hlen' & Hin & _). destruct (IH (drop_back c)) as (H1 & H2 & H3); [done | lia |]. auto.
Qed.

#[export] Instance shrinking_bounded cap : BoundedInsert cap (insert_shrinking cap).
Proof.
  intros k v read now c Hwf Hk Hlen. unfold insert_shrinking.
  destruct (shrink_spec (length (lru (push_front k v read now c))) cap (push_front k v read now c)) as (H1 & H2 & H3).
  - by apply push_wf.
  - lia.
  - split; [done |]. split; [done |]. intros e He. apply H3, elem_of_cons in He as [-> | He]; [by right | by left].
Qed.

Lemma Invalidate_spec (k : K) c :
  cache_wf c → cache_wf (Invalidate k c) ∧ length (lru (Invalidate k c)) ≤ length (lru c) ∧
  (∀ e, e ∈ lru (Invalidate k c) → e ∈ lru c ∧ ekey e ≠ k).
Proof.
  intros Hwf. unfold Invalidate. destruct (cache c !! k) as [h |] eqn:Hk.
  - split; [by apply remove_wf |]. pose proof (remove_length c h k Hwf Hk). split; [lia |].
    intros e (Hne & He)%list_elem_of_filter. split; [done |]. intros <-. apply Hne.
    rewrite (wf_lookup c e Hwf He) in Hk. congruence.
  - split; [done |]. split; [done |]. intros e He. split; [done |]. intros <-. by rewrite (wf_lookup c e Hwf He) in Hk.
Qed.

End Sections.

(** ** Calls at the same time *)

Section Machine.
Context {K V : Type} `{Countable K} (source : K → time → V → Prop).
Context (ttl : time) (cap : nat) (insert : K → V → time → time → lru_cache K V → lru_cache K V).

(** [missed]: calls that found nothing and have not read yet; [built]: calls
    that hold what they built, with the time of the reading; [answers]: the
    calls that returned, with the time of the reading and of the return. *)
Record machine := mkMachine {
  clock : time;
  store : lru_cache K V;
  missed : list K;
  built : list (K * V * time);
  answers : list (K * V * time * time)
}.

Inductive cache_step : machine → machine → Prop :=
| clock_step m t :
    (clock m ≤ t)%Z → cache_step m (mkMachine t (store m) (missed m) (built m) (answers m))
| hit_step m k e c' :
    lookup_fresh ttl (clock m) k (store m) = (Some e, c') →
    cache_step m (mkMachine (clock m) c' (missed m) (built m) (answers m ++ [(k, evalue e, readAt e, clock m)]))
| miss_step m k c' :
    lookup_fresh ttl (clock m) k (store m) = (None, c') →
    cache_step m (mkMachine (clock m) c' (missed m ++ [k]) (built m) (answers m))
| read_step m i k v :
    missed m !! i = Some k → source k (clock m) v →
    cache_step m (mkMachine (clock m) (store m) (delete i (missed m)) (built m ++ [(k, v, clock m)]) (answers m))
| fail_step m i :
    cache_step m (mkMachine (clock m) (store m) (delete i (missed m)) (built m) (answers m))
| insert_step m i k v read v' read' c' :
    built m !! i = Some (k, v, read) →
    insert_checked insert ttl (clock m) k v read (store m) = ((v', read'), c') →
    cache_step m (mkMachine (clock m) c' (missed m) (delete i (built m)) (answers m ++ [(k, v', read', clock m)]))
| invalidate_step m k :
    cache_step m (mkMachine (clock m) (Invalidate k (store m)) (missed m) (built m) (answers m)).

Definition machine_start (t : time) : machine := mkMachine t empty_cache [] [] [].

(** A value that is or was in the cache. *)
Definition faithful (now : time) (k : K) (v : V) (read inserted : time) : Prop :=
  source k read v ∧ (read ≤ inserted)%Z ∧ (inserted ≤ now)%Z.

Record machine_inv (m : machine) : Prop := {
  m_wf : cache_wf (store m);
  m_cap : length (lru (store m)) ≤ cap;
  m_entries : ∀ e, e ∈ lru (store m) → faithful (clock m) (ekey e) (evalue e) (readAt e) (builtAt e);
  m_built : ∀ k v read, (k, v, read) ∈ built m → source k read v ∧ (read ≤ clock m)%Z;
  m_answers : ∀ k v read t, (k, v, read, t) ∈ answers m →
    ∃ inserted, faithful t k v read inserted ∧ (t - inserted < ttl)%Z
}.

Lemma faithful_later now now' k v read inserted :
  (now ≤ now')%Z → faithful now k v read inserted → faithful now' k v read inserted.
Proof. intros Hle (H1 & H2 & H3). split; [done |]. lia. Qed.

Context `{!BoundedInsert cap insert} (Httl : (0 < ttl)%Z).

Lemma insert_checked_spec now k v read c v' read' c' :
  cache_wf c → length (lru c) ≤ cap → insert_checked insert ttl now k v read c = ((v', read'), c') →
  cache_wf c' ∧ length (lru c') ≤ cap ∧
  (∀ e, e ∈ lru c' → e ∈ lru c ∨ (ekey e = k ∧ evalue e = v ∧ readAt e = read ∧ builtAt e = now)) ∧
  ((v' = v ∧ read' = read) ∨
   ∃ e, e ∈ lru c ∧ ekey e = k ∧ evalue e = v' ∧ readAt e = read' ∧ (now - builtAt e < ttl)%Z).
Proof.
  intros Hwf Hlen. unfold insert_checked. destruct (lookup_fresh ttl now k c) as [[e |] c1] eqn:Hl;
    apply (lookup_fresh_spec _ _ _ _ _ _ Hwf) in Hl as (Hwf1 & Hlen1 & Hin1 & Hr); intros [= <- <- <-].
  - split; [done |]. split; [lia |]. split; [auto |]. right. destruct Hr as (He & Hk & Hf). by exists e.
  - destruct (insert_spec k v read now c1 Hwf1 Hr ltac:(lia)) as (Hwf2 & Hlen2 & Hin2).
    split; [done |]. split; [done |]. split; [| by left]. intros x [Hx | Hx]%Hin2; auto.
Qed.

Lemma cache_step_inv m m' : machine_inv m → cache_step m m' → machine_inv m'.
Proof.
  intros [Hwf Hcap He Hb Ha] Hs. destruct Hs as [m t Ht | m k e c' Hl | m k c' Hl | m i k v Hi Hsrc | m i | m i k v read v' read' c' Hi Hc | m k].
  - split; cbn; [done | done | | | done].
    + intros e Hin. by eapply faithful_later; [| auto].
    + intros k v read Hin. destruct (Hb _ _ _ Hin). split; [done | lia].
  - destruct (lookup_fresh_spec _ _ _ _ _ _ Hwf Hl) as (Hwf' & Hlen & Hin & Hr & Hk & Hf).
    split; cbn; [done | lia | auto | done |].
    intros k' v' read' t [Hold | [= -> -> -> ->]%list_elem_of_singleton]%elem_of_app; [auto |].
    exists (builtAt e). split; [| done]. rewrite <- Hk. auto.
  - destruct (lookup_fresh_spec _ _ _ _ _ _ Hwf Hl) as (Hwf' & Hlen & Hin & _).
    split; cbn; [done | lia | auto | done | done].
  - split; cbn; [done | done | done | | done].
    intros k' v' read' [Hold | [= -> -> ->]%list_elem_of_singleton]%elem_of_app; [auto | done].
  - split; cbn; done.
  - destruct (insert_checked_spec _ _ _ _ _ _ _ _ Hwf Hcap Hc) as (Hwf' & Hlen & Hin & Hr).
    destruct (Hb k v read) as [Hsrc Hle]; [by eapply list_elem_of_lookup_2 |].
    split; cbn; [done | done | | |].
    + intros e [Hold | (-> & -> & -> & ->)]%Hin; [auto |]. done.
    + intros k' v1 read1 Hin1. apply Hb. by eapply list_elem_of_delete_inv.
    + intros k' v1 read1 t [Hold | [= -> -> -> ->]%list_elem_of_singleton]%elem_of_app; [auto |].
      destruct Hr as [[-> ->] | (e & Hin1 & <- & <- & <- & Hf)].
      * exists (clock m). split; [done | lia].
      * exists (builtAt e). auto.
  - destruct (Invalidate_spec k (store m) Hwf) as (Hwf' & Hlen & Hin). split; cbn; [done | lia | | done | done].
    intros e Hin1. apply He. by apply Hin.
Qed.

Lemma machine_reachable t m : rtc cache_step (machine_start t) m → machine_inv m.
Proof.
  intros Hr. apply (invariant_rtc cache_step machine_inv cache_step_inv _ _ Hr). split; cbn.
  - apply empty_wf.
  - lia.
  - intros e He. by apply elem_of_nil in He.
  - intros k v read Hin. by apply elem_of_nil in Hin.
  - intros k v read t' Hin. by apply elem_of_nil in Hin.
Qed.

End Machine.

(** ** After an invalidation *)

Section Invalidated.
Context {K V : Type} `{Countable K} (source : K → time → V → Prop).
Context (ttl : time) (cap : nat) (insert : K → V → time → time → lru_cache K V → lru_cache K V).
Context `{!BoundedInsert cap insert} (Httl : (0 < ttl)%Z).

(** All that is known of [k] was read at [t0] or later, and so was what the
    calls after the first [n] answered. *)
Record renewed (k : K) (t0 : time) (n : nat) (m : machine (K := K) (V := V)) : Prop := {
  r_clock : (t0 ≤ clock m)%Z;
  r_entries : ∀ e, e ∈ lru (store m) → ekey e = k → (t0 ≤ readAt e)%Z;
  r_built : ∀ v read, (k, v, read) ∈ built m → (t0 ≤ read)%Z;
  r_length : n ≤ length (answers m);
  r_answers : ∀ v read t, (k, v, read, t) ∈ drop n (answers m) → (t0 ≤ read)%Z
}.

Lemma drop_snoc n (l : list (K * V * time * time)) x y :
  n ≤ length l → y ∈ drop n (l ++ [x]) → y ∈ drop n l ∨ y = x.
Proof. intros Hn. rewrite drop_app_le by done. intros [Hy | ->%list_elem_of_singleton]%elem_of_app; auto. Qed.

Lemma renewed_step k t0 n m m' :
  machine_inv source ttl cap m → renewed k t0 n m → cache_step source ttl insert m m' → renewed k t0 n m'.
Proof.
  intros [Hwf Hcap _ _ _] [Hc He Hb Hn Ha] Hs.
  destruct Hs as [m t Ht | m k' e c' Hl | m k' c' Hl | m i k' v Hi Hsrc | m i | m i k' v read v' read' c' Hi Hc' | m k'].
  - split; cbn; [lia | done..].
  - destruct (lookup_fresh_spec _ _ _ _ _ _ Hwf Hl) as (Hwf' & Hlen & Hin & Hr & Hk & Hf).
    split; cbn; [done | auto | done | rewrite length_app; lia |].
    intros v read t [Hold | [= -> -> -> ->]]%drop_snoc; [by eapply Ha | by apply He | done].
  - destruct (lookup_fresh_spec _ _ _ _ _ _ Hwf Hl) as (Hwf' & Hlen & Hin & _). split; cbn; auto.
  - split; cbn; [done | done | | done | done].
    intros v' read' [Hold | [= -> -> ->]%list_elem_of_singleton]%elem_of_app; [by eapply Hb | done].
  - split; cbn; done.
  - destruct (insert_checked_spec ttl cap insert _ _ _ _ _ _ _ _ Hwf Hcap Hc') as (Hwf' & Hlen & Hin & Hr).
    assert (k' = k → (t0 ≤ read)%Z) as Hread by (intros ->; eapply Hb, list_elem_of_lookup_2, Hi).
    split; cbn; [done | | | rewrite length_app; lia |].
    + intros e [Hold | (Hek & _ & -> & _)]%Hin Hk; [by apply He |]. apply Hread. congruence.
    + intros v1 read1 Hin1. eapply Hb. by eapply list_elem_of_delete_inv.
    + intros v1 read1 t [Hold | [= -> -> -> ->]]%drop_snoc; [by eapply Ha | | done].
      destruct Hr as [[-> ->] | (e & Hin1 & Hk & <- & <- & Hf)]; [auto | by apply He].
  - destruct (Invalidate_spec k' (store m) Hwf) as (Hwf' & Hlen & Hin). split; cbn; [done | | done | done | done].
    intros e Hin1 Hk. apply He; [by apply Hin | done].
Qed.

(** An invalidation takes effect for good when no call is under way that has
    read the key. *)
Lemma invalidate_renews k m m' :
  machine_inv source ttl cap m → (∀ v read, (k, v, read) ∉ built m) →
  rtc (cache_step source ttl insert)
    (mkMachine (clock m) (Invalidate k (store m)) (missed m) (built m) (answers m)) m' →
  ∀ v read t, (k, v, read, t) ∈ drop (length (answers m)) (answers m') → (clock m ≤ read)%Z.
Proof.
  intros Hinv Hnone Hr. set (m1 := mkMachine _ _ _ _ _) in Hr.
  assert (machine_inv source ttl cap m1 ∧ renewed k (clock m) (length (answers m)) m1) as [Hi Hren].
  { split; [by eapply cache_step_inv, invalidate_step |].
    destruct (Invalidate_spec k (store m) (m_wf _ _ _ _ Hinv)) as (_ & _ & Hin). split; cbn.
    - lia.
    - intros e He Hk. by destruct (Hin _ He).
    - intros v read Hin1. by destruct (Hnone v read).
    - done.
    - intros v read t Hd. rewrite drop_ge in Hd by lia. by apply elem_of_nil in Hd. }
  assert (machine_inv source ttl cap m' ∧ renewed k (clock m) (length (answers m)) m') as [_ Hr'].
  { clear Hnone. revert Hi Hren. induction Hr as [| m1' m2 m3 Hs _ IH]; intros Hi Hren; [done |]. apply IH.
    - by eapply cache_step_inv.
    - by eapply renewed_step. }
  apply Hr'.
Qed.

End Invalidated.
