(* ===== verification/RateLimit.v ===== *)
(** * Rate limits ([core/pkg/gateway/rate_limiter.go], [core/pkg/ratelimit],
      [core/pkg/gateway/handlers/ratelimit])

    Token buckets per client address and per namespace.  A bucket counts in
    floating point; here its tokens are counted exactly, in parts of
    [1 / Minute] of a token, so that the tokens of an elapsed nanosecond are the
    requests per minute.  What the rounding of the code does at the edge of a
    token is outside of the model.

    The limiters of namespaces are cached in [TtlCache], and the heap
    [limiters] has the objects the cache points to. *)

From Stdlib Require Import ZArith Lia Ascii String.
From stdpp Require Import base tactics numbers list gmap strings.
From S2P Require Import Prelude GoStrings DbProg Scopes Jwt AuthPipeline Ip TtlCache.

Local Open Scope Z_scope.
Local Open Scope go_scope.

(** ** One bucket *)

Record bucket := mkBucket { tokens : Z; lastCheck : time }.

Section Bucket.
Context (rpm burst : Z).

Definition refilled (now : time) (b : bucket) : Z := Z.min (burst * Minute) (tokens b + (now - lastCheck b) * rpm).

Definition take_token (now : time) (b : bucket) : bool * bucket :=
  let t := refilled now b in
  if Minute <=? t then (true, mkBucket (t - Minute) now) else (false, mkBucket t now).

End Bucket.

(** ** Per client address *)

Record RateLimiter := mkLimiter { clients : gmap string bucket; rate : Z; burst : Z }.

Definition NewRateLimiter (ratePerMinute burst : Z) : RateLimiter := mkLimiter ∅ ratePerMinute burst.

Definition Allow (now : time) (ip : string) (rl : RateLimiter) : bool * RateLimiter :=
  match clients rl !! ip with
  | None => (true, mkLimiter (<[ip := mkBucket ((burst rl - 1) * Minute) now]> (clients rl)) (rate rl) (burst rl))
  | Some b =>
      let r := take_token (rate rl) (burst rl) now b in
      (r.1, mkLimiter (<[ip := r.2]> (clients rl)) (rate rl) (burst rl))
  end.

Definition Cleanup (now maxAge : time) (rl : RateLimiter) : RateLimiter :=
  mkLimiter (filter (λ kv : string * bucket, now - maxAge ≤ lastCheck kv.2) (clients rl)) (rate rl) (burst rl).

(** [limiters.LoadOrStore] of the older per-namespace limiter. *)
Definition namespace_Allow (ratePerMinute burst : Z) (now : time) (namespace : string)
    (limiters : gmap string RateLimiter) : bool * gmap string RateLimiter :=
  if String.eqb namespace EmptyString then (true, limiters)
  else
    let rl := default (NewRateLimiter ratePerMinute burst) (limiters !! namespace) in
    let r := Allow now namespace rl in
    (r.1, <[namespace := r.2]> limiters).

(** *** The middleware *)

Definition in_wireguard_net (ip : IP) : bool :=
  match To4 ip with
  | Some ip4 => (byte_at ip4 0 =? 10) && (byte_at ip4 1 =? 0) && (byte_at ip4 2 =? 0)
  | None => false
  end.

Definition isInternalIP (ipStr : string) : bool :=
  let host :=
    if Contains ipStr ":" then match SplitHostPort ipStr with Some (h, _) => h | None => ipStr end else ipStr in
  match ParseIP host with
  | None => false
  | Some ip => IsLoopback ip || in_wireguard_net ip
  end.

(** The text before the first comma. *)
Definition first_part (s : string) : string :=
  match IndexByte s "," with Some i => str_take i s | None => s end.

Definition getClientIP (remoteAddr : string) (h : values) : string :=
  let xff := TrimSpace (vget h "X-Forwarded-For") in
  if negb (String.eqb xff EmptyString) then TrimSpace (first_part xff)
  else
    let xr := TrimSpace (vget h "X-Real-IP") in
    if negb (String.eqb xr EmptyString) then xr
    else match SplitHostPort remoteAddr with Some (host, _) => host | None => remoteAddr end.

(** Whether the request goes on; otherwise the answer is 429. *)
Definition rateLimitMiddleware (now : time) (remoteAddr : string) (h : values) (g : option RateLimiter)
    : bool * option RateLimiter :=
  match g with
  | None => (true, None)
  | Some rl =>
      let ip := getClientIP remoteAddr h in
      if isInternalIP ip then (true, Some rl)
      else let r := Allow now ip rl in (r.1, Some r.2)
  end.

(** ** Per namespace *)

Record Config := mkConfig { Namespace : string; RequestsPerMinute : Z; Burst : Z; UpdatedAt : Z; UpdatedBy : string }.

Record Defaults := mkDefaults { def_rpm : Z; def_burst : Z; MaxRequestsPerMinute : Z; MaxBurst : Z }.

Definition Sane (d : Defaults) : Defaults :=
  mkDefaults (if def_rpm d <=? 0 then 10000 else def_rpm d) (if def_burst d <=? 0 then 5000 else def_burst d)
    (if MaxRequestsPerMinute d <? 0 then 0 else MaxRequestsPerMinute d) (if MaxBurst d <? 0 then 0 else MaxBurst d).

Record bucketLimiter := mkBucketLimiter { lim_rpm : Z; lim_burst : Z; lim_bucket : bucket }.

Definition newBucketLimiter (ratePerMinute burst : Z) (now : time) : bucketLimiter :=
  mkBucketLimiter ratePerMinute burst (mkBucket (burst * Minute) now).

Definition allow (now : time) (b : bucketLimiter) : bool * bucketLimiter :=
  let r := take_token (lim_rpm b) (lim_burst b) now (lim_bucket b) in
  (r.1, mkBucketLimiter (lim_rpm b) (lim_burst b) r.2).

Record Manager := mkManager {
  defaults : Defaults;
  ttl : time;
  m_cache : lru_cache string nat;
  limiters : list bucketLimiter
}.

Definition defaultCacheCap : nat := 1024.
Definition cacheEntryTTL : time := 30 * Second.

Definition NewManager (d : Defaults) : Manager := mkManager (Sane d) cacheEntryTTL empty_cache [].

Definition SetCacheTTL (d : time) (m : Manager) : Manager :=
  if d <=? 0 then m else mkManager (defaults m) d (m_cache m) (limiters m).

Definition InvalidateNamespace (namespace : string) (m : Manager) : Manager :=
  mkManager (defaults m) (ttl m) (Invalidate namespace (m_cache m)) (limiters m).

(** What the store answered: an override, none, or an error. *)
Definition limits_of (d : Defaults) (cfg : result string (option Config)) : Z * Z :=
  match cfg with
  | Ok (Some c) =>
      (if 0 <? RequestsPerMinute c then RequestsPerMinute c else def_rpm d, if 0 <? Burst c then Burst c else def_burst d)
  | _ => (def_rpm d, def_burst d)
  end.

(** Two critical sections at [t1] and [t2], with the store read in between. *)
Definition getOrBuild (cfg : result string (option Config)) (t1 t2 : time) (namespace : string) (m : Manager) : nat * Manager :=
  match lookup_fresh (ttl m) t1 namespace (m_cache m) with
  | (Some e, c') => (evalue e, mkManager (defaults m) (ttl m) c' (limiters m))
  | (None, c') =>
      let '(rpm, burst) := limits_of (defaults m) cfg in
      let h := length (limiters m) in
      let '((h', _), c'') := insert_checked (insert_shrinking defaultCacheCap) (ttl m) t2 namespace h t1 c' in
      (h', mkManager (defaults m) (ttl m) c'' (limiters m ++ [newBucketLimiter rpm burst t2]))
  end.

Definition manager_Allow (cfg : result string (option Config)) (t1 t2 t3 : time) (namespace : string) (m : Manager) : bool * Manager :=
  if String.eqb namespace EmptyString then (true, m)
  else
    let '(h, m') := getOrBuild cfg t1 t2 namespace m in
    match limiters m' !! h with
    | None => (true, m')
    | Some b => let r := allow t3 b in (r.1, mkManager (defaults m') (ttl m') (m_cache m') (<[h := r.2]> (limiters m')))
    end.

(** The manager is preferred to the older limiter, given by its rate, its burst
    and its buckets. *)
Definition namespaceRateLimitMiddleware (cfg : result string (option Config)) (t1 t2 t3 : time) (c : context)
    (m : option Manager) (older : option (Z * Z * gmap string RateLimiter))
    : bool * option Manager * option (Z * Z * gmap string RateLimiter) :=
  let ns := default EmptyString (ctxNamespace c) in
  if String.eqb ns EmptyString then (true, m, older)
  else match m, older with
  | Some mgr, _ => let r := manager_Allow cfg t1 t2 t3 ns mgr in (r.1, Some r.2, older)
  | None, Some (rate, burst, l) => let r := namespace_Allow rate burst t1 ns l in (r.1, None, Some (rate, burst, r.2))
  | None, None => (true, m, older)
  end.

(** *** The overrides and their handlers *)

Record rl_state := mkRl { overrides : gmap string Config; manager : Manager }.

Definition Get (namespace : string) : prog rl_state (result string (option Config)) :=
  Query (λ s, overrides s !! namespace) (λ r,
    match r with
    | Ok c => Ret (Ok c)
    | Err e => Ret (Err ("rate-limit config Get: " +:+ e))
    end).

Definition Upsert (cfg : Config) : prog rl_state (result string unit) :=
  if String.eqb (Namespace cfg) EmptyString then Ret (Err "namespace required"%string)
  else if (RequestsPerMinute cfg <=? 0) || (Burst cfg <=? 0) then Ret (Err "requests_per_minute and burst must be > 0"%string)
  else Exec (λ s, Ok (mkRl (<[Namespace cfg := cfg]> (overrides s)) (manager s))) (λ r,
         match r with
         | Ok _ => Ret (Ok tt)
         | Err e => Ret (Err ("rate-limit config Upsert: " +:+ e))
         end).

Definition DeleteOverride (namespace : string) : prog rl_state (result string unit) :=
  if String.eqb namespace EmptyString then Ret (Err "namespace required"%string)
  else Exec (λ s, Ok (mkRl (delete namespace (overrides s)) (manager s))) (λ r,
         match r with
         | Ok _ => Ret (Ok tt)
         | Err e => Ret (Err ("rate-limit config Delete: " +:+ e))
         end).

Record PutRequest := mkPut { put_rpm : Z; put_burst : Z }.

Record GetResponse := mkResponse {
  resp_Namespace : string; resp_rpm : Z; resp_burst : Z; Source : string;
  resp_MaxRequestsPerMinute : Z; resp_MaxBurst : Z; resp_UpdatedAt : Z; resp_UpdatedBy : string
}.

Inductive rl_reply := rl_error (code : Z) (message : string) | rl_ok (r : GetResponse).

Definition rl_namespace (c : context) : string := default EmptyString (ctxNamespace c).
Definition rl_caller (c : context) : string := from_option Sub EmptyString (ctxJWT c).

(** The invalidation of this gateway's cache. *)
Definition invalidate_cached (namespace : string) : prog rl_state (result string unit) :=
  Update (λ s, (tt, mkRl (overrides s) (InvalidateNamespace namespace (manager s)))) Ret.

Section Handlers.
(** The defaults of the manager, and whether store and manager are there. *)
Context (defs : Defaults) (available : bool).

Definition GetConfigHandler (method : string) (c : context) : prog rl_state rl_reply :=
  if negb available then Ret (rl_error 503 "rate-limit config not available on this gateway")
  else if negb (String.eqb method "GET") then Ret (rl_error 405 "method not allowed")
  else
    let ns := rl_namespace c in
    if String.eqb ns EmptyString then Ret (rl_error 403 "namespace not resolved")
    else
      do! r := Get ns in
      match r with
      | Err _ => Ret (rl_error 500 "failed to load config")
      | Ok (Some cfg) =>
          Ret (rl_ok (mkResponse ns (RequestsPerMinute cfg) (Burst cfg) "override" (MaxRequestsPerMinute defs) (MaxBurst defs)
                        (UpdatedAt cfg) (UpdatedBy cfg)))
      | Ok None =>
          Ret (rl_ok (mkResponse ns (def_rpm defs) (def_burst defs) "default" (MaxRequestsPerMinute defs) (MaxBurst defs) 0 EmptyString))
      end.

Definition PutConfigHandler (now : Z) (method : string) (c : context) (body : option PutRequest) : prog rl_state rl_reply :=
  if negb available then Ret (rl_error 503 "rate-limit config not available on this gateway")
  else if negb (String.eqb method "PUT") && negb (String.eqb method "POST") then Ret (rl_error 405 "method not allowed (use PUT)")
  else
    let ns := rl_namespace c in
    if String.eqb ns EmptyString then Ret (rl_error 403 "namespace not resolved")
    else
      let caller := rl_caller c in
      if String.eqb caller EmptyString then Ret (rl_error 401 "user authentication required (JWT)")
      else match body with
      | None => Ret (rl_error 400 "invalid body: expected JSON {requests_per_minute, burst}")
      | Some b =>
          if (put_rpm b <=? 0) || (put_burst b <=? 0) then Ret (rl_error 400 "requests_per_minute and burst must be positive integers")
          else if (0 <? MaxRequestsPerMinute defs) && (MaxRequestsPerMinute defs <? put_rpm b)
          then Ret (rl_error 400 "requests_per_minute exceeds operator-configured maximum")
          else if (0 <? MaxBurst defs) && (MaxBurst defs <? put_burst b)
          then Ret (rl_error 400 "burst exceeds operator-configured maximum")
          else
            do! r := Upsert (mkConfig ns (put_rpm b) (put_burst b) now caller) in
            match r with
            | Err _ => Ret (rl_error 500 "failed to save config")
            | Ok _ =>
                do! _ := invalidate_cached ns in
                Ret (rl_ok (mkResponse ns (put_rpm b) (put_burst b) "override" (MaxRequestsPerMinute defs) (MaxBurst defs) now caller))
            end
      end.

Definition DeleteConfigHandler (method : string) (c : context) : prog rl_state rl_reply :=
  if negb available then Ret (rl_error 503 "rate-limit config not available on this gateway")
  else if negb (String.eqb method "DELETE") then Ret (rl_error 405 "method not allowed (use DELETE)")
  else
    let ns := rl_namespace c in
    if String.eqb ns EmptyString then Ret (rl_error 403 "namespace not resolved")
    else if String.eqb (rl_caller c) EmptyString then Ret (rl_error 401 "user authentication required (JWT)")
    else
      do! r := DeleteOverride ns in
      match r with
      | Err _ => Ret (rl_error 500 "failed to delete config")
      | Ok _ =>
          do! _ := invalidate_cached ns in
          Ret (rl_ok (mkResponse ns (def_rpm defs) (def_burst defs) "default" (MaxRequestsPerMinute defs) (MaxBurst defs) 0 EmptyString))
      end.

End Handlers.

(** ** What a client gets *)

Inductive rl_event := Request (ip : string) | Sweep.

(** A run of requests and cleanups, with the decisions. *)
Fixpoint run_events (maxAge : time) (es : list (time * rl_event)) (rl : RateLimiter) : list (string * bool) * RateLimiter :=
  match es with
  | [] => ([], rl)
  | (t, Sweep) :: es' => run_events maxAge es' (Cleanup t maxAge rl)
  | (t, Request ip) :: es' =>
      let r := Allow t ip rl in
      let rest := run_events maxAge es' r.2 in
      ((ip, r.1) :: rest.1, rest.2)
  end.

Definition granted (ip : string) (ds : list (string * bool)) : Z := Z.of_nat (length (filter (λ d, d = (ip, true)) ds)).

(** The times of the events from [now] on. *)
Fixpoint ordered (now : time) (es : list (time * rl_event)) : Prop :=
  match es with
  | [] => True
  | (t, _) :: es' => now ≤ t ∧ ordered t es'
  end.

Lemma Minute_pos : 0 < Minute.
Proof. by vm_compute. Qed.

Section Window.
Context (maxAge : time).

(** A cleanup drops only clients whose bucket is full again. *)
Record fair (rl : RateLimiter) : Prop := {
  fair_rate : 0 ≤ rate rl;
  fair_burst : 1 ≤ burst rl;
  fair_age : burst rl * Minute ≤ rate rl * maxAge
}.

Definition buckets_at (now : time) (rl : RateLimiter) : Prop :=
  ∀ ip b, clients rl !! ip = Some b → 0 ≤ tokens b ∧ lastCheck b ≤ now.

(** The tokens a client has at [now]. *)
Definition level (now : time) (ip : string) (rl : RateLimiter) : Z :=
  match clients rl !! ip with
  | Some b => refilled (rate rl) (burst rl) now b
  | None => burst rl * Minute
  end.

Definition same_limits (rl rl' : RateLimiter) : Prop := rate rl' = rate rl ∧ burst rl' = burst rl.

Lemma fair_same rl rl' : same_limits rl rl' → fair rl → fair rl'.
Proof. intros [E1 E2] [H1 H2 H3]. split; rewrite ?E1, ?E2; done. Qed.

Lemma level_max now ip rl : level now ip rl ≤ burst rl * Minute.
Proof. unfold level, refilled. destruct (clients rl !! ip); lia. Qed.

Lemma level_grows now t ip rl : fair rl → now ≤ t → level t ip rl ≤ level now ip rl + (t - now) * rate rl.
Proof. intros [H1 H2 H3] Ht. unfold level, refilled. destruct (clients rl !! ip); nia. Qed.

Lemma level_mono now t ip rl : fair rl → now ≤ t → level now ip rl ≤ level t ip rl.
Proof. intros [H1 H2 H3] Ht. unfold level, refilled. destruct (clients rl !! ip); nia. Qed.

Lemma take_spec rpm bst t b :
  (take_token rpm bst t b).1 = (Minute <=? refilled rpm bst t b) ∧
  lastCheck (take_token rpm bst t b).2 = t ∧
  tokens (take_token rpm bst t b).2 = refilled rpm bst t b - (if Minute <=? refilled rpm bst t b then Minute else 0).
Proof. unfold take_token. destruct (Minute <=? refilled rpm bst t b); cbn; repeat split; lia. Qed.

(** A request is granted exactly when a whole token is there, and takes it. *)
Lemma Allow_spec t ip rl :
  fair rl → buckets_at t rl →
  same_limits rl (Allow t ip rl).2 ∧ buckets_at t (Allow t ip rl).2 ∧
  (Allow t ip rl).1 = (Minute <=? level t ip rl) ∧
  level t ip (Allow t ip rl).2 = level t ip rl - (if (Allow t ip rl).1 then Minute else 0) ∧
  ∀ ip', ip' ≠ ip → ∀ t', level t' ip' (Allow t ip rl).2 = level t' ip' rl.
Proof.
  intros [H1 H2 H3] Hb. pose proof Minute_pos as HM. unfold Allow, level.
  destruct (clients rl !! ip) as [b |] eqn:Hc; cbn [fst snd clients rate burst]; rewrite lookup_insert_eq.
  - destruct (Hb _ _ Hc) as [Ht Hl]. destruct (take_spec (rate rl) (burst rl) t b) as (E1 & E2 & E3).
    split; [done |]. split.
    { intros ip' b'. cbn. rewrite lookup_insert_Some. intros [[<- <-] | [_ Hc']]; [| eauto]. rewrite E2, E3.
      unfold refilled. destruct (Z.leb_spec Minute (Z.min (burst rl * Minute) (tokens b + (t - lastCheck b) * rate rl))); nia. }
    split; [done |]. split.
    + rewrite E1. unfold refilled at 1. rewrite E2, E3.
      assert (refilled (rate rl) (burst rl) t b ≤ burst rl * Minute) by (unfold refilled; lia).
      destruct (Minute <=? refilled (rate rl) (burst rl) t b); lia.
    + intros ip' Hne t'. by rewrite lookup_insert_ne.
  - split; [done |]. split.
    { intros ip' b'. cbn. rewrite lookup_insert_Some. intros [[<- <-] | [_ Hc']]; [| eauto]. cbn. nia. }
    split; [symmetry; apply Z.leb_le; nia |]. split.
    + unfold refilled. cbn. nia.
    + intros ip' Hne t'. by rewrite lookup_insert_ne.
Qed.

Lemma Cleanup_spec t rl :
  fair rl → buckets_at t rl →
  same_limits rl (Cleanup t maxAge rl) ∧ buckets_at t (Cleanup t maxAge rl) ∧
  ∀ ip t', t ≤ t' → level t' ip (Cleanup t maxAge rl) = level t' ip rl.
Proof.
  intros [H1 H2 H3] Hb. split; [done |]. split.
  { intros ip b [Hc _]%map_lookup_filter_Some. eauto. }
  intros ip t' Ht. unfold level. cbn [clients Cleanup rate burst].
  destruct (clients rl !! ip) as [b |] eqn:Hc.
  - destruct (decide (t - maxAge ≤ lastCheck b)) as [Hk | Hd].
    + by rewrite (proj2 (map_lookup_filter_Some _ (clients rl) ip b) (conj Hc Hk)).
    + assert (filter (λ kv : string * bucket, t - maxAge ≤ lastCheck kv.2) (clients rl) !! ip = None) as ->.
      { apply map_lookup_filter_None. right. intros b' Hb'. rewrite Hc in Hb'. injection Hb' as <-. done. }
      destruct (Hb _ _ Hc) as [Ht0 _]. unfold refilled. nia.
  - by rewrite (proj2 (map_lookup_filter_None _ (clients rl) ip) (or_introl Hc)).
Qed.

Lemma granted_cons ip d ds : granted ip (d :: ds) = granted ip ds + (if decide (d = (ip, true)) then 1 else 0).
Proof. unfold granted. rewrite filter_cons. case_decide; cbn [length]; lia. Qed.

(** What is granted is paid from the tokens at the start and those that come. *)
Lemma granted_paid es now last rl ip :
  fair rl → buckets_at now rl → ordered now es → Forall (λ e, e.1 ≤ last) es → now ≤ last →
  granted ip (run_events maxAge es rl).1 * Minute ≤ level now ip rl + (last - now) * rate rl.
Proof.
  pose proof Minute_pos as HM.
  revert now rl. induction es as [| [t e] es IH]; intros now rl Hf Hb Ho Hl Hnow; cbn [run_events].
  { unfold granted. cbn. pose proof (fair_rate _ Hf). pose proof (fair_burst _ Hf).
    unfold level. destruct (clients rl !! ip) as [b |] eqn:Hc; [| nia].
    destruct (Hb _ _ Hc) as [Ht Hlc]. unfold refilled. nia. }
  destruct Ho as [Ht Ho]. apply Forall_cons in Hl as [Hlt Hl]. cbn [fst] in Hlt.
  assert (buckets_at t rl) as Hbt.
  { intros ip' b Hc. destruct (Hb _ _ Hc). split; [done | lia]. }
  pose proof (level_grows now t ip rl Hf Ht) as Hg. destruct e as [ip' |].
  - destruct (Allow_spec t ip' rl Hf Hbt) as ([Er Eb] & Hb' & _ & Hlev & Hoth). cbn [fst].
    specialize (IH t (Allow t ip' rl).2 (fair_same _ _ (conj Er Eb) Hf) Hb' Ho Hl Hlt). rewrite Er in IH.
    rewrite granted_cons. destruct (decide (ip' = ip)) as [-> | Hne].
    + rewrite Hlev in IH. destruct (Allow t ip rl).1.
      * rewrite decide_True by done. nia.
      * rewrite decide_False by done. nia.
    + rewrite decide_False by congruence. rewrite Hoth in IH by congruence. nia.
  - destruct (Cleanup_spec t rl Hf Hbt) as ([Er Eb] & Hb' & Hlev).
    specialize (IH t (Cleanup t maxAge rl) (fair_same _ _ (conj Er Eb) Hf) Hb' Ho Hl Hlt). rewrite Er, Hlev in IH by lia. nia.
Qed.

(** The state after some events. *)
Lemma run_events_wf es now rl :
  fair rl → buckets_at now rl → ordered now es →
  same_limits rl (run_events maxAge es rl).2 ∧
  ∀ t, (∀ e, e ∈ es → e.1 ≤ t) → now ≤ t → buckets_at t (run_events maxAge es rl).2.
Proof.
  revert now rl. induction es as [| [t e] es IH]; intros now rl Hf Hb Ho; cbn [run_events].
  { split; [done |]. intros t _ Ht ip b Hc. destruct (Hb _ _ Hc). cbn in *. split; [done | lia]. }
  destruct Ho as [Ht Ho]. assert (buckets_at t rl) as Hbt.
  { intros ip' b Hc. destruct (Hb _ _ Hc). split; [done | lia]. }
  destruct e as [ip' |]; cbn [snd].
  - destruct (Allow_spec t ip' rl Hf Hbt) as ([Er Eb] & Hb' & _).
    destruct (IH t (Allow t ip' rl).2 (fair_same _ _ (conj Er Eb) Hf) Hb' Ho) as [[Er' Eb'] Hw].
    split; [by split; congruence |]. intros t' Hall Ht'. apply Hw; [set_solver |]. apply (Hall (t, Request ip')). by left.
  - destruct (Cleanup_spec t rl Hf Hbt) as ([Er Eb] & Hb' & _).
    destruct (IH t (Cleanup t maxAge rl) (fair_same _ _ (conj Er Eb) Hf) Hb' Ho) as [[Er' Eb'] Hw].
    split; [by split; congruence |]. intros t' Hall Ht'. apply Hw; [set_solver |]. apply (Hall (t, Sweep)). by left.
Qed.

End Window.

(** ** The cached limiters *)

Lemma drop_back_front {K V : Type} `{Countable K} (c : lru_cache K V) e l :
  cache_wf c → lru c = e :: l → l ≠ [] → ∃ l', lru (drop_back c) = e :: l'.
Proof.
  intros Hwf El Hl. unfold drop_back. rewrite El. destruct l as [| x l]; [done |]. rewrite last_cons_cons.
  destruct (last (x :: l)) as [y |] eqn:Hy; [| by apply last_None in Hy]. apply last_Some_elem_of in Hy.
  cbn [remove_elem lru]. rewrite El, filter_cons, decide_True; [by eexists |].
  pose proof (wf_elems _ Hwf) as Hnd. rewrite El in Hnd. cbn [fmap list_fmap] in Hnd. apply NoDup_cons in Hnd as [Hni _].
  intros E. apply Hni. rewrite E. apply (list_elem_of_fmap_2 elem (x :: l)), Hy.
Qed.

Lemma shrink_front {K V : Type} `{Countable K} fuel cap (c : lru_cache K V) e l :
  (0 < cap)%nat → cache_wf c → lru c = e :: l → ∃ l', lru (shrink fuel cap c) = e :: l'.
Proof.
  intros Hcap. revert c l. induction fuel as [| fuel IH]; intros c l Hwf El; cbn [shrink]; [eauto |].
  destruct (Nat.leb_spec (length (lru c)) cap) as [| Hlt]; [eauto |].
  destruct (drop_back_front c e l Hwf El) as [l' El'].
  { intros ->. rewrite El in Hlt. cbn in Hlt. lia. }
  destruct (drop_back_spec c Hwf) as (Hwf' & _). by eapply IH.
Qed.

(** The limiter a namespace uses at [now] is [h], at the front of the list. *)
Definition in_use (ns : string) (now : time) (h : nat) (m : Manager) : Prop :=
  cache_wf (m_cache m) ∧ ∃ e l, lru (m_cache m) = e :: l ∧ ekey e = ns ∧ evalue e = h ∧ builtAt e = now.

(** No limiter of the namespace is younger than the time to live. *)
Definition outdated (ns : string) (now : time) (m : Manager) : Prop :=
  cache_wf (m_cache m) ∧ ∀ e, e ∈ lru (m_cache m) → ekey e = ns → ttl m ≤ now - builtAt e.

Lemma in_use_outdated ns now h m : in_use ns now h m → outdated ns (now + ttl m) m.
Proof.
  intros (Hwf & e & l & El & Hk & _ & Hb). split; [done |]. intros x Hx Hxk.
  assert (x = e) as ->; [| lia].
  eapply (NoDup_fmap_elem ekey); [apply (wf_keys _ Hwf) | done | rewrite El; by left | congruence].
Qed.

Lemma getOrBuild_hit cfg ns now h m :
  0 < ttl m → in_use ns now h m →
  ∃ m', getOrBuild cfg now now ns m = (h, m') ∧ in_use ns now h m' ∧ limiters m' = limiters m ∧ ttl m' = ttl m ∧ defaults m' = defaults m.
Proof.
  intros Httl (Hwf & e & l & El & Hk & Hv & Hb). unfold getOrBuild, lookup_fresh.
  assert (e ∈ lru (m_cache m)) as He by (rewrite El; by left).
  pose proof (wf_lookup _ e Hwf He) as Hlk. rewrite Hk in Hlk. rewrite Hlk. unfold find_elem. rewrite El. cbn [list_find]. rewrite decide_True by done. cbn [fmap option_fmap option_map snd].
  rewrite Hb. replace (now - now <? ttl m) with true by (symmetry; apply Z.ltb_lt; lia).
  eexists. split; [by rewrite Hv |]. split; [| done]. split; [by apply move_wf |].
  exists e. cbn. eexists. split; [done |]. done.
Qed.

Lemma getOrBuild_miss cfg ns now m rpm bst :
  outdated ns now m → limits_of (defaults m) cfg = (rpm, bst) →
  ∃ m', getOrBuild cfg now now ns m = (length (limiters m), m') ∧ in_use ns now (length (limiters m)) m' ∧
    limiters m' = limiters m ++ [newBucketLimiter rpm bst now] ∧ ttl m' = ttl m ∧ defaults m' = defaults m.
Proof.
  intros [Hwf Hold] Hlim. unfold getOrBuild. destruct (lookup_fresh (ttl m) now ns (m_cache m)) as [[e |] c'] eqn:Hl;
    destruct (lookup_fresh_spec _ _ _ _ _ _ Hwf Hl) as (Hwf' & _ & _ & Hr).
  { destruct Hr as (He & Hk & Hf). pose proof (Hold e He Hk). lia. }
  rewrite Hlim. unfold insert_checked, lookup_fresh. rewrite Hr. eexists. split; [done |]. split; [| done].
  unfold insert_shrinking. set (c := push_front ns (length (limiters m)) now now c').
  assert (cache_wf c) as Hwf2 by (by apply push_wf).
  destruct (shrink_spec (length (lru c)) defaultCacheCap c Hwf2) as (Hwf3 & _); [lia |].
  split; [done |]. eapply (shrink_front _ defaultCacheCap) in Hwf2 as [l' El']; [| unfold defaultCacheCap; lia | done].
  eexists _, l'. split; [exact El' |]. done.
Qed.

Fixpoint allow_n (n : nat) (cfg : result string (option Config)) (now : time) (ns : string) (m : Manager) : list bool * Manager :=
  match n with
  | O => ([], m)
  | S n' => let r := manager_Allow cfg now now now ns m in
            let rest := allow_n n' cfg now ns r.2 in (r.1 :: rest.1, rest.2)
  end.

(** The limiter in use has whole tokens at [now]. *)
Definition has_tokens (n : nat) (ns : string) (now : time) (m : Manager) : Prop :=
  ∃ h b, in_use ns now h m ∧ limiters m !! h = Some b ∧ lastCheck (lim_bucket b) = now ∧
    tokens (lim_bucket b) = Z.of_nat n * Minute ∧ tokens (lim_bucket b) ≤ lim_burst b * Minute.

(** A granted request at an instant takes a token. *)
Lemma allow_takes (now : time) b n :
  lastCheck (lim_bucket b) = now → tokens (lim_bucket b) = Z.of_nat (S n) * Minute →
  tokens (lim_bucket b) ≤ lim_burst b * Minute →
  (allow now b).1 = true ∧ lastCheck (lim_bucket (allow now b).2) = now ∧
  tokens (lim_bucket (allow now b).2) = Z.of_nat n * Minute ∧ tokens (lim_bucket (allow now b).2) ≤ lim_burst (allow now b).2 * Minute.
Proof.
  intros Hl Ht Hc. pose proof Minute_pos. unfold allow, take_token, refilled. rewrite Hl.
  replace (Z.min (lim_burst b * Minute) (tokens (lim_bucket b) + (now - now) * lim_rpm b)) with (Z.of_nat (S n) * Minute) by lia.
  replace (Minute <=? Z.of_nat (S n) * Minute) with true by (symmetry; apply Z.leb_le; lia). cbn [fst snd lim_bucket lastCheck tokens lim_burst].
  repeat split; lia.
Qed.

Lemma manager_takes cfg ns now m h m' b n :
  ns ≠ EmptyString → getOrBuild cfg now now ns m = (h, m') → in_use ns now h m' → limiters m' !! h = Some b →
  lastCheck (lim_bucket b) = now → tokens (lim_bucket b) = Z.of_nat (S n) * Minute →
  tokens (lim_bucket b) ≤ lim_burst b * Minute →
  (manager_Allow cfg now now now ns m).1 = true ∧ has_tokens n ns now (manager_Allow cfg now now now ns m).2 ∧
  ttl (manager_Allow cfg now now now ns m).2 = ttl m' ∧ defaults (manager_Allow cfg now now now ns m).2 = defaults m'.
Proof.
  intros Hns Hg Hu Hb Hl Ht Hc. destruct (allow_takes now b n Hl Ht Hc) as (H1 & H2 & H3 & H4).
  unfold manager_Allow. apply String.eqb_neq in Hns. rewrite Hns, Hg, Hb. cbn [fst snd ttl defaults].
  split; [done |]. split; [| done]. exists h, (allow now b).2. split; [done |]. split; [| done].
  cbn [limiters]. apply list_lookup_insert_eq. by eapply lookup_lt_Some.
Qed.

Lemma allow_rest n cfg ns now m :
  ns ≠ EmptyString → 0 < ttl m → has_tokens n ns now m →
  Forall (λ ok, ok = true) (allow_n n cfg now ns m).1 ∧ outdated ns (now + ttl m) (allow_n n cfg now ns m).2 ∧
  ttl (allow_n n cfg now ns m).2 = ttl m ∧ defaults (allow_n n cfg now ns m).2 = defaults m.
Proof.
  intros Hns. revert m. induction n as [| n IH]; intros m Httl (h & b & Hu & Hb & Hl & Ht & Hc); cbn [allow_n].
  { cbn. split; [done |]. split; [by eapply in_use_outdated | done]. }
  destruct (getOrBuild_hit cfg ns now h m Httl Hu) as (m' & Hg & Hu' & El & Et & Ed).
  destruct (manager_takes cfg ns now m h m' b n Hns Hg Hu') as (H1 & H2 & H3 & H4); [by rewrite El | done.. |].
  destruct (IH (manager_Allow cfg now now now ns m).2) as (H5 & H6 & H7 & H8); [lia | done |]. cbn [fst snd].
  rewrite H3, Et in H6, H7. rewrite H4, Ed in H8. split; [by constructor |]. done.
Qed.

(** Bursts at [t], [t + ttl], [t + 2 ttl] and so on. *)
Fixpoint bursts (k n : nat) (cfg : result string (option Config)) (t : time) (ns : string) (m : Manager) : list bool :=
  match k with
  | O => []
  | S k' => let r := allow_n n cfg t ns m in r.1 ++ bursts k' n cfg (t + ttl m) ns r.2
  end.

Lemma bursts_granted k cfg ns t m rpm bst :
  ns ≠ EmptyString → 0 < ttl m → 0 < bst → limits_of (defaults m) cfg = (rpm, bst) → outdated ns t m →
  Forall (λ ok, ok = true) (bursts k (Z.to_nat bst) cfg t ns m).
Proof.
  intros Hns. revert t m. induction k as [| k IH]; intros t m Httl Hbst Hlim Hold; cbn [bursts]; [constructor |].
  destruct (Z.to_nat bst) as [| n] eqn:En; [lia |]. apply Forall_app.
  destruct (getOrBuild_miss cfg ns t m rpm bst Hold Hlim) as (m' & Hg & Hu & El & Et & Ed).
  destruct (manager_takes cfg ns t m _ m' (newBucketLimiter rpm bst t) n Hns Hg Hu) as (H1 & H2 & H3 & H4);
    [rewrite El; by apply list_lookup_middle | done | cbn; lia | cbn; lia |].
  destruct (allow_rest n cfg ns t (manager_Allow cfg t t t ns m).2 Hns) as (H5 & H6 & H7 & H8); [lia | done |].
  cbn [allow_n fst snd]. rewrite H3, Et in H6, H7. rewrite H4, Ed in H8. split; [by constructor |].
  rewrite <- H7. apply IH; [lia | done | by rewrite H8 |]. by rewrite H7.
Qed.

(** ** Theorems *)

Lemma ordered_app now pre win : ordered now (pre ++ win) → ordered now pre.
Proof. revert now. induction pre as [| [t e] pre IH]; intros now; cbn; [done |]. intros [H1 H2]. auto. Qed.

Lemma ordered_from now pre win a : ordered now (pre ++ win) → (∀ e, e ∈ win → a ≤ e.1) → ordered a win.
Proof.
  revert now. induction pre as [| [t e] pre IH]; intros now; cbn [app ordered]; [| intros [_ Ho]; by eapply IH].
  destruct win as [| [t e] win]; [done |]. cbn [ordered]. intros [_ Ho] Ha. split; [| done]. apply (Ha (t, e)). by left.
Qed.

Lemma new_fair rpm bst maxAge :
  0 ≤ rpm → 1 ≤ bst → bst * Minute ≤ rpm * maxAge → fair maxAge (NewRateLimiter rpm bst).
Proof. by split. Qed.

(** The limit of a client address.  Whatever clients send and whenever the
    limiter is cleaned up, in every stretch of time from [a] to [b] an address
    is granted at most [burst] requests and the rate's share of the time, as
    long as a bucket is full again before it is old enough to be cleaned up. *)
Theorem client_rate_bounded rpm bst maxAge pre win now a b ip :
  0 ≤ rpm → 1 ≤ bst → bst * Minute ≤ rpm * maxAge →
  ordered now (pre ++ win) → now ≤ a → (∀ e, e ∈ pre → e.1 ≤ a) → (∀ e, e ∈ win → a ≤ e.1 ≤ b) → a ≤ b →
  let rl := (run_events maxAge pre (NewRateLimiter rpm bst)).2 in
  granted ip (run_events maxAge win rl).1 * Minute ≤ bst * Minute + rpm * (b - a).
Proof.
  intros H1 H2 H3 Ho Hna Hpre Hwin Hab rl.
  assert (fair maxAge (NewRateLimiter rpm bst)) as Hf by (by apply new_fair).
  destruct (run_events_wf maxAge pre now (NewRateLimiter rpm bst) Hf) as [Hs Hb]; [by intros ? ? ? | by eapply ordered_app |].
  fold rl in Hs, Hb. pose proof Hs as [Er Eb]. cbn in Er, Eb.
  pose proof (granted_paid maxAge win a b rl ip) as Hg. rewrite Er in Hg. pose proof (level_max a ip rl) as Hm. rewrite Eb in Hm.
  enough (granted ip (run_events maxAge win rl).1 * Minute ≤ level a ip rl + (b - a) * rpm) by nia.
  apply Hg; [by eapply fair_same | by apply Hb | | | done].
  - eapply ordered_from; [exact Ho |]. intros e He. apply Hwin, He.
  - apply Forall_forall. intros e He. apply Hwin, He.
Qed.

(** Five thousand at once and ten thousand a minute, cleaned up after ten
    minutes, as the gateway is set up; here with smaller numbers. *)
Lemma client_rate_bounded_witness :
  let rl := (run_events (10 * Minute) [(0, Request "c"); (1, Sweep)] (NewRateLimiter 6 2)).2 in
  let ds := (run_events (10 * Minute) [(10, Request "c"); (11, Request "c"); (12, Request "c"); (10 * Second, Request "c")] rl).1 in
  granted "c" ds = 2 ∧ granted "c" ds * Minute ≤ 2 * Minute + 6 * (10 * Second - 1).
Proof.
  intros rl ds. split; [by vm_compute |].
  apply (client_rate_bounded 6 2 (10 * Minute) [(0, Request "c"); (1, Sweep)]
           [(10, Request "c"); (11, Request "c"); (12, Request "c"); (10 * Second, Request "c")] 0 1 (10 * Second) "c");
    [done | done | done | | done | | | done].
  - cbn. repeat split; done.
  - intros e [-> | [-> | He]%elem_of_cons]%elem_of_cons; [done | done | by apply elem_of_nil in He].
  - intros e He. repeat (apply elem_of_cons in He as [-> | He]; [by vm_compute |]). by apply elem_of_nil in He.
Defined.

(** The limit of a namespace begins again with every entry of the cache.
    Whatever the configured rate is, a namespace whose limiter is not cached or
    has reached the time to live is granted [k] full bursts at intervals of
    thirty seconds. *)
Theorem burst_every_ttl k cfg ns t m rpm bst :
  ns ≠ EmptyString → 0 < ttl m → 0 < bst → limits_of (defaults m) cfg = (rpm, bst) → outdated ns t m →
  Forall (λ ok, ok = true) (bursts k (Z.to_nat bst) cfg t ns m).
Proof. apply bursts_granted. Qed.

(** One request a minute and ten at once: twenty within thirty seconds. *)
Lemma burst_every_ttl_witness :
  let cfg := Ok (Some (mkConfig "app" 1 10 0 "owner")) in
  Forall (λ ok, ok = true) (bursts 2 10 cfg 0 "app" (NewManager (mkDefaults 0 0 0 0))) ∧
  (allow_n 11 cfg 0 "app" (NewManager (mkDefaults 0 0 0 0))).1 = replicate 10 true ++ [false].
Proof.
  intros cfg. split; [| by vm_compute].
  apply (burst_every_ttl 2 cfg "app" 0 (NewManager (mkDefaults 0 0 0 0)) 1 10); [done | done | done | done |].
  split; [apply empty_wf |]. intros e He. by apply elem_of_nil in He.
Defined.

(** The ceiling of the operator. *)
Definition within_ceiling (defs : Defaults) (s : rl_state) : Prop :=
  ∀ ns c, overrides s !! ns = Some c → 0 < RequestsPerMinute c ∧ 0 < Burst c ∧
    (0 < MaxRequestsPerMinute defs → RequestsPerMinute c ≤ MaxRequestsPerMinute defs) ∧
    (0 < MaxBurst defs → Burst c ≤ MaxBurst defs).

Inductive rl_op :=
| OpGet (method : string) (c : context)
| OpPut (now : Z) (method : string) (c : context) (body : option PutRequest)
| OpDelete (method : string) (c : context).

Definition rl_prog (defs : Defaults) (op : rl_op) : prog rl_state rl_reply :=
  match op with
  | OpGet method c => GetConfigHandler defs true method c
  | OpPut now method c body => PutConfigHandler defs true now method c body
  | OpDelete method c => DeleteConfigHandler defs true method c
  end.

Lemma rl_prog_upholds defs op : upholds (within_ceiling defs) (λ _, True) (rl_prog defs op).
Proof.
  destruct op as [method c | now method c body | method c]; cbn [rl_prog].
  - unfold GetConfigHandler. repeat (case_match; try exact I). cbn. split; [intros s _; by case_match | done].
  - unfold PutConfigHandler. do 4 (case_match; [exact I |]). destruct body as [b |]; [| exact I].
    destruct ((put_rpm b <=? 0) || (put_burst b <=? 0)) eqn:E1; [exact I |].
    destruct ((0 <? MaxRequestsPerMinute defs) && (MaxRequestsPerMinute defs <? put_rpm b)) eqn:E2; [exact I |].
    destruct ((0 <? MaxBurst defs) && (MaxBurst defs <? put_burst b)) eqn:E3; [exact I |].
    unfold Upsert. cbn [Namespace RequestsPerMinute Burst]. case_match; [exact I |]. rewrite E1. cbn [prog_bind upholds]. split.
    + intros s s' Hs [= <-] ns cfg. cbn. rewrite lookup_insert_Some. intros [[<- <-] | [_ Hc]]; [| exact (Hs _ _ Hc)]. cbn.
      apply orb_false_iff in E1 as [Ea Eb]. apply Z.leb_gt in Ea, Eb.
      split; [done |]. split; [done |]. split; intros Hmax.
      * apply andb_false_iff in E2 as [E2 | E2]; apply Z.ltb_ge in E2; lia.
      * apply andb_false_iff in E3 as [E3 | E3]; apply Z.ltb_ge in E3; lia.
    + intros [[] | e]; cbn; [| exact I]. split; [by intros s Hs | by intros r].
  - unfold DeleteConfigHandler, DeleteOverride. do 2 (case_match; [exact I |]).
    destruct (String.eqb (rl_namespace c) EmptyString); [exact I |]. case_match; [exact I |]. cbn [prog_bind upholds]. split.
    + intros s s' Hs [= <-] ns cfg. cbn. intros [_ Hc]%lookup_delete_Some. exact (Hs _ _ Hc).
    + intros [[] | e]; cbn; [| exact I]. split; [by intros s Hs | by intros r].
Qed.

(** Tenants cannot raise their limit above the ceiling: under any interleaving
    of requests on all gateways, the limits a manager uses are the defaults or
    within it. *)
Theorem ceiling_holds defs s0 ops s d ns :
  within_ceiling defs s0 → rtc sys_step (mkSys s0 [] ((λ op, (op, rl_prog defs op)) <$> ops)) s →
  let '(rpm, bst) := limits_of d (Ok (overrides (current s) !! ns)) in
  (rpm = def_rpm d ∨ (0 < MaxRequestsPerMinute defs → rpm ≤ MaxRequestsPerMinute defs)) ∧
  (bst = def_burst d ∨ (0 < MaxBurst defs → bst ≤ MaxBurst defs)).
Proof.
  intros H0 Hr. apply (sys_reachable (within_ceiling defs) (λ _ _, True)) in Hr as [Hw _]; [| done |].
  2:{ apply Forall_fmap, Forall_forall. intros op _. apply rl_prog_upholds. }
  destruct (overrides (current s) !! ns) as [c |] eqn:Hc; cbn; [| by split; left].
  destruct (Hw _ _ Hc) as (H1 & H2 & H3 & H4). apply Z.ltb_lt in H1, H2. rewrite H1, H2. split; by right.
Qed.

(** The address that is limited is what the client writes in a header: with a
    loopback address there, no request is counted. *)
Theorem forwarded_header_exempts now remoteAddr rl :
  rateLimitMiddleware now remoteAddr (vset "X-Forwarded-For" "127.0.0.1" ∅) (Some rl) = (true, Some rl).
Proof. by vm_compute. Qed.
