(* ===== verification/PushManager.v ===== *)
(** * Sending push notifications ([core/pkg/push/manager.go],
      [core/pkg/push/dispatcher.go], [core/pkg/push/config_store.go],
      [core/pkg/push/credentials], [core/pkg/push/providers/ntfy/credentials.go],
      the provider factory of [core/pkg/gateway/dependencies.go],
      [core/pkg/gateway/handlers/push/config_handler.go])

    The providers of a namespace are built from the operator's defaults, the
    namespace's configuration and its credentials, cached ([TtlCache]), and
    used for the devices of a user ([PushDevices]).  The providers themselves
    are remote services: what they answer is an argument. *)

From Stdlib Require Import ZArith Lia Ascii String.
From stdpp Require Import base tactics numbers list gmap strings.
From S2P Require Import Prelude GoStrings DbProg Scopes Jwt AuthPipeline Ip UrlGuard TtlCache PushDevices.

Local Open Scope go_scope.

(** ** Providers *)

(** The services of this gateway.  Apple's two are built from one credential
    text that the factory only passes on. *)
Inductive provider :=
| Ntfy (baseURL authToken : string) (fanout : bool)
| Expo (accessToken : string)
| Apns (credential : string)
| ApnsVoIP (credential : string).

Definition Name (p : provider) : string :=
  match p with
  | Ntfy _ _ _ => "ntfy"
  | Expo _ => "expo"
  | Apns _ => "apns"
  | ApnsVoIP _ => "apns_voip"
  end.

(** ** The dispatcher *)

Inductive PushPriority := PriorityNormal | PriorityHigh.

(** The data is the JSON text the provider sends on. *)
Record PushMessage := mkMessage {
  DeviceToken : string; Title : string; Body : string; Data : string; Badge : Z; Sound : string; Channel : string;
  Priority : PushPriority; TargetProvider : string; ExcludeProvider : string; MessageID : string
}.

(** An error of a send: a provider's structured answer, another error, or no
    such provider. *)
Inductive send_error :=
| PushError (httpStatus : Z) (reason message : string) (unregistered : bool)
| OtherError (message : string)
| ErrUnknownProvider (name : string).

Record DeviceSendResult := mkResult {
  res_DeviceID : string; res_Provider : string; Success : bool; HTTPStatus : Z;
  Reason : string; Message : string; Unregistered : bool; res_err : option send_error
}.

Record SendDetailedResult := mkDetailed {
  AllOk : bool; DevicesAttempted : nat; DevicesSucceeded : nat; Results : list DeviceSendResult
}.

Definition PushDispatcher := gmap string provider.

Definition Register (p : provider) (d : PushDispatcher) : PushDispatcher := <[Name p := p]> d.

Definition with_token (token : string) (m : PushMessage) : PushMessage :=
  mkMessage token (Title m) (Body m) (Data m) (Badge m) (Sound m) (Channel m) (Priority m) (TargetProvider m) (ExcludeProvider m)
    (MessageID m).

(** The devices a message is for. *)
Definition selected (msg : PushMessage) (devs : list PushDevice) : list PushDevice :=
  if negb (String.eqb (TargetProvider msg) EmptyString) then filter (λ d, dev_Provider d = TargetProvider msg) devs
  else if negb (String.eqb (ExcludeProvider msg) EmptyString) then filter (λ d, dev_Provider d ≠ ExcludeProvider msg) devs
  else devs.

Section Send.
(** What a provider answers to a message; [None] is success. *)
Context (send : provider → PushMessage → option send_error).

Definition failed_result (dev : PushDevice) (e : send_error) : DeviceSendResult :=
  match e with
  | PushError status reason message unregistered =>
      mkResult (dev_DeviceID dev) (dev_Provider dev) false status reason message unregistered (Some e)
  | OtherError message => mkResult (dev_DeviceID dev) (dev_Provider dev) false 0 EmptyString message false (Some e)
  | ErrUnknownProvider name =>
      mkResult (dev_DeviceID dev) (dev_Provider dev) false 0 EmptyString ("push: unknown provider " +:+ name +:+ " (device not dispatched)")
        false (Some e)
  end.

(** One device: the result, and what was handed to which provider. *)
Definition send_device (d : PushDispatcher) (msg : PushMessage) (dev : PushDevice) : DeviceSendResult * list (provider * PushMessage) :=
  match d !! dev_Provider dev with
  | None => (failed_result dev (ErrUnknownProvider (dev_Provider dev)), [])
  | Some p =>
      let m := with_token (Token dev) msg in
      (match send p m with
       | Some e => failed_result dev e
       | None => mkResult (dev_DeviceID dev) (dev_Provider dev) true 200 EmptyString EmptyString false None
       end, [(p, m)])
  end.

Fixpoint send_all (d : PushDispatcher) (msg : PushMessage) (devs : list PushDevice) (out : SendDetailedResult)
    : SendDetailedResult * list (provider * PushMessage) :=
  match devs with
  | [] => (out, [])
  | dev :: devs' =>
      let r := send_device d msg dev in
      let out' := mkDetailed (AllOk out && Success r.1) (DevicesAttempted out)
                    (if Success r.1 then S (DevicesSucceeded out) else DevicesSucceeded out) (Results out ++ [r.1]) in
      let rest := send_all d msg devs' out' in
      (rest.1, r.2 ++ rest.2)
  end.

(** [listed] is what the device store answered. *)
Definition SendToUserDetailed (d : PushDispatcher) (msg : PushMessage) (listed : result string (list PushDevice))
    : result string SendDetailedResult * list (provider * PushMessage) :=
  match listed with
  | Err e => (Err ("list devices: " +:+ e), [])
  | Ok devs =>
      let devs := selected msg devs in
      let r := send_all d msg devs (mkDetailed true (length devs) 0 []) in
      (Ok r.1, r.2)
  end.

Definition first_error (rs : list DeviceSendResult) : option send_error :=
  head (omap (λ r, if Success r then None else res_err r) rs).

Definition SendToUser (d : PushDispatcher) (msg : PushMessage) (listed : result string (list PushDevice))
    : result string (option send_error) * list (provider * PushMessage) :=
  match SendToUserDetailed d msg listed with
  | (Err e, sent) => (Err e, sent)
  | (Ok res, sent) => (Ok (first_error (Results res)), sent)
  end.

End Send.

(** ** Configuration *)

Record Config := mkConfig {
  cfg_Namespace : string; NtfyBaseURL : string; NtfyAuthToken : string; ExpoAccessToken : string;
  cfg_UpdatedAt : Z; cfg_UpdatedBy : string
}.

Record Defaults := mkDefaults { def_NtfyBaseURL : string; def_NtfyAuthToken : string; def_ExpoAccessToken : string }.

Definition Defaults_IsEmpty (d : Defaults) : bool :=
  String.eqb (def_NtfyBaseURL d) EmptyString && String.eqb (def_ExpoAccessToken d) EmptyString.

Definition Config_IsEmpty (c : option Config) : bool :=
  match c with
  | None => true
  | Some c => String.eqb (NtfyBaseURL c) EmptyString && String.eqb (ExpoAccessToken c) EmptyString
  end.

(** The credentials of a namespace for ntfy. *)
Record Credentials := mkCredentials { BaseURL : string; AuthToken : string; TopicMode : string; TopicSecret : string }.

(** Why there is no dispatcher. *)
Inductive build_error := ErrPushNotConfigured | LoadConfigFailed (e : string).

Section Build.
Context `{UnicodeCase} (Parse : string → option URL).

Definition validateCredentials (c : Credentials) : result string unit :=
  match CheckBaseURLSyntax Parse (BaseURL c) with
  | Err _ => Err "ntfy credentials: base_url"
  | Ok _ =>
      if negb (String.eqb (TopicMode c) EmptyString) && negb (bool_decide (TopicMode c ∈ ["opaque"; "path"; "user"]%string))
      then Err "ntfy credentials: topic_mode"
      else if String.eqb (TopicMode c) "opaque" && String.eqb (TopicSecret c) EmptyString
      then Err "ntfy credentials: topic_secret required"
      else Ok tt
  end.

(** The decoded record; [None] is not JSON. *)
Definition ParseCredentials (c : option Credentials) : result string Credentials :=
  match c with
  | None => Err "ntfy ParseCredentials"
  | Some c => match validateCredentials c with Ok _ => Ok c | Err e => Err e end
  end.

(** What is stored for ntfy and for apns: nothing, or a text that decodes or
    does not; Apple's constructors may refuse it. *)
Record credential_view := mkCreds {
  ntfy_stored : option (option Credentials);
  apns_stored : option string;
  apns_ok : string → bool;
  voip_ok : string → bool
}.

Definition ntfy_config (c : Config) (creds : credential_view) : string * string :=
  if String.eqb (cfg_Namespace c) EmptyString then (NtfyBaseURL c, NtfyAuthToken c)
  else match ntfy_stored creds with
       | None => (NtfyBaseURL c, NtfyAuthToken c)
       | Some raw =>
           match ParseCredentials raw with
           | Err _ => (NtfyBaseURL c, NtfyAuthToken c)
           | Ok ov =>
               (if String.eqb (BaseURL ov) EmptyString then NtfyBaseURL c else BaseURL ov,
                if String.eqb (AuthToken ov) EmptyString then NtfyAuthToken c else AuthToken ov)
           end
       end.

(** [fanoutBase] is the operator's base URL when the cluster fans out. *)
Definition factory (fanoutBase : option string) (c : Config) (creds : credential_view) : list provider :=
  let '(base, token) := ntfy_config c creds in
  (if String.eqb base EmptyString then [] else [Ntfy base token (bool_decide (fanoutBase = Some base))])
  ++ (if String.eqb (ExpoAccessToken c) EmptyString then [] else [Expo (ExpoAccessToken c)])
  ++ (if String.eqb (cfg_Namespace c) EmptyString then []
      else match apns_stored creds with
           | None => []
           | Some cred => (if apns_ok creds cred then [Apns cred] else []) ++ (if voip_ok creds cred then [ApnsVoIP cred] else [])
           end).

(** The configuration in effect. *)
Definition effective (d : Defaults) (namespace : string) (nc : option Config) : Config :=
  match nc with
  | None => mkConfig namespace (def_NtfyBaseURL d) (def_NtfyAuthToken d) (def_ExpoAccessToken d) 0 EmptyString
  | Some nc =>
      mkConfig namespace
        (if String.eqb (NtfyBaseURL nc) EmptyString || IsInternalBaseURL Parse (NtfyBaseURL nc)
         then def_NtfyBaseURL d else NtfyBaseURL nc)
        (if String.eqb (NtfyAuthToken nc) EmptyString then def_NtfyAuthToken d else NtfyAuthToken nc)
        (if String.eqb (ExpoAccessToken nc) EmptyString then def_ExpoAccessToken d else ExpoAccessToken nc)
        0 EmptyString
  end.

(** [loaded]: the row of the namespace, none, or an error of the store. *)
Definition buildDispatcher (d : Defaults) (fanoutBase : option string) (namespace : string) (creds : credential_view)
    (loaded : result string (option Config)) : result build_error PushDispatcher :=
  match loaded with
  | Err e => Err (LoadConfigFailed e)
  | Ok nc =>
      match factory fanoutBase (effective d namespace nc) creds with
      | [] => Err ErrPushNotConfigured
      | ps => Ok (foldl (λ disp p, Register p disp) ∅ ps)
      end
  end.

Definition IsConfigured (d : Defaults) (loaded : result string (option Config)) : bool :=
  if negb (Defaults_IsEmpty d) then true
  else match loaded with
       | Ok nc => negb (Config_IsEmpty nc)
       | Err _ => false
       end.

End Build.

(** ** The configuration store and its handlers *)

(** A row of [namespace_push_config]; an empty text is an absent credential. *)
Record config_row := mkConfigRow {
  row_base_url : string; row_ntfy_token_encrypted : string; row_expo_token_encrypted : string;
  row_updated_at : Z; row_updated_by : string
}.

(** The table and the cache of this gateway. *)
Record push_state := mkPush { configs : gmap string config_row; dispatchers : lru_cache string PushDispatcher }.

Section Store.
Context `{TokenCrypto}.

(** An absent credential is not encrypted. *)
Definition encrypt_field (nonce v : string) : string := if String.eqb v EmptyString then EmptyString else Encrypt nonce v.

Definition decrypt_field (v : string) : option string := if String.eqb v EmptyString then Some EmptyString else Decrypt v.

Definition config_of (namespace : string) (r : config_row) : result string Config :=
  match decrypt_field (row_ntfy_token_encrypted r) with
  | None => Err "push config: decrypt ntfy auth token"
  | Some t1 =>
      match decrypt_field (row_expo_token_encrypted r) with
      | None => Err "push config: decrypt expo access token"
      | Some t2 => Ok (mkConfig namespace (row_base_url r) t1 t2 (row_updated_at r) (row_updated_by r))
      end
  end.

(** [Ok None] is [ErrConfigNotFound]. *)
Definition GetConfig (namespace : string) : prog push_state (result string (option Config)) :=
  if String.eqb namespace EmptyString then Ret (Err "push config: namespace required")
  else Query (λ s, configs s !! namespace) (λ r,
         match r with
         | Err e => Ret (Err ("push config: query: " +:+ e))
         | Ok None => Ret (Ok None)
         | Ok (Some row) => Ret (match config_of namespace row with Ok c => Ok (Some c) | Err e => Err e end)
         end).

Definition row_of (nonce1 nonce2 : string) (now : Z) (c : Config) : config_row :=
  mkConfigRow (NtfyBaseURL c) (encrypt_field nonce1 (NtfyAuthToken c)) (encrypt_field nonce2 (ExpoAccessToken c))
    (if (cfg_UpdatedAt c =? 0)%Z then now else cfg_UpdatedAt c) (cfg_UpdatedBy c).

Definition UpsertConfig (nonce1 nonce2 : string) (now : Z) (c : Config) : prog push_state (result string unit) :=
  if String.eqb (cfg_Namespace c) EmptyString then Ret (Err "push config: namespace required")
  else Exec (λ s, Ok (mkPush (<[cfg_Namespace c := row_of nonce1 nonce2 now c]> (configs s)) (dispatchers s))) (λ r,
         match r with
         | Ok _ => Ret (Ok tt)
         | Err e => Ret (Err ("push config: upsert: " +:+ e))
         end).

Definition DeleteConfig (namespace : string) : prog push_state (result string unit) :=
  if String.eqb namespace EmptyString then Ret (Err "push config: namespace required")
  else Exec (λ s, Ok (mkPush (delete namespace (configs s)) (dispatchers s))) (λ r,
         match r with
         | Ok _ => Ret (Ok tt)
         | Err e => Ret (Err ("push config: delete: " +:+ e))
         end).

(** The view without secrets. *)
Record RedactedConfig := mkRedacted {
  red_Namespace : string; red_NtfyBaseURL : string; HasNtfyAuthToken : bool; HasExpoAccessToken : bool;
  red_UpdatedAt : Z; red_UpdatedBy : string
}.

Definition Redacted (c : Config) : RedactedConfig :=
  mkRedacted (cfg_Namespace c) (NtfyBaseURL c) (negb (String.eqb (NtfyAuthToken c) EmptyString))
    (negb (String.eqb (ExpoAccessToken c) EmptyString)) (cfg_UpdatedAt c) (cfg_UpdatedBy c).

(** The fields of a PUT that are present. *)
Record PutConfigRequest := mkPutConfig {
  put_NtfyBaseURL : option string; put_NtfyAuthToken : option string; put_ExpoAccessToken : option string
}.

Inductive config_reply := config_error (code : Z) (message : string) | config_ok (c : RedactedConfig) | config_cleared.

Definition merge_put (ns caller : string) (now : Z) (existing : option Config) (b : PutConfigRequest) : Config :=
  mkConfig ns
    (default (from_option NtfyBaseURL EmptyString existing) (put_NtfyBaseURL b))
    (default (from_option NtfyAuthToken EmptyString existing) (put_NtfyAuthToken b))
    (default (from_option ExpoAccessToken EmptyString existing) (put_ExpoAccessToken b))
    now caller.

Definition invalidate_dispatcher (ns : string) : prog push_state (result string unit) :=
  Update (λ s, (tt, mkPush (configs s) (Invalidate ns (dispatchers s)))) Ret.

Context `{UnicodeCase} (Parse : string → option URL) (lookupIP : string → option (list IP)).

Definition rejected_url (b : PutConfigRequest) : bool :=
  match put_NtfyBaseURL b with
  | Some url => negb (String.eqb url EmptyString) && negb (is_ok (CheckBaseURLResolvable Parse lookupIP url))
  | None => false
  end.

Definition GetConfigHandler (available : bool) (method : string) (c : context) : prog push_state config_reply :=
  if negb available then Ret (config_error 503 "push config store not available on this gateway")
  else if negb (String.eqb method "GET") then Ret (config_error 405 "method not allowed")
  else
    let ns := resolveNamespace c in
    if String.eqb ns EmptyString then Ret (config_error 403 "namespace not resolved")
    else
      do! r := GetConfig ns in
      match r with
      | Err _ => Ret (config_error 500 "failed to load config")
      | Ok None => Ret (config_ok (mkRedacted ns EmptyString false false 0 EmptyString))
      | Ok (Some cfg) => Ret (config_ok (Redacted cfg))
      end.

Definition PutConfigHandler (available : bool) (nonce1 nonce2 : string) (now : Z) (method : string) (c : context)
    (body : option PutConfigRequest) : prog push_state config_reply :=
  if negb available then Ret (config_error 503 "push config store not available on this gateway")
  else if negb (String.eqb method "PUT") && negb (String.eqb method "POST")
  then Ret (config_error 405 "method not allowed (use PUT)")
  else
    let ns := resolveNamespace c in
    if String.eqb ns EmptyString then Ret (config_error 403 "namespace not resolved")
    else
      let caller := resolveAdminCaller c in
      if String.eqb caller EmptyString then Ret (config_error 401 "authentication required")
      else match body with
      | None => Ret (config_error 400 "invalid body: expected JSON")
      | Some b =>
          if rejected_url b then Ret (config_error 400 "ntfy_base_url rejected")
          else
            do! existing := GetConfig ns in
            match existing with
            | Err _ => Ret (config_error 500 "failed to load config")
            | Ok existing =>
                let cfg := merge_put ns caller now existing b in
                do! r := UpsertConfig nonce1 nonce2 now cfg in
                match r with
                | Err _ => Ret (config_error 500 "failed to save config")
                | Ok _ => do! _ := invalidate_dispatcher ns in Ret (config_ok (Redacted cfg))
                end
            end
      end.

Definition DeleteConfigHandler (available : bool) (method : string) (c : context) : prog push_state config_reply :=
  if negb available then Ret (config_error 503 "push config store not available on this gateway")
  else if negb (String.eqb method "DELETE") then Ret (config_error 405 "method not allowed")
  else
    let ns := resolveNamespace c in
    if String.eqb ns EmptyString then Ret (config_error 403 "namespace not resolved")
    else if String.eqb (resolveAdminCaller c) EmptyString then Ret (config_error 401 "authentication required")
    else
      do! r := DeleteConfig ns in
      match r with
      | Err _ => Ret (config_error 500 "failed to delete config")
      | Ok _ => do! _ := invalidate_dispatcher ns in Ret config_cleared
      end.

End Store.

(** ** The managers *)

Definition cacheEntryTTL : time := (30 * Second)%Z.
Definition dispatcherCacheCap : nat := 256.
Definition credentialsCacheCap : nat := 1024.

(** [dispatcherFor], its two critical sections at [t1] and [t2]; [built] is what
    the building in between gave. *)
Definition dispatcherFor (ttl t1 t2 : time) (namespace : string) (built : result build_error PushDispatcher)
    (c : lru_cache string PushDispatcher) : result build_error PushDispatcher * lru_cache string PushDispatcher :=
  match lookup_fresh ttl t1 namespace c with
  | (Some e, c') => (Ok (evalue e), c')
  | (None, c') =>
      match built with
      | Err e => (Err e, c')
      | Ok d =>
          let r := insert_checked (insert_making_room dispatcherCacheCap) ttl t2 namespace d t1 c' in
          (Ok r.1.1, r.2)
      end
  end.

(** [Manager.SendToUser]. *)
Definition manager_SendToUser (send : provider → PushMessage → option send_error) (ttl t1 t2 : time) (namespace : string)
    (built : result build_error PushDispatcher) (msg : PushMessage) (listed : result string (list PushDevice))
    (c : lru_cache string PushDispatcher)
    : (result build_error (result string (option send_error)) * list (provider * PushMessage)) * lru_cache string PushDispatcher :=
  match dispatcherFor ttl t1 t2 namespace built c with
  | (Err e, c') => ((Err e, []), c')
  | (Ok d, c') => let r := SendToUser send d msg listed in ((Ok r.1, r.2), c')
  end.

(** The credentials manager: a missing row is cached too. *)
Definition credentials_Get (ttl t1 t2 : time) (namespace prov : string) (stored : result string (option string))
    (c : lru_cache (string * string) (option string))
    : result string (option string) * lru_cache (string * string) (option string) :=
  if String.eqb namespace EmptyString then (Err "credentials: namespace required", c)
  else if String.eqb prov EmptyString then (Err "credentials: provider required", c)
  else match lookup_fresh ttl t1 (namespace, prov) c with
  | (Some e, c') => (Ok (evalue e), c')
  | (None, c') =>
      match stored with
      | Err e => (Err e, c')
      | Ok cred =>
          let r := insert_checked (insert_shrinking credentialsCacheCap) ttl t2 (namespace, prov) cred t1 c' in
          (Ok r.1.1, r.2)
      end
  end.

(** ** Sending *)

Section SendProofs.
Context (send : provider → PushMessage → option send_error).

Definition succeeded (rs : list DeviceSendResult) : nat := length (filter (λ r, Success r = true) rs).

Definition handed (d : PushDispatcher) (msg : PushMessage) (devs : list PushDevice) : list (provider * PushMessage) :=
  omap (λ dev, (λ p, (p, with_token (Token dev) msg)) <$> d !! dev_Provider dev) devs.

Lemma send_device_spec d msg dev :
  (send_device send d msg dev).2 = handed d msg [dev] ∧
  (res_DeviceID (send_device send d msg dev).1 = dev_DeviceID dev ∧ res_Provider (send_device send d msg dev).1 = dev_Provider dev) ∧
  (Success (send_device send d msg dev).1 = true ↔
     ∃ p, d !! dev_Provider dev = Some p ∧ send p (with_token (Token dev) msg) = None) ∧
  (Success (send_device send d msg dev).1 = true ↔ res_err (send_device send d msg dev).1 = None).
Proof.
  unfold send_device, handed. cbn. destruct (d !! dev_Provider dev) as [p |]; cbn; [| naive_solver].
  destruct (send p (with_token (Token dev) msg)) as [[] |] eqn:Hs; cbn; naive_solver.
Qed.

Lemma succeeded_app l1 l2 : succeeded (l1 ++ l2) = succeeded l1 + succeeded l2.
Proof. unfold succeeded. by rewrite filter_app, length_app. Qed.

Lemma send_all_spec d msg devs out :
  let r := send_all send d msg devs out in
  let new := (λ dev, (send_device send d msg dev).1) <$> devs in
  Results r.1 = Results out ++ new ∧ r.2 = handed d msg devs ∧
  DevicesAttempted r.1 = DevicesAttempted out ∧ DevicesSucceeded r.1 = DevicesSucceeded out + succeeded new ∧
  AllOk r.1 = AllOk out && forallb Success new.
Proof.
  revert out. induction devs as [| dev devs IH]; intros out; cbn zeta.
  { cbn. rewrite app_nil_r, andb_true_r. repeat split; lia. }
  cbn [send_all fst snd fmap list_fmap]. destruct (IH (mkDetailed (AllOk out && Success (send_device send d msg dev).1) (DevicesAttempted out)
    (if Success (send_device send d msg dev).1 then S (DevicesSucceeded out) else DevicesSucceeded out)
    (Results out ++ [(send_device send d msg dev).1]))) as (H1 & H2 & H3 & H4 & H5).
  rewrite H1, H2, H3, H4, H5. cbn [Results DevicesAttempted DevicesSucceeded AllOk forallb].
  destruct (send_device_spec d msg dev) as (Hh & _). rewrite Hh. split; [by rewrite <- app_assoc |]. split.
  { unfold handed. cbn. by destruct (d !! dev_Provider dev). }
  split; [done |]. split; [| by rewrite andb_assoc].
  unfold succeeded. rewrite filter_cons. destruct (Success (send_device send d msg dev).1); cbn [length]; case_decide; cbn [length]; (lia || done).
Qed.

Lemma first_error_None rs :
  (∀ r, r ∈ rs → Success r = false → res_err r ≠ None) →
  first_error rs = None ↔ forallb Success rs = true.
Proof.
  intros Hw. unfold first_error. induction rs as [| r rs IH]; [done |]. cbn.
  destruct (Success r) eqn:Hs; cbn; [apply IH; intros r' Hr'; apply Hw; by right |].
  destruct (res_err r) eqn:He; cbn; [done |]. exfalso. eapply Hw; [by left | done | done].
Qed.


(** The provider of a device is registered and takes the message. *)
Definition delivered (d : PushDispatcher) (msg : PushMessage) (dev : PushDevice) : bool :=
  match d !! dev_Provider dev with
  | Some p => bool_decide (send p (with_token (Token dev) msg) = None)
  | None => false
  end.

Lemma send_device_success d msg dev : Success (send_device send d msg dev).1 = delivered d msg dev.
Proof.
  unfold send_device, delivered. destruct (d !! dev_Provider dev) as [p |]; [| done].
  destruct (send p (with_token (Token dev) msg)) as [[] |]; done.
Qed.

Lemma succeeded_devices d msg devs :
  succeeded ((λ dev, (send_device send d msg dev).1) <$> devs) = length (filter (λ dev, delivered d msg dev = true) devs).
Proof.
  unfold succeeded. induction devs as [| dev devs IH]; [done |]. cbn [fmap list_fmap]. rewrite !filter_cons, send_device_success.
  case_decide; cbn [length]; [f_equal |]; exact IH.
Qed.

Lemma all_delivered d msg devs :
  forallb Success ((λ dev, (send_device send d msg dev).1) <$> devs) = true ↔
  length (filter (λ dev, delivered d msg dev = true) devs) = length devs.
Proof.
  rewrite <- succeeded_devices. unfold succeeded. set (rs := _ <$> devs).
  assert (length devs = length rs) as -> by (unfold rs; by rewrite length_fmap). clearbody rs.
  induction rs as [| r rs IH]; [done |]. cbn [forallb]. rewrite filter_cons.
  pose proof (length_filter (λ r, Success r = true) rs).
  destruct (Success r); case_decide; cbn [length andb]; try done; [rewrite IH; lia | split; [done | lia]].
Qed.

End SendProofs.

Lemma selected_spec msg devs :
  selected msg devs = filter (λ dev, TargetProvider msg = EmptyString ∧ (ExcludeProvider msg = EmptyString ∨ dev_Provider dev ≠ ExcludeProvider msg) ∨
                                     TargetProvider msg ≠ EmptyString ∧ dev_Provider dev = TargetProvider msg) devs.
Proof.
  unfold selected. destruct (String.eqb_spec (TargetProvider msg) EmptyString) as [Ht | Ht]; cbn [negb].
  - destruct (String.eqb_spec (ExcludeProvider msg) EmptyString) as [He | He]; cbn [negb].
    + symmetry. induction devs as [| dev devs IH]; [done |]. rewrite filter_cons, decide_True by (left; auto).
      f_equal. exact IH.
    + apply list_filter_iff. intros dev. naive_solver.
  - apply list_filter_iff. intros dev. naive_solver.
Qed.

(** Sending to a user.  Of the user's devices those are addressed that the
    message selects: the ones of its target provider when it names one, and
    otherwise all but those of the excluded provider.  Every one of them whose
    provider is registered is handed to that provider once, with its own token
    and in the order of the list, whatever the others answer, and nothing else
    is handed over; there is one result per device, in that order.  The counts are those of the
    devices and of the successes, the whole is reported as a success exactly when every
    device succeeded, and the short form reports no error in exactly that case. *)
Theorem send_spec send d msg devs :
  let devs' := filter (λ dev, TargetProvider msg = EmptyString ∧ (ExcludeProvider msg = EmptyString ∨ dev_Provider dev ≠ ExcludeProvider msg) ∨
                              TargetProvider msg ≠ EmptyString ∧ dev_Provider dev = TargetProvider msg) devs in
  ∃ res, SendToUserDetailed send d msg (Ok devs) = (Ok res, handed d msg devs') ∧
    (λ r, (res_DeviceID r, res_Provider r, Success r)) <$> Results res
      = (λ dev, (dev_DeviceID dev, dev_Provider dev, delivered send d msg dev)) <$> devs' ∧
    DevicesAttempted res = length devs' ∧
    DevicesSucceeded res = length (filter (λ dev, delivered send d msg dev = true) devs') ∧
    (AllOk res = true ↔ DevicesSucceeded res = DevicesAttempted res) ∧
    ((SendToUser send d msg (Ok devs)).1 = Ok None ↔ AllOk res = true).
Proof.
  intros devs'. unfold SendToUser, SendToUserDetailed. rewrite selected_spec. fold devs'. clearbody devs'.
  destruct (send_all_spec send d msg devs' (mkDetailed true (length devs') 0 [])) as (H1 & H2 & H3 & H4 & H5).
  destruct (send_all send d msg devs' _) as [res sent]. cbn [fst snd Results DevicesAttempted DevicesSucceeded AllOk app andb] in *.
  exists res. rewrite H1, H3, H4, H5, succeeded_devices. cbn [Nat.add]. split; [by subst |]. split.
  { rewrite <- list_fmap_compose. apply list_fmap_ext. intros i dev _. cbn [compose]. rewrite send_device_success.
    destruct (send_device_spec send d msg dev) as (_ & [-> ->] & _). done. }
  do 2 (split; [done |]). split; [apply all_delivered |].
  rewrite <- (first_error_None ((λ dev, (send_device send d msg dev).1) <$> devs')); [split; [by intros [=] | by intros ->] |].
  intros r (dev & -> & _)%list_elem_of_fmap Hs E. apply (send_device_spec send d msg dev) in E. congruence.
Qed.

(** Two devices, one without a provider. *)
Example send_example :
  let ntfy := Ntfy "https://ntfy.example" "t" false in
  let dev p tok := mkDevice tok "app" "anna" tok p tok EmptyString EmptyString 0 0 0 in
  (SendToUser (λ _ _, None) (Register ntfy ∅) (mkMessage EmptyString "Hi" "there" EmptyString 0 EmptyString EmptyString PriorityNormal EmptyString EmptyString EmptyString)
     (Ok [dev "ntfy" "a"; dev "apns" "b"]%string)).1 = Ok (Some (ErrUnknownProvider "apns")).
Proof. by vm_compute. Qed.

(** ** Building a dispatcher *)

Section BuildProofs.
Context `{UnicodeCase} (Parse : string → option URL).

Lemma Register_Some q (d : PushDispatcher) name p :
  Register q d !! name = Some p ↔ (Name q = name ∧ q = p) ∨ (Name q ≠ name ∧ d !! name = Some p).
Proof. apply (lookup_insert_Some (M := gmap string)). Qed.

(** At most one provider of a name. *)
Lemma factory_names fan c creds : NoDup (Name <$> factory Parse fan c creds).
Proof.
  unfold factory. destruct (ntfy_config Parse c creds) as [base token].
  repeat case_match; cbn; repeat (apply NoDup_cons; split; [set_solver |]); apply NoDup_nil_2.
Qed.

Lemma registered ps (d : PushDispatcher) name p :
  NoDup (Name <$> ps) → (∀ p, p ∈ ps → d !! Name p = None) →
  foldl (λ disp p, Register p disp) d ps !! name = Some p ↔ (p ∈ ps ∧ Name p = name) ∨ d !! name = Some p.
Proof.
  revert d. induction ps as [| q ps IH]; intros d Hnd Hd; cbn [foldl]; [set_solver |].
  cbn [fmap list_fmap] in Hnd. apply NoDup_cons in Hnd as [Hni Hnd]. rewrite IH; [| done |].
  - rewrite Register_Some. specialize (Hd q ltac:(by left)). rewrite elem_of_cons.
    split; [| intros [[[-> | Hp] <-] | Hl]; [by right; left | by left |]].
    + intros [Hp | [[<- <-] | [Hne Hl]]]; [naive_solver | by left; split; [left |] | by right].
    + right. right. split; [congruence | done].
  - intros p' Hp'. transitivity (d !! Name p'); [apply (lookup_insert_ne (M := gmap string)) | apply Hd; by right].
    intros E. apply Hni. rewrite E. by apply list_elem_of_fmap_2.
Qed.

(** What a built dispatcher holds. *)
Lemma buildDispatcher_lookup defs fan ns creds nc d name p :
  buildDispatcher Parse defs fan ns creds (Ok nc) = Ok d →
  d !! name = Some p ↔ p ∈ factory Parse fan (effective Parse defs ns nc) creds ∧ Name p = name.
Proof.
  unfold buildDispatcher. pose proof (factory_names fan (effective Parse defs ns nc) creds) as Hnd.
  destruct (factory _ _ _ _) as [| q ps]; [done |]. intros [= <-].
  change (foldl (λ disp p, Register p disp) (Register q ∅) ps) with (foldl (λ disp p, Register p disp) ∅ (q :: ps)).
  pose proof (lookup_empty (M := gmap string) (A := provider) name) as He.
  rewrite registered by (done || intros; apply (lookup_empty (M := gmap string))). naive_solver congruence.
Qed.

Lemma factory_ntfy fan c creds base token f :
  Ntfy base token f ∈ factory Parse fan c creds ↔
  ntfy_config Parse c creds = (base, token) ∧ base ≠ EmptyString ∧ f = bool_decide (fan = Some base).
Proof.
  unfold factory. destruct (ntfy_config Parse c creds) as [b t]. rewrite !elem_of_app. split.
  - intros [Hp | [Hp | Hp]]; [| repeat case_match; set_solver..].
    destruct (String.eqb_spec b EmptyString); [by apply elem_of_nil in Hp |].
    by apply list_elem_of_singleton in Hp as [= -> -> ->].
  - intros ([= -> ->] & Hne & ->). left. destruct (String.eqb_spec base EmptyString); [done |]. by left.
Qed.

(** A literal of a private network, or a number that stands for an address. *)
Definition internal_literal (url : string) : Prop :=
  ∃ u, Parse url = Some u ∧
    match ParseIP (Hostname u) with Some ip => ¬ public ip | None => looksLikeNumericHost (Hostname u) = true end.

Lemma IsInternalBaseURL_false url : IsInternalBaseURL Parse url = false ↔ ¬ internal_literal url.
Proof.
  unfold IsInternalBaseURL, internal_literal. destruct (Parse url) as [u |]; [| naive_solver].
  destruct (ParseIP (Hostname u)) as [ip |] eqn:Hip.
  - pose proof (literal_reserved _ _ Hip) as Hr. split.
    + intros Hf (u' & [= <-] & Hn). rewrite Hip in Hn. apply Hr in Hn. congruence.
    + intros Hn. apply not_true_is_false. intros Ht. apply Hn. exists u. rewrite Hip. split; [done | by apply Hr].
  - split; [intros Hf (u' & [= <-] & Hn); rewrite Hip in Hn; congruence |].
    intros Hn. apply not_true_is_false. intros Ht. apply Hn. exists u. by rewrite Hip.
Qed.

Lemma effective_base defs ns nc :
  NtfyBaseURL (effective Parse defs ns nc) = def_NtfyBaseURL defs ∨ ¬ internal_literal (NtfyBaseURL (effective Parse defs ns nc)).
Proof.
  unfold effective. destruct nc as [nc |]; cbn [NtfyBaseURL]; [| by left].
  destruct (String.eqb_spec (NtfyBaseURL nc) EmptyString); [by left |]. cbn [orb].
  destruct (IsInternalBaseURL Parse (NtfyBaseURL nc)) eqn:Hi; [by left |]. right. by apply IsInternalBaseURL_false.
Qed.

Lemma parsed_base raw ov :
  ParseCredentials Parse raw = Ok ov → BaseURL ov = EmptyString ∨ ¬ internal_literal (BaseURL ov).
Proof.
  unfold ParseCredentials, validateCredentials. destruct raw as [c |]; [| done].
  destruct (CheckBaseURLSyntax Parse (BaseURL c)) as [[] | e] eqn:Hs; [| done].
  repeat case_match; intros [= <-] || done.
  all: apply CheckBaseURLSyntax_spec in Hs as [-> | (u & Hu & _ & _ & Hip)]; [by left | right].
  all: intros (u' & Hu' & Hn); rewrite Hu in Hu'; injection Hu' as <-; destruct (ParseIP (Hostname u)); [by apply Hn | congruence].
Qed.

Lemma ntfy_config_base defs ns nc creds base token :
  ntfy_config Parse (effective Parse defs ns nc) creds = (base, token) →
  base = def_NtfyBaseURL defs ∨ ¬ internal_literal base.
Proof.
  unfold ntfy_config. pose proof (effective_base defs ns nc) as Hb.
  destruct (String.eqb _ _); [by intros [= <- <-] |].
  destruct (ntfy_stored creds) as [raw |]; [| by intros [= <- <-]].
  destruct (ParseCredentials Parse raw) as [ov | e] eqn:Hp; [| by intros [= <- <-]].
  destruct (String.eqb_spec (BaseURL ov) EmptyString); intros [= <- <-]; [done |].
  destruct (parsed_base _ _ Hp); [done | by right].
Qed.

End BuildProofs.

(** Where notifications are sent.  Whatever row and whatever credentials
    are stored for a namespace, a dispatcher that is built for it holds an ntfy
    provider only for a base URL that is the operator's own or whose host is neither a
    reserved address nor a number; the cluster's
    fan-out is used only for the operator's URL.  Every provider is registered
    under its own name, and Apple's only with the namespace's own credential. *)
Theorem ntfy_target_checked `{UnicodeCase} Parse defs fan ns creds nc d name p :
  fan = None ∨ fan = Some (def_NtfyBaseURL defs) →
  buildDispatcher Parse defs fan ns creds (Ok nc) = Ok d → d !! name = Some p →
  Name p = name ∧
  match p with
  | Ntfy base token fanout =>
      base ≠ EmptyString ∧ (base = def_NtfyBaseURL defs ∨ ¬ internal_literal Parse base) ∧
      (fanout = true → base = def_NtfyBaseURL defs)
  | Expo token => token = ExpoAccessToken (effective Parse defs ns nc) ∧ token ≠ EmptyString
  | Apns cred | ApnsVoIP cred => ns ≠ EmptyString ∧ apns_stored creds = Some cred
  end.
Proof.
  intros Hfan Hb Hl. apply (buildDispatcher_lookup _ _ _ _ _ _ _ _ _ Hb) in Hl as [Hin Hname]. split; [done |].
  assert (cfg_Namespace (effective Parse defs ns nc) = ns) as Hns by by destruct nc.
  destruct p as [base token f | token | cred | cred].
  { apply factory_ntfy in Hin as (Hc & Hne & ->). split; [done |]. split; [by eapply ntfy_config_base |].
    intros Hf%bool_decide_eq_true. destruct Hfan as [-> | ->]; [done |]. by injection Hf. }
  all: unfold factory in Hin; destruct (ntfy_config _ _ _); rewrite Hns in Hin; rewrite !elem_of_app in Hin.
  all: destruct Hin as [Hin | [Hin | Hin]];
    repeat match type of Hin with context [String.eqb ?a ?b] => destruct (String.eqb_spec a b) end;
    repeat case_match; set_solver.
Qed.

(** A URL whose host is the text itself. *)
Definition as_host (s : string) : option URL := Some (mkURL "https" s).

Definition no_creds : credential_view := mkCreds None None (λ _, true) (λ _, true).
Definition operator : Defaults := mkDefaults "push.example" "operator-token" EmptyString.

(** A stored override that points into the network of the operator is dropped. *)
Lemma ntfy_target_checked_witness :
  let row := mkConfig "app" "10.0.0.5" EmptyString EmptyString 0 EmptyString in
  ∃ d, buildDispatcher as_host operator (Some "push.example"%string) "app" no_creds (Ok (Some row)) = Ok d ∧
    d !! "ntfy"%string = Some (Ntfy "push.example" "operator-token" true) ∧
    ("push.example" = def_NtfyBaseURL operator ∨ ¬ internal_literal as_host "push.example")%string.
Proof.
  intros row. eexists. split; [by vm_compute |]. split; [by vm_compute |].
  eapply (ntfy_target_checked as_host operator (Some "push.example"%string) "app" no_creds (Some row) _ "ntfy"
    (Ntfy "push.example" "operator-token" true)); [by right | by vm_compute | by vm_compute].
Defined.

(** The server of a namespace is sent the operator's token when the namespace
    has set none of its own. *)
Theorem operator_token_follows `{UnicodeCase} Parse defs fan ns nc :
  let url := NtfyBaseURL nc in
  url ≠ EmptyString → ¬ internal_literal Parse url → NtfyAuthToken nc = EmptyString →
  ∃ d f, buildDispatcher Parse defs fan ns no_creds (Ok (Some nc)) = Ok d ∧
    d !! "ntfy"%string = Some (Ntfy url (def_NtfyAuthToken defs) f).
Proof.
  intros url Hne Hint Htok.
  assert (Ntfy url (def_NtfyAuthToken defs) (bool_decide (fan = Some url)) ∈ factory Parse fan (effective Parse defs ns (Some nc)) no_creds) as Hin.
  { apply factory_ntfy. split; [| done]. unfold ntfy_config. cbn [ntfy_stored no_creds].
    apply IsInternalBaseURL_false in Hint. unfold effective. cbn [cfg_Namespace NtfyBaseURL NtfyAuthToken].
    rewrite Htok. fold url. rewrite Hint. destruct (String.eqb_spec url EmptyString); [done |]. by case_match. }
  destruct (buildDispatcher Parse defs fan ns no_creds (Ok (Some nc))) as [d | e] eqn:Hb.
  - exists d, (bool_decide (fan = Some url)). split; [done |]. by apply (buildDispatcher_lookup _ _ _ _ _ _ _ _ _ Hb).
  - unfold buildDispatcher in Hb. destruct (factory _ _ _ _); [by apply elem_of_nil in Hin | done].
Qed.

(** A namespace that has only stored a credential can send, but is reported as
    not configured. *)
Theorem configured_misses_credentials `{UnicodeCase} Parse fan ns cred ok :
  ns ≠ EmptyString →
  let creds := mkCreds None (Some cred) (λ _, true) ok in
  IsConfigured (mkDefaults EmptyString EmptyString EmptyString) (Ok None) = false ∧
  ∃ d, buildDispatcher Parse (mkDefaults EmptyString EmptyString EmptyString) fan ns creds (Ok None) = Ok d ∧
    d !! "apns"%string = Some (Apns cred).
Proof.
  intros Hns creds. split; [done |].
  destruct (buildDispatcher Parse (mkDefaults EmptyString EmptyString EmptyString) fan ns creds (Ok None)) as [d | e] eqn:Hb.
  - exists d. split; [done |]. apply (buildDispatcher_lookup _ _ _ _ _ _ _ _ _ Hb). split; [| done].
    unfold factory, ntfy_config. cbn. destruct (String.eqb_spec ns EmptyString); [done |]. cbn. by left.
  - unfold buildDispatcher, factory, ntfy_config in Hb. cbn in Hb. destruct (String.eqb_spec ns EmptyString); done.
Qed.

(** ** The configuration of a namespace *)

Section StoreProofs.
Context `{TokenCrypto, UnicodeCase} (Parse : string → option URL) (lookupIP : string → option (list IP)).

Lemma decrypt_field_encrypt nonce v : decrypt_field (encrypt_field nonce v) = Some v.
Proof.
  unfold encrypt_field. destruct (String.eqb_spec v EmptyString) as [-> | Hne]; [done |].
  unfold decrypt_field. destruct (String.eqb_spec (Encrypt nonce v) EmptyString) as [E |]; [| apply Decrypt_Encrypt].
  by apply (f_equal String.length) in E.
Qed.

(** What is stored is read back. *)
Lemma config_of_row_of n1 n2 now ns c :
  cfg_Namespace c = ns → cfg_UpdatedAt c = now → config_of ns (row_of n1 n2 now c) = Ok c.
Proof.
  intros <- <-. unfold config_of, row_of. cbn. rewrite !decrypt_field_encrypt.
  destruct c as [ns url t1 t2 at_ by_]. cbn. by destruct (Z.eqb_spec at_ 0) as [-> |].
Qed.

Lemma run_GetConfig ns s :
  ns ≠ EmptyString →
  run (GetConfig ns) s = (match configs s !! ns with
                          | None => Ok None
                          | Some row => match config_of ns row with Ok c => Ok (Some c) | Err e => Err e end
                          end, s).
Proof. intros Hne. unfold GetConfig. destruct (String.eqb_spec ns EmptyString); [done |]. cbn. by case_match. Qed.

End StoreProofs.

(** A PUT of the configuration on its own.  The fields that the request has
    replace the stored ones and the others stay; the next reading gives exactly
    that, with the tokens decrypted; the rows of the other namespaces are the
    same; the cached dispatcher of the namespace is gone and those of the
    others are still there.  The answer shows no token. *)
Theorem put_config_merges `{TokenCrypto, UnicodeCase} Parse lookupIP n1 n2 now c b s existing :
  let ns := resolveNamespace c in
  ns ≠ EmptyString → cache_wf (dispatchers s) → rejected_url Parse lookupIP b = false →
  run (GetConfig ns) s = (Ok existing, s) →
  let cfg := merge_put ns (resolveAdminCaller c) now existing b in
  ∃ s', run (PutConfigHandler Parse lookupIP true n1 n2 now "PUT" c (Some b)) s = (config_ok (Redacted cfg), s') ∧
    run (GetConfig ns) s' = (Ok (Some cfg), s') ∧
    (∀ ns', ns' ≠ ns → configs s' !! ns' = configs s !! ns') ∧
    ∀ e, e ∈ lru (dispatchers s') ↔ e ∈ lru (dispatchers s) ∧ ekey e ≠ ns.
Proof.
  intros ns Hns Hwf Hrej Hget cfg.
  set (s1 := mkPush (<[ns := row_of n1 n2 now cfg]> (configs s)) (dispatchers s)).
  exists (mkPush (configs s1) (Invalidate ns (dispatchers s))). split; [| split; [| split]].
  - unfold PutConfigHandler. fold ns. change (String.eqb "PUT" "PUT") with true. cbn [negb andb].
    destruct (String.eqb_spec ns EmptyString) as [| Hne]; [done |].
    assert (resolveAdminCaller c ≠ EmptyString) as Hcaller.
    { unfold resolveAdminCaller. fold ns. destruct (String.eqb_spec (resolveCallerUserID c) EmptyString); [| done].
      destruct (String.eqb_spec ns EmptyString); done. }
    destruct (String.eqb_spec (resolveAdminCaller c) EmptyString); [done |]. rewrite Hrej.
    rewrite run_bind, Hget. cbn [fst snd]. fold cfg. unfold UpsertConfig. cbn [cfg_Namespace cfg merge_put].
    destruct (String.eqb_spec ns EmptyString); done.
  - rewrite run_GetConfig by done. cbn [configs s1]. rewrite lookup_insert_eq. by rewrite config_of_row_of.
  - intros ns' Hne. cbn [configs s1]. by rewrite lookup_insert_ne.
  - intros e. cbn [dispatchers]. split; [by apply Invalidate_spec |]. intros [He Hne]. unfold Invalidate.
    destruct (cache (dispatchers s) !! ns) as [h |] eqn:Hk; [| done]. apply list_elem_of_filter. split; [| done].
    intros <-. apply (wf_index _ Hwf) in Hk as (e' & He' & Hek & Heq). apply Hne. rewrite <- Hek. f_equal.
    eapply (NoDup_fmap_elem elem); [apply (wf_elems _ Hwf) | done | done | congruence].
Qed.

Definition owner_of (ns : string) : context := with_namespace ns emptyContext.
Definition put_url (url : string) : PutConfigRequest := mkPutConfig (Some url) None None.
Definition put_token (t : string) : PutConfigRequest := mkPutConfig None (Some t) None.
Definition no_config : push_state := mkPush ∅ empty_cache.

(** A token, and then a URL. *)
Lemma put_config_merges_witness :
  let put b := PutConfigHandler as_host (λ _, None) true "n1" "n2" 5 "PUT" (owner_of "app") (Some b) in
  let s := (run (put (put_token "secret")) no_config).2 in
  let cfg := mkConfig "app" "ntfy.app.example" "secret" EmptyString 5 "apikey:app" in
  ∃ s', run (put (put_url "ntfy.app.example")) s = (config_ok (Redacted cfg), s') ∧ run (GetConfig "app") s' = (Ok (Some cfg), s').
Proof.
  intros put s cfg.
  destruct (put_config_merges as_host (λ _, None) "n1" "n2" 5 (owner_of "app") (put_url "ntfy.app.example") s
    (Some (mkConfig "app" EmptyString "secret" EmptyString 5 "apikey:app"))) as (s' & H1 & H2 & _).
  - done.
  - apply empty_wf.
  - by vm_compute.
  - by vm_compute.
  - by exists s'.
Defined.

(** Two PUTs at the same time: the token of the one that ends first is lost
    although both were answered with success. *)
Theorem concurrent_puts_lose :
  let put b := PutConfigHandler as_host (λ _, None) true "n1" "n2" 5 "PUT" (owner_of "app") (Some b) in
  let '(r0, r1, s) := overtake 1 (put (put_token "secret")) (put (put_url "ntfy.app.example")) no_config in
  r0 = config_ok (mkRedacted "app" EmptyString true false 5 "apikey:app") ∧
  r1 = config_ok (mkRedacted "app" "ntfy.app.example" false false 5 "apikey:app") ∧
  (run (GetConfig "app") s).1 = Ok (Some (mkConfig "app" "ntfy.app.example" EmptyString EmptyString 5 "apikey:app")).
Proof. by vm_compute. Qed.

(** ** The cached dispatchers *)

Section Cached.
Context `{UnicodeCase} (Parse : string → option URL) (defs : Defaults) (fan : option string).
(** The row and the credentials of a namespace as a reading at some time finds
    them. *)
Context (creds_at : string → time → credential_view) (config_at : string → time → result string (option Config)).

Definition built_at (ns : string) (t : time) (d : PushDispatcher) : Prop :=
  buildDispatcher Parse defs fan ns (creds_at ns t) (config_at ns t) = Ok d.

(** The calls of [dispatcherFor] and [Invalidate], in any order. *)
Definition dispatcher_step := cache_step built_at cacheEntryTTL (insert_making_room dispatcherCacheCap).

(** A call without others in between is a path of the machine. *)
Lemma dispatcherFor_steps ns t2 (m : machine) :
  (clock m ≤ t2)%Z →
  let r := dispatcherFor cacheEntryTTL (clock m) t2 ns (buildDispatcher Parse defs fan ns (creds_at ns (clock m)) (config_at ns (clock m))) (store m) in
  ∃ m', rtc dispatcher_step m m' ∧ store m' = r.2 ∧
    match r.1 with
    | Ok d => ∃ read t, answers m' = answers m ++ [(ns, d, read, t)]
    | Err _ => answers m' = answers m
    end.
Proof.
  intros Ht. unfold dispatcherFor. destruct (lookup_fresh cacheEntryTTL (clock m) ns (store m)) as [[e |] c1] eqn:Hl; cbn [fst snd].
  { eexists. split; [apply rtc_once; by eapply hit_step |]. cbn. eauto. }
  set (m1 := mkMachine (clock m) c1 (missed m ++ [ns]) (built m) (answers m)).
  assert (dispatcher_step m m1) as H1 by by apply miss_step.
  destruct (buildDispatcher _ _ _ _ _ _) as [d | e] eqn:Hb; cbn [fst snd].
  2:{ exists m1. split; [by apply rtc_once |]. done. }
  assert (dispatcher_step m1 (mkMachine (clock m) c1 (delete (length (missed m)) (missed m ++ [ns])) (built m ++ [(ns, d, clock m)]) (answers m))) as H2.
  { apply (read_step _ _ _ m1); [cbn; by rewrite lookup_app_r, Nat.sub_diag by lia | exact Hb]. }
  destruct (insert_checked (insert_making_room dispatcherCacheCap) cacheEntryTTL t2 ns d (clock m) c1) as [[v' read'] c'] eqn:Hi.
  eexists. split.
  - eapply rtc_l; [exact H1 |]. eapply rtc_l; [exact H2 |]. eapply rtc_l; [eapply (clock_step _ _ _ _ t2); exact Ht |].
    apply rtc_once. eapply (insert_step _ _ _ _ (length (built m))); [cbn; by rewrite lookup_app_r, Nat.sub_diag by lia | exact Hi].
  - cbn. eauto.
Qed.

End Cached.

(** How old a dispatcher can be.  However the calls and invalidations
    interleave, at most 256 dispatchers are held; a call that returns one at [t]
    returns what was built from a row and credentials of its own namespace that were read
    at some earlier time, and that was put into the cache less than thirty
    seconds before [t].  When a namespace is invalidated while no call for it
    is between its reading and its insertion, no later call uses an earlier
    reading. *)
Theorem dispatchers_fresh `{UnicodeCase} Parse defs fan creds_at config_at t0 m :
  rtc (dispatcher_step Parse defs fan creds_at config_at) (machine_start t0) m →
  length (lru (store m)) ≤ 256 ∧
  (∀ ns d read t, (ns, d, read, t) ∈ answers m →
     buildDispatcher Parse defs fan ns (creds_at ns read) (config_at ns read) = Ok d ∧
     ∃ inserted, (read ≤ inserted ≤ t)%Z ∧ (t - inserted < 30 * Second)%Z) ∧
  ∀ ns m', (∀ d read, (ns, d, read) ∉ built m) →
    rtc (dispatcher_step Parse defs fan creds_at config_at)
      (mkMachine (clock m) (Invalidate ns (store m)) (missed m) (built m) (answers m)) m' →
    ∀ d read t, (ns, d, read, t) ∈ drop (length (answers m)) (answers m') → (clock m ≤ read)%Z.
Proof.
  intros Hr. assert (BoundedInsert dispatcherCacheCap (insert_making_room (K := string) (V := PushDispatcher) dispatcherCacheCap)) as Hb
    by (apply making_room_bounded; unfold dispatcherCacheCap; lia).
  assert (0 < cacheEntryTTL)%Z as Httl by done.
  pose proof (machine_reachable _ _ dispatcherCacheCap _ Httl _ _ Hr) as Hinv.
  split; [apply Hinv |]. split.
  - intros ns d read t Hin. destruct (m_answers _ _ _ _ Hinv _ _ _ _ Hin) as (ins & (H1 & H2 & H3) & H4). split; [done |]. by exists ins.
  - intros ns m' Hnone Hr' d read t Hin.
    by eapply (invalidate_renews _ _ dispatcherCacheCap _ Httl ns m m' Hinv Hnone Hr').
Qed.

(** The row of the namespace changes at time 5. *)
Definition changing (ns : string) (t : time) : result string (option Config) :=
  Ok (Some (mkConfig ns (if (t <? 5)%Z then "old.example" else "new.example") "t" EmptyString 0 EmptyString)).

Definition example_step := dispatcher_step as_host operator None (λ _ _, no_creds) changing.

Lemma dispatchers_fresh_witness :
  ∃ m, rtc example_step (machine_start 0) m ∧ length (answers m) = 1 ∧
    ∀ ns d read t, (ns, d, read, t) ∈ answers m →
      buildDispatcher as_host operator None ns no_creds (changing ns read) = Ok d ∧ ∃ ins, (read ≤ ins ≤ t)%Z ∧ (t - ins < 30 * Second)%Z.
Proof.
  destruct (dispatcherFor_steps as_host operator None (λ _ _, no_creds) changing "app" 3 (machine_start 0)) as (m & Hr & _ & Ha); [done |].
  exists m. split; [exact Hr |]. split.
  - match type of Ha with match ?r with _ => _ end => assert (is_ok r = true) as Hok by (by vm_compute); destruct r; [| done] end.
    destruct Ha as (read & t & ->). done.
  - apply (dispatchers_fresh as_host operator None (λ _ _, no_creds) changing 0 m Hr).
Defined.

Definition provider_of (name : string) (r : result build_error PushDispatcher) : option provider :=
  match r with Ok d => d !! name | Err _ => None end.

(** An invalidation that comes between the reading and the insertion has no
    effect: the old dispatcher is used, up to thirty seconds after it. *)
Theorem invalidation_overtaken :
  let old := Register (Ntfy "old.example" "t" false) ∅ in
  ∃ m m', rtc example_step (machine_start 0) m ∧ clock m = 6%Z ∧
    rtc example_step (mkMachine (clock m) (Invalidate "app"%string (store m)) (missed m) (built m) (answers m)) m' ∧
    ("app"%string, old, 0%Z, (30 * Second)%Z) ∈ drop (length (answers m)) (answers m') ∧
    provider_of "ntfy" (buildDispatcher as_host operator None "app" no_creds (changing "app" (clock m)))
      = Some (Ntfy "new.example" "t" false).
Proof.
  intros old. set (entry := mkEntry 0 "app"%string old 0 6). set (c := mkCache {[ "app"%string := 0 ]} [entry] 1).
  set (a1 := ("app"%string, old, 0%Z, 6%Z)). set (a2 := ("app"%string, old, 0%Z, (30 * Second)%Z)).
  exists (mkMachine 6 empty_cache [] [("app"%string, old, 0%Z)] []), (mkMachine (30 * Second) c [] [] [a1; a2]).
  split; [| split; [done |]; split; [| split]].
  - eapply rtc_l; [by apply (miss_step _ _ _ _ "app"%string) |].
    eapply rtc_l; [eapply (read_step _ _ _ _ 0 "app"%string old); by vm_compute |]. apply rtc_once. by apply clock_step.
  - apply (rtc_l _ _ (mkMachine 6 c [] [] [a1])); [by apply (insert_step _ _ _ (mkMachine 6 empty_cache [] [("app"%string, old, 0%Z)] []) 0 "app"%string old 0 old 0 c) |].
    apply (rtc_l _ _ (mkMachine (30 * Second) c [] [] [a1])); [by apply (clock_step _ _ _ (mkMachine 6 c [] [] [a1])) |].
    apply rtc_once, (hit_step _ _ _ (mkMachine (30 * Second) c [] [] [a1]) "app"%string entry c). reflexivity.
  - cbn. right. by left.
  - by vm_compute.
Qed.

(** What a gateway uses when another one stores a new credential at time 1: its
    own copy of the credential is used for a build after 29 seconds, and what
    was built for 29 seconds more. *)
Theorem old_credential_for_a_minute :
  let '(r0, creds0) := credentials_Get cacheEntryTTL 0 0 "app" "apns" (Ok (Some "old"%string)) empty_cache in
  let '(r1, creds1) := credentials_Get cacheEntryTTL (29 * Second) (29 * Second) "app" "apns" (Ok (Some "new"%string)) creds0 in
  let built v := buildDispatcher as_host operator None "app" (mkCreds None v (λ _, true) (λ _, true)) (Ok None) in
  let stored r := match r with Ok v => v | Err _ => None end in
  let '(d1, cache1) := dispatcherFor cacheEntryTTL (29 * Second) (29 * Second) "app" (built (stored r1)) empty_cache in
  let '(d2, cache2) := dispatcherFor cacheEntryTTL (58 * Second) (58 * Second) "app" (built (Some "new"%string)) cache1 in
  provider_of "apns" d2 = Some (Apns "old") ∧ provider_of "apns" (built (Some "new"%string)) = Some (Apns "new").
Proof. by vm_compute. Qed.
