(* ===== verification/FunctionRegistry.v ===== *)
(** * The registry of serverless functions ([core/pkg/serverless/registry.go])

    Functions and their environment are rows of the shared database; every
    gateway caches what it read for five seconds.  The state of a program is the
    two tables and the caches of one gateway. *)

From Stdlib Require Import ZArith Lia Ascii String.
From stdpp Require Import base tactics numbers list gmap strings pretty sorting.
From S2P Require Import Prelude GoStrings DbProg.

Local Open Scope go_scope.

Definition registryCacheTTL : time := (5 * Second)%Z.

Inductive FunctionStatus := FunctionStatusActive | FunctionStatusInactive.
#[global] Instance FunctionStatus_eq_dec : EqDecision FunctionStatus.
Proof. solve_decision. Defined.

(** The settings a function is deployed with, as they are stored. *)
Record settings := mkSettings {
  MemoryLimitMB : Z; TimeoutSeconds : Z; IsPublic : bool; RetryCount : Z; RetryDelaySeconds : Z; DLQTopic : string;
  WSPersistent : bool; WSIdleTimeoutSec : Z; WSMaxFrameBytes : Z; WSMaxInflightPerConn : Z; RawHTTPResponse : bool
}.

Record Function := mkFunction {
  ID : string; Name : string; Namespace : string; Version : Z; WASMCID : string; SourceCID : string;
  Settings : settings; Status : FunctionStatus; CreatedAt : time; UpdatedAt : time; CreatedBy : string
}.

Record FunctionDefinition := mkDefinition { def_Name : string; def_Namespace : string; def_Settings : settings; EnvVars : gmap string string }.

(** A row of [functions]; [source_cid] may be NULL. *)
Record functionRow := mkFunctionRow {
  row_id : string; row_name : string; row_namespace : string; row_version : Z; row_wasm_cid : string; row_source_cid : option string;
  row_settings : settings; row_status : FunctionStatus; row_created_at : time; row_updated_at : time; row_created_by : string
}.

(** A row of [function_env_vars] is the function, the key and the value. *)
Record registry := mkRegistry {
  functions : list functionRow;
  env_rows : list (string * string * string);
  fnCache : gmap string (Function * time);
  envCache : gmap string (gmap string string * time)
}.

Definition set_functions (fs : list functionRow) (s : registry) : registry := mkRegistry fs (env_rows s) (fnCache s) (envCache s).
Definition set_env_rows (es : list (string * string * string)) (s : registry) : registry := mkRegistry (functions s) es (fnCache s) (envCache s).

(** ** The caches *)

Definition NUL : string := String "000"%char EmptyString.

Definition fnCacheKey (namespace name : string) (version : Z) : string :=
  namespace +:+ NUL +:+ name +:+ NUL +:+ pretty version.

Definition fresh {A : Type} (now : time) (e : option (A * time)) : option A :=
  match e with
  | Some (v, at_) => if (registryCacheTTL <? now - at_)%Z then None else Some v
  | None => None
  end.

Definition cachedFn (now : time) (key : string) (s : registry) : option Function := fresh now (fnCache s !! key).
Definition storeFn (now : time) (key : string) (fn : Function) (s : registry) : registry :=
  mkRegistry (functions s) (env_rows s) (<[key := (fn, now)]> (fnCache s)) (envCache s).
Definition cachedEnv (now : time) (id : string) (s : registry) : option (gmap string string) := fresh now (envCache s !! id).
Definition storeEnv (now : time) (id : string) (env : gmap string string) (s : registry) : registry :=
  mkRegistry (functions s) (env_rows s) (fnCache s) (<[id := (env, now)]> (envCache s)).

Definition invalidateFn (namespace name : string) (s : registry) : registry :=
  let prefix := TrimSpace namespace +:+ NUL +:+ TrimSpace name +:+ NUL in
  mkRegistry (functions s) (env_rows s)
    (filter (λ kv : string * (Function * time), HasPrefix kv.1 prefix = false) (fnCache s)) (envCache s).

Definition invalidateEnv (id : string) (s : registry) : registry :=
  mkRegistry (functions s) (env_rows s) (fnCache s) (delete id (envCache s)).

(** ** Rows *)

Definition without_raw (st : settings) : settings :=
  mkSettings (MemoryLimitMB st) (TimeoutSeconds st) (IsPublic st) (RetryCount st) (RetryDelaySeconds st) (DLQTopic st)
    (WSPersistent st) (WSIdleTimeoutSec st) (WSMaxFrameBytes st) (WSMaxInflightPerConn st) false.

(** [raw]: the statement selects [raw_http_response]; otherwise the field has its
    zero value. *)
Definition rowToFunction (raw : bool) (r : functionRow) : Function :=
  mkFunction (row_id r) (row_name r) (row_namespace r) (row_version r) (row_wasm_cid r) (default EmptyString (row_source_cid r))
    (if raw then row_settings r else without_raw (row_settings r)) (row_status r) (row_created_at r) (row_updated_at r) (row_created_by r).

Definition named (namespace name : string) (r : functionRow) : Prop := row_namespace r = namespace ∧ row_name r = name.
#[global] Instance named_dec namespace name r : Decision (named namespace name r).
Proof. unfold named. apply _. Defined.

(** [ORDER BY version DESC LIMIT 1] *)
Definition newer (r : functionRow) (best : option functionRow) : option functionRow :=
  match best with
  | Some b => if (row_version r <? row_version b)%Z then Some b else Some r
  | None => Some r
  end.
Definition latest (rows : list functionRow) : option functionRow := foldr newer None rows.

Definition select_latest (namespace name : string) (s : registry) : option functionRow :=
  latest (filter (λ r, named namespace name r ∧ row_status r = FunctionStatusActive) (functions s)).
Definition select_any (namespace name : string) (s : registry) : option functionRow :=
  latest (filter (named namespace name) (functions s)).
Definition select_version (namespace name : string) (version : Z) (s : registry) : option functionRow :=
  head (filter (λ r, named namespace name r ∧ row_version r = version) (functions s)).

(** [INSERT OR REPLACE]: rows with the same id or the same name go. *)
Definition replaces (r x : functionRow) : Prop := row_id x = row_id r ∨ named (row_namespace r) (row_name r) x.
#[global] Instance replaces_dec r x : Decision (replaces r x).
Proof. unfold replaces. apply _. Defined.
Definition insert_or_replace (r : functionRow) (s : registry) : registry :=
  set_functions (filter (λ x, ¬ replaces r x) (functions s) ++ [r]) s.

Definition set_status (st : FunctionStatus) (now : time) (r : functionRow) : functionRow :=
  mkFunctionRow (row_id r) (row_name r) (row_namespace r) (row_version r) (row_wasm_cid r) (row_source_cid r) (row_settings r) st
    (row_created_at r) now (row_created_by r).

(** An [UPDATE] and the number of its rows. *)
Definition update_status (P : functionRow → Prop) `{!∀ r, Decision (P r)} (st : FunctionStatus) (now : time) (s : registry) : nat * registry :=
  (length (filter P (functions s)), set_functions ((λ r, if decide (P r) then set_status st now r else r) <$> functions s) s).

(** The key of [function_env_vars] is (function, key). *)
Definition insert_env (id key value : string) (s : registry) : result string registry :=
  if decide ((id, key) ∈ (env_rows s).*1) then Err "UNIQUE constraint failed"
  else Ok (set_env_rows (env_rows s ++ [(id, key, value)]) s).
Definition clear_env (id : string) (s : registry) : registry := set_env_rows (filter (λ e, e.1.1 ≠ id) (env_rows s)) s.
Definition select_env (id : string) (s : registry) : list (string * string) :=
  (λ e, (e.1.2, e.2)) <$> filter (λ e, e.1.1 = id) (env_rows s).

(** ** Operations *)

Inductive registry_error :=
| ValidationError (field : string)
| DeployError (name cause : string)
| ErrFunctionNotFound
| ErrVersionNotFound
| OtherFailure (message : string).

Definition getByNameInternal (namespace name : string) : prog registry (result registry_error (option Function)) :=
  Query (select_any (TrimSpace namespace) (TrimSpace name)) (λ r,
    match r with
    | Err e => Ret (Err (OtherFailure ("failed to query function: " +:+ e)))
    | Ok row => Ret (Ok (rowToFunction false <$> row))
    end).

(** [order]: the visit of the map. *)
Fixpoint insert_env_vars (id : string) (order : list (string * string)) : prog registry (result string unit) :=
  match order with
  | [] => Ret (Ok tt)
  | (key, value) :: order' =>
      Exec (insert_env id key value) (λ r,
        match r with
        | Ok _ => insert_env_vars id order'
        | Err e => Ret (Err ("failed to save env var: " +:+ e))
        end)
  end.

Definition saveEnvVars (id : string) (order : list (string * string)) : prog registry (result string unit) :=
  Exec (λ s, Ok (clear_env id s)) (λ r,
    match r with
    | Ok _ => insert_env_vars id order
    | Err e => Ret (Err ("failed to clear existing env vars: " +:+ e))
    end).

Definition with_defaults (st : settings) : settings :=
  mkSettings (if MemoryLimitMB st =? 0 then 64 else MemoryLimitMB st)%Z (if TimeoutSeconds st =? 0 then 30 else TimeoutSeconds st)%Z
    (IsPublic st) (RetryCount st) (if RetryDelaySeconds st =? 0 then 5 else RetryDelaySeconds st)%Z (DLQTopic st)
    (WSPersistent st) (WSIdleTimeoutSec st) (WSMaxFrameBytes st) (WSMaxInflightPerConn st) (RawHTTPResponse st).

(** [upload] is what storing and pinning the code gave, [now] the time and
    [uuid] the new id. *)
Definition Register (upload : result string string) (wasm_empty : bool) (uuid : string) (now : time) (fn : FunctionDefinition)
    (order : list (string * string)) : prog registry (result registry_error (option Function)) :=
  let name := TrimSpace (def_Name fn) in
  let namespace := TrimSpace (def_Namespace fn) in
  if String.eqb name EmptyString then Ret (Err (ValidationError "name"))
  else if String.eqb namespace EmptyString then Ret (Err (ValidationError "namespace"))
  else if wasm_empty then Ret (Err (ValidationError "wasmBytes"))
  else
    do! old := getByNameInternal namespace name in
    match old with
    | Err e => Ret (Err (DeployError name "query"))
    | Ok old =>
        match upload with
        | Err e => Ret (Err (DeployError name e))
        | Ok cid =>
            let id := from_option ID uuid old in
            let version := from_option (λ f, wrap64 (Version f + 1)) 1%Z old in
            let row := mkFunctionRow id name namespace version cid None (with_defaults (def_Settings fn)) FunctionStatusActive now now namespace in
            Exec (λ s, Ok (insert_or_replace row s)) (λ r,
              match r with
              | Err e => Ret (Err (DeployError name ("failed to register function: " +:+ e)))
              | Ok _ =>
                  do! saved := saveEnvVars id order in
                  match saved with
                  | Err e => Ret (Err (DeployError name e))
                  | Ok _ => Update (λ s, (tt, invalidateEnv id (invalidateFn namespace name s))) (λ _, Ret (Ok old))
                  end
              end)
        end
    end.

(** The cache is read at [t1] and written at [t2]. *)
Definition Get (t1 t2 : time) (namespace name : string) (version : Z) : prog registry (result registry_error Function) :=
  let namespace := TrimSpace namespace in
  let name := TrimSpace name in
  let key := fnCacheKey namespace name version in
  Update (λ s, (cachedFn t1 key s, s)) (λ hit,
    match hit with
    | Ok (Some fn) => Ret (Ok fn)
    | _ =>
        Query (if (version =? 0)%Z then select_latest namespace name else select_version namespace name version) (λ r,
          match r with
          | Err e => Ret (Err (OtherFailure ("failed to query function: " +:+ e)))
          | Ok None => Ret (Err (if (version =? 0)%Z then ErrFunctionNotFound else ErrVersionNotFound))
          | Ok (Some row) =>
              let fn := rowToFunction true row in
              Update (λ s, (tt, storeFn t2 key fn s)) (λ _, Ret (Ok fn))
          end)
    end).

Definition status_named (namespace name : string) (st : FunctionStatus) (now : time) : prog registry (result string nat) :=
  Update (update_status (named namespace name) st now) Ret.

Definition SetEnabled (now : time) (namespace name : string) (enabled : bool) : prog registry (result registry_error unit) :=
  let namespace := TrimSpace namespace in
  let name := TrimSpace name in
  if String.eqb namespace EmptyString || String.eqb name EmptyString then Ret (Err (OtherFailure "namespace and name required"))
  else
    do! r := status_named namespace name (if enabled then FunctionStatusActive else FunctionStatusInactive) now in
    match r with
    | Err e => Ret (Err (OtherFailure ("failed to set function enabled state: " +:+ e)))
    | Ok 0 => Ret (Err ErrFunctionNotFound)
    | Ok (S _) => Update (λ s, (tt, invalidateFn namespace name s)) (λ _, Ret (Ok tt))
    end.

Definition Delete (now : time) (namespace name : string) (version : Z) : prog registry (result registry_error unit) :=
  let namespace := TrimSpace namespace in
  let name := TrimSpace name in
  do! r := (if (version =? 0)%Z then status_named namespace name FunctionStatusInactive now
            else Update (update_status (λ r, named namespace name r ∧ row_version r = version) FunctionStatusInactive now) Ret) in
  match r with
  | Err e => Ret (Err (OtherFailure ("failed to delete function: " +:+ e)))
  | Ok 0 => Ret (Err (if (version =? 0)%Z then ErrFunctionNotFound else ErrVersionNotFound))
  | Ok (S _) => Update (λ s, (tt, invalidateFn namespace name s)) (λ _, Ret (Ok tt))
  end.

Definition env_of (rows : list (string * string)) : gmap string string := foldl (λ m kv, <[kv.1 := kv.2]> m) ∅ rows.

Definition GetEnvVars (t1 t2 : time) (id : string) : prog registry (result registry_error (gmap string string)) :=
  Update (λ s, (cachedEnv t1 id s, s)) (λ hit,
    match hit with
    | Ok (Some env) => Ret (Ok env)
    | _ =>
        Query (select_env id) (λ r,
          match r with
          | Err e => Ret (Err (OtherFailure ("failed to query env vars: " +:+ e)))
          | Ok rows => Update (λ s, (tt, storeEnv t2 id (env_of rows) s)) (λ _, Ret (Ok (env_of rows)))
          end)
    end).

Definition GetByID (id : string) : prog registry (result registry_error Function) :=
  Query (λ s, head (filter (λ r, row_id r = id) (functions s))) (λ r,
    match r with
    | Err e => Ret (Err (OtherFailure ("failed to query function: " +:+ e)))
    | Ok None => Ret (Err ErrFunctionNotFound)
    | Ok (Some row) => Ret (Ok (rowToFunction false row))
    end).

(** *** Listings *)

Definition version_ge (a b : functionRow) : Prop := (row_version b ≤ row_version a)%Z.
#[global] Instance version_ge_dec : RelDecision version_ge.
Proof. intros a b. unfold version_ge. apply _. Defined.
Definition name_le (a b : functionRow) : Prop := String.leb (row_name a) (row_name b) = true.
#[global] Instance name_le_dec : RelDecision name_le.
Proof. intros a b. unfold name_le. apply _. Defined.

(** The highest version among the active rows of a name. *)
Definition max_version (r : functionRow) (rows : list functionRow) : option Z :=
  row_version <$> latest (filter (λ x, named (row_namespace r) (row_name r) x ∧ row_status x = FunctionStatusActive) rows).

Definition List_ (namespace : string) : prog registry (result registry_error (list Function)) :=
  Query (λ s, merge_sort name_le
                (filter (λ r, row_namespace r = namespace ∧ max_version r (functions s) = Some (row_version r)) (functions s))) (λ r,
    match r with
    | Err e => Ret (Err (OtherFailure ("failed to list functions: " +:+ e)))
    | Ok rows => Ret (Ok (rowToFunction true <$> rows))
    end).

Definition ListVersions (namespace name : string) : prog registry (result registry_error (list Function)) :=
  Query (λ s, merge_sort version_ge (filter (named namespace name) (functions s))) (λ r,
    match r with
    | Err e => Ret (Err (OtherFailure ("failed to list versions: " +:+ e)))
    | Ok rows => Ret (Ok (rowToFunction false <$> rows))
    end).

(** *** The code of a function *)

Definition wasmFetchMaxAttempts : nat := 3.

(** [fetch i] is the answer to attempt [i]; [cancelled i] and [done i]: the
    caller gave up before or during the wait after it. *)
Fixpoint fetch_loop (fetch : nat → result string string) (cancelled done : nat → bool) (i remaining : nat) : option string :=
  match remaining with
  | O => None
  | S remaining' =>
      match fetch i with
      | Ok data => Some data
      | Err _ =>
          if cancelled i then None
          else if (0 <? remaining')%nat && done i then None
          else fetch_loop fetch cancelled done (S i) remaining'
      end
  end.

(** [Err None] is the empty id, [Err (Some _)] is [ErrWASMFetchTimeout]. *)
Definition GetWASMBytes (fetch : nat → result string string) (cancelled done : nat → bool) (wasmCID : string) : result (option string) string :=
  if String.eqb wasmCID EmptyString then Err None
  else match fetch_loop fetch cancelled done 1 wasmFetchMaxAttempts with
       | Some data => Ok data
       | None => Err (Some wasmCID)
       end.

(** [pin cid] succeeds or not; [cancelled] is the number of ids after which the
    caller gave up. *)
Fixpoint repinWASMCIDs (pin : string → bool) (cancelled : nat) (cids : list string) : nat :=
  match cids, cancelled with
  | [], _ | _, O => 0
  | cid :: cids', S n => (if pin cid then 1 else 0) + repinWASMCIDs pin n cids'
  end.

Definition RepinAllWASM (pin : string → bool) (cancelled : nat) : prog registry (result registry_error nat) :=
  Query (λ s, remove_dups (row_wasm_cid <$> filter (λ r, row_status r = FunctionStatusActive ∧ row_wasm_cid r ≠ EmptyString) (functions s))) (λ r,
    match r with
    | Err e => Ret (Err (OtherFailure ("failed to list function WASM CIDs: " +:+ e)))
    | Ok cids => Ret (Ok (repinWASMCIDs pin cancelled cids))
    end).

(** *** Logs *)

Definition maxLogRowsPerInsert : nat := 100.

Fixpoint chunks_from {A : Type} (fuel : nat) (entries : list A) (size : nat) : list (list A) :=
  match fuel with
  | O => []
  | S fuel' => match entries with [] => [] | _ => take size entries :: chunks_from fuel' (drop size entries) size end
  end.

Definition chunkLogEntries {A : Type} (entries : list A) (size : nat) : list (list A) := chunks_from (length entries) entries size.

(** ** The tables *)

Record reg_wf (s : registry) : Prop := {
  wf_ids : NoDup (row_id <$> functions s);
  wf_names : NoDup ((λ r, (row_namespace r, row_name r)) <$> functions s);
  wf_env : NoDup (env_rows s).*1
}.

Lemma latest_None rows : latest rows = None ↔ rows = [].
Proof.
  destruct rows as [| r rows]; [done |]. split; [| done]. cbn. unfold newer. destruct (foldr _ _ _); [by case_match | done].
Qed.

Lemma latest_Some rows r : latest rows = Some r → r ∈ rows ∧ ∀ x, x ∈ rows → (row_version x ≤ row_version r)%Z.
Proof.
  revert r. induction rows as [| a rows IH]; intros r; [done |]. cbn. fold (latest rows). unfold newer.
  destruct (latest rows) as [b |] eqn:Hl.
  - destruct (IH b eq_refl) as [Hb Hmax]. destruct (Z.ltb_spec (row_version a) (row_version b)) as [Hlt | Hge]; intros [= <-].
    + split; [by right |]. intros x [-> | Hx]%elem_of_cons; [lia | auto].
    + split; [by left |]. intros x [-> | Hx%Hmax]%elem_of_cons; lia.
  - apply latest_None in Hl as ->. intros [= <-]. split; [by left |]. by intros x [-> | Hx%elem_of_nil]%elem_of_cons.
Qed.

(** At most one row has a name. *)
Lemma named_unique s namespace name r r' :
  reg_wf s → r ∈ functions s → r' ∈ functions s → named namespace name r → named namespace name r' → r = r'.
Proof.
  intros Hwf Hr Hr' [H1 H2] [H3 H4].
  eapply (NoDup_fmap_elem (λ r, (row_namespace r, row_name r))); [apply (wf_names _ Hwf) | done | done | congruence].
Qed.

Lemma latest_unique (P : functionRow → Prop) `{!∀ r, Decision (P r)} s r :
  r ∈ functions s → P r → (∀ x, x ∈ functions s → P x → x = r) → latest (filter P (functions s)) = Some r.
Proof.
  intros Hr HP Hu. destruct (latest (filter P (functions s))) as [x |] eqn:Hl.
  - apply latest_Some in Hl as [[HPx Hx]%list_elem_of_filter _]. f_equal. by apply Hu.
  - apply latest_None in Hl. assert (r ∈ filter P (functions s)) as Hin by by apply list_elem_of_filter.
    rewrite Hl in Hin. by apply elem_of_nil in Hin.
Qed.

Lemma latest_absent (P : functionRow → Prop) `{!∀ r, Decision (P r)} s :
  (∀ x, x ∈ functions s → ¬ P x) → latest (filter P (functions s)) = None.
Proof.
  intros Hn. apply latest_None. destruct (filter P (functions s)) as [| x l] eqn:E; [done |].
  assert (x ∈ filter P (functions s)) as [HP Hx]%list_elem_of_filter by (rewrite E; by left). by destruct (Hn x Hx).
Qed.

Lemma head_unique (P : functionRow → Prop) `{!∀ r, Decision (P r)} s r :
  r ∈ functions s → P r → (∀ x, x ∈ functions s → P x → x = r) → head (filter P (functions s)) = Some r.
Proof.
  intros Hr HP Hu. assert (r ∈ filter P (functions s)) as Hin by by apply list_elem_of_filter.
  destruct (filter P (functions s)) as [| x l] eqn:E; [by apply elem_of_nil in Hin |]. cbn. f_equal.
  assert (x ∈ filter P (functions s)) as [HPx Hx]%list_elem_of_filter by (rewrite E; by left). by apply Hu.
Qed.

(** ** The statements keep the tables *)

Lemma NoDup_filter_snoc {A : Type} `{EqDecision A} (f : functionRow → A) (P : functionRow → Prop) `{!∀ r, Decision (P r)} rows r :
  NoDup (f <$> rows) → (∀ x, x ∈ rows → P x → f x ≠ f r) → NoDup (f <$> (filter P rows ++ [r])).
Proof.
  intros Hnd Hne. rewrite fmap_app. apply NoDup_app. split; [| split].
  - eapply sublist_NoDup; [exact Hnd |]. apply fmap_sublist, sublist_filter.
  - intros y (x & -> & [HP Hx]%list_elem_of_filter)%list_elem_of_fmap E%list_elem_of_singleton. by eapply Hne.
  - apply NoDup_singleton.
Qed.

Lemma insert_or_replace_wf r s : reg_wf s → reg_wf (insert_or_replace r s).
Proof.
  intros [Hi Hn He]. split; cbn; [| | done].
  - apply NoDup_filter_snoc; [done |]. intros x _ Hx E. apply Hx. by left.
  - apply NoDup_filter_snoc; [done |]. intros x _ Hx [= E1 E2]. apply Hx. right. done.
Qed.

Lemma update_status_wf P `{!∀ r, Decision (P r)} st now s : reg_wf s → reg_wf (update_status P st now s).2.
Proof.
  intros [Hi Hn He]. split; cbn; [| | done]; rewrite <- list_fmap_compose.
  - erewrite list_fmap_ext; [exact Hi |]. intros i x _. cbn. by case_decide.
  - erewrite list_fmap_ext; [exact Hn |]. intros i x _. cbn. by case_decide.
Qed.

Lemma insert_env_wf id key value s s' : reg_wf s → insert_env id key value s = Ok s' → reg_wf s'.
Proof.
  intros [Hi Hn He]. unfold insert_env. case_decide as Hd; [done |]. intros [= <-]. split; cbn; [done | done |].
  rewrite fmap_app. apply NoDup_app. split; [done |]. split; [| apply NoDup_singleton].
  intros k Hk E%list_elem_of_singleton. subst k. done.
Qed.

Lemma clear_env_wf id s : reg_wf s → reg_wf (clear_env id s).
Proof.
  intros [Hi Hn He]. split; cbn; [done | done |]. eapply sublist_NoDup; [exact He |]. apply fmap_sublist, sublist_filter.
Qed.

(** The caches do not matter. *)
Lemma wf_tables s s' : functions s' = functions s → env_rows s' = env_rows s → reg_wf s → reg_wf s'.
Proof. intros E1 E2 [H1 H2 H3]. split; by rewrite ?E1, ?E2. Qed.

(** ** Alone *)

Lemma elem_env_fst (es : list (string * string * string)) id key value :
  (id, key, value) ∈ es → (id, key) ∈ es.*1.
Proof. intros He. apply list_elem_of_fmap. by exists (id, key, value). Qed.

(** The environment is written key by key. *)
Lemma run_insert_env_vars id order s :
  NoDup order.*1 → (∀ key value, key ∈ order.*1 → (id, key, value) ∉ env_rows s) →
  run (insert_env_vars id order) s = (Ok tt, set_env_rows (env_rows s ++ ((λ kv, (id, kv.1, kv.2)) <$> order)) s).
Proof.
  revert s. induction order as [| [key value] order IH]; intros s Hnd Hfree; cbn [insert_env_vars].
  { cbn. rewrite app_nil_r. by destruct s. }
  cbn [fmap list_fmap fst] in Hnd. apply NoDup_cons in Hnd as [Hni Hnd]. cbn [run]. unfold insert_env. rewrite decide_False.
  - cbn [fst snd]. rewrite IH; [| done |].
    + cbn. by rewrite <- app_assoc.
    + intros key' value' Hk. cbn. intros [Hin | [= -> _]%list_elem_of_singleton]%elem_of_app; [| done].
      eapply (Hfree key' value'); [by right | done].
  - intros ([[id' key'] value'] & [= <- <-] & Hin)%list_elem_of_fmap. eapply (Hfree key value'); [by left | done].
Qed.

Lemma run_saveEnvVars id order s :
  NoDup order.*1 →
  run (saveEnvVars id order) s
    = (Ok tt, set_env_rows (filter (λ e, e.1.1 ≠ id) (env_rows s) ++ ((λ kv, (id, kv.1, kv.2)) <$> order)) s).
Proof.
  intros Hnd. unfold saveEnvVars. cbn [run]. rewrite run_insert_env_vars; [done | done |].
  intros key value _ [Hne _]%list_elem_of_filter. done.
Qed.

Lemma env_of_lookup rows k v : NoDup rows.*1 → env_of rows !! k = Some v ↔ (k, v) ∈ rows.
Proof.
  unfold env_of. assert (∀ m : gmap string string, NoDup rows.*1 → (∀ k', k' ∈ rows.*1 → m !! k' = None) →
    foldl (λ m kv, <[kv.1 := kv.2]> m) m rows !! k = Some v ↔ (k, v) ∈ rows ∨ m !! k = Some v) as Hgen.
  { induction rows as [| [k1 v1] rows IH]; intros m Hnd Hm; cbn [foldl]; [set_solver |].
    cbn [fmap list_fmap fst] in Hnd, Hm. apply NoDup_cons in Hnd as [Hni Hnd]. rewrite IH; [| done |].
    - rewrite lookup_insert_Some. rewrite elem_of_cons. specialize (Hm k1 ltac:(by left)). cbn [fst snd].
      split; [intros [? | [[-> ->] | [? ?]]]; auto |].
      intros [[[= -> ->] | ?] | Hk]; auto. right. right. split; [congruence | done].
    - intros k' Hk'. cbn [fst]. rewrite lookup_insert_ne; [apply Hm; by right |]. intros ->. done. }
  intros Hnd. rewrite Hgen; [| done | by intros; apply lookup_empty]. rewrite lookup_empty. naive_solver.
Qed.

Lemma invalidated_None now namespace name version s :
  cachedFn now (fnCacheKey (TrimSpace namespace) (TrimSpace name) version) (invalidateFn namespace name s) = None.
Proof.
  unfold cachedFn, invalidateFn, fresh. cbn [fnCache]. set (key := fnCacheKey _ _ _).
  destruct (filter _ (fnCache s) !! key) as [[fn at_] |] eqn:Hk; [| done].
  apply map_lookup_filter_Some in Hk as [_ Hp]. cbn [fst] in Hp. unfold key, fnCacheKey in Hp.
  rewrite (proj2 (HasPrefix_spec _ _)) in Hp; [done |]. exists (pretty version). by rewrite !str_app_assoc.
Qed.

(** Reading without a cached entry. *)
Lemma run_Get_read t1 t2 namespace name version row s :
  cachedFn t1 (fnCacheKey (TrimSpace namespace) (TrimSpace name) version) s = None →
  (if (version =? 0)%Z then select_latest (TrimSpace namespace) (TrimSpace name) s
   else select_version (TrimSpace namespace) (TrimSpace name) version s) = row →
  (run (Get t1 t2 namespace name version) s).1 =
    match row with
    | Some row => Ok (rowToFunction true row)
    | None => Err (if (version =? 0)%Z then ErrFunctionNotFound else ErrVersionNotFound)
    end.
Proof.
  intros Hc Hrow. unfold Get. cbn [run fst snd]. rewrite Hc. cbn [run].
  destruct (version =? 0)%Z; rewrite Hrow; by destruct row.
Qed.

(** The row of a deployment. *)
Definition deployed_row (cid uuid : string) (now : time) (fn : FunctionDefinition) (old : option functionRow) : functionRow :=
  mkFunctionRow (from_option row_id uuid old) (TrimSpace (def_Name fn)) (TrimSpace (def_Namespace fn))
    (from_option (λ r, wrap64 (row_version r + 1)) 1%Z old) cid None (with_defaults (def_Settings fn)) FunctionStatusActive now now
    (TrimSpace (def_Namespace fn)).

Definition after_register (cid uuid : string) (now : time) (fn : FunctionDefinition) (order : list (string * string)) (s : registry) : registry :=
  let row := deployed_row cid uuid now fn (select_any (TrimSpace (def_Namespace fn)) (TrimSpace (def_Name fn)) s) in
  let s1 := insert_or_replace row s in
  let s2 := set_env_rows (filter (λ e, e.1.1 ≠ row_id row) (env_rows s1) ++ ((λ kv, (row_id row, kv.1, kv.2)) <$> order)) s1 in
  invalidateEnv (row_id row) (invalidateFn (TrimSpace (def_Namespace fn)) (TrimSpace (def_Name fn)) s2).

Lemma run_Register cid uuid now fn order s :
  TrimSpace (def_Name fn) ≠ EmptyString → TrimSpace (def_Namespace fn) ≠ EmptyString → NoDup order.*1 →
  run (Register (Ok cid) false uuid now fn order) s =
    (Ok (rowToFunction false <$> select_any (TrimSpace (def_Namespace fn)) (TrimSpace (def_Name fn)) s),
     after_register cid uuid now fn order s).
Proof.
  intros Hname Hns Hnd. unfold Register. destruct (String.eqb_spec (TrimSpace (def_Name fn)) EmptyString); [done |].
  destruct (String.eqb_spec (TrimSpace (def_Namespace fn)) EmptyString); [done |]. rewrite run_bind. unfold getByNameInternal. cbn [run fst snd].
  rewrite !TrimSpace_idemp. unfold after_register, deployed_row.
  destruct (select_any (TrimSpace (def_Namespace fn)) (TrimSpace (def_Name fn)) s) as [old |]; cbn [fmap option_fmap option_map from_option];
    cbn [run]; rewrite run_bind, run_saveEnvVars by done; done.
Qed.

Lemma select_inserted id (order : list (string * string)) :
  (λ e : string * string * string, (e.1.2, e.2)) <$> filter (λ e, e.1.1 = id) ((λ kv, (id, kv.1, kv.2)) <$> order) = order.
Proof.
  induction order as [| [k v] l IH]; [done |]. cbn [fmap list_fmap]. rewrite filter_cons, decide_True by done.
  cbn [fmap list_fmap fst snd]. f_equal. exact IH.
Qed.

Section Deployed.
Context (cid uuid : string) (now : time) (fn : FunctionDefinition) (order : list (string * string)) (s : registry).
Context (Hwf : reg_wf s) (Horder : order ≡ₚ map_to_list (EnvVars fn)) (Huuid : ∀ r, r ∈ functions s → row_id r ≠ uuid).
Let ns := TrimSpace (def_Namespace fn).
Let name := TrimSpace (def_Name fn).
Let row := deployed_row cid uuid now fn (select_any ns name s).
Let s' := after_register cid uuid now fn order s.

Lemma order_NoDup : NoDup order.*1.
Proof. rewrite Horder. apply NoDup_fst_map_to_list. Qed.

(** Only the row of the name goes. *)
Lemma replaces_named r : r ∈ functions s → replaces row r ↔ named ns name r.
Proof.
  intros Hr. split; [| by right]. intros [Hid | Hn]; [| done]. unfold row, deployed_row in Hid. cbn [row_id] in Hid.
  destruct (select_any ns name s) as [o |] eqn:Ho; cbn [from_option] in Hid; [| by destruct (Huuid r)].
  apply latest_Some in Ho as [[Hn Hin]%list_elem_of_filter _].
  assert (r = o) as -> by (eapply (NoDup_fmap_elem row_id); [apply (wf_ids _ Hwf) | done..]). done.
Qed.

Lemma deployed_functions r : r ∈ functions s' ↔ r = row ∨ (r ∈ functions s ∧ ¬ named ns name r).
Proof.
  change (functions s') with (filter (λ x, ¬ replaces row x) (functions s) ++ [row]).
  rewrite elem_of_app, list_elem_of_filter, list_elem_of_singleton. split.
  - intros [[Hn Hr] | ->]; [| by left]. right. split; [done |]. intros Hx. apply Hn. by apply replaces_named.
  - intros [-> | [Hr Hn]]; [by right |]. left. split; [| done]. intros Hx. apply Hn. by apply replaces_named in Hx.
Qed.

Lemma deployed_named r : r ∈ functions s' → named ns name r → r = row.
Proof. intros [-> | [_ Hn]]%deployed_functions Hx; done. Qed.

Lemma row_named : named ns name row.
Proof. done. Qed.

Lemma deployed_env e : e ∈ env_rows s' ↔ (e ∈ env_rows s ∧ e.1.1 ≠ row_id row) ∨ ∃ kv, kv ∈ order ∧ e = (row_id row, kv.1, kv.2).
Proof.
  change (env_rows s') with (filter (λ e, e.1.1 ≠ row_id row) (env_rows s) ++ ((λ kv, (row_id row, kv.1, kv.2)) <$> order)).
  rewrite elem_of_app, list_elem_of_filter, list_elem_of_fmap. naive_solver.
Qed.

Lemma deployed_wf : reg_wf s'.
Proof.
  apply (wf_tables (set_env_rows (env_rows s') (insert_or_replace row s))); [done | done |].
  destruct (insert_or_replace_wf row s Hwf) as [H1 H2 H3]. split; [done | done |].
  change (env_rows s') with (filter (λ e, e.1.1 ≠ row_id row) (env_rows s) ++ ((λ kv, (row_id row, kv.1, kv.2)) <$> order)).
  cbn [env_rows set_env_rows]. rewrite fmap_app. apply NoDup_app. split; [| split].
  - eapply sublist_NoDup; [exact (wf_env _ Hwf) |]. apply fmap_sublist, sublist_filter.
  - intros k (e & -> & [Hne _]%list_elem_of_filter)%list_elem_of_fmap (e' & E & (kv & -> & _)%list_elem_of_fmap)%list_elem_of_fmap.
    apply Hne. by rewrite E.
  - rewrite <- list_fmap_compose. change (compose fst _) with ((λ k : string, (row_id row, k)) ∘ fst (A := string) (B := string)).
    rewrite list_fmap_compose. apply NoDup_fmap_2; [by intros ?? [=] | apply order_NoDup].
Qed.

Lemma deployed_select_env : env_of (select_env (row_id row) s') = EnvVars fn.
Proof.
  assert (select_env (row_id row) s' = order) as ->.
  { unfold select_env. change (env_rows s') with (filter (λ e, e.1.1 ≠ row_id row) (env_rows s) ++ ((λ kv, (row_id row, kv.1, kv.2)) <$> order)).
    rewrite filter_app, fmap_app.
    assert (filter (λ e : string * string * string, e.1.1 = row_id row) (filter (λ e, e.1.1 ≠ row_id row) (env_rows s)) = []) as ->.
    { induction (env_rows s) as [| e es IH]; [done |]. rewrite filter_cons. case_decide; [| exact IH]. rewrite filter_cons, decide_False by done. exact IH. }
    apply select_inserted. }
  apply map_eq. intros k. apply option_eq. intros v. rewrite env_of_lookup by apply order_NoDup.
  rewrite Horder. apply elem_of_map_to_list.
Qed.

End Deployed.

(** C14: deploying and reading back.  Alone, a deployment whose code was stored
    succeeds and returns what was deployed under the name before.  From then on, at any time
    and whatever this gateway had cached, the function is read with
    the code and settings of the deployment (defaults filled in), the id
    it had before or a new one, and the next version; its environment is the
    one of the deployment; no other version can be read.  The rows and the environment of all
    other functions are as they were. *)
Theorem deploy_roundtrip cid uuid now fn order s :
  let ns := TrimSpace (def_Namespace fn) in
  let name := TrimSpace (def_Name fn) in
  let old := select_any ns name s in
  let row := deployed_row cid uuid now fn old in
  reg_wf s → name ≠ EmptyString → ns ≠ EmptyString → order ≡ₚ map_to_list (EnvVars fn) →
  (∀ r, r ∈ functions s → row_id r ≠ uuid) →
  ∃ s', run (Register (Ok cid) false uuid now fn order) s = (Ok (rowToFunction false <$> old), s') ∧ reg_wf s' ∧
    (∀ t1 t2 v, (run (Get t1 t2 (def_Namespace fn) (def_Name fn) v) s').1
       = if decide (v = 0 ∨ v = row_version row)%Z then Ok (rowToFunction true row) else Err ErrVersionNotFound) ∧
    (∀ t1 t2, (run (GetEnvVars t1 t2 (row_id row)) s').1 = Ok (EnvVars fn)) ∧
    (∀ r, ¬ named ns name r → r ∈ functions s' ↔ r ∈ functions s) ∧
    ∀ e, e.1.1 ≠ row_id row → e ∈ env_rows s' ↔ e ∈ env_rows s.
Proof.
  intros ns name old row Hwf Hname Hns Horder Huuid. exists (after_register cid uuid now fn order s).
  pose proof (deployed_functions cid uuid now fn order s Hwf Huuid) as Hf.
  pose proof (deployed_named cid uuid now fn order s Hwf Huuid) as Hu.
  split; [apply run_Register; [done | done | by eapply order_NoDup] |]. split; [by apply deployed_wf |]. split; [| split; [| split]].
  - intros t1 t2 v. erewrite run_Get_read; [| | reflexivity].
    2:{ rewrite <- (TrimSpace_idemp (def_Namespace fn)), <- (TrimSpace_idemp (def_Name fn)). apply invalidated_None. }
    destruct (Z.eqb_spec v 0) as [-> | Hv].
    + rewrite decide_True by by left. unfold select_latest. rewrite (latest_unique _ _ row); [done | | done |].
      * apply Hf. by left.
      * intros x Hx [Hn _]. by apply Hu.
    + case_decide as Hd.
      * destruct Hd as [? | ->]; [done |]. unfold select_version. rewrite (head_unique _ _ row); [done | | done |].
        -- apply Hf. by left.
        -- intros x Hx [Hn _]. by apply Hu.
      * unfold select_version. destruct (head _) as [x |] eqn:Hh; [| done]. exfalso. apply head_Some_elem_of in Hh.
        apply list_elem_of_filter in Hh as [[Hn Hver] Hx]. apply Hd. right. rewrite <- Hver. f_equal. by apply Hu.
  - intros t1 t2. unfold GetEnvVars. cbn [run fst snd]. unfold cachedEnv. cbn [envCache after_register invalidateEnv].
    rewrite lookup_delete_eq. cbn [fresh run fst snd]. f_equal. by apply deployed_select_env.
  - intros r Hn. rewrite Hf. split; [intros [-> | [Hr _]]; [| done] | by right]. by destruct Hn.
  - intros e He. rewrite (deployed_env cid uuid now fn order s). split; [intros [[Hin _] | (kv & _ & ->)]; [done | by destruct He] | by left].
Qed.

Definition hello_settings : settings := mkSettings 0 0 false 0 0 EmptyString false 0 0 0 true.
Definition hello (env : gmap string string) : FunctionDefinition := mkDefinition " hello " "app" hello_settings env.
Definition no_functions : registry := mkRegistry [] [] ∅ ∅.

Lemma no_functions_wf : reg_wf no_functions.
Proof. split; apply NoDup_nil_2. Qed.

Lemma deploy_roundtrip_witness :
  ∃ s', run (Register (Ok "cid1"%string) false "id1" 7 (hello {[ "A"%string := "1"%string ]}) [("A", "1")]%string) no_functions = (Ok None, s') ∧
    (run (GetEnvVars 8 9 "id1") s').1 = Ok {[ "A"%string := "1"%string ]}.
Proof.
  destruct (deploy_roundtrip "cid1" "id1" 7 (hello {[ "A"%string := "1"%string ]}) [("A", "1")]%string no_functions)
    as (s' & Hrun & _ & _ & Henv & _).
  - apply no_functions_wf.
  - done.
  - done.
  - cbn [EnvVars hello]. by rewrite map_to_list_singleton.
  - by intros r ?%elem_of_nil.
  - exists s'. split; [exact Hrun |]. apply (Henv 8%Z 9%Z).
Defined.

(** ** All gateways *)

Inductive reg_op :=
| OpRegister (upload : result string string) (wasm_empty : bool) (uuid : string) (now : time) (fn : FunctionDefinition) (order : list (string * string))
| OpGet (t1 t2 : time) (namespace name : string) (version : Z)
| OpSetEnabled (now : time) (namespace name : string) (enabled : bool)
| OpDelete (now : time) (namespace name : string) (version : Z)
| OpGetEnv (t1 t2 : time) (id : string)
| OpGetByID (id : string)
| OpList (namespace : string)
| OpListVersions (namespace name : string)
| OpRepin (pin : string → bool) (cancelled : nat).

Inductive reg_reply :=
| RepFunction (r : result registry_error Function)
| RepOld (r : result registry_error (option Function))
| RepUnit (r : result registry_error unit)
| RepEnv (r : result registry_error (gmap string string))
| RepList (r : result registry_error (list Function))
| RepCount (r : result registry_error nat).

Definition reg_prog (op : reg_op) : prog registry reg_reply :=
  match op with
  | OpRegister upload wasm_empty uuid now fn order => do! r := Register upload wasm_empty uuid now fn order in Ret (RepOld r)
  | OpGet t1 t2 namespace name version => do! r := Get t1 t2 namespace name version in Ret (RepFunction r)
  | OpSetEnabled now namespace name enabled => do! r := SetEnabled now namespace name enabled in Ret (RepUnit r)
  | OpDelete now namespace name version => do! r := Delete now namespace name version in Ret (RepUnit r)
  | OpGetEnv t1 t2 id => do! r := GetEnvVars t1 t2 id in Ret (RepEnv r)
  | OpGetByID id => do! r := GetByID id in Ret (RepFunction r)
  | OpList namespace => do! r := List_ namespace in Ret (RepList r)
  | OpListVersions namespace name => do! r := ListVersions namespace name in Ret (RepList r)
  | OpRepin pin cancelled => do! r := RepinAllWASM pin cancelled in Ret (RepCount r)
  end.

(** What is known of a function that was read: it is, or was, a row, and a
    reading without a version gives an active one. *)
Definition served (active : bool) (namespace name : string) (fn : Function) : Prop :=
  Namespace fn = namespace ∧ Name fn = name ∧ (active = true → Status fn = FunctionStatusActive).

Definition nul_free (s : string) : bool := negb (str_mem "000"%char s).

Record reg_inv (s : registry) : Prop := {
  inv_wf : reg_wf s;
  inv_cached : ∀ namespace name version fn at_, nul_free namespace = true → nul_free name = true →
    fnCache s !! fnCacheKey namespace name version = Some (fn, at_) →
    served (bool_decide (version = 0)%Z) namespace name fn
}.

(** *** Keys *)

Lemma cut_at_NUL a b r r' :
  nul_free a = true → nul_free b = true → a +:+ NUL +:+ r = b +:+ NUL +:+ r' → a = b ∧ r = r'.
Proof.
  unfold nul_free. revert b. induction a as [| x a IH]; intros [| y b] Ha Hb; cbn [String.append].
  - by intros [= ->].
  - intros [= <- _]. by cbn in Hb.
  - intros [= -> _]. by cbn in Ha.
  - intros [= -> E]. cbn [str_mem] in Ha, Hb. apply negb_true_iff, orb_false_iff in Ha as [_ Ha]. apply negb_true_iff, orb_false_iff in Hb as [_ Hb].
    destruct (IH b) as [-> ->]; [by rewrite Ha | by rewrite Hb | done | done].
Qed.

Lemma fnCacheKey_inj ns name v ns' name' v' :
  nul_free ns = true → nul_free name = true → nul_free ns' = true → nul_free name' = true →
  fnCacheKey ns name v = fnCacheKey ns' name' v' → ns = ns' ∧ name = name' ∧ v = v'.
Proof.
  intros H1 H2 H3 H4 [-> E]%cut_at_NUL; [| done | done]. apply cut_at_NUL in E as [-> E]; [| done | done].
  by apply (inj pretty) in E.
Qed.

Lemma nul_free_TrimSpace s : nul_free s = true → nul_free (TrimSpace s) = true.
Proof. unfold nul_free. by rewrite TrimSpace_mem by (repeat constructor). Qed.

(** *** The statements keep the invariant *)

Definition anywhere (_ _ : registry) : Prop := True.
#[global] Instance anywhere_pre : PreOrder anywhere.
Proof. by split. Qed.

(** What a program knew before stays known. *)
Lemma upholds_known {A : Type} (P : Prop) (K : registry → Prop) (p : prog registry A) :
  upholds reg_inv (λ _, True) p → (∀ d, reg_inv d → K d → P) → keeps reg_inv anywhere (λ _ _, P) K p.
Proof.
  revert K. induction p as [a | B q k IH | w k IH | B w k IH]; intros K; cbn.
  - intros _ HK d. apply HK.
  - intros [H1 H2] HK. split; [| intros e; by apply IH]. intros d0 Hd0. apply IH; [by apply H1 |]. intros d Hd [Hk _]. by eapply HK.
  - intros [H1 H2] HK. split; [intros d d' Hd _ Hw; split; [eauto | done] |]. split; [| intros e; by apply IH].
    apply IH; [done |]. intros d _ (d0 & d1 & Hd0 & Hk & _). by eapply HK.
  - intros [H1 H2] HK. split; [intros d Hd _; split; [eauto | done] |]. split; [| intros e; by apply IH].
    intros b. apply IH; [done |]. intros d _ (d0 & Hd0 & Hk & _). by eapply HK.
Qed.

Lemma upholds_keeps {A : Type} (K : registry → Prop) (p : prog registry A) :
  upholds reg_inv (λ _, True) p → keeps reg_inv anywhere (λ _ _, True) K p.
Proof. intros Hp. by apply upholds_known. Qed.

(** Only the tables change, or the cache shrinks. *)
Lemma inv_shrink s s' : reg_wf s' → fnCache s' ⊆ fnCache s → reg_inv s → reg_inv s'.
Proof.
  intros Hwf Hsub [_ Hc]. split; [done |]. intros ns name v fn at_ H1 H2 Hk. eapply (Hc ns name v fn at_); [done | done |].
  by eapply lookup_weaken.
Qed.

Lemma invalidateFn_inv ns name s : reg_inv s → reg_inv (invalidateFn ns name s).
Proof.
  intros Hs. apply (inv_shrink s); [| apply map_filter_subseteq | done]. by apply (wf_tables s); [| | apply Hs].
Qed.

Lemma invalidateEnv_inv id s : reg_inv s → reg_inv (invalidateEnv id s).
Proof. intros Hs. apply (inv_shrink s); [| done | done]. by apply (wf_tables s); [| | apply Hs]. Qed.

Lemma status_inv P `{!∀ r, Decision (P r)} st now s : reg_inv s → reg_inv (update_status P st now s).2.
Proof. intros Hs. apply (inv_shrink s); [apply update_status_wf, Hs | done | done]. Qed.

Lemma insert_env_vars_upholds id order : upholds reg_inv (λ _, True) (insert_env_vars id order).
Proof.
  induction order as [| [k v] order IH]; cbn [insert_env_vars upholds]; [done |]. split; [| by intros [[] | e]].
  intros s s' Hs Hi. apply (inv_shrink s); [by eapply insert_env_wf; [apply Hs |] | | done].
  unfold insert_env in Hi. case_decide; [done |]. by injection Hi as <-.
Qed.

Lemma saveEnvVars_upholds id order : upholds reg_inv (λ _, True) (saveEnvVars id order).
Proof.
  unfold saveEnvVars. cbn [upholds]. split; [| intros [[] | e]; [apply insert_env_vars_upholds | done]].
  intros s s' Hs [= <-]. apply (inv_shrink s); [apply clear_env_wf, Hs | done | done].
Qed.

Lemma Register_upholds upload wasm_empty uuid now fn order : upholds reg_inv (λ _, True) (Register upload wasm_empty uuid now fn order).
Proof.
  unfold Register. do 3 (case_match; [done |]). cbn [getByNameInternal prog_bind upholds]. split; [| done]. intros s0 _.
  destruct upload as [cid | e]; [| done]. cbn [upholds prog_bind]. split.
  { intros s s' Hs [= <-]. apply (inv_shrink s); [apply insert_or_replace_wf, Hs | done | done]. }
  intros [[] | e]; [| done]. eapply (upholds_bind _ (λ _, True)); [apply saveEnvVars_upholds |].
  intros [[] | e] _; [| done]. cbn. split; [| done]. intros s Hs. by apply invalidateEnv_inv, invalidateFn_inv.
Qed.

Lemma status_then_upholds (w : registry → nat * registry) (f : string → registry_error) (e0 : registry_error) ns name :
  (∀ s, reg_inv s → reg_inv (w s).2) →
  upholds reg_inv (λ _, True)
    (do! r := Update w Ret in
     match r with
     | Err e => Ret (Err (f e))
     | Ok 0 => Ret (Err e0)
     | Ok (S _) => Update (λ s, (tt, invalidateFn ns name s)) (λ _, Ret (Ok tt))
     end).
Proof.
  intros Hw. cbn. split; [done |]. intros [[| n] | e]; [done | | done]. cbn. split; [| done]. intros s. apply invalidateFn_inv.
Qed.

Lemma Get_keeps t1 t2 namespace name version :
  nul_free namespace = true → nul_free name = true →
  keeps reg_inv anywhere
    (λ r _, ∀ fn, r = Ok fn → served (bool_decide (version = 0)%Z) (TrimSpace namespace) (TrimSpace name) fn) (λ _, True)
    (Get t1 t2 namespace name version).
Proof.
  intros Hns%nul_free_TrimSpace Hname%nul_free_TrimSpace. unfold Get. cbn zeta.
  set (ns := TrimSpace namespace) in *. set (nm := TrimSpace name) in *.
  assert (∀ K, keeps reg_inv anywhere (λ r _, ∀ fn, r = Ok fn → served (bool_decide (version = 0)%Z) ns nm fn) K
    (Query (if (version =? 0)%Z then select_latest ns nm else select_version ns nm version) (λ r,
          match r with
          | Err e => Ret (Err (OtherFailure ("failed to query function: " +:+ e)))
          | Ok None => Ret (Err (if (version =? 0)%Z then ErrFunctionNotFound else ErrVersionNotFound))
          | Ok (Some row) => Update (λ s, (tt, storeFn t2 (fnCacheKey ns nm version) (rowToFunction true row) s)) (λ _, Ret (Ok (rowToFunction true row)))
          end))) as Hread.
  { intros K. cbn [keeps]. split; [| done]. intros s0 Hs0.
    destruct ((if (version =? 0)%Z then select_latest ns nm else select_version ns nm version) s0) as [row |] eqn:Hrow; [| done].
    assert (served (bool_decide (version = 0)%Z) ns nm (rowToFunction true row)) as Hsv.
    { revert Hrow. unfold served. destruct (Z.eqb_spec version 0) as [-> | Hne].
      - intros [[[[H1 H2] H3] _]%list_elem_of_filter _]%latest_Some. done.
      - intros [[[H1 H2] _] _]%head_Some_elem_of%list_elem_of_filter. rewrite bool_decide_eq_false_2 by done. done. }
    cbn [keeps]. split; [| split; [intros [] d _ _ fn [= <-]; exact Hsv | intros e d _ _ fn [= <-]; exact Hsv]].
    intros s Hs _. split; [| done]. cbn [snd]. split; [by apply (wf_tables s); [| | apply Hs] |].
    intros ns' name' v' fn at_ H1 H2. cbn [fnCache storeFn]. intros [[E [= <- <-]] | [_ Hk]]%lookup_insert_Some.
    - apply fnCacheKey_inj in E as (<- & <- & <-); done.
    - by eapply (inv_cached _ Hs). }
  cbn [keeps]. split; [by intros s Hs |]. split; [| intros e; apply Hread].
  intros [fn |]; [| apply Hread]. cbn [keeps]. intros d Hd (d0 & Hd0 & _ & Hc & _) fn' [= <-].
  cbn [fst] in Hc. unfold cachedFn, fresh in Hc.
  destruct (fnCache d0 !! fnCacheKey ns nm version) as [[f at_] |] eqn:Hk; [| done]. case_match; [done |]. injection Hc as <-.
  by eapply (inv_cached _ Hd0).
Qed.

(** A program that only reads. *)
Fixpoint only_reads {D A : Type} (p : prog D A) : Prop :=
  match p with
  | Ret _ => True
  | Query _ k => ∀ r, only_reads (k r)
  | Exec _ _ | Update _ _ => False
  end.

Lemma only_reads_upholds {A : Type} (p : prog registry A) : only_reads p → upholds reg_inv (λ _, True) p.
Proof. induction p as [a | B q k IH | w k IH | B w k IH]; cbn; [done | | done | done]. intros Hk. split; intros; by apply IH. Qed.

Lemma GetEnvVars_upholds t1 t2 id : upholds reg_inv (λ _, True) (GetEnvVars t1 t2 id).
Proof.
  unfold GetEnvVars. cbn [upholds]. split; [by intros s |]. intros r.
  assert (∀ rows : list (string * string), upholds reg_inv (λ _ : result registry_error (gmap string string), True)
    (Update (λ s, (tt, storeEnv t2 id (env_of rows) s)) (λ _, Ret (Ok (env_of rows))))) as Hst.
  { intros rows. cbn [upholds]. split; [| done]. intros s Hs. apply (inv_shrink s); [| done | done]. by apply (wf_tables s); [| | apply Hs]. }
  destruct r as [[env |] | e]; cbn [upholds]; [done | |]; (split; [intros; apply Hst | done]).
Qed.

Lemma reg_reads op :
  match op with OpGetByID _ | OpList _ | OpListVersions _ _ | OpRepin _ _ => only_reads (reg_prog op) | _ => True end.
Proof. destruct op; cbn; try done; intros [x | e]; cbn; try done. by destruct x. Qed.

(** Names of a request. *)
Definition plain_names (op : reg_op) : Prop :=
  match op with OpGet _ _ namespace name _ => nul_free namespace = true ∧ nul_free name = true | _ => True end.

(** What an answer says. *)
Definition reg_post (op : reg_op) (a : reg_reply) (_ : registry) : Prop :=
  match op with
  | OpGet _ _ namespace name version =>
      ∀ fn, a = RepFunction (Ok fn) → served (bool_decide (version = 0)%Z) (TrimSpace namespace) (TrimSpace name) fn
  | _ => True
  end.

Lemma upholds_reply {A : Type} (f : A → reg_reply) (p : prog registry A) :
  upholds reg_inv (λ _, True) p → upholds reg_inv (λ _, True) (prog_bind p (λ a, Ret (f a))).
Proof. intros Hp. by eapply (upholds_bind _ (λ _, True)). Qed.

Lemma reg_prog_keeps op : plain_names op → keeps reg_inv anywhere (reg_post op) (λ _, True) (reg_prog op).
Proof.
  destruct op as [upload wasm_empty uuid now fn order | t1 t2 ns name v | now ns name enabled | now ns name v | t1 t2 id | id | ns | ns name
    | pin c] eqn:Hop; intros Hn.
  2:{ eapply keeps_bind; [apply Get_keeps; apply Hn |]. intros r. cbn [keeps]. intros d _ Hr fn [= ->]. by apply Hr. }
  all: apply upholds_keeps; cbn [reg_prog].
  - apply upholds_reply, Register_upholds.
  - apply upholds_reply. unfold SetEnabled. case_match; [done |]. apply status_then_upholds. intros s. apply status_inv.
  - apply upholds_reply. unfold Delete. case_match; apply status_then_upholds; intros s; apply status_inv.
  - apply upholds_reply, GetEnvVars_upholds.
  - apply only_reads_upholds, (reg_reads (OpGetByID id)).
  - apply only_reads_upholds, (reg_reads (OpList ns)).
  - apply only_reads_upholds, (reg_reads (OpListVersions ns name)).
  - apply only_reads_upholds, (reg_reads (OpRepin pin c)).
Qed.

Lemma no_functions_inv : reg_inv no_functions.
Proof. split; [apply no_functions_wf |]. intros ns name v fn at_ _ _. cbn [fnCache no_functions]. by rewrite lookup_empty. Qed.

(** A deployment, and then a reading of the same name. *)
Definition deploy_hello : reg_op := OpRegister (Ok "cid1"%string) false "id1" 7 (hello ∅) [].
Definition read_hello : reg_op := OpGet 8 9 "app" "hello" 0.

(** ** Enabling and disabling, alone *)

Lemma run_SetEnabled now namespace name enabled s :
  TrimSpace namespace ≠ EmptyString → TrimSpace name ≠ EmptyString →
  run (SetEnabled now namespace name enabled) s =
    let st := if enabled then FunctionStatusActive else FunctionStatusInactive in
    match update_status (named (TrimSpace namespace) (TrimSpace name)) st now s with
    | (O, s') => (Err ErrFunctionNotFound, s')
    | (S _, s') => (Ok tt, invalidateFn (TrimSpace namespace) (TrimSpace name) s')
    end.
Proof.
  intros Hns Hname. unfold SetEnabled. destruct (String.eqb_spec (TrimSpace namespace) EmptyString); [done |].
  destruct (String.eqb_spec (TrimSpace name) EmptyString); [done |]. cbn [orb]. rewrite run_bind. unfold status_named. cbn [run fst snd].
  destruct (update_status _ _ _ s) as [count s'] eqn:E. cbn [fst snd]. by destruct count.
Qed.

Lemma update_status_rows P `{!∀ r, Decision (P r)} st now s r :
  r ∈ functions (update_status P st now s).2 ↔ ∃ r0, r0 ∈ functions s ∧ r = if decide (P r0) then set_status st now r0 else r0.
Proof. cbn. rewrite list_elem_of_fmap. naive_solver. Qed.

Lemma filter_nonempty (P : functionRow → Prop) `{!∀ r, Decision (P r)} rows r : r ∈ rows → P r → ∃ n, length (filter P rows) = S n.
Proof.
  intros Hr HP. assert (r ∈ filter P rows) as Hin by by apply list_elem_of_filter.
  destruct (filter P rows) as [| x l]; [by apply elem_of_nil in Hin |]. by eexists.
Qed.

(** A switched function.  Alone, switching a deployed function off or on
    succeeds and changes its status and the time of its update, and nothing else in the tables.
    From then on, whatever the gateway had cached, reading it without a
    version says that it is not found when it is off and gives it when it is
    on; reading the version it has gives it in both cases. *)
Lemma switch_row (now : time) namespace name (enabled : bool) s r :
  let ns := TrimSpace namespace in
  let nm := TrimSpace name in
  let r' := set_status (if enabled then FunctionStatusActive else FunctionStatusInactive) now r in
  reg_wf s → ns ≠ EmptyString → nm ≠ EmptyString → r ∈ functions s → named ns nm r → row_version r ≠ 0%Z →
  ∃ s', run (SetEnabled now namespace name enabled) s = (Ok tt, s') ∧ reg_wf s' ∧
    (∀ t1 t2, (run (Get t1 t2 namespace name 0) s').1 = if enabled then Ok (rowToFunction true r') else Err ErrFunctionNotFound) ∧
    (∀ t1 t2, (run (Get t1 t2 namespace name (row_version r)) s').1 = Ok (rowToFunction true r')) ∧
    r' ∈ functions s' ∧ env_rows s' = env_rows s ∧
    ∀ x, ¬ named ns nm x → x ∈ functions s' ↔ x ∈ functions s.
Proof.
  intros ns nm r' Hwf Hns Hnm Hr Hn Hv.
  set (st := if enabled then FunctionStatusActive else FunctionStatusInactive) in *.
  set (s1 := (update_status (named ns nm) st now s).2). exists (invalidateFn ns nm s1).
  assert (∀ x, x ∈ functions s1 → named ns nm x → x = r') as Hu.
  { intros x (x0 & Hx0 & ->)%update_status_rows Hnx. assert (named ns nm x0) as Hn0 by (case_decide; done).
    rewrite decide_True by done. by rewrite (named_unique s ns nm x0 r Hwf Hx0 Hr Hn0 Hn). }
  assert (r' ∈ functions s1) as Hin by (apply update_status_rows; exists r; by rewrite decide_True by done).
  assert (∀ t v, cachedFn t (fnCacheKey ns nm v) (invalidateFn ns nm s1) = None) as Hc.
  { intros t v. pose proof (invalidated_None t namespace name v s1) as H. unfold invalidateFn in *.
    unfold ns, nm. rewrite !TrimSpace_idemp. exact H. }
  split; [| split; [| split; [| split; [| split; [| split]]]]].
  - rewrite run_SetEnabled by done. cbn zeta. fold ns nm st. destruct (filter_nonempty (named ns nm) _ r Hr Hn) as [n Hlen].
    unfold update_status at 1. by rewrite Hlen.
  - apply (wf_tables s1); [done | done |]. by apply update_status_wf.
  - intros t1 t2. erewrite run_Get_read; [| apply Hc | reflexivity]. cbn [Z.eqb]. unfold select_latest.
    change (functions (invalidateFn ns nm s1)) with (functions s1). destruct enabled.
    + by rewrite (latest_unique _ s1 r'); [| done | done | intros x Hx [Hnx _]; by apply Hu].
    + rewrite latest_absent; [done |]. intros x Hx [Hnx Hst]. by rewrite (Hu x Hx Hnx) in Hst.
  - intros t1 t2. erewrite run_Get_read; [| apply Hc | reflexivity]. rewrite (proj2 (Z.eqb_neq _ _) Hv). unfold select_version.
    change (functions (invalidateFn ns nm s1)) with (functions s1).
    by rewrite (head_unique _ s1 r'); [| done | done | intros x Hx [Hnx _]; by apply Hu].
  - done.
  - done.
  - intros x Hnx. change (functions (invalidateFn ns nm s1)) with (functions s1). unfold s1. rewrite update_status_rows. split.
    + intros (x0 & Hx0 & ->). case_decide; done.
    + intros Hx. exists x. by rewrite decide_False.
Qed.

(** Deleting all versions of a deployed function switches it off. *)
Lemma run_Delete_all now namespace name s r :
  TrimSpace namespace ≠ EmptyString → TrimSpace name ≠ EmptyString → r ∈ functions s → named (TrimSpace namespace) (TrimSpace name) r →
  run (Delete now namespace name 0) s = run (SetEnabled now namespace name false) s.
Proof.
  intros Hns Hnm Hr Hn. rewrite run_SetEnabled by done. unfold Delete, status_named. cbn [Z.eqb]. rewrite run_bind. cbn [run fst snd].
  destruct (filter_nonempty (named (TrimSpace namespace) (TrimSpace name)) _ r Hr Hn) as [n Hlen].
  unfold update_status. cbn [fst snd]. by rewrite Hlen.
Qed.



Definition deployed : registry := (run (reg_prog deploy_hello) no_functions).2.
Definition hello_row : functionRow := deployed_row "cid1" "id1" 7 (hello ∅) None.

Lemma deployed_wf_hello : reg_wf deployed.
Proof. split; cbn; [apply NoDup_singleton.. | apply NoDup_nil_2]. Qed.

Lemma switch_row_witness :
  ∃ s', run (SetEnabled 20 "app" "hello" false) deployed = (Ok tt, s') ∧ (run (Get 21 22 "app" "hello" 0) s').1 = Err ErrFunctionNotFound.
Proof.
  destruct (switch_row 20 "app" "hello" false deployed hello_row) as (s' & Hrun & _ & Hget & _).
  - apply deployed_wf_hello.
  - done.
  - done.
  - left.
  - done.
  - done.
  - exists s'. split; [exact Hrun |]. apply (Hget 21 22)%Z.
Defined.

Lemma deployed_inv : reg_inv deployed.
Proof.
  split; [apply deployed_wf_hello |]. intros ns name v fn at_ _ _. assert (fnCache deployed = ∅) as -> by reflexivity. by rewrite lookup_empty.
Qed.

(** ** What the registry does not do *)

(** A function that was switched off is still read by its version. *)
Lemma disabled_still_served :
  let s' := (run (SetEnabled 20 "app" "hello" false) deployed).2 in
  ∃ fn, (run (Get 21 22 "app" "hello" 1) s').1 = Ok fn ∧ Status fn = FunctionStatusInactive.
Proof. eexists. by vm_compute. Qed.

(** A reading that is overtaken by the switch puts the old row back into the
    cache, and the next reading within five seconds finds the function active. *)
Lemma stale_after_disable :
  let '(off, _, s') := overtake 2 (reg_prog (OpSetEnabled 20 "app" "hello" false)) (reg_prog (OpGet 19 21 "app" "hello" 0)) deployed in
  off = RepUnit (Ok tt) ∧ ∃ fn, (run (Get (21 + registryCacheTTL) 22 "app" "hello" 0) s').1 = Ok fn ∧ Status fn = FunctionStatusActive.
Proof. vm_compute. split; [done |]. by eexists. Qed.

(** Two deployments of a function at once: both succeed, and the code of one
    runs with the environment of the other. *)
Lemma deployments_mix :
  let first := OpRegister (Ok "cidA"%string) false "idA" 7 (hello {[ "K"%string := "A"%string ]}) [("K", "A")]%string in
  let second := OpRegister (Ok "cidB"%string) false "idB" 8 (hello {[ "K"%string := "B"%string ]}) [("K", "B")]%string in
  let '(b, a, s') := overtake 2 (reg_prog second) (reg_prog first) no_functions in
  a = RepOld (Ok None) ∧ (∃ o, b = RepOld (Ok (Some o))) ∧
  (∃ fn, (run (Get 20 21 "app" "hello" 0) s').1 = Ok fn ∧ WASMCID fn = "cidB"%string ∧ ID fn = "idA"%string) ∧
  ∃ env, (run (GetEnvVars 20 21 "idA") s').1 = Ok env ∧ env !! "K"%string = Some "A"%string.
Proof. vm_compute. split; [done |]. split; [by eexists |]. split; by eexists. Qed.

(** A function that answers raw HTTP: read by id it does not. *)
Lemma raw_lost_by_id :
  (∃ fn, (run (Get 8 9 "app" "hello" 0) deployed).1 = Ok fn ∧ RawHTTPResponse (Settings fn) = true) ∧
  ∃ fn, (run (GetByID "id1") deployed).1 = Ok fn ∧ RawHTTPResponse (Settings fn) = false.
Proof. vm_compute. split; by eexists. Qed.

(** *** Chunks of log entries *)

Lemma chunks_from_spec {A : Type} fuel (entries : list A) size :
  (0 < size)%nat → (length entries ≤ fuel)%nat →
  mjoin (chunks_from fuel entries size) = entries ∧ Forall (λ c, (0 < length c ≤ size)%nat) (chunks_from fuel entries size) ∧
  length (chunks_from fuel entries size) = ((length entries + size - 1) / size)%nat.
Proof.
  intros Hs. revert entries. induction fuel as [| fuel IH]; intros [| e es] Hl; cbn [length] in *; try lia.
  - cbn. rewrite Nat.div_small by lia. done.
  - cbn [chunks_from mjoin list_join length]. rewrite Nat.div_small by lia. done.
  - cbn [chunks_from]. destruct (IH (drop size (e :: es))) as (H1 & H2 & H3); [rewrite length_drop; cbn; lia |].
    split; [change (take size (e :: es) ++ mjoin (chunks_from fuel (drop size (e :: es)) size) = e :: es); by rewrite H1, take_drop |]. split.
    + constructor; [| done]. rewrite length_take. cbn. lia.
    + cbn [length]. rewrite H3, length_drop. cbn [length]. destruct (decide (S (length es) ≤ size)%nat).
      * replace (S (length es) - size + size - 1)%nat with (size - 1)%nat by lia. rewrite Nat.div_small by lia.
        apply (Nat.div_unique _ _ 1 (length es)); lia.
      * replace (S (length es) + size - 1)%nat with ((S (length es) - size + size - 1) + 1 * size)%nat by lia. rewrite Nat.div_add by lia. lia.
Qed.

(** The rows of one statement stay below the limit, in order and none lost. *)
Lemma chunkLogEntries_spec {A : Type} (entries : list A) :
  mjoin (chunkLogEntries entries maxLogRowsPerInsert) = entries ∧
  Forall (λ c, (0 < length c ≤ maxLogRowsPerInsert)%nat) (chunkLogEntries entries maxLogRowsPerInsert).
Proof. unfold chunkLogEntries. destruct (chunks_from_spec (length entries) entries maxLogRowsPerInsert) as (H1 & H2 & _); unfold maxLogRowsPerInsert in *; [lia | done | done]. Qed.
