(* ===== verification/ModuleCache.v ===== *)
(** * The cache of compiled modules ([core/pkg/serverless/cache/module_cache.go])

    A compiled module is a handle, a number; it owns memory until it is closed.
    An operation gives, besides its answer, the cache and the handles it closed,
    in order.  Each operation holds the lock, except [GetOrCompute], which
    compiles between two critical sections. *)

From Stdlib Require Import ZArith Lia String.
From stdpp Require Import base tactics numbers list gmap strings.
From S2P Require Import Prelude GoStrings.

Local Open Scope go_scope.

Definition handle := nat.

Record ModuleCache := mkModuleCache { modules : gmap string (handle * time); capacity : Z }.

Definition NewModuleCache (capacity : Z) : ModuleCache := mkModuleCache ∅ capacity.
Definition Size (c : ModuleCache) : nat := size (modules c).
Definition Capacity (c : ModuleCache) : Z := capacity c.
Definition GetStats (c : ModuleCache) : nat * Z := (Size c, Capacity c).
Definition Has (wasmCID : string) (c : ModuleCache) : bool := bool_decide (is_Some (modules c !! wasmCID)).

Definition with_modules (ms : gmap string (handle * time)) (c : ModuleCache) : ModuleCache := mkModuleCache ms (capacity c).

(** The first critical section of [GetOrCompute], too. *)
Definition Get (now : time) (wasmCID : string) (c : ModuleCache) : option handle * ModuleCache :=
  match modules c !! wasmCID with
  | None => (None, c)
  | Some (m, _) => (Some m, with_modules (<[wasmCID := (m, now)]> (modules c)) c)
  end.

(** [order]: the visit of the map. *)
Definition older (c : ModuleCache) (best : string * time) (cid : string) : string * time :=
  match modules c !! cid with
  | Some (_, t) => if String.eqb best.1 EmptyString || (t <? best.2)%Z then (cid, t) else best
  | None => best
  end.

Definition evictOldest (order : list string) (c : ModuleCache) : ModuleCache * list handle :=
  let oldestCID := (foldl (older c) (EmptyString, 0%Z) order).1 in
  if String.eqb oldestCID EmptyString then (c, [])
  else match modules c !! oldestCID with
       | Some (m, _) => (with_modules (delete oldestCID (modules c)) c, [m])
       | None => (c, [])
       end.

(** Room is made, then the module goes in. *)
Definition add (now : time) (order : list string) (wasmCID : string) (m : handle) (c : ModuleCache) : ModuleCache * list handle :=
  let '(c1, gone) := if (capacity c <=? Z.of_nat (Size c))%Z then evictOldest order c else (c, []) in
  (with_modules (<[wasmCID := (m, now)]> (modules c1)) c1, gone).

Definition Set_ (now : time) (order : list string) (wasmCID : string) (m : handle) (c : ModuleCache) : ModuleCache * list handle :=
  if Has wasmCID c then (c, []) else add now order wasmCID m c.

Definition Delete (wasmCID : string) (c : ModuleCache) : ModuleCache * list handle :=
  match modules c !! wasmCID with
  | Some (m, _) => (with_modules (delete wasmCID (modules c)) c, [m])
  | None => (c, [])
  end.

(** A module that does not close is logged and dropped like the others. *)
Definition Clear (order : list string) (c : ModuleCache) : ModuleCache * list handle :=
  (with_modules ∅ c, omap (λ cid, fst <$> modules c !! cid) order).

(** The second critical section of [GetOrCompute]. *)
Definition store (now : time) (order : list string) (wasmCID : string) (m : handle) (c : ModuleCache) : handle * ModuleCache * list handle :=
  match modules c !! wasmCID with
  | Some (m0, _) => (m0, with_modules (<[wasmCID := (m0, now)]> (modules c)) c, [m])
  | None => let '(c', gone) := add now order wasmCID m c in (m, c', gone)
  end.

(** [compute]: what compiling gives, on a miss. *)
Definition GetOrCompute {E : Type} (now now' : time) (order : list string) (wasmCID : string) (compute : result E handle) (c : ModuleCache)
    : result E handle * ModuleCache * list handle :=
  match Get now wasmCID c with
  | (Some m, c') => (Ok m, c', [])
  | (None, c') =>
      match compute with
      | Err e => (Err e, c', [])
      | Ok m => let '(m', c'', gone) := store now' order wasmCID m c' in (Ok m', c'', gone)
      end
  end.

(** ** The handles of a cache *)

Definition cids (c : ModuleCache) : list string := (map_to_list (modules c)).*1.
Definition cached (c : ModuleCache) : list handle := (λ e, e.2.1) <$> map_to_list (modules c).

Lemma elem_of_cids c cid : cid ∈ cids c ↔ is_Some (modules c !! cid).
Proof.
  unfold cids. rewrite list_elem_of_fmap. split.
  - intros ([k v] & -> & Hk%elem_of_map_to_list). by eexists.
  - intros [v Hv%elem_of_map_to_list]. by exists (cid, v).
Qed.

Lemma cached_insert c cid m t :
  modules c !! cid = None → cached (with_modules (<[cid := (m, t)]> (modules c)) c) ≡ₚ m :: cached c.
Proof. intros Hn. unfold cached. cbn [modules with_modules]. by rewrite map_to_list_insert. Qed.

Lemma cached_delete c cid m t :
  modules c !! cid = Some (m, t) → cached c ≡ₚ m :: cached (with_modules (delete cid (modules c)) c).
Proof. intros Hs. unfold cached. cbn [modules with_modules]. by rewrite <- (map_to_list_delete _ _ _ Hs). Qed.

Lemma cached_touch c cid m t t' :
  modules c !! cid = Some (m, t) → cached (with_modules (<[cid := (m, t')]> (modules c)) c) ≡ₚ cached c.
Proof.
  intros Hs. rewrite (cached_delete c cid m t Hs). unfold cached. cbn [modules with_modules].
  rewrite <- insert_delete_eq, map_to_list_insert by apply lookup_delete_eq. done.
Qed.

(** ** Eviction *)

(** The walk finds a module that was not used for the longest time. *)
Lemma older_spec c l best :
  Forall (λ cid, is_Some (modules c !! cid) ∧ cid ≠ EmptyString) l → best.1 ≠ EmptyString → (∃ m, modules c !! best.1 = Some (m, best.2)) →
  ∃ m, modules c !! (foldl (older c) best l).1 = Some (m, (foldl (older c) best l).2) ∧ (foldl (older c) best l).1 ≠ EmptyString ∧
    ((foldl (older c) best l).2 ≤ best.2)%Z ∧
    ∀ cid m' t', cid ∈ l → modules c !! cid = Some (m', t') → ((foldl (older c) best l).2 ≤ t')%Z.
Proof.
  revert best. induction l as [| cid l IH]; intros best Hl Hb [m Hm]; cbn [foldl].
  { exists m. split; [done |]. split; [done |]. split; [lia |]. by intros ??? ?%elem_of_nil. }
  apply Forall_cons in Hl as [[[[m1 t1] Hc] Hne] Hl].
  assert (older c best cid = if (t1 <? best.2)%Z then (cid, t1) else best) as Ho.
  { unfold older. rewrite Hc. by destruct (String.eqb_spec best.1 EmptyString). }
  rewrite Ho. destruct (Z.ltb_spec t1 best.2) as [Hlt | Hge].
  - destruct (IH (cid, t1)) as (m2 & H1 & H2 & H3 & H4); [done | done | by exists m1 |]. exists m2. cbn [snd] in H3.
    split; [done |]. split; [done |]. split; [lia |]. intros cid' m' t' [-> | Hin]%elem_of_cons Hk; [| eauto].
    rewrite Hc in Hk. injection Hk as <- <-. done.
  - destruct (IH best) as (m2 & H1 & H2 & H3 & H4); [done | done | by exists m |]. exists m2.
    split; [done |]. split; [done |]. split; [lia |]. intros cid' m' t' [-> | Hin]%elem_of_cons Hk; [| eauto].
    rewrite Hc in Hk. injection Hk as <- <-. lia.
Qed.

Definition no_empty_cid (c : ModuleCache) : Prop := modules c !! EmptyString = None.

Lemma evictOldest_spec order c :
  no_empty_cid c → order ≡ₚ cids c → modules c ≠ ∅ →
  ∃ cid m t, modules c !! cid = Some (m, t) ∧ evictOldest order c = (with_modules (delete cid (modules c)) c, [m]) ∧
    ∀ cid' m' t', modules c !! cid' = Some (m', t') → (t ≤ t')%Z.
Proof.
  intros He Hord Hne. destruct order as [| cid0 l].
  { destruct (map_choose _ Hne) as (cid & v & Hv). assert (cid ∈ cids c) as Hin by (apply elem_of_cids; by eexists).
    rewrite <- Hord in Hin. by apply elem_of_nil in Hin. }
  assert (∀ cid, cid ∈ cid0 :: l → is_Some (modules c !! cid) ∧ cid ≠ EmptyString) as Hall.
  { intros cid Hin. rewrite Hord in Hin. apply elem_of_cids in Hin. split; [done |]. intros ->. rewrite He in Hin. by destruct Hin. }
  destruct (Hall cid0 ltac:(by left)) as [[[m0 t0] H0] Hne0].
  assert (older c (EmptyString, 0%Z) cid0 = (cid0, t0)) as Ho by by (unfold older; rewrite H0).
  destruct (older_spec c l (cid0, t0)) as (m & H1 & H2 & H3 & H4); [| done | by exists m0 |].
  { apply Forall_forall. intros cid Hin. apply Hall. by right. }
  unfold evictOldest. cbn [foldl]. rewrite Ho. set (best := foldl (older c) (cid0, t0) l) in *. exists best.1, m, best.2.
  split; [done |]. split; [by destruct (String.eqb_spec best.1 EmptyString); [| rewrite H1] |].
  intros cid' m' t' Hk. assert (cid' ∈ cid0 :: l) as Hin by (rewrite Hord; apply elem_of_cids; by eexists).
  apply elem_of_cons in Hin as [-> | Hin]; [| eauto]. rewrite H0 in Hk. injection Hk as <- <-. done.
Qed.

(** ** The sections keep the books *)

Definition within (c : ModuleCache) : Prop := no_empty_cid c ∧ (Z.of_nat (Size c) ≤ Z.max 1 (capacity c))%Z.

Lemma Size_insert c cid v : modules c !! cid = None → Size (with_modules (<[cid := v]> (modules c)) c) = S (Size c).
Proof. intros Hn. unfold Size. cbn. by rewrite map_size_insert_None. Qed.

Lemma Size_delete c cid v : modules c !! cid = Some v → S (Size (with_modules (delete cid (modules c)) c)) = Size c.
Proof.
  intros Hs. unfold Size. cbn. rewrite (map_size_delete_Some _ _ (mk_is_Some _ _ Hs)).
  destruct (size (modules c)) eqn:E; [| done]. apply map_size_empty_inv in E. by rewrite E, lookup_empty in Hs.
Qed.

Lemma Size_touch c cid v v' : modules c !! cid = Some v → Size (with_modules (<[cid := v']> (modules c)) c) = Size c.
Proof. intros Hs. unfold Size. cbn. by rewrite map_size_insert_Some by (by eexists). Qed.

Lemma within_delete c cid : within c → within (with_modules (delete cid (modules c)) c).
Proof.
  intros [He Hsz]. split; [unfold no_empty_cid in *; cbn; by apply lookup_delete_None; right |].
  destruct (modules c !! cid) as [v |] eqn:Hc.
  - pose proof (Size_delete c cid v Hc). cbn [capacity with_modules]. lia.
  - unfold Size in *. cbn [capacity with_modules modules]. rewrite delete_id by done. done.
Qed.

Lemma within_touch c cid m t now : within c → modules c !! cid = Some (m, t) → within (with_modules (<[cid := (m, now)]> (modules c)) c).
Proof.
  intros [He Hsz] Hc. split.
  - unfold no_empty_cid in *. cbn. rewrite lookup_insert_ne; [done |]. intros ->. by rewrite He in Hc.
  - by rewrite (Size_touch c cid _ _ Hc).
Qed.

(** What making room leaves. *)
Lemma making_room_spec order c :
  within c → order ≡ₚ cids c →
  ∃ c1 gone, (if (capacity c <=? Z.of_nat (Size c))%Z then evictOldest order c else (c, [])) = (c1, gone) ∧
    cached c1 ++ gone ≡ₚ cached c ∧ no_empty_cid c1 ∧ capacity c1 = capacity c ∧ (Z.of_nat (S (Size c1)) ≤ Z.max 1 (capacity c))%Z ∧
    modules c1 ⊆ modules c.
Proof.
  intros [He Hsz] Hord. destruct (Z.leb_spec (capacity c) (Z.of_nat (Size c))) as [Hfull | Hroom].
  - destruct (decide (modules c = ∅)) as [Hempty | Hne].
    + assert (cids c = []) as Hc by (unfold cids; by rewrite Hempty, map_to_list_empty). rewrite Hc in Hord. apply Permutation_nil_r in Hord as ->.
      exists c, []. split; [done |]. rewrite app_nil_r. repeat split; [done | done | | done].
      assert (Size c = 0) as -> by (unfold Size; by rewrite Hempty, map_size_empty). lia.
    + destruct (evictOldest_spec order c He Hord Hne) as (cid & m & t & Hc & -> & _). eexists _, [m]. split; [done |].
      split; [rewrite (cached_delete c cid m t Hc); by rewrite Permutation_app_comm |].
      split; [unfold no_empty_cid in *; cbn; by apply lookup_delete_None; right |]. split; [done |].
      split; [pose proof (Size_delete c cid _ Hc); lia | apply delete_subseteq].
  - exists c, []. rewrite app_nil_r. do 4 (split; [done |]). split; [lia | done].
Qed.

Lemma add_spec now order cid m c :
  within c → order ≡ₚ cids c → cid ≠ EmptyString → modules c !! cid = None →
  ∃ c' gone, add now order cid m c = (c', gone) ∧ cached c' ++ gone ≡ₚ m :: cached c ∧ within c' ∧ capacity c' = capacity c ∧
    modules c' !! cid = Some (m, now).
Proof.
  intros Hw Hord Hcid Hn. destruct (making_room_spec order c Hw Hord) as (c1 & gone & Hroom & Hbooks & He & Hcap & Hsz & Hsub).
  assert (modules c1 !! cid = None) as Hn1 by (by eapply lookup_weaken_None).
  unfold add. rewrite Hroom. eexists _, gone. split; [done |]. split; [| split; [| split]].
  - rewrite (cached_insert c1 cid m now Hn1). cbn. by rewrite Hbooks.
  - split; [unfold no_empty_cid in *; cbn; by rewrite lookup_insert_ne |]. rewrite Size_insert by done. cbn [capacity with_modules]. by rewrite Hcap.
  - done.
  - cbn. apply lookup_insert_eq.
Qed.

Lemma store_spec now order cid m c :
  within c → order ≡ₚ cids c → cid ≠ EmptyString →
  ∃ m' c' gone t, store now order cid m c = (m', c', gone) ∧ cached c' ++ gone ≡ₚ m :: cached c ∧ within c' ∧ capacity c' = capacity c ∧
    modules c' !! cid = Some (m', t) ∧ m' = default m (fst <$> modules c !! cid).
Proof.
  intros Hw Hord Hcid. unfold store. destruct (modules c !! cid) as [[m0 t0] |] eqn:Hc.
  - eexists m0, _, [m], now. split; [done |]. split; [| split; [by eapply within_touch | split; [done |]]].
    + rewrite (cached_touch c cid m0 t0 now Hc). by rewrite Permutation_app_comm.
    + split; [cbn; apply lookup_insert_eq | done].
  - destruct (add_spec now order cid m c Hw Hord Hcid Hc) as (c' & gone & -> & H1 & H2 & H3 & H4). exists m, c', gone, now. done.
Qed.

Lemma Clear_books order c : order ≡ₚ cids c → (Clear order c).2 ≡ₚ cached c.
Proof.
  intros Hord. cbn [Clear snd]. rewrite Hord. unfold cids, cached.
  assert (∀ l, (∀ e, e ∈ l → modules c !! e.1 = Some e.2) →
    omap (λ cid, fst <$> modules c !! cid) l.*1 = (λ e : string * (handle * time), e.2.1) <$> l) as Hl.
  { induction l as [| [cid [m t]] l IH]; intros Hin; [done |]. cbn [fmap list_fmap fst snd].
    change (omap ?f (?a :: ?b)) with (match f a with Some y => y :: omap f b | None => omap f b end).
    cbn beta. pose proof (Hin _ ltac:(by left) : modules c !! cid = Some (m, t)) as Hc. rewrite Hc. cbn. f_equal. apply IH. intros e He. apply Hin. by right. }
  rewrite Hl; [done |]. intros [cid v] Hin. by apply elem_of_map_to_list.
Qed.

(** ** All requests

    [compiled] counts the modules compiled so far, [pending] has those that
    wait for the second section of their [GetOrCompute]. *)
Record world := mkWorld { w_cache : ModuleCache; pending : list (string * handle); closed : list handle; compiled : nat }.

Inductive mc_step : world → world → Prop :=
| step_get now cid c p z n :
    mc_step (mkWorld c p z n) (mkWorld (Get now cid c).2 p z n)
| step_compile cid c p z n :
    cid ≠ EmptyString →
    mc_step (mkWorld c p z n) (mkWorld c (p ++ [(cid, n)]) z (S n))
| step_store now order i cid m c p z n :
    p !! i = Some (cid, m) → order ≡ₚ cids c →
    mc_step (mkWorld c p z n)
      (let '(_, c', gone) := store now order cid m c in mkWorld c' (delete i p) (z ++ gone) n)
| step_delete cid c p z n :
    mc_step (mkWorld c p z n) (mkWorld (Delete cid c).1 p (z ++ (Delete cid c).2) n)
| step_clear order c p z n :
    order ≡ₚ cids c →
    mc_step (mkWorld c p z n) (mkWorld (Clear order c).1 p (z ++ (Clear order c).2) n).

(** Every module is in one place: cached, on its way into the cache, or closed
    (once). *)
Definition books (w : world) : Prop :=
  cached (w_cache w) ++ (pending w).*2 ++ closed w ≡ₚ seq 0 (compiled w).

Definition mc_inv (w : world) : Prop :=
  within (w_cache w) ∧ Forall (λ e, e.1 ≠ EmptyString) (pending w) ∧ books w.

Lemma mc_inv_get now cid w : mc_inv w → mc_inv (mkWorld (Get now cid (w_cache w)).2 (pending w) (closed w) (compiled w)).
Proof.
  destruct w as [c p z n]. intros (Hw & Hp & Hb). unfold mc_inv, books, Get in *. cbn in *. destruct (modules c !! cid) as [[m t] |] eqn:Hc; [| done].
  split; [by eapply within_touch |]. split; [done |]. by rewrite (cached_touch c cid m t now Hc).
Qed.

Lemma mc_inv_store now order i cid m c p z n :
  mc_inv (mkWorld c p z n) → p !! i = Some (cid, m) → order ≡ₚ cids c →
  mc_inv (let '(_, c', gone) := store now order cid m c in mkWorld c' (delete i p) (z ++ gone) n).
Proof.
  intros (Hw & Hp & Hb) Hi Hord. cbn in *.
  assert (cid ≠ EmptyString) as Hcid by exact (proj1 (Forall_lookup _ _) Hp _ _ Hi).
  destruct (store_spec now order cid m c Hw Hord Hcid) as (m' & c' & gone & t & -> & H1 & H2 & _).
  split; [done |]. split; [by apply Forall_delete |]. unfold books in *. cbn in *.
  pose proof (delete_Permutation p i _ Hi) as Hd. apply (fmap_Permutation snd) in Hd. cbn in Hd. rewrite <- Hb, Hd.
  trans ((cached c' ++ gone) ++ (delete i p).*2 ++ z); [solve_Permutation |]. rewrite H1. solve_Permutation.
Qed.

Lemma mc_inv_step w w' : mc_inv w → mc_step w w' → mc_inv w'.
Proof.
  intros Hinv Hs. destruct Hs as [now cid c p z n | cid c p z n Hcid | now order i cid m c p z n Hi Hord | cid c p z n | order c p z n Hord].
  - by apply (mc_inv_get now cid (mkWorld c p z n)).
  - destruct Hinv as (Hw & Hp & Hb). split; [done |]. unfold books in *. cbn [w_cache pending closed compiled] in *. split.
    + apply Forall_app. split; [done |]. by apply Forall_singleton.
    + rewrite seq_S, <- Hb, fmap_app. cbn. solve_Permutation.
  - by apply mc_inv_store.
  - destruct Hinv as (Hw & Hp & Hb). unfold Delete. destruct (modules c !! cid) as [[m t] |] eqn:Hc; cbn.
    + split; [by apply within_delete |]. split; [done |]. unfold books in *. cbn [w_cache pending closed compiled] in *. rewrite <- Hb, (cached_delete c cid m t Hc). cbn. solve_Permutation.
    + split; [done |]. split; [done |]. unfold books in *. cbn [w_cache pending closed compiled] in *. by rewrite app_nil_r.
  - destruct Hinv as (Hw & Hp & Hb). split; [| split; [done |]].
    + split; [apply lookup_empty |]. unfold Size. cbn. rewrite map_size_empty. lia.
    + unfold books in *. pose proof (Clear_books order c Hord) as Hcl. cbn [w_cache pending closed compiled] in *. rewrite Hcl, <- Hb.
      unfold cached at 1. cbn. rewrite map_to_list_empty. cbn. solve_Permutation.
Qed.

Lemma step_capacity w w' : mc_step w w' → capacity (w_cache w') = capacity (w_cache w).
Proof.
  intros Hs. destruct Hs; cbn; try done.
  - unfold Get. by repeat case_match.
  - unfold store, add, evictOldest. by repeat case_match; simplify_eq/=.
  - unfold Delete. by repeat case_match.
Qed.

(** C17: no module is lost.  Whatever requests, deployments and shutdowns
    interleave (the compilation runs without the lock): every module compiled
    so far is in exactly one place: in the cache, once; or compiled and about
    to be stored; or closed, once.  No cached module is closed,
    no module is leaked, and the cache holds at most as many modules as its
    capacity (one, when that is not positive). *)
Theorem modules_accounted cap w :
  rtc mc_step (mkWorld (NewModuleCache cap) [] [] 0) w →
  cached (w_cache w) ++ (pending w).*2 ++ closed w ≡ₚ seq 0 (compiled w) ∧
  NoDup (cached (w_cache w) ++ (pending w).*2 ++ closed w) ∧
  (Z.of_nat (Size (w_cache w)) ≤ Z.max 1 cap)%Z.
Proof.
  intros Hr. assert (mc_inv w ∧ capacity (w_cache w) = cap) as [(Hw & _ & Hb) Hcap].
  { eapply (invariant_rtc mc_step (λ w, mc_inv w ∧ capacity (w_cache w) = cap)); [| exact Hr |].
    - intros w1 w2 [Hi Hc] Hs. split; [by eapply mc_inv_step |]. by rewrite (step_capacity _ _ Hs).
    - split; [| done]. split; [| split; [apply Forall_nil_2 | unfold books, cached; cbn; by rewrite map_to_list_empty]]. split; [apply lookup_empty |]. unfold Size. cbn. rewrite map_size_empty. lia. }
  unfold books in Hb. split; [exact Hb |]. split; [rewrite Hb; apply NoDup_seq |]. destruct Hw as [_ Hsz]. by rewrite Hcap in Hsz.
Qed.

(** Two requests compile the same module; both store it. *)
Lemma modules_accounted_witness :
  ∃ w, rtc mc_step (mkWorld (NewModuleCache 5) [] [] 0) w ∧ closed w = [1] ∧ NoDup (cached (w_cache w) ++ (pending w).*2 ++ closed w).
Proof.
  eexists. assert (rtc mc_step (mkWorld (NewModuleCache 5) [] [] 0)
    (let '(_, c1, g1) := store 3 [] "x" 0 (NewModuleCache 5) in
     let '(_, c2, g2) := store 4 ["x"%string] "x" 1 c1 in mkWorld c2 [] ([] ++ g1 ++ g2) 2)) as Hr.
  { eapply rtc_l; [by apply (step_compile "x") |]. eapply rtc_l; [by apply (step_compile "x") |].
    eapply rtc_l; [by apply (step_store 3 [] 0 "x" 0) |]. apply rtc_once. by apply (step_store 4 ["x"%string] 0 "x" 1). }
  split; [exact Hr |]. split; [done |]. apply (modules_accounted 5 _ Hr).
Defined.

(** *** One request *)

Lemma fetch_spec {E : Type} now now' order cid (compute : result E handle) c :
  within c → order ≡ₚ cids c → cid ≠ EmptyString →
  let '(r, c', gone) := GetOrCompute now now' order cid compute c in
  r = match fst <$> modules c !! cid with Some m => Ok m | None => compute end ∧ within c' ∧
  match r with
  | Err _ => c' = c ∧ gone = []
  | Ok m => fst <$> modules c' !! cid = Some m ∧
      ∀ m0, m0 ∈ gone → (capacity c ≤ Z.of_nat (Size c))%Z ∧
        ∃ cid0 t0, modules c !! cid0 = Some (m0, t0) ∧ modules c' !! cid0 = None ∧
          ∀ cid1 m1 t1, modules c !! cid1 = Some (m1, t1) → (t0 ≤ t1)%Z
  end.
Proof.
  intros Hw Hord Hcid. unfold GetOrCompute, Get. destruct (modules c !! cid) as [[m t] |] eqn:Hc.
  { cbn. split; [done |]. split; [by eapply within_touch |]. split; [by rewrite lookup_insert_eq | by intros m0 ?%elem_of_nil]. }
  destruct compute as [m | e]; [| done]. unfold store, add. rewrite Hc.
  destruct (add_spec now' order cid m c Hw Hord Hcid Hc) as (c' & gone & Hadd & _ & Hw' & _ & Hin). unfold add in Hadd. rewrite Hadd.
  cbn. split; [done |]. split; [done |]. split; [by rewrite Hin |]. intros m0 Hm0.
  destruct (Z.leb_spec (capacity c) (Z.of_nat (Size c))) as [Hfull | Hroom]; [| injection Hadd as <- <-; by apply elem_of_nil in Hm0].
  split; [done |]. destruct (decide (modules c = ∅)) as [Hempty | Hne].
  - assert (order = []) as ->. { apply Permutation_nil_r. rewrite Hord. unfold cids. by rewrite Hempty, map_to_list_empty. }
    injection Hadd as <- <-. by apply elem_of_nil in Hm0.
  - destruct (evictOldest_spec order c (proj1 Hw) Hord Hne) as (cid0 & m1 & t0 & H0 & Hev & Hmin). rewrite Hev in Hadd. injection Hadd as <- <-.
    apply list_elem_of_singleton in Hm0 as ->. exists cid0, t0. split; [done |]. split; [| done]. cbn.
    rewrite lookup_insert_ne; [apply lookup_delete_eq |]. intros ->. by rewrite Hc in H0.
Qed.

(** Fetching a module.  A request gets the cached module without
    compiling when there is one, the compiled one otherwise, and an error only
    when compiling failed.  Afterwards its module is cached and not closed; a
    module the request closed is one that was cached and was not used for the longest
    time, and only when the cache was full. *)
Theorem GetOrCompute_spec {E : Type} now now' order cid (compute : result E handle) c :
  within c → order ≡ₚ cids c → cid ≠ EmptyString →
  let '(r, c', gone) := GetOrCompute now now' order cid compute c in
  r = match fst <$> modules c !! cid with Some m => Ok m | None => compute end ∧ within c' ∧
  match r with
  | Err _ => c' = c ∧ gone = []
  | Ok m => fst <$> modules c' !! cid = Some m ∧
      ∀ m0, m0 ∈ gone → (capacity c ≤ Z.of_nat (Size c))%Z ∧
        ∃ cid0 t0, modules c !! cid0 = Some (m0, t0) ∧ modules c' !! cid0 = None ∧
          ∀ cid1 m1 t1, modules c !! cid1 = Some (m1, t1) → (t0 ≤ t1)%Z
  end.
Proof. apply fetch_spec. Qed.

Definition one_module : ModuleCache := (store 3 [] "x" 0 (NewModuleCache 1)).1.2.

Lemma one_module_within : within one_module.
Proof. by split. Qed.

Lemma GetOrCompute_spec_witness :
  let '(r, c', gone) := GetOrCompute (E := string) 5 6 ["x"%string] "y" (Ok 1) one_module in r = Ok 1 ∧ gone = [0] ∧ within c'.
Proof.
  pose proof (GetOrCompute_spec (E := string) 5 6 ["x"%string] "y" (Ok 1) one_module one_module_within (reflexivity _)) as H.
  destruct (GetOrCompute (E := string) 5 6 ["x"%string] "y" (Ok 1) one_module) as [[r c'] gone] eqn:E.
  destruct H as (H1 & H2 & _); [done |]. split; [exact H1 |]. split; [| exact H2].
  change (gone = [0]). assert (gone = (GetOrCompute (E := string) 5 6 ["x"%string] "y" (Ok 1) one_module).2) as -> by by rewrite E. done.
Defined.

(** *** What the cache does not do *)

(** A request has fetched its module and not yet instantiated it; another
    request makes room, and the module of the first one is closed. *)
Lemma closed_in_use :
  let '(r, c1, _) := GetOrCompute 5 5 [] "x" (Err tt) one_module in
  let '(_, _, gone) := GetOrCompute (E := unit) 6 7 ["x"%string] "y" (Ok 1) c1 in
  r = Ok 0 ∧ gone = [0].
Proof. done. Qed.

(** [Precompile] loses the race against a request that compiles the same
    module: its module is neither cached nor closed. *)
Lemma Set_leaks : Has "x" (NewModuleCache 1) = false ∧ Set_ 6 ["x"%string] "x" 1 one_module = (one_module, []) ∧ 1 ∉ cached one_module.
Proof. split; [done |]. split; [done |]. apply (bool_decide_unpack _). by vm_compute. Qed.
