(* ===== verification/FunctionLimits.v ===== *)
(** * Rate limits of functions ([core/pkg/serverless/ratelimit.go])

    Token buckets per wallet, per client address and per namespace, kept in
    sixteen shards that forget the bucket that was not used for the longest
    time.  The buckets are those of [RateLimit]: tokens are counted exactly, in parts of
    [1 / Minute] of a token, where the code counts in floating point.
    [AllowRequest] is one request alone; [turn] is one tier of one of many
    requests, each tier under its own lock. *)

From Stdlib Require Import ZArith Lia Ascii String.
From stdpp Require Import base tactics numbers list gmap strings.
From S2P Require Import Prelude GoStrings RateLimit.

Local Open Scope Z_scope.
Local Open Scope go_scope.

Record PerFunctionRateLimit := mkOverride { ov_PerWalletPerMinute : Z; ov_PerWalletBurst : Z }.

Record RateLimitRequest := mkRequest {
  req_Namespace : string; req_Function : string; req_Wallet : string; req_IP : string; Override : option PerFunctionRateLimit
}.

Record LimiterConfig := mkLimiterConfig {
  PerWalletPerMinute : Z; PerWalletBurst : Z; PerNamespacePerMinute : Z; PerNamespaceBurst : Z; PerIPPerMinute : Z; PerIPBurst : Z;
  MaxBucketsPerScope : Z
}.

Definition DefaultLimiterConfig : LimiterConfig := mkLimiterConfig 600 60 60000 6000 120 30 100000.

Record Decision_ := mkDecision { Allowed : bool; RetryAfter : time; Scope : string }.

(** ** Buckets with recency *)

Definition lruShards : nat := 16.

(** [s_order]: the keys, the most recent one first; [keyToEl] is the place of a
    key in it. *)
Record bucketShard := mkShard { s_buckets : gmap string bucket; s_order : list string; s_cap : Z }.
#[export] Instance bucketShard_inhabited : Inhabited bucketShard := populate (mkShard ∅ [] 1).

Abbreviation lruBuckets := (list bucketShard).

Definition newLRUBuckets (capacity : Z) : lruBuckets :=
  let per := Z.quot capacity (Z.of_nat lruShards) in
  replicate lruShards (mkShard ∅ [] (if per <? 1 then 1 else per)).

(** FNV-1a with 32 bits. *)
Fixpoint fnv32a (h : Z) (s : string) : Z :=
  match s with
  | EmptyString => h
  | String c s' => fnv32a ((Z.lxor h (Z.of_nat (nat_of_ascii c)) * 16777619) mod 2 ^ 32) s'
  end.

Definition shardIdx (key : string) : nat := Z.to_nat (fnv32a 2166136261 key mod Z.of_nat lruShards).

(** [tokenBucket.tryConsume]. *)
Definition bucket_consume (now : time) (rpm burst : Z) (b : bucket) : Decision_ * bucket :=
  let '(ok, b') := take_token rpm burst now b in
  (if ok then mkDecision true 0 EmptyString else mkDecision false ((Minute - tokens b') / rpm) EmptyString, b').

(** The bucket at the back goes when there is no room. *)
Definition make_room (s : bucketShard) : bucketShard :=
  if s_cap s <=? Z.of_nat (size (s_buckets s)) then
    match last (s_order s) with
    | Some oldKey => mkShard (delete oldKey (s_buckets s)) (filter (.≠ oldKey) (s_order s)) (s_cap s)
    | None => s
    end
  else s.

Definition shard_consume (now : time) (key : string) (rpm burst : Z) (s : bucketShard) : Decision_ * bucketShard :=
  match s_buckets s !! key with
  | None =>
      let s1 := make_room s in
      let r := bucket_consume now rpm burst (mkBucket (burst * Minute) now) in
      (r.1, mkShard (<[key := r.2]> (s_buckets s1)) (key :: s_order s1) (s_cap s1))
  | Some b =>
      let r := bucket_consume now rpm burst b in
      (r.1, mkShard (<[key := r.2]> (s_buckets s)) (key :: filter (.≠ key) (s_order s)) (s_cap s))
  end.

Definition tryConsume (now : time) (key : string) (rpm burst : Z) (l : lruBuckets) : Decision_ * lruBuckets :=
  let r := shard_consume now key rpm burst (l !!! shardIdx key) in
  (r.1, <[shardIdx key := r.2]> l).

(** ** The tiers *)

Record MultiTierLimiter := mkMulti {
  cfg : LimiterConfig; fnWalletBuckets : lruBuckets; walletBuckets : lruBuckets; namespaceBuckets : lruBuckets; ipBuckets : lruBuckets
}.

Definition or_default (v d : Z) : Z := if v <=? 0 then d else v.

Definition sane_config (c : LimiterConfig) : LimiterConfig :=
  mkLimiterConfig (or_default (PerWalletPerMinute c) 600) (or_default (PerWalletBurst c) 60) (or_default (PerNamespacePerMinute c) 60000)
    (or_default (PerNamespaceBurst c) 6000) (or_default (PerIPPerMinute c) 120) (or_default (PerIPBurst c) 30)
    (or_default (MaxBucketsPerScope c) 100000).

Definition NewMultiTierLimiter (c : LimiterConfig) : MultiTierLimiter :=
  let c := sane_config c in
  let l := newLRUBuckets (MaxBucketsPerScope c) in mkMulti c l l l l.

Definition scoped (scope : string) (d : Decision_) : Decision_ := mkDecision (Allowed d) (RetryAfter d) scope.
Definition allowed_ : Decision_ := mkDecision true 0 EmptyString.

Definition override_burst (o : PerFunctionRateLimit) : Z :=
  if ov_PerWalletBurst o <=? 0 then Z.max 1 (Z.quot (ov_PerWalletPerMinute o) 10) else ov_PerWalletBurst o.

(** Each tier: no decision, or a rejection. *)
Definition tier1 (now : time) (req : RateLimitRequest) (l : MultiTierLimiter) : option Decision_ * MultiTierLimiter :=
  match Override req with
  | Some o =>
      if (0 <? ov_PerWalletPerMinute o) && negb (String.eqb (req_Wallet req) EmptyString) then
        let key := req_Namespace req +:+ "/" +:+ req_Function req +:+ "/" +:+ req_Wallet req in
        let r := tryConsume now key (ov_PerWalletPerMinute o) (override_burst o) (fnWalletBuckets l) in
        (if Allowed r.1 then None else Some (scoped "per_function_wallet" r.1),
         mkMulti (cfg l) r.2 (walletBuckets l) (namespaceBuckets l) (ipBuckets l))
      else (None, l)
  | None => (None, l)
  end.

Definition tier2 (now : time) (req : RateLimitRequest) (l : MultiTierLimiter) : option Decision_ * MultiTierLimiter :=
  if negb (String.eqb (req_Wallet req) EmptyString) then
    let r := tryConsume now (req_Namespace req +:+ "/" +:+ req_Wallet req) (PerWalletPerMinute (cfg l)) (PerWalletBurst (cfg l)) (walletBuckets l) in
    (if Allowed r.1 then None else Some (scoped "per_wallet" r.1),
     mkMulti (cfg l) (fnWalletBuckets l) r.2 (namespaceBuckets l) (ipBuckets l))
  else if negb (String.eqb (req_IP req) EmptyString) then
    let r := tryConsume now (req_Namespace req +:+ "/" +:+ req_IP req) (PerIPPerMinute (cfg l)) (PerIPBurst (cfg l)) (ipBuckets l) in
    (if Allowed r.1 then None else Some (scoped "per_ip" r.1),
     mkMulti (cfg l) (fnWalletBuckets l) (walletBuckets l) (namespaceBuckets l) r.2)
  else (None, l).

Definition tier3 (now : time) (req : RateLimitRequest) (l : MultiTierLimiter) : option Decision_ * MultiTierLimiter :=
  if negb (String.eqb (req_Namespace req) EmptyString) then
    let r := tryConsume now (req_Namespace req) (PerNamespacePerMinute (cfg l)) (PerNamespaceBurst (cfg l)) (namespaceBuckets l) in
    (if Allowed r.1 then None else Some (scoped "per_namespace" r.1),
     mkMulti (cfg l) (fnWalletBuckets l) (walletBuckets l) r.2 (ipBuckets l))
  else (None, l).

(** Each tier reads the clock. *)
Definition AllowRequest (t1 t2 t3 : time) (req : RateLimitRequest) (l : MultiTierLimiter) : Decision_ * MultiTierLimiter :=
  match tier1 t1 req l with
  | (Some d, l1) => (d, l1)
  | (None, l1) =>
      match tier2 t2 req l1 with
      | (Some d, l2) => (d, l2)
      | (None, l2) =>
          match tier3 t3 req l2 with
          | (Some d, l3) => (d, l3)
          | (None, l3) => (allowed_, l3)
          end
      end
  end.

Definition Allow (t2 t3 : time) (key : string) (l : MultiTierLimiter) : bool * MultiTierLimiter :=
  let r := AllowRequest t2 t2 t3 (mkRequest "_global" EmptyString key EmptyString None) l in (Allowed r.1, r.2).

(** The older limiter: one bucket for all. *)
Record TokenBucketLimiter := mkTokenBucket { tb_perMinute : Z; tb_bucket : bucket }.

Definition NewTokenBucketLimiter (perMinute : Z) (now : time) : TokenBucketLimiter :=
  mkTokenBucket perMinute (mkBucket (perMinute * Minute) now).

Definition TokenBucket_Allow (now : time) (t : TokenBucketLimiter) : bool * TokenBucketLimiter :=
  let r := take_token (tb_perMinute t) (tb_perMinute t) now (tb_bucket t) in (r.1, mkTokenBucket (tb_perMinute t) r.2).

(** ** A shard *)

Record shard_wf (s : bucketShard) : Prop := {
  sh_cap : 1 ≤ s_cap s;
  sh_nodup : NoDup (s_order s);
  sh_keys : ∀ k, k ∈ s_order s ↔ is_Some (s_buckets s !! k);
  sh_bound : Z.of_nat (length (s_order s)) ≤ s_cap s
}.

Lemma shard_size s : shard_wf s → size (s_buckets s) = length (s_order s).
Proof.
  intros [_ Hnd Hk _]. rewrite <- size_dom. rewrite <- (size_list_to_set (C := gset string) (s_order s)) by done. f_equal.
  apply set_eq. intros k. rewrite elem_of_list_to_set, Hk. apply elem_of_dom.
Qed.

(** Filtering out one key of a list without duplicates. *)
Lemma without_length (k : string) l : NoDup l → k ∈ l → length l = S (length (filter (.≠ k) l)).
Proof.
  intros Hnd Hin. assert (filter (.≠ k) l ++ [k] ≡ₚ l) as Hp; [| apply Permutation_length in Hp; rewrite length_app in Hp; cbn in Hp; lia].
  apply NoDup_Permutation; [| done |].
  - apply NoDup_app. split; [by apply NoDup_filter |]. split; [| apply NoDup_singleton].
    intros x [Hx _]%list_elem_of_filter ->%list_elem_of_singleton. done.
  - intros x. rewrite elem_of_app, list_elem_of_filter, list_elem_of_singleton. destruct (decide (x = k)); naive_solver.
Qed.

Lemma make_room_wf s :
  shard_wf s → shard_wf (make_room s) ∧ Z.of_nat (length (s_order (make_room s))) < s_cap (make_room s) ∧ s_cap (make_room s) = s_cap s ∧
  s_buckets (make_room s) ⊆ s_buckets s.
Proof.
  intros Hwf. pose proof Hwf as [Hc Hnd Hk Hb]. unfold make_room. rewrite (shard_size s Hwf).
  destruct (Z.leb_spec (s_cap s) (Z.of_nat (length (s_order s)))) as [Hfull | Hroom]; [| done].
  destruct (last (s_order s)) as [old |] eqn:Hl.
  - apply last_Some_elem_of in Hl. pose proof (without_length old (s_order s) Hnd Hl) as Hlen. cbn [s_order s_cap s_buckets].
    split; [| split; [lia | split; [done | apply delete_subseteq]]]. split; cbn; [done | by apply NoDup_filter | | lia].
    intros k. rewrite list_elem_of_filter, Hk, lookup_delete_is_Some. naive_solver.
  - apply last_None in Hl. rewrite Hl in Hfull. cbn in Hfull. lia.
Qed.

Lemma shard_consume_wf now key rpm bst s :
  shard_wf s → shard_wf (shard_consume now key rpm bst s).2 ∧ s_cap (shard_consume now key rpm bst s).2 = s_cap s.
Proof.
  intros Hwf. unfold shard_consume. destruct (s_buckets s !! key) as [b |] eqn:Hb; cbn [snd].
  - pose proof Hwf as [Hc Hnd Hk Hbd]. assert (key ∈ s_order s) as Hin by (apply Hk; by eexists).
    pose proof (without_length key _ Hnd Hin) as Hlen. split; [| done]. split; cbn; [done | | | lia].
    + apply NoDup_cons. split; [by intros [? _]%list_elem_of_filter | by apply NoDup_filter].
    + intros k. rewrite elem_of_cons, list_elem_of_filter, lookup_insert_is_Some', Hk. destruct (decide (k = key)); naive_solver.
  - destruct (make_room_wf s Hwf) as ([Hc Hnd Hk Hbd] & Hlt & Hcap & Hsub).
    assert (s_buckets (make_room s) !! key = None) as Hn by (by eapply lookup_weaken_None).
    split; [| done]. split; cbn [s_order s_cap s_buckets length]; [done | | | lia].
    + apply NoDup_cons. split; [| done]. rewrite Hk, Hn. by intros [].
    + intros k. rewrite elem_of_cons, lookup_insert_is_Some', Hk. naive_solver.
Qed.

(** ** Tokens *)

Section Level.
Context (rpm bst : Z) (Hrpm : 0 ≤ rpm) (Hbst : 1 ≤ bst).

(** The tokens a key has at [now]. *)
Definition shard_level (now : time) (key : string) (s : bucketShard) : Z :=
  match s_buckets s !! key with Some b => refilled rpm bst now b | None => bst * Minute end.

Definition shard_at (now : time) (s : bucketShard) : Prop := ∀ k b, s_buckets s !! k = Some b → 0 ≤ tokens b ∧ lastCheck b ≤ now.

Lemma bucket_consume_spec now b :
  0 ≤ tokens b → lastCheck b ≤ now →
  Allowed (bucket_consume now rpm bst b).1 = (Minute <=? refilled rpm bst now b) ∧
  0 ≤ tokens (bucket_consume now rpm bst b).2 ∧ lastCheck (bucket_consume now rpm bst b).2 = now ∧
  refilled rpm bst now (bucket_consume now rpm bst b).2 = refilled rpm bst now b - (if Minute <=? refilled rpm bst now b then Minute else 0).
Proof.
  intros Ht Hl. pose proof Minute_pos as HM. destruct (take_spec rpm bst now b) as (E1 & E2 & E3).
  unfold bucket_consume. destruct (take_token rpm bst now b) as [ok b']. cbn [fst snd] in *. subst ok.
  split; [by destruct (Minute <=? refilled rpm bst now b) |].
  assert (0 ≤ refilled rpm bst now b ≤ bst * Minute) as Hr by (unfold refilled; nia).
  rewrite E3. split; [destruct (Z.leb_spec Minute (refilled rpm bst now b)); lia |]. split; [done |].
  unfold refilled at 1. rewrite E2, E3. destruct (Z.leb_spec Minute (refilled rpm bst now b)); lia.
Qed.

Definition roomy (key : string) (s : bucketShard) : Prop := is_Some (s_buckets s !! key) ∨ Z.of_nat (size (s_buckets s)) < s_cap s.

Lemma roomy_stays key s : s_buckets s !! key = None → roomy key s → make_room s = s.
Proof. intros Hn [[b Hb] | Hlt]; [by rewrite Hn in Hb |]. unfold make_room. by rewrite (proj2 (Z.leb_gt _ _) Hlt). Qed.

(** A request takes one token from its own bucket, if there is one. *)
Lemma shard_consume_spec now key s :
  shard_at now s → roomy key s →
  let r := shard_consume now key rpm bst s in
  shard_at now r.2 ∧ Allowed r.1 = (Minute <=? shard_level now key s) ∧
  shard_level now key r.2 = shard_level now key s - (if Allowed r.1 then Minute else 0) ∧
  (∀ k t, k ≠ key → shard_level t k r.2 = shard_level t k s) ∧
  ∀ k, is_Some (s_buckets r.2 !! k) ↔ k = key ∨ is_Some (s_buckets s !! k).
Proof.
  intros Hat Hroom r.
  assert (∃ b, shard_level now key s = refilled rpm bst now b ∧ 0 ≤ tokens b ∧ lastCheck b ≤ now ∧
    r.1 = (bucket_consume now rpm bst b).1 ∧ s_buckets r.2 = <[key := (bucket_consume now rpm bst b).2]> (s_buckets s)) as
    (b & Hlev & Ht & Hl & E1 & E2).
  { unfold r, shard_consume, shard_level. destruct (s_buckets s !! key) as [b |] eqn:Hb.
    - exists b. destruct (Hat _ _ Hb). done.
    - rewrite (roomy_stays key s Hb Hroom). exists (mkBucket (bst * Minute) now). pose proof Minute_pos. cbn.
      split; [unfold refilled; cbn; lia |]. split; [nia |]. done. }
  destruct (bucket_consume_spec now b Ht Hl) as (H1 & H2 & H3 & H4). rewrite E1, H1, Hlev. split; [| split; [done | split; [| split]]].
  - intros k b'. rewrite E2, lookup_insert_Some. intros [[_ <-] | [_ Hk]]; [split; [done | lia] | eauto].
  - unfold shard_level. rewrite E2, lookup_insert_eq. done.
  - intros k t Hne. unfold shard_level. rewrite E2. by rewrite lookup_insert_ne.
  - intros k. rewrite E2, lookup_insert_is_Some'. naive_solver.
Qed.

End Level.

(** ** Sequences in the order of time *)

Fixpoint in_time {A} (now : time) (es : list (time * A)) : Prop :=
  match es with [] => True | (t, _) :: es' => now ≤ t ∧ in_time t es' end.

Lemma in_time_sublist {A} now (es es' : list (time * A)) : sublist es' es → in_time now es → in_time now es'.
Proof.
  intros Hs. revert now. induction Hs as [| [t k] es1 es2 Hs IH | [t k] es1 es2 Hs IH]; intros now; cbn [in_time]; [done | |].
  - intros [H1 H2]. split; [done | by apply IH].
  - intros [H1 H2]. apply IH. clear -H1 H2. destruct es2 as [| [t2 k2] es2]; [done |]. destruct H2. split; [lia | done].
Qed.

Lemma in_time_app {A} now (es es' : list (time * A)) : in_time now (es ++ es') → in_time now es ∧ in_time now es'.
Proof.
  intros H. split; (eapply in_time_sublist; [| exact H]); [by apply sublist_inserts_r | by apply sublist_inserts_l].
Qed.

Lemma in_time_fmap {A B} now (f : time * A → B) (es : list (time * A)) : in_time now es → in_time now ((λ e, (e.1, f e)) <$> es).
Proof. revert now. induction es as [| [t x] es IH]; intros now; cbn; [done |]. intros [? ?]. split; [done | by apply IH]. Qed.

(** ** All shards *)

Lemma shardIdx_lt key : (shardIdx key < lruShards)%nat.
Proof. unfold shardIdx, lruShards. pose proof (Z.mod_pos_bound (fnv32a 2166136261 key) (Z.of_nat 16) ltac:(lia)). lia. Qed.

Record lru_wf (per : Z) (l : lruBuckets) : Prop := {
  lru_len : length l = lruShards;
  lru_shards : ∀ i s, l !! i = Some s → shard_wf s ∧ s_cap s = per ∧ ∀ k, k ∈ s_order s → shardIdx k = i
}.

Lemma lru_shard per l key : lru_wf per l → ∃ s, l !! shardIdx key = Some s ∧ l !!! shardIdx key = s.
Proof.
  intros Hwf. destruct (lookup_lt_is_Some_2 l (shardIdx key)) as [s Hs]; [rewrite (lru_len _ _ Hwf); apply shardIdx_lt |].
  exists s. split; [done |]. by apply list_lookup_total_correct.
Qed.

Lemma newLRUBuckets_wf capacity : lru_wf (Z.max 1 (Z.quot capacity 16)) (newLRUBuckets capacity).
Proof.
  unfold newLRUBuckets. split; [apply length_replicate |]. intros i s [-> Hi]%lookup_replicate. change (Z.of_nat lruShards) with 16.
  assert ((if Z.quot capacity 16 <? 1 then 1 else Z.quot capacity 16) = Z.max 1 (Z.quot capacity 16)) as ->.
  { destruct (Z.ltb_spec (Z.quot capacity 16) 1); lia. }
  split; [| split; [done | by intros k ?%elem_of_nil]]. split; cbn; [lia | apply NoDup_nil_2 | | lia].
  intros k. rewrite lookup_empty. split; [by intros ?%elem_of_nil | by intros []].
Qed.

Lemma consume_order now key rpm bst s k :
  shard_wf s → k ∈ s_order (shard_consume now key rpm bst s).2 → k = key ∨ k ∈ s_order s.
Proof.
  intros Hwf. unfold shard_consume. destruct (s_buckets s !! key); cbn; rewrite elem_of_cons.
  - rewrite list_elem_of_filter. naive_solver.
  - unfold make_room. intros [-> | Hk]; [by left |]. right. repeat case_match; cbn in Hk; [by apply list_elem_of_filter in Hk as [_ ?] | done | done].
Qed.

Lemma tryConsume_wf per now key rpm bst l : lru_wf per l → lru_wf per (tryConsume now key rpm bst l).2.
Proof.
  intros Hwf. destruct (lru_shard per l key Hwf) as (s & Hs & Es). unfold tryConsume. rewrite Es. cbn [snd].
  destruct (lru_shards _ _ Hwf _ _ Hs) as (Hsw & Hcap & Hidx). destruct (shard_consume_wf now key rpm bst s Hsw) as [Hsw' Hcap'].
  split; [by rewrite length_insert; apply lru_len with per |]. intros i s' [(<- & <- & _) | [Hne Hi]]%list_lookup_insert_Some.
  - split; [done |]. split; [congruence |]. intros k [-> | Hk]%consume_order; [done | by apply Hidx | done].
  - by apply (lru_shards _ _ Hwf).
Qed.

Section Buckets.
Context (rpm bst : Z) (Hrpm : 0 ≤ rpm) (Hbst : 1 ≤ bst).

Definition key_level (now : time) (key : string) (l : lruBuckets) : Z := shard_level rpm bst now key (l !!! shardIdx key).
Definition lru_at (now : time) (l : lruBuckets) : Prop := ∀ i s, l !! i = Some s → shard_at now s.

(** The keys of all buckets are among [K]. *)
Definition keys_in (K : list string) (l : lruBuckets) : Prop := ∀ i s k, l !! i = Some s → k ∈ s_order s → k ∈ K.

Lemma among_roomy per K l key s :
  lru_wf per l → keys_in K l → Z.of_nat (length K) ≤ per → key ∈ K → l !! shardIdx key = Some s → roomy key s.
Proof.
  intros Hwf HK Hlen Hin Hs. destruct (lru_shards _ _ Hwf _ _ Hs) as (Hsw & Hcap & _).
  destruct (s_buckets s !! key) as [b |] eqn:Hb; [left; by eexists |]. right. rewrite (shard_size s Hsw), Hcap.
  assert (key ∉ s_order s) as Hni by (rewrite (sh_keys _ Hsw), Hb; by intros []).
  assert (key :: s_order s ⊆+ K) as Hsub%submseteq_length.
  { apply NoDup_submseteq; [apply NoDup_cons; split; [done | apply (sh_nodup _ Hsw)] |].
    intros k [-> | Hk]%elem_of_cons; [done | by eapply HK]. }
  cbn in Hsub. lia.
Qed.

Lemma tryConsume_spec per K now key l :
  lru_wf per l → lru_at now l → keys_in K l → Z.of_nat (length K) ≤ per → key ∈ K →
  let r := tryConsume now key rpm bst l in
  lru_at now r.2 ∧ keys_in K r.2 ∧ Allowed r.1 = (Minute <=? key_level now key l) ∧
  key_level now key r.2 = key_level now key l - (if Allowed r.1 then Minute else 0) ∧
  ∀ k t, k ≠ key → key_level t k r.2 = key_level t k l.
Proof.
  intros Hwf Hat HK Hlen Hin r. destruct (lru_shard per l key Hwf) as (s & Hs & Es).
  destruct (lru_shards _ _ Hwf _ _ Hs) as (Hsw & _ & _).
  destruct (shard_consume_spec rpm bst Hrpm Hbst now key s (Hat _ _ Hs)) as (H1 & H2 & H3 & H4 & _); [by eapply among_roomy |].
  assert (r = ((shard_consume now key rpm bst s).1, <[shardIdx key := (shard_consume now key rpm bst s).2]> l)) as -> by (unfold r, tryConsume; by rewrite Es).
  cbn [fst snd]. unfold key_level. rewrite Es. split; [| split; [| split; [done | split]]].
  - intros i s' [(<- & <- & _) | [_ Hi]]%list_lookup_insert_Some; [done | by eapply Hat].
  - intros i s' k [(<- & <- & _) | [_ Hi]]%list_lookup_insert_Some Hk; [| by eapply HK]. apply consume_order in Hk as [-> | Hk]; [done | by eapply HK | done].
  - rewrite list_lookup_total_insert_eq by (by eapply lookup_lt_Some). done.
  - intros k t Hne. destruct (decide (shardIdx k = shardIdx key)) as [E | E].
    + rewrite E, list_lookup_total_insert_eq by (by eapply lookup_lt_Some). rewrite Es. by apply H4.
    + by rewrite list_lookup_total_insert_ne.
Qed.

Lemma key_level_max t k l : key_level t k l ≤ bst * Minute.
Proof. unfold key_level, shard_level, refilled. case_match; lia. Qed.

Lemma key_level_grows now t k l : now ≤ t → key_level t k l ≤ key_level now k l + (t - now) * rpm.
Proof. intros Ht. unfold key_level, shard_level, refilled. case_match; nia. Qed.

(** *** Sequences of requests *)

Fixpoint consumes (es : list (time * string)) (l : lruBuckets) : list (string * bool) * lruBuckets :=
  match es with
  | [] => ([], l)
  | (t, key) :: es' =>
      let r := tryConsume t key rpm bst l in
      let rest := consumes es' r.2 in ((key, Allowed r.1) :: rest.1, rest.2)
  end.

Section Keys.
Context (per : Z) (K : list string) (Hper : Z.of_nat (length K) ≤ per).

Definition lru_inv (now : time) (l : lruBuckets) : Prop := lru_wf per l ∧ lru_at now l ∧ keys_in K l.

Lemma lru_inv_later now t l : now ≤ t → lru_inv now l → lru_inv t l.
Proof.
  intros Ht (H1 & H2 & H3). split; [done |]. split; [| done]. intros i s Hs k b Hb. destruct (H2 i s Hs k b Hb). split; [done | lia].
Qed.

Lemma consumes_inv es now l last :
  lru_inv now l → in_time now es → Forall (λ e, e.1 ≤ last ∧ e.2 ∈ K) es → now ≤ last → lru_inv last (consumes es l).2.
Proof.
  revert now l. induction es as [| [t key] es IH]; intros now l Hinv Ho Hes Hnow; cbn [consumes snd]; [by eapply lru_inv_later |].
  destruct Ho as [Ht Ho]. apply Forall_cons in Hes as [[Hlt Hk] Hes]. cbn in Hlt, Hk.
  apply (lru_inv_later now t) in Hinv as (H1 & H2 & H3); [| done]. destruct (tryConsume_spec per K t key l H1 H2 H3 Hper Hk) as (H4 & H5 & _).
  eapply (IH t); [| done | done | done]. split; [by apply tryConsume_wf | done].
Qed.

(** What is granted is paid from the tokens there were and those that came. *)
Lemma consumes_paid es now l key last :
  lru_inv now l → in_time now es → Forall (λ e, e.1 ≤ last ∧ e.2 ∈ K) es → now ≤ last →
  granted key (consumes es l).1 * Minute ≤ key_level now key l + (last - now) * rpm.
Proof.
  pose proof Minute_pos as HM.
  revert now l. induction es as [| [t k] es IH]; intros now l Hinv Ho Hes Hnow; cbn [consumes fst].
  { unfold granted. cbn. destruct Hinv as (Hwf & Hat & _). destruct (lru_shard per l key Hwf) as (s & Hs & Es).
    unfold key_level, shard_level. rewrite Es. destruct (s_buckets s !! key) as [b |] eqn:Hb; [| nia].
    destruct (Hat _ _ Hs _ _ Hb). unfold refilled. nia. }
  destruct Ho as [Ht Ho]. apply Forall_cons in Hes as [[Hlt Hk] Hes]. cbn in Hlt, Hk.
  pose proof (key_level_grows now t key l Ht) as Hg.
  apply (lru_inv_later now t) in Hinv as (H1 & H2 & H3); [| done].
  destruct (tryConsume_spec per K t k l H1 H2 H3 Hper Hk) as (H4 & H5 & _ & Hlev & Hoth).
  pose proof (IH t (tryConsume t k rpm bst l).2 (conj (tryConsume_wf _ _ _ _ _ _ H1) (conj H4 H5)) Ho Hes Hlt) as IHt.
  rewrite granted_cons. destruct (decide (k = key)) as [-> | Hne].
  - rewrite Hlev in IHt. destruct (Allowed (tryConsume t key rpm bst l).1).
    + rewrite decide_True by done. nia.
    + rewrite decide_False by done. nia.
  - rewrite decide_False by congruence. rewrite Hoth in IHt by congruence. nia.
Qed.

End Keys.
End Buckets.

(** ** Requests at the same time

    Each tier has locks of its own, so that the tiers of different requests
    interleave.  [stage]: the tier a request that came takes next, [answered_yes]
    when it passed all three and [answered_no] when one rejected it. *)

Definition answered_yes : nat := 3.
Definition answered_no : nat := 4.

Record flight := mkFlight { lim : MultiTierLimiter; stage : gmap nat nat }.

Section Interleaved.
Context (reqs : nat → RateLimitRequest).

Definition next_tier (k : nat) : time → RateLimitRequest → MultiTierLimiter → option Decision_ * MultiTierLimiter :=
  match k with O => tier1 | S O => tier2 | _ => tier3 end.

Definition stage_of (s : flight) (i : nat) : nat := default 0%nat (stage s !! i).

Lemma stage_of_insert l i k m j : stage_of (mkFlight l (<[i := k]> m)) j = if decide (j = i) then k else default 0%nat (m !! j).
Proof. unfold stage_of. cbn [stage]. destruct (decide (j = i)) as [-> |]; [by rewrite lookup_insert_eq | by rewrite lookup_insert_ne]. Qed.

(** Request [i] takes its next tier at [t]. *)
Definition turn (e : time * nat) (s : flight) : flight :=
  let k := stage_of s e.2 in
  if (k <? answered_yes)%nat then
    let r := next_tier k e.1 (reqs e.2) (lim s) in
    mkFlight r.2 (<[e.2 := match r.1 with None => S k | Some _ => answered_no end]> (stage s))
  else s.

Definition turns (es : list (time * nat)) (s : flight) : flight := foldl (λ s e, turn e s) s es.

(** Alone, a request is answered by [AllowRequest]. *)
Lemma turns_alone t1 t2 t3 i l :
  let s := turns [(t1, i); (t2, i); (t3, i)] (mkFlight l ∅) in let r := AllowRequest t1 t2 t3 (reqs i) l in
  lim s = r.2 ∧ (stage_of s i = answered_yes ↔ Allowed r.1 = true).
Proof.
  assert (∀ e s, stage_of s e.2 = answered_no → turn e s = s) as Hno by (intros e s E; unfold turn; by rewrite E).
  assert (∀ l k m, stage_of (mkFlight l (<[i := k]> m)) i = k) as Hst by (intros; by rewrite stage_of_insert, decide_True).
  assert (∀ t l d l', (tier1 t (reqs i) l = (Some d, l') ∨ tier2 t (reqs i) l = (Some d, l') ∨ tier3 t (reqs i) l = (Some d, l')) → Allowed d = false) as Hrej.
  { intros t l0 d l'. unfold tier1, tier2, tier3. intros [E | [E | E]]; repeat case_match; try done; by injection E as <- <-. }
  assert (∀ t s k, stage_of s i = k → (k < answered_yes)%nat → turn (t, i) s =
    mkFlight (next_tier k t (reqs i) (lim s)).2 (<[i := match (next_tier k t (reqs i) (lim s)).1 with None => S k | Some _ => answered_no end]> (stage s))) as Hturn.
  { intros t s k Es Hk. unfold turn. cbn [fst snd]. by rewrite Es, (proj2 (Nat.ltb_lt _ _) Hk). }
  unfold turns, AllowRequest. cbn [foldl]. rewrite (Hturn t1 (mkFlight l ∅) 0%nat); [| done | unfold answered_yes; lia]. cbn [next_tier lim].
  destruct (tier1 t1 (reqs i) l) as [[d |] l1] eqn:E1; cbn [fst snd].
  { rewrite (Hno (t2, i)) by apply Hst. rewrite (Hno (t3, i)) by apply Hst. rewrite Hst. cbn [fst snd lim]. by rewrite (Hrej t1 l d l1) by auto. }
  rewrite (Hturn t2 _ 1%nat); [| apply Hst | unfold answered_yes; lia]. cbn [next_tier lim].
  destruct (tier2 t2 (reqs i) l1) as [[d |] l2] eqn:E2; cbn [fst snd].
  { rewrite (Hno (t3, i)) by apply Hst. rewrite Hst. cbn [fst snd lim]. by rewrite (Hrej t2 l1 d l2) by auto. }
  rewrite (Hturn t3 _ 2%nat); [| apply Hst | unfold answered_yes; lia]. rewrite Hst. cbn [next_tier lim].
  destruct (tier3 t3 (reqs i) l2) as [[d |] l3] eqn:E3; cbn [fst snd]; [by rewrite (Hrej t3 l2 d l3) by auto | done].
Qed.

(** The requests with a property that have passed tier [k]. *)
Definition passed (k : nat) (P : RateLimitRequest → bool) (s : flight) : gset nat :=
  dom (filter (λ '(i, x), k < x ≤ answered_yes ∧ P (reqs i) = true)%nat (stage s)).

Lemma elem_of_passed k P s i : i ∈ passed k P s ↔ (k < stage_of s i ≤ answered_yes)%nat ∧ P (reqs i) = true.
Proof.
  unfold passed, stage_of. rewrite elem_of_dom. unfold is_Some. setoid_rewrite map_lookup_filter_Some. split.
  - intros (x & E & H). by rewrite E.
  - destruct (stage s !! i) as [x |]; cbn [default from_option id]; [by exists x | lia].
Qed.

(** The requests with a property that came after [s] and are allowed in [s']. *)
Definition allowed_since (P : RateLimitRequest → bool) (s s' : flight) : gset nat :=
  dom (filter (λ '(i, x), x = answered_yes ∧ stage s !! i = None ∧ P (reqs i) = true) (stage s')).

Lemma allowed_passed k P s s' : (k < answered_yes)%nat → allowed_since P s s' ⊆ passed k P s' ∖ passed k P s.
Proof.
  intros Hk i. unfold allowed_since. rewrite elem_of_dom. intros [x (E & -> & Hn & HP)%map_lookup_filter_Some].
  rewrite elem_of_difference, !elem_of_passed. unfold stage_of. rewrite E, Hn. cbn [default from_option id]. split; [by split; [lia |] |]. intros [H _]. lia.
Qed.

(** *** One tier *)

Section Tier.
Context (c : LimiterConfig) (k : nat) (get : MultiTierLimiter → lruBuckets) (key_of : RateLimitRequest → string) (rpm bst : Z).
Context (P : RateLimitRequest → bool) (key : string).
Context (Hk : (k < answered_yes)%nat) (Hkey : ∀ r, P r = true → key_of r = key).

(** The other tiers leave the buckets of this one alone; this one takes a token
    of every request with the property that it lets pass. *)
Definition tier_step : Prop := ∀ j t r l, (j < answered_yes)%nat → cfg l = c → let d := next_tier j t r l in
  cfg d.2 = c ∧
  (get d.2 = get l ∧ (j = k → P r = true → d.1 ≠ None) ∨
   j = k ∧ get d.2 = (tryConsume t (key_of r) rpm bst (get l)).2 ∧ (d.1 = None → Allowed (tryConsume t (key_of r) rpm bst (get l)).1 = true)).

Definition ev (e : time * nat) : time * string := (e.1, key_of (reqs e.2)).

(** What one turn adds to the requests that passed. *)
Lemma turn_passed e s i :
  i ∈ passed k P (turn e s) → i ∉ passed k P s →
  i = e.2 ∧ stage_of s i = k ∧ P (reqs i) = true ∧ (next_tier k e.1 (reqs i) (lim s)).1 = None.
Proof.
  rewrite !elem_of_passed. unfold turn. destruct (Nat.ltb_spec (stage_of s e.2) answered_yes) as [Hj |]; [| tauto].
  rewrite stage_of_insert. destruct (decide (i = e.2)) as [-> | Hne]; [| fold (stage_of s i); tauto].
  intros [H1 HP] H2. split; [done |].
  destruct (next_tier (stage_of s e.2) e.1 (reqs e.2) (lim s)).1 eqn:E; [unfold answered_no, answered_yes in *; lia |].
  assert (stage_of s e.2 = k) as <-; [| done]. destruct (decide (stage_of s e.2 = k)); [done |]. exfalso. apply H2. split; [lia | done].
Qed.

Lemma tier_trace es s :
  tier_step → cfg (lim s) = c →
  cfg (lim (turns es s)) = c ∧
  ∃ es', sublist es' (ev <$> es) ∧ get (lim (turns es s)) = (consumes rpm bst es' (get (lim s))).2 ∧
    Z.of_nat (size (passed k P (turns es s) ∖ passed k P s)) ≤ granted key (consumes rpm bst es' (get (lim s))).1.
Proof.
  intros Hstep. revert s. induction es as [| e es IH]; intros s Hc; cbn [turns foldl].
  { split; [done |]. exists []. split; [done |]. split; [done |]. by rewrite difference_diag_L, size_empty. }
  assert (cfg (lim (turn e s)) = c ∧
    (get (lim (turn e s)) = get (lim s) ∧ passed k P (turn e s) ⊆ passed k P s ∨
     get (lim (turn e s)) = (tryConsume (ev e).1 (ev e).2 rpm bst (get (lim s))).2 ∧
     passed k P (turn e s) ∖ passed k P s ⊆ (if Allowed (tryConsume (ev e).1 (ev e).2 rpm bst (get (lim s))).1 && bool_decide ((ev e).2 = key) then {[e.2]} else ∅))) as [Hc' Hone].
  { destruct (Nat.ltb_spec (stage_of s e.2) answered_yes) as [Hj | Hj].
    2:{ assert (turn e s = s) as -> by (unfold turn; by rewrite (proj2 (Nat.ltb_ge _ _) Hj)). split; [done |]. by left. }
    destruct (Hstep (stage_of s e.2) e.1 (reqs e.2) (lim s) Hj Hc) as [H1 H2].
    assert (lim (turn e s) = (next_tier (stage_of s e.2) e.1 (reqs e.2) (lim s)).2) as -> by (unfold turn; by rewrite (proj2 (Nat.ltb_lt _ _) Hj)).
    split; [done |]. destruct H2 as [[Hsame Hrej] | (Hjk & Hcons & Hpass)]; [left | right]; (split; [done |]).
    - intros i Hi. destruct (decide (i ∈ passed k P s)) as [| Hni]; [done |]. destruct (turn_passed e s i Hi Hni) as (-> & Es & HP & Hn).
      rewrite Es in Hrej. by destruct (Hrej eq_refl HP Hn).
    - intros i [Hi Hni]%elem_of_difference. destruct (turn_passed e s i Hi Hni) as (-> & Es & HP & Hn). rewrite Es in Hpass.
      cbn [ev fst snd]. rewrite (Hpass Hn), bool_decide_eq_true_2 by (by apply Hkey). set_solver. }
  destruct (IH (turn e s) Hc') as [Hc'' (es' & Hes & Hget & Hcnt)]. split; [done |].
  assert (∀ A B C : gset nat, A ∖ C ⊆ (A ∖ B) ∪ (B ∖ C)) as Htri.
  { intros A B C i. rewrite elem_of_union, !elem_of_difference. destruct (decide (i ∈ B)); tauto. }
  assert (∀ A B : gset nat, Z.of_nat (size (A ∪ B)) ≤ Z.of_nat (size A) + Z.of_nat (size B)) as Hun.
  { intros A B. rewrite size_union_alt. pose proof (subseteq_size (B ∖ A) B ltac:(set_solver)). lia. }
  pose proof (subseteq_size _ _ (Htri (passed k P (turns es (turn e s))) (passed k P (turn e s)) (passed k P s))) as Hsub.
  pose proof (Hun (passed k P (turns es (turn e s)) ∖ passed k P (turn e s)) (passed k P (turn e s) ∖ passed k P s)) as Hsum.
  fold (turns es (turn e s)). destruct Hone as [[Hsame Hno] | [Hcons Hnew%subseteq_size]].
  - rewrite Hsame in Hget, Hcnt. exists es'. split; [by apply sublist_cons |]. split; [done |].
    assert (passed k P (turn e s) ∖ passed k P s = ∅) as E by set_solver. rewrite E in Hsub, Hsum. rewrite size_empty in Hsum. lia.
  - rewrite Hcons in Hget, Hcnt. exists (ev e :: es'). split; [cbn; by apply sublist_skip |]. destruct (ev e) as [t k0]. cbn [consumes fst snd] in *.
    split; [done |]. rewrite granted_cons. destruct (Allowed (tryConsume t k0 rpm bst (get (lim s))).1); cbn [andb] in Hnew.
    + case_bool_decide as Hkk; [rewrite decide_True by congruence; rewrite size_singleton in Hnew | rewrite decide_False by congruence; rewrite size_empty in Hnew]; lia.
    + rewrite size_empty in Hnew. case_decide; lia.
Qed.

Context (per : Z) (K : list string) (Hper : Z.of_nat (length K) ≤ per) (Hrpm : 0 ≤ rpm) (Hbst : 1 ≤ bst).

(** In a stretch of time, no more than the burst and what is refilled. *)
Lemma tier_bound pre win s now a b :
  tier_step → cfg (lim s) = c → lru_inv per K now (get (lim s)) → in_time now (pre ++ win) → now ≤ a → a ≤ b →
  (∀ e, e ∈ pre → e.1 ≤ a) → (∀ e, e ∈ win → a ≤ e.1 ≤ b) → (∀ e, e ∈ pre ++ win → (ev e).2 ∈ K) →
  Z.of_nat (size (allowed_since P (turns pre s) (turns win (turns pre s)))) * Minute ≤ bst * Minute + rpm * (b - a).
Proof.
  intros Hstep Hc Hinv Ho Hna Hab Hpre Hwin HK. pose proof Minute_pos as HM.
  destruct (tier_trace pre s Hstep Hc) as [Hc1 (es1 & Hs1 & Hg1 & _)].
  destruct (tier_trace win (turns pre s) Hstep Hc1) as [_ (es2 & Hs2 & _ & Hcnt)]. rewrite Hg1 in Hcnt.
  pose proof (subseteq_size _ _ (allowed_passed k P (turns pre s) (turns win (turns pre s)) Hk)) as Hall.
  assert (∀ es rs e, sublist es (ev <$> rs) → e ∈ es → ∃ r, r ∈ rs ∧ e = ev r) as Hmem.
  { intros es rs e Hs He. pose proof (sublist_submseteq _ _ Hs) as Hsub. eapply elem_of_submseteq in He; [| exact Hsub].
    apply list_elem_of_fmap in He as (r & -> & Hr). eauto. }
  apply in_time_app in Ho as [Ho1 Ho2]. apply (in_time_fmap _ (λ e, key_of (reqs e.2))) in Ho1.
  assert (in_time a (ev <$> win)) as Ho3.
  { apply (in_time_fmap _ (λ e, key_of (reqs e.2))). destruct win as [| [t i] win]; [done |]. destruct Ho2 as [_ Ho2]. split; [| done].
    by destruct (Hwin (t, i) ltac:(by left)). }
  pose proof (in_time_sublist _ _ _ Hs1 Ho1) as Ho1'. pose proof (in_time_sublist _ _ _ Hs2 Ho3) as Ho2'.
  pose proof (key_level_max rpm bst a key (consumes rpm bst es1 (get (lim s))).2) as Hmax.
  enough (granted key (consumes rpm bst es2 (consumes rpm bst es1 (get (lim s))).2).1 * Minute
    ≤ key_level rpm bst a key (consumes rpm bst es1 (get (lim s))).2 + (b - a) * rpm) by nia.
  apply (consumes_paid rpm bst Hrpm Hbst per K Hper); [| done | | done].
  - apply (consumes_inv rpm bst Hrpm Hbst per K Hper es1 now); [done | done | | done].
    apply Forall_forall. intros x Hx. destruct (Hmem _ _ x Hs1 Hx) as (e & He & ->). split; [by apply Hpre | apply HK, elem_of_app; by left].
  - apply Forall_forall. intros x Hx. destruct (Hmem _ _ x Hs2 Hx) as (e & He & ->). split; [by apply Hwin | apply HK, elem_of_app; by right].
Qed.

End Tier.
End Interleaved.

(** ** The tiers of namespaces and of wallets *)

Definition of_namespace (ns : string) (r : RateLimitRequest) : bool := String.eqb (req_Namespace r) ns.
Definition of_wallet (ns wallet : string) (r : RateLimitRequest) : bool := String.eqb (req_Namespace r) ns && String.eqb (req_Wallet r) wallet.
Definition wallet_key (r : RateLimitRequest) : string := req_Namespace r +:+ "/" +:+ req_Wallet r.

Lemma tier1_frame t req l :
  cfg (tier1 t req l).2 = cfg l ∧ walletBuckets (tier1 t req l).2 = walletBuckets l ∧ namespaceBuckets (tier1 t req l).2 = namespaceBuckets l.
Proof. unfold tier1. by destruct (Override req) as [o |]; [destruct (_ && _) |]. Qed.

Lemma tier2_frame t req l : cfg (tier2 t req l).2 = cfg l ∧ namespaceBuckets (tier2 t req l).2 = namespaceBuckets l.
Proof. unfold tier2. by destruct (negb _); [| destruct (negb _)]. Qed.

Lemma tier3_frame t req l : cfg (tier3 t req l).2 = cfg l ∧ walletBuckets (tier3 t req l).2 = walletBuckets l.
Proof. unfold tier3. by destruct (negb _). Qed.

Lemma namespace_step c ns :
  ns ≠ EmptyString → tier_step c 2 namespaceBuckets req_Namespace (PerNamespacePerMinute c) (PerNamespaceBurst c) (of_namespace ns).
Proof.
  intros Hns j t r l Hj Hc. destruct j as [| [| [| j]]]; [| | | unfold answered_yes in Hj; lia]; cbn [next_tier].
  - destruct (tier1_frame t r l) as (-> & _ & ->). split; [done |]. left. split; [done | lia].
  - destruct (tier2_frame t r l) as (-> & ->). split; [done |]. left. split; [done | lia].
  - destruct (tier3_frame t r l) as (-> & _). split; [done |]. unfold tier3. rewrite Hc.
    destruct (String.eqb_spec (req_Namespace r) EmptyString) as [He | He]; cbn [negb fst snd namespaceBuckets].
    + left. split; [done |]. unfold of_namespace. intros _ E%String.eqb_eq. congruence.
    + right. split; [done |]. split; [done |]. by destruct (Allowed _).
Qed.

Lemma wallet_step c ns wallet :
  wallet ≠ EmptyString → tier_step c 1 walletBuckets wallet_key (PerWalletPerMinute c) (PerWalletBurst c) (of_wallet ns wallet).
Proof.
  intros Hw j t r l Hj Hc. destruct j as [| [| [| j]]]; [| | | unfold answered_yes in Hj; lia]; cbn [next_tier].
  - destruct (tier1_frame t r l) as (-> & -> & _). split; [done |]. left. split; [done | lia].
  - destruct (tier2_frame t r l) as (-> & _). split; [done |]. unfold tier2. rewrite Hc.
    destruct (String.eqb_spec (req_Wallet r) EmptyString) as [He | He]; cbn [negb].
    + left. split; [by destruct (negb _) |]. unfold of_wallet. intros _ [_ E%String.eqb_eq]%andb_true_iff. congruence.
    + right. cbn [fst snd walletBuckets]. split; [done |]. split; [done |]. fold (wallet_key r). by destruct (Allowed _).
  - destruct (tier3_frame t r l) as (-> & ->). split; [done |]. left. split; [done | lia].
Qed.

Definition per_shard (c : LimiterConfig) : Z := Z.max 1 (Z.quot (MaxBucketsPerScope c) 16).

Lemma sane_positive c : let s := sane_config c in
  0 < PerWalletPerMinute s ∧ 1 ≤ PerWalletBurst s ∧ 0 < PerNamespacePerMinute s ∧ 1 ≤ PerNamespaceBurst s.
Proof.
  assert (∀ v d, 1 ≤ d → 1 ≤ or_default v d) as Hd by (intros v d ?; unfold or_default; destruct (Z.leb_spec v 0); lia). cbn.
  pose proof (Hd (PerWalletPerMinute c) 600). pose proof (Hd (PerWalletBurst c) 60). pose proof (Hd (PerNamespacePerMinute c) 60000).
  pose proof (Hd (PerNamespaceBurst c) 6000). lia.
Qed.

Lemma new_lru_inv c K now : lru_inv (per_shard c) K now (newLRUBuckets (MaxBucketsPerScope c)).
Proof.
  split; [apply newLRUBuckets_wf |]. unfold newLRUBuckets. split.
  - intros i s [-> _]%lookup_replicate k b. cbn. by rewrite lookup_empty.
  - intros i s k [-> _]%lookup_replicate. cbn. by intros ?%elem_of_nil.
Qed.

(** C24: the limits of functions.  Whatever requests come and however their
    tiers interleave, and whatever limits single functions declare: of the
    requests that come and are answered between [a] and [b], at most the burst of
    a namespace and its rate's share of the time are allowed in a namespace, and
    likewise for each wallet of a namespace; as long as no more namespaces, and
    no more wallets, ever come than one shard remembers (a bucket that is
    evicted starts full again).  The tiers are taken in the order of their
    readings of the clock, and tokens are counted exactly. *)
Theorem function_rate_bounded c reqs NS WS pre win now a b ns wallet :
  let s := sane_config c in
  let before := turns reqs pre (mkFlight (NewMultiTierLimiter c) ∅) in
  let after := turns reqs win before in
  in_time now (pre ++ win) → now ≤ a → a ≤ b →
  (∀ e, e ∈ pre → e.1 ≤ a) → (∀ e, e ∈ win → a ≤ e.1 ≤ b) →
  (∀ e, e ∈ pre ++ win → req_Namespace (reqs e.2) ∈ NS ∧ wallet_key (reqs e.2) ∈ WS) →
  Z.of_nat (length NS) ≤ per_shard s → Z.of_nat (length WS) ≤ per_shard s → ns ≠ EmptyString → wallet ≠ EmptyString →
  Z.of_nat (size (allowed_since reqs (of_namespace ns) before after)) * Minute ≤ PerNamespaceBurst s * Minute + PerNamespacePerMinute s * (b - a) ∧
  Z.of_nat (size (allowed_since reqs (of_wallet ns wallet) before after)) * Minute ≤ PerWalletBurst s * Minute + PerWalletPerMinute s * (b - a).
Proof.
  intros s before after Ho Hna Hab Hpre Hwin Hkeys HNS HWS Hns Hw. destruct (sane_positive c) as (P1 & P2 & P3 & P4). split.
  - apply (tier_bound reqs s 2 namespaceBuckets req_Namespace (PerNamespacePerMinute s) (PerNamespaceBurst s) (of_namespace ns) ns
      ltac:(unfold answered_yes; lia) ltac:(by intros r E%String.eqb_eq) (per_shard s) NS HNS (Z.lt_le_incl _ _ P3) P4 pre win _ now);
      [by apply namespace_step | done | apply new_lru_inv | done | done | done | done | done | by intros e He; apply Hkeys].
  - apply (tier_bound reqs s 1 walletBuckets wallet_key (PerWalletPerMinute s) (PerWalletBurst s) (of_wallet ns wallet) (ns +:+ "/" +:+ wallet)
      ltac:(unfold answered_yes; lia) ltac:(intros r [E1%String.eqb_eq E2%String.eqb_eq]%andb_true_iff; unfold wallet_key; by rewrite E1, E2)
      (per_shard s) WS HWS (Z.lt_le_incl _ _ P1) P2 pre win _ now);
      [by apply wallet_step | done | apply new_lru_inv | done | done | done | done | done | by intros e He; apply Hkeys].
Qed.

Definition small_config : LimiterConfig := mkLimiterConfig 6 2 60 3 0 0 64.
Definition callers (i : nat) : RateLimitRequest :=
  mkRequest "app" "f" (match i with 2 | 4 => "ben" | _ => "anna" end)%nat%string EmptyString None.

(** Five requests whose tiers alternate: tier by tier, the first of all before
    the second of any. *)
Definition crossing : list (time * nat) :=
  concat ((λ k, (λ i, (10 * k + Z.of_nat i, i)) <$> [0; 1; 2; 3; 4]%nat) <$> [1; 2; 3]).

(** Anna and Ben: three are allowed of the five requests. *)
Lemma function_rate_bounded_witness :
  let before := turns callers [] (mkFlight (NewMultiTierLimiter small_config) ∅) in
  let after := turns callers crossing before in
  size (allowed_since callers (of_namespace "app") before after) = 3%nat ∧
  Z.of_nat (size (allowed_since callers (of_namespace "app") before after)) * Minute ≤ 3 * Minute + 60 * (40 - 5) ∧
  Z.of_nat (size (allowed_since callers (of_wallet "app" "anna") before after)) * Minute ≤ 2 * Minute + 6 * (40 - 5).
Proof.
  intros before after. split; [by vm_compute |].
  apply (function_rate_bounded small_config callers ["app"%string] ["app/anna"; "app/ben"]%string [] crossing 0 5 40 "app" "anna");
    [by vm_compute; repeat split | done | done | by intros r ?%elem_of_nil | | | done | done | done | done].
  - apply Forall_forall. apply (bool_decide_unpack _). by vm_compute.
  - apply Forall_forall. apply (bool_decide_unpack _). by vm_compute.
Defined.

(** The memory of the limiter is bounded.  Whatever keys are asked for, the
    buckets keep their books: every shard has one place of recency per bucket,
    each in the shard its hash selects, and no more than its share. *)
Theorem buckets_bounded capacity (es : list (time * string * Z * Z)) :
  let l := foldl (λ l '(t, key, rpm, bst), (tryConsume t key rpm bst l).2) (newLRUBuckets capacity) es in
  length l = 16%nat ∧
  ∀ i sh, l !! i = Some sh →
    NoDup (s_order sh) ∧ (∀ k, k ∈ s_order sh ↔ is_Some (s_buckets sh !! k)) ∧ (∀ k, k ∈ s_order sh → shardIdx k = i) ∧
    Z.of_nat (size (s_buckets sh)) ≤ Z.max 1 (Z.quot capacity 16).
Proof.
  intros l. assert (lru_wf (Z.max 1 (Z.quot capacity 16)) l) as Hwf.
  { unfold l. generalize (newLRUBuckets_wf capacity). generalize (newLRUBuckets capacity). clear l.
    induction es as [| [[[t key] rpm] bst] es IH]; intros l Hl; [done |]. apply IH. by apply tryConsume_wf. }
  split; [apply (lru_len _ _ Hwf) |]. intros i sh Hi. destruct (lru_shards _ _ Hwf i sh Hi) as (Hsw & Hcap & Hidx).
  split; [apply (sh_nodup _ Hsw) |]. split; [apply (sh_keys _ Hsw) |]. split; [done |].
  rewrite (shard_size sh Hsw), <- Hcap. apply (sh_bound _ Hsw).
Qed.

(** A request the namespace rejects has taken a token of the wallet. *)
Lemma rejected_request_pays :
  let call w t l := AllowRequest t t t (mkRequest "app" "f" w EmptyString None) l in
  let l := (call "carl" 3 (call "ben" 2 (call "ben" 1 (NewMultiTierLimiter small_config)).2).2).2 in
  let r := call "anna" 4 l in
  Scope r.1 = "per_namespace"%string ∧
  key_level 6 2 4 "app/anna" (walletBuckets r.2) = key_level 6 2 4 "app/anna" (walletBuckets l) - Minute.
Proof. by vm_compute. Qed.
