(* ===== verification/Engine.v ===== *)
(** * Errors of the serverless package and one execution of a function
      ([core/pkg/serverless/errors.go], [engine.go], [invocation.go],
      [raw_http.go], [invocation_log_queue.go])

    The WebAssembly runtime and the storage of the code are outside of the
    sources: what they answer during one execution is a [surroundings], an
    argument of [Execute].  The limiter and the module cache are those of
    [FunctionLimits] and [ModuleCache]. *)

From Stdlib Require Import ZArith Lia String.
From stdpp Require Import base tactics numbers list gmap strings.
From S2P Require Import Prelude GoStrings ModuleCache RateLimit FunctionLimits FunctionRegistry.

Local Open Scope go_scope.

(** ** Errors *)

Module Errors.

Inductive sentinel :=
| ErrFunctionNotFound | ErrFunctionExists | ErrVersionNotFound | ErrSecretNotFound | ErrJobNotFound | ErrTriggerNotFound | ErrTimerNotFound
| ErrUnauthorized | ErrRateLimited | ErrInvalidWASM | ErrCompilationFailed | ErrExecutionFailed | ErrTimeout | ErrMemoryExceeded
| ErrInvalidInput | ErrWSNotAvailable | ErrFunctionInvokeNotAvailable | ErrWSClientNotFound | ErrInvalidCronExpression | ErrPayloadTooLarge
| ErrQueueFull | ErrJobCancelled | ErrStorageUnavailable | ErrWASMFetchTimeout | ErrDatabaseUnavailable | ErrCacheUnavailable.
#[export] Instance sentinel_eq_dec : EqDecision sentinel.
Proof. solve_decision. Defined.

(** [Wrapped]: [fmt.Errorf] with [%w]; [Opaque]: an error of another package. *)
Inductive error :=
| Sentinel (s : sentinel)
| ConfigError (field message : string)
| DeployError (functionName : string) (cause : error)
| ExecutionError (functionName requestID : string) (cause : error)
| HostFunctionError (function : string) (cause : error)
| TriggerError (triggerType triggerID functionID : string) (cause : error)
| ValidationError (field message : string)
| RetryableError (cause : error) (retryAfter maxRetries currentTry : Z)
| RateLimitedError (scope : string) (retryAfter : time)
| Wrapped (message : string) (cause : error)
| Canceled
| DeadlineExceeded
| Opaque (message : string).

Definition Unwrap (e : error) : option error :=
  match e with
  | DeployError _ c | ExecutionError _ _ c | HostFunctionError _ c | TriggerError _ _ _ c | RetryableError c _ _ _ | Wrapped _ c => Some c
  | _ => None
  end.

(** [errors.Is] with a sentinel. *)
Fixpoint Is (e : error) (target : sentinel) : bool :=
  match e with
  | Sentinel s => bool_decide (s = target)
  | DeployError _ c | ExecutionError _ _ c | HostFunctionError _ c | TriggerError _ _ _ c | RetryableError c _ _ _ | Wrapped _ c => Is c target
  | _ => false
  end.

Definition is_any (e : error) (targets : list sentinel) : bool := existsb (Is e) targets.

Fixpoint IsRetryable (e : error) : bool :=
  match e with
  | RetryableError _ _ _ _ => true
  | DeployError _ c | ExecutionError _ _ c | HostFunctionError _ c | TriggerError _ _ _ c | Wrapped _ c => IsRetryable c
  | _ => false
  end.

Definition IsNotFound (e : error) : bool :=
  is_any e [ErrFunctionNotFound; ErrVersionNotFound; ErrSecretNotFound; ErrJobNotFound; ErrTriggerNotFound; ErrTimerNotFound; ErrWSClientNotFound].
Definition IsUnauthorized (e : error) : bool := Is e ErrUnauthorized.
Definition IsResourceExhausted (e : error) : bool := is_any e [ErrRateLimited; ErrMemoryExceeded; ErrPayloadTooLarge; ErrQueueFull; ErrTimeout].
Definition IsServiceUnavailable (e : error) : bool := is_any e [ErrStorageUnavailable; ErrDatabaseUnavailable; ErrCacheUnavailable].

(** The errors of the registry. *)
Definition of_registry (e : registry_error) : error :=
  match e with
  | FunctionRegistry.ValidationError field => ValidationError field "cannot be empty"
  | FunctionRegistry.DeployError name cause => DeployError name (Opaque cause)
  | FunctionRegistry.ErrFunctionNotFound => Sentinel ErrFunctionNotFound
  | FunctionRegistry.ErrVersionNotFound => Sentinel ErrVersionNotFound
  | OtherFailure message => Opaque message
  end.

Lemma Is_Unwrap e target : Is e target = match e with Sentinel s => bool_decide (s = target) | _ => match Unwrap e with Some c => Is c target | None => false end end.
Proof. by destruct e. Qed.

End Errors.
Import Errors.

(** ** The context of an invocation *)

Inductive TriggerType :=
| TriggerTypeHTTP | TriggerTypeWebSocket | TriggerTypeCron | TriggerTypeDatabase | TriggerTypePubSub | TriggerTypeTimer | TriggerTypeJob | TriggerTypeInternal.

Inductive InvocationStatus := InvocationStatusSuccess | InvocationStatusError | InvocationStatusTimeout.

Record InvocationContext := mkInvocationContext {
  RequestID : string; FunctionID : string; FunctionName : string; inv_Namespace : string; CallerWallet : string; CallerIP : string;
  Trigger : TriggerType; WSClientID : string; inv_EnvVars : gmap string string; CallerClaims : gmap string string; CallerJWTSubject : string;
  TriggerDepth : Z
}.

Definition EnsureInvocationContext (uuid : string) (ctx : option InvocationContext) (fn : Function) : InvocationContext :=
  match ctx with
  | Some c => c
  | None => mkInvocationContext uuid (ID fn) (Name fn) (Namespace fn) EmptyString EmptyString TriggerTypeHTTP EmptyString ∅ ∅ EmptyString 0
  end.

(** The time a function may take. *)
Definition CreateTimeoutContext (fn : Function) (maxTimeout : Z) : time :=
  let timeout := wrap64 (TimeoutSeconds (Settings fn) * Second) in
  let most := wrap64 (maxTimeout * Second) in
  if (most <? timeout)%Z then most else timeout.

(** ** Verbatim HTTP responses ([raw_http.go]) *)

Definition rawHTTPMaxHeaders : nat := 64.
Definition rawHTTPMaxBodyBytes : Z := 8 * 2 ^ 20.
Definition rawHTTPMinStatus : Z := 100.
Definition rawHTTPMaxStatus : Z := 599.

Record RawHTTPResult := mkRaw { raw_Status : Z; raw_Headers : gmap string string; raw_Body : string; raw_Set : bool }.

(** The collector of a context; without one the call is an error. *)
Definition SetRawHTTPResponse (status : Z) (headers : gmap string string) (body : string) (c : option RawHTTPResult) : result string unit * option RawHTTPResult :=
  match c with
  | None => (Err "set_http_response: function is not deployed with raw_http_response enabled", c)
  | Some _ =>
      if (status <? rawHTTPMinStatus)%Z || (rawHTTPMaxStatus <? status)%Z then (Err "set_http_response: status out of range", c)
      else if (rawHTTPMaxHeaders <? size headers)%nat then (Err "set_http_response: too many headers", c)
      else if (rawHTTPMaxBodyBytes <? Z.of_nat (String.length body))%Z then (Err "set_http_response: body too large", c)
      else (Ok tt, Some (mkRaw status headers body true))
  end.

Definition TakeRawHTTPResponse (c : option RawHTTPResult) : option RawHTTPResult :=
  match c with Some r => if raw_Set r then Some r else None | None => None end.

(** The calls of one execution, in order. *)
Definition raw_calls_of (calls : list (Z * gmap string string * string)) (c : option RawHTTPResult) : option RawHTTPResult :=
  foldl (λ c '(status, headers, body), (SetRawHTTPResponse status headers body c).2) c calls.

(** ** The queue of invocation records *)

Record InvocationRecord := mkRecord {
  rec_FunctionID : string; rec_RequestID : string; rec_Trigger : TriggerType; rec_CallerWallet : string; rec_OutputSize : nat;
  rec_Status : InvocationStatus; rec_Error : option error
}.

Definition invocationLogQueueSize : nat := 4096.

Record invocationLogQueue := mkQueue { ch : list InvocationRecord; dropped : Z }.

Definition enqueue (rec : InvocationRecord) (q : invocationLogQueue) : bool * invocationLogQueue :=
  if (length (ch q) <? invocationLogQueueSize)%nat then (true, mkQueue (ch q ++ [rec]) (dropped q))
  else (false, mkQueue (ch q) (wrap64 (dropped q + 1))).

(** The worker takes the oldest record. *)
Definition drain (q : invocationLogQueue) : option InvocationRecord * invocationLogQueue :=
  match ch q with
  | [] => (None, q)
  | rec :: rest => (Some rec, mkQueue rest (dropped q))
  end.

(** ** One execution *)

Inductive limiter := NoLimiter | Tiered (l : MultiTierLimiter) | Simple (t : TokenBucketLimiter).

Record engine := mkEngine {
  rateLimiter : limiter; moduleCache : ModuleCache; closed_modules : list handle; logQueue : option invocationLogQueue;
  LogInvocations : bool; MaxMemoryLimitMB : Z; MaxTimeoutSeconds : Z
}.

(** What a run of a module gives: the output, or the error and whether the
    time was over; and what it gave to [set_http_response], in order. *)
Record ran := mkRan { outcome : result (error * bool) string; raw_calls : list (Z * gmap string string * string) }.

(** What the clock, the storage and the runtime answer during an execution:
    the code with an id, the module compiled from a code, the maxima a module
    declares for its exported memories, whether it is a reactor, and the run,
    in the context of the invocation and on an input, of a command module or
    of a pre-warmed instance of a reactor. *)
Record surroundings := mkSurroundings {
  limit_t1 : time; limit_t2 : time; limit_t3 : time; cache_t1 : time; cache_t2 : time; visit : list string;
  fetched : string → result error string; compiled_module : string → result string handle; memories : handle → list (option Z);
  moduleIsReactor : handle → bool;
  ExecuteModule : InvocationContext → handle → string → string → ran;
  invokeReactor : InvocationContext → string → string → string → ran
}.

Definition checkMemoryLimits (maxMB : Z) (mems : list (option Z)) : bool :=
  let maxPages := (wrap64 (maxMB * 16) mod 2 ^ 32)%Z in
  forallb (λ m, match m with Some max => (max <=? maxPages)%Z | None => true end) mems.

Definition with_limiter (l : limiter) (e : engine) : engine :=
  mkEngine l (moduleCache e) (closed_modules e) (logQueue e) (LogInvocations e) (MaxMemoryLimitMB e) (MaxTimeoutSeconds e).
Definition with_cache (c : ModuleCache) (gone : list handle) (e : engine) : engine :=
  mkEngine (rateLimiter e) c (closed_modules e ++ gone) (logQueue e) (LogInvocations e) (MaxMemoryLimitMB e) (MaxTimeoutSeconds e).
Definition with_queue (q : invocationLogQueue) (e : engine) : engine :=
  mkEngine (rateLimiter e) (moduleCache e) (closed_modules e) (Some q) (LogInvocations e) (MaxMemoryLimitMB e) (MaxTimeoutSeconds e).

Definition check_limits (x : surroundings) (invCtx : InvocationContext) (e : engine) : option error * engine :=
  match rateLimiter e with
  | NoLimiter => (None, e)
  | Tiered l =>
      let r := AllowRequest (limit_t1 x) (limit_t2 x) (limit_t3 x)
                 (mkRequest (inv_Namespace invCtx) (FunctionName invCtx) (CallerWallet invCtx) (CallerIP invCtx) None) l in
      (if Allowed r.1 then None else Some (RateLimitedError (Scope r.1) (RetryAfter r.1)), with_limiter (Tiered r.2) e)
  | Simple t =>
      let r := TokenBucket_Allow (limit_t1 x) t in
      (if r.1 then None else Some (Sentinel ErrRateLimited), with_limiter (Simple r.2) e)
  end.

(** The code is fetched, compiled and checked; a module over the limit is
    closed. *)
Definition compile_module (x : surroundings) (wasmCID : string) (e : engine) : result error handle * list handle :=
  match fetched x wasmCID with
  | Err err => (Err (Wrapped "failed to fetch WASM" err), [])
  | Ok wasmBytes =>
      match compiled_module x wasmBytes with
      | Err _ => (Err (Sentinel ErrCompilationFailed), [])
      | Ok m => if checkMemoryLimits (MaxMemoryLimitMB e) (memories x m) then (Ok m, []) else (Err (Opaque "module declares too much memory"), [m])
      end
  end.

(** Only a miss compiles. *)
Definition getOrCompileModule (x : surroundings) (wasmCID : string) (e : engine) : result error handle * engine :=
  let '(computed, refused) := if Has wasmCID (moduleCache e) then (Err (Opaque EmptyString), []) else compile_module x wasmCID e in
  let '(r, c, gone) := GetOrCompute (cache_t1 x) (cache_t2 x) (visit x) wasmCID computed (moduleCache e) in
  (r, with_cache c (refused ++ gone) e).

Definition logInvocation (fn : Function) (invCtx : InvocationContext) (outputSize : nat) (status : InvocationStatus) (err : option error) (e : engine) : engine :=
  match logQueue e with
  | Some q =>
      if LogInvocations e then
        with_queue (enqueue (mkRecord (ID fn) (RequestID invCtx) (Trigger invCtx) (CallerWallet invCtx) outputSize status err) q).2 e
      else e
  | None => e
  end.

(** The run of the module of a function. *)
Definition run_function (x : surroundings) (fn : Function) (input : string) (invCtx : InvocationContext) (module : handle) : ran :=
  if moduleIsReactor x module then invokeReactor x invCtx (WASMCID fn) (Name fn) input
  else ExecuteModule x invCtx module (Name fn) input.

(** The answer is the output and the raw HTTP response the function set. *)
Definition Execute (x : surroundings) (fn : Function) (input : string) (invCtx : InvocationContext) (e : engine)
    : result error (string * option RawHTTPResult) * engine :=
  match check_limits x invCtx e with
  | (Some err, e1) => (Err err, e1)
  | (None, e1) =>
      match getOrCompileModule x (WASMCID fn) e1 with
      | (Err err, e2) => (Err (ExecutionError (Name fn) (RequestID invCtx) err), logInvocation fn invCtx 0 InvocationStatusError (Some err) e2)
      | (Ok module, e2) =>
          let run := run_function x fn input invCtx module in
          match outcome run with
          | Err (err, late) =>
              let status := if late then InvocationStatusTimeout else InvocationStatusError in
              let err := if late then Sentinel ErrTimeout else err in
              (Err (ExecutionError (Name fn) (RequestID invCtx) err), logInvocation fn invCtx 0 status (Some err) e2)
          | Ok output =>
              (Ok (output, TakeRawHTTPResponse (raw_calls_of (raw_calls run) (if RawHTTPResponse (Settings fn) then Some (mkRaw 0 ∅ EmptyString false) else None))),
               logInvocation fn invCtx (String.length output) InvocationStatusSuccess None e2)
          end
      end
  end.

(** ** What an execution does *)

Lemma raw_calls_None calls : raw_calls_of calls None = None.
Proof. unfold raw_calls_of. induction calls as [| [[status headers] body] calls IH]; [done |]. exact IH. Qed.

(** A call that [SetRawHTTPResponse] accepts. *)
Definition acceptable (call : Z * gmap string string * string) : Prop :=
  (100 ≤ call.1.1 ≤ 599)%Z ∧ (size call.1.2 ≤ 64)%nat ∧ (Z.of_nat (String.length call.2) ≤ 8 * 2 ^ 20)%Z.

#[export] Instance acceptable_dec call : Decision (acceptable call).
Proof. unfold acceptable. apply _. Defined.

Lemma SetRaw_collected status headers body r :
  (SetRawHTTPResponse status headers body (Some r)).2
  = Some (if decide (acceptable (status, headers, body)) then mkRaw status headers body true else r).
Proof.
  unfold SetRawHTTPResponse, acceptable, rawHTTPMinStatus, rawHTTPMaxStatus, rawHTTPMaxHeaders, rawHTTPMaxBodyBytes. cbn [fst snd].
  destruct (Z.ltb_spec status 100); [by rewrite decide_False by lia |]. destruct (Z.ltb_spec 599 status); [by rewrite decide_False by lia |]. cbn [orb].
  destruct (Nat.ltb_spec 64 (size headers)); [by rewrite decide_False by lia |].
  destruct (Z.ltb_spec (8 * 2 ^ 20) (Z.of_nat (String.length body))); [by rewrite decide_False by lia |]. by rewrite decide_True by lia.
Qed.

(** The last acceptable call wins. *)
Lemma raw_calls_last calls r :
  raw_Set r = false →
  TakeRawHTTPResponse (raw_calls_of calls (Some r))
  = (λ call, mkRaw call.1.1 call.1.2 call.2 true) <$> last (filter acceptable calls).
Proof.
  intros Hr. assert (raw_calls_of calls (Some r)
    = Some (default r ((λ call, mkRaw call.1.1 call.1.2 call.2 true) <$> last (filter acceptable calls)))) as ->.
  { induction calls as [| [[status headers] body] calls IH] using rev_ind; [done |]. unfold raw_calls_of in *.
    rewrite foldl_snoc, IH, SetRaw_collected, filter_app, last_app, filter_cons. cbn [filter list_filter last].
    by case_decide; destruct (last (filter acceptable calls)). }
  destruct (last (filter acceptable calls)) as [call |]; cbn; [done | by rewrite Hr].
Qed.

Definition queue_fits (e : engine) : Prop := ∀ q, logQueue e = Some q → (length (ch q) ≤ invocationLogQueueSize)%nat.

Lemma check_limits_frame x invCtx e :
  let e1 := (check_limits x invCtx e).2 in
  moduleCache e1 = moduleCache e ∧ closed_modules e1 = closed_modules e ∧ logQueue e1 = logQueue e ∧ LogInvocations e1 = LogInvocations e ∧
  MaxMemoryLimitMB e1 = MaxMemoryLimitMB e.
Proof. unfold check_limits. by destruct (rateLimiter e). Qed.

Lemma getOrCompile_frame x cid e :
  let e1 := (getOrCompileModule x cid e).2 in logQueue e1 = logQueue e ∧ LogInvocations e1 = LogInvocations e ∧ rateLimiter e1 = rateLimiter e.
Proof. unfold getOrCompileModule. by repeat case_match. Qed.

(** The module of an execution: cached before, or compiled within the limit;
    the cache stays in order. *)
Lemma getOrCompile_spec x cid e :
  within (moduleCache e) → visit x ≡ₚ cids (moduleCache e) → cid ≠ EmptyString →
  let r := getOrCompileModule x cid e in
  within (moduleCache r.2) ∧
  ∀ m, r.1 = Ok m → fst <$> modules (moduleCache r.2) !! cid = Some m ∧
    (fst <$> modules (moduleCache e) !! cid = Some m ∨
     modules (moduleCache e) !! cid = None ∧ (∃ code, fetched x cid = Ok code ∧ compiled_module x code = Ok m) ∧
       checkMemoryLimits (MaxMemoryLimitMB e) (memories x m) = true).
Proof.
  intros Hw Hv Hcid r. unfold r, getOrCompileModule.
  destruct (if Has cid (moduleCache e) then _ else _) as [computed refused] eqn:Hc.
  pose proof (fetch_spec (cache_t1 x) (cache_t2 x) (visit x) cid computed (moduleCache e) Hw Hv Hcid) as Hg.
  destruct (GetOrCompute (cache_t1 x) (cache_t2 x) (visit x) cid computed (moduleCache e)) as [[r0 c] gone]. destruct Hg as (E & Hw' & Hin).
  cbn [fst snd moduleCache with_cache]. split; [done |]. intros m ->. destruct Hin as [Hin _]. split; [done |].
  unfold Has in Hc. destruct (modules (moduleCache e) !! cid) as [[m0 t0] |] eqn:Hm; cbn in E, Hc; [injection E as <-; by left |]. right. split; [done |].
  subst computed. unfold compile_module in Hc. destruct (fetched x cid) as [code | ?]; [| done].
  destruct (compiled_module x code) as [m1 | ?] eqn:Hcode; [| done]. destruct (checkMemoryLimits (MaxMemoryLimitMB e) (memories x m1)) eqn:Hmem; [| done].
  injection Hc as -> <-. split; [by exists code | done].
Qed.

Lemma logged_fits fn invCtx n status err e : queue_fits e → queue_fits (logInvocation fn invCtx n status err e).
Proof.
  unfold logInvocation, queue_fits. intros Hf. destruct (logQueue e) as [q |] eqn:Hq; [| by rewrite Hq]. destruct (LogInvocations e); [| by rewrite Hq].
  cbn [logQueue with_queue]. intros q' [= <-]. specialize (Hf q eq_refl). unfold enqueue.
  destruct (Nat.ltb_spec (length (ch q)) invocationLogQueueSize); cbn [snd ch]; [rewrite length_app; cbn; lia | done].
Qed.

Lemma logged_cache fn invCtx n status err e : moduleCache (logInvocation fn invCtx n status err e) = moduleCache e.
Proof. unfold logInvocation. by destruct (logQueue e), (LogInvocations e). Qed.

Lemma logged_once fn invCtx n status err e q :
  LogInvocations e = true → logQueue e = Some q →
  logQueue (logInvocation fn invCtx n status err e)
    = Some (if (length (ch q) <? invocationLogQueueSize)%nat
            then mkQueue (ch q ++ [mkRecord (ID fn) (RequestID invCtx) (Trigger invCtx) (CallerWallet invCtx) n status err]) (dropped q)
            else mkQueue (ch q) (wrap64 (dropped q + 1))).
Proof. intros Hl Hq. unfold logInvocation, enqueue. rewrite Hq, Hl. cbn [logQueue with_queue]. by destruct (length (ch q) <? invocationLogQueueSize)%nat. Qed.


(** ** Concrete executions *)

Definition plain_settings : settings := mkSettings 64 30 false 2 1 "dlq" false 0 0 0 true.
Definition plain_fn : Function := mkFunction "id1" "hello" "app" 1 "cid1" EmptyString plain_settings FunctionStatusActive 7 7 "app".
Definition caller (wallet : string) : InvocationContext :=
  mkInvocationContext "r1" "id1" "hello" "app" wallet EmptyString TriggerTypeHTTP EmptyString ∅ ∅ EmptyString 0.
Definition new_engine (l : limiter) : engine := mkEngine l (NewModuleCache 100) [] (Some (mkQueue [] 0)) true 256 60.
(** The code is there; it sets two responses, the second out of range, and
    answers as told. *)
Definition around (t : time) (o : result (error * bool) string) : surroundings :=
  mkSurroundings t t t t t [] (λ _, Ok "code"%string) (λ _, Ok 0) (λ _, [Some 16%Z]) (λ _, false)
    (λ _ _ _ _, mkRan o [(200%Z, ∅, "body"%string); (700%Z, ∅, "late"%string)]) (λ _ _ _ _, mkRan (Err (Canceled, false)) []).

Lemma new_engine_fits l : queue_fits (new_engine l).
Proof. intros q [= <-]. cbn. unfold invocationLogQueueSize. lia. Qed.

Lemma new_engine_within l : within (moduleCache (new_engine l)).
Proof. split; [done | vm_compute; discriminate]. Qed.


(** ** What the engine does not do *)

(** A module that declares no maximum passes, whatever it grows to. *)
Lemma undeclared_memory_passes maxMB : checkMemoryLimits maxMB [None] = true.
Proof. done. Qed.

(** The rejection of the tiered limiter is not a resource error; the one of
    the older limiter is. *)
Lemma tiered_rejection_not_exhausted scope retryAfter :
  IsResourceExhausted (RateLimitedError scope retryAfter) = false ∧ IsResourceExhausted (Sentinel ErrRateLimited) = true.
Proof. done. Qed.
