(* ===== verification/Invoker.v ===== *)
(** * Invoking functions ([core/pkg/serverless/invoke.go])

    An invocation reads the function and its environment in the registry,
    checks the caller, and executes the function with retries.  [Section Retry]
    has the loop for any engine; [Invoke] is a program over the registry, in
    which one execution with retries is a step of its own. *)

From Stdlib Require Import ZArith Lia Ascii String.
From stdpp Require Import base tactics numbers list gmap strings.
From S2P Require Import Prelude GoStrings DbProg FunctionLimits FunctionRegistry Engine.

Import Errors.
Local Open Scope go_scope.

(** ** Retries *)

Definition isRetryable (err : error) : bool :=
  if Is err ErrWASMFetchTimeout then false
  else if IsNotFound err then false
  else if IsResourceExhausted err then false
  else if IsServiceUnavailable err then true
  else true.

Definition maxBackoff : time := (5 * Minute)%Z.

Fixpoint backoff_loop (attempt : nat) (delay : time) : time :=
  match attempt with
  | O => delay
  | S attempt' => let delay := wrap64 (delay * 2) in if (maxBackoff <? delay)%Z then maxBackoff else backoff_loop attempt' delay
  end.

Definition calculateBackoff (baseDelaySeconds : Z) (attempt : nat) : time :=
  let base := if (baseDelaySeconds <=? 0)%Z then 5%Z else baseDelaySeconds in
  backoff_loop attempt (wrap64 (base * Second)).

Record DLQMessage := mkDLQ {
  dlq_FunctionID : string; dlq_FunctionName : string; dlq_Namespace : string; dlq_RequestID : string; dlq_Input : string; dlq_Error : error;
  dlq_TriggerType : TriggerType; dlq_CallerWallet : string
}.

Definition sendToDLQ (fn : Function) (input : string) (invCtx : InvocationContext) (err : error) : string * DLQMessage :=
  (DLQTopic (Settings fn), mkDLQ (ID fn) (Name fn) (Namespace fn) (RequestID invCtx) input err (Trigger invCtx) (CallerWallet invCtx)).

Definition maxAttempts (fn : Function) : Z := Z.max 1 (wrap64 (RetryCount (Settings fn) + 1)).

(** What an execution with retries leaves: the answer, the retries it reports,
    the attempts that were executed, the waits, and what went to the dead letter queue. *)
Record retried (A : Type) := mkRetried {
  answer : result error A; Retries : Z; executed : list (result error A); waits : list time; dead_letter : option (string * DLQMessage)
}.
Arguments mkRetried {A} _ _ _ _ _.
Arguments answer {A} _.
Arguments Retries {A} _.
Arguments executed {A} _.
Arguments waits {A} _.
Arguments dead_letter {A} _.

Section Retry.
Context {E A : Type} (exec : nat → E → result error A * E).
(** [cancelled i]: the caller gave up before attempt [i], and why; [gone i]: during
    the wait after it. *)
Context (cancelled gone : nat → option error).
Context (fn : Function) (input : string) (invCtx : InvocationContext).

Definition exhausted_letter (lastErr : error) : option (string * DLQMessage) :=
  if String.eqb (DLQTopic (Settings fn)) EmptyString then None else Some (sendToDLQ fn input invCtx lastErr).

(** [remaining] attempts from [attempt] on; [runs] and [delays] so far. *)
Fixpoint retry_loop (remaining attempt : nat) (lastErr : error) (runs : list (result error A)) (delays : list time) (e : E) : retried A * E :=
  match remaining with
  | O => (mkRetried (Err lastErr) (maxAttempts fn - 1) runs delays (exhausted_letter lastErr), e)
  | S remaining' =>
      match cancelled attempt with
      | Some err => (mkRetried (Err err) (Z.of_nat attempt) runs delays None, e)
      | None =>
          let '(r, e') := exec attempt e in
          match r with
          | Ok output => (mkRetried (Ok output) (Z.of_nat attempt) (runs ++ [r]) delays None, e')
          | Err err =>
              if negb (isRetryable err) || (remaining' =? 0)%nat
              then (mkRetried (Err err) (maxAttempts fn - 1) (runs ++ [r]) delays (exhausted_letter err), e')
              else
                let delay := calculateBackoff (RetryDelaySeconds (Settings fn)) attempt in
                match gone attempt with
                | Some err' => (mkRetried (Err err') (Z.of_nat attempt + 1) (runs ++ [r]) (delays ++ [delay]) None, e')
                | None => retry_loop remaining' (S attempt) err (runs ++ [r]) (delays ++ [delay]) e'
                end
          end
      end
  end.

Definition executeWithRetry (e : E) : retried A * E := retry_loop (Z.to_nat (maxAttempts fn)) 0 Canceled [] [] e.

End Retry.

(** ** Invocations *)

Record InvokeRequest := mkInvoke {
  ir_Namespace : string; ir_FunctionName : string; ir_Version : Z; ir_Input : string; ir_TriggerType : TriggerType; ir_CallerWallet : string;
  ir_CallerIP : string; ir_WSClientID : string; ir_CallerClaims : gmap string string; ir_CallerJWTSubject : string; ir_TriggerDepth : Z
}.

Record InvokeResponse := mkResponse {
  res_RequestID : string; res_Output : string; res_Status : InvocationStatus; res_Error : option error; res_Retries : Z;
  res_RawHTTP : option RawHTTPResult
}.

Definition isSystemTrigger (t : TriggerType) : bool :=
  match t with
  | TriggerTypeCron | TriggerTypePubSub | TriggerTypeDatabase | TriggerTypeTimer | TriggerTypeJob | TriggerTypeInternal => true
  | TriggerTypeHTTP | TriggerTypeWebSocket => false
  end.

Definition canInvokeFn (fn : Function) (callerWallet : string) : bool :=
  if IsPublic (Settings fn) then true else negb (String.eqb (TrimSpace callerWallet) EmptyString).

Definition ValidateInput (input : string) (maxSize : Z) : option error :=
  if (0 <? maxSize)%Z && (maxSize <? Z.of_nat (String.length input))%Z then Some (ValidationError "input" "exceeds maximum size") else None.

(** The times of the registry's caches during an invocation. *)
Record reading := mkReading { get_t1 : time; get_t2 : time; env_t1 : time; env_t2 : time }.

Definition invocation_context (requestID : string) (fn : Function) (env : gmap string string) (req : InvokeRequest) : InvocationContext :=
  mkInvocationContext requestID (ID fn) (Name fn) (Namespace fn) (ir_CallerWallet req) (ir_CallerIP req) (ir_TriggerType req) (ir_WSClientID req) env
    (ir_CallerClaims req) (ir_CallerJWTSubject req) (ir_TriggerDepth req).

(** The response to an answer; [late]: the caller's deadline has passed. *)
Definition respond (requestID : string) (late : bool) (r : retried (string * option RawHTTPResult)) : InvokeResponse :=
  match answer r with
  | Err err => mkResponse requestID EmptyString (if late then InvocationStatusTimeout else InvocationStatusError) (Some err) (Retries r) None
  | Ok (output, rawHTTP) => mkResponse requestID output InvocationStatusSuccess None (Retries r) rawHTTP
  end.

Definition failed (requestID : string) (err : error) : InvokeResponse := mkResponse requestID EmptyString InvocationStatusError (Some err) 0 None.

Section Invoke.
(** [execute fn input invCtx]: the execution with retries, in the engine of this
    gateway. *)
Context (execute : Function → string → InvocationContext → retried (string * option RawHTTPResult)).

(** The response, the error, and the function that was executed, if any. *)
Definition invocation : Type := option InvokeResponse * option error * option (Function * InvocationContext).

Definition Invoke (rd : reading) (requestID : string) (late : bool) (req : InvokeRequest) : prog registry invocation :=
  if String.eqb (ir_FunctionName req) EmptyString then Ret (None, Some (ValidationError "function_name" "cannot be empty"), None)
  else if String.eqb (ir_Namespace req) EmptyString then Ret (None, Some (ValidationError "namespace" "cannot be empty"), None)
  else
    do! found := Get (get_t1 rd) (get_t2 rd) (ir_Namespace req) (ir_FunctionName req) (ir_Version req) in
    match found with
    | Err e => Ret (Some (failed requestID (of_registry e)), Some (of_registry e), None)
    | Ok fn =>
        if negb (isSystemTrigger (ir_TriggerType req)) && negb (canInvokeFn fn (ir_CallerWallet req))
        then Ret (Some (failed requestID (Sentinel ErrUnauthorized)), Some (Sentinel ErrUnauthorized), None)
        else
          do! vars := GetEnvVars (env_t1 rd) (env_t2 rd) (ID fn) in
          let env := match vars with Ok env => env | Err _ => ∅ end in
          let invCtx := invocation_context requestID fn env req in
          let r := execute fn (ir_Input req) invCtx in
          Ret (Some (respond requestID late r), match answer r with Err err => Some err | Ok _ => None end, Some (fn, invCtx))
    end.

Definition InvokeByID (requestID functionID input : string) (invCtx : option InvocationContext) : prog registry invocation :=
  do! found := GetByID functionID in
  match found with
  | Err e => Ret (None, Some (of_registry e), None)
  | Ok fn =>
      let invCtx := EnsureInvocationContext requestID invCtx fn in
      let r := execute fn input invCtx in
      let resp := respond (RequestID invCtx) false r in
      Ret (Some (mkResponse (res_RequestID resp) (res_Output resp) (res_Status resp) (res_Error resp) (res_Retries resp) None),
           match answer r with Err err => Some err | Ok _ => None end, Some (fn, invCtx))
  end.

(** [ids]: the identifiers and times of each request. *)
Fixpoint BatchInvoke_loop (reqs : list (reading * string * string * bool * InvokeRequest)) : prog registry (list InvokeResponse) :=
  match reqs with
  | [] => Ret []
  | (rd, requestID, freshID, late, req) :: reqs' =>
      do! r := Invoke rd requestID late req in
      do! rest := BatchInvoke_loop reqs' in
      let resp := match r with
                  | (Some resp, _, _) => resp
                  | (None, Some err, _) => failed freshID err
                  | (None, None, _) => failed freshID Canceled
                  end in
      Ret (resp :: rest)
  end.

Definition BatchInvoke (reqs : list (reading * string * string * bool * InvokeRequest)) : prog registry (result error (list InvokeResponse)) :=
  match reqs with
  | [] => Ret (Err (ValidationError "requests" "cannot be empty"))
  | _ => do! rs := BatchInvoke_loop reqs in Ret (Ok rs)
  end.

End Invoke.

Definition CanInvoke (t1 t2 : time) (namespace functionName callerWallet : string) : prog registry (result error bool) :=
  do! found := Get t1 t2 namespace functionName 0 in
  Ret (match found with Err e => Err (of_registry e) | Ok fn => Ok (canInvokeFn fn callerWallet) end).

Definition GetFunctionInfo (t1 t2 : time) (namespace functionName : string) (version : Z) : prog registry (result registry_error Function) :=
  Get t1 t2 namespace functionName version.

(** ** What the retries do *)

Section RetrySpec.
Context {E A : Type} (exec : nat → E → result error A * E) (cancelled gone : nat → option error).
Context (fn : Function) (input : string) (invCtx : InvocationContext).

(** The first [k] attempts, one after the other. *)
Fixpoint run_attempts (k : nat) (e : E) : list (result error A) * E :=
  match k with
  | O => ([], e)
  | S k' => let '(rs, e1) := run_attempts k' e in let '(r, e2) := exec k' e1 in (rs ++ [r], e2)
  end.

Definition transient (r : result error A) : Prop := ∃ err, r = Err err ∧ isRetryable err = true.

(** How an execution with retries ends. *)
Definition succeeded (R : retried A) : Prop :=
  ∃ out before, answer R = Ok out ∧ executed R = before ++ [Ok out] ∧ Forall transient before ∧ Retries R = Z.of_nat (length before) ∧ dead_letter R = None.
Definition exhausted (n : nat) (R : retried A) : Prop :=
  ∃ err before, answer R = Err err ∧ executed R = before ++ [Err err] ∧ Forall transient before ∧
    (isRetryable err = false ∨ S (length before) = n) ∧ Retries R = (Z.of_nat n - 1)%Z ∧ dead_letter R = exhausted_letter fn input invCtx err.
Definition abandoned (n : nat) (R : retried A) : Prop :=
  ∃ err, answer R = Err err ∧ Forall transient (executed R) ∧ (length (executed R) < n)%nat ∧
    (cancelled (length (executed R)) = Some err ∨ ∃ i, length (executed R) = S i ∧ gone i = Some err) ∧
    Retries R = Z.of_nat (length (executed R)) ∧ dead_letter R = None.

Definition paused (n : nat) (R : retried A) : Prop :=
  waits R = calculateBackoff (RetryDelaySeconds (Settings fn)) <$> seq 0 (length (waits R)) ∧ (length (waits R) < n)%nat ∧
  (length (executed R) ≤ S (length (waits R)) ≤ S (length (executed R)))%nat.

Lemma retry_loop_spec n e0 remaining lastErr runs e :
  (0 < remaining)%nat → (length runs + remaining = n)%nat → Z.of_nat n = maxAttempts fn →
  run_attempts (length runs) e0 = (runs, e) → Forall transient runs →
  let '(R, e') := retry_loop exec cancelled gone fn input invCtx remaining (length runs) lastErr runs
                    (calculateBackoff (RetryDelaySeconds (Settings fn)) <$> seq 0 (length runs)) e in
  run_attempts (length (executed R)) e0 = (executed R, e') ∧ (length (executed R) ≤ n)%nat ∧ paused n R ∧
  (succeeded R ∨ exhausted n R ∨ abandoned n R).
Proof.
  revert lastErr runs e. induction remaining as [| remaining IH]; intros lastErr runs e Hpos Hn Hmax Hrun Htr; [lia |].
  cbn [retry_loop]. destruct (cancelled (length runs)) as [err |] eqn:Hc.
  { cbn. split; [done |]. split; [lia |]. split; [unfold paused; cbn; rewrite length_fmap, length_seq; split; [done | lia] |].
    right. right. exists err. cbn. split; [done |]. split; [done |]. split; [lia |]. split; [by left | done]. }
  destruct (exec (length runs) e) as [r e1] eqn:Hx.
  assert (run_attempts (length (runs ++ [r])) e0 = (runs ++ [r], e1)) as Hrun'.
  { rewrite length_app. cbn [length]. rewrite Nat.add_1_r. cbn [run_attempts]. by rewrite Hrun, Hx. }
  destruct r as [out | err].
  { cbn [executed answer]. split; [exact Hrun' |]. rewrite length_app. cbn [length]. split; [lia |].
    split; [unfold paused; cbn [waits executed]; rewrite length_fmap, length_seq, length_app; cbn [length]; split; [done | lia] |].
    left. by exists out, runs. }
  destruct (isRetryable err) eqn:Hre; cbn [negb orb].
  2:{ cbn [executed answer]. split; [exact Hrun' |]. rewrite length_app. cbn [length]. split; [lia |].
      split; [unfold paused; cbn [waits executed]; rewrite length_fmap, length_seq, length_app; cbn [length]; split; [done | lia] |].
      right. left. exists err, runs. cbn. rewrite Hmax. split; [done |]. split; [done |]. split; [done |]. split; [by left | done]. }
  assert (Forall transient (runs ++ [Err err])) as Htr' by (apply Forall_app; split; [done | apply Forall_singleton; by exists err]).
  destruct (Nat.eqb_spec remaining 0) as [-> | Hr0].
  { cbn [executed answer]. split; [exact Hrun' |]. rewrite length_app. cbn [length]. split; [lia |].
    split; [unfold paused; cbn [waits executed]; rewrite length_fmap, length_seq, length_app; cbn [length]; split; [done | lia] |].
    right. left. exists err, runs. cbn. rewrite Hmax. split; [done |]. split; [done |]. split; [done |]. split; [right; lia | done]. }
  assert ((calculateBackoff (RetryDelaySeconds (Settings fn)) <$> seq 0 (length runs)) ++ [calculateBackoff (RetryDelaySeconds (Settings fn)) (length runs)]
    = calculateBackoff (RetryDelaySeconds (Settings fn)) <$> seq 0 (length (runs ++ [Err err]))) as Hw.
  { rewrite length_app. cbn [length]. by rewrite Nat.add_1_r, seq_S, fmap_app. }
  destruct (gone (length runs)) as [err' |] eqn:Hg.
  { cbn [executed answer]. split; [exact Hrun' |]. rewrite length_app. cbn [length]. split; [lia |].
    split; [unfold paused; cbn [waits executed]; rewrite Hw, length_fmap, length_seq, length_app; cbn [length]; split; [done | lia] |].
    right. right. exists err'. cbn [executed answer Retries dead_letter]. split; [done |]. split; [done |]. rewrite length_app. cbn [length].
    split; [lia |]. split; [| split; [lia | done]]. right. exists (length runs). split; [lia | done]. }
  rewrite Hw. specialize (IH err (runs ++ [Err err]) e1). replace (S (length runs)) with (length (runs ++ [Err err])) by (rewrite length_app; cbn; lia).
  apply IH; [lia | rewrite length_app; cbn; lia | done | done | done].
Qed.

Lemma maxAttempts_pos : (1 ≤ maxAttempts fn)%Z.
Proof. unfold maxAttempts. lia. Qed.

(** C13: retries.  Whatever the engine answers and whenever the caller gives
    up: the function is executed at most [RetryCount + 1] times, and once when
    that is not positive; each attempt comes after the
    ones before it, which all failed in a way worth another attempt.  The
    invocation ends in one of three ways: with the output of the last attempt; with
    the error of the last attempt, because it is not worth a retry or no
    attempt is left, and then the dead letter queue gets the request if there is one; or with
    the caller's cancellation, without a dead letter.  Between attempts it
    waits as [calculateBackoff] says. *)
Theorem executeWithRetry_spec e :
  let '(R, e') := executeWithRetry exec cancelled gone fn input invCtx e in
  let n := Z.to_nat (maxAttempts fn) in
  run_attempts (length (executed R)) e = (executed R, e') ∧ (length (executed R) ≤ n)%nat ∧ paused n R ∧
  (succeeded R ∨ exhausted n R ∨ abandoned n R).
Proof.
  unfold executeWithRetry. pose proof maxAttempts_pos as Hpos.
  pose proof (retry_loop_spec (Z.to_nat (maxAttempts fn)) e (Z.to_nat (maxAttempts fn)) Canceled [] e) as H.
  apply H; [lia | done | lia | done | constructor].
Qed.

End RetrySpec.

(** *** Waits *)

Lemma maxBackoff_val : maxBackoff = 300000000000%Z.
Proof. by vm_compute. Qed.

Lemma backoff_loop_exact n delay :
  (0 < delay ≤ maxBackoff)%Z → backoff_loop n delay = Z.min (delay * 2 ^ Z.of_nat n) maxBackoff.
Proof.
  rewrite maxBackoff_val. revert delay. induction n as [| n IH]; intros delay Hd; cbn [backoff_loop].
  - change (2 ^ Z.of_nat 0)%Z with 1%Z. lia.
  - rewrite wrap64_id by (unfold in_int64; lia). rewrite maxBackoff_val, Nat2Z.inj_succ, Z.pow_succ_r by lia.
    pose proof (Z.pow_pos_nonneg 2 (Z.of_nat n) ltac:(lia) ltac:(lia)). destruct (Z.ltb_spec 300000000000 (delay * 2)).
    + nia.
    + rewrite IH by lia. f_equal. lia.
Qed.

(** Backoff.  With a base of at most five minutes, attempt [n] is followed by the base
    doubled [n] times, and never more than five minutes; a base that is not
    positive is five seconds. *)
Theorem calculateBackoff_exact base n :
  (base ≤ 300)%Z → calculateBackoff base n = Z.min ((if (base <=? 0)%Z then 5 else base) * Second * 2 ^ Z.of_nat n) (5 * Minute).
Proof.
  intros Hb. unfold calculateBackoff. set (b := if (base <=? 0)%Z then 5%Z else base).
  assert (0 < b ≤ 300)%Z as Hb' by (unfold b; destruct (Z.leb_spec base 0); lia).
  assert (Second = 1000000000%Z) as HS by by vm_compute. pose proof maxBackoff_val.
  rewrite wrap64_id by (unfold in_int64; rewrite HS; lia). apply backoff_loop_exact. rewrite HS. lia.
Qed.

Lemma calculateBackoff_exact_witness : calculateBackoff 5 10 = (5 * Minute)%Z ∧ calculateBackoff 5 2 = (20 * Second)%Z.
Proof. split; [rewrite (calculateBackoff_exact 5 10) by lia | rewrite (calculateBackoff_exact 5 2) by lia]; reflexivity. Defined.

(** ** Who may run what *)

Section Authorized.
Context (execute : Function → string → InvocationContext → retried (string * option RawHTTPResult)).

(** What an invocation may have executed. *)
Definition permitted (req : InvokeRequest) (a : invocation) : Prop :=
  match a with
  | (_, _, None) => ∃ err, a.1.2 = Some err
  | (resp, err, Some (fn, invCtx)) =>
      served (bool_decide (ir_Version req = 0)%Z) (TrimSpace (ir_Namespace req)) (TrimSpace (ir_FunctionName req)) fn ∧
      (isSystemTrigger (ir_TriggerType req) = true ∨ IsPublic (Settings fn) = true ∨ TrimSpace (ir_CallerWallet req) ≠ EmptyString) ∧
      inv_Namespace invCtx = TrimSpace (ir_Namespace req) ∧ CallerWallet invCtx = ir_CallerWallet req ∧
      answer (execute fn (ir_Input req) invCtx) = match err with Some e => Err e | None => answer (execute fn (ir_Input req) invCtx) end
  end.

Lemma canInvoke_cases fn wallet : canInvokeFn fn wallet = true → IsPublic (Settings fn) = true ∨ TrimSpace wallet ≠ EmptyString.
Proof.
  unfold canInvokeFn. destruct (IsPublic (Settings fn)); [by left |]. intros E%negb_true_iff. right. by apply String.eqb_neq.
Qed.

Lemma Invoke_keeps rd requestID late req :
  nul_free (ir_Namespace req) = true → nul_free (ir_FunctionName req) = true →
  keeps reg_inv anywhere (λ a _, permitted req a) (λ _, True) (Invoke execute rd requestID late req).
Proof.
  intros Hns Hname. unfold Invoke. case_match; [by eexists |]. case_match; [by eexists |].
  eapply keeps_bind; [by apply Get_keeps |]. intros [fn | err]; [| intros d _ _; by eexists].
  destruct (negb (isSystemTrigger (ir_TriggerType req)) && negb (canInvokeFn fn (ir_CallerWallet req))) eqn:Hauth; [intros d _ _; by eexists |].
  assert (isSystemTrigger (ir_TriggerType req) = true ∨ IsPublic (Settings fn) = true ∨ TrimSpace (ir_CallerWallet req) ≠ EmptyString) as Hok.
  { destruct (isSystemTrigger (ir_TriggerType req)); [by left |]. right. apply canInvoke_cases. by apply negb_false_iff in Hauth. }
  eapply (keeps_bind _ _ (λ _ _, served (bool_decide (ir_Version req = 0)%Z) (TrimSpace (ir_Namespace req)) (TrimSpace (ir_FunctionName req)) fn)).
  - apply upholds_known; [apply GetEnvVars_upholds |]. intros d _ Hd. by apply Hd.
  - intros vars. cbn [keeps]. intros d _ Hs. cbn. pose proof Hs as (Hsn & _). split; [done |]. split; [done |]. split; [done |]. split; [done |].
    by destruct (answer _).
Qed.

End Authorized.

(** Requests of all kinds. *)
Inductive inv_op :=
| OpRegistry (op : reg_op)
| OpInvoke (rd : reading) (requestID : string) (late : bool) (req : InvokeRequest).

Definition inv_prog (execute : Function → string → InvocationContext → retried (string * option RawHTTPResult)) (op : inv_op) : prog registry (option invocation) :=
  match op with
  | OpRegistry op => do! _ := reg_prog op in Ret None
  | OpInvoke rd requestID late req => do! a := Invoke execute rd requestID late req in Ret (Some a)
  end.

Definition plain_inv (op : inv_op) : Prop :=
  match op with
  | OpRegistry op => plain_names op
  | OpInvoke _ _ _ req => nul_free (ir_Namespace req) = true ∧ nul_free (ir_FunctionName req) = true
  end.

Definition inv_post (execute : Function → string → InvocationContext → retried (string * option RawHTTPResult)) (op : inv_op) (a : option invocation) (_ : registry) : Prop :=
  match op, a with OpInvoke _ _ _ req, Some a => permitted execute req a | _, _ => True end.

Lemma inv_prog_keeps execute op : plain_inv op → keeps reg_inv anywhere (inv_post execute op) (λ _, True) (inv_prog execute op).
Proof.
  destruct op as [op | rd requestID late req]; intros Hp; cbn [inv_prog].
  - eapply keeps_bind; [by apply reg_prog_keeps |]. by intros a d _ _.
  - destruct Hp as [H1 H2]. eapply keeps_bind; [by apply Invoke_keeps |]. intros a d _ Ha. exact Ha.
Qed.

(** C5: authorization.  Whatever deployments, switches, deletions and other
    invocations go on: an invocation executes at most the function of
    its own namespace and name (which have no NUL), one whose copy, as it was
    read from the database or a cache of five seconds, is active when no version was asked for, and a private function only for a system trigger or a caller with an identity;
    the context it runs in has the namespace of the request and its caller.  An invocation
    that executes nothing ends with an error. *)
Theorem invocation_authorized execute s0 ops s rd requestID late req a :
  reg_inv s0 → Forall plain_inv ops →
  rtc sys_step (mkSys s0 [] ((λ op, (op, inv_prog execute op)) <$> ops)) s →
  (OpInvoke rd requestID late req, Ret (Some a)) ∈ threads s →
  match a with
  | (_, err, None) => ∃ e, err = Some e
  | (_, _, Some (fn, invCtx)) =>
      Namespace fn = TrimSpace (ir_Namespace req) ∧ Name fn = TrimSpace (ir_FunctionName req) ∧
      (ir_Version req = 0%Z → Status fn = FunctionStatusActive) ∧
      (isSystemTrigger (ir_TriggerType req) = true ∨ IsPublic (Settings fn) = true ∨ TrimSpace (ir_CallerWallet req) ≠ EmptyString) ∧
      inv_Namespace invCtx = TrimSpace (ir_Namespace req) ∧ CallerWallet invCtx = ir_CallerWallet req
  end.
Proof.
  intros Hinv Hops Hrtc Hin. apply (sys_guarantee reg_inv anywhere (inv_post execute)) in Hrtc as (_ & _ & Hpost); [| done |].
  - pose proof (Hpost _ _ Hin) as Hp. cbn in Hp. destruct a as [[resp err] [[fn invCtx] |]]; [| done].
    destruct Hp as ((H1 & H2 & H3) & H4 & H5 & H6 & _). repeat (split; [done |]). split; [| done]. intros E. apply H3. by apply bool_decide_eq_true.
  - apply Forall_fmap. eapply Forall_impl; [exact Hops |]. intros op Hop. by apply inv_prog_keeps.
Qed.

(** ** The engine of a gateway *)

(** The attempts of one invocation on the engine; [xs i] are the surroundings of
    attempt [i]. *)
Definition execute_on (xs : nat → surroundings) (cancelled gone : nat → option error) (e : engine) (fn : Function) (input : string) (invCtx : InvocationContext)
    : retried (string * option RawHTTPResult) * engine :=
  executeWithRetry (λ i, Execute (xs i) fn input invCtx) cancelled gone fn input invCtx e.

Definition never (_ : nat) : option error := None.

(** A function that always answers. *)
Definition answers (fn : Function) (input : string) (invCtx : InvocationContext) : retried (string * option RawHTTPResult) :=
  (execute_on (λ _, around 10 (Ok "out"%string)) never never (new_engine NoLimiter) fn input invCtx).1.

Definition by_caller (wallet : string) : InvokeRequest :=
  mkInvoke "app" "hello" 0 "in" TriggerTypeHTTP wallet EmptyString EmptyString ∅ EmptyString 0.
Definition invoke_hello (wallet : string) : inv_op := OpInvoke (mkReading 8 9 10 11) "r1" false (by_caller wallet).

Lemma invocation_authorized_witness :
  ∃ s a fn invCtx, rtc sys_step (mkSys deployed [] ((λ op, (op, inv_prog answers op)) <$> [invoke_hello "anna"; invoke_hello " "])) s ∧
    (invoke_hello "anna", Ret (Some (a, Some (fn, invCtx)))) ∈ threads s ∧
    (invoke_hello " ", Ret (Some (Some (failed "r1" (Sentinel ErrUnauthorized)), Some (Sentinel ErrUnauthorized), None))) ∈ threads s ∧
    Name fn = "hello"%string.
Proof.
  destruct (sys_overtake (invoke_hello "anna") (invoke_hello " ") (inv_prog answers (invoke_hello "anna")) (inv_prog answers (invoke_hello " ")) 0 deployed)
    as (s & Hr & Hth & _).
  set (fn := rowToFunction true hello_row). set (invCtx := invocation_context "r1" fn ∅ (by_caller "anna")).
  set (a := (Some (respond "r1" false (answers fn "in" invCtx)), None) : option InvokeResponse * option error).
  assert ((invoke_hello "anna", Ret (Some (a, Some (fn, invCtx)))) ∈ threads s) as H1 by (rewrite Hth; left).
  assert ((invoke_hello " ", Ret (Some (Some (failed "r1" (Sentinel ErrUnauthorized)), Some (Sentinel ErrUnauthorized), None))) ∈ threads s) as H2
    by (rewrite Hth; right; left).
  exists s, a, fn, invCtx. split; [exact Hr |]. split; [exact H1 |]. split; [exact H2 |].
  destruct (invocation_authorized answers deployed [invoke_hello "anna"; invoke_hello " "] s (mkReading 8 9 10 11) "r1" false (by_caller "anna") (a, Some (fn, invCtx)))
    as (_ & Hname & _); [apply deployed_inv | by repeat constructor | exact Hr | exact H1 | exact Hname].
Defined.

(** ** What the invoker does not do *)

(** A request the tiered limiter rejects is tried again, and then goes to the
    dead letter queue; each attempt asks the limiter again. *)
Lemma rate_limited_retried :
  let l := NewMultiTierLimiter (mkLimiterConfig 1 1 1 1 1 1 16) in
  let e := new_engine (Tiered (AllowRequest 1 1 1 (mkRequest "app" "hello" "anna" EmptyString None) l).2) in
  let R := (execute_on (λ i, around (2 + Z.of_nat i) (Ok "out"%string)) never never e plain_fn "in" (caller "anna")).1 in
  length (executed R) = 3 ∧ (∃ d, answer R = Err (RateLimitedError "per_wallet" d)) ∧ (∃ m, dead_letter R = Some ("dlq"%string, m)).
Proof. vm_compute. split; [done |]. split; by eexists. Qed.

(** After one attempt that is not worth a retry the response reports all
    retries. *)
Lemma retries_overreported :
  let R := (execute_on (λ _, around 10 (Err (Sentinel ErrMemoryExceeded, false))) never never (new_engine NoLimiter) plain_fn "in" (caller "anna")).1 in
  length (executed R) = 1 ∧ Retries R = 2%Z.
Proof. by vm_compute. Qed.

(** A validation error is tried again. *)
Lemma validation_retried field message : isRetryable (ValidationError field message) = true.
Proof. done. Qed.

(** The first wait is not capped, and longer than the second. *)
Lemma first_wait_uncapped : calculateBackoff 3600 0 = (60 * Minute)%Z ∧ calculateBackoff 3600 1 = (5 * Minute)%Z.
Proof. by vm_compute. Qed.

(** A function that runs out of its own time is logged as timed out, and
    answered as an error. *)
Lemma own_timeout_is_error :
  let r := execute_on (λ _, around 10 (Err (Canceled, true))) never never (new_engine NoLimiter) plain_fn "in" (caller "anna") in
  res_Status (respond "r1" false r.1) = InvocationStatusError ∧ (rec_Status <$> from_option ch [] (logQueue r.2)) = [InvocationStatusTimeout].
Proof. by vm_compute. Qed.

(** A function that was switched off runs when its version is given. *)
Lemma disabled_runs :
  let s' := (run (SetEnabled 20 "app" "hello" false) deployed).2 in
  let req := mkInvoke "app" "hello" 1 "in" TriggerTypeHTTP "anna" EmptyString EmptyString ∅ EmptyString 0 in
  ∃ resp fn ctx, (run (Invoke answers (mkReading 21 22 23 24) "r1" false req) s').1 = (Some resp, None, Some (fn, ctx)) ∧
    res_Status resp = InvocationStatusSuccess ∧ Status fn = FunctionStatusInactive.
Proof. do 3 eexists. by vm_compute. Qed.
