(* ===== verification/Placement.v ===== *)
(** * Placement on nodes ([core/pkg/deployments/home_node.go],
      [core/pkg/deployments/replica_manager.go],
      [core/pkg/namespace/node_selector.go])

    Home nodes of namespaces, replicas of deployments and the nodes of a
    cluster are chosen by a weighted score of what a node has left.  The code
    scores in floating point; here a score is exact, an integer with the common denominator
    [scale] of the limits.  Times are in seconds, as the statements compare them. *)

From Stdlib Require Import ZArith Lia Ascii String.
From stdpp Require Import base tactics numbers list gmap strings sorting.
From S2P Require Import Prelude GoStrings DbProg GoSort.

Local Open Scope Z_scope.
Local Open Scope go_scope.

(** ** The tables *)

Inductive ReplicaStatus := ReplicaStatusPending | ReplicaStatusActive | ReplicaStatusFailed | ReplicaStatusRemoving.
#[global] Instance ReplicaStatus_eq_dec : EqDecision ReplicaStatus.
Proof. solve_decision. Defined.

Record dns_node := mkNode { n_id : string; n_ip : string; n_internal : option string; n_active : bool; n_last_seen : Z }.
Record assignment := mkAssignment {
  a_namespace : string; a_node : string; a_assigned_at : Z; a_heartbeat : Z; a_deployments : Z; a_memory : Z; a_cpu : Z
}.
Record Replica := mkReplica {
  r_deployment : string; r_node : string; r_port : Z; r_status : ReplicaStatus; r_primary : bool; r_created : Z; r_updated : Z
}.

(** [deployed_on]: the home nodes of the deployments that are active or being
    deployed; [port_nodes] and [block_nodes]: the nodes of the allocated ports and port blocks. *)
Record placement := mkPlacement {
  nodes : list dns_node; deployed_on : list string; port_nodes : list string; block_nodes : list string;
  assignments : list assignment; replicas : list Replica
}.

Definition set_assignments (l : list assignment) (d : placement) : placement :=
  mkPlacement (nodes d) (deployed_on d) (port_nodes d) (block_nodes d) l (replicas d).
Definition set_replicas (l : list Replica) (d : placement) : placement :=
  mkPlacement (nodes d) (deployed_on d) (port_nodes d) (block_nodes d) (assignments d) l.

(** ** Scores *)

Definition MaxDeploymentsPerNode : Z := 100.
Definition MaxMemoryMB : Z := 8192.
Definition MaxCPUPercent : Z := 400.
Definition MaxPortsPerNode : Z := 9900.
Definition MaxNamespacesPerNode : Z := (10099 - 10000 + 1) / 5.

(** A multiple of all limits. *)
Definition scale : Z := 20275200.

(** [1 - used/max], not below zero. *)
Definition component (used max : Z) : Z := Z.max 0 (scale - used * (scale / max)).

(** Weights 0.4, 0.2, 0.2 and 0.2. *)
Definition calculateCapacityScore (deploymentCount allocatedPorts usedMemoryMB usedCPUPercent : Z) : Z :=
  2 * component deploymentCount MaxDeploymentsPerNode + component allocatedPorts MaxPortsPerNode + component usedMemoryMB MaxMemoryMB
  + component usedCPUPercent MaxCPUPercent.

(** Weights 0.30, 0.15, 0.15, 0.15 and 0.25. *)
Definition cluster_score (deploymentCount allocatedPorts usedMemoryMB usedCPUPercent namespaceInstances : Z) : Z :=
  6 * component deploymentCount MaxDeploymentsPerNode + 3 * component allocatedPorts MaxPortsPerNode + 3 * component usedMemoryMB MaxMemoryMB
  + 3 * component usedCPUPercent MaxCPUPercent + 5 * component namespaceInstances MaxNamespacesPerNode.

Record NodeCapacity := mkCapacity {
  NodeID : string; IPAddress : string; InternalIP : string; DeploymentCount : Z; AllocatedPorts : Z; AvailablePorts : Z; UsedMemoryMB : Z;
  AvailableMemoryMB : Z; UsedCPUPercent : Z; NamespaceInstanceCount : Z; AvailableNamespaceSlots : Z; Score : Z
}.

(** ** Statements *)

Definition count_of (id : string) (l : list string) : Z := Z.of_nat (length (filter (.= id) l)).
Definition sum_of (f : assignment → Z) (id : string) (d : placement) : Z :=
  foldr (λ a s, f a + s) 0 (filter (λ a, a_node a = id) (assignments d)).

Definition id_le (a b : dns_node) : Prop := String.leb (n_id a) (n_id b) = true.
#[global] Instance id_le_dec : RelDecision id_le.
Proof. intros a b. unfold id_le. apply _. Defined.

(** The cutoff is the local time, [zone] seconds ahead of that of the database. *)
Definition active_since (now zone : Z) (n : dns_node) : Prop := n_active n = true ∧ now - 120 + zone < n_last_seen n.
#[global] Instance active_since_dec now zone n : Decision (active_since now zone n).
Proof. unfold active_since. apply _. Defined.

Definition select_active (now zone : Z) (d : placement) : list dns_node := merge_sort id_le (filter (active_since now zone) (nodes d)).

Definition upsert_assignment (a : assignment) (d : placement) : placement :=
  if decide (a_namespace a ∈ a_namespace <$> assignments d) then
    set_assignments ((λ x, if decide (a_namespace x = a_namespace a)
                           then mkAssignment (a_namespace x) (a_node a) (a_assigned_at a) (a_heartbeat a) (a_deployments x) (a_memory x) (a_cpu x)
                           else x) <$> assignments d) d
  else set_assignments (assignments d ++ [a]) d.

Definition update_assignments (namespace : string) (f : assignment → assignment) (d : placement) : placement :=
  set_assignments ((λ x, if decide (a_namespace x = namespace) then f x else x) <$> assignments d) d.

Definition upsert_replica (r : Replica) (d : placement) : placement :=
  if decide ((r_deployment r, r_node r) ∈ (λ x, (r_deployment x, r_node x)) <$> replicas d) then
    set_replicas ((λ x, if decide (r_deployment x = r_deployment r ∧ r_node x = r_node r)
                        then mkReplica (r_deployment x) (r_node x) (r_port r) (r_status r) (r_primary r) (r_created x) (r_updated r)
                        else x) <$> replicas d) d
  else set_replicas (replicas d ++ [r]) d.

(** ** Home nodes *)

Inductive placement_error := ErrNoNodesAvailable | ErrNamespaceNotAssigned | ErrInsufficientNodes | DeploymentError (message : string).

Abbreviation answer A := (prog placement (result placement_error A)).

(** A query whose failure has a message. *)
Definition asked {A : Type} (q : placement → A) (message : string) : answer A :=
  Query q (λ r, match r with Ok x => Ret (Ok x) | Err _ => Ret (Err (DeploymentError message)) end).

Definition executed (w : placement → placement) (message : string) : answer unit :=
  Exec (λ d, Ok (w d)) (λ r, match r with Ok _ => Ret (Ok tt) | Err _ => Ret (Err (DeploymentError message)) end).

(** The next step, when there was no error. *)
Definition andThen {A B : Type} (p : answer A) (f : A → answer B) : answer B :=
  do! r := p in match r with Ok x => f x | Err e => Ret (Err e) end.

Definition GetHomeNode (namespace : string) : answer string :=
  Query (λ d, fmap (M := option) a_node (head (filter (λ a, a_namespace a = namespace) (assignments d)))) (λ r,
    match r with
    | Err _ => Ret (Err (DeploymentError "failed to query home node"))
    | Ok None => Ret (Err ErrNamespaceNotAssigned)
    | Ok (Some id) => Ret (Ok id)
    end).

Definition getActiveNodes (now zone : Z) : answer (list dns_node) := asked (select_active now zone) "failed to query active nodes".
Definition getDeploymentCount (id : string) : answer Z := asked (λ d, count_of id (deployed_on d)) "failed to count deployments".
Definition GetNodePortCount (id : string) : answer Z := asked (λ d, count_of id (port_nodes d)) "failed to count allocated ports".
Definition GetNodeAllocationCount (id : string) : answer Z := asked (λ d, count_of id (block_nodes d)) "failed to count allocated port blocks".
Definition getNodeResourceUsage (id : string) : answer (Z * Z) := asked (λ d, (sum_of a_memory id d, sum_of a_cpu id d)) "failed to query resource usage".

Definition GetAvailablePortCount (id : string) : answer Z :=
  andThen (GetNodePortCount id) (λ n, Ret (Ok (Z.max 0 (19999 - 10100 + 1 - n)))).

Definition getNodeCapacity (id : string) : answer NodeCapacity :=
  andThen (getDeploymentCount id) (λ deploymentCount,
  andThen (GetNodePortCount id) (λ allocatedPorts,
  andThen (GetAvailablePortCount id) (λ availablePorts,
  andThen (getNodeResourceUsage id) (λ usage,
    Ret (Ok (mkCapacity id EmptyString EmptyString deploymentCount allocatedPorts availablePorts usage.1 (MaxMemoryMB - usage.1) usage.2 0 0
               (calculateCapacityScore deploymentCount allocatedPorts usage.1 usage.2))))))).

(** A node whose capacity cannot be read is skipped. *)
Fixpoint calculateNodeCapacities (ids : list string) : prog placement (list NodeCapacity) :=
  match ids with
  | [] => Ret []
  | id :: ids' =>
      do! c := getNodeCapacity id in
      do! rest := calculateNodeCapacities ids' in
      Ret (match c with Ok c => c :: rest | Err _ => rest end)
  end.

Definition better (best c : NodeCapacity) : NodeCapacity := if Score best <? Score c then c else best.
Definition selectBestNode (capacities : list NodeCapacity) : option NodeCapacity :=
  match capacities with
  | [] => None
  | c :: cs => Some (foldl better c cs)
  end.

(** The assignment of a namespace without a home. *)
Definition assign_new (now zone : Z) (namespace : string) : answer string :=
  andThen (getActiveNodes now zone) (λ active,
    match active with
    | [] => Ret (Err ErrNoNodesAvailable)
    | _ =>
        do! capacities := calculateNodeCapacities (n_id <$> active) in
        match selectBestNode capacities with
        | None => Ret (Err ErrNoNodesAvailable)
        | Some best =>
            andThen (executed (upsert_assignment (mkAssignment namespace (NodeID best) now now 0 0 0)) "failed to create home node assignment")
              (λ _, Ret (Ok (NodeID best)))
        end
    end).

(** Also a failed reading leads to a new assignment. *)
Definition AssignHomeNode (now zone : Z) (namespace : string) : answer string :=
  do! existing := GetHomeNode namespace in
  match existing with
  | Ok (String _ _ as id) => Ret (Ok id)
  | _ => assign_new now zone namespace
  end.

Definition UpdateHeartbeat (now : Z) (namespace : string) : answer unit :=
  executed (update_assignments namespace (λ a, mkAssignment (a_namespace a) (a_node a) (a_assigned_at a) now (a_deployments a) (a_memory a) (a_cpu a)))
    "failed to update heartbeat".

Definition UpdateResourceUsage (namespace : string) (deploymentCount memoryMB cpuPercent : Z) : answer unit :=
  executed (update_assignments namespace (λ a, mkAssignment (a_namespace a) (a_node a) (a_assigned_at a) (a_heartbeat a) deploymentCount memoryMB cpuPercent))
    "failed to update resource usage".

Definition MigrateNamespace (now : Z) (namespace newNodeID : string) : answer unit :=
  executed (update_assignments namespace (λ a, mkAssignment (a_namespace a) newNodeID now now (a_deployments a) (a_memory a) (a_cpu a)))
    "failed to migrate namespace".

(** ** Replicas *)

(** [i]: the loop counter; the capacities shrink while it runs. *)
Fixpoint pick_replicas (fuel i count : nat) (capacities : list NodeCapacity) : list string :=
  match fuel with
  | O => []
  | S fuel' =>
      if (i <? count)%nat && (i <? length capacities)%nat then
        match selectBestNode capacities with
        | None => []
        | Some best => NodeID best :: pick_replicas fuel' (S i) count (filter (λ c, NodeID c ≠ NodeID best) capacities)
        end
      else []
  end.

Definition SelectReplicaNodes (now zone : Z) (primaryNodeID : string) (count : nat) : answer (list string) :=
  andThen (getActiveNodes now zone) (λ active,
    match filter (.≠ primaryNodeID) (n_id <$> active) with
    | [] => Ret (Ok [])
    | candidates => do! capacities := calculateNodeCapacities candidates in Ret (Ok (pick_replicas (length capacities) 0 count capacities))
    end).

Definition CreateReplica (now : Z) (deploymentID nodeID : string) (port : Z) (isPrimary : bool) (status : ReplicaStatus) : answer unit :=
  executed (upsert_replica (mkReplica deploymentID nodeID port status isPrimary now now)) "failed to create replica".

Definition GetReplicas (deploymentID : string) : answer (list Replica) :=
  asked (λ d, filter (λ r, r_deployment r = deploymentID) (replicas d)) "failed to query replicas".

Definition GetActiveReplicaNodes (deploymentID : string) : answer (list string) :=
  asked (A := list string) (λ d, r_node <$> filter (λ r, r_deployment r = deploymentID ∧ r_status r = ReplicaStatusActive ∧ 0 < r_port r) (replicas d)) "failed to query active replicas".

Definition IsReplicaNode (deploymentID nodeID : string) : answer bool :=
  asked (λ d, bool_decide (filter (λ r, r_deployment r = deploymentID ∧ r_node r = nodeID ∧ r_status r = ReplicaStatusActive) (replicas d) ≠ [])) EmptyString.

Definition GetReplicaPort (deploymentID nodeID : string) : answer Z :=
  andThen (asked (λ d, fmap (M := option) r_port (head (filter (λ r, r_deployment r = deploymentID ∧ r_node r = nodeID ∧ r_status r = ReplicaStatusActive) (replicas d)))) EmptyString)
    (λ p, match p with Some port => Ret (Ok port) | None => Ret (Err (DeploymentError "no active replica found")) end).

Definition UpdateReplicaStatus (now : Z) (deploymentID nodeID : string) (status : ReplicaStatus) : answer unit :=
  executed (λ d, set_replicas ((λ r, if decide (r_deployment r = deploymentID ∧ r_node r = nodeID)
                                     then mkReplica (r_deployment r) (r_node r) (r_port r) status (r_primary r) (r_created r) now else r) <$> replicas d) d)
    "failed to update replica status".

Definition RemoveReplicas (deploymentID : string) : answer unit :=
  executed (λ d, set_replicas (filter (λ r, r_deployment r ≠ deploymentID) (replicas d)) d) "failed to remove replicas".

Definition GetNodeIP (nodeID : string) : answer string :=
  andThen (asked (λ d, fmap (M := option) n_ip (head (filter (λ n, n_id n = nodeID) (nodes d)))) EmptyString)
    (λ p, match p with Some ip => Ret (Ok ip) | None => Ret (Err (DeploymentError "node not found")) end).

(** ** Nodes of a cluster *)

Definition cluster_capacity (n : dns_node) : answer NodeCapacity :=
  let id := n_id n in
  andThen (getDeploymentCount id) (λ deploymentCount,
  andThen (GetNodePortCount id) (λ allocatedPorts,
  andThen (getNodeResourceUsage id) (λ usage,
  andThen (GetNodeAllocationCount id) (λ instances,
    Ret (Ok (mkCapacity id (n_ip n) (default (n_ip n) (n_internal n)) deploymentCount allocatedPorts (Z.max 0 (MaxPortsPerNode - allocatedPorts)) usage.1
               (Z.max 0 (MaxMemoryMB - usage.1)) usage.2 instances (Z.max 0 (MaxNamespacesPerNode - instances))
               (cluster_score deploymentCount allocatedPorts usage.1 usage.2 instances))))))).

(** The nodes with a free slot. *)
Fixpoint eligible_nodes (ns : list dns_node) : prog placement (list NodeCapacity) :=
  match ns with
  | [] => Ret []
  | n :: ns' =>
      do! c := cluster_capacity n in
      do! rest := eligible_nodes ns' in
      Ret (match c with Ok c => if 0 <? AvailableNamespaceSlots c then c :: rest else rest | Err _ => rest end)
  end.

Definition higher (a b : NodeCapacity) : bool := Score b <? Score a.

Definition SelectNodesForCluster (now zone : Z) (nodeCount : nat) : answer (list NodeCapacity) :=
  andThen (getActiveNodes now zone) (λ active,
    do! eligible := eligible_nodes active in
    if (length eligible <? nodeCount)%nat then Ret (Err ErrInsufficientNodes)
    else Ret (Ok (take nodeCount (sort_Slice higher eligible)))).

Definition SelectReplacementNode (now zone : Z) (excludeNodeIDs : list string) : answer NodeCapacity :=
  andThen (getActiveNodes now zone) (λ active,
    do! eligible := eligible_nodes (filter (λ n, n_id n ∉ excludeNodeIDs) active) in
    match sort_Slice higher eligible with
    | [] => Ret (Err ErrInsufficientNodes)
    | best :: _ => Ret (Ok best)
    end).

(** ** Alone *)

Lemma run_andThen {A B : Type} (p : answer A) (f : A → answer B) d x d' :
  run p d = (Ok x, d') → run (andThen p f) d = run (f x) d'.
Proof. intros Hp. unfold andThen. by rewrite run_bind, Hp. Qed.

Definition capacity_of (d : placement) (id : string) : NodeCapacity :=
  mkCapacity id EmptyString EmptyString (count_of id (deployed_on d)) (count_of id (port_nodes d))
    (Z.max 0 (19999 - 10100 + 1 - count_of id (port_nodes d))) (sum_of a_memory id d) (MaxMemoryMB - sum_of a_memory id d) (sum_of a_cpu id d) 0 0
    (calculateCapacityScore (count_of id (deployed_on d)) (count_of id (port_nodes d)) (sum_of a_memory id d) (sum_of a_cpu id d)).

Definition cluster_capacity_of (d : placement) (n : dns_node) : NodeCapacity :=
  let id := n_id n in
  let instances := count_of id (block_nodes d) in
  mkCapacity id (n_ip n) (default (n_ip n) (n_internal n)) (count_of id (deployed_on d)) (count_of id (port_nodes d))
    (Z.max 0 (MaxPortsPerNode - count_of id (port_nodes d))) (sum_of a_memory id d) (Z.max 0 (MaxMemoryMB - sum_of a_memory id d)) (sum_of a_cpu id d)
    instances (Z.max 0 (MaxNamespacesPerNode - instances))
    (cluster_score (count_of id (deployed_on d)) (count_of id (port_nodes d)) (sum_of a_memory id d) (sum_of a_cpu id d) instances).

Lemma run_calculate d ids : run (calculateNodeCapacities ids) d = (capacity_of d <$> ids, d).
Proof.
  induction ids as [| id ids IH]; [done |]. cbn [calculateNodeCapacities].
  assert (run (getNodeCapacity id) d = (Ok (capacity_of d id), d)) as Hc by done.
  rewrite run_bind, Hc. cbn [fst snd]. by rewrite run_bind, IH.
Qed.

Definition open_slot (c : NodeCapacity) : Prop := 0 < AvailableNamespaceSlots c.
#[global] Instance open_slot_dec c : Decision (open_slot c).
Proof. unfold open_slot. apply _. Defined.

Lemma run_eligible d ns : run (eligible_nodes ns) d = (filter open_slot (cluster_capacity_of d <$> ns), d).
Proof.
  induction ns as [| n ns IH]; [done |]. cbn [eligible_nodes].
  assert (run (cluster_capacity n) d = (Ok (cluster_capacity_of d n), d)) as Hc by done.
  rewrite run_bind, Hc. cbn [fst snd]. rewrite run_bind, IH. cbn [run fst snd]. f_equal. cbn [fmap list_fmap]. rewrite filter_cons. unfold open_slot.
  destruct (Z.ltb_spec 0 (AvailableNamespaceSlots (cluster_capacity_of d n))); [by rewrite decide_True | by rewrite decide_False by lia].
Qed.

Lemma select_active_perm now zone d : select_active now zone d ≡ₚ filter (active_since now zone) (nodes d).
Proof. apply merge_sort_Permutation. Qed.

(** *** The best node *)

Lemma better_spec cs c :
  let b := foldl better c cs in b ∈ c :: cs ∧ ∀ x, x ∈ c :: cs → Score x ≤ Score b.
Proof.
  revert c. induction cs as [| x cs IH]; intros c; cbn [foldl].
  { split; [by left |]. intros y [-> | Hy%elem_of_nil]%elem_of_cons; [lia | done]. }
  destruct (IH (better c x)) as [Hin Hmax]. unfold better in *. destruct (Z.ltb_spec (Score c) (Score x)) as [Hlt | Hge].
  - split; [by right |]. intros y [-> | Hy]%elem_of_cons; [| by apply Hmax]. pose proof (Hmax x ltac:(by left)). lia.
  - split; [apply elem_of_cons in Hin as [-> | Hin]; [by left | by right; right] |].
    intros y [-> | [-> | Hy]%elem_of_cons]%elem_of_cons; [by apply Hmax; left | | by apply Hmax; right].
    pose proof (Hmax c ltac:(by left)). lia.
Qed.

Lemma selectBest_spec cs :
  match selectBestNode cs with
  | Some b => b ∈ cs ∧ ∀ x, x ∈ cs → Score x ≤ Score b
  | None => cs = []
  end.
Proof. destruct cs as [| c cs]; [done |]. apply better_spec. Qed.

(** *** Replicas *)

Lemma without_node cs b :
  NoDup (NodeID <$> cs) → b ∈ cs → length cs = S (length (filter (λ c, NodeID c ≠ NodeID b) cs)).
Proof.
  induction cs as [| c cs IH]; [by intros _ ?%elem_of_nil |]. cbn [fmap list_fmap]. intros [Hni Hnd]%NoDup_cons [-> | Hin]%elem_of_cons.
  - rewrite filter_cons, decide_False by (intros H; by apply H). cbn [length]. f_equal. f_equal. symmetry.
    clear -Hni. induction cs as [| x cs IH]; [done |]. cbn [fmap list_fmap] in Hni. apply not_elem_of_cons in Hni as [H1 H2].
    rewrite filter_cons, decide_True by congruence. f_equal. by apply IH.
  - rewrite filter_cons, decide_True; [cbn [length]; f_equal; by apply IH |]. intros E. apply Hni. rewrite E. by apply list_elem_of_fmap_2.
Qed.

Lemma NoDup_filter_ids (P : NodeCapacity → Prop) `{!∀ c, Decision (P c)} cs : NoDup (NodeID <$> cs) → NoDup (NodeID <$> filter P cs).
Proof. intros Hnd. eapply sublist_NoDup; [exact Hnd |]. apply fmap_sublist, sublist_filter. Qed.

(** The picked nodes are the best ones, best first; every node left over is no
    better.  The counter and the shrinking list meet half way. *)
Lemma pick_spec fuel i count cs :
  NoDup (NodeID <$> cs) → (length cs ≤ fuel)%nat →
  let l := pick_replicas fuel i count cs in
  length l = Nat.min (count - i) ((length cs - i + 1) / 2) ∧ NoDup l ∧ (∀ id, id ∈ l → id ∈ NodeID <$> cs) ∧
  ∀ c c', c ∈ cs → c' ∈ cs → NodeID c ∈ l → NodeID c' ∉ l → Score c' ≤ Score c.
Proof.
  revert i cs. induction fuel as [| fuel IH]; intros i cs Hnd Hlen; cbn [pick_replicas].
  { destruct cs; [| cbn in Hlen; lia]. cbn [length]. replace (0 - i + 1)%nat with 1%nat by lia. change (1 / 2)%nat with 0%nat.
    split; [lia |]. split; [apply NoDup_nil_2 |]. split; [by intros ? ?%elem_of_nil | by intros ?? ?%elem_of_nil]. }
  destruct (Nat.ltb_spec i count) as [Hi | Hi]; cbn [andb]; [destruct (Nat.ltb_spec i (length cs)) as [Hl | Hl]; cbn [andb] |].
  2:{ cbn [length]. replace (length cs - i + 1)%nat with 1%nat by lia. change (1 / 2)%nat with 0%nat.
      split; [lia |]. split; [apply NoDup_nil_2 |]. split; [by intros ? ?%elem_of_nil | by intros ?? _ _ ?%elem_of_nil]. }
  2:{ cbn [length]. split; [lia |]. split; [apply NoDup_nil_2 |]. split; [by intros ? ?%elem_of_nil | by intros ?? _ _ ?%elem_of_nil]. }
  pose proof (selectBest_spec cs) as Hb. destruct (selectBestNode cs) as [b |]; [| subst cs; cbn in Hl; lia]. destruct Hb as [Hb Hmax].
  pose proof (without_node cs b Hnd Hb) as Hlen'. set (cs' := filter (λ c, NodeID c ≠ NodeID b) cs) in *.
  destruct (IH (S i) cs' (NoDup_filter_ids _ _ Hnd) ltac:(lia)) as (H1 & H2 & H3 & H4). cbn zeta in *. set (l := pick_replicas fuel (S i) count cs') in *.
  assert (∀ id, id ∈ l → id ≠ NodeID b ∧ id ∈ NodeID <$> cs) as Hl'.
  { intros id Hid%H3. apply list_elem_of_fmap in Hid as (c & -> & [Hne Hc]%list_elem_of_filter). split; [done |]. by apply list_elem_of_fmap_2. }
  split; [| split; [| split]].
  - cbn [length]. rewrite H1. destruct (decide (length cs' = i)) as [E | E].
    + replace (length cs - i + 1)%nat with 2%nat by lia. replace (length cs' - S i + 1)%nat with 1%nat by lia. change (1 / 2)%nat with 0%nat.
      change (2 / 2)%nat with 1%nat. lia.
    + replace (length cs - i + 1)%nat with ((length cs' - S i + 1) + 1 * 2)%nat by lia. rewrite Nat.div_add by lia. lia.
  - apply NoDup_cons. split; [| done]. intros Hin. by apply Hl' in Hin as [? _].
  - intros id [-> | Hid]%elem_of_cons; [by apply list_elem_of_fmap_2 | by apply Hl'].
  - intros c c' Hc Hc' [E | Hin]%elem_of_cons [Hne Hni]%not_elem_of_cons.
    + assert (c = b) as -> by (eapply (NoDup_fmap_elem NodeID); [exact Hnd | done | done | done]). by apply Hmax.
    + apply H4; [| | done | done]; apply list_elem_of_filter; split; [by apply Hl' | done | done | done].
Qed.

(** *** Sorting by score *)

Lemma insert_higher_sorted x l :
  StronglySorted (λ a b, Score a ≤ Score b) l → StronglySorted (λ a b, Score a ≤ Score b) (insert_left higher x l).
Proof.
  induction l as [| y l IH]; intros Hs; cbn [insert_left]; [by repeat constructor |].
  apply StronglySorted_cons in Hs as [Hy Hs]. unfold higher. destruct (Z.ltb_spec (Score y) (Score x)) as [Hlt | Hge].
  - constructor; [by apply IH |]. rewrite insert_left_perm. constructor; [lia | done].
  - constructor; [by constructor |]. constructor; [lia |]. eapply Forall_impl; [exact Hy |]. cbn. lia.
Qed.

Lemma sorted_higher l : StronglySorted (λ a b, Score a ≤ Score b) (reverse (sort_Slice higher l)).
Proof.
  unfold sort_Slice. rewrite reverse_involutive.
  assert (∀ acc, StronglySorted (λ a b, Score a ≤ Score b) acc → StronglySorted (λ a b, Score a ≤ Score b) (foldl (λ acc x, insert_left higher x acc) acc l)) as H.
  { induction l as [| x l IH]; intros acc Hs; cbn [foldl]; [done |]. apply IH. by apply insert_higher_sorted. }
  apply H. constructor.
Qed.

(** Later in the list is no better. *)
Lemma sort_higher_lookup l i j a b :
  (i < j)%nat → sort_Slice higher l !! i = Some a → sort_Slice higher l !! j = Some b → Score b ≤ Score a.
Proof.
  intros Hij Ha Hb. pose proof (sorted_higher l) as Hs. set (s := sort_Slice higher l) in *.
  assert (∀ s : list NodeCapacity, StronglySorted (λ a b, Score a ≤ Score b) s → ∀ i j a b, (i < j)%nat → s !! i = Some a → s !! j = Some b → Score a ≤ Score b) as Hgen.
  { clear. induction s as [| x s IH]; intros Hs i j a b Hij Ha Hb; [done |]. apply StronglySorted_cons in Hs as [Hx Hs].
    destruct j as [| j]; [lia |]. cbn in Hb. destruct i as [| i]; cbn in Ha.
    - injection Ha as <-. rewrite Forall_forall in Hx. apply Hx. by eapply list_elem_of_lookup_2.
    - by eapply (IH Hs i j); [lia | |]. }
  pose proof (lookup_lt_Some _ _ _ Ha). pose proof (lookup_lt_Some _ _ _ Hb).
  eapply (Hgen _ Hs (length s - S j)%nat (length s - S i)%nat b a); [lia | |].
  - rewrite reverse_lookup by lia. by replace (length s - S (length s - S j))%nat with j by lia.
  - rewrite reverse_lookup by lia. by replace (length s - S (length s - S i))%nat with i by lia.
Qed.

Lemma sorted_prefix_best l k c c' : c ∈ take k (sort_Slice higher l) → c' ∈ drop k (sort_Slice higher l) → Score c' ≤ Score c.
Proof.
  intros (i & Hi)%list_elem_of_lookup_1 (j & Hj)%list_elem_of_lookup_1. apply lookup_take_Some in Hi as [Hi Hik]. rewrite lookup_drop in Hj.
  eapply (sort_higher_lookup l i (k + j)); [lia | done | done].
Qed.

(** ** The choices *)

Definition node_key (d : placement) : Prop := NoDup (n_id <$> nodes d).

Lemma active_NoDup now zone d : node_key d → NoDup (n_id <$> select_active now zone d).
Proof.
  intros Hk. rewrite select_active_perm. eapply sublist_NoDup; [exact Hk |]. apply fmap_sublist, sublist_filter.
Qed.

Lemma elem_of_active now zone d n : n ∈ select_active now zone d ↔ n ∈ nodes d ∧ active_since now zone n.
Proof. rewrite select_active_perm, list_elem_of_filter. naive_solver. Qed.

(** C21: the nodes of a cluster.  Alone, with readings that succeed, the
    selection fails exactly when fewer nodes than asked for are active and have
    a free slot.  Otherwise it gives as many different nodes as asked for, each
    active within two minutes by the clock of the gateway, [zone] seconds ahead of UTC, and with a free slot,
    the best score first, and no node with a free slot that was left out has a better score. *)
Theorem cluster_nodes_spec now zone d k :
  node_key d →
  let eligible := filter open_slot (cluster_capacity_of d <$> select_active now zone d) in
  if (length eligible <? k)%nat then run (SelectNodesForCluster now zone k) d = (Err ErrInsufficientNodes, d)
  else ∃ l, run (SelectNodesForCluster now zone k) d = (Ok l, d) ∧ length l = k ∧ NoDup (NodeID <$> l) ∧
    (∀ c, c ∈ l → ∃ n, n ∈ nodes d ∧ n_active n = true ∧ now - 120 + zone < n_last_seen n ∧ c = cluster_capacity_of d n ∧ NamespaceInstanceCount c < 20) ∧
    StronglySorted (λ a b, Score a ≤ Score b) (reverse l) ∧
    ∀ c c', c ∈ l → c' ∈ eligible → NodeID c' ∉ NodeID <$> l → Score c' ≤ Score c.
Proof.
  intros Hk eligible.
  assert (run (SelectNodesForCluster now zone k) d = if (length eligible <? k)%nat then (Err ErrInsufficientNodes, d) else (Ok (take k (sort_Slice higher eligible)), d)) as Hrun.
  { unfold SelectNodesForCluster. erewrite run_andThen by reflexivity. rewrite run_bind, run_eligible. cbn [fst snd]. fold eligible. by destruct (length eligible <? k)%nat. }
  rewrite Hrun. destruct (Nat.ltb_spec (length eligible) k) as [Hlt | Hge]; [done |]. eexists. split; [done |].
  pose proof (sort_Slice_perm higher eligible) as Hp.
  assert (NoDup (NodeID <$> eligible)) as Hnd.
  { apply NoDup_filter_ids. rewrite <- list_fmap_compose. erewrite list_fmap_ext; [apply (active_NoDup now zone d Hk) |]. done. }
  split; [rewrite length_take, Hp; lia |]. split; [| split; [| split]].
  - eapply sublist_NoDup; [| apply fmap_sublist, sublist_take]. by rewrite Hp.
  - intros c Hc. assert (c ∈ eligible) as Hin by (rewrite <- Hp, <- (take_drop k (sort_Slice higher eligible)); apply elem_of_app; by left). apply list_elem_of_filter in Hin as [Hopen Hin].
    apply list_elem_of_fmap in Hin as (n & -> & [Hn [Ha Hs]]%elem_of_active). exists n. split; [done |]. split; [done |]. split; [lia |]. split; [done |].
    unfold open_slot in Hopen. cbn in *. change MaxNamespacesPerNode with 20 in Hopen. lia.
  - pose proof (sorted_higher eligible) as Hs. rewrite <- (take_drop k (sort_Slice higher eligible)), reverse_app in Hs.
    by apply StronglySorted_app_1_r in Hs.
  - intros c c' Hc Hc' Hout. rewrite <- Hp, <- (take_drop k (sort_Slice higher eligible)) in Hc'. apply elem_of_app in Hc' as [Hc' | Hc'].
    + destruct Hout. by apply list_elem_of_fmap_2.
    + by eapply sorted_prefix_best.
Qed.

(** The nodes of replicas.  Alone, the selection gives different
    active nodes other than the primary one, the best ones, but only as many
    as half of the other active nodes, rounded up. *)
Theorem replica_nodes_spec now zone d primary count :
  node_key d →
  let others := filter (.≠ primary) (n_id <$> select_active now zone d) in
  ∃ l, run (SelectReplicaNodes now zone primary count) d = (Ok l, d) ∧
    length l = Nat.min count ((length others + 1) / 2) ∧ NoDup l ∧ (∀ id, id ∈ l → id ∈ others) ∧
    ∀ id id', id ∈ l → id' ∈ others → id' ∉ l → Score (capacity_of d id') ≤ Score (capacity_of d id).
Proof.
  intros Hk others. unfold SelectReplicaNodes. erewrite run_andThen by reflexivity. fold others.
  destruct others as [| id0 ids] eqn:Eo.
  { exists []. cbn [run length]. change ((0 + 1) / 2)%nat with 0%nat. split; [done |]. split; [lia |]. split; [apply NoDup_nil_2 |].
    split; [by intros ? ?%elem_of_nil | by intros ?? ?%elem_of_nil]. }
  rewrite run_bind, run_calculate. cbn [fst snd run]. set (cs := capacity_of d <$> (id0 :: ids)).
  assert (NodeID <$> cs = id0 :: ids) as Hids by (unfold cs; rewrite <- list_fmap_compose; apply list_fmap_id).
  destruct (pick_spec (length cs) 0 count cs) as (H1 & H2 & H3 & H4).
  { rewrite Hids, <- Eo. apply NoDup_filter, active_NoDup, Hk. }
  { done. }
  cbn zeta in *. exists (pick_replicas (length cs) 0 count cs). split; [done |].
  assert (length cs = length (id0 :: ids)) as Hlc by (unfold cs; apply length_fmap).
  split; [rewrite H1, Hlc, !Nat.sub_0_r; done |]. split; [done |]. rewrite Hids in H3. split; [done |].
  intros id id' Hid Hid' Hni. apply H4; [| | done | done].
  - unfold cs. apply list_elem_of_fmap_2. by apply H3.
  - unfold cs. by apply list_elem_of_fmap_2.
Qed.

(** *** Home nodes *)

Definition home_of (namespace : string) (d : placement) : option string :=
  fmap (M := option) a_node (head (filter (λ a, a_namespace a = namespace) (assignments d))).

Lemma home_mapped namespace f l :
  (∀ a, a_namespace (f a) = a_namespace a) →
  fmap (M := option) a_node (head (filter (λ a, a_namespace a = namespace) (f <$> l)))
    = fmap (M := option) (λ a, a_node (f a)) (head (filter (λ a, a_namespace a = namespace) l)).
Proof.
  intros Hf. induction l as [| a l IH]; [done |]. cbn [fmap list_fmap]. rewrite !filter_cons, Hf. case_decide; [done | exact IH].
Qed.

Lemma head_named namespace l a : head (filter (λ a, a_namespace a = namespace) l) = Some a → a_namespace a = namespace.
Proof. intros Ha%head_Some_elem_of. by apply list_elem_of_filter in Ha as [? _]. Qed.

Lemma home_upsert a d namespace :
  home_of namespace (upsert_assignment a d) = if decide (namespace = a_namespace a) then Some (a_node a) else home_of namespace d.
Proof.
  unfold home_of, upsert_assignment. case_decide as Hin; cbn [assignments set_assignments].
  - rewrite home_mapped by (intros x; by case_decide).
    destruct (head (filter (λ x, a_namespace x = namespace) (assignments d))) as [x |] eqn:Hx; cbn.
    + apply head_named in Hx. subst namespace. repeat case_decide; naive_solver.
    + case_decide as Hn; [| done]. subst namespace. apply list_elem_of_fmap in Hin as (y & E & Hy).
      assert (y ∈ filter (λ x, a_namespace x = a_namespace a) (assignments d)) as Hf by (by apply list_elem_of_filter).
      destruct (filter _ (assignments d)); [by apply elem_of_nil in Hf | done].
  - rewrite filter_app, filter_cons, filter_nil. case_decide as H1; case_decide as H2; try (by subst; done).
    + subst namespace. assert (filter (λ x, a_namespace x = a_namespace a) (assignments d) = []) as ->; [| done].
      destruct (filter _ (assignments d)) as [| y l] eqn:Ef; [done |].
      assert (y ∈ filter (λ x, a_namespace x = a_namespace a) (assignments d)) as [Ey Hy]%list_elem_of_filter by (rewrite Ef; by left).
      destruct Hin. rewrite <- Ey. by apply list_elem_of_fmap_2.
    + by rewrite app_nil_r.
Qed.

Lemma run_GetHomeNode d namespace :
  run (GetHomeNode namespace) d = (match home_of namespace d with Some id => Ok id | None => Err ErrNamespaceNotAssigned end, d).
Proof. unfold GetHomeNode. cbn [run]. unfold home_of. by destruct (head _). Qed.

Lemma run_Assign_kept now zone d namespace id :
  home_of namespace d = Some id → id ≠ EmptyString → run (AssignHomeNode now zone namespace) d = (Ok id, d).
Proof. intros Hh Hid. unfold AssignHomeNode. rewrite run_bind, run_GetHomeNode, Hh. cbn [fst snd]. by destruct id. Qed.

Lemma run_assign_new now zone d namespace :
  (∀ n, n ∈ nodes d → n_id n ≠ EmptyString) →
  let active := n_id <$> select_active now zone d in
  (active = [] ∧ run (assign_new now zone namespace) d = (Err ErrNoNodesAvailable, d)) ∨
  ∃ id d', run (assign_new now zone namespace) d = (Ok id, d') ∧ id ∈ active ∧
    (∀ id', id' ∈ active → Score (capacity_of d id') ≤ Score (capacity_of d id)) ∧
    (∀ now' zone', run (AssignHomeNode now' zone' namespace) d' = (Ok id, d')) ∧
    ∀ ns, ns ≠ namespace → home_of ns d' = home_of ns d.
Proof.
  intros Hne active. unfold assign_new. erewrite run_andThen by reflexivity. unfold active. destruct (select_active now zone d) as [| n ns] eqn:Ha; [by left |].
  right. rewrite run_bind, run_calculate. cbn [fst snd]. pose proof (selectBest_spec (capacity_of d <$> (n_id <$> n :: ns))) as Hb.
  destruct (selectBestNode (capacity_of d <$> (n_id <$> n :: ns))) as [best |]; [| done]. destruct Hb as [Hb Hmax].
  apply list_elem_of_fmap in Hb as (id & -> & Hid). eexists id, _. split; [reflexivity |]. split; [done |]. split; [| split].
  - intros id' Hid'. apply Hmax. by apply list_elem_of_fmap_2.
  - intros now' zone'. apply run_Assign_kept.
    + cbn [NodeID capacity_of]. rewrite home_upsert. by rewrite decide_True by done.
    + apply list_elem_of_fmap in Hid as (n0 & -> & Hn0). apply Hne. rewrite <- Ha in Hn0. by apply elem_of_active in Hn0 as [? _].
  - intros ns' Hns'. rewrite home_upsert. by rewrite decide_False.
Qed.

(** C22: the home of a namespace, for assignments that run one after the other
    and whose statements succeed (otherwise see [homes_differ] and
    [failed_reading_moves]).  A namespace that has a home keeps it.  One that
    has none gets a node with the best score, one of the best when there are
    several, of those that are active by the clock and zone of the gateway, or
    an error when there is none; from then on it is the home, every later
    assignment gives it whatever the clock says, and the homes of other
    namespaces are as before. *)
Theorem home_node_spec now zone d namespace :
  (∀ n, n ∈ nodes d → n_id n ≠ EmptyString) →
  let active := n_id <$> select_active now zone d in
  match home_of namespace d with
  | Some (String _ _ as id) => run (AssignHomeNode now zone namespace) d = (Ok id, d)
  | _ => (active = [] ∧ run (AssignHomeNode now zone namespace) d = (Err ErrNoNodesAvailable, d)) ∨
      ∃ id d', run (AssignHomeNode now zone namespace) d = (Ok id, d') ∧ id ∈ active ∧
        (∀ id', id' ∈ active → Score (capacity_of d id') ≤ Score (capacity_of d id)) ∧
        (∀ now' zone', run (AssignHomeNode now' zone' namespace) d' = (Ok id, d')) ∧
        ∀ ns, ns ≠ namespace → home_of ns d' = home_of ns d
  end.
Proof.
  intros Hne active. pose proof (run_assign_new now zone d namespace Hne) as Hnew. cbn zeta in Hnew. fold active in Hnew.
  assert (match home_of namespace d with Some (String _ _) => True | _ => run (AssignHomeNode now zone namespace) d = run (assign_new now zone namespace) d end) as Hrun.
  { unfold AssignHomeNode. rewrite run_bind, run_GetHomeNode. cbn [fst snd]. by destruct (home_of namespace d) as [[| c s] |]. }
  destruct (home_of namespace d) as [[| c s] |] eqn:Hh; rewrite ?Hrun; [exact Hnew | by apply run_Assign_kept | exact Hnew].
Qed.

(** ** All nodes at once *)

(** The keys of the tables. *)
Record placement_wf (d : placement) : Prop := {
  one_home : NoDup (a_namespace <$> assignments d);
  one_replica : NoDup ((λ r, (r_deployment r, r_node r)) <$> replicas d)
}.

Lemma upsert_assignment_wf a d : placement_wf d → placement_wf (upsert_assignment a d).
Proof.
  intros [H1 H2]. unfold upsert_assignment. case_decide as Hin; split; cbn; try done.
  - rewrite <- list_fmap_compose. erewrite list_fmap_ext; [exact H1 |]. intros i x _. cbn. by case_decide.
  - rewrite fmap_app. apply NoDup_app. split; [done |]. split; [| apply NoDup_singleton]. by intros x Hx ->%list_elem_of_singleton.
Qed.

Lemma update_assignments_wf namespace f d : (∀ a, a_namespace (f a) = a_namespace a) → placement_wf d → placement_wf (update_assignments namespace f d).
Proof.
  intros Hf [H1 H2]. split; cbn; [| done]. rewrite <- list_fmap_compose. erewrite list_fmap_ext; [exact H1 |]. intros i x _. cbn. by case_decide.
Qed.

Lemma upsert_replica_wf r d : placement_wf d → placement_wf (upsert_replica r d).
Proof.
  intros [H1 H2]. unfold upsert_replica. case_decide as Hin; split; cbn; try done.
  - rewrite <- list_fmap_compose. erewrite list_fmap_ext; [exact H2 |]. intros i x _. cbn. by case_decide.
  - rewrite fmap_app. apply NoDup_app. split; [done |]. split; [| apply NoDup_singleton]. by intros x Hx ->%list_elem_of_singleton.
Qed.

Lemma asked_upholds {A : Type} (q : placement → A) message : upholds placement_wf (λ _, True) (asked q message).
Proof. by split. Qed.

Lemma executed_upholds w message : (∀ d, placement_wf d → placement_wf (w d)) → upholds placement_wf (λ _, True) (executed w message).
Proof. intros Hw. cbn. split; [intros d d' Hd [= <-]; by apply Hw | by intros [[] | e]]. Qed.

Lemma andThen_upholds {A B : Type} (p : answer A) (f : A → answer B) :
  upholds placement_wf (λ _, True) p → (∀ x, upholds placement_wf (λ _, True) (f x)) → upholds placement_wf (λ _, True) (andThen p f).
Proof. intros Hp Hf. eapply (upholds_bind _ (λ _, True)); [exact Hp |]. by intros [x | e] _. Qed.

Create HintDb placement.
#[local] Hint Resolve asked_upholds executed_upholds andThen_upholds upholds_then upsert_assignment_wf upsert_replica_wf : placement.
#[local] Hint Extern 1 (upholds _ _ (Ret _)) => exact I : placement.

Lemma getNodeCapacity_upholds id : upholds placement_wf (λ _, True) (getNodeCapacity id).
Proof. unfold getNodeCapacity, getDeploymentCount, GetAvailablePortCount, GetNodePortCount, getNodeResourceUsage. auto 10 with placement. Qed.

Lemma cluster_capacity_upholds n : upholds placement_wf (λ _, True) (cluster_capacity n).
Proof. unfold cluster_capacity, getDeploymentCount, GetNodePortCount, getNodeResourceUsage, GetNodeAllocationCount. auto 10 with placement. Qed.

Lemma calculate_upholds ids : upholds placement_wf (λ _, True) (calculateNodeCapacities ids).
Proof. induction ids as [| id ids IH]; [done |]. cbn [calculateNodeCapacities]. auto using getNodeCapacity_upholds with placement. Qed.

Lemma eligible_upholds ns : upholds placement_wf (λ _, True) (eligible_nodes ns).
Proof. induction ns as [| n ns IH]; [done |]. cbn [eligible_nodes]. auto using cluster_capacity_upholds with placement. Qed.

Inductive place_op :=
| OpAssign (now zone : Z) (namespace : string)
| OpHeartbeat (now : Z) (namespace : string)
| OpUsage (namespace : string) (deployments memory cpu : Z)
| OpMigrate (now : Z) (namespace node : string)
| OpSelectReplicas (now zone : Z) (primary : string) (count : nat)
| OpCreateReplica (now : Z) (deployment node : string) (port : Z) (primary : bool) (status : ReplicaStatus)
| OpReplicaStatus (now : Z) (deployment node : string) (status : ReplicaStatus)
| OpRemoveReplicas (deployment : string)
| OpSelectCluster (now zone : Z) (count : nat)
| OpSelectReplacement (now zone : Z) (exclude : list string).

Inductive place_reply := RepNode (r : result placement_error string) | RepNodes (r : result placement_error (list string))
| RepDone (r : result placement_error unit) | RepCapacities (r : result placement_error (list NodeCapacity)) | RepCapacity (r : result placement_error NodeCapacity).

Definition place_prog (op : place_op) : prog placement place_reply :=
  match op with
  | OpAssign now zone namespace => do! r := AssignHomeNode now zone namespace in Ret (RepNode r)
  | OpHeartbeat now namespace => do! r := UpdateHeartbeat now namespace in Ret (RepDone r)
  | OpUsage namespace n m c => do! r := UpdateResourceUsage namespace n m c in Ret (RepDone r)
  | OpMigrate now namespace node => do! r := MigrateNamespace now namespace node in Ret (RepDone r)
  | OpSelectReplicas now zone primary count => do! r := SelectReplicaNodes now zone primary count in Ret (RepNodes r)
  | OpCreateReplica now dep node port primary status => do! r := CreateReplica now dep node port primary status in Ret (RepDone r)
  | OpReplicaStatus now dep node status => do! r := UpdateReplicaStatus now dep node status in Ret (RepDone r)
  | OpRemoveReplicas dep => do! r := RemoveReplicas dep in Ret (RepDone r)
  | OpSelectCluster now zone count => do! r := SelectNodesForCluster now zone count in Ret (RepCapacities r)
  | OpSelectReplacement now zone exclude => do! r := SelectReplacementNode now zone exclude in Ret (RepCapacity r)
  end.

Lemma place_prog_upholds op : upholds placement_wf (λ _, True) (place_prog op).
Proof.
  destruct op; cbn [place_prog]; apply upholds_then; try (by intros); unfold getActiveNodes.
  - unfold AssignHomeNode. apply upholds_then; [split; [intros d _; by destruct (fmap (M := option) a_node _) | done] |].
    intros r. destruct r as [[| c s] | e]; [| done |]; unfold assign_new, getActiveNodes; (apply andThen_upholds; [apply asked_upholds |]); (intros [| n ns]; [done |]);
      (apply upholds_then; [apply calculate_upholds |]); intros cs; (destruct (selectBestNode cs); [| done]); auto with placement.
  - apply executed_upholds. intros d. by apply update_assignments_wf.
  - apply executed_upholds. intros d. by apply update_assignments_wf.
  - apply executed_upholds. intros d. by apply update_assignments_wf.
  - unfold SelectReplicaNodes, getActiveNodes. apply andThen_upholds; [apply asked_upholds |]. intros ns. destruct (filter _ _); [done |]. auto using calculate_upholds with placement.
  - apply executed_upholds. intros d. apply upsert_replica_wf.
  - apply executed_upholds. intros d [H1 H2]. split; cbn; [done |]. rewrite <- list_fmap_compose. erewrite list_fmap_ext; [exact H2 |].
    intros i x _. cbn. by case_decide.
  - apply executed_upholds. intros d [H1 H2]. split; cbn; [done |]. eapply sublist_NoDup; [exact H2 |]. apply fmap_sublist, sublist_filter.
  - unfold SelectNodesForCluster, getActiveNodes. apply andThen_upholds; [apply asked_upholds |]. intros ns. apply upholds_then; [apply eligible_upholds |].
    intros cs. by case_match.
  - unfold SelectReplacementNode, getActiveNodes. apply andThen_upholds; [apply asked_upholds |]. intros ns. apply upholds_then; [apply eligible_upholds |].
    intros cs. by case_match.
Qed.

(** One home per namespace.  Whatever assignments, migrations and
    replications all gateways run at once, with failing, lagging and unacknowledged
    statements, a namespace has at most one home node and a deployment at most one
    replica per node. *)
Theorem placement_tables d0 ops s :
  placement_wf d0 → rtc sys_step (mkSys d0 [] ((λ op, (op, place_prog op)) <$> ops)) s →
  NoDup (a_namespace <$> assignments (current s)) ∧ NoDup ((λ r, (r_deployment r, r_node r)) <$> replicas (current s)).
Proof.
  intros Hwf Hrtc. apply (sys_reachable placement_wf (λ _ _, True)) in Hrtc as [[H1 H2] _]; [done | done |].
  apply Forall_fmap, Forall_true. intros op. apply place_prog_upholds.
Qed.

(** ** Concrete choices *)

Definition three_nodes : placement :=
  mkPlacement [mkNode "n3" "3.3.3.3" None true 1000; mkNode "n1" "1.1.1.1" None true 1000; mkNode "n2" "2.2.2.2" (Some "10.0.0.2"%string) true 1000;
               mkNode "n4" "4.4.4.4" None true 100]
    ["n1"; "n1"; "n2"]%string [] ["n3"]%string [] [].

Lemma three_key : node_key three_nodes.
Proof. apply (bool_decide_unpack _). by vm_compute. Qed.

Lemma three_wf : placement_wf three_nodes.
Proof. split; apply NoDup_nil_2. Qed.

Lemma cluster_nodes_spec_witness :
  ∃ l, run (SelectNodesForCluster 1060 0 2) three_nodes = (Ok l, three_nodes) ∧ (NodeID <$> l) = ["n2"; "n1"]%string ∧ length l = 2%nat.
Proof.
  destruct (cluster_nodes_spec 1060 0 three_nodes 2 three_key) as (l & Hrun & Hlen & _). exists l. split; [exact Hrun |]. split; [| exact Hlen].
  assert (run (SelectNodesForCluster 1060 0 2) three_nodes = (Ok (take 2 (sort_Slice higher (cluster_capacity_of three_nodes <$> select_active 1060 0 three_nodes))), three_nodes)) as E
    by by vm_compute.
  rewrite E in Hrun. injection Hrun as <-. by vm_compute.
Defined.

(** Two nodes other than the primary one are active; one is picked. *)
Lemma replica_nodes_spec_witness :
  ∃ l, run (SelectReplicaNodes 1060 0 "n1" 2) three_nodes = (Ok l, three_nodes) ∧ length l = 1%nat.
Proof.
  destruct (replica_nodes_spec 1060 0 three_nodes "n1" 2 three_key) as (l & Hrun & Hlen & _). exists l. split; [exact Hrun |]. exact Hlen.
Defined.

Lemma three_named n : n ∈ nodes three_nodes → n_id n ≠ EmptyString.
Proof. intros Hn. repeat (apply elem_of_cons in Hn as [-> | Hn]; [done |]). by apply elem_of_nil in Hn. Qed.

Lemma home_node_spec_witness : ∃ id d', run (AssignHomeNode 1060 0 "app") three_nodes = (Ok id, d') ∧ run (AssignHomeNode 9999 0 "app") d' = (Ok id, d').
Proof.
  destruct (home_node_spec 1060 0 three_nodes "app" three_named) as [[E _] | (id & d' & Hrun & _ & _ & Hkeep & _)]; [by vm_compute in E |].
  exists id, d'. split; [exact Hrun | apply Hkeep].
Defined.

Lemma placement_tables_witness :
  ∃ s, rtc sys_step (mkSys three_nodes [] ((λ op, (op, place_prog op)) <$> [OpAssign 1060 0 "app"; OpAssign 1060 0 "app"])) s ∧
    NoDup (a_namespace <$> assignments (current s)).
Proof.
  destruct (sys_overtake (OpAssign 1060 0 "app") (OpAssign 1060 0 "app") (place_prog (OpAssign 1060 0 "app")) (place_prog (OpAssign 1060 0 "app")) 1 three_nodes) as (s & Hr & _).
  exists s. split; [exact Hr |]. apply (placement_tables three_nodes [OpAssign 1060 0 "app"; OpAssign 1060 0 "app"] s three_wf Hr).
Defined.

(** ** What the placement does not do *)

(** Two first requests of a namespace: the answers differ, and the node of the first answer is not
    the home. *)
Lemma homes_differ :
  let busier := mkPlacement (nodes three_nodes) (deployed_on three_nodes ++ replicate 5 "n3"%string) [] [] [] [] in
  let first := advance 14 (place_prog (OpAssign 1060 0 "app")) three_nodes in
  let second := run (place_prog (OpAssign 1061 0 "app")) (mkPlacement (nodes three_nodes) (deployed_on busier) [] [] (assignments first.2) []) in
  let last := run first.1 second.2 in
  ∃ a b, second.1 = RepNode (Ok a) ∧ last.1 = RepNode (Ok b) ∧ a ≠ b ∧ home_of "app" last.2 = Some b.
Proof. vm_compute. by do 2 eexists. Qed.

(** The reading of the home fails once: the namespace moves to another node. *)
Lemma failed_reading_moves :
  let d := (run (MigrateNamespace 1050 "app" "n1") (run (AssignHomeNode 1040 0 "app") three_nodes).2).2 in
  match AssignHomeNode 1060 0 "app" with
  | Query _ k => home_of "app" d = Some "n1"%string ∧ ∃ id, home_of "app" (run (k (Err "timeout"%string)) d).2 = Some id ∧ id ≠ "n1"%string
  | _ => False
  end.
Proof. vm_compute. split; [done |]. by eexists. Qed.

(** A clock that is two minutes ahead of UTC, by its time zone, sees no node. *)
Lemma zone_hides_nodes : (run (AssignHomeNode 1060 120 "app") three_nodes).1 = Err ErrNoNodesAvailable.
Proof. by vm_compute. Qed.

(** Four nodes are free and three replicas asked for: two are picked. *)
Lemma half_of_the_replicas :
  (run (SelectReplicaNodes 1060 0 "home" 3) (mkPlacement ((λ id, mkNode id EmptyString None true 1000) <$> ["a"; "b"; "c"; "d"]%string) [] [] [] [] [])).1
    = Ok ["a"; "b"]%string.
Proof. by vm_compute. Qed.
