(* ===== verification/PersistentWs.v ===== *)
(** * Persistent WebSocket functions ([core/pkg/serverless/persistent],
      [core/pkg/gateway/handlers/serverless/ws_persistent_handler.go])

    One instance of a function serves a connection for its lifetime.  The read
    loop of the connection and the loop of the instance run side by side; they share
    the queue of frames and the invocation context, which carries the
    identity of the caller. *)

From Stdlib Require Import ZArith Lia Ascii String.
From stdpp Require Import base tactics numbers list gmap strings.
From S2P Require Import Prelude GoStrings Jwt ModuleCache FunctionLimits FunctionRegistry Engine.

Local Open Scope Z_scope.
Local Open Scope go_scope.

(** ** Slots ([manager.go]) *)

Definition wrap32 (z : Z) : Z := (z + 2 ^ 31) mod 2 ^ 32 - 2 ^ 31.

Record Manager := mkManager { capacity : Z; activeCount : Z; instances : gmap string nat }.

Definition NewManager (cap : Z) : Manager := mkManager (wrap32 (if cap <=? 0 then 5000 else cap)) 0 ∅.

Definition with_count (n : Z) (m : Manager) : Manager := mkManager (capacity m) (wrap32 n) (instances m).

(** [Acquire] is a load and an addition; alone, both at once. *)
Definition acquire_load (m : Manager) : bool := negb (capacity m <=? activeCount m).
Definition acquire_add (m : Manager) : Manager := with_count (activeCount m + 1) m.
Definition Acquire (m : Manager) : bool * Manager := if acquire_load m then (true, acquire_add m) else (false, m).

Definition release_load (m : Manager) : bool := 0 <? activeCount m.
Definition release_add (m : Manager) : Manager := with_count (activeCount m - 1) m.
Definition Release (m : Manager) : Manager := if release_load m then release_add m else m.

Definition Register (clientID : string) (inst : nat) (m : Manager) : Manager := mkManager (capacity m) (activeCount m) (<[clientID := inst]> (instances m)).
Definition Unregister (clientID : string) (m : Manager) : Manager := mkManager (capacity m) (activeCount m) (delete clientID (instances m)).
Definition Lookup (clientID : string) (m : Manager) : option nat := instances m !! clientID.
Definition ActiveCount (m : Manager) : Z := activeCount m.

(** The time each instance gets at shutdown. *)
Definition shutdown_budget (total : time) (n : nat) : time := Z.max (100 * Millisecond) (Z.quot total (Z.of_nat n)).

(** ** An instance ([instance.go]) *)

Record Instance := mkInstance {
  clientID : string; functionName : string; namespace : string; invCtx : InvocationContext; inbound : list string; queue_cap : nat;
  frameTimeout : time; closed : bool; chan_closed : bool; module_closed : bool
}.

Record Config := mkInstConfig {
  cfg_ClientID : string; cfg_FunctionName : string; cfg_Namespace : string; FrameTimeoutSec : Z; MaxInflightFrames : Z;
  cfg_InvocationContext : option InvocationContext
}.

(** What the module exports. *)
Record exports := mkExports { has_ws_open : bool; has_ws_frame : bool; has_ws_close : bool; has_alloc : bool; has_malloc : bool; has_memory : bool }.

Definition NewInstance (x : exports) (cfg : Config) : result string Instance :=
  match cfg_InvocationContext cfg with
  | None => Err "persistent: Config.InvocationContext is required"
  | Some ctx =>
      if negb (has_ws_open x) then Err "persistent: module missing ws_open export"
      else if negb (has_ws_frame x) then Err "persistent: module missing ws_frame export"
      else if negb (has_ws_close x) then Err "persistent: module missing ws_close export"
      else if negb (has_alloc x || has_malloc x) then Err "persistent: module missing orama_alloc/malloc export"
      else if negb (has_memory x) then Err "persistent: module exports no memory"
      else
        let timeout := wrap64 (FrameTimeoutSec cfg * Second) in
        Ok (mkInstance (cfg_ClientID cfg) (cfg_FunctionName cfg) (cfg_Namespace cfg) ctx []
              (Z.to_nat (if MaxInflightFrames cfg <=? 0 then 64 else MaxInflightFrames cfg))
              (if timeout <=? 0 then 30 * Second else timeout) false false false)
  end.

Definition UpdateInvocationContext (new : option InvocationContext) (i : Instance) : result string Instance :=
  match new with
  | None => Err "persistent: UpdateInvocationContext: nil invCtx"
  | Some ctx => Ok (mkInstance (clientID i) (functionName i) (namespace i) ctx (inbound i) (queue_cap i) (frameTimeout i) (closed i) (chan_closed i) (module_closed i))
  end.

Definition with_inbound (q : list string) (i : Instance) : Instance :=
  mkInstance (clientID i) (functionName i) (namespace i) (invCtx i) q (queue_cap i) (frameTimeout i) (closed i) (chan_closed i) (module_closed i).

(** The send of [Submit]; a send on a closed channel panics. *)
Inductive send_result := Sent (i : Instance) | QueueFull | Panic.

Definition submit_send (frame : string) (i : Instance) : send_result :=
  if chan_closed i then Panic
  else if (length (inbound i) <? queue_cap i)%nat then Sent (with_inbound (inbound i ++ [frame]) i)
  else QueueFull.

Definition Submit (frame : string) (i : Instance) : result string Instance :=
  if closed i then Err "persistent.Submit: instance closed"
  else match submit_send frame i with
       | Sent i' => Ok i'
       | QueueFull => Err "persistent.Submit: inbound queue full"
       | Panic => Err "panic"
       end.

(** [Close] sets the flag, starts to drain the queue and calls [ws_close]; then it
    closes the channel and the module.  Only the first call does anything. *)
Definition close_flag (i : Instance) : Instance :=
  mkInstance (clientID i) (functionName i) (namespace i) (invCtx i) (inbound i) (queue_cap i) (frameTimeout i) true (chan_closed i) (module_closed i).
Definition close_channel (i : Instance) : Instance :=
  mkInstance (clientID i) (functionName i) (namespace i) (invCtx i) (inbound i) (queue_cap i) (frameTimeout i) (closed i) true true.
Definition Close (i : Instance) : Instance := if closed i then i else close_channel (with_inbound [] (close_flag i)).

(** ** A connection ([ws_persistent_handler.go]) *)

Definition wsJWTExpiryGrace : duration := 120 * Second.

(** [expUnix] in seconds, [now] since the Unix epoch. *)
Definition wsJWTExpired (expUnix : Z) (now : time) (grace : duration) : bool := if expUnix <=? 0 then false else expUnix * Second + grace <? now.

Record oramaControlFrame := mkControl { ctrl_Type : string; ctrl_JWT : string }.
Record oramaControlAck := mkAck { ack_Type : string; ack_OK : bool; ack_Error : string; ack_Subject : string }.

Definition validateRefreshClaims (claims : JWTClaims) (wsNamespace : string) : string :=
  if String.eqb (Jwt.Namespace claims) EmptyString then "jwt missing namespace claim"
  else if negb (String.eqb (Jwt.Namespace claims) wsNamespace) then "jwt namespace does not match websocket namespace"
  else if String.eqb (Sub claims) EmptyString then "jwt missing subject claim"
  else EmptyString.

(** [bytes.Contains] of the quoted key. *)
Definition oramaControlFramePrefix : string := String "034" ("__orama" +:+ String "034" EmptyString).

Definition buildPersistentInvocationContext (wallet ip : string) (claims : gmap string string) (subject : string) (fn : Function) (client : string) : InvocationContext :=
  mkInvocationContext EmptyString (ID fn) (Name fn) (Namespace fn) wallet ip TriggerTypeWebSocket client ∅ claims subject 0.

Section Connection.
(** [unmarshal]: the JSON of a control frame; [verify]: the verifier of the
    gateway, if it has one. *)
Context (unmarshal : string → option oramaControlFrame) (verify : option (time → string → result string JWTClaims)).
Context (fn : Function) (client : string).

(** The connection as its read loop sees it. *)
Record session := mkSession { inst : Instance; expUnix : Z; acks : list oramaControlAck }.

Definition ack (a : oramaControlAck) (s : session) : session := mkSession (inst s) (expUnix s) (acks s ++ [a]).
Definition refused (reason : string) (s : session) : session := ack (mkAck "auth.refresh" false reason EmptyString) s.

Definition refreshed_context (claims : JWTClaims) : InvocationContext :=
  mkInvocationContext EmptyString (ID fn) (Name fn) (Namespace fn) (Sub claims) EmptyString TriggerTypeWebSocket client ∅ (Custom claims) (Sub claims) 0.

Definition handleAuthRefresh (now : time) (ctrl : oramaControlFrame) (s : session) : session :=
  match verify with
  | None => refused "mid-session auth refresh not supported on this gateway" s
  | Some check =>
      if String.eqb (ctrl_JWT ctrl) EmptyString then refused "jwt field required" s
      else
        match check now (ctrl_JWT ctrl) with
        | Err e => refused ("invalid or expired jwt: " +:+ e) s
        | Ok claims =>
            let reason := validateRefreshClaims claims (Namespace fn) in
            if negb (String.eqb reason EmptyString) then refused reason s
            else
              match UpdateInvocationContext (Some (refreshed_context claims)) (inst s) with
              | Err _ => refused "internal: failed to apply refresh" s
              | Ok i => ack (mkAck "auth.refresh" true EmptyString (Sub claims)) (mkSession i (Exp claims) (acks s))
              end
        end
  end.

(** The control frame of a message, if it is one. *)
Definition control_of (frame : string) : option oramaControlFrame :=
  if Contains frame oramaControlFramePrefix then
    match unmarshal frame with
    | Some ctrl => if String.eqb (ctrl_Type ctrl) EmptyString then None else Some ctrl
    | None => None
    end
  else None.

Definition handleOramaControlFrame (now : time) (ctrl : oramaControlFrame) (s : session) : session :=
  if String.eqb (ctrl_Type ctrl) "auth.refresh" then handleAuthRefresh now ctrl s
  else ack (mkAck (ctrl_Type ctrl) false "unknown __orama control type" EmptyString) s.

(** What the read loop does after a message: read the next one, hang up with a
    code, or send the frame to the instance, which was not closed when the
    loop looked. *)
Inductive next := Handled | HangUp (code : Z) | Sending.

Definition wsCloseJWTExpired : Z := 4401.

Definition read_message (now : time) (frame : string) (s : session) : session * next :=
  match control_of frame with
  | Some ctrl => (handleOramaControlFrame now ctrl s, Handled)
  | None =>
      if wsJWTExpired (expUnix s) now wsJWTExpiryGrace then (s, HangUp wsCloseJWTExpired)
      else if closed (inst s) then (s, HangUp 1009) else (s, Sending)
  end.

(** Both halves of [Submit] at once. *)
Lemma read_message_Submit now frame s :
  control_of frame = None → wsJWTExpired (expUnix s) now wsJWTExpiryGrace = false →
  Submit frame (inst s) = match (read_message now frame s).2, submit_send frame (inst s) with
                          | Sending, Sent i => Ok i
                          | Sending, QueueFull => Err "persistent.Submit: inbound queue full"%string
                          | Sending, Panic => Err "panic"%string
                          | _, _ => Err "persistent.Submit: instance closed"%string
                          end.
Proof. intros Hc He. unfold Submit, read_message. rewrite Hc, He. by destruct (closed (inst s)), (submit_send frame (inst s)). Qed.

(** ** Both loops

    [sending]: the frame the read loop is about to send; [taken]: the frame the
    loop of the instance has received and not yet called [ws_frame] with.  The
    rest is the history of the connection: [identities]: the identity of the
    upgrade and the one in force after each control frame, with its expiry;
    [delivered]: the frames [ws_frame] was called with, the context of each call
    and its number among the identities; [accepted]: the frames that were queued,
    the time they were read, the expiry that held and its number. *)
Record connection := mkConnection {
  sess : session; reading : bool; sending : option (time * string); running : bool; taken : option string;
  delivered : list (string * (InvocationContext * nat)); accepted : list (time * string * (Z * nat)); identities : list (InvocationContext * Z)
}.

Definition goes_on (n : next) : bool := match n with HangUp _ => false | _ => true end.
Definition to_send (now : time) (frame : string) (n : next) : option (time * string) := match n with Sending => Some (now, frame) | _ => None end.

(** The number of the identity in force. *)
Definition in_force (c : connection) : nat := pred (length (identities c)).

Definition after_read (now : time) (frame : string) (c : connection) : connection :=
  let '(s', n) := read_message now frame (sess c) in
  mkConnection s' (goes_on n) (to_send now frame n) (running c) (taken c) (delivered c) (accepted c)
    (match control_of frame with Some _ => identities c ++ [(invCtx (inst s'), expUnix s')] | None => identities c end).

Definition after_send (now : time) (frame : string) (c : connection) : connection :=
  match submit_send frame (inst (sess c)) with
  | Sent i => mkConnection (mkSession i (expUnix (sess c)) (acks (sess c))) (reading c) None (running c) (taken c) (delivered c)
                (accepted c ++ [(now, frame, (expUnix (sess c), in_force c))]) (identities c)
  | QueueFull | Panic => mkConnection (sess c) false None (running c) (taken c) (delivered c) (accepted c) (identities c)
  end.

Definition with_inst (i : Instance) (c : connection) : connection :=
  mkConnection (mkSession i (expUnix (sess c)) (acks (sess c))) (reading c) (sending c) (running c) (taken c) (delivered c) (accepted c) (identities c).

Inductive ws_step : connection → connection → Prop :=
| step_read now frame c : reading c = true → sending c = None → ws_step c (after_read now frame c)
| step_send now frame c : sending c = Some (now, frame) → ws_step c (after_send now frame c)
| step_hangup c : sending c = None → ws_step c (mkConnection (sess c) false None (running c) (taken c) (delivered c) (accepted c) (identities c))
| step_take frame rest c :
    running c = true → taken c = None → inbound (inst (sess c)) = frame :: rest →
    ws_step c (mkConnection (mkSession (with_inbound rest (inst (sess c))) (expUnix (sess c)) (acks (sess c))) (reading c) (sending c) true (Some frame)
                 (delivered c) (accepted c) (identities c))
| step_call frame stop c :
    taken c = Some frame → module_closed (inst (sess c)) = false →
    ws_step c (mkConnection (sess c) (reading c) (sending c) (negb stop) None (delivered c ++ [(frame, (invCtx (inst (sess c)), in_force c))]) (accepted c) (identities c))
| step_trap frame c : taken c = Some frame → ws_step c (mkConnection (sess c) (reading c) (sending c) false None (delivered c) (accepted c) (identities c))
| step_cancel c : taken c = None → ws_step c (mkConnection (sess c) (reading c) (sending c) false None (delivered c) (accepted c) (identities c))
| step_close c : closed (inst (sess c)) = false → ws_step c (with_inst (close_flag (inst (sess c))) c)
| step_drain frame rest c : closed (inst (sess c)) = true → inbound (inst (sess c)) = frame :: rest → ws_step c (with_inst (with_inbound rest (inst (sess c))) c)
| step_shut c : closed (inst (sess c)) = true → ws_step c (with_inst (close_channel (inst (sess c))) c).

(** The identity a socket may run with: that of the upgrade, or that of a
    verified token for its namespace, and the expiry of the same. *)
Definition admissible (ctx0 : InvocationContext) (exp0 : Z) (ctx : InvocationContext) (exp : Z) : Prop :=
  (ctx = ctx0 ∧ exp = exp0) ∨
  ∃ check now token claims, verify = Some check ∧ check now token = Ok claims ∧ Jwt.Namespace claims = Namespace fn ∧ Sub claims ≠ EmptyString ∧
    ctx = refreshed_context claims ∧ exp = Exp claims.

(** The frames the instance was given and has not lost, with the moments they
    were queued: each was called in the identity that held then or a later one. *)
Definition matched (c : connection) (q : list (time * string * (Z * nat))) : Prop :=
  q `sublist_of` accepted c ∧ q.*1.*2 = (delivered c).*1 ++ option_list (taken c) ++ inbound (inst (sess c)) ∧
  ∀ i f ctx h, delivered c !! i = Some (f, (ctx, h)) → ∃ t e h0, q !! i = Some (t, f, (e, h0)) ∧ (h0 ≤ h)%nat.

Record ws_inv (ctx0 : InvocationContext) (exp0 : Z) (c : connection) : Prop := {
  inv_current : identities c !! in_force c = Some (invCtx (inst (sess c)), expUnix (sess c));
  inv_identities : ∀ h ctx e, identities c !! h = Some (ctx, e) → admissible ctx0 exp0 ctx e;
  inv_delivered : ∀ f ctx h, (f, (ctx, h)) ∈ delivered c → ∃ e, identities c !! h = Some (ctx, e);
  inv_accepted : ∀ t f e h, (t, f, (e, h)) ∈ accepted c →
    control_of f = None ∧ wsJWTExpired e t wsJWTExpiryGrace = false ∧ ∃ ctx, identities c !! h = Some (ctx, e);
  inv_sending : ∀ t f, sending c = Some (t, f) → control_of f = None ∧ wsJWTExpired (expUnix (sess c)) t wsJWTExpiryGrace = false;
  inv_matched : ∃ q, matched c q;
  inv_order : closed (inst (sess c)) = false → running c = true → (accepted c).*1.*2 = (delivered c).*1 ++ option_list (taken c) ++ inbound (inst (sess c));
  inv_running : taken c ≠ None → running c = true;
  inv_bound : (length (inbound (inst (sess c))) ≤ queue_cap (inst (sess c)))%nat
}.

Lemma refresh_spec now ctrl s :
  let s' := handleAuthRefresh now ctrl s in
  inbound (inst s') = inbound (inst s) ∧ closed (inst s') = closed (inst s) ∧ queue_cap (inst s') = queue_cap (inst s) ∧
  ((invCtx (inst s') = invCtx (inst s) ∧ expUnix s' = expUnix s) ∨
   ∃ check claims, verify = Some check ∧ check now (ctrl_JWT ctrl) = Ok claims ∧ Jwt.Namespace claims = Namespace fn ∧ Sub claims ≠ EmptyString ∧
     invCtx (inst s') = refreshed_context claims ∧ expUnix s' = Exp claims).
Proof.
  unfold handleAuthRefresh. destruct verify as [check |] eqn:Hv; [| cbn; auto 10]. destruct (String.eqb (ctrl_JWT ctrl) EmptyString); [cbn; auto 10 |].
  destruct (check now (ctrl_JWT ctrl)) as [claims | e] eqn:Hc; [| cbn; auto 10]. unfold validateRefreshClaims.
  destruct (String.eqb_spec (Jwt.Namespace claims) EmptyString); [cbn; auto 10 |].
  destruct (String.eqb_spec (Jwt.Namespace claims) (Namespace fn)) as [Hns |]; [| cbn; auto 10].
  destruct (String.eqb_spec (Sub claims) EmptyString); [cbn; auto 10 |]. cbn. repeat (split; [done |]). right. by exists check, claims.
Qed.

Lemma control_spec now ctrl s :
  let s' := handleOramaControlFrame now ctrl s in
  inbound (inst s') = inbound (inst s) ∧ closed (inst s') = closed (inst s) ∧ queue_cap (inst s') = queue_cap (inst s) ∧
  ((invCtx (inst s') = invCtx (inst s) ∧ expUnix s' = expUnix s) ∨
   ∃ check claims, verify = Some check ∧ check now (ctrl_JWT ctrl) = Ok claims ∧ Jwt.Namespace claims = Namespace fn ∧ Sub claims ≠ EmptyString ∧
     invCtx (inst s') = refreshed_context claims ∧ expUnix s' = Exp claims).
Proof. unfold handleOramaControlFrame. destruct (String.eqb (ctrl_Type ctrl) "auth.refresh"); [apply refresh_spec | cbn; auto 10]. Qed.

Lemma submit_send_spec frame i i' :
  submit_send frame i = Sent i' → inbound i' = inbound i ++ [frame] ∧ closed i' = closed i ∧ invCtx i' = invCtx i ∧ queue_cap i' = queue_cap i ∧
  (length (inbound i') ≤ queue_cap i')%nat.
Proof.
  unfold submit_send. destruct (chan_closed i); [done |]. destruct (Nat.ltb_spec (length (inbound i)) (queue_cap i)); [| done].
  intros [= <-]. cbn. rewrite length_app. cbn. repeat split; [done.. | lia].
Qed.

(** A frame that leaves the queue without a call, behind those that were called. *)
Lemma matched_drop c q pre frame rest :
  matched c q → option_list (taken c) ++ inbound (inst (sess c)) = pre ++ frame :: rest →
  ∃ q', q' `sublist_of` accepted c ∧ q'.*1.*2 = (delivered c).*1 ++ pre ++ rest ∧
    ∀ i f ctx h, delivered c !! i = Some (f, (ctx, h)) → ∃ t e h0, q' !! i = Some (t, f, (e, h0)) ∧ (h0 ≤ h)%nat.
Proof.
  intros (Hs & Hq & Hi) E. rewrite E in Hq. rewrite app_assoc in Hq. rewrite <- list_fmap_compose in Hq.
  apply fmap_app_inv in Hq as (q1 & q2 & E1 & E2 & ->). destruct q2 as [| x q2]; [done |]. injection E2 as _ E2.
  exists (q1 ++ q2). split; [etrans; [| exact Hs]; apply sublist_app; [done | by apply sublist_cons] |].
  split; [by rewrite app_assoc, E1, E2, <- list_fmap_compose, fmap_app |].
  intros i f ctx h Hd. destruct (Hi i f ctx h Hd) as (t & e & h0 & Hl & Hle). exists t, e, h0. split; [| done].
  assert (i < length q1)%nat; [| by rewrite lookup_app_l in Hl |- *].
  apply lookup_lt_Some in Hd. apply (f_equal length) in E1. rewrite length_app, !length_fmap in E1. lia.
Qed.

Lemma ws_inv_read ctx0 exp0 now frame c : sending c = None → ws_inv ctx0 exp0 c → ws_inv ctx0 exp0 (after_read now frame c).
Proof.
  intros Hsend [H1 H2 H3 H4 H5 H6 H7 H8 H9]. unfold after_read, read_message. destruct (control_of frame) as [ctrl |] eqn:Hctrl.
  - destruct (control_spec now ctrl (sess c)) as (E1 & E2 & E3 & E4). set (s' := handleOramaControlFrame now ctrl (sess c)) in *.
    assert (admissible ctx0 exp0 (invCtx (inst s')) (expUnix s')) as Had.
    { destruct E4 as [[-> ->] | (check & claims & V1 & V2 & V3 & V4 & -> & ->)]; [by eapply H2 |]. right. by exists check, now, (ctrl_JWT ctrl), claims. }
    split; cbn [sess delivered accepted running taken sending to_send identities]; unfold matched; cbn [sess delivered accepted taken]; rewrite ?E1, ?E2, ?E3; [| | | | done..].
    + unfold in_force. cbn [identities]. rewrite length_app. cbn [length]. rewrite Nat.add_1_r. by apply list_lookup_middle.
    + intros h ctx e [Hh | [_ Hh]]%lookup_app_Some; [by eapply H2 |]. apply list_lookup_singleton_Some in Hh as [_ [= <- <-]]. done.
    + intros f ctx h Hin. destruct (H3 f ctx h Hin) as [e He]. exists e. by apply lookup_app_l_Some.
    + intros t f e h Hin. destruct (H4 t f e h Hin) as (? & ? & ctx & He). split; [done |]. split; [done |]. exists ctx. by apply lookup_app_l_Some.
  - destruct (wsJWTExpired (expUnix (sess c)) now wsJWTExpiryGrace) eqn:Hexp; [by split |]. destruct (closed (inst (sess c))) eqn:Hcl; [by split; cbn; rewrite ?Hcl |].
    split; cbn; rewrite ?Hcl; [done | done | done | done | by intros t f [= <- <-] | done..].
Qed.

Lemma ws_inv_send ctx0 exp0 now frame c : sending c = Some (now, frame) → ws_inv ctx0 exp0 c → ws_inv ctx0 exp0 (after_send now frame c).
Proof.
  intros Hs [H1 H2 H3 H4 H5 H6 H7 H8 H9]. destruct (H5 now frame Hs) as [Hctrl Hexp]. unfold after_send.
  destruct (submit_send frame (inst (sess c))) as [i | |] eqn:Hsub; [| by split | by split].
  destruct (submit_send_spec _ _ _ Hsub) as (E1 & E2 & E3 & E4 & E5).
  split; cbn; rewrite ?E1, ?E2, ?E3, ?fmap_app; cbn; [done | done | done | | done | | | done | by rewrite <- E1].
  - intros t f e h [Hin | [= -> -> -> ->]%list_elem_of_singleton]%elem_of_app; [by apply H4 |]. split; [done |]. split; [done |]. by exists (invCtx (inst (sess c))).
  - destruct H6 as (q & Hq1 & Hq2 & Hq3). exists (q ++ [(now, frame, (expUnix (sess c), in_force c))]). split; [by apply sublist_app |]. cbn. rewrite E1.
    split; [rewrite !fmap_app, Hq2; cbn; by rewrite <- !app_assoc |]. intros j f ctx h Hd. destruct (Hq3 j f ctx h Hd) as (t & e & h0 & Hl & Hle).
    exists t, e, h0. split; [by apply lookup_app_l_Some | done].
  - intros Hc Hr. rewrite (H7 Hc Hr). by rewrite <- !app_assoc.
Qed.

(** A frame is called in the identity in force, which no earlier one exceeds. *)
Lemma ws_inv_call ctx0 exp0 frame stop c :
  taken c = Some frame → ws_inv ctx0 exp0 c →
  ws_inv ctx0 exp0 (mkConnection (sess c) (reading c) (sending c) (negb stop) None (delivered c ++ [(frame, (invCtx (inst (sess c)), in_force c))]) (accepted c) (identities c)).
Proof.
  intros Ht [H1 H2 H3 H4 H5 H6 H7 H8 H9]. rewrite Ht in *. cbn in *. split; cbn in *; rewrite ?fmap_app; cbn; [done | done | | done | done | | | done | done].
  - intros f ctx h [Hin | [= -> -> ->]%list_elem_of_singleton]%elem_of_app; [by eapply H3 | by eexists].
  - destruct H6 as (q & Hq1 & Hq2 & Hq3). rewrite Ht in Hq2. cbn in Hq2. exists q. split; [done |]. cbn. split; [by rewrite fmap_app, <- app_assoc |].
    intros j f ctx h [Hd | [Hj Hd]]%lookup_app_Some; [by eapply Hq3 |]. apply list_lookup_singleton_Some in Hd as [Hj' [= <- <- <-]].
    assert (q.*1.*2 !! j = Some frame) as Hf.
    { rewrite Hq2, lookup_app_r by (rewrite length_fmap; lia). rewrite length_fmap, Hj'. done. }
    rewrite <- list_fmap_compose in Hf. apply list_lookup_fmap_Some in Hf as ([[t f] [e h]] & Hf & Hl). cbn in Hf. subst f. exists t, e, h. split; [done |].
    apply list_elem_of_lookup_2 in Hl. destruct (H4 t frame e h) as (_ & _ & ctx & Hh); [eapply elem_of_submseteq; [exact Hl | by apply sublist_submseteq] |].
    apply lookup_lt_Some in Hh. unfold in_force. lia.
  - intros Hc _. rewrite <- app_assoc. apply H7; [done | by apply H8].
Qed.

Lemma ws_inv_step ctx0 exp0 c c' : ws_inv ctx0 exp0 c → ws_step c c' → ws_inv ctx0 exp0 c'.
Proof.
  intros Hinv Hs. destruct Hs as [now frame c Hr Hn | now frame c Hn | c Hn | frame rest c Hr Ht Hq | frame stop c Ht Hm | frame c Ht | c Ht | c Hc | frame rest c Hc Hq | c Hc].
  1: by apply ws_inv_read. 1: by apply ws_inv_send. 3: by apply ws_inv_call.
  all: destruct Hinv as [H1 H2 H3 H4 H5 [q Hm] H7 H8 H9].
  - split; [done.. | by exists q | done | done | done].
  - split; cbn; [done.. | | by intros Hc _; rewrite H7, Ht, Hq by done | done | rewrite Hq in H9; cbn in H9; lia].
    exists q. unfold matched in *. cbn. by rewrite Ht, Hq in Hm.
  - split; cbn; [done.. | | done | done | done].
    destruct (matched_drop c q [] frame (inbound (inst (sess c)))) as [q' Hq']; [done | by rewrite Ht |]. by exists q'.
  - split; cbn; [done.. | | done | done | done]. exists q. unfold matched in *. by rewrite Ht in Hm.
  - split; cbn; [done.. | by exists q | done | done | done].
  - split; cbn; [done.. | | by rewrite Hc | done | rewrite Hq in H9; cbn in H9; lia].
    destruct (matched_drop c q (option_list (taken c)) frame rest) as [q' Hq']; [done | by rewrite Hq |]. by exists q'.
  - split; cbn; [done.. | by exists q | by rewrite Hc | done | done].
Qed.

Lemma queue_cap_step c c' : ws_step c c' → queue_cap (inst (sess c')) = queue_cap (inst (sess c)).
Proof.
  intros Hs. destruct Hs as [now frame c Hr Hn | now frame c Hn | | | | | | | |]; try done.
  - unfold after_read, read_message. destruct (control_of frame) as [ctrl |]; [by apply control_spec |]. destruct (wsJWTExpired _ _ _); [done |]. by destruct (closed _).
  - unfold after_send. destruct (submit_send frame (inst (sess c))) as [i | |] eqn:Hsub; [| done | done]. cbn. by apply submit_send_spec in Hsub as (_ & _ & _ & ? & _).
Qed.

(** A fresh connection. *)
Definition connected (ctx0 : InvocationContext) (exp0 : Z) (cap : nat) (timeout : time) : connection :=
  mkConnection (mkSession (mkInstance client (Name fn) (Namespace fn) ctx0 [] cap timeout false false false) exp0 []) true None true None [] [] [(ctx0, exp0)].

Lemma connected_inv ctx0 exp0 cap timeout c :
  rtc ws_step (connected ctx0 exp0 cap timeout) c → ws_inv ctx0 exp0 c ∧ queue_cap (inst (sess c)) = cap.
Proof.
  intros Hr. eapply (invariant_rtc ws_step (λ c, ws_inv ctx0 exp0 c ∧ queue_cap (inst (sess c)) = cap)); [| exact Hr |].
  - intros c1 c2 [Hi <-] Hs. split; [by eapply ws_inv_step | by apply queue_cap_step].
  - split; [| done]. split; cbn; [done | | by intros ??? ?%elem_of_nil | by intros ???? ?%elem_of_nil | done | by exists [] | done | done | lia].
    intros h ctx e [_ [= <- <-]]%list_lookup_singleton_Some. by left.
Qed.

(** C7: the identity of a socket.  However messages, refreshes, the processing
    of frames and the closing of the instance interleave.  The identities of the
    socket are that of the upgrade and those of tokens the gateway verified for
    the socket's own namespace, each with its expiry.  A frame is queued only
    when it is no control frame and the expiry in force is none (zero or less) or
    not passed for more than 120 seconds.  Every frame the function sees was
    queued, in this order, and runs with the identity in force when it is
    called: the one under which it was queued or, if the socket was refreshed in
    between, a later one; always as this function, namespace and client.  As
    long as the instance runs and is not closed no frame is left out, and no more than the
    queue holds wait. *)
Theorem session_identity ctx0 exp0 cap timeout c :
  Engine.inv_Namespace ctx0 = Namespace fn → WSClientID ctx0 = client → FunctionID ctx0 = ID fn →
  rtc ws_step (connected ctx0 exp0 cap timeout) c →
  (∀ h ctx e, identities c !! h = Some (ctx, e) →
     inv_Namespace ctx = Namespace fn ∧ WSClientID ctx = client ∧ FunctionID ctx = ID fn ∧
     (ctx = ctx0 ∧ e = exp0 ∨
      ∃ check now token claims, verify = Some check ∧ check now token = Ok claims ∧ Jwt.Namespace claims = Namespace fn ∧
        CallerJWTSubject ctx = Sub claims ∧ CallerWallet ctx = Sub claims ∧ Sub claims ≠ EmptyString ∧ e = Exp claims)) ∧
  (∀ t f e h, (t, f, (e, h)) ∈ accepted c → control_of f = None ∧ (e ≤ 0 ∨ t ≤ e * Second + 120 * Second) ∧ ∃ ctx, identities c !! h = Some (ctx, e)) ∧
  (∃ q, q `sublist_of` accepted c ∧ q.*1.*2 = (delivered c).*1 ++ option_list (taken c) ++ inbound (inst (sess c)) ∧
     ∀ i f ctx h, delivered c !! i = Some (f, (ctx, h)) →
       (∃ t e h0, q !! i = Some (t, f, (e, h0)) ∧ (h0 ≤ h)%nat) ∧ ∃ e, identities c !! h = Some (ctx, e)) ∧
  (closed (inst (sess c)) = false → running c = true → (accepted c).*1.*2 = (delivered c).*1 ++ option_list (taken c) ++ inbound (inst (sess c))) ∧
  (length (inbound (inst (sess c))) ≤ cap)%nat.
Proof.
  intros Hns Hcl Hid Hr. destruct (connected_inv _ _ _ _ _ Hr) as [[H1 H2 H3 H4 H5 (q & Hq1 & Hq2 & Hq3) H7 H8 H9] Hcap].
  split; [| split; [| split; [| split; [done | by rewrite <- Hcap]]]].
  - intros h ctx e Hh. destruct (H2 h ctx e Hh) as [[-> ->] | (check & t & token & claims & V1 & V2 & V3 & V4 & -> & ->)].
    + repeat (split; [done |]). by left.
    + repeat (split; [done |]). right. by exists check, t, token, claims.
  - intros t f e h Hin. destruct (H4 t f e h Hin) as (Hc & Hexp & Hh). split; [done |]. split; [| done].
    unfold wsJWTExpired in Hexp. destruct (Z.leb_spec e 0); [by left |]. right. apply Z.ltb_ge in Hexp. done.
  - exists q. split; [done |]. split; [done |]. intros i f ctx h Hd. split; [by eapply Hq3 |]. eapply H3. by eapply list_elem_of_lookup_2.
Qed.

End Connection.

Definition ws_function : Function := mkFunction "id1" "chat" "app" 1 "cid1" EmptyString plain_settings FunctionStatusActive 7 7 "app".
Definition no_control (_ : string) : option oramaControlFrame := None.
(** A verifier that takes the token for the subject. *)
Definition trusting (_ : time) (token : string) : result string JWTClaims := Ok (mkClaims EmptyString token EmptyString 0 0 900 "app" ∅).
Definition refresh_ben (frame : string) : option oramaControlFrame := if Contains frame oramaControlFramePrefix then Some (mkControl "auth.refresh" "ben") else None.
Definition anna_ctx : InvocationContext := buildPersistentInvocationContext "anna" "1.2.3.4" ∅ "anna" ws_function "c1".

(** A frame of Anna waits while the socket is refreshed to Ben; it runs as Ben, and
    without the address of the client. *)
Definition refresh_frame : string := "{" +:+ oramaControlFramePrefix +:+ "}".
Definition at_start : connection := connected ws_function "c1" anna_ctx 500 4 Second.
Definition anna_read : connection := after_read refresh_ben (Some trusting) ws_function "c1" 1 "hello" at_start.
Definition anna_queued : connection := after_send 1 "hello" anna_read.
Definition ben_socket : connection := after_read refresh_ben (Some trusting) ws_function "c1" 2 refresh_frame anna_queued.
Definition hello_taken : connection :=
  mkConnection (mkSession (with_inbound [] (inst (sess ben_socket))) (expUnix (sess ben_socket)) (acks (sess ben_socket))) true None true (Some "hello"%string) []
    (accepted ben_socket) (identities ben_socket).
Definition swapped : connection :=
  mkConnection (sess hello_taken) true None true None [("hello"%string, (invCtx (inst (sess hello_taken)), in_force hello_taken))] (accepted ben_socket) (identities ben_socket).

Lemma swapped_reachable : rtc (ws_step refresh_ben (Some trusting) ws_function "c1") at_start swapped.
Proof.
  apply (rtc_l _ _ anna_read); [by apply (step_read refresh_ben (Some trusting) ws_function "c1" 1 "hello" at_start) |].
  apply (rtc_l _ _ anna_queued); [by apply (step_send refresh_ben (Some trusting) ws_function "c1" 1 "hello" anna_read) |].
  apply (rtc_l _ _ ben_socket); [by apply (step_read refresh_ben (Some trusting) ws_function "c1" 2 refresh_frame anna_queued) |].
  apply (rtc_l _ _ hello_taken); [by apply (step_take refresh_ben (Some trusting) ws_function "c1" "hello" [] ben_socket) |].
  apply rtc_once. by apply (step_call refresh_ben (Some trusting) ws_function "c1" "hello" false hello_taken).
Qed.

(** The frame was queued in the first identity and called in the second. *)
Lemma session_identity_witness :
  (∃ ctx, delivered swapped = [("hello"%string, (ctx, 1%nat))] ∧ accepted swapped = [(1, "hello"%string, (500, 0%nat))] ∧
     CallerJWTSubject ctx = "ben"%string ∧ inv_Namespace ctx = "app"%string) ∧
  (length (inbound (inst (sess swapped))) ≤ 4)%nat.
Proof.
  destruct (session_identity refresh_ben (Some trusting) ws_function "c1" anna_ctx 500 4 Second swapped) as (Hd & _ & _ & _ & Hlen);
    [reflexivity | reflexivity | reflexivity | apply swapped_reachable |].
  split; [| exact Hlen]. eexists. split; [reflexivity |]. split; [reflexivity |]. split; [reflexivity |].
  apply (Hd 1%nat (refreshed_context ws_function "c1" (mkClaims EmptyString "ben" EmptyString 0 0 900 "app" ∅)) 900). reflexivity.
Defined.

(** *** What a socket does not do *)

(** The frame was sent as Anna and runs as Ben; the refreshed context has no
    address. *)
Lemma queued_frame_swapped :
  invCtx (inst (sess at_start)) = anna_ctx ∧ CallerWallet anna_ctx = "anna"%string ∧ CallerIP anna_ctx = "1.2.3.4"%string ∧
  ∃ ctx, (delivered swapped).*2.*1 = [ctx] ∧ CallerWallet ctx = "ben"%string ∧ CallerIP ctx = EmptyString.
Proof. repeat (split; [reflexivity |]). eexists. by repeat split. Qed.

(** A frame is submitted while the gateway shuts down: the flag is still clear
    when it is read, the channel is closed when the frame is sent. *)
Lemma submit_panics :
  ∃ c, rtc (ws_step refresh_ben (Some trusting) ws_function "c1") at_start c ∧ sending c = Some (1, "hello"%string) ∧ submit_send "hello" (inst (sess c)) = Panic.
Proof.
  exists (with_inst (close_channel (close_flag (inst (sess anna_read)))) (with_inst (close_flag (inst (sess anna_read))) anna_read)).
  split; [| by split].
  apply (rtc_l _ _ anna_read); [by apply (step_read refresh_ben (Some trusting) ws_function "c1" 1 "hello" at_start) |].
  apply (rtc_l _ _ (with_inst (close_flag (inst (sess anna_read))) anna_read)); [by apply step_close |].
  apply rtc_once. by apply step_shut.
Qed.

(** ** Slots of all connections

    A connection is between the load and the addition of its [Acquire], or
    holds a slot, or is between the load and the addition of its [Release]. *)
Record slots := mkSlots { mgr : Manager; checking : nat; holding : nat; leaving : nat }.

Section Slots.
(** At most [k] connections are between the load and the addition. *)
Context (k : nat).

Inductive slot_step : slots → slots → Prop :=
| slot_check s : acquire_load (mgr s) = true → (checking s < k)%nat → slot_step s (mkSlots (mgr s) (S (checking s)) (holding s) (leaving s))
| slot_reject s : acquire_load (mgr s) = false → slot_step s s
| slot_take s n : checking s = S n → slot_step s (mkSlots (acquire_add (mgr s)) n (S (holding s)) (leaving s))
| slot_leave s n : holding s = S n → release_load (mgr s) = true → slot_step s (mkSlots (mgr s) (checking s) n (S (leaving s)))
| slot_free s n : leaving s = S n → slot_step s (mkSlots (release_add (mgr s)) (checking s) (holding s) n)
| slot_register s id i : slot_step s (mkSlots (Register id i (mgr s)) (checking s) (holding s) (leaving s))
| slot_unregister s id : slot_step s (mkSlots (Unregister id (mgr s)) (checking s) (holding s) (leaving s)).

Record slots_inv (cap : Z) (s : slots) : Prop := {
  si_cap : capacity (mgr s) = cap;
  si_count : activeCount (mgr s) = Z.of_nat (holding s) + Z.of_nat (leaving s);
  si_bound : activeCount (mgr s) + Z.of_nat (checking s) ≤ cap - 1 + Z.of_nat k;
  si_checking : (checking s ≤ k)%nat
}.

Lemma wrap32_id z : - 2 ^ 31 ≤ z < 2 ^ 31 → wrap32 z = z.
Proof. intros H. unfold wrap32. rewrite Z.mod_small; lia. Qed.

Lemma slots_inv_step cap s s' :
  0 < cap → cap + Z.of_nat k < 2 ^ 31 → slots_inv cap s → slot_step s s' → slots_inv cap s'.
Proof.
  intros Hcap Hk [H1 H2 H3 H4] Hs. destruct Hs as [s Hl Hc | s Hl | s n Hc | s n Hh Hl | s n Hv | s id i | s id]; cbn in *; [| done | | | | by split | by split].
  - split; cbn; [done | done | | lia]. unfold acquire_load in Hl. apply negb_true_iff, Z.leb_gt in Hl. lia.
  - split; cbn; [done | | | lia]; rewrite wrap32_id by lia; lia.
  - split; cbn; [done | lia | lia | done].
  - split; cbn; [done | | | done]; rewrite wrap32_id by lia; lia.
Qed.

(** The slots of persistent sockets.  When each connection releases the
    slot it acquired once: the count is always the number of connections that
    hold a slot or are giving it back, so that no slot is lost, and it exceeds the
    capacity by less than the number of connections that check at once. *)
Theorem slots_conserved cap s :
  0 < cap → cap + Z.of_nat k < 2 ^ 31 → (0 < k)%nat → rtc slot_step (mkSlots (NewManager cap) 0 0 0) s →
  ActiveCount (mgr s) = Z.of_nat (holding s + leaving s) ∧ ActiveCount (mgr s) < cap + Z.of_nat k.
Proof.
  intros Hcap Hbig Hk Hr. assert (slots_inv cap s) as [H1 H2 H3 H4].
  { eapply (invariant_rtc slot_step (slots_inv cap)); [| exact Hr |]; [intros s1 s2; by apply slots_inv_step |].
    split; cbn; [| done | lia | lia]. rewrite (proj2 (Z.leb_gt _ _)) by lia. apply wrap32_id. lia. }
  unfold ActiveCount. lia.
Qed.

End Slots.

Definition full_slots : slots := mkSlots (acquire_add (acquire_add (NewManager 1))) 0 2 0.

(** Two connections check before either takes the last slot. *)
Lemma full_slots_reachable : rtc (slot_step 2) (mkSlots (NewManager 1) 0 0 0) full_slots.
Proof.
  apply (rtc_l _ _ (mkSlots (NewManager 1) 1 0 0)); [apply (slot_check 2 (mkSlots (NewManager 1) 0 0 0)); [done | cbn; lia] |].
  apply (rtc_l _ _ (mkSlots (NewManager 1) 2 0 0)); [apply (slot_check 2 (mkSlots (NewManager 1) 1 0 0)); [done | cbn; lia] |].
  apply (rtc_l _ _ (mkSlots (acquire_add (NewManager 1)) 1 1 0)); [by apply (slot_take 2 (mkSlots (NewManager 1) 2 0 0) 1) |].
  apply rtc_once. by apply (slot_take 2 (mkSlots (acquire_add (NewManager 1)) 1 1 0) 0).
Qed.

Lemma slots_conserved_witness : ActiveCount (mgr full_slots) = 2 ∧ ActiveCount (mgr full_slots) < 1 + Z.of_nat 2.
Proof.
  split; [reflexivity |]. apply (slots_conserved 2 1 full_slots); [lia | lia | lia | apply full_slots_reachable].
Defined.

(** More sockets than the capacity. *)
Lemma capacity_exceeded : ∃ s, rtc (slot_step 2) (mkSlots (NewManager 1) 0 0 0) s ∧ ActiveCount (mgr s) = 2.
Proof. exists full_slots. split; [apply full_slots_reachable | done]. Qed.

(** A release after a failed acquire takes the slot of another connection. *)
Lemma release_after_rejection :
  let m := (Acquire (NewManager 1)).2 in (Acquire m).1 = false ∧ ActiveCount (Release (Acquire m).2) = 0.
Proof. by vm_compute. Qed.
