(* ===== verification/Transactions.v ===== *)
(** * Transactions of functions ([core/pkg/rqlite/batch.go],
      [core/pkg/serverless/hostfunctions/database.go])

    A function hands over a list of statements.  The writes among them go to
    the database in one request, which it executes as one transaction; the
    queries follow after the commit, one request each.  [BatchWithSeq] adds a counter
    of the namespace to the transaction, [ExecAndPublish] announces the commit with the
    number it was given. *)

From Stdlib Require Import ZArith Lia Ascii String.
From stdpp Require Import base tactics numbers list gmap strings pretty.
From S2P Require Import Prelude GoStrings DbProg.

Local Open Scope Z_scope.
Local Open Scope go_scope.

(** ** Statements and results *)

(** A cell of a row or an argument, by its dynamic type; of a float the
    integral part. *)
Inductive value := Null | Bool (b : bool) | Int64 (z : Z) | Float64 (z : Z) | Number (s : string) | Text (s : string) | Blob (s : string) | Time (t : Z).

Definition row : Type := gmap string value.

(** A text of the caller, or one of the two statements of [BatchWithSeq]. *)
Inductive statement :=
| Sql (text : string) (args : list value)
| UpsertSeq (namespace : string) (now : Z)
| SelectSeq (namespace : string).

Definition BatchOpExec : string := "exec".
Definition BatchOpQuery : string := "query".

Record BatchOp := mkOp { Kind : string; stmt : statement }.

Record OpResult := mkOpResult { res_Kind : string; RowsAffected : Z; LastInsertID : Z; Rows : list row; res_Error : string }.

Definition no_result : OpResult := mkOpResult EmptyString 0 0 [] EmptyString.

Record BatchResult := mkBatchResult { Results : list OpResult; Committed : bool; FailedIndex : Z }.

Definition MaxBatchOps : nat := 100.

Inductive batch_error :=
| TooManyOps (n : nat) | NotConfigured | UnknownKind (i : nat) (kind : string) | ExecFailed (i : nat) (e : string) | Transport (e : string)
| NamespaceRequired | SeqLookupFailed (e : string) | SeqNoRows | SeqColumnMissing | SeqCoerce.

Section Transactions.
(** The tables of the namespace and what the database makes of a text. *)
Context {S : Type}.
Context (exec_sql : string → list value → S → result string (Z * Z * S)) (query_sql : string → list value → S → result string (list row)).

(** [seqs]: the rows of [namespace_publish_seq], [next_seq] and [updated_at] by namespace. *)
Record database := mkDb { seqs : gmap string (Z * Z); tables : S }.

Definition next_seq (ns : string) (d : database) : Z := default 1 (fst <$> seqs d !! ns).

(** The row is inserted with 2 or its number is raised. *)
Definition bump (ns : string) (now : Z) (d : database) : database := mkDb (<[ns := (next_seq ns d + 1, now)]> (seqs d)) (tables d).

Definition run_exec (st : statement) (d : database) : result string (Z * Z * database) :=
  match st with
  | Sql text args => match exec_sql text args (tables d) with Ok (n, id, t) => Ok (n, id, mkDb (seqs d) t) | Err e => Err e end
  | UpsertSeq ns now => Ok (1, 0, bump ns now d)
  | SelectSeq _ => Err "not a write"
  end.

Definition run_query (st : statement) (d : database) : result string (list row) :=
  match st with
  | Sql text args => query_sql text args (tables d)
  | SelectSeq ns => Ok (match seqs d !! ns with Some (n, _) => [{["assigned_seq" := Int64 (n - 1)]}] | None => [] end)
  | UpsertSeq _ _ => Err "not a query"
  end.

(** The request [/db/execute?transaction]: all statements, or none and the place of
    the first that fails. *)
Fixpoint run_tx (l : list statement) (d : database) : result (nat * string) (list (Z * Z) * database) :=
  match l with
  | [] => Ok ([], d)
  | st :: l' =>
      match run_exec st d with
      | Err e => Err (0%nat, e)
      | Ok (n, id, d1) =>
          match run_tx l' d1 with
          | Err (i, e) => Err (Datatypes.S i, e)
          | Ok (rs, d') => Ok ((n, id) :: rs, d')
          end
      end
  end.

Definition WriteParameterizedContext {A : Type} (l : list statement) (k : result string (result (nat * string) (list (Z * Z))) → prog database A) : prog database A :=
  Update (λ d, match run_tx l d with Ok (rs, d') => (Ok rs, d') | Err x => (Err x, d) end) k.

(** ** [Batch] *)

Definition known (op : BatchOp) : bool := String.eqb (Kind op) BatchOpExec || String.eqb (Kind op) BatchOpQuery.

Fixpoint first_unknown (i : nat) (ops : list BatchOp) : option (nat * string) :=
  match ops with
  | [] => None
  | op :: ops' => if known op then first_unknown (Datatypes.S i) ops' else Some (i, Kind op)
  end.

(** The ops of a kind with their places. *)
Fixpoint tagged (i : nat) (kind : string) (ops : list BatchOp) : list (nat * statement) :=
  match ops with
  | [] => []
  | op :: ops' => if String.eqb (Kind op) kind then (i, stmt op) :: tagged (Datatypes.S i) kind ops' else tagged (Datatypes.S i) kind ops'
  end.

Definition exec_result (a : Z * Z) : OpResult := mkOpResult BatchOpExec a.1 a.2 [] EmptyString.
Definition exec_failed_result (e : string) : OpResult := mkOpResult BatchOpExec 0 0 [] e.
Definition query_result (a : result string (list row)) : OpResult :=
  match a with
  | Ok rows => mkOpResult BatchOpQuery 0 0 rows EmptyString
  | Err e => mkOpResult BatchOpQuery 0 0 [] e
  end.

Fixpoint place (idx : list nat) (rs : list (Z * Z)) (out : list OpResult) : list OpResult :=
  match idx, rs with
  | i :: idx', a :: rs' => place idx' rs' (<[i := exec_result a]> out)
  | _, _ => out
  end.

Fixpoint post_queries (qs : list (nat * statement)) (out : list OpResult) : prog database (list OpResult) :=
  match qs with
  | [] => Ret out
  | (i, st) :: qs' =>
      Query (run_query st) (λ a,
        post_queries qs' (<[i := query_result (match a with Ok r => r | Err e => Err e end)]> out))
  end.

Definition committed_batch (ops : list BatchOp) (out : list OpResult) : prog database (option BatchResult * option batch_error) :=
  prog_bind (post_queries (tagged 0 BatchOpQuery ops) out) (λ out', Ret (Some (mkBatchResult out' true 0), None)).

Definition Batch (conn : bool) (ops : list BatchOp) : prog database (option BatchResult * option batch_error) :=
  match ops with
  | [] => Ret (Some (mkBatchResult [] true 0), None)
  | _ :: _ =>
      if (MaxBatchOps <? length ops)%nat then Ret (None, Some (TooManyOps (length ops)))
      else if negb conn then Ret (None, Some NotConfigured)
      else
        match first_unknown 0 ops with
        | Some (i, kind) => Ret (None, Some (UnknownKind i kind))
        | None =>
            let execs := tagged 0 BatchOpExec ops in
            let out := replicate (length ops) no_result in
            match execs with
            | [] => committed_batch ops out
            | _ :: _ =>
                WriteParameterizedContext execs.*2 (λ r,
                  match r with
                  | Ok (Ok rs) => committed_batch ops (place execs.*1 rs out)
                  | Ok (Err (i, e)) =>
                      let idx := nth i execs.*1 0%nat in
                      Ret (Some (mkBatchResult (<[idx := exec_failed_result e]> out) false (Z.of_nat idx)), Some (ExecFailed idx e))
                  | Err e => Ret (Some (mkBatchResult out false 0), Some (Transport e))
                  end)
            end
        end
  end.

(** ** The specification: one statement after the other

    Writes in the order of the list; the first that fails gives its place. *)
Fixpoint in_order (i : nat) (ops : list BatchOp) (d : database) : result (nat * string) (list (option (Z * Z)) * database) :=
  match ops with
  | [] => Ok ([], d)
  | op :: ops' =>
      if String.eqb (Kind op) BatchOpExec then
        match run_exec (stmt op) d with
        | Err e => Err (i, e)
        | Ok (n, id, d1) =>
            match in_order (Datatypes.S i) ops' d1 with
            | Ok (l, d') => Ok (Some (n, id) :: l, d')
            | Err x => Err x
            end
        end
      else
        match in_order (Datatypes.S i) ops' d with
        | Ok (l, d') => Ok (None :: l, d')
        | Err x => Err x
        end
  end.

(** The entry of an op once [d] is committed. *)
Definition answer_in (d : database) (op : BatchOp) (a : option (Z * Z)) : OpResult :=
  match a with Some x => exec_result x | None => query_result (run_query (stmt op) d) end.

Definition partial (a : option (Z * Z)) : OpResult := match a with Some x => exec_result x | None => no_result end.

Lemma insert_here {A : Type} (pre : list A) x y l i : length pre = i → <[i := x]> (pre ++ y :: l) = (pre ++ [x]) ++ l.
Proof. intros <-. rewrite insert_app_r_alt by lia. rewrite Nat.sub_diag. cbn. by rewrite <- app_assoc. Qed.

(** The transaction does what the specification says, and the places of the
    results are those of the ops. *)
Lemma in_order_tx i ops d :
  match in_order i ops d with
  | Ok (l, d') => length l = length ops ∧ ∃ rs, run_tx (tagged i BatchOpExec ops).*2 d = Ok (rs, d') ∧ ∀ pre, length pre = i →
      place (tagged i BatchOpExec ops).*1 rs (pre ++ replicate (length ops) no_result) = pre ++ (partial <$> l)
  | Err (j, e) => ∃ k, run_tx (tagged i BatchOpExec ops).*2 d = Err (k, e) ∧ (tagged i BatchOpExec ops).*1 !! k = Some j ∧ (i ≤ j < i + length ops)%nat
  end.
Proof.
  revert i d. induction ops as [| op ops IH]; intros i d; cbn [in_order tagged].
  { cbn. split; [done |]. exists []. done. }
  destruct (String.eqb (Kind op) BatchOpExec) eqn:Hk; cbn [fmap list_fmap run_tx].
  - destruct (run_exec (stmt op) d) as [[[n id] d1] | e] eqn:He; [| exists 0%nat; cbn; rewrite He; split; [done | split; [done | lia]]].
    specialize (IH (Datatypes.S i) d1). destruct (in_order (Datatypes.S i) ops d1) as [[l d'] | [j e]]; cbn in *; rewrite He.
    + destruct IH as (Hl & rs & -> & Hp). split; [lia |]. exists ((n, id) :: rs). split; [done |]. intros pre Hpre. cbn.
      rewrite (insert_here pre _ _ _ i Hpre). rewrite Hp by (rewrite length_app; cbn; lia). by rewrite <- app_assoc.
    + destruct IH as (k & -> & Hk' & Hj). exists (Datatypes.S k). cbn. split; [done | split; [done | lia]].
  - specialize (IH (Datatypes.S i) d). destruct (in_order (Datatypes.S i) ops d) as [[l d'] | [j e]]; cbn in *.
    + destruct IH as (Hl & rs & Hr & Hp). split; [lia |]. exists rs. split; [done |]. intros pre Hpre. cbn.
      specialize (Hp (pre ++ [no_result])). rewrite <- app_assoc in Hp. cbn in Hp. rewrite Hp by (rewrite length_app; cbn; lia). by rewrite <- app_assoc.
    + destruct IH as (k & Hr & Hk' & Hj). exists k. split; [done | split; [done | lia]].
Qed.

(** A result where there is a write, none where there is a query. *)
Lemma in_order_kinds i ops d l d' : in_order i ops d = Ok (l, d') → Forall2 (λ op a, String.eqb (Kind op) BatchOpExec = match a with Some _ => true | None => false end) ops l.
Proof.
  revert i d l. induction ops as [| op ops IH]; intros i d l; cbn; [by intros [= <- <-] |].
  destruct (String.eqb (Kind op) BatchOpExec) eqn:Hk.
  - destruct (run_exec (stmt op) d) as [[[n id] d1] |]; [| done]. destruct (in_order _ ops d1) as [[l1 d2] |] eqn:Hi; [| done]. intros [= <- <-]. constructor; eauto.
  - destruct (in_order _ ops d) as [[l1 d2] |] eqn:Hi; [| done]. intros [= <- <-]. constructor; eauto.
Qed.

Lemma run_post_queries i ops l d pre :
  Forall2 (λ op a, String.eqb (Kind op) BatchOpExec = match a with Some _ => true | None => false end) ops l →
  Forall (λ op, known op = true) ops → length pre = i →
  run (post_queries (tagged i BatchOpQuery ops) (pre ++ (partial <$> l))) d = (pre ++ zip_with (answer_in d) ops l, d).
Proof.
  intros Hl. revert i pre. induction Hl as [| op a ops l Hk Hl IH]; intros i pre Hops Hpre; [done |]. inversion_clear Hops as [| ? ? Hop Hops'].
  cbn [tagged]. unfold known in Hop. destruct a as [x |]; cbn [fmap list_fmap partial zip_with answer_in].
  - apply String.eqb_eq in Hk. assert (String.eqb (Kind op) BatchOpQuery = false) as -> by (by rewrite Hk).
    specialize (IH (Datatypes.S i) (pre ++ [exec_result x]) Hops'). rewrite <- !app_assoc in IH. cbn in IH. apply IH. rewrite length_app. cbn. lia.
  - rewrite Hk in Hop. cbn in Hop. rewrite Hop. cbn [post_queries run]. rewrite (insert_here pre _ _ _ i Hpre).
    rewrite (IH (Datatypes.S i) (pre ++ [query_result (run_query (stmt op) d)]) Hops') by (rewrite length_app; cbn; lia). by rewrite <- app_assoc.
Qed.

Lemma first_unknown_None i ops : Forall (λ op, known op = true) ops → first_unknown i ops = None.
Proof. intros H. revert i. induction H as [| op ops Hop _ IH]; intros i; cbn; [done |]. by rewrite Hop. Qed.

(** What a batch answers and leaves, by the specification. *)
Definition batch_outcome (ops : list BatchOp) (d : database) : option BatchResult * option batch_error * database :=
  match in_order 0 ops d with
  | Ok (l, d') => (Some (mkBatchResult (zip_with (answer_in d') ops l) true 0), None, d')
  | Err (i, e) => (Some (mkBatchResult (<[i := exec_failed_result e]> (replicate (length ops) no_result)) false (Z.of_nat i)), Some (ExecFailed i e), d)
  end.

Lemma run_Batch ops d :
  (length ops ≤ MaxBatchOps)%nat → Forall (λ op, known op = true) ops → run (Batch true ops) d = batch_outcome ops d.
Proof.
  intros Hlen Hops. unfold Batch, batch_outcome. destruct ops as [| op ops]; [done |]. set (all := op :: ops) in *.
  rewrite (proj2 (Nat.ltb_ge _ _) Hlen), (first_unknown_None 0 all Hops). cbn [negb]. pose proof (in_order_tx 0 all d) as Htx.
  destruct (in_order 0 all d) as [[l d'] | [i e]] eqn:Hi.
  - destruct Htx as (Hl & rs & Hr & Hp). specialize (Hp [] eq_refl). cbn [app] in Hp. pose proof (in_order_kinds _ _ _ _ _ Hi) as Hk.
    assert (run (committed_batch all (partial <$> l)) d' = (Some (mkBatchResult (zip_with (answer_in d') all l) true 0), None, d')) as Hq.
    { pose proof (run_post_queries 0 all l d' [] Hk Hops eq_refl) as Hq. cbn [app] in Hq. unfold committed_batch. by rewrite run_bind, Hq. }
    destruct (tagged 0 BatchOpExec all) as [| t ts].
    + cbn [fmap list_fmap run_tx place] in Hr, Hp. injection Hr as <- <-. by rewrite Hp.
    + cbn [run WriteParameterizedContext]. rewrite Hr. cbn [fst snd]. by rewrite Hp.
  - destruct Htx as (k & Hr & Hk & Hj). destruct (tagged 0 BatchOpExec all) as [| t ts]; [done |].
    cbn [run WriteParameterizedContext]. rewrite Hr. cbn [fst snd]. by rewrite (nth_lookup_Some _ _ _ _ Hk).
Qed.

(** *** Faults *)

Definition faulty {A : Type} (s s' : database * prog database A) : Prop := prog_step [] s.1 s.2 s'.1 s'.2.

(** A program that runs alone, with any faults. *)
Lemma secures_faulty {A : Type} (Q : A → database → Prop) (K : database → Prop) d p d' a :
  secures (λ _, True) (=) (=) (λ _ _, True) Q K p → K d → rtc faulty (d, p) (d', Ret a) → Q a d'.
Proof.
  intros Hp HK Hr. remember (d, p) as s eqn:Es. remember (d', Ret a) as s' eqn:Es'. revert K d p Es Hp HK.
  induction Hr as [s | s [d1 p1] s' Hs Hr IH]; intros K d p ->.
  - intros Hp HK. injection Es' as -> ->. by apply Hp.
  - intros Hp HK. destruct (secures_step (λ _, True) (=) (=) (λ _ _, True) (λ _ _ H, H) Q K [] d p d1 p1 Hs) as (_ & _ & K' & HK' & _ & Hp');
      [done | constructor | done | by intros d1' d2' -> | done |].
    by eapply (IH Es' K').
Qed.

Lemma secures_absurd {A : Type} (Q : A → database → Prop) (K : database → Prop) p :
  (∀ x, ¬ K x) → secures (λ _, True) (=) (=) (λ _ _, True) Q K p.
Proof. revert K. induction p as [a | C q k IH | w k IH | C w k IH]; intros K HK; cbn; [| split | split; [| split] | split; [| split]]; try (intros; apply IH); naive_solver. Qed.

Definition batch_post (ops : list BatchOp) (d : database) (a : option BatchResult * option batch_error) (d' : database) : Prop :=
  (d' = d ∨ ∃ l, in_order 0 ops d = Ok (l, d')) ∧
  (∀ r, a = (Some r, None) → Committed r = true ∧ ∃ l, in_order 0 ops d = Ok (l, d')) ∧
  (∀ r i e, a = (r, Some (ExecFailed i e)) → d' = d ∧ in_order 0 ops d = Err (i, e)).

Lemma post_queries_secures ops d d' l out qs (K : database → Prop) :
  (∀ x, K x → x = d') → in_order 0 ops d = Ok (l, d') →
  secures (λ _, True) (=) (=) (λ _ _, True) (batch_post ops d) K (prog_bind (post_queries qs out) (λ out', Ret (Some (mkBatchResult out' true 0), @None batch_error))).
Proof.
  intros HK Hi. revert K HK out. induction qs as [| [i st] qs IH]; intros K HK out; cbn.
  - intros x _ ->%HK. split; [right; by exists l |]. split; [| done]. intros r [= <-]. split; [done | by exists l].
  - split; [| intros e; by apply IH]. intros d0 _. apply IH. intros x [Hx _]. by apply HK.
Qed.

(** A batch whatever statements fail or stay unacknowledged: all of its writes or none
    of them are in effect, all when the answer says committed, none when it names
    the statement that failed. *)
Lemma batch_all_or_nothing conn ops d d' a :
  Forall (λ op, known op = true) ops → rtc faulty (d, Batch conn ops) (d', Ret a) → batch_post ops d a d'.
Proof.
  intros Hops. apply (secures_faulty (batch_post ops d) (λ x, x = d)); [| done]. pose proof (in_order_tx 0 ops d) as Htx. unfold Batch. destruct ops as [| op ops].
  { intros x _ ->. split; [by left |]. split; [| done]. intros r [= <-]. split; [done |]. by eexists. }
  set (all := op :: ops) in *.
  assert (∀ (r : option BatchResult) (e : batch_error) (K : database → Prop), (∀ i x, e ≠ ExecFailed i x) → (∀ x, K x → x = d ∨ ∃ l, in_order 0 all d = Ok (l, x)) →
    secures (λ _, True) (=) (=) (λ _ _, True) (batch_post all d) K (Ret (r, Some e))) as Hret.
  { intros r e K He HK x _ Hx. split; [by apply HK |]. split; [done |]. intros r' i y [= _ Ey]. by destruct (He i y). }
  destruct (MaxBatchOps <? length all)%nat; [by apply Hret; [| intros ? ->; left] |]. destruct conn; [| by apply Hret; [| intros ? ->; left]].
  cbn [negb]. rewrite (first_unknown_None 0 all Hops). set (none := replicate (length all) no_result). destruct (tagged 0 BatchOpExec all) as [| t ts] eqn:Ht.
  - destruct (in_order 0 all d) as [[l d1] | [i e]] eqn:Hi; [| by destruct Htx as (k & [=] & _)]. destruct Htx as (_ & rs & [= _ <-] & _).
    by apply (post_queries_secures all d d l).
  - cbn [secures WriteParameterizedContext]. split; [done |]. destruct (in_order 0 all d) as [[l d1] | [i e]] eqn:Hi.
    + destruct Htx as (_ & rs & Hrun & _). split.
      * intros [rs' | [j x]]; [apply (post_queries_secures all d d1 l); [| done] | intros y _ (d0 & _ & -> & Hw & _); by rewrite Hrun in Hw].
        intros x (d0 & _ & -> & _ & <-). by rewrite Hrun.
      * intros x. apply Hret; [done |]. intros y [-> | (d0 & _ & -> & <-)]; [by left |]. rewrite Hrun. right. by exists l.
    + destruct Htx as (k & Hrun & Hk & _). split.
      * intros [rs' | [j x]].
        -- apply secures_absurd. intros y (d0 & _ & -> & Hw & _). by rewrite Hrun in Hw.
        -- intros y _ (d0 & _ & -> & Hw & <-). rewrite Hrun in Hw |- *. injection Hw as <- <-. rewrite (nth_lookup_Some _ _ _ _ Hk).
           split; [by left |]. split; [done |]. by intros r' i' e' [= _ <- <-].
      * intros x. apply Hret; [done |]. intros y [-> | (d0 & _ & -> & <-)]; [by left |]. rewrite Hrun. by left.
Qed.

(** ** [BatchWithSeq] *)

(** [fmt.Sscanf] with [%d]. *)
Context (Sscanf : string → option Z).

Definition trimWrappedResults (res : option BatchResult) (n : nat) : option BatchResult :=
  match res with
  | None => None
  | Some r =>
      if (length (Results r) <? n + 1)%nat then Some r
      else
        let end_ := Nat.min (length (Results r) - 1) (n + 1) in
        let failed :=
          if Committed r then 0
          else if FailedIndex r =? 0 then -1
          else if (0 <? FailedIndex r) && (FailedIndex r <=? Z.of_nat n) then FailedIndex r - 1
          else Z.of_nat n in
        Some (mkBatchResult (take (end_ - 1) (drop 1 (Results r))) (Committed r) failed)
  end.

Definition coerceInt64 (v : value) : option Z :=
  match v with
  | Int64 n | Float64 n => Some n
  | Number s => Atoi s
  | Text s => Sscanf s
  | _ => None
  end.

Definition assigned_of (queryResult : OpResult) : Z * option batch_error :=
  if negb (String.eqb (res_Error queryResult) EmptyString) then (0, Some (SeqLookupFailed (res_Error queryResult)))
  else
    match Rows queryResult with
    | [] => (0, Some SeqNoRows)
    | r :: _ =>
        match r !! "assigned_seq"%string with
        | None => (0, Some SeqColumnMissing)
        | Some v => match coerceInt64 v with Some seq => (seq, None) | None => (0, Some SeqCoerce) end
        end
    end.

Definition BatchWithSeq (conn : bool) (now : Z) (namespace : string) (userOps : list BatchOp) : prog database (option BatchResult * Z * option batch_error) :=
  if String.eqb namespace EmptyString then Ret (None, 0, Some NamespaceRequired)
  else if negb conn then Ret (None, 0, Some NotConfigured)
  else
    let combined := mkOp BatchOpExec (UpsertSeq namespace now) :: userOps ++ [mkOp BatchOpQuery (SelectSeq namespace)] in
    prog_bind (Batch conn combined) (λ '(res, err),
      let trimmed := trimWrappedResults res (length userOps) in
      match res, err with
      | Some r, None =>
          if Committed r then
            let '(seq, e) := assigned_of (List.last (Results r) no_result) in Ret (trimmed, seq, e)
          else Ret (trimmed, 0, None)
      | _, _ => Ret (trimmed, 0, err)
      end).

(** The statements of a caller reach the tables only. *)
Definition user_op (op : BatchOp) : Prop := match stmt op with Sql _ _ => True | _ => False end.

Lemma in_order_shift i ops d :
  in_order (Datatypes.S i) ops d = match in_order i ops d with Ok x => Ok x | Err (j, e) => Err (Datatypes.S j, e) end.
Proof.
  revert i d. induction ops as [| op ops IH]; intros i d; cbn; [done |]. destruct (String.eqb (Kind op) BatchOpExec).
  - destruct (run_exec (stmt op) d) as [[[n id] d1] |]; [| done]. rewrite IH. by destruct (in_order (Datatypes.S i) ops d1) as [[? ?] | [? ?]].
  - rewrite IH. by destruct (in_order (Datatypes.S i) ops d) as [[? ?] | [? ?]].
Qed.

Lemma in_order_snoc_query i ops d q :
  Kind q = BatchOpQuery →
  in_order i (ops ++ [q]) d = match in_order i ops d with Ok (l, d') => Ok (l ++ [None], d') | Err x => Err x end.
Proof.
  intros Hq. revert i d. induction ops as [| op ops IH]; intros i d; cbn; [by rewrite Hq |]. destruct (String.eqb (Kind op) BatchOpExec).
  - destruct (run_exec (stmt op) d) as [[[n id] d1] |]; [| done]. rewrite IH. by destruct (in_order (Datatypes.S i) ops d1) as [[? ?] | ].
  - rewrite IH. by destruct (in_order (Datatypes.S i) ops d) as [[? ?] | ].
Qed.

Lemma in_order_seqs i ops d l d' : Forall user_op ops → in_order i ops d = Ok (l, d') → seqs d' = seqs d ∧ length l = length ops.
Proof.
  intros Hu. revert i d l. induction Hu as [| op ops Hop _ IH]; intros i d l; cbn; [by intros [= <- <-] |].
  destruct (String.eqb (Kind op) BatchOpExec).
  - unfold user_op in Hop. destruct (stmt op) as [text args | |]; [| done | done]. cbn. destruct (exec_sql text args (tables d)) as [[[n id] t] |]; [| done].
    destruct (in_order _ ops _) as [[l1 d2] |] eqn:Hi; [| done]. intros [= <- <-]. destruct (IH _ _ _ Hi) as [-> Hl]. cbn. by rewrite Hl.
  - destruct (in_order _ ops _) as [[l1 d2] |] eqn:Hi; [| done]. intros [= <- <-]. destruct (IH _ _ _ Hi) as [-> Hl]. cbn. by rewrite Hl.
Qed.

Lemma in_order_bound i ops d j e : in_order i ops d = Err (j, e) → (i ≤ j < i + length ops)%nat.
Proof. intros H. pose proof (in_order_tx i ops d) as Htx. rewrite H in Htx. by destruct Htx as (_ & _ & _ & ?). Qed.

Lemma assigned_lookup ns d n t : seqs d !! ns = Some (n, t) → assigned_of (query_result (run_query (SelectSeq ns) d)) = (n - 1, None).
Proof. intros H. cbn. by rewrite H. Qed.

Lemma trimmed_failure i n x : (i < n)%nat → take n (drop 1 (<[Datatypes.S i := x]> (replicate (Datatypes.S (n + 1)) no_result))) = <[i := x]> (replicate n no_result).
Proof.
  intros Hi. change (take n (<[i := x]> (replicate (n + 1) no_result)) = <[i := x]> (replicate n no_result)).
  rewrite replicate_add, insert_app_l by (rewrite length_replicate; lia). apply take_app_length'. by rewrite length_insert, length_replicate.
Qed.

(** Alone, [BatchWithSeq] answers with the entries of the caller and the number
    the counter had, and the counter is raised with the commit. *)
Lemma run_BatchWithSeq now ns ops d :
  ns ≠ EmptyString → (length ops + 2 ≤ MaxBatchOps)%nat → Forall (λ op, known op = true) ops → Forall user_op ops →
  run (BatchWithSeq true now ns ops) d =
    match in_order 0 ops (bump ns now d) with
    | Ok (l, d') => (Some (mkBatchResult (zip_with (answer_in d') ops l) true 0), next_seq ns d, None, d')
    | Err (i, e) =>
        (Some (mkBatchResult (<[i := exec_failed_result e]> (replicate (length ops) no_result)) false (Z.of_nat i)), 0, Some (ExecFailed (Datatypes.S i) e), d)
    end.
Proof.
  intros Hns Hlen Hk Hu. unfold BatchWithSeq. rewrite (proj2 (String.eqb_neq _ _) Hns). cbn [negb].
  set (q := mkOp BatchOpQuery (SelectSeq ns)). set (u := mkOp BatchOpExec (UpsertSeq ns now)).
  rewrite run_bind, run_Batch; [| cbn; rewrite length_app; cbn; lia | constructor; [done | apply Forall_app; split; [done | by repeat constructor]]].
  unfold batch_outcome. assert (in_order 0 (u :: ops ++ [q]) d = match in_order 0 ops (bump ns now d) with Ok (l, d') => Ok (Some (1, 0) :: l ++ [None], d') | Err (i, e) => Err (Datatypes.S i, e) end) as ->.
  { cbn [in_order u Kind stmt run_exec]. cbn. rewrite in_order_shift, in_order_snoc_query by done. by destruct (in_order 0 ops (bump ns now d)) as [[? ?] | [? ?]]. }
  destruct (in_order 0 ops (bump ns now d)) as [[l d'] | [i e]] eqn:Hi.
  - destruct (in_order_seqs _ _ _ _ _ Hu Hi) as [Hs Hl]. cbn [fst snd Committed Results zip_with].
    assert (zip_with (answer_in d') (ops ++ [q]) (l ++ [None]) = zip_with (answer_in d') ops l ++ [answer_in d' q None]) as Hz by (by rewrite zip_with_app).
    rewrite Hz, app_comm_cons, List.last_last. cbn [answer_in q stmt].
    rewrite (assigned_lookup ns d' (next_seq ns d + 1) now) by (rewrite Hs; apply lookup_insert_eq). unfold trimWrappedResults. cbn [Results Committed].
    rewrite length_app. cbn [length drop app]. rewrite length_zip_with_l_eq by done.
    rewrite (proj2 (Nat.ltb_ge _ _)) by lia. replace (Nat.min (Datatypes.S (length ops) + 1 - 1) (length ops + 1) - 1)%nat with (length ops) by lia. cbn [run].
    rewrite drop_0, take_app_length'; [| by rewrite length_zip_with_l_eq]. by replace (next_seq ns d + 1 - 1) with (next_seq ns d) by lia.
  - cbn [fst snd]. apply in_order_bound in Hi. unfold trimWrappedResults. cbn [Results Committed FailedIndex run]. rewrite length_insert, length_replicate. cbn [length].
    rewrite length_app. cbn [length]. rewrite (proj2 (Nat.ltb_ge _ _)) by lia. rewrite (proj2 (Z.eqb_neq _ _)) by lia.
    rewrite (proj2 (Z.ltb_lt _ _)) by lia. rewrite (proj2 (Z.leb_le _ _)) by lia. cbn [andb].
    replace (Nat.min (Datatypes.S (length ops + 1) - 1) (length ops + 1) - 1)%nat with (length ops) by lia.
    replace (Z.of_nat (Datatypes.S i) - 1) with (Z.of_nat i) by lia. by rewrite trimmed_failure by lia.
Qed.

(** ** Host functions

    [unmarshal]: the JSON of a request; [publish]: the message bus. *)
Context (unmarshal : string → option (list BatchOp)) (publish : string → string → option string).

(** The cause of a [HostFunctionError]. *)
Inductive host_cause := DatabaseUnavailable | PubsubUnavailable | InvalidJson | OpsRequired | TooManyRequested | BatchCause (e : option batch_error)
| TopicRequired | NoNamespace | BudgetExceeded.

Definition DBTransaction (db conn : bool) (opsJSON : string) : prog database (result host_cause BatchResult) :=
  if negb db then Ret (Err DatabaseUnavailable)
  else
    match unmarshal opsJSON with
    | None => Ret (Err InvalidJson)
    | Some ops =>
        if (length ops =? 0)%nat then Ret (Err OpsRequired)
        else if (MaxBatchOps <? length ops)%nat then Ret (Err TooManyRequested)
        else prog_bind (Batch conn ops) (λ '(res, err),
               match res with
               | None => Ret (Err (BatchCause err))
               | Some r => Ret (Ok r)
               end)
    end.

Fixpoint replace_go (fuel : nat) (s old new : string) : string :=
  match fuel, s with
  | Datatypes.S fuel', String c s' => if HasPrefix s old then new +:+ replace_go fuel' (str_drop (str_len old) s) old new else String c (replace_go fuel' s' old new)
  | _, _ => s
  end.

(** [bytes.ReplaceAll] for an [old] that is not empty. *)
Definition ReplaceAll (s old new : string) : string := replace_go (str_len s) s old new.

Definition maxPublishesPerInvocation : Z := 1000.

(** The counter of the invocation, if it has one. *)
Definition AddPublishCount (counter : option Z) (n : Z) : Z * option Z :=
  if n <=? 0 then (-1, counter) else match counter with Some c => (wrap64 (c + n), Some (wrap64 (c + n))) | None => (-1, None) end.

Record execAndPublishResult := mkPublished {
  ep_Results : list OpResult; ep_Committed : bool; ep_FailedIndex : Z; Seq : Z; Published : bool; PublishError : string
}.

Definition seq_data (template : string) (seq : Z) : string := ReplaceAll template "{{seq}}" (pretty seq).

(** The answer, the messages that were published and the counter. *)
Definition ExecAndPublish (db pubsub conn : bool) (now : Z) (namespace topic opsJSON template : string) (counter : option Z)
    : prog database (result host_cause execAndPublishResult * list (string * string) * option Z) :=
  if negb db then Ret (Err DatabaseUnavailable, [], counter)
  else if negb pubsub then Ret (Err PubsubUnavailable, [], counter)
  else if String.eqb topic EmptyString then Ret (Err TopicRequired, [], counter)
  else if String.eqb namespace EmptyString then Ret (Err NoNamespace, [], counter)
  else
    match unmarshal opsJSON with
    | None => Ret (Err InvalidJson, [], counter)
    | Some ops =>
        if (MaxBatchOps <? length ops)%nat then Ret (Err TooManyRequested, [], counter)
        else
          let '(n, counter') := AddPublishCount counter 1 in
          if maxPublishesPerInvocation <? n then Ret (Err BudgetExceeded, [], counter')
          else
            prog_bind (BatchWithSeq conn now namespace ops) (λ '(batchRes, seq, batchErr),
              let r := default (mkBatchResult [] false 0) batchRes in
              match batchErr with
              | None =>
                  if Committed r then
                    let data := seq_data template seq in
                    match publish topic data with
                    | None => Ret (Ok (mkPublished (Results r) true (FailedIndex r) seq true EmptyString), [(topic, data)], counter')
                    | Some e => Ret (Ok (mkPublished (Results r) true (FailedIndex r) seq false e), [], counter')
                    end
                  else Ret (Ok (mkPublished (Results r) (Committed r) (FailedIndex r) 0 false EmptyString), [], counter')
              | Some _ => Ret (Ok (mkPublished (Results r) (Committed r) (FailedIndex r) 0 false EmptyString), [], counter')
              end)
    end.

(** C4: transactions of functions.  A request of one to a hundred statements of known
    kinds, alone: when every write succeeds after the ones before it, all of
    them are in effect, the answer says committed and has one entry for every
    statement at its own place, the rows affected by a write and for a query
    its rows in the committed state, wherever in the list it stands; otherwise nothing is in effect, the
    answer says not committed, names the place of the first write that fails
    and carries its error there and nothing elsewhere.  And
    whatever requests fail or stay unacknowledged, all writes or none are in
    effect, all when the batch answers without an error and none when it names the write that failed. *)
Theorem transaction_atomic json ops d :
  unmarshal json = Some ops → ops ≠ [] → (length ops ≤ MaxBatchOps)%nat → Forall (λ op, known op = true) ops →
  run (DBTransaction true true json) d =
    match in_order 0 ops d with
    | Ok (l, d') => (Ok (mkBatchResult (zip_with (answer_in d') ops l) true 0), d')
    | Err (i, e) => (Ok (mkBatchResult (<[i := exec_failed_result e]> (replicate (length ops) no_result)) false (Z.of_nat i)), d)
    end ∧
  ∀ d' a, rtc faulty (d, Batch true ops) (d', Ret a) →
    (d' = d ∨ ∃ l, in_order 0 ops d = Ok (l, d')) ∧
    (∀ r, a = (Some r, None) → Committed r = true ∧ ∃ l, in_order 0 ops d = Ok (l, d')) ∧
    (∀ r i e, a = (r, Some (ExecFailed i e)) → d' = d ∧ in_order 0 ops d = Err (i, e)).
Proof.
  intros Hj Hne Hlen Hk. split; [| intros d' a; by apply batch_all_or_nothing]. unfold DBTransaction. rewrite Hj. cbn [negb].
  rewrite (proj2 (Nat.eqb_neq _ _)) by (by destruct ops). rewrite (proj2 (Nat.ltb_ge _ _) Hlen), run_bind, run_Batch by done.
  unfold batch_outcome. by destruct (in_order 0 ops d) as [[l d'] | [i e]].
Qed.


End Transactions.

Arguments database : clear implicits.

(** *** A table of texts *)

(** [add] appends its argument, [count] counts, anything else is an error. *)
Definition log_exec (text : string) (args : list value) (t : list string) : result string (Z * Z * list string) :=
  match String.eqb text "add", args with
  | true, [Text s] => Ok (1, Z.of_nat (length t) + 1, t ++ [s])
  | _, _ => Err "no such table"
  end.
Definition log_query (text : string) (args : list value) (t : list string) : result string (list row) :=
  if String.eqb text "count" then Ok [{["n"%string := Int64 (Z.of_nat (length t))]}] else Err "no such table".
Definition no_scan (_ : string) : option Z := None.
Definition add_op (s : string) : BatchOp := mkOp "exec" (Sql "add" [Text s]).
Definition three_ops : list BatchOp := [add_op "a"; mkOp "query" (Sql "count" []); add_op "b"].
Definition bad_ops : list BatchOp := [add_op "a"; mkOp "query" (Sql "count" []); mkOp "exec" (Sql "drop" [])].
Definition requests (json : string) : option (list BatchOp) :=
  if String.eqb json "three" then Some three_ops else if String.eqb json "bad" then Some bad_ops
  else if String.eqb json "ninety-nine" then Some (replicate 99 (add_op "a")) else None.
Definition bus_up (_ _ : string) : option string := None.
Definition empty_db : database (list string) := mkDb ∅ [].

Lemma transaction_atomic_witness :
  (run (DBTransaction log_exec log_query requests true true "three") empty_db).1 =
    Ok (mkBatchResult [exec_result (1, 1); query_result (Ok [{["n"%string := Int64 2]}]); exec_result (1, 2)] true 0) ∧
  (run (DBTransaction log_exec log_query requests true true "bad") empty_db) =
    (Ok (mkBatchResult [no_result; no_result; exec_failed_result "no such table"] false 2), empty_db).
Proof.
  destruct (transaction_atomic log_exec log_query requests "three" three_ops empty_db) as [H1 _];
    [reflexivity | discriminate | apply Nat.leb_le; reflexivity | repeat constructor |].
  destruct (transaction_atomic log_exec log_query requests "bad" bad_ops empty_db) as [H2 _];
    [reflexivity | discriminate | apply Nat.leb_le; reflexivity | repeat constructor |].
  split; [rewrite H1; reflexivity | rewrite H2; reflexivity].
Defined.


(** *** What a transaction does not promise *)

Definition numbered (now : Z) : prog (database (list string)) (option BatchResult * Z * option batch_error) := BatchWithSeq log_exec log_query no_scan true now "app" [].

Lemma faulty_update {A B : Type} (w : database (list string) → B * database (list string)) (k : result string B → prog (database (list string)) A) d :
  faulty (d, Update w k) ((w d).2, k (Ok (w d).1)).
Proof. apply update_done. Qed.
Lemma faulty_query {A B : Type} (q : database (list string) → B) (k : result string B → prog (database (list string)) A) d :
  faulty (d, Query q k) (d, k (Ok (q d))).
Proof. apply query_answered. left. Qed.

(** Two commits at the same time are given the same number, and the other number
    to nobody. *)
Lemma seqs_collide :
  ∃ s, rtc sys_step (mkSys empty_db [] [(tt, numbered 1); (tt, numbered 2)]) s ∧
    threads s = [(tt, Ret (Some (mkBatchResult [] true 0), 2, None)); (tt, Ret (Some (mkBatchResult [] true 0), 2, None))].
Proof. destruct (sys_overtake tt tt (numbered 1) (numbered 2) 1 empty_db) as (s & Hr & Ht & _). exists s. split; [exact Hr |]. rewrite Ht. reflexivity. Qed.

(** Ninety-nine statements are within the limit of the host function and beyond the
    one of the batch with its two more; the answer says not committed and why to nobody. *)
Lemma ninety_nine_refused :
  (run (ExecAndPublish log_exec log_query no_scan requests bus_up true true true 5 "app" "room" "ninety-nine" "x" None) empty_db).1.1.1 =
    Ok (mkPublished [] false 0 0 false EmptyString).
Proof. reflexivity. Qed.

(** The acknowledgement of the transaction is lost: the answer says not
    committed, at the first statement, and the write is in effect. *)
Lemma lost_ack_not_committed :
  ∃ d r, rtc faulty (empty_db, Batch log_exec log_query true [add_op "a"]) (d, Ret (Some r, Some (Transport "timeout"))) ∧
    Committed r = false ∧ FailedIndex r = 0 ∧ tables d = ["a"%string].
Proof.
  exists (mkDb ∅ ["a"%string]), (mkBatchResult [no_result] false 0). split; [| done]. apply rtc_once. unfold faulty. cbn.
  exact (update_ack_lost [] _ _ _ empty_db "timeout").
Qed.

(** The number cannot be read after the commit: nothing is published, and the
    answer carries neither the number nor an error. *)
Lemma commit_unannounced :
  ∃ d c, rtc faulty (empty_db, ExecAndPublish log_exec log_query no_scan requests bus_up true true true 5 "app" "room" "three" "x" None)
      (d, Ret (Ok (mkPublished c true 0 0 false EmptyString), [], None)) ∧ tables d = ["a"; "b"]%string.
Proof.
  exists (mkDb {["app"%string := (2, 5)]} ["a"; "b"]%string), [exec_result (1, 1); query_result (Ok [{["n"%string := Int64 2]}]); exec_result (1, 2)].
  split; [| done]. cbn. eapply rtc_l; [apply faulty_update |]. cbn. eapply rtc_l; [apply faulty_query |]. cbn.
  apply rtc_once. exact (query_failed [] _ _ _ _ "timeout").
Qed.
