(* ===== verification/RqliteReads.v ===== *)
(** * Batched reads and the freshness of followers ([core/pkg/rqlite/freshness.go],
      [freshness_read.go], [batch.go], [client.go],
      [core/pkg/serverless/hostfunctions/database.go])

    A gateway can read from the database server of its own node, which is
    fast and may lag behind, or through the leader.  A read that allows the local server is
    gated by the state of that server; one with a bound is refused by the server
    when it lags by more.  Results are bounded in rows and bytes. *)

From Stdlib Require Import ZArith Lia Ascii String.
From stdpp Require Import base tactics numbers list gmap strings pretty.
From S2P Require Import Prelude GoStrings Transactions.

Local Open Scope Z_scope.
Local Open Scope go_scope.

(** ** [time.ParseDuration] *)

Definition is_digit (a : ascii) : bool := match digit_value a with Some _ => true | None => false end.

(** Digits up to the first other byte; [None] beyond 2^63. *)
Fixpoint leadingInt (x : Z) (s : string) : option (Z * string) :=
  match s with
  | EmptyString => Some (x, s)
  | String a s' =>
      match digit_value a with
      | None => Some (x, s)
      | Some d => if (2 ^ 63 / 10 <? x) || (2 ^ 63 <? x * 10 + d) then None else leadingInt (x * 10 + d) s'
      end
  end.

(** Digits of a fraction; those beyond the precision are skipped. *)
Fixpoint leadingFraction (x scale : Z) (overflow : bool) (s : string) : Z * Z * string :=
  match s with
  | EmptyString => (x, scale, s)
  | String a s' =>
      match digit_value a with
      | None => (x, scale, s)
      | Some d =>
          if overflow || ((2 ^ 63 - 1) / 10 <? x) || (2 ^ 63 <? x * 10 + d) then leadingFraction x scale true s'
          else leadingFraction (x * 10 + d) (scale * 10) false s'
      end
  end.

(** The unit: everything up to a digit or a point. *)
Fixpoint unit_of (s : string) : string * string :=
  match s with
  | EmptyString => (EmptyString, EmptyString)
  | String a s' => if Ascii.eqb a "." || is_digit a then (EmptyString, s) else let '(u, r) := unit_of s' in (String a u, r)
  end.

Definition unitMap (u : string) : option Z :=
  if String.eqb u "ns" then Some Nanosecond
  else if String.eqb u "us" || String.eqb u (str_of_bytes [194; 181; 115]%N) || String.eqb u (str_of_bytes [206; 188; 115]%N) then Some (1000 * Nanosecond)
  else if String.eqb u "ms" then Some Millisecond
  else if String.eqb u "s" then Some Second
  else if String.eqb u "m" then Some Minute
  else if String.eqb u "h" then Some Hour
  else None.

Fixpoint duration_loop (fuel : nat) (d : Z) (s : string) : option Z :=
  match fuel, s with
  | _, EmptyString => Some d
  | O, _ => None
  | S fuel', String a _ =>
      if negb (Ascii.eqb a "." || is_digit a) then None
      else
        match leadingInt 0 s with
        | None => None
        | Some (v, s1) =>
            let pre := negb (String.eqb s1 s) in
            let '(f, scale, s2, post) :=
              match s1 with
              | String "." s1' => let '(f, scale, r) := leadingFraction 0 1 false s1' in (f, scale, r, negb (String.eqb r s1'))
              | _ => (0, 1, s1, false)
              end in
            if negb (pre || post) then None
            else
              let '(u, s3) := unit_of s2 in
              match unitMap u with
              | None => None
              | Some unit =>
                  if 2 ^ 63 / unit <? v then None
                  else
                    let v' := v * unit + f * unit / scale in
                    if (2 ^ 63 <? v') || (2 ^ 63 <? d + v') then None else duration_loop fuel' (d + v') s3
              end
        end
  end.

Definition ParseDuration (s : string) : option duration :=
  let '(neg, s1) := match s with String "-" r => (true, r) | String "+" r => (false, r) | _ => (false, s) end in
  if String.eqb s1 "0" then Some 0
  else if String.eqb s1 EmptyString then None
  else
    match duration_loop (str_len s1) 0 s1 with
    | None => None
    | Some d => if neg then Some (- d) else if 2 ^ 63 - 1 <? d then None else Some d
    end.

(** ** The state of the local server ([freshness.go]) *)

Definition StalenessMaxLastContact : duration := 2 * Second.
Definition StalenessMaxApplyGap : Z := 50.
Definition staleNeverContact : duration := 2 ^ 62 - 1.
Definition defaultFreshnessGateTTL : duration := 250 * Millisecond.

Record raft_status := mkRaft { State : string; LastContact : string; CommitIndex : Z; AppliedIndex : Z }.

Definition parseLastContact (s : string) : duration :=
  let s := TrimSpace s in
  if String.eqb s EmptyString || EqualFoldAscii s "never" then staleNeverContact
  else default staleNeverContact (ParseDuration s).

Inductive reason := ALeader | AFreshFollower | LongSinceContact | LargeGap | StatusFailed | CheckFailed.

Definition LocalFollowerFresh (status : result string raft_status) : bool * reason * option string :=
  match status with
  | Err e => (false, StatusFailed, Some e)
  | Ok raft =>
      if EqualFoldAscii (State raft) "Leader" then (true, ALeader, None)
      else if StalenessMaxLastContact <? parseLastContact (LastContact raft) then (false, LongSinceContact, None)
      else if (AppliedIndex raft <=? CommitIndex raft) && (StalenessMaxApplyGap <? CommitIndex raft - AppliedIndex raft) then (false, LargeGap, None)
      else (true, AFreshFollower, None)
  end.

Record gate := mkGate { ttl : duration; at_ : time; fresh : bool; why : reason }.

Definition newFollowerFreshnessGate (t : duration) : gate := mkGate (if t <=? 0 then defaultFreshnessGateTTL else t) time_zero false StatusFailed.

(** [t0]: the clock on entry; [t1]: after the check. *)
Definition Fresh (status : result string raft_status) (t0 t1 : time) (g : gate) : bool * gate :=
  if negb (IsZero (at_ g)) && (Since t0 (at_ g) <? ttl g) then (fresh g, g)
  else
    let '(f, r, err) := LocalFollowerFresh status in
    let '(f, r) := match err with Some _ => (false, CheckFailed) | None => (f, r) end in
    (f, mkGate (ttl g) t1 f r).

(** ** Results and their bounds ([batch.go]) *)

Definition MaxBatchQueryRowsPerOp : Z := 10000.
Definition MaxBatchQueryTotalBytes : Z := 32 * 1024 * 1024.

Definition value_bytes (v : value) : Z := match v with Text s | Blob s => Z.of_nat (str_len s) | _ => 16 end.
Definition row_bytes (r : row) : Z := map_fold (λ k v n, n + (Z.of_nat (str_len k) + 16 + value_bytes v)) 32 r.
Definition estimateOpResultBytes (r : OpResult) : Z := foldl (λ n x, n + row_bytes x) (Z.of_nat (str_len (res_Error r)) + 32) (Rows r).

(** A result of the driver: an error, or rows each of which can fail to convert. *)
Inductive qresult := QErr (e : string) | QRows (l : list (result string row)).

Fixpoint collect (who : string) (rows : list row) (l : list (result string row)) : OpResult :=
  match l with
  | [] => mkOpResult BatchOpQuery 0 0 rows EmptyString
  | x :: l' =>
      if MaxBatchQueryRowsPerOp <=? Z.of_nat (length rows) then mkOpResult BatchOpQuery 0 0 rows (who +:+ ": row cap exceeded")
      else
        match x with
        | Err e => mkOpResult BatchOpQuery 0 0 rows (who +:+ ": row map: " +:+ e)
        | Ok r => collect who (rows ++ [r]) l'
        end
  end.

Definition queryResultToOpResult (who : string) (qr : qresult) : OpResult :=
  match qr with
  | QErr e => mkOpResult BatchOpQuery 0 0 [] e
  | QRows l => collect who [] l
  end.

Definition over_budget (who : string) : OpResult := mkOpResult BatchOpQuery 0 0 [] (who +:+ ": aggregate result bytes exceeded cap").
Definition missing (who : string) : OpResult := mkOpResult BatchOpQuery 0 0 [] (who +:+ ": no result returned for op").

Fixpoint fill (who : string) (total : Z) (qrs : list qresult) : list OpResult :=
  match qrs with
  | [] => []
  | qr :: qrs' =>
      if MaxBatchQueryTotalBytes <=? total then over_budget who :: fill who total qrs'
      else let r := queryResultToOpResult who qr in r :: fill who (total + estimateOpResultBytes r) qrs'
  end.

Definition padded (who : string) (n : nat) (qrs : list qresult) : list OpResult := fill who 0 qrs ++ replicate (n - length qrs) (missing who).

(** ** The client *)

Inductive ReadConsistency := ReadConsistencyWeak | ReadConsistencyNone.
Inductive connection := ConnWeak | ConnNone.

Record client := mkClient { conn : bool; connNone : bool; staleGate : option gate; freshHTTP : bool }.

(** [parsed]: the DSN has a host and a numeric port. *)
Definition NewClientWithDSN (parsed : bool) : client := mkClient true true (if parsed then Some (newFollowerFreshnessGate 0) else None) parsed.

Definition useNoneConn (rc : ReadConsistency) (hasNoneConn : bool) : bool := match rc with ReadConsistencyNone => hasNoneConn | ReadConsistencyWeak => false end.

Definition weak_conn (c : client) : option connection := if conn c then Some ConnWeak else None.
Definition queryConn (rc : ReadConsistency) (c : client) : option connection := if useNoneConn rc (connNone c) then Some ConnNone else weak_conn c.

(** What the environment answers to one call: the clock before and after the
    check of the local server and the status it gives; the results of the driver on a
    connection; the HTTP response to a read with a bound. *)
Record world := mkWorld {
  t0 : time; t1 : time; status : result string raft_status;
  driver : connection → list statement → list qresult * option string;
  http : duration → bool → list statement → result string (Z * string)
}.

Definition gateNoneConn (w : world) (rc : ReadConsistency) (chosen : option connection) (c : client) : option connection * client :=
  match rc, connNone c, staleGate c with
  | ReadConsistencyNone, true, Some g =>
      let '(f, g') := Fresh (status w) (t0 w) (t1 w) g in
      let c' := mkClient (conn c) (connNone c) (Some g') (freshHTTP c) in
      (if f then chosen else weak_conn c, c')
  | _, _, _ => (chosen, c)
  end.

Inductive read_error :=
| TooMany (n : nat) | NoConnection | WrongKind (i : nat) (kind : string) | Driver (e : string) | FreshnessError (bound : duration) (detail : string)
| NoFreshPath | PostFailed (e : string) | UnexpectedStatus (status : Z) (detail : string) | DecodeFailed | QueryError (e : string) | Panicked
| BadFreshness (msg : string) | BadConsistency (s : string) | HostUnavailable | HostInvalidJson | HostOpsRequired | HostTooMany.

(** The requests a call makes. *)
Inductive request := Ask (c : connection) | Post (bound : duration) (strict : bool).

Fixpoint first_exec (i : nat) (ops : list BatchOp) : option (nat * string) :=
  match ops with
  | [] => None
  | op :: ops' => if String.eqb (Kind op) BatchOpQuery then first_exec (S i) ops' else Some (i, Kind op)
  end.

Definition BatchQueryConsistency (w : world) (ops : list BatchOp) (rc : ReadConsistency) (c : client) : result read_error (list OpResult) * list request * client :=
  if (length ops =? 0)%nat then (Ok [], [], c)
  else if (MaxBatchOps <? length ops)%nat then (Err (TooMany (length ops)), [], c)
  else
    match queryConn rc c with
    | None => (Err NoConnection, [], c)
    | Some chosen =>
        let '(cn, c') := gateNoneConn w rc (Some chosen) c in
        match first_exec 0 ops with
        | Some (i, k) => (Err (WrongKind i k), [], c')
        | None =>
            match cn with
            | None => (Err Panicked, [], c')
            | Some cn =>
                let '(qrs, err) := driver w cn (stmt <$> ops) in
                match qrs, err with
                | [], Some e => (Err (Driver e), [Ask cn], c')
                | _, _ =>
                    if (length ops <? length qrs)%nat then (Err Panicked, [Ask cn], c')
                    else (Ok (padded "rqlite.BatchQuery" (length ops) qrs), [Ask cn], c')
                end
            end
        end
    end.

Definition BatchQuery (w : world) (ops : list BatchOp) (c : client) : result read_error (list OpResult) * list request * client :=
  BatchQueryConsistency w ops ReadConsistencyWeak c.

(** ** Reads with a bound ([freshness_read.go]) *)

Record rqliteQueryResult := mkRq { Columns : list string; Types : list string; Values : list (list value); rq_Error : string }.
Record freshReadEnvelope := mkEnvelope { env_Results : list rqliteQueryResult; env_Error : string }.

Section Reads.
(** [unmarshal]: the JSON of a response; [parse_time]: [time.Parse] with both layouts. *)
Context `{UnicodeCase} (unmarshal : string → option freshReadEnvelope) (parse_time : string → option Z).

Definition isFreshnessRejection (msg : string) : bool := let m := ToLower msg in Contains m "stale" || Contains m "freshness".

Definition freshReadDetail (statusCode : Z) (body : string) : string :=
  let raw := str_take 256 (TrimSpace body) in
  let text := match unmarshal body with Some env => if String.eqb (env_Error env) EmptyString then raw else env_Error env | None => raw end in
  "status " +:+ pretty statusCode +:+ ": " +:+ text.

Definition parseFreshReadResponse (statusCode : Z) (body : string) (bound : duration) : result read_error (list rqliteQueryResult) :=
  if statusCode =? 503 then Err (FreshnessError bound (freshReadDetail statusCode body))
  else if negb (statusCode =? 200) then Err (UnexpectedStatus statusCode (freshReadDetail statusCode body))
  else
    match unmarshal body with
    | None => Err DecodeFailed
    | Some env =>
        if negb (String.eqb (env_Error env) EmptyString) then
          if isFreshnessRejection (env_Error env) then Err (FreshnessError bound (env_Error env)) else Err (QueryError (env_Error env))
        else Ok (env_Results env)
    end.

Definition queryNoneFresh (w : world) (stmts : list statement) (bound : duration) (strict : bool) (c : client) : result read_error (list rqliteQueryResult) * list request :=
  if negb (freshHTTP c) then (Err NoFreshPath, [])
  else
    match http w bound strict stmts with
    | Err e => (Err (PostFailed e), [Post bound strict])
    | Ok (statusCode, body) => (parseFreshReadResponse statusCode body bound, [Post bound strict])
    end.

Definition rqliteToTime (src : value) : result string value :=
  match src with
  | Text s => match parse_time s with Some t => Ok (Time t) | None => Err "cannot parse time" end
  | Float64 z | Int64 z => Ok (Time (z * Second))
  | _ => Err "invalid time type"
  end.

Fixpoint row_cells (columns types : list string) (vals : list value) (m : row) : result string row :=
  match columns with
  | [] => Ok m
  | col :: columns' =>
      let v := default Null (head vals) in
      let ty := default EmptyString (head types) in
      let timed := (String.eqb ty "date" || String.eqb ty "datetime") && match v with Null => false | _ => true end in
      match (if timed then rqliteToTime v else Ok v) with
      | Err e => Err e
      | Ok x => row_cells columns' (tail types) (tail vals) (<[col := x]> m)
      end
  end.

Definition rowToMap (columns types : list string) (vals : list value) : result string row := row_cells columns types vals ∅.

(** A decoded result with its rows, as one of the driver. *)
Definition decoded (r : rqliteQueryResult) : qresult :=
  if negb (String.eqb (rq_Error r) EmptyString) then QErr (rq_Error r) else QRows (rowToMap (Columns r) (Types r) <$> Values r).

Definition rqliteResultToOpResult (r : rqliteQueryResult) : OpResult := queryResultToOpResult "rqlite.BatchQueryFresh" (decoded r).

Definition BatchQueryFresh (w : world) (ops : list BatchOp) (bound : duration) (strict : bool) (c : client) : result read_error (list OpResult) * list request * client :=
  if (length ops =? 0)%nat then (Ok [], [], c)
  else if (MaxBatchOps <? length ops)%nat then (Err (TooMany (length ops)), [], c)
  else
    match first_exec 0 ops with
    | Some (i, k) => (Err (WrongKind i k), [], c)
    | None =>
        if bound <=? 0 then BatchQueryConsistency w ops ReadConsistencyNone c
        else
          match queryNoneFresh w (stmt <$> ops) bound strict c with
          | (Err e, reqs) => (Err e, reqs, c)
          | (Ok results, reqs) => (Ok (padded "rqlite.BatchQueryFresh" (length ops) (take (length ops) (decoded <$> results))), reqs, c)
          end
    end.

(** ** The host function ([database.go]) *)

Definition minFreshness : duration := Millisecond.
Definition maxFreshness : duration := 24 * Hour.

Definition parseFreshness (consistency freshness : string) : result read_error duration :=
  if String.eqb freshness EmptyString then Ok 0
  else if negb (String.eqb consistency "none") then Err (BadFreshness "freshness requires consistency")
  else
    match ParseDuration freshness with
    | None => Err (BadFreshness "invalid freshness")
    | Some d =>
        if d <? minFreshness then Err (BadFreshness "minimum")
        else if maxFreshness <? d then Err (BadFreshness "maximum")
        else Ok d
    end.

Definition resolveBatchQuery (w : world) (ops : list BatchOp) (consistency freshness : string) (strict : bool) (c : client) : result read_error (list OpResult) * list request * client :=
  match parseFreshness consistency freshness with
  | Err e => (Err e, [], c)
  | Ok d =>
      if String.eqb consistency EmptyString || String.eqb consistency "weak" then BatchQuery w ops c
      else if String.eqb consistency "none" then
        if 0 <? d then BatchQueryFresh w ops d strict c else BatchQueryConsistency w ops ReadConsistencyNone c
      else (Err (BadConsistency consistency), [], c)
  end.

Record dbQueryBatchRequest := mkRequest { req_Ops : list BatchOp; Consistency : string; Freshness : string; FreshnessStrict : bool }.
Record dbQueryBatchResult := mkBatchRead { read_Results : list OpResult; StaleRejected : bool; StaleDetail : string }.

Definition as_query (op : BatchOp) : BatchOp := mkOp BatchOpQuery (stmt op).

Definition DBQueryBatch (w : world) (req : option dbQueryBatchRequest) (c : client) : result read_error dbQueryBatchResult * list request * client :=
  match req with
  | None => (Err HostInvalidJson, [], c)
  | Some r =>
      if (length (req_Ops r) =? 0)%nat then (Err HostOpsRequired, [], c)
      else if (MaxBatchOps <? length (req_Ops r))%nat then (Err HostTooMany, [], c)
      else
        match resolveBatchQuery w (as_query <$> req_Ops r) (Consistency r) (Freshness r) (FreshnessStrict r) c with
        | (Err (FreshnessError b detail), reqs, c') => (Ok (mkBatchRead [] true detail), reqs, c')
        | (Err e, reqs, c') => (Err e, reqs, c')
        | (Ok out, reqs, c') => (Ok (mkBatchRead out false EmptyString), reqs, c')
        end
  end.

(** ** Where reads go

    [fresh_status]: the local server is the leader, or follows it closely. *)
Definition fresh_status (st : result string raft_status) : Prop :=
  ∃ raft, st = Ok raft ∧ (EqualFoldAscii (State raft) "Leader" = true ∨
    (parseLastContact (LastContact raft) ≤ 2 * Second ∧ CommitIndex raft - AppliedIndex raft ≤ 50)).

(** A check that ended less than a quarter of a second before [w] found it so. *)
Definition vouched (past : list world) (w : world) : Prop := ∃ w', w' ∈ w :: past ∧ fresh_status (status w') ∧ t0 w - t1 w' < 250 * Millisecond.

Record client_ok (past : list world) (c : client) : Prop := {
  ok_conn : conn c = true;
  ok_none : connNone c = true;
  ok_gate : ∃ g, staleGate c = Some g ∧ ttl g = 250 * Millisecond ∧ (at_ g ≠ time_zero → fresh g = true → ∃ w, w ∈ past ∧ at_ g = t1 w ∧ fresh_status (status w))
}.

Lemma LocalFollowerFresh_spec st : (LocalFollowerFresh st).1.1 = true → (LocalFollowerFresh st).2 = None ∧ fresh_status st.
Proof.
  unfold LocalFollowerFresh, fresh_status. destruct st as [raft | e]; [| done]. destruct (EqualFoldAscii (State raft) "Leader") eqn:Hl; [naive_solver |].
  destruct (Z.ltb_spec StalenessMaxLastContact (parseLastContact (LastContact raft))) as [| Hc]; [done |].
  destruct ((AppliedIndex raft <=? CommitIndex raft) && _) eqn:Hg; [done |]. intros _. split; [done |]. exists raft. split; [done |]. right. split; [exact Hc |].
  unfold StalenessMaxApplyGap in Hg. apply andb_false_iff in Hg as [Hg%Z.leb_gt | Hg%Z.ltb_ge]; lia.
Qed.

Lemma Fresh_spec past w g c :
  t0 w ≤ t1 w → client_ok past c → staleGate c = Some g →
  let '(f, g') := Fresh (status w) (t0 w) (t1 w) g in
  client_ok (w :: past) (mkClient (conn c) (connNone c) (Some g') (freshHTTP c)) ∧ (f = true → vouched past w).
Proof.
  intros Ht [H1 H2 (g0 & Hg0 & Httl & Hf)] Hg. rewrite Hg in Hg0. injection Hg0 as <-. unfold Fresh, IsZero, Since.
  destruct (negb (at_ g =? time_zero) && (t0 w - at_ g <? ttl g)) eqn:Hc.
  - apply andb_true_iff in Hc as [Hz%negb_true_iff%Z.eqb_neq Hc%Z.ltb_lt]. split.
    + split; [done | done |]. exists g. split; [done |]. split; [done |]. intros Hz' Hf'. destruct (Hf Hz' Hf') as (w' & Hin & ?). exists w'. split; [by right | done].
    + intros Hf'. destruct (Hf Hz Hf') as (w' & Hin & Hat & Hst). exists w'. split; [by right |]. split; [done |]. rewrite <- Hat, <- Httl. exact Hc.
  - pose proof (LocalFollowerFresh_spec (status w)) as Hs. destruct (LocalFollowerFresh (status w)) as [[f r] err]. cbn in Hs.
    assert (∀ f' r', (f' = true → f = true) → client_ok (w :: past) (mkClient (conn c) (connNone c) (Some (mkGate (ttl g) (t1 w) f' r')) (freshHTTP c)) ∧ (f' = true → vouched past w)) as Hboth.
    { intros f' r' Hff. split.
      - split; [done | done |]. eexists. split; [done |]. split; [done |]. cbn. intros _ Hf'. exists w. split; [left |]. split; [done |]. by apply Hs, Hff.
      - intros Hf'. exists w. split; [left |]. split; [by apply Hs, Hff |]. unfold Millisecond. lia. }
    destruct err as [e |]; by apply Hboth.
Qed.

Lemma client_ok_mono past w c : client_ok past c → client_ok (w :: past) c.
Proof.
  intros [H1 H2 (g & Hg & Httl & Hf)]. split; [done | done |]. exists g. split; [done |]. split; [done |]. intros Hz Hf'.
  destruct (Hf Hz Hf') as (w' & Hin & ?). exists w'. split; [by right | done].
Qed.

(** Where the requests of a call may go. *)
Definition routed (rc : ReadConsistency) (past : list world) (w : world) (reqs : list request) : Prop :=
  reqs = [] ∨ reqs = [Ask ConnWeak] ∨ (reqs = [Ask ConnNone] ∧ rc = ReadConsistencyNone ∧ vouched past w).

Lemma gateNoneConn_spec past w rc c chosen :
  t0 w ≤ t1 w → client_ok past c → queryConn rc c = Some chosen →
  let '(cn, c') := gateNoneConn w rc (Some chosen) c in
  client_ok (w :: past) c' ∧ (cn = Some ConnWeak ∨ (cn = Some ConnNone ∧ rc = ReadConsistencyNone ∧ vouched past w)).
Proof.
  intros Ht Hc. pose proof Hc as [H1 H2 (g & Hg & _)]. unfold queryConn, useNoneConn, gateNoneConn, weak_conn. rewrite H1, H2, Hg.
  destruct rc; intros [= <-].
  - split; [by apply client_ok_mono | by left].
  - pose proof (Fresh_spec past w g c Ht Hc Hg) as Hf. destruct (Fresh (status w) (t0 w) (t1 w) g) as [f g']. rewrite H1, H2 in Hf.
    destruct Hf as [Hok Hv]. split; [done |]. destruct f; [right; auto | by left].
Qed.

Lemma BatchQueryConsistency_routed past w ops rc c :
  t0 w ≤ t1 w → client_ok past c →
  let '(_, reqs, c') := BatchQueryConsistency w ops rc c in routed rc past w reqs ∧ client_ok (w :: past) c'.
Proof.
  intros Ht Hc. unfold BatchQueryConsistency, routed. destruct (length ops =? 0)%nat; [auto using client_ok_mono |].
  destruct (MaxBatchOps <? length ops)%nat; [auto using client_ok_mono |]. destruct (queryConn rc c) as [chosen |] eqn:Hq; [| auto using client_ok_mono].
  pose proof (gateNoneConn_spec past w rc c chosen Ht Hc Hq) as Hg. destruct (gateNoneConn w rc (Some chosen) c) as [cn c']. destruct Hg as [Hok Hcn].
  destruct (first_exec 0 ops) as [[i k] |]; [auto |]. destruct cn as [cn |]; [| auto].
  assert ([Ask cn] = [] ∨ [Ask cn] = [Ask ConnWeak] ∨ ([Ask cn] = [Ask ConnNone] ∧ rc = ReadConsistencyNone ∧ vouched past w)) as Hr by (destruct Hcn as [[= ->] | ([= ->] & ? & ?)]; auto).
  destruct (driver w cn (stmt <$> ops)) as [[| q qrs] [e |]]; try done; by destruct (length ops <? _)%nat.
Qed.

Lemma parseFreshness_spec consistency freshness d :
  parseFreshness consistency freshness = Ok d → d = 0 ∨ (consistency = "none"%string ∧ ParseDuration freshness = Some d ∧ Millisecond ≤ d ≤ 24 * Hour).
Proof.
  unfold parseFreshness. destruct (String.eqb freshness EmptyString); [intros [= <-]; by left |]. destruct (String.eqb_spec consistency "none"); [| done]. cbn [negb].
  destruct (ParseDuration freshness) as [x |]; [| done]. destruct (Z.ltb_spec x minFreshness); [done |]. destruct (Z.ltb_spec maxFreshness x); [done |].
  intros [= <-]. right. done.
Qed.

(** The consistency a caller asked for. *)
Definition read_level (consistency : string) : ReadConsistency := if String.eqb consistency "none" then ReadConsistencyNone else ReadConsistencyWeak.

Definition routed_call (r : dbQueryBatchRequest) (past : list world) (w : world) (reqs : list request) : Prop :=
  routed (read_level (Consistency r)) past w reqs ∨
  ∃ b, reqs = [Post b (FreshnessStrict r)] ∧ Consistency r = "none"%string ∧ ParseDuration (Freshness r) = Some b ∧ Millisecond ≤ b ≤ 24 * Hour.

Lemma resolve_routed past w r ops c :
  t0 w ≤ t1 w → client_ok past c →
  let '(_, reqs, c') := resolveBatchQuery w ops (Consistency r) (Freshness r) (FreshnessStrict r) c in routed_call r past w reqs ∧ client_ok (w :: past) c'.
Proof.
  intros Ht Hc. unfold resolveBatchQuery, routed_call, read_level.
  assert (∀ rc, routed rc past w [] ∧ client_ok (w :: past) c) as Hnone by (intros rc; split; [by left | by apply client_ok_mono]).
  destruct (parseFreshness (Consistency r) (Freshness r)) as [d | e] eqn:Hp; [| destruct (Hnone (if String.eqb (Consistency r) "none" then ReadConsistencyNone else ReadConsistencyWeak)); auto].
  pose proof (BatchQueryConsistency_routed past w ops ReadConsistencyWeak c Ht Hc) as Hw. pose proof (BatchQueryConsistency_routed past w ops ReadConsistencyNone c Ht Hc) as Hn.
  destruct (String.eqb_spec (Consistency r) "none") as [E | NE].
  - rewrite E. change (String.eqb "none" EmptyString || String.eqb "none" "weak") with false. change (String.eqb "none" "none") with true. cbv iota.
    destruct (0 <? d) eqn:Hd; [| destruct (BatchQueryConsistency w ops ReadConsistencyNone c) as [[? ?] ?]; naive_solver].
    apply Z.ltb_lt in Hd. apply parseFreshness_spec in Hp as [-> | (_ & Hp & Hb)]; [lia |].
    unfold BatchQueryFresh. destruct (length ops =? 0)%nat; [destruct (Hnone ReadConsistencyNone); auto |].
    destruct (MaxBatchOps <? length ops)%nat; [destruct (Hnone ReadConsistencyNone); auto |]. destruct (first_exec 0 ops) as [[i k] |]; [destruct (Hnone ReadConsistencyNone); auto |].
    rewrite (proj2 (Z.leb_gt _ _) Hd). unfold queryNoneFresh. destruct (freshHTTP c); cbn [negb]; [| destruct (Hnone ReadConsistencyNone); auto].
    destruct (http w d (FreshnessStrict r) (stmt <$> ops)) as [[code body] | e]; [destruct (parseFreshReadResponse code body d) |]; (split; [right; by exists d | by apply client_ok_mono]).
  - destruct (_ || _); [unfold BatchQuery; destruct (BatchQueryConsistency w ops ReadConsistencyWeak c) as [[? ?] ?]; naive_solver |].
    destruct (Hnone ReadConsistencyWeak); auto.
Qed.

(** Calls one after the other; the log has the requests of each and the calls before it. *)
Fixpoint serve (past : list world) (calls : list (world * option dbQueryBatchRequest)) (c : client) : list (world * option dbQueryBatchRequest * list world * list request) * client :=
  match calls with
  | [] => ([], c)
  | (w, r) :: calls' =>
      let '(_, reqs, c') := DBQueryBatch w r c in
      let '(log, c'') := serve (w :: past) calls' c' in
      ((w, r, past, reqs) :: log, c'')
  end.

Lemma serve_routed past calls c log c' :
  Forall (λ x, t0 x.1 ≤ t1 x.1) calls → client_ok past c → serve past calls c = (log, c') →
  ∀ w r past' reqs, (w, r, past', reqs) ∈ log → reqs = [] ∨ ∃ q, r = Some q ∧ routed_call q past' w reqs.
Proof.
  intros Hw. revert past c log. induction Hw as [| [w r] calls Ht _ IH]; intros past c log Hc; cbn; [by intros [= <- <-] ???? ?%elem_of_nil |]. cbn in Ht.
  assert (let '(_, reqs, c1) := DBQueryBatch w r c in (reqs = [] ∨ ∃ q, r = Some q ∧ routed_call q past w reqs) ∧ client_ok (w :: past) c1) as Hd.
  { unfold DBQueryBatch. destruct r as [q |]; [| auto using client_ok_mono]. destruct (length (req_Ops q) =? 0)%nat; [auto using client_ok_mono |].
    destruct (MaxBatchOps <? length (req_Ops q))%nat; [auto using client_ok_mono |].
    pose proof (resolve_routed past w q (as_query <$> req_Ops q) c Ht Hc) as Hr.
    destruct (resolveBatchQuery w (as_query <$> req_Ops q) (Consistency q) (Freshness q) (FreshnessStrict q) c) as [[[out | []] reqs] c1]; naive_solver. }
  destruct (DBQueryBatch w r c) as [[a reqs] c1]. destruct Hd as [Hd Hok]. destruct (serve (w :: past) calls c1) as [log1 c2] eqn:Hs. intros [= <- <-].
  intros w' r' past' reqs' [[= -> -> -> ->] | Hin]%elem_of_cons; [done |]. by eapply IH.
Qed.

(** C15: where batched reads go.  Whatever functions ask and however the local server fares, a call makes
    at most one request.  It asks the server of the node itself only when the
    caller allowed it and a check that ended less than a
    quarter of a second before the call began, or in the call, found
    that server to be the leader or within two seconds and fifty entries of it;
    otherwise the request goes to the leader, or carries the caller's own bound,
    between a millisecond and a day, for the server to enforce. *)
Theorem local_reads_fresh calls log c :
  Forall (λ x, t0 x.1 ≤ t1 x.1) calls → serve [] calls (NewClientWithDSN true) = (log, c) →
  ∀ w r past reqs, (w, r, past, reqs) ∈ log →
    reqs = [] ∨ reqs = [Ask ConnWeak] ∨
    (∃ q, r = Some q ∧ reqs = [Ask ConnNone] ∧ Consistency q = "none"%string ∧
       ∃ w', w' ∈ w :: past ∧ fresh_status (status w') ∧ t0 w - t1 w' < 250 * Millisecond) ∨
    (∃ q b, r = Some q ∧ reqs = [Post b (FreshnessStrict q)] ∧ Consistency q = "none"%string ∧ ParseDuration (Freshness q) = Some b ∧ Millisecond ≤ b ≤ 24 * Hour).
Proof.
  intros Hw Hs w r past reqs Hin.
  destruct (serve_routed [] calls (NewClientWithDSN true) log c Hw) with (w := w) (r := r) (past' := past) (reqs := reqs) as [-> | (q & -> & Hq)]; [| done | done | by left |].
  { split; [done | done |]. by eexists. }
  destruct Hq as [[-> | [-> | (-> & Hl & Hv)]] | (b & -> & Hc & Hp & Hb)]; [by left | by right; left | |].
  - right. right. left. exists q. unfold read_level in Hl. destruct (String.eqb_spec (Consistency q) "none"); [| done]. auto.
  - right. right. right. exists q, b. auto.
Qed.

(** ** What comes back *)

Lemma collect_bound who rows l : Z.of_nat (length rows) ≤ MaxBatchQueryRowsPerOp → Z.of_nat (length (Rows (collect who rows l))) ≤ MaxBatchQueryRowsPerOp.
Proof.
  revert rows. induction l as [| x l IH]; intros rows Hr; cbn [collect]; [done |]. destruct (Z.leb_spec MaxBatchQueryRowsPerOp (Z.of_nat (length rows))); [done |].
  destruct x as [r | e]; [| done]. apply IH. rewrite length_app. cbn. lia.
Qed.

Definition sum_bytes (l : list OpResult) : Z := foldr (λ x n, estimateOpResultBytes x + n) 0 l.

Lemma fill_spec who total qrs :
  length (fill who total qrs) = length qrs ∧
  ∀ k x, fill who total qrs !! k = Some x → Z.of_nat (length (Rows x)) ≤ MaxBatchQueryRowsPerOp ∧ (Rows x ≠ [] → total + sum_bytes (take k (fill who total qrs)) < MaxBatchQueryTotalBytes).
Proof.
  revert total. induction qrs as [| qr qrs IH]; intros total; cbn [fill]; [done |].
  destruct (Z.leb_spec MaxBatchQueryTotalBytes total) as [Hb | Hb].
  - destruct (IH total) as [Hl Hk]. split; [cbn; by rewrite Hl |]. intros [| k] x; cbn [lookup list_lookup take sum_bytes foldr].
    + intros [= <-]. by split.
    + intros Hx. destruct (Hk k x Hx) as [H1 H2]. split; [done |]. intros Hne. specialize (H2 Hne).
      (* entries beyond the budget have no rows *)
      exfalso. clear -Hx Hb Hne. revert k Hx. induction qrs as [| qr qrs IH]; intros k; cbn [fill]; [by destruct k |].
      rewrite (proj2 (Z.leb_le _ _) Hb). destruct k as [| k]; [by intros [= <-] | apply IH].
  - cbn zeta. set (r := queryResultToOpResult who qr). destruct (IH (total + estimateOpResultBytes r)) as [Hl Hk]. split; [cbn; by rewrite Hl |].
    intros [| k] x; cbn [lookup list_lookup take sum_bytes foldr].
    + intros [= <-]. split; [| lia]. unfold r, queryResultToOpResult. destruct qr; [done | apply collect_bound; done].
    + intros Hx. destruct (Hk k x Hx) as [H1 H2]. split; [done |]. intros Hne. specialize (H2 Hne). unfold sum_bytes in H2. lia.
Qed.

(** One entry for each statement, within the bounds. *)
Definition bounded_results (n : nat) (out : list OpResult) : Prop :=
  length out = n ∧ ∀ k x, out !! k = Some x →
    Z.of_nat (length (Rows x)) ≤ MaxBatchQueryRowsPerOp ∧ (Rows x ≠ [] → sum_bytes (take k out) < MaxBatchQueryTotalBytes).

Lemma padded_spec who n qrs : (length qrs ≤ n)%nat → bounded_results n (padded who n qrs).
Proof.
  intros Hn. destruct (fill_spec who 0 qrs) as [Hl Hk]. unfold padded, bounded_results. rewrite length_app, length_replicate, Hl. split; [lia |].
  intros k x Hx. apply lookup_app_Some in Hx as [Hx | [Hge Hx]].
  - destruct (Hk k x Hx) as [H1 H2]. split; [done |]. intros Hne. rewrite take_app_le by (apply lookup_lt_Some in Hx; lia). by apply H2.
  - by apply lookup_replicate in Hx as [-> _].
Qed.

Lemma BatchQueryConsistency_bounded w ops rc c out reqs c' :
  BatchQueryConsistency w ops rc c = (Ok out, reqs, c') → bounded_results (length ops) out.
Proof.
  unfold BatchQueryConsistency. destruct (Nat.eqb_spec (length ops) 0) as [-> |]; [by intros [= <- _ _] |]. destruct (MaxBatchOps <? length ops)%nat; [done |].
  destruct (queryConn rc c) as [chosen |]; [| done]. destruct (gateNoneConn w rc (Some chosen) c) as [[cn |] c1]; [| by destruct (first_exec 0 ops) as [[? ?] |]].
  destruct (first_exec 0 ops) as [[? ?] |]; [done |]. destruct (driver w cn (stmt <$> ops)) as [qrs err].
  assert ((if (length ops <? length qrs)%nat then (Err Panicked, [Ask cn], c1) else (Ok (padded "rqlite.BatchQuery" (length ops) qrs), [Ask cn], c1)) = (Ok out, reqs, c') →
    bounded_results (length ops) out) as Hp by (destruct (Nat.ltb_spec (length ops) (length qrs)); [done |]; intros [= <- _ _]; by apply padded_spec).
  destruct qrs, err; try exact Hp; done.
Qed.

(** The server refused the read because of its lag. *)
Definition lag_refusal (code : Z) (body : string) : Prop :=
  code = 503 ∨ (code = 200 ∧ ∃ env, unmarshal body = Some env ∧ env_Error env ≠ EmptyString ∧ isFreshnessRejection (env_Error env) = true).

Lemma parseFreshReadResponse_spec code body bound :
  match parseFreshReadResponse code body bound with
  | Err (FreshnessError b _) => b = bound ∧ lag_refusal code body
  | Ok results => code = 200 ∧ ∃ env, unmarshal body = Some env ∧ env_Error env = EmptyString ∧ env_Results env = results
  | Err _ => ¬ lag_refusal code body
  end.
Proof.
  unfold parseFreshReadResponse, lag_refusal. destruct (Z.eqb_spec code 503) as [-> | N5]; [split; [done | by left] |].
  destruct (Z.eqb_spec code 200) as [-> | N2]; cbn [negb]; [| naive_solver]. destruct (unmarshal body) as [env |]; [| naive_solver].
  destruct (String.eqb_spec (env_Error env) EmptyString) as [E | NE]; cbn [negb]; [split; [done |]; by exists env |].
  destruct (isFreshnessRejection (env_Error env)) eqn:Hf; [split; [done |]; right; split; [done |]; by exists env |].
  intros [? | (_ & env' & [= <-] & _ & Hf')]; [lia | congruence].
Qed.

Lemma resolve_bounded w ops consistency freshness strict c :
  match resolveBatchQuery w ops consistency freshness strict c with
  | (Ok out, _, _) => bounded_results (length ops) out
  | (Err (FreshnessError b _), reqs, _) => reqs = [Post b strict] ∧ ∃ code body, http w b strict (stmt <$> ops) = Ok (code, body) ∧ lag_refusal code body
  | (Err _, [Post b _], _) => ∀ code body, http w b strict (stmt <$> ops) = Ok (code, body) → ¬ lag_refusal code body
  | _ => True
  end.
Proof.
  assert (∀ rc, match BatchQueryConsistency w ops rc c with
                | (Ok out, _, _) => bounded_results (length ops) out
                | (Err (FreshnessError b _), reqs, _) => reqs = [Post b strict] ∧ ∃ code body, http w b strict (stmt <$> ops) = Ok (code, body) ∧ lag_refusal code body
                | (Err _, [Post b _], _) => ∀ code body, http w b strict (stmt <$> ops) = Ok (code, body) → ¬ lag_refusal code body
                | _ => True end) as Hbq.
  { intros rc. pose proof (BatchQueryConsistency_bounded w ops rc c) as Hb. unfold BatchQueryConsistency in *.
    repeat case_match; simplify_eq; try done; by eapply Hb. }
  unfold resolveBatchQuery, parseFreshness. destruct (String.eqb freshness EmptyString).
  { destruct (_ || _); [apply Hbq |]. destruct (String.eqb consistency "none"); [apply Hbq | done]. }
  destruct (String.eqb_spec consistency "none") as [-> | NE]; cbn [negb]; [| done]. destruct (ParseDuration freshness) as [d |]; [| done].
  destruct (d <? minFreshness); [done |]. destruct (maxFreshness <? d); [done |].
  change (String.eqb "none" EmptyString || String.eqb "none" "weak") with false. change (String.eqb "none" "none") with true. cbv iota.
  destruct (0 <? d) eqn:Hd; [| apply Hbq]. apply Z.ltb_lt in Hd. unfold BatchQueryFresh.
  destruct (Nat.eqb_spec (length ops) 0) as [-> |]; [done |]. destruct (MaxBatchOps <? length ops)%nat; [done |]. destruct (first_exec 0 ops) as [[? ?] |]; [done |].
  rewrite (proj2 (Z.leb_gt _ _) Hd). unfold queryNoneFresh. destruct (freshHTTP c); cbn [negb]; [| done].
  destruct (http w d strict (stmt <$> ops)) as [[code body] | e] eqn:Hh; [| intros code body; by rewrite Hh]. pose proof (parseFreshReadResponse_spec code body d) as Hs.
  destruct (parseFreshReadResponse code body d) as [results | []]; try (intros code' body'; rewrite Hh; by intros [= <- <-]).
  - apply padded_spec. rewrite length_take. lia.
  - destruct Hs as [-> Hs]. split; [done |]. exists code, body. by rewrite Hh.
Qed.

(** What a batched read answers.  Results come one for each
    statement in their order, none with more than ten thousand rows, and no
    rows once the results before reach 32 MiB by the estimate.  A caller is told that
    the local server lags exactly when it asked with a bound of its own and
    the server refused the read for that reason, and is then given no results; no other
    failure is reported this way. *)
Theorem batch_reads_bounded w q c :
  match DBQueryBatch w (Some q) c with
  | (Ok r, reqs, _) =>
      if StaleRejected r then
        read_Results r = [] ∧ ∃ b code body, reqs = [Post b (FreshnessStrict q)] ∧ http w b (FreshnessStrict q) (stmt <$> req_Ops q) = Ok (code, body) ∧ lag_refusal code body
      else
        length (read_Results r) = length (req_Ops q) ∧ read_Results r ≠ [] ∧ ∀ k x, read_Results r !! k = Some x →
          Z.of_nat (length (Rows x)) ≤ 10000 ∧ (Rows x ≠ [] → sum_bytes (take k (read_Results r)) < 32 * 1024 * 1024)
  | (Err _, [Post b _], _) => ∀ code body, http w b (FreshnessStrict q) (stmt <$> req_Ops q) = Ok (code, body) → ¬ lag_refusal code body
  | _ => True
  end.
Proof.
  unfold DBQueryBatch. destruct (Nat.eqb_spec (length (req_Ops q)) 0) as [| Hne]; [done |]. destruct (MaxBatchOps <? length (req_Ops q))%nat; [done |].
  pose proof (resolve_bounded w (as_query <$> req_Ops q) (Consistency q) (Freshness q) (FreshnessStrict q) c) as Hr.
  assert (stmt <$> (as_query <$> req_Ops q) = stmt <$> req_Ops q) as Es by (rewrite <- list_fmap_compose; done). rewrite Es, length_fmap in Hr.
  destruct (resolveBatchQuery w (as_query <$> req_Ops q) (Consistency q) (Freshness q) (FreshnessStrict q) c) as [[[out | e] reqs] c1].
  - cbn. destruct Hr as [Hl Hk]. split; [done |]. split; [intros ->; cbn in Hl; lia | exact Hk].
  - destruct e; try exact Hr. cbn. destruct Hr as (-> & code & body & Hh & Hlag). split; [done |]. by exists bound, code, body.
Qed.
End Reads.

(** *** A follower that falls behind *)

Definition follower (contact : string) : result string raft_status := Ok (mkRaft "Follower" contact 120 100).
Definition one_row (_ : connection) (_ : list statement) : list qresult * option string := ([QRows [Ok {["n"%string := Int64 1]}]], None).
Definition refusing (_ : duration) (_ : bool) (_ : list statement) : result string (Z * string) := Ok (503, EmptyString).
Definition at_time (t : time) (contact : string) : world := mkWorld t t (follower contact) one_row refusing.
Definition count_rows : dbQueryBatchRequest := mkRequest [mkOp "query" (Sql "count" [])] "none" EmptyString false.
Definition bounded_read : dbQueryBatchRequest := mkRequest [mkOp "query" (Sql "count" [])] "none" "500ms" false.
Definition nothing (_ : string) : option freshReadEnvelope := None.
Definition no_time (_ : string) : option Z := None.

(** Local, local from the cache although the follower lags by now, and after a
    quarter of a second through the leader; then with a bound. *)
Definition reads : list (world * option dbQueryBatchRequest) :=
  [(at_time (10 * Second) "1.5s", Some count_rows); (at_time (10 * Second + 100 * Millisecond) "2m3.5s", Some count_rows);
   (at_time (10 * Second + 300 * Millisecond) "2m3.5s", Some count_rows); (at_time (11 * Second) "never", Some bounded_read)].

Lemma local_reads_fresh_witness :
  (serve nothing no_time [] reads (NewClientWithDSN true)).1.*2 = [[Ask ConnNone]; [Ask ConnNone]; [Ask ConnWeak]; [Post (500 * Millisecond) false]] ∧
  ∃ w', fresh_status (status w') ∧ 10 * Second + 100 * Millisecond - t1 w' < 250 * Millisecond.
Proof.
  split; [vm_compute; reflexivity |].
  destruct (local_reads_fresh nothing no_time reads (serve nothing no_time [] reads (NewClientWithDSN true)).1 (serve nothing no_time [] reads (NewClientWithDSN true)).2)
    with (w := at_time (10 * Second + 100 * Millisecond) "2m3.5s") (r := Some count_rows) (past := [at_time (10 * Second) "1.5s"]) (reqs := [Ask ConnNone])
    as [H | [H | [(q & _ & _ & _ & w' & _ & H) | (q & b & _ & H & _)]]].
  - repeat constructor; cbn; lia.
  - by destruct (serve nothing no_time [] reads (NewClientWithDSN true)).
  - vm_compute. right. left.
  - discriminate H.
  - discriminate H.
  - exists w'. exact H.
  - discriminate H.
Defined.

(** The durations the server writes. *)
Lemma ParseDuration_examples :
  ParseDuration "2.5ms" = Some 2500000 ∧ ParseDuration "1h2m3.25s" = Some (3723 * Second + 250 * Millisecond) ∧ ParseDuration "-.5s" = Some (- 500 * Millisecond) ∧
  ParseDuration "0" = Some 0 ∧ ParseDuration "3" = None ∧ ParseDuration "9223372036854775808ns" = None ∧ ParseDuration "1s." = None.
Proof. by vm_compute. Qed.
