(* ===== verification/QueryText.v ===== *)
(** * Texts of queries ([core/pkg/rqlite/query_builder.go], [repository.go],
      [orm_types.go], [client.go])

    The builder collects the clauses of a SELECT and prints them; arguments
    travel beside the text and the database puts them in place of the question marks, one after
    the other.  Saving and removing an entity print their statements from the
    fields of a struct.  Arguments are represented by the text of their value. *)

From Stdlib Require Import ZArith Lia Ascii String.
From stdpp Require Import base tactics numbers list strings pretty.
From S2P Require Import Prelude GoStrings.

Local Open Scope go_scope.

(** ** The builder *)

Record joinClause := mkJoin { join_kind : string; join_table : string; join_on : string }.
Record whereClause := mkWhere { conj : string; expr : string; args : list string }.

Record QueryBuilder := mkQb {
  table : string; alias : string; selects : list string; joins : list joinClause; wheres : list whereClause;
  groupBys : list string; orderBys : list string; limit : option Z; offset : option Z
}.

Definition newQueryBuilder (t : string) : QueryBuilder := mkQb t EmptyString [] [] [] [] [] None None.

Definition with_wheres (w : list whereClause) (q : QueryBuilder) : QueryBuilder :=
  mkQb (table q) (alias q) (selects q) (joins q) w (groupBys q) (orderBys q) (limit q) (offset q).
Definition with_limit (l : option Z) (q : QueryBuilder) : QueryBuilder :=
  mkQb (table q) (alias q) (selects q) (joins q) (wheres q) (groupBys q) (orderBys q) l (offset q).

Definition Select (cols : list string) (q : QueryBuilder) : QueryBuilder :=
  mkQb (table q) (alias q) (selects q ++ cols) (joins q) (wheres q) (groupBys q) (orderBys q) (limit q) (offset q).
Definition Alias (a : string) (q : QueryBuilder) : QueryBuilder :=
  mkQb (table q) a (selects q) (joins q) (wheres q) (groupBys q) (orderBys q) (limit q) (offset q).
Definition AndWhere (e : string) (a : list string) (q : QueryBuilder) : QueryBuilder := with_wheres (wheres q ++ [mkWhere "AND" e a]) q.
Definition OrWhere (e : string) (a : list string) (q : QueryBuilder) : QueryBuilder := with_wheres (wheres q ++ [mkWhere "OR" e a]) q.
Definition Where_ (e : string) (a : list string) (q : QueryBuilder) : QueryBuilder := AndWhere e a q.
Definition add_join (j : joinClause) (q : QueryBuilder) : QueryBuilder :=
  mkQb (table q) (alias q) (selects q) (joins q ++ [j]) (wheres q) (groupBys q) (orderBys q) (limit q) (offset q).
Definition InnerJoin (t on : string) (q : QueryBuilder) : QueryBuilder := add_join (mkJoin "INNER" t on) q.
Definition LeftJoin (t on : string) (q : QueryBuilder) : QueryBuilder := add_join (mkJoin "LEFT" t on) q.
Definition Join_ (t on : string) (q : QueryBuilder) : QueryBuilder := add_join (mkJoin "JOIN" t on) q.
Definition GroupBy (cols : list string) (q : QueryBuilder) : QueryBuilder :=
  mkQb (table q) (alias q) (selects q) (joins q) (wheres q) (groupBys q ++ cols) (orderBys q) (limit q) (offset q).
Definition OrderBy (exprs : list string) (q : QueryBuilder) : QueryBuilder :=
  mkQb (table q) (alias q) (selects q) (joins q) (wheres q) (groupBys q) (orderBys q ++ exprs) (limit q) (offset q).
Definition Limit (n : Z) (q : QueryBuilder) : QueryBuilder := with_limit (Some n) q.
Definition Offset (n : Z) (q : QueryBuilder) : QueryBuilder :=
  mkQb (table q) (alias q) (selects q) (joins q) (wheres q) (groupBys q) (orderBys q) (limit q) (Some n).

Fixpoint join_text (js : list joinClause) : string :=
  match js with
  | [] => EmptyString
  | j :: js' => " " +:+ join_kind j +:+ " JOIN " +:+ join_table j +:+ " ON " +:+ join_on j +:+ join_text js'
  end.

Fixpoint where_text (first : bool) (ws : list whereClause) : string :=
  match ws with
  | [] => EmptyString
  | w :: ws' => (if first then EmptyString else " " +:+ conj w +:+ " ") +:+ "(" +:+ expr w +:+ ")" +:+ where_text false ws'
  end.

(** The text before the conditions and the text after them. *)
Definition head_text (q : QueryBuilder) : string :=
  "SELECT " +:+ (match selects q with [] => "*" | l => Join l ", " end) +:+ " FROM " +:+ table q +:+
  (if String.eqb (alias q) EmptyString then EmptyString else " AS " +:+ alias q) +:+ join_text (joins q).
Definition tail_text (q : QueryBuilder) : string :=
  (match groupBys q with [] => EmptyString | l => " GROUP BY " +:+ Join l ", " end) +:+
  (match orderBys q with [] => EmptyString | l => " ORDER BY " +:+ Join l ", " end) +:+
  (match limit q with None => EmptyString | Some n => " LIMIT " +:+ pretty n end) +:+
  (match offset q with None => EmptyString | Some n => " OFFSET " +:+ pretty n end).

Definition Build (q : QueryBuilder) : string * list string :=
  (head_text q +:+ (match wheres q with [] => EmptyString | ws => " WHERE " +:+ where_text true ws end) +:+ tail_text q, concat (args <$> wheres q)).

(** [GetOne] asks for at most one row. *)
Definition one_limit (q : QueryBuilder) : QueryBuilder :=
  match limit q with
  | None => with_limit (Some 1%Z) q
  | Some n => if (1 <? n)%Z then with_limit (Some 1%Z) q else q
  end.
Definition GetOne_query (q : QueryBuilder) : string * list string := Build (one_limit q).

(** The options of a search and the search itself; the order of the criteria is that of the visit of their map. *)
Inductive FindOption := WithOrderBy (l : list string) | WithGroupBy (l : list string) | WithLimit (n : Z) | WithOffset (n : Z) | WithSelect (l : list string) | WithJoin (kind t on : string).

Definition apply_option `{UnicodeCase} (q : QueryBuilder) (o : FindOption) : QueryBuilder :=
  match o with
  | WithOrderBy l => OrderBy l q
  | WithGroupBy l => GroupBy l q
  | WithLimit n => Limit n q
  | WithOffset n => Offset n q
  | WithSelect l => Select l q
  | WithJoin kind t on => let k := ToUpper kind in if String.eqb k "INNER" then InnerJoin t on q else if String.eqb k "LEFT" then LeftJoin t on q else Join_ t on q
  end.

Definition FindBy_query `{UnicodeCase} (t : string) (criteria : list (string * string)) (opts : list FindOption) : QueryBuilder :=
  foldl apply_option (foldl (λ q kv, AndWhere (kv.1 +:+ " = ?") [kv.2] q) (newQueryBuilder t) criteria) opts.

(** ** Entities ([repository.go])

    A field of a struct: its name and tag, whether it is exported, its value and whether that is the zero of its type. *)
Record entity_field := mkEntityField { f_name : string; f_exported : bool; f_tag : string; f_value : string; f_zero : bool }.
Record fieldMeta := mkMeta { index : nat; column : string; isPK : bool; auto : bool }.

Definition tag_option `{UnicodeCase} (m : fieldMeta) (o : string) : fieldMeta :=
  let o := ToLower (TrimSpace o) in
  if String.eqb o "pk" then mkMeta (index m) (column m) true (auto m)
  else if String.eqb o "auto" || String.eqb o "autoincrement" then mkMeta (index m) (column m) (isPK m) true
  else m.

Definition field_meta `{UnicodeCase} (i : nat) (f : entity_field) : fieldMeta :=
  let opts := Split (f_tag f) "," in
  let col := default EmptyString (head opts) in
  let col := if String.eqb col EmptyString then f_name f else col in
  let m := foldl tag_option (mkMeta i col false false) (tail opts) in
  if negb (isPK m) && String.eqb (f_name f) "ID" then mkMeta i (if String.eqb col EmptyString then "id" else col) true (auto m) else m.

Fixpoint collect_from `{UnicodeCase} (i : nat) (fs : list entity_field) : list fieldMeta :=
  match fs with
  | [] => []
  | f :: fs' => if negb (f_exported f) || String.eqb (f_tag f) "-" then collect_from (S i) fs' else field_meta i f :: collect_from (S i) fs'
  end.

(** The fields and, of those marked as the key, the last. *)
Definition collectMeta `{UnicodeCase} (fs : list entity_field) : list fieldMeta * option fieldMeta :=
  let ms := collect_from 0 fs in (ms, last (filter (λ m, isPK m = true) ms)).

Inductive save_error := ErrNoPrimaryKey | ErrNoTableName.

Definition value_at (fs : list entity_field) (m : fieldMeta) : string := default EmptyString (f_value <$> fs !! index m).
Definition zero_at (fs : list entity_field) (m : fieldMeta) : bool := default false (f_zero <$> fs !! index m).

Fixpoint repeat_marks (n : nat) : string := match n with O => EmptyString | S O => "?" | S n' => "?," +:+ repeat_marks n' end.

Definition insert_text (t : string) (cols : list string) : string := "INSERT INTO " +:+ t +:+ " (" +:+ Join cols ", " +:+ ") VALUES (" +:+ repeat_marks (length cols) +:+ ")".
Definition update_text (t : string) (cols : list string) (pk : string) : string :=
  "UPDATE " +:+ t +:+ " SET " +:+ Join ((λ c, c +:+ " = ?") <$> cols) ", " +:+ " WHERE " +:+ pk +:+ " = ?".

(** The statement that saves an entity. *)
Definition saveEntity `{UnicodeCase} (t : string) (fs : list entity_field) : result save_error (string * list string) :=
  match collectMeta fs with
  | (_, None) => Err ErrNoPrimaryKey
  | (ms, Some pk) =>
      if String.eqb t EmptyString then Err ErrNoTableName
      else
        let plain := filter (λ m, isPK m = false) ms in
        let cols := column <$> plain in
        let vals := value_at fs <$> plain in
        if zero_at fs pk then Ok (insert_text t cols, vals)
        else Ok (update_text t cols (column pk), vals ++ [value_at fs pk])
  end.

Definition removeEntity `{UnicodeCase} (t : string) (fs : list entity_field) : result save_error (string * list string) :=
  match collectMeta fs with
  | (_, None) => Err ErrNoPrimaryKey
  | (_, Some pk) => if String.eqb t EmptyString then Err ErrNoTableName else Ok ("DELETE FROM " +:+ t +:+ " WHERE " +:+ column pk +:+ " = ?", [value_at fs pk])
  end.

(** ** Placing the arguments *)

Definition mark : ascii := "?".

(** The arguments in place of the marks, from left to right, and those that are left over. *)
Fixpoint place_args (s : string) (l : list string) : string * list string :=
  match s with
  | EmptyString => (EmptyString, l)
  | String c s' =>
      if Ascii.eqb c mark then
        match l with
        | [] => let '(r, l') := place_args s' [] in (String c r, l')
        | a :: l1 => let '(r, l') := place_args s' l1 in (a +:+ r, l')
        end
      else let '(r, l') := place_args s' l in (String c r, l')
  end.

Definition placed (s : string) (l : list string) : string := (place_args s l).1.

(** As many marks as arguments. *)
Definition marks (s : string) (l : list string) : Prop := count_byte mark s = length l.
Definition unmarked (s : string) : Prop := count_byte mark s = 0.

Lemma count_app a s t : count_byte a (s +:+ t) = count_byte a s + count_byte a t.
Proof. induction s as [| c s IH]; cbn; [done |]. destruct (Ascii.eqb c a); rewrite IH; lia. Qed.

Lemma place_app s t l1 l2 : marks s l1 → place_args (s +:+ t) (l1 ++ l2) = (placed s l1 +:+ (place_args t l2).1, (place_args t l2).2).
Proof.
  unfold marks, placed. revert l1. induction s as [| c s IH]; intros l1; cbn.
  - destruct l1; [| done]. cbn. intros _. by destruct (place_args t l2).
  - unfold mark in *. destruct (Ascii.eqb c "?") eqn:E.
    + destruct l1 as [| a l1]; [done |]. cbn. intros [= Hm]. rewrite (IH l1 Hm). destruct (place_args s l1) as [r l']. cbn. by rewrite <- str_app_assoc.
    + intros Hm. rewrite (IH l1 Hm). destruct (place_args s l1) as [r l']. done.
Qed.

Lemma place_unmarked s t l : unmarked s → place_args (s +:+ t) l = (s +:+ (place_args t l).1, (place_args t l).2).
Proof.
  unfold unmarked. induction s as [| c s IH]; cbn; [by destruct (place_args t l) |]. unfold mark in *. destruct (Ascii.eqb c "?"); [done |].
  cbn. intros Hs. by rewrite (IH Hs).
Qed.

Lemma place_none s : unmarked s → place_args s [] = (s, []).
Proof. intros Hs. pose proof (place_unmarked s EmptyString [] Hs) as H. by rewrite !str_app_nil_r in H. Qed.

Lemma unmarked_app s t : unmarked s → unmarked t → unmarked (s +:+ t).
Proof. unfold unmarked. rewrite count_app. lia. Qed.

Ltac no_mark := first [assumption | reflexivity | apply unmarked_app; no_mark].

(** A condition with its own arguments in place. *)
Definition bound_where (w : whereClause) : whereClause := mkWhere (conj w) (placed (expr w) (args w)) [].

Definition sound_where (w : whereClause) : Prop := marks (expr w) (args w) ∧ unmarked (conj w).

Lemma where_places first ws t l :
  Forall sound_where ws →
  place_args (where_text first ws +:+ t) (concat (args <$> ws) ++ l) = (where_text first (bound_where <$> ws) +:+ (place_args t l).1, (place_args t l).2).
Proof.
  intros Hws. revert first. induction Hws as [| w ws [Hm Hc] _ IH]; intros first; cbn [where_text fmap list_fmap concat app]; [cbn; by destruct (place_args t l) |].
  assert (unmarked (if first then EmptyString else " " +:+ conj w +:+ " ")) as Hpre by (destruct first; no_mark).
  rewrite <- !str_app_assoc. rewrite place_unmarked by no_mark. rewrite place_unmarked by no_mark. rewrite <- app_assoc, place_app by done. cbn [fst snd].
  rewrite place_unmarked by no_mark. rewrite (IH false). cbn [fst snd bound_where expr conj]. by rewrite <- ?str_app_assoc.
Qed.

(** Conditions get their own arguments.  When each condition has as many
    question marks as arguments and the rest of the query has none, the text and the arguments of [Build], put
    together by the database one mark after the other, are the same query with
    every condition filled with its own arguments, whatever clauses were added in
    whatever order, and no argument is left over. *)
Theorem Build_binds q :
  unmarked (head_text q) → unmarked (tail_text q) → Forall sound_where (wheres q) →
  place_args (Build q).1 (Build q).2 = ((Build (with_wheres (bound_where <$> wheres q) q)).1, []).
Proof.
  intros Hh Ht Hw. unfold Build. cbn [fst snd]. rewrite place_unmarked by no_mark.
  change (head_text (with_wheres (bound_where <$> wheres q) q)) with (head_text q). change (tail_text (with_wheres (bound_where <$> wheres q) q)) with (tail_text q).
  destruct (wheres q) as [| w ws] eqn:E; cbn [with_wheres wheres].
  - cbn. by rewrite (place_none _ Ht).
  - rewrite <- !str_app_assoc. rewrite place_unmarked by no_mark.
    pose proof (where_places true (w :: ws) (tail_text q) [] Hw) as H. rewrite app_nil_r in H. rewrite H, (place_none _ Ht). cbn [fst snd]. done.
Qed.

(** ** Entities *)

Definition assignment_text (cv : string * string) : string := cv.1 +:+ " = " +:+ cv.2.

Lemma assignments_place cols vals t l :
  length vals = length cols → Forall unmarked cols →
  place_args (Join ((λ c, c +:+ " = ?") <$> cols) ", " +:+ t) (vals ++ l) = (Join (assignment_text <$> zip cols vals) ", " +:+ (place_args t l).1, (place_args t l).2).
Proof.
  intros Hlen Hc. revert vals Hlen. induction Hc as [| c cols Hc Hcs IH]; intros vals Hlen; destruct vals as [| v vals]; try done.
  - cbn. by destruct (place_args t l).
  - injection Hlen as Hlen. assert (∀ t', place_args (c +:+ " = ?" +:+ t') (v :: vals ++ l) = (assignment_text (c, v) +:+ (place_args t' (vals ++ l)).1, (place_args t' (vals ++ l)).2)) as Hone.
    { intros t'. rewrite place_unmarked by no_mark. cbn. destruct (place_args t' (vals ++ l)). cbn. unfold assignment_text. cbn. by rewrite <- !str_app_assoc. }
    specialize (IH vals Hlen). destruct cols as [| c2 cols]; [destruct vals; [cbn [fmap list_fmap Join]; rewrite <- str_app_assoc; apply Hone | done] |]. destruct vals as [| v2 vals]; [done |].
    change (Join ((λ c0, c0 +:+ " = ?") <$> c :: c2 :: cols) ", ") with ((c +:+ " = ?") +:+ ", " +:+ Join ((λ c0, c0 +:+ " = ?") <$> c2 :: cols) ", ").
    change (Join (assignment_text <$> zip (c :: c2 :: cols) (v :: v2 :: vals)) ", ") with (assignment_text (c, v) +:+ ", " +:+ Join (assignment_text <$> zip (c2 :: cols) (v2 :: vals)) ", ").
    rewrite <- !str_app_assoc. rewrite <- app_comm_cons, Hone, place_unmarked by no_mark. rewrite IH. cbn [fst snd]. done.
Qed.

Lemma marks_place vals t l : place_args (repeat_marks (length vals) +:+ t) (vals ++ l) = (Join vals "," +:+ (place_args t l).1, (place_args t l).2).
Proof.
  induction vals as [| v vals IH]; [cbn; by destruct (place_args t l) |]. destruct vals as [| v2 vals].
  - cbn. by destruct (place_args t l).
  - change (repeat_marks (length (v :: v2 :: vals))) with ("?," +:+ repeat_marks (length (v2 :: vals))). change (Join (v :: v2 :: vals) ",") with (v +:+ "," +:+ Join (v2 :: vals) ",").
    rewrite <- !str_app_assoc. cbn [app] in IH |- *. cbn [place_args String.append]. change (Ascii.eqb "?" mark) with true. change (Ascii.eqb "," mark) with false. cbv iota.
    change (v2 :: (vals ++ l)) with (v2 :: vals ++ l). rewrite IH. cbn. done.
Qed.

(** Statements that save an entity.  For a struct with a key the statement, with its
    arguments in place, inserts the columns of the fields that are not part of
    the key with their own values when the key is zero, and otherwise sets each of them to its own value
    where the key has its value; no argument is left over. *)
Theorem saveEntity_binds `{UnicodeCase} t fs text vals :
  saveEntity t fs = Ok (text, vals) → unmarked t → Forall (λ m, unmarked (column m)) (collectMeta fs).1 →
  ∃ ms pk, collectMeta fs = (ms, Some pk) ∧
    let plain := filter (λ m, isPK m = false) ms in
    place_args text vals =
      (if zero_at fs pk then "INSERT INTO " +:+ t +:+ " (" +:+ Join (column <$> plain) ", " +:+ ") VALUES (" +:+ Join (value_at fs <$> plain) "," +:+ ")"
       else "UPDATE " +:+ t +:+ " SET " +:+ Join ((λ m, column m +:+ " = " +:+ value_at fs m) <$> plain) ", " +:+ " WHERE " +:+ column pk +:+ " = " +:+ value_at fs pk, []).
Proof.
  unfold saveEntity. destruct (collectMeta fs) as [ms [pk |]] eqn:Hm; [| done]. destruct (String.eqb t EmptyString); [done |]. intros Hs Ht Hc. exists ms, pk. split; [done |].
  cbn [fst] in Hc. assert (unmarked (column pk)) as Hpk.
  { unfold collectMeta in Hm. injection Hm as Hms Hlast. apply last_Some_elem_of in Hlast. apply list_elem_of_filter in Hlast as [_ Hin]. rewrite Hms in Hin. by apply (proj1 (Forall_forall _ _) Hc). }
  cbn zeta. set (plain := filter (λ m, isPK m = false) ms) in *.
  assert (Forall unmarked (column <$> plain)) as Hcols by (apply Forall_fmap, Forall_forall; intros m [_ Hin]%list_elem_of_filter; by apply (proj1 (Forall_forall _ _) Hc)).
  destruct (zero_at fs pk); injection Hs as <- <-.
  - unfold insert_text. assert (unmarked (Join (column <$> plain) ", ")) as Hj.
    { clear -Hcols. induction Hcols as [| c l Hc Hl IH]; [done |]. destruct l; [done |]. change (unmarked (c +:+ ", " +:+ Join (s :: l) ", ")). no_mark. }
    rewrite !place_unmarked by no_mark. replace (length (column <$> plain)) with (length (value_at fs <$> plain)) by (by rewrite !length_fmap).
    pose proof (marks_place (value_at fs <$> plain) ")" []) as Hp. rewrite app_nil_r in Hp. rewrite Hp. done.
  - unfold update_text. rewrite !place_unmarked by no_mark. rewrite assignments_place by (rewrite ?length_fmap; done).
    assert (assignment_text <$> zip (column <$> plain) (value_at fs <$> plain) = (λ m, column m +:+ " = " +:+ value_at fs m) <$> plain) as ->
      by (clear; induction plain as [| m l IH]; [done |]; cbn; by f_equal).
    rewrite !place_unmarked by no_mark. cbn. by rewrite str_app_nil_r.
Qed.

(** *** Examples *)

Definition rooms : QueryBuilder := Limit 20 (OrderBy ["t DESC"] (OrWhere "kind IN (?, ?)" ["'a'"; "'b'"] (LeftJoin "members m" "m.room = r.id" (Where_ "r.id = ?" ["7"] (Alias "r" (Select ["r.id"; "t"] (newQueryBuilder "rooms"))))))).

Lemma Build_binds_witness :
  placed (Build rooms).1 (Build rooms).2 =
    "SELECT r.id, t FROM rooms AS r LEFT JOIN members m ON m.room = r.id WHERE (r.id = 7) OR (kind IN ('a', 'b')) ORDER BY t DESC LIMIT 20"%string.
Proof.
  unfold placed. rewrite (Build_binds rooms); [vm_compute; reflexivity | vm_compute; reflexivity | vm_compute; reflexivity |].
  repeat constructor; vm_compute; reflexivity.
Defined.

Definition user (id : string) (zero : bool) : list entity_field :=
  [mkEntityField "ID" true "id,pk,auto" id zero; mkEntityField "Name" true "name" "'anna'" false; mkEntityField "cache" false EmptyString "x" false;
   mkEntityField "Note" true "-" "y" false; mkEntityField "Age" true EmptyString "30" false].

Lemma saveEntity_binds_witness :
  ∃ text vals, saveEntity "users" (user "5" false) = Ok (text, vals) ∧ placed text vals = "UPDATE users SET name = 'anna', Age = 30 WHERE id = 5"%string.
Proof.
  eexists _, _. split; [reflexivity |].
  destruct (saveEntity_binds "users" (user "5" false) _ _ eq_refl) as (ms & pk & Hm & Hp); [reflexivity | repeat constructor; reflexivity |].
  unfold placed. rewrite Hp. vm_compute in Hm. injection Hm as <- <-. vm_compute. reflexivity.
Defined.

(** *** What the texts get wrong *)

(** [Join] writes the word twice. *)
Lemma join_written_twice : (Build (Join_ "b" "a.id = b.id" (newQueryBuilder "a"))).1 = "SELECT * FROM a JOIN JOIN b ON a.id = b.id"%string.
Proof. reflexivity. Qed.

(** An offset alone is not a query of SQLite. *)
Lemma offset_without_limit : (Build (Offset 20 (newQueryBuilder "a"))).1 = "SELECT * FROM a OFFSET 20"%string.
Proof. reflexivity. Qed.

(** An entity with a key of its own choosing is never inserted, and one with nothing
    but a key is an update without assignments. *)
Lemma chosen_key_updates id name :
  saveEntity "users" [mkEntityField "ID" true "id,pk" id false; mkEntityField "Name" true "name" name false] = Ok ("UPDATE users SET name = ? WHERE id = ?"%string, [name; id]) ∧
  saveEntity "users" [mkEntityField "ID" true "id,pk" id false] = Ok ("UPDATE users SET  WHERE id = ?"%string, [id]).
Proof. by split. Qed.
