(* ===== verification/LeaderLocality.v ===== *)
(** * Locality of the raft leader ([core/pkg/namespace/leader_locality.go])

    A leader far away from all other voters makes every write slow.  Each node
    looks, for every namespace whose cluster it leads, at the connection times to the
    other voters and hands the leadership to the nearest when even that one is far. *)

From Stdlib Require Import ZArith Lia String.
From stdpp Require Import base tactics numbers list gmap strings relations.
From S2P Require Import Prelude.

Local Open Scope Z_scope.

Definition leaderLocalityRTTThreshold : duration := 100 * Millisecond.
Definition leaderLocalityCooldown : duration := 10 * Minute.

(** ** The decision *)

(** One peer in the visit of the map. *)
Definition closer (best : string * duration) (p : string * duration) : string * duration :=
  if String.eqb best.1 EmptyString || (p.2 <? best.2) then p else best.

Definition decideLeadershipTransfer (isLeader allVotersReachable cooldownElapsed : bool) (peerRTTs : list (string * duration)) (threshold : duration) : option string :=
  if negb isLeader || negb allVotersReachable || negb cooldownElapsed || (length peerRTTs =? 0)%nat then None
  else
    let best := foldl closer (EmptyString, 0) peerRTTs in
    if threshold <? best.2 then Some best.1 else None.

Record RQLiteNode := mkNode { ID : string; Address : string; Voter : bool; Reachable : bool }.

(** [dial]: the time of a connection to an address, if there is one. *)
Fixpoint measure (dial : string → option duration) (selfID : string) (nodes : list RQLiteNode) (rtts : gmap string duration) (all : bool) : gmap string duration * bool :=
  match nodes with
  | [] => (rtts, all)
  | n :: nodes' =>
      if negb (Voter n) || String.eqb (ID n) selfID then measure dial selfID nodes' rtts all
      else if negb (Reachable n) then measure dial selfID nodes' rtts false
      else
        match dial (if String.eqb (Address n) EmptyString then ID n else Address n) with
        | None => measure dial selfID nodes' rtts false
        | Some rtt => measure dial selfID nodes' (<[ID n := rtt]> rtts) all
        end
  end.

Definition measurePeerRTTs (dial : string → option duration) (nodes : list RQLiteNode) (selfID : string) : gmap string duration * bool := measure dial selfID nodes ∅ true.

(** ** One node *)

(** The times of its transfers by namespace. *)
Definition cooldowns : Type := gmap string time.

Definition leaderTransferCooldownElapsed (now : time) (namespace : string) (c : cooldowns) : bool :=
  match c !! namespace with None => true | Some last => leaderLocalityCooldown <=? Since now last end.
Definition recordLeaderTransfer (now : time) (namespace : string) (c : cooldowns) : cooldowns := <[namespace := now]> c.

Record RaftStatus := mkStatus { State : string; LeaderID : string }.

(** What the node sees of one cluster; [visit]: the order in which a map is visited. *)
Record view := mkView {
  status : option RaftStatus; members : option (list RQLiteNode); dial : string → option duration; visit : gmap string duration → list (string * duration)
}.

(** The target of the transfer, if one is requested; [now] is when the cooldown
    is looked at and [later] when the request is recorded. *)
Definition reconcileNamespaceLeader (v : view) (now later : time) (namespace : string) (rqliteHTTPPort : Z) (c : cooldowns) : option string * cooldowns :=
  if rqliteHTTPPort =? 0 then (None, c)
  else
    match status v with
    | None => (None, c)
    | Some st =>
        if negb (String.eqb (State st) "Leader") then (None, c)
        else
          match members v with
          | None => (None, c)
          | Some nodes =>
              let '(rtts, all) := measurePeerRTTs (dial v) nodes (LeaderID st) in
              match decideLeadershipTransfer true all (leaderTransferCooldownElapsed now namespace c) (visit v rtts) leaderLocalityRTTThreshold with
              | None => (None, c)
              | Some target => (Some target, recordLeaderTransfer later namespace c)
              end
          end
    end.

Lemma closest_spec best l :
  Forall (λ p, p.1 ≠ EmptyString) l → (best.1 ≠ EmptyString ∨ l ≠ []) →
  let r := foldl closer best l in (r = best ∨ r ∈ l) ∧ r.1 ≠ EmptyString ∧ (best.1 ≠ EmptyString → r.2 ≤ best.2) ∧ ∀ p, p ∈ l → r.2 ≤ p.2.
Proof.
  intros Hne. revert best. induction Hne as [| p l Hp _ IH]; intros best Hb; cbn; [destruct Hb; [| done]; repeat split; auto using Z.le_refl; by intros ? ?%elem_of_nil |].
  assert ((closer best p).1 ≠ EmptyString) as Hc by (unfold closer; destruct (String.eqb_spec best.1 EmptyString); cbn; [done |]; by destruct (p.2 <? best.2)).
  destruct (IH (closer best p) (or_introl Hc)) as (H1 & H2 & H3 & H4). specialize (H3 Hc).
  assert (closer best p = p ∨ closer best p = best) as Hcases by (unfold closer; destruct (_ || _); auto).
  assert ((closer best p).2 ≤ p.2 ∧ (best.1 ≠ EmptyString → (closer best p).2 ≤ best.2)) as [Hp2 Hb2].
  { unfold closer. destruct (String.eqb_spec best.1 EmptyString) as [E | NE]; cbn; [split; [lia | done] |]. destruct (Z.ltb_spec p.2 best.2); split; lia. }
  split; [destruct H1 as [-> | H1]; [destruct Hcases as [-> | ->]; [right; left | by left] | right; by right] |]. split; [done |].
  split; [intros Hb'; specialize (Hb2 Hb'); lia |]. intros q [-> | Hq]%elem_of_cons; [lia | by apply H4].
Qed.

(** When and to whom the leadership is handed. *)
Lemma decide_spec isLeader all elapsed (rtts : gmap string duration) l thr target :
  l ≡ₚ map_to_list rtts → rtts !! EmptyString = None →
  decideLeadershipTransfer isLeader all elapsed l thr = Some target ↔
  isLeader = true ∧ all = true ∧ elapsed = true ∧ (∀ id d, rtts !! id = Some d → thr < d) ∧ ∃ d, (target, d) = foldl closer (EmptyString, 0) l ∧ rtts !! target = Some d ∧ ∀ id d', rtts !! id = Some d' → d ≤ d'.
Proof.
  intros Hl Hempty. unfold decideLeadershipTransfer.
  assert (∀ p, p ∈ l ↔ rtts !! p.1 = Some p.2) as Hin by (intros [id d]; rewrite Hl; apply elem_of_map_to_list).
  destruct isLeader; [| cbn; split; [done | naive_solver]]. destruct all; [| cbn; split; [done | naive_solver]]. destruct elapsed; [| cbn; split; [done | naive_solver]]. cbn [negb orb].
  destruct (Nat.eqb_spec (length l) 0) as [E | NE].
  - apply nil_length_inv in E as ->. split; [done |]. intros (_ & _ & _ & _ & d & Hd & Hd2 & _). cbn in Hd. injection Hd as -> ->. congruence.
  - assert (Forall (λ p, p.1 ≠ EmptyString) l) as Hne by (apply Forall_forall; intros p Hp%Hin E; rewrite E in Hp; congruence).
    destruct (closest_spec (EmptyString, 0) l Hne) as (H1 & H2 & _ & H4); [right; by intros -> |]. set (r := foldl closer (EmptyString, 0) l) in *.
    destruct H1 as [Hr | Hr]; [rewrite Hr in H2; done |]. apply Hin in Hr.
    assert (∀ id d, rtts !! id = Some d → r.2 ≤ d) as Hmin by (intros id d Hd; apply (H4 (id, d)); by apply Hin).
    destruct (Z.ltb_spec thr r.2) as [Hlt | Hge]; split.
    + intros [= <-]. repeat (split; [done |]). split; [intros id d Hd; specialize (Hmin id d Hd); lia |]. exists r.2. split; [by destruct r | done].
    + intros (_ & _ & _ & _ & d & Hd & _). by rewrite <- Hd.
    + done.
    + intros (_ & _ & _ & Hall & _). specialize (Hall _ _ Hr). lia.
Qed.

(** ** The nodes of a cluster

    Every node ticks for every namespace whenever it likes and sees the cluster
    as it is then: who leads, who is listed as a voter and reachable, how long
    connections take, all of which may change from tick to tick.  A restart
    loses the times of a node's transfers. *)

Inductive event :=
| Asked (now : time) (n namespace target : string) (v : view)
| Restarted (n : string).

(** The latest event comes first. *)
Record fleet := mkFleet { memory : gmap string cooldowns; events : list event }.

Inductive locality_step : fleet → fleet → Prop :=
| step_tick n namespace port now later v s :
    now ≤ later → (∀ m, visit v m ≡ₚ map_to_list m) →
    locality_step s
      (let '(target, c) := reconcileNamespaceLeader v now later namespace port (default ∅ (memory s !! n)) in
       mkFleet (<[n := c]> (memory s)) (match target with Some t => Asked now n namespace t v :: events s | None => events s end))
| step_restart n s : locality_step s (mkFleet (delete n (memory s)) (Restarted n :: events s)).

(** The other voters of a listing. *)
Definition other_voter (nodes : list RQLiteNode) (self : string) (p : RQLiteNode) : Prop :=
  p ∈ nodes ∧ Voter p = true ∧ ID p ≠ self.

Definition dial_address (p : RQLiteNode) : string := if String.eqb (Address p) EmptyString then ID p else Address p.

(** A request that is called for: by a leader, all other voters of which
    answer and are far away, to the nearest. *)
Definition justified (target : string) (v : view) : Prop :=
  ∃ st nodes, status v = Some st ∧ State st = "Leader"%string ∧ members v = Some nodes ∧
    (NoDup (ID <$> nodes) → EmptyString ∉ (ID <$> nodes) →
     ∃ p d, other_voter nodes (LeaderID st) p ∧ ID p = target ∧ dial v (dial_address p) = Some d ∧
       ∀ q, other_voter nodes (LeaderID st) q → Reachable q = true ∧
         ∃ e, dial v (dial_address q) = Some e ∧ leaderLocalityRTTThreshold < e ∧ d ≤ e).

Lemma measure_false dial_ self nodes m : (measure dial_ self nodes m false).2 = false.
Proof.
  revert m. induction nodes as [| p nodes IH]; intros m; cbn [measure]; [done |].
  destruct (_ || _); [apply IH |]. destruct (negb (Reachable p)); [apply IH |]. destruct (dial_ _); apply IH.
Qed.

(** What was measured when every other voter answered. *)
Lemma measure_spec dial_ self nodes m :
  NoDup (ID <$> nodes) → (∀ p, p ∈ nodes → m !! ID p = None) →
  let r := measure dial_ self nodes m true in
  r.2 = true →
  (∀ q, other_voter nodes self q → Reachable q = true ∧ ∃ e, dial_ (dial_address q) = Some e ∧ r.1 !! ID q = Some e) ∧
  ∀ id d, r.1 !! id = Some d → m !! id = Some d ∨ ∃ p, other_voter nodes self p ∧ ID p = id ∧ dial_ (dial_address p) = Some d.
Proof.
  intros Hnd Hm. revert m Hnd Hm. induction nodes as [| p nodes IH]; intros m Hnd Hm; cbn [measure].
  { intros _. split; [by intros q [?%elem_of_nil _] | by left]. }
  rewrite fmap_cons in Hnd. apply NoDup_cons in Hnd as [Hp Hnd].
  assert (∀ q, q ∈ nodes → m !! ID q = None) as Hm' by (intros q Hq; apply Hm; by right).
  assert (∀ q, other_voter nodes self q → other_voter (p :: nodes) self q) as Hweak by (intros q (Hq & Hv & Hs); split; [by right | done]).
  destruct (negb (Voter p) || String.eqb (ID p) self) eqn:Hskip.
  - intros Hall. destruct (IH m Hnd Hm' Hall) as [H1 H2]. split; [| naive_solver].
    intros q ([-> | Hq]%elem_of_cons & Hv & Hs); [| by apply H1].
    apply orb_true_iff in Hskip as [Hskip | Hskip%String.eqb_eq]; [by rewrite Hv in Hskip | done].
  - apply orb_false_iff in Hskip as [Hv%negb_false_iff Hs%String.eqb_neq]. fold (dial_address p).
    destruct (Reachable p) eqn:Hr; cbn [negb]; [| by rewrite measure_false].
    destruct (dial_ (dial_address p)) as [e |] eqn:He; [| by rewrite measure_false]. intros Hall.
    assert (∀ q, q ∈ nodes → ID q ≠ ID p) as Hne by (intros q Hq E; apply Hp; rewrite <- E; by apply list_elem_of_fmap_2).
    destruct (IH (<[ID p := e]> m) Hnd) as [H1 H2]; [intros q Hq; rewrite lookup_insert_ne by (symmetry; by apply Hne); by apply Hm' | done |].
    assert ((measure dial_ self nodes (<[ID p := e]> m) true).1 !! ID p = Some e) as Hkeep.
    { clear -Hne. assert ((<[ID p := e]> m) !! ID p = Some e) as Hi by apply lookup_insert_eq. revert Hi. generalize (<[ID p := e]> m) as m0, true as b. revert Hne.
      induction nodes as [| q nodes IH]; intros Hne m0 b Hi; cbn [measure]; [done |].
      assert (∀ q', q' ∈ nodes → ID q' ≠ ID p) as Hne' by (intros q' Hq'; apply Hne; by right).
      destruct (_ || _); [by apply IH |]. destruct (negb (Reachable q)); [by apply IH |]. destruct (dial_ _); apply IH; try done.
      rewrite lookup_insert_ne; [done |]. apply Hne. left. }
    split.
    + intros q ([-> | Hq]%elem_of_cons & Hvq & Hsq); [split; [done |]; by exists e | by apply H1].
    + intros id d Hid. destruct (H2 id d Hid) as [Hi | (q & Hq & ? & ?)]; [| right; exists q; auto].
      destruct (decide (id = ID p)) as [-> | Hn]; [| rewrite lookup_insert_ne in Hi by done; by left].
      rewrite lookup_insert_eq in Hi. injection Hi as <-. right. exists p. split; [split; [left | done] | done].
Qed.

(** A tick that requests a transfer. *)
Lemma handing_tick v now later namespace port c target c' :
  (∀ m, visit v m ≡ₚ map_to_list m) → reconcileNamespaceLeader v now later namespace port c = (Some target, c') →
  justified target v ∧ c' = <[namespace := later]> c ∧ ∀ last, c !! namespace = Some last → last + leaderLocalityCooldown ≤ now.
Proof.
  intros Hvisit. unfold reconcileNamespaceLeader. destruct (port =? 0); [done |]. destruct (status v) as [st |] eqn:Hst; [| done].
  destruct (String.eqb_spec (State st) "Leader") as [Hlead |]; cbn [negb]; [| done]. destruct (members v) as [nodes |] eqn:Hnodes; [| done].
  destruct (measurePeerRTTs (dial v) nodes (LeaderID st)) as [rtts all] eqn:Hm.
  destruct (decideLeadershipTransfer true all _ (visit v rtts) leaderLocalityRTTThreshold) as [t |] eqn:Hd; [| done]. intros [= <- <-].
  assert (all = true) as -> by (unfold decideLeadershipTransfer in Hd; by destruct all). split; [| split; [done |]].
  - exists st, nodes. repeat (split; [done |]). intros Hnd Hne.
    destruct (measure_spec (dial v) (LeaderID st) nodes ∅ Hnd) as [H1 H2]; [intros p _; apply lookup_empty | by unfold measurePeerRTTs in Hm; rewrite Hm |].
    unfold measurePeerRTTs in Hm. rewrite Hm in H1, H2. cbn [fst] in H1, H2.
    apply (decide_spec _ _ _ rtts) in Hd as (_ & _ & _ & Hfar & d & _ & Ht & Hmin); [| apply Hvisit |].
    + destruct (H2 t d Ht) as [E | (p & Hp & <- & Hdial)]; [by rewrite lookup_empty in E |]. exists p, d. repeat (split; [done |]).
      intros q Hq. destruct (H1 q Hq) as [Hr (e & He & Hl)]. split; [done |]. exists e. split; [done |]. split; [by eapply Hfar | by eapply Hmin].
    + destruct (rtts !! EmptyString) as [d |] eqn:E; [| done]. exfalso.
      destruct (H2 _ d E) as [E' | (p & (Hp & _) & Hid & _)]; [by rewrite lookup_empty in E' |]. apply Hne. rewrite <- Hid. by apply list_elem_of_fmap_2.
  - unfold decideLeadershipTransfer in Hd. destruct (leaderTransferCooldownElapsed now namespace c) eqn:Hel; [| done].
    intros last Hl. unfold leaderTransferCooldownElapsed, Since in Hel. rewrite Hl in Hel. apply Z.leb_le in Hel. lia.
Qed.

(** The requests of a node for a namespace since its last restart. *)
Definition ends_at (n : string) (e : event) : Prop := match e with Restarted n' => n' = n | _ => False end.

Record locality_inv (s : fleet) : Prop := {
  li_just : ∀ t n ns x v, Asked t n ns x v ∈ events s → justified x v;
  li_apart : ∀ i j t u n ns x y v w, (i < j)%nat → events s !! i = Some (Asked t n ns x v) → events s !! j = Some (Asked u n ns y w) →
    (∀ k e, (i < k < j)%nat → events s !! k = Some e → ¬ ends_at n e) → u + leaderLocalityCooldown ≤ t;
  li_memory : ∀ i t n ns x v, events s !! i = Some (Asked t n ns x v) → (∀ k e, (k < i)%nat → events s !! k = Some e → ¬ ends_at n e) →
    ∃ c u, memory s !! n = Some c ∧ c !! ns = Some u ∧ t ≤ u
}.

Lemma locality_inv_step s s' : locality_inv s → locality_step s s' → locality_inv s'.
Proof.
  intros [H1 H2 H3] Hs. destruct Hs as [n namespace port now later v s Hle Hvisit | n s].
  - destruct (reconcileNamespaceLeader v now later namespace port (default ∅ (memory s !! n))) as [[target |] c'] eqn:Hr.
    + apply handing_tick in Hr as (Hj & -> & Hel); [| done]. split; cbn [events memory].
      * intros t m ns x w [[= -> -> -> -> ->] | Hin]%elem_of_cons; [done | by eapply H1].
      * intros i j t u m ns x y w w' Hij. destruct j as [| j]; [lia |]. cbn. destruct i as [| i]; cbn.
        -- intros [= <- <- <- <- <-] Hjj Hno. destruct (H3 j u n namespace y w' Hjj) as (c & last & Hc & Hl & Hle').
           { intros k e Hk He. apply (Hno (S k) e); [lia | done]. }
           rewrite Hc in Hel. specialize (Hel last Hl). lia.
        -- intros Hi Hjj Hno. apply (H2 i j t u m ns x y w w'); [lia | done | done |]. intros k e Hk He. apply (Hno (S k) e); [lia | done].
      * intros [| i] t m ns x w; cbn.
        -- intros [= <- <- <- <- <-] _. rewrite lookup_insert_eq. eexists _, later. split; [done |]. split; [apply lookup_insert_eq | done].
        -- intros Hi Hno. destruct (H3 i t m ns x w Hi) as (c & u & Hc & Hu & Hle'); [intros k e Hk He; apply (Hno (S k) e); [lia | done] |].
           destruct (decide (m = n)) as [-> | Hne]; [| rewrite lookup_insert_ne by done; by exists c, u].
           rewrite Hc in Hel. rewrite lookup_insert_eq, Hc. cbn [default from_option] in *. destruct (decide (ns = namespace)) as [-> | Hns].
           ++ eexists _, later. split; [done |]. split; [apply lookup_insert_eq |]. specialize (Hel u Hu). unfold leaderLocalityCooldown, Minute, Second in Hel. lia.
           ++ exists (<[namespace := later]> c), u. split; [done |]. split; [| done]. unfold cooldowns. by rewrite lookup_insert_ne.
    + assert (c' = default ∅ (memory s !! n)) as ->.
      { revert Hr. unfold reconcileNamespaceLeader. repeat case_match; congruence. }
      split; cbn [events memory]; [done | done |]. intros i t m ns x w Hi Hno. destruct (H3 i t m ns x w Hi Hno) as (c & u & Hc & Hu & Hle').
      exists c, u. split; [| done]. destruct (decide (m = n)) as [-> | Hne]; [by rewrite lookup_insert_eq, Hc | by rewrite lookup_insert_ne].
  - split; cbn [events memory].
    + intros t m ns x w [? | Hin]%elem_of_cons; [done | by eapply H1].
    + intros [| i] [| j] t u m ns x y w w' Hij; cbn; try done. intros Hi Hj Hno. apply (H2 i j t u m ns x y w w'); [lia | done | done |].
      intros k e Hk He. apply (Hno (S k) e); [lia | done].
    + intros [| i] t m ns x w; cbn; [done |]. intros Hi Hno.
      destruct (H3 i t m ns x w Hi) as (c & u & Hc & Hu & Hle'); [intros k e Hk He; apply (Hno (S k) e); [lia | done] |].
      exists c, u. split; [| done]. rewrite lookup_delete_ne; [done |]. intros ->. apply (Hno 0%nat (Restarted m)); [lia | done | done].
Qed.

(** C23: the leader is moved only when it is alone.  However the nodes tick
    for their namespaces and restart, and however leaders, listings and
    connection times change from tick to tick: a node asks for a transfer only
    when its status says that it leads the cluster of the namespace and every
    other voter of the listing (in which ids are not empty and do not repeat)
    is reachable and takes more than a tenth of a second to connect to, and it
    asks for the nearest of them; and two requests of one node for one
    namespace, between which it did not restart, are ten minutes apart. *)
Theorem leader_locality s :
  rtc locality_step (mkFleet ∅ []) s →
  (∀ t n namespace target v, Asked t n namespace target v ∈ events s →
     ∃ st nodes, status v = Some st ∧ State st = "Leader"%string ∧ members v = Some nodes ∧
       (NoDup (ID <$> nodes) → EmptyString ∉ (ID <$> nodes) →
        ∃ p d, other_voter nodes (LeaderID st) p ∧ ID p = target ∧ dial v (dial_address p) = Some d ∧
          ∀ q, other_voter nodes (LeaderID st) q → Reachable q = true ∧
            ∃ e, dial v (dial_address q) = Some e ∧ 100 * Millisecond < e ∧ d ≤ e)) ∧
  (∀ i j t u n namespace x y v w, (i < j)%nat →
     events s !! i = Some (Asked t n namespace x v) → events s !! j = Some (Asked u n namespace y w) →
     (∀ k, (i < k < j)%nat → events s !! k ≠ Some (Restarted n)) → u + 10 * Minute ≤ t).
Proof.
  intros Hr. assert (locality_inv s) as [H1 H2 _].
  { eapply (invariant_rtc locality_step locality_inv locality_inv_step); [exact Hr |]. split; cbn; [by intros ????? ?%elem_of_nil | done | done]. }
  split; [intros t n ns x v Hin; exact (H1 t n ns x v Hin) |]. intros i j t u n ns x y v w Hij Hi Hj Hno. apply (H2 i j t u n ns x y v w Hij Hi Hj).
  intros k e Hk He. destruct e as [| n']; [tauto |]. intros ->. by apply (Hno k Hk).
Qed.

(** *** Two nodes in Europe and one in Singapore *)

Definition regions : list RQLiteNode :=
  [mkNode "fra1" EmptyString true true; mkNode "fra2" EmptyString true true; mkNode "sin1" "10.0.0.3:7001" true true]%string.

(** What a leader sees from Singapore, and from Frankfurt. *)
Definition from_singapore : view :=
  mkView (Some (mkStatus "Leader" "sin1")) (Some regions) (λ a, Some ((if String.eqb a "fra2" then 240 else 256) * Millisecond)) map_to_list.
Definition from_frankfurt : view :=
  mkView (Some (mkStatus "Leader" "fra2")) (Some regions) (λ a, Some ((if String.eqb a "fra1" then 20 else 240) * Millisecond)) map_to_list.

Definition tick_at (now : time) (n : string) (v : view) (s : fleet) : fleet :=
  let '(target, c) := reconcileNamespaceLeader v now now "app" 10001 (default ∅ (memory s !! n)) in
  mkFleet (<[n := c]> (memory s)) (match target with Some t => Asked now n "app" t v :: events s | None => events s end).
Definition moved : fleet :=
  tick_at (2000 * Second) "fra2" from_frankfurt (tick_at (1090 * Second) "sin1" from_singapore (tick_at (1000 * Second) "sin1" from_singapore (mkFleet ∅ []))).

(** Singapore hands over to the nearer node in Frankfurt, once; that one keeps
    the leadership. *)
Lemma leader_locality_witness :
  events moved = [Asked (1000 * Second) "sin1" "app" "fra2" from_singapore]%string ∧
  ∃ st nodes, status from_singapore = Some st ∧ State st = "Leader"%string ∧ members from_singapore = Some nodes.
Proof.
  assert (events moved = [Asked (1000 * Second) "sin1" "app" "fra2" from_singapore]%string) as He by (vm_compute; reflexivity).
  split; [exact He |]. destruct (leader_locality moved) as [H _].
  - eapply rtc_l; [apply (step_tick "sin1" "app" 10001 (1000 * Second) (1000 * Second) from_singapore); [lia | done] |].
    eapply rtc_l; [apply (step_tick "sin1" "app" 10001 (1090 * Second) (1090 * Second) from_singapore); [lia | done] |].
    apply rtc_once. apply (step_tick "fra2" "app" 10001 (2000 * Second) (2000 * Second) from_frankfurt); [lia | done].
  - destruct (H (1000 * Second) "sin1" "app" "fra2" from_singapore)%string as (st & nodes & ? & ? & ? & _); [rewrite He; left |].
    exists st, nodes. split_and!; assumption.
Defined.
